(* ===== verification/_CoqProject ===== *)
-Q . S2P
Prelude.v
Queue.v
Envelope.v
UnsyncChannel.v
SyncChannel.v
SyncChannelSpec.v
SyncChannelProps.v
SyncChannelConc.v
SyncChannelConcProps.v
Mailbox.v
MailboxProps.v
ContextImpl.v
ContextProps.v
ContextLaws.v
ContextDemo.v
ContextTermination.v
ContextRest.v
Supervisor.v
SupervisorRuns.v
Oneshot.v
Request.v
Address.v
ActorAddress.v
Fut.v
FutProps.v
FutBuild.v
AsyncContext.v
AsyncProps.v
Handler.v
SyncArbiter.v
SyncProps.v
SyncPool.v
Writer.v
WriterProps.v
Registry.v
Codec.v
Resolver.v
Arbiter.v
Msgs.v
System.v
Signals.v
Chat.v
ChatSession.v
ChatNet.v
ChatRun.v
ChatClient.v
ChatWire.v
ChatStart.v
Fibonacci.v
EndToEnd.v
SupervisedSession.v
Tests.v
