(* ===== verification/Prelude.v ===== *)
(** * A verification library for the actix actor framework

    actix (an early version, on tokio and futures 0.1) runs actors: each has a
    mailbox, a context that feeds it messages and polls the futures it spawned,
    and addresses through which others send to it.  This library models the
    framework's Rust code as executable definitions and proves what makes it
    correct.  This file holds what the others share: the outcomes of Rust code,
    stateful programs, loops, fuel, triples, machine integers and vectors.

    ** How code is modelled

    - A method is a [Prog S Task A]: a function from the state [S] to an outcome,
      which is a result, the new state and the tasks it notified; or a panic; or a
      touch of freed memory ([Undef], only in [unsafe] code); or [OutOfFuel].
    - A [loop] of the source is [turns] of its body, or a [Fixpoint] with fuel.
      [m ⇓ x] says that [m] returns [x] with any fuel from some amount on; the
      theorems about loops prove it, so that enough fuel always exists.  Where an
      amount is named it is the number of queued messages or bytes plus a
      constant.  [≡ₘ] is equality of programs, [≈ₘ] equality given enough fuel.
    - [usize] is [Z] modulo [2^64]; the state word of the channel keeps its bits.
      [uint_add] and [uint_sub] are checked in debug builds and wrap in release
      builds.  Where a build makes a difference that a theorem is about, the class
      [Build] says which one it is, and the theorem is for both, or names one.
    - [ends m w T]: the program [m] returns, panics or goes wrong from [w] (it
      does not run out of fuel), and what it returns satisfies [T]; [gives m w T]:
      it returns, and what it returns satisfies [T].
    - Atomic actions of other threads are interleaved by step relations ([step]
      in Queue and in SyncChannelConc, [worker_step], [pool_step], [net_step] in
      System and in ChatNet), under sequential consistency.  A push and a pop of the
      queue are two actions each; the methods of the thread-safe channel are cut at
      their loads, exchanges, queue operations and critical sections.
    - Objects that several parts refer to are components of one state ([Cell],
      [World]), so that a callback that changes its own context is seen.
    - User code (actors, handlers, spawned futures) is an arbitrary program, with
      the laws a theorem needs of it as hypotheses.  Code of other crates (oneshot
      channels, timers, sockets, DNS, JSON, crossbeam's queue, the event loop) is
      a parameter; what is assumed of it is a class with laws.

    ** The parts

    Messages travel through these files in this order:
    - Queue: the lock-free MPSC queue of src/src/address/queue.rs; [MpscQueue] is
      what the channel asks of it.
    - Envelope: a message and the sender of its result (address/envelope.rs).
    - UnsyncChannel: the single-threaded channel (address/unsync_channel.rs).
    - SyncChannel, SyncChannelSpec, SyncChannelProps, SyncChannelConc,
      SyncChannelConcProps: the thread-safe channel (address/sync_channel.rs): its
      methods, its abstract specification [AChan] and the refinement [R], histories
      of operations, the interleaving of its atomic actions, and the invariants of
      the interleaving.
    - Oneshot: the interface of oneshot channels, and [Condition] (utils.rs).
    - Request, Address: sending with a result (address/message.rs, sync.rs,
      unsync.rs, mod.rs); [Transport] is what they ask of a channel.
    - ActorAddress: the addresses starting actors hand out, the envelopes of
      recipients, the texts of errors (address/mod.rs, envelope.rs).
    - Mailbox, MailboxProps: the two receivers of an actor (mailbox.rs).
    - ContextImpl, ContextProps, ContextLaws, ContextDemo: the execution context
      (contextimpl.rs, contextitems.rs, actor.rs) and its life cycle;
      [ActorLaws] is what its theorems ask of an actor.
    - ContextTermination, ContextRest: when polling a context ends ([Paid]:
      messages and futures have weights that what they do uses up), and the actors
      of ContextDemo as an instance.
    - Supervisor, SupervisorRuns: starting, supervising and restarting
      (supervisor.rs, actor.rs), and what a supervised actor handles over its
      lives ([Supervisable]: its code only stops its context).
    - Fut, FutProps, FutBuild: actor futures and streams, and the methods that
      build them (src/src/fut/).
    - AsyncContext, AsyncProps: contexts as an interface and the items actors
      spawn: timers, messages to self, streams (actor.rs, context.rs,
      contextitems.rs, stream.rs, utils.rs).
    - Handler: responses of handlers (handler.rs).
    - SyncArbiter, SyncProps, SyncPool: sync actors, their threads, and the system
      of the threads that send, the arbiter and the workers (sync.rs).
    - Writer, WriterProps: buffered writers (io.rs).
    - Registry: services (registry.rs).
    - Arbiter: the thread-local variables of arbiters (arbiter.rs).
    - Msgs: messages that carry code, and actors started in other threads
      (msgs.rs, arbiter.rs, supervisor.rs).
    - System: the system, its arbiters and shutting down (system.rs, arbiter.rs,
      msgs.rs).
    - Resolver: names and connections (actors/resolver.rs).
    - Signals: the process signals and their subscribers (actors/signal.rs).
    - Codec, Chat: the frames and the rooms of the chat example
      (examples/chat/src/codec.rs, server.rs).
    - ChatSession, ChatNet, ChatRun: its sessions (session.rs), the transition
      system of sessions and server, and an execution of it.
    - ChatClient, ChatWire, ChatStart: its client (client.rs), the bytes between
      clients and sessions, and how both are started (main.rs, client.rs).
    - Fibonacci: the sync actor of examples/fibonacci.rs.
    - EndToEnd: [session_answers] composes the parts from [Addr::send] to the
      answer, for an actor that is not waiting for anything else; its instance is
      the actor of examples/ping.rs.
    - SupervisedSession: the same for a supervised actor whose handlers stop it.
    - Tests: the repository's tests (tests/*.rs and those of the two channels),
      evaluated on the definitions of the files above.
    A definition has the name of the Rust item it translates where that is free,
    and otherwise the name of the type in front ([writer_fut_poll]).

    ** What is proved

    - End to end: every request sent to an actor is answered with what the
      handler returned for its message, in the order of sending, also if the actor
      is restarted in between.
    - Refinement: the queue is an atomic FIFO under every interleaving; every
      operation of the thread-safe channel does what [AChan] does; the chat server
      is a map from sessions to rooms.
    - Termination: polling a mailbox, and a context whose actor comes to rest; a
      supervisor with all the restarts of its actor, which loses no message;
      dropping the queue; the worker threads of sync actors.
    - Sync actors: whatever the threads do, each message the addresses accept is
      taken by one worker, in order, but for those that race with the drop of
      the last address; and what was taken was handled: any [Diary] the handlers
      keep in what the workers share lists exactly those messages.
    - Invariants and safety: the state word of the channel counts, a context is
      in one state of its life cycle, handles are unique, polls do not panic or
      touch freed memory, writers conserve bytes, all lookups of a service give
      the address it is registered under, sessions and chat server agree on the
      rooms.
    - Nothing sleeps for ever: wake-ups of receivers under every interleaving,
      writers that make progress, arbiters that all stop.
    - Equivalence: the future and stream combinators and the connector, polled
      until they are ready, against straight-line programs; round trips: what is typed into the chat client
      arrives as the requests it stands for.
    - Errors: what closed channels answer, and the places where the code does not
      do what it means to: lost wake-ups of parked senders, of polled requests,
      messages lost by the sync arbiter, contexts re-entered from callbacks; polls
      that spin for ever ([context_spins], [supervisor_spins], [recursion_spins]).

    ** Not modelled

    The event loop (tokio) and threads as such: what they poll next is any order
    the theorems allow.  The memory model below sequential consistency.  The
    derive macro's glue and the re-exports of lib.rs.  The tests that are about
    them, start threads or use the network.  Of the examples, sockets, the
    terminal, and what is left of the [main] functions.  Logging and printing are
    left out, except what the chat client shows. *)

From Stdlib Require Export ZArith Lia String.
From stdpp Require Export base tactics option list gmap relations numbers strings.

#[global] Open Scope Z_scope.
#[global] Open Scope list_scope.

(** ** Outcomes of running Rust code *)

(** What running a piece of Rust code can do: return a value, panic with a
    message, touch memory that is not allocated (undefined behaviour, only in
    the [unsafe] code of the queue), or use up the fuel that bounds a loop of
    the model. *)
Inductive Exec (A : Type) : Type :=
| Return (a : A)
| Panic (msg : string)
| Undef
| OutOfFuel.
Arguments Return {A} a.
Arguments Panic {A} msg.
Arguments Undef {A}.
Arguments OutOfFuel {A}.

#[export] Instance exec_ret : MRet Exec := @Return.
#[export] Instance exec_bind : MBind Exec := fun A B f m =>
  match m with
  | Return a => f a
  | Panic s => Panic s
  | Undef => Undef
  | OutOfFuel => OutOfFuel
  end.
#[export] Instance exec_fmap : FMap Exec := fun A B f m => m ≫= fun a => Return (f a).

(** [Option::unwrap] and [Option::expect]. *)
Definition unwrap {A} (msg : string) (o : option A) : Exec A :=
  match o with Some a => Return a | None => Panic msg end.

(** Dereference of a raw pointer. *)
Definition deref {A} (o : option A) : Exec A :=
  match o with Some a => Return a | None => Undef end.

(** [assert!]. *)
Definition rassert (msg : string) (b : bool) : Exec unit :=
  if b then Return tt else Panic msg.

Lemma exec_bind_Return_inv {A B} (f : A → Exec B) (m : Exec A) b :
  m ≫= f = Return b ↔ ∃ a, m = Return a ∧ f a = Return b.
Proof.
  destruct m as [a| | |]; simpl; split; try (by intros (? & ? & ?)); try done.
  - by exists a.
  - by intros (? & [= ->] & ?).
Qed.

Lemma unwrap_Return {A} msg (o : option A) a :
  unwrap msg o = Return a ↔ o = Some a.
Proof. destruct o; simpl; split; congruence. Qed.

Lemma exec_bind_assoc {A B C} (m : Exec A) (f : A → Exec B) (g : B → Exec C) :
  (m ≫= f) ≫= g = m ≫= (fun a => f a ≫= g).
Proof. by destruct m. Qed.

(** A run that needed no more fuel stays the same with more of it:
    [exec_le m1 m2] says that [m2] is [m1] run with at least as much fuel. *)
Definition exec_le {A} (m1 m2 : Exec A) : Prop := m1 = OutOfFuel ∨ m1 = m2.

Infix "⊑ₑ" := exec_le (at level 70).

#[export] Instance exec_le_preorder {A} : PreOrder (@exec_le A).
Proof.
  split; [by right |].
  intros m1 m2 m3 [->| ->]; [by left |]. intros [->| ->]; [by left | by right].
Qed.

#[export] Instance exec_bind_mono {A B} :
  Proper (pointwise_relation A exec_le ==> exec_le ==> exec_le) (@mbind Exec _ A B).
Proof.
  intros f g Hfg m1 m2 [->| ->]; [by left |].
  destruct m2; [apply Hfg | by right ..].
Qed.

Lemma exec_le_bind {A B} (f g : A → Exec B) m1 m2 :
  m1 ⊑ₑ m2 → (∀ a, f a ⊑ₑ g a) → (m1 ≫= f) ⊑ₑ (m2 ≫= g).
Proof. intros Hm Hfg. by apply exec_bind_mono. Qed.

Lemma exec_le_Return {A} (m1 m2 : Exec A) a :
  m1 ⊑ₑ m2 → m1 = Return a → m2 = Return a.
Proof. by intros [->| ->]. Qed.

(** ** Enough fuel *)

(** [m ⇓ a]: the fuelled run [m] returns [a] whenever it is given enough fuel. *)
Definition returns {A} (m : nat → Exec A) (a : A) : Prop :=
  ∃ n, ∀ fuel, (n ≤ fuel)%nat → m fuel = Return a.
Infix "⇓" := returns (at level 70).

Lemma returns_det {A} (m : nat → Exec A) a b : m ⇓ a → m ⇓ b → a = b.
Proof.
  intros [n1 H1] [n2 H2]. specialize (H1 (n1 + n2)%nat ltac:(lia)).
  specialize (H2 (n1 + n2)%nat ltac:(lia)). congruence.
Qed.

Lemma returns_const {A} (m : Exec A) a : m = Return a → (fun _ => m) ⇓ a.
Proof. intros ->. by exists 0%nat. Qed.

Lemma returns_const_inv {A} (m : Exec A) a : (fun _ => m) ⇓ a → m = Return a.
Proof. intros [n H]. by apply (H n). Qed.

(** A run that only improves with fuel returns what it returned once. *)
Lemma returns_mono {A} (m : nat → Exec A) a n :
  (∀ n1 n2, (n1 ≤ n2)%nat → m n1 ⊑ₑ m n2) → m n = Return a → m ⇓ a.
Proof.
  intros Hm Hn. exists n. intros fuel Hf. by eapply exec_le_Return; [apply Hm |].
Qed.

(** ** Stateful code that wakes up tasks *)

(** A method over a state [S] that may panic and that calls [Task::notify] on
    the tasks of the returned list, in that order. *)
Definition Prog (S Task A : Type) : Type := S → Exec (A * S * list Task).

Section prog.
Context {S Task : Type}.

#[export] Instance prog_ret : MRet (Prog S Task) := fun A a s => Return (a, s, []).
#[export] Instance prog_bind : MBind (Prog S Task) := fun A B f m s =>
  '(a, s1, w1) ← m s;
  '(b, s2, w2) ← f a s1;
  Return (b, s2, w1 ++ w2).

(** Read, replace and update the state; wake a task; run effect-free code. *)
Definition get_state : Prog S Task S := fun s => Return (s, s, []).
Definition put_state (s : S) : Prog S Task () := fun _ => Return ((), s, []).
Definition modify (f : S → S) : Prog S Task () := fun s => Return ((), f s, []).
Definition gets {A} (f : S → A) : Prog S Task A := fun s => Return (f s, s, []).
Definition notify (t : Task) : Prog S Task () := fun s => Return ((), s, [t]).
Definition lift {A} (m : Exec A) : Prog S Task A := fun s =>
  a ← m; Return (a, s, []).

(** [if let Some(task) = o { task.notify() }] *)
Definition notify_opt (o : option Task) : Prog S Task () :=
  match o with Some t => notify t | None => mret () end.

Lemma prog_bind_Return {A B} (m : Prog S Task A) (f : A → Prog S Task B) s a s1 w1 :
  m s = Return (a, s1, w1) →
  (m ≫= f) s = '(b, s2, w2) ← f a s1; Return (b, s2, w1 ++ w2).
Proof. unfold mbind at 1, prog_bind. by intros ->. Qed.

Lemma prog_bind_quiet {A B} (m : Prog S Task A) (f : A → Prog S Task B) s a s1 :
  m s = Return (a, s1, []) → (m ≫= f) s = f a s1.
Proof.
  intros Hm. rewrite (prog_bind_Return _ _ _ _ _ _ Hm).
  by destruct (f a s1) as [[[b s2] w2]| | |].
Qed.

Lemma prog_bind_Return_inv {A B} (m : Prog S Task A) (f : A → Prog S Task B) s b s2 w :
  (m ≫= f) s = Return (b, s2, w) ↔
  ∃ a s1 w1 w2, m s = Return (a, s1, w1) ∧ f a s1 = Return (b, s2, w2) ∧ w = w1 ++ w2.
Proof.
  unfold mbind at 1, prog_bind. rewrite exec_bind_Return_inv. split.
  - intros ([[a s1] w1] & Hm & Hf).
    apply exec_bind_Return_inv in Hf as ([[b' s2'] w2] & Hf & [= <- <- <-]).
    by exists a, s1, w1, w2.
  - intros (a & s1 & w1 & w2 & Hm & Hf & ->). exists (a, s1, w1). split; [done |].
    apply exec_bind_Return_inv. by exists (b, s2, w2).
Qed.

(** *** Equality of programs and the laws of the monad *)

Definition prog_eq {A} (m1 m2 : Prog S Task A) : Prop := ∀ s, m1 s = m2 s.

#[export] Instance prog_eq_equivalence {A} : Equivalence (@prog_eq A).
Proof.
  split; [by intros m s | by intros m1 m2 H s |].
  intros m1 m2 m3 H1 H2 s. by rewrite H1.
Qed.

#[export] Instance prog_bind_proper {A B} :
  Proper (pointwise_relation A prog_eq ==> prog_eq ==> prog_eq) (@mbind (Prog S Task) _ A B).
Proof.
  intros f g Hfg m1 m2 Hm s. unfold mbind, prog_bind. rewrite Hm.
  destruct (m2 s) as [[[a s1] w1]| | |]; simpl; [| done..]. by rewrite Hfg.
Qed.

Lemma prog_bind_ret_l {A B} (a : A) (f : A → Prog S Task B) : prog_eq (mret a ≫= f) (f a).
Proof.
  intros s. unfold mbind, prog_bind; simpl.
  by destruct (f a s) as [[[b s2] w2]| | |].
Qed.

Lemma prog_bind_ret_r {A} (m : Prog S Task A) : prog_eq (m ≫= mret) m.
Proof.
  intros s. unfold mbind, prog_bind; simpl.
  destruct (m s) as [[[a s1] w1]| | |]; simpl; [| done..]. by rewrite app_nil_r.
Qed.

Lemma prog_bind_assoc {A B C} (m : Prog S Task A) (f : A → Prog S Task B) (g : B → Prog S Task C) :
  prog_eq ((m ≫= f) ≫= g) (m ≫= (fun a => f a ≫= g)).
Proof.
  intros s. unfold mbind, prog_bind; simpl.
  destruct (m s) as [[[a s1] w1]| | |]; simpl; [| done..].
  destruct (f a s1) as [[[b s2] w2]| | |]; simpl; [| done..].
  destruct (g b s2) as [[[c s3] w3]| | |]; simpl; [| done..]. by rewrite app_assoc.
Qed.

Lemma prog_bind_lift {A B} (a : A) (f : A → Prog S Task B) : prog_eq (lift (Return a) ≫= f) (f a).
Proof. exact (prog_bind_ret_l a f). Qed.

Lemma prog_bind_gets {A B} (g : S → A) (f : A → Prog S Task B) s : (gets g ≫= f) s = f (g s) s.
Proof. unfold mbind, prog_bind; simpl. by destruct (f (g s) s) as [[[b s2] w2]| | |]. Qed.

Lemma prog_bind_out_of_fuel {A B} (f : A → Prog S Task B) :
  prog_eq (lift OutOfFuel ≫= f) (lift OutOfFuel).
Proof. done. Qed.

Lemma prog_bind_cong {A B} (m : Prog S Task A) (f g : A → Prog S Task B) :
  (∀ a, prog_eq (f a) (g a)) → prog_eq (m ≫= f) (m ≫= g).
Proof. intros H. by apply prog_bind_proper. Qed.

(** Fuel monotonicity of programs. *)
Definition prog_le {A} (m1 m2 : Prog S Task A) : Prop := ∀ s, m1 s ⊑ₑ m2 s.

Lemma prog_le_refl {A} (m : Prog S Task A) : prog_le m m.
Proof. intros s. by right. Qed.

Lemma prog_le_out_of_fuel {A} (m : Prog S Task A) : prog_le (lift OutOfFuel) m.
Proof. intros s. by left. Qed.

Lemma prog_le_bind {A B} (m1 m2 : Prog S Task A) (f g : A → Prog S Task B) :
  prog_le m1 m2 → (∀ a, prog_le (f a) (g a)) → prog_le (m1 ≫= f) (m2 ≫= g).
Proof.
  intros Hm Hfg s. apply exec_le_bind; [apply Hm |]. intros [[a s1] w1].
  apply exec_le_bind; [apply Hfg |]. intros [[b s2] w2]. by right.
Qed.
End prog.

Infix "≡ₘ" := prog_eq (at level 70).

#[export] Instance prog_le_preorder {S Task A} : PreOrder (@prog_le S Task A).
Proof.
  split; [intros m; apply prog_le_refl |].
  intros m1 m2 m3 H1 H2 s. by etrans; [apply H1 | apply H2].
Qed.

#[export] Instance prog_le_proper {S Task A} :
  Proper (@prog_eq S Task A ==> @prog_eq S Task A ==> iff) (@prog_le S Task A).
Proof.
  intros m1 m2 Hm n1 n2 Hn. split; intros H s; specialize (H s);
    [by rewrite <- Hm, <- Hn | by rewrite Hm, Hn].
Qed.

(** Two fuelled programs that return the same when they have enough fuel. *)
Definition same_returns {S Task A} (m1 m2 : nat → Prog S Task A) : Prop :=
  ∀ s x, (fun fuel => m1 fuel s) ⇓ x ↔ (fun fuel => m2 fuel s) ⇓ x.
Infix "≈ₘ" := same_returns (at level 70).

#[export] Instance same_returns_equivalence {S Task A} : Equivalence (@same_returns S Task A).
Proof.
  split; [by intros m s x | by intros m1 m2 H s x; symmetry |].
  intros m1 m2 m3 H1 H2 s x. by rewrite (H1 s x).
Qed.

Lemma same_returns_eq {S Task A} (m1 m2 : nat → Prog S Task A) :
  (∀ n, m1 n ≡ₘ m2 n) → m1 ≈ₘ m2.
Proof. intros H s x. split; intros [n Hn]; exists n; intros k Hk; rewrite <- (Hn k Hk), (H k s); done. Qed.

(** It suffices that each is below the other with more fuel. *)
Lemma same_returns_le {S Task A} (m1 m2 : nat → Prog S Task A) (k1 k2 : nat → nat) :
  (∀ n1 n2, (n1 ≤ n2)%nat → prog_le (m1 n1) (m1 n2)) →
  (∀ n1 n2, (n1 ≤ n2)%nat → prog_le (m2 n1) (m2 n2)) →
  (∀ n, prog_le (m1 n) (m2 (k1 n))) → (∀ n, prog_le (m2 n) (m1 (k2 n))) → m1 ≈ₘ m2.
Proof.
  intros Hm1 Hm2 H12 H21 s x. split; intros [n Hn]; specialize (Hn n ltac:(lia)).
  - apply (returns_mono _ _ (k1 n)); [intros; by apply Hm2 |].
    by eapply exec_le_Return; [apply H12 |].
  - apply (returns_mono _ _ (k2 n)); [intros; by apply Hm1 |].
    by eapply exec_le_Return; [apply H21 |].
Qed.

(** The rest of a program may be replaced by one that returns the same. *)
Lemma same_returns_bind {S Task A B} (m : Prog S Task A) (f g : nat → A → Prog S Task B) :
  (∀ n1 n2 a, (n1 ≤ n2)%nat → prog_le (f n1 a) (f n2 a)) →
  (∀ n1 n2 a, (n1 ≤ n2)%nat → prog_le (g n1 a) (g n2 a)) →
  (∀ a, (fun n => f n a) ≈ₘ (fun n => g n a)) →
  (fun n => a ← m; f n a) ≈ₘ (fun n => a ← m; g n a).
Proof.
  intros Hf Hg Hfg. assert (∀ (f g : nat → A → Prog S Task B) s x,
    (∀ n1 n2 a, (n1 ≤ n2)%nat → prog_le (g n1 a) (g n2 a)) →
    (∀ a, (fun n => f n a) ≈ₘ (fun n => g n a)) →
    (fun n => (a ← m; f n a) s) ⇓ x → (fun n => (a ← m; g n a) s) ⇓ x) as Hone.
  { clear. intros f g s [[b s2] w] Hg Hfg [n Hn].
    assert (∀ k, (n ≤ k)%nat → ∃ a s1 w1, m s = Return (a, s1, w1) ∧
      ∃ w2, f k a s1 = Return (b, s2, w2) ∧ w = w1 ++ w2) as H.
    { intros k Hk. apply Hn, prog_bind_Return_inv in Hk as (a & s1 & w1 & w2 & ? & ? & ?).
      by exists a, s1, w1; split; [| exists w2]. }
    destruct (H n ltac:(lia)) as (a & s1 & w1 & Hm & w2 & _ & ->).
    assert ((fun k => f k a s1) ⇓ (b, s2, w2)) as Hfa.
    { exists n. intros k Hk. destruct (H k Hk) as (a' & s1' & w1' & Hm' & w2' & Hf' & Hw).
      rewrite Hm in Hm'. injection Hm' as <- <- <-. by apply app_inv_head in Hw as <-. }
    apply Hfg in Hfa as [n' Hn']. exists n'. intros k Hk.
    apply prog_bind_Return_inv. exists a, s1, w1, w2. split_and!; [done | by apply Hn' | done]. }
  intros s x. split; apply Hone; auto. intros a. symmetry. apply Hfg.
Qed.

(** *** Shared cells *)

(** An [Rc<UnsafeCell<X>>] several parts of the program refer to: a component
    [X] of the state [W]. *)
Class Cell (W X : Type) : Type := {
  cell_get : W → X;
  cell_set : X → W → W;
  cell_get_set x w : cell_get (cell_set x w) = x;
  cell_set_set x y w : cell_set x (cell_set y w) = cell_set x w;
  cell_set_get w : cell_set (cell_get w) w = w
}.

Definition cell_read {W Task X} `{!Cell W X} : Prog W Task X := gets cell_get.
Definition cell_update {W Task X} `{!Cell W X} (f : X → X) : Prog W Task () :=
  modify (fun w => cell_set (f (cell_get w)) w).

Create HintDb fuel.
#[export] Hint Extern 1 (_ ≤ _)%nat => lia : fuel.
#[export] Hint Resolve prog_le_refl prog_le_out_of_fuel : fuel.

(** Proves [prog_le] between two runs of the same loop body; the recursive
    calls are left to the induction hypothesis in the context. *)
Ltac solve_prog_le :=
  repeat (intros; match goal with
    | |- prog_le ?m ?m => apply prog_le_refl
    | |- prog_le (lift OutOfFuel) _ => apply prog_le_out_of_fuel
    | |- prog_le (_ ≫= _) (_ ≫= _) => apply prog_le_bind
    | |- prog_le (match ?x with _ => _ end) _ => destruct x
    | |- prog_le _ _ => solve [auto with fuel]
    end).

(** ** Loops *)

(** What one iteration of a [loop] does: go on, or leave with a result. *)
Inductive Turn (R : Type) : Type :=
| NextTurn
| Leave (r : R).
Arguments NextTurn {R}.
Arguments Leave {R} r.

(** A [loop] over the local state [X]. *)
Fixpoint turns {S Task X R} (body : X → Prog S Task (X * Turn R)) (fuel : nat) (x : X)
  : Prog S Task (X * R) :=
  match fuel with
  | O => lift OutOfFuel
  | Datatypes.S fuel =>
      '(x, t) ← body x;
      match t with
      | NextTurn => turns body fuel x
      | Leave r => mret (x, r)
      end
  end.

Lemma turns_mono {S Task X R} (body : X → Prog S Task (X * Turn R)) n1 n2 x :
  (n1 ≤ n2)%nat → prog_le (turns body n1 x) (turns body n2 x).
Proof.
  revert n2 x. induction n1 as [|n1 IH]; intros n2 x Hn; [apply prog_le_out_of_fuel |].
  destruct n2 as [|n2]; [lia |]. cbn [turns]. solve_prog_le.
Qed.

(** ** Reasoning about programs *)

Section triple.
Context {S Task : Type}.

(** [triple safe P m Q]: run in a state that satisfies [P], [m] can only return
    with [Q]; if [safe] it can also not panic and not touch freed memory.
    Running out of fuel is always possible. *)
Definition triple {A} (safe : bool) (P : S → Prop) (m : Prog S Task A) (Q : A → S → Prop) : Prop :=
  ∀ s, P s → match m s with
             | Return (a, s', _) => Q a s'
             | OutOfFuel => True
             | Panic _ | Undef => safe = false
             end.

#[export] Instance triple_proper {A} safe P :
  Proper (prog_eq ==> eq ==> iff) (@triple A safe P).
Proof. intros m1 m2 Hm Q _ <-. split; intros H s Hs; specialize (H s Hs); by rewrite (Hm s) in *. Qed.

Lemma triple_ret {A} safe (P : S → Prop) (a : A) (Q : A → S → Prop) :
  (∀ s, P s → Q a s) → triple safe P (mret a : Prog S Task A) Q.
Proof. intros HQ s Hs. exact (HQ s Hs). Qed.

Lemma triple_bind {A B} safe P (m : Prog S Task A) (f : A → Prog S Task B) Q R :
  triple safe P m Q → (∀ a, triple safe (Q a) (f a) R) → triple safe P (m ≫= f) R.
Proof.
  intros Hm Hf s Hs. specialize (Hm s Hs). unfold mbind, prog_bind.
  destruct (m s) as [[[a s1] w1]| | |]; simpl; [| done..].
  specialize (Hf a s1 Hm). by destruct (f a s1) as [[[b s2] w2]| | |].
Qed.

Lemma triple_conseq {A} safe (P P' : S → Prop) (m : Prog S Task A) (Q Q' : A → S → Prop) :
  triple safe P' m Q' → (∀ s, P s → P' s) → (∀ a s, Q' a s → Q a s) → triple safe P m Q.
Proof.
  intros Hm HP HQ s Hs. specialize (Hm s (HP s Hs)).
  destruct (m s) as [[[a s1] w1]| | |]; auto.
Qed.

(** [triple_pre P'] weakens the precondition to [P']. *)
Lemma triple_pre {A} safe (P P' : S → Prop) (m : Prog S Task A) (Q : A → S → Prop) :
  triple safe P' m Q → (∀ s, P s → P' s) → triple safe P m Q.
Proof. intros Hm HP. eapply triple_conseq; eauto. Qed.

Lemma triple_modify safe (P : S → Prop) (f : S → S) (Q : () → S → Prop) :
  (∀ s, P s → Q () (f s)) → triple safe P (modify f : Prog S Task ()) Q.
Proof. intros H s Hs. by apply H. Qed.

Lemma triple_gets {A} safe (P : S → Prop) (g : S → A) (Q : A → S → Prop) :
  (∀ s, P s → Q (g s) s) → triple safe P (gets g : Prog S Task A) Q.
Proof. intros H s Hs. by apply H. Qed.

Lemma triple_out_of_fuel {A} safe (P : S → Prop) (Q : A → S → Prop) :
  triple safe P (lift OutOfFuel : Prog S Task A) Q.
Proof. done. Qed.

(** A loop keeps the invariant of its body. *)
Lemma triple_turns {X R} safe (body : X → Prog S Task (X * Turn R)) (J : X → S → Prop)
    (Q : X * R → S → Prop) fuel x :
  (∀ x, triple safe (J x) (body x)
     (fun y s => match y.2 with NextTurn => J y.1 s | Leave r => Q (y.1, r) s end)) →
  triple safe (J x) (turns body fuel x) Q.
Proof.
  intros Hb. revert x. induction fuel as [|fuel IH]; intros x; [done |]. cbn [turns].
  eapply triple_bind; [apply Hb |]. intros [y [|r]]; [apply IH | by apply triple_ret].
Qed.

Lemma triple_false {A} safe (m : Prog S Task A) (Q : A → S → Prop) :
  triple safe (fun _ => False) m Q.
Proof. by intros s []. Qed.
End triple.

(** *** Runs that do not use up their fuel *)

Section ends.
Context {S Task : Type}.

(** Run from [s], [m] has enough fuel, and if it returns, then with [Q]. *)
Definition ends {A} (m : Prog S Task A) (s : S) (Q : A → S → Prop) : Prop :=
  match m s with
  | Return (a, s', _) => Q a s'
  | OutOfFuel => False
  | Panic _ | Undef => True
  end.

Lemma ends_bind {A B} (m : Prog S Task A) (f : A → Prog S Task B) s Q R :
  ends m s Q → (∀ a s', Q a s' → ends (f a) s' R) → ends (m ≫= f) s R.
Proof.
  unfold ends, mbind, prog_bind. intros Hm Hf.
  destruct (m s) as [[[a s1] w1]| | |]; simpl; [| done..].
  specialize (Hf a s1 Hm). by destruct (f a s1) as [[[b s2] w2]| | |].
Qed.

Lemma ends_conseq {A} (m : Prog S Task A) s (Q Q' : A → S → Prop) :
  ends m s Q → (∀ a s', Q a s' → Q' a s') → ends m s Q'.
Proof. unfold ends. intros Hm HQ. destruct (m s) as [[[a s'] w]| | |]; auto. Qed.
End ends.

(** *** Runs that return *)

Section gives.
Context {S Task : Type}.

(** Run from [s], [m] returns, with [Q]. *)
Definition gives {A} (m : Prog S Task A) (s : S) (Q : A → S → Prop) : Prop :=
  ∃ a s' w, m s = Return (a, s', w) ∧ Q a s'.

Lemma gives_bind {A B} (m : Prog S Task A) (f : A → Prog S Task B) s Q R :
  gives m s Q → (∀ a s', Q a s' → gives (f a) s' R) → gives (m ≫= f) s R.
Proof.
  intros (a & s1 & w1 & Hm & Ha) Hf. destruct (Hf a s1 Ha) as (b & s2 & w2 & H2 & Hb).
  exists b, s2, (w1 ++ w2). split; [| done]. by rewrite (prog_bind_Return _ _ _ _ _ _ Hm), H2.
Qed.

(** The first step is known. *)
Lemma gives_step {A B} (m : Prog S Task A) (f : A → Prog S Task B) s a s1 R :
  m s = Return (a, s1, []) → gives (f a) s1 R → gives (m ≫= f) s R.
Proof. intros Hm Hf. unfold gives. by rewrite (prog_bind_quiet _ _ _ _ _ Hm). Qed.

Lemma gives_ret {A} (a : A) s (Q : A → S → Prop) : Q a s → gives (mret a) s Q.
Proof. intros HQ. by exists a, s, []. Qed.

Lemma gives_conseq {A} (m : Prog S Task A) s (Q Q' : A → S → Prop) :
  gives m s Q → (∀ a s', Q a s' → Q' a s') → gives m s Q'.
Proof. intros (a & s' & w & Hm & Ha) HQ. exists a, s', w. auto. Qed.

Lemma gives_returns {A} (m : nat → Prog S Task A) n s (Q : A → S → Prop) :
  (∀ n1 n2, (n1 ≤ n2)%nat → prog_le (m n1) (m n2)) → gives (m n) s Q →
  ∃ a s' w, (fun fuel => m fuel s) ⇓ (a, s', w) ∧ Q a s'.
Proof.
  intros Hle (a & s' & w & Hm & Ha). exists a, s', w. split; [| done].
  eapply returns_mono; [| exact Hm]. intros n1 n2 Hn. by apply Hle.
Qed.
End gives.

(** ** The vocabulary of [std] and of the futures the source polls *)

Inductive Result (T E : Type) : Type :=
| Ok (t : T)
| Err (e : E).
Arguments Ok {T E} t.
Arguments Err {T E} e.

Inductive Async (T : Type) : Type :=
| Ready (t : T)
| NotReady.
Arguments Ready {T} t.
Arguments NotReady {T}.

(** [type Poll<T, E> = Result<Async<T>, E>]. *)
Abbreviation Poll T E := (Result (Async T) E).

(** [Result::map] and [Result::map_err]. *)
Definition result_map {T U E} (f : T → U) (r : Result T E) : Result U E :=
  match r with Ok t => Ok (f t) | Err e => Err e end.
Definition result_map_err {T E F} (f : E → F) (r : Result T E) : Result T F :=
  match r with Ok t => Ok t | Err e => Err (f e) end.

(** ** Machine integers *)

(** [usize] on a 64-bit target: a [Z] in [[0, 2^64)], every operation of the
    source taken modulo [2^64]. *)
Definition usize_modulus : Z := 2 ^ 64.
Definition usize_MAX : Z := usize_modulus - 1.
Definition wrap (z : Z) : Z := z mod usize_modulus.
Definition is_usize (z : Z) : Prop := 0 ≤ z < usize_modulus.

Lemma wrap_small z : is_usize z → wrap z = z.
Proof. apply Z.mod_small. Qed.

Lemma wrap_is_usize z : is_usize (wrap z).
Proof. apply Z.mod_pos_bound. reflexivity. Qed.

(** Is the code compiled with debug assertions and overflow checks? *)
Class Build : Type := debug_build : bool.

(** [a + b] and [a - b] on an unsigned type of the given width: a debug build
    checks them, a release build wraps around. *)
Definition uint_add (debug : bool) (width a b : Z) : Exec Z :=
  if debug && (2 ^ width <=? a + b) then Panic "attempt to add with overflow"
  else Return ((a + b) mod 2 ^ width).
Definition uint_sub (debug : bool) (width a b : Z) : Exec Z :=
  if debug && (a <? b) then Panic "attempt to subtract with overflow"
  else Return ((a - b) mod 2 ^ width).

Lemma uint_add_small debug w a b :
  0 ≤ a → 0 ≤ b → a + b < 2 ^ w → uint_add debug w a b = Return (a + b).
Proof.
  intros Ha Hb Hw. unfold uint_add. destruct (Z.leb_spec (2 ^ w) (a + b)); [lia |].
  rewrite andb_false_r. rewrite Z.mod_small; [done | lia].
Qed.

Lemma uint_add_wraps w a b : uint_add false w a b = Return ((a + b) mod 2 ^ w).
Proof. done. Qed.

Lemma uint_add_overflows w a b :
  2 ^ w ≤ a + b → uint_add true w a b = Panic "attempt to add with overflow".
Proof. intros H. unfold uint_add. by destruct (Z.leb_spec (2 ^ w) (a + b)); [| lia]. Qed.

Lemma uint_sub_small debug w a b :
  0 ≤ b ≤ a → a < 2 ^ w → uint_sub debug w a b = Return (a - b).
Proof.
  intros Hb Ha. unfold uint_sub. destruct (Z.ltb_spec a b); [lia |].
  rewrite andb_false_r. rewrite Z.mod_small; [done | lia].
Qed.

(** ** Vectors *)

(** [Vec::swap_remove] and [SmallVec::swap_remove]: swap the element with the
    last one, then pop it. [None] stands for the index panic. *)
Definition swap_remove {A} (l : list A) (i : nat) : option (A * list A) :=
  match l !! i, last l with
  | Some x, Some y => Some (x, take (pred (length l)) (<[i:=y]> l))
  | _, _ => None
  end.

(** [slice::swap]; [None] stands for the index panic. *)
Definition list_swap {A} (l : list A) (i j : nat) : option (list A) :=
  match l !! i, l !! j with
  | Some x, Some y => Some (<[i:=y]> (<[j:=x]> l))
  | _, _ => None
  end.

Lemma snoc_lookup_Some {A} (l : list A) x i y :
  (l ++ [x]) !! i = Some y → l !! i = Some y ∨ i = length l ∧ y = x.
Proof.
  intros [?|[? Hi]]%lookup_app_Some; [by left | right].
  apply list_lookup_singleton_Some in Hi as [??]. split; [lia | done].
Qed.

Lemma swap_remove_None {A} (l : list A) i :
  swap_remove l i = None ↔ (length l ≤ i)%nat.
Proof.
  unfold swap_remove. split.
  - destruct (l !! i) eqn:Hi; [| by apply lookup_ge_None in Hi].
    destruct (last l) eqn:Hl; [done |].
    apply last_None in Hl as ->. done.
  - intros Hi. by apply lookup_ge_None in Hi as ->.
Qed.

Lemma swap_remove_lt {A} (k : list A) y z i :
  k !! i = Some z → swap_remove (k ++ [y]) i = Some (z, <[i:=y]> k).
Proof.
  intros Hi. assert (i < length k)%nat as Hlt by by eapply lookup_lt_Some.
  unfold swap_remove. rewrite lookup_app_l, Hi, last_snoc by done.
  rewrite insert_app_l, length_app, Nat.add_comm by done; simpl.
  by rewrite <- (length_insert k i y), take_app_length.
Qed.

Lemma swap_remove_last {A} (k : list A) y :
  swap_remove (k ++ [y]) (length k) = Some (y, k).
Proof.
  unfold swap_remove. rewrite list_lookup_middle, last_snoc by done.
  rewrite insert_app_r_alt, Nat.sub_diag, length_app, Nat.add_comm by done; simpl.
  by rewrite take_app_length.
Qed.

Lemma insert_Permutation {A} (k : list A) i y z :
  k !! i = Some z → z :: <[i:=y]> k ≡ₚ y :: k.
Proof.
  intros Hi. rewrite insert_take_drop by by eapply lookup_lt_Some.
  rewrite <- (take_drop_middle k i z) at 3 by done.
  rewrite <- !Permutation_middle. apply perm_swap.
Qed.

Lemma swap_remove_Permutation {A} (l : list A) i x l' :
  swap_remove l i = Some (x, l') → l ≡ₚ x :: l'.
Proof.
  destruct l as [|y k _] using rev_ind; [done |]. intros H.
  destruct (k !! i) as [z|] eqn:Hi.
  - rewrite (swap_remove_lt _ _ z) in H by done. injection H as -> <-.
    by rewrite insert_Permutation, <- Permutation_cons_append.
  - destruct (decide (i = length k)) as [->|Hne].
    + rewrite swap_remove_last in H. injection H as -> <-.
      by rewrite <- Permutation_cons_append.
    + assert (swap_remove (k ++ [y]) i = None) as HN; [| congruence].
      apply swap_remove_None. apply lookup_ge_None in Hi.
      rewrite length_app; simpl. lia.
Qed.

Lemma swap_remove_length {A} (l : list A) i x l' :
  swap_remove l i = Some (x, l') → length l = S (length l').
Proof. intros H%swap_remove_Permutation%Permutation_length. done. Qed.
