(* ===== verification/Queue.v ===== *)
(** * The multi-producer single-consumer queue of [src/address/queue.rs]

    The linked nodes live in a heap of raw pointers.  [push] is the two atomic
    actions the source performs, the swap of [head] ([push_swap]) and the store
    of [next] ([push_link]), and [pop] its two, the load of [next] ([pop_next])
    and that of [head] ([pop_check]), so that a thread preempted between them is
    a state of the model; [drop] follows its body.  The step relation [step]
    interleaves any number of producers with one consumer.  The results:
    the queue refines an atomic FIFO ([queue_refines_fifo]), no run touches
    freed memory or fails an assertion ([queue_safe]), and an [Inconsistent]
    answer of a [pop] that was not interrupted means that a producer is between
    its two actions ([pop_Inconsistent]).  The class [MpscQueue] is what the channels rely on;
    [node_queue] is its implementation by the nodes.

    The atomic orderings ([AcqRel], [Release], [Acquire]) are modelled by
    sequentially consistent interleaving. *)

From S2P Require Import Prelude.

(** A result of the [pop] function. *)
Inductive PopResult (T : Type) : Type :=
| Data (t : T)
| Empty
| Inconsistent.
Arguments Data {T} t.
Arguments Empty {T}.
Arguments Inconsistent {T}.

(** Addresses of nodes; a null pointer is [None]. *)
Abbreviation loc := positive.

(** Identifiers of the producer threads. *)
Abbreviation tid := nat.

Section nodes.
Context {T : Type}.

Record Node : Type := mkNode {
  next : option loc;
  value : option T
}.

(** The two fields of [Queue], and the memory its nodes live in. *)
Record Queue : Type := mkQueue {
  head : loc;
  tail : loc;
  heap : gmap loc Node
}.

(** [Queue::new]: one stub node, pointed to from both ends. *)
Definition new : Queue :=
  mkQueue 1 1 {[ 1%positive := mkNode None None ]}.

(** [push], first action: allocate the node at [n] and swap it into [head].
    The previous head is returned. *)
Definition push_swap (n : loc) (t : T) (q : Queue) : loc * Queue :=
  (head q, mkQueue n (tail q) (<[n := mkNode None (Some t)]> (heap q))).

(** [push], second action: [( *prev).next.store(n)]. *)
Definition push_link (prev n : loc) (q : Queue) : Exec Queue :=
  nd ← deref (heap q !! prev);
  Return (mkQueue (head q) (tail q) (<[prev := mkNode (Some n) (value nd)]> (heap q))).

(** [Queue::push] run without interruption. *)
Definition push (t : T) (q : Queue) : Exec Queue :=
  let n := fresh (dom (heap q)) in
  let '(prev, q1) := push_swap n t q in
  push_link prev n q1.

(** [Queue::pop], first action: load [next] of the tail.  If it is not null the
    rest is the consumer's own memory, and [pop] returns; [None]: go on. *)
Definition pop_next (q : Queue) : Exec (option (PopResult T * Queue)) :=
  tl ← deref (heap q !! tail q);
  match next tl with
  | Some nx =>
      _ ← rassert "assertion failed: (*tail).value.is_none()" (bool_decide (value tl = None));
      nd ← deref (heap q !! nx);
      _ ← rassert "assertion failed: (*next).value.is_some()" (bool_decide (is_Some (value nd)));
      ret ← unwrap "called `Option::unwrap()` on a `None` value" (value nd);
      Return (Some (Data ret,
              mkQueue (head q) nx
                (delete (tail q) (<[nx := mkNode (next nd) None]> (heap q)))))
  | None => Return None
  end.

(** [pop], second action: load [head] and compare it with the tail. *)
Definition pop_check (q : Queue) : PopResult T :=
  if bool_decide (head q = tail q) then Empty else Inconsistent.

(** [Queue::pop] run without interruption. *)
Definition pop (q : Queue) : Exec (PopResult T * Queue) :=
  o ← pop_next q;
  match o with Some r => Return r | None => Return (pop_check q, q) end.

(** The loop of [Queue]'s [Drop]: free the nodes from [cur] on. *)
Fixpoint drop_loop (fuel : nat) (cur : option loc) (m : gmap loc Node)
  : Exec (gmap loc Node) :=
  match cur, fuel with
  | None, _ => Return m
  | Some _, O => OutOfFuel
  | Some c, S fuel =>
      nd ← deref (m !! c);
      drop_loop fuel (next nd) (delete c m)
  end.

Definition drop (fuel : nat) (q : Queue) : Exec (gmap loc Node) :=
  drop_loop fuel (Some (tail q)) (heap q).

(** ** Producers and the consumer, interleaved *)

(** A producer between its two actions holds the previous head and its node;
    [popping]: the consumer is between its two. *)
Record Config : Type := mkConfig {
  queue : Queue;
  pending : gmap tid (loc * loc);
  popping : bool
}.

(** What an observer sees: a value entering [head], an answer of [pop]. *)
Inductive event : Type :=
| EPush (t : T)
| EPop (r : PopResult T).

Inductive step : Config → option event → Config → Prop :=
| step_swap c i n t prev q' :
    pending c !! i = None →
    heap (queue c) !! n = None →
    push_swap n t (queue c) = (prev, q') →
    step c (Some (EPush t)) (mkConfig q' (<[i := (prev, n)]> (pending c)) (popping c))
| step_link c i prev n q' :
    pending c !! i = Some (prev, n) →
    push_link prev n (queue c) = Return q' →
    step c None (mkConfig q' (delete i (pending c)) (popping c))
| step_pop_data c r q' :
    popping c = false →
    pop_next (queue c) = Return (Some (r, q')) →
    step c (Some (EPop r)) (mkConfig q' (pending c) false)
| step_pop_null c :
    popping c = false →
    pop_next (queue c) = Return None →
    step c None (mkConfig (queue c) (pending c) true)
| step_pop_check c :
    popping c = true →
    step c (Some (EPop (pop_check (queue c)))) (mkConfig (queue c) (pending c) false).

(** Runs with their visible events. *)
Inductive run : Config → list event → Config → Prop :=
| run_nil c : run c [] c
| run_silent c c1 c2 tr : run c tr c1 → step c1 None c2 → run c tr c2
| run_event c c1 c2 tr e : run c tr c1 → step c1 (Some e) c2 → run c (tr ++ [e]) c2.

Definition init : Config := mkConfig new ∅ false.

(** The same steps driven by a schedule, for evaluation. *)
Inductive action : Type :=
| ASwap (i : tid) (n : loc) (t : T)
| ALink (i : tid)
| APopNext
| APopCheck.

Definition exec_action (a : action) (c : Config) : option (option event * Config) :=
  match a with
  | ASwap i n t =>
      match pending c !! i, heap (queue c) !! n with
      | None, None =>
          let '(prev, q') := push_swap n t (queue c) in
          Some (Some (EPush t), mkConfig q' (<[i := (prev, n)]> (pending c)) (popping c))
      | _, _ => None
      end
  | ALink i =>
      match pending c !! i with
      | Some (prev, n) =>
          match push_link prev n (queue c) with
          | Return q' => Some (None, mkConfig q' (delete i (pending c)) (popping c))
          | _ => None
          end
      | None => None
      end
  | APopNext =>
      if popping c then None
      else
        match pop_next (queue c) with
        | Return (Some (r, q')) => Some (Some (EPop r), mkConfig q' (pending c) false)
        | Return None => Some (None, mkConfig (queue c) (pending c) true)
        | _ => None
        end
  | APopCheck =>
      if popping c then Some (Some (EPop (pop_check (queue c))), mkConfig (queue c) (pending c) false)
      else None
  end.

Fixpoint exec_schedule (l : list action) (tr : list event) (c : Config)
  : option (list event * Config) :=
  match l with
  | [] => Some (tr, c)
  | a :: l =>
      match exec_action a c with
      | Some (None, c') => exec_schedule l tr c'
      | Some (Some e, c') => exec_schedule l (tr ++ [e]) c'
      | None => None
      end
  end.

Lemma exec_action_step a c e c' : exec_action a c = Some (e, c') → step c e c'.
Proof.
  unfold exec_action. intros Ha. repeat case_match; simplify_eq; by econstructor.
Qed.

Lemma exec_schedule_run l tr c tr' c' c0 :
  run c0 tr c → exec_schedule l tr c = Some (tr', c') → run c0 tr' c'.
Proof.
  revert tr c. induction l as [|a l IH]; simpl; intros tr c Hr He; [by simplify_eq |].
  destruct (exec_action a c) as [[[e|] c1]|] eqn:Ha; [| | done].
  - eapply IH; [eapply run_event |]; eauto using exec_action_step.
  - eapply IH; [eapply run_silent |]; eauto using exec_action_step.
Qed.

(** ** Specification: an atomic FIFO *)

Inductive fifo_step : list T → event → list T → Prop :=
| fifo_push l t : fifo_step l (EPush t) (l ++ [t])
| fifo_data x l : fifo_step (x :: l) (EPop (Data x)) l
| fifo_empty : fifo_step [] (EPop Empty) []
| fifo_inconsistent x l : fifo_step (x :: l) (EPop Inconsistent) (x :: l).

Inductive fifo_run : list T → list event → list T → Prop :=
| fifo_run_nil l : fifo_run l [] l
| fifo_run_snoc l l1 l2 tr e :
    fifo_run l tr l1 → fifo_step l1 e l2 → fifo_run l (tr ++ [e]) l2.

(** The values that entered and left the queue along a trace. *)
Definition pushed (tr : list event) : list T :=
  omap (fun e => match e with EPush t => Some t | _ => None end) tr.
Definition popped (tr : list event) : list T :=
  omap (fun e => match e with EPop (Data t) => Some t | _ => None end) tr.

(** ** The representation invariant *)

(** [inv c ns vs]: [ns] is the chain of nodes from [tail] to [head] in the
    order of the swaps, [vs] the values they carry (the first node is the
    stub).  A link of the chain is stored in memory, or it is still to be
    stored by exactly one pending producer. *)
Record inv (c : Config) (ns : list loc) (vs : list T) : Prop := mkInv {
  inv_nodup : NoDup ns;
  inv_length : length ns = S (length vs);
  inv_tail : ns !! 0%nat = Some (tail (queue c));
  inv_head : ns !! length vs = Some (head (queue c));
  inv_dom : ∀ l, is_Some (heap (queue c) !! l) ↔ l ∈ ns;
  inv_value : ∀ i l nd, ns !! i = Some l → heap (queue c) !! l = Some nd →
    value nd = match i with O => None | S j => vs !! j end;
  inv_next : ∀ i l nd, ns !! i = Some l → heap (queue c) !! l = Some nd →
    next nd = ns !! S i ∨
    (next nd = None ∧ ∃ k b, ns !! S i = Some b ∧ pending c !! k = Some (l, b));
  inv_pending : ∀ k a b, pending c !! k = Some (a, b) →
    ∃ i nd, ns !! i = Some a ∧ ns !! S i = Some b ∧
            heap (queue c) !! a = Some nd ∧ next nd = None;
  inv_pending_inj : ∀ k1 k2 a b1 b2,
    pending c !! k1 = Some (a, b1) → pending c !! k2 = Some (a, b2) → k1 = k2
}.

Lemma init_inv : inv init [1%positive] [].
Proof.
  split; simpl; try done.
  - apply NoDup_singleton.
  - intros l. rewrite list_elem_of_singleton. split.
    + intros [nd Hl]. by apply lookup_singleton_Some in Hl as [<- _].
    + intros ->. rewrite lookup_singleton_eq. by eexists.
  - intros [|i] l nd Hi; simplify_eq/=. rewrite lookup_singleton_eq. by intros [= <-].
  - intros [|i] l nd Hi; simplify_eq/=. rewrite lookup_singleton_eq. intros [= <-]. by left.
Qed.

Lemma inv_lookup c ns vs i l :
  inv c ns vs → ns !! i = Some l → ∃ nd, heap (queue c) !! l = Some nd.
Proof. intros H Hi. apply (inv_dom _ _ _ H). by eapply list_elem_of_lookup_2. Qed.

(** The current [head] has no successor, stored or to be stored. *)
Lemma inv_head_next c ns vs :
  inv c ns vs →
  ∃ nd, heap (queue c) !! head (queue c) = Some nd ∧ next nd = None.
Proof.
  intros H. destruct (inv_lookup _ _ _ _ _ H (inv_head _ _ _ H)) as [nd Hnd].
  exists nd. split; [done |].
  destruct (inv_next _ _ _ H _ _ _ (inv_head _ _ _ H) Hnd) as [->|[-> _]]; [| done].
  apply lookup_ge_None_2. by rewrite (inv_length _ _ _ H).
Qed.

Lemma inv_head_not_pending c ns vs k b :
  inv c ns vs → pending c !! k ≠ Some (head (queue c), b).
Proof.
  intros H Hk. destruct (inv_pending _ _ _ H _ _ _ Hk) as (j & nd & Ha & Hb & _).
  assert (j = length vs) as ->.
  { eapply NoDup_lookup; [apply H | done | apply H]. }
  apply lookup_lt_Some in Hb. rewrite (inv_length _ _ _ H) in Hb. lia.
Qed.

Lemma inv_fresh c ns vs n :
  inv c ns vs → heap (queue c) !! n = None → n ∉ ns.
Proof. intros H Hn [nd ?]%(inv_dom _ _ _ H). congruence. Qed.

(** *** The three actions preserve it *)

Section swap.
Context (c : Config) (ns : list loc) (vs : list T) (k : tid) (n : loc) (t : T).
Context (H : inv c ns vs) (Hn : heap (queue c) !! n = None).

Let heap' : gmap loc Node := <[n := mkNode None (Some t)]> (heap (queue c)).
Let pending' : gmap tid (loc * loc) := <[k := (head (queue c), n)]> (pending c).

Lemma swap_heap_old i l : ns !! i = Some l → heap' !! l = heap (queue c) !! l.
Proof.
  intros Hi. apply lookup_insert_ne. intros ->.
  by eapply inv_fresh, list_elem_of_lookup_2.
Qed.

Lemma swap_value i l nd :
  (ns ++ [n]) !! i = Some l → heap' !! l = Some nd →
  value nd = match i with O => None | S j => (vs ++ [t]) !! j end.
Proof.
  intros [Hi|[-> ->]]%snoc_lookup_Some.
  - rewrite (swap_heap_old _ _ Hi). intros Hnd.
    rewrite (inv_value _ _ _ H _ _ _ Hi Hnd). destruct i as [|i]; [done |].
    apply lookup_lt_Some in Hi. rewrite (inv_length _ _ _ H) in Hi.
    by rewrite lookup_app_l by lia.
  - unfold heap'. rewrite lookup_insert_eq, (inv_length _ _ _ H).
    intros [= <-]. by rewrite list_lookup_middle.
Qed.

Lemma swap_next i l nd :
  pending c !! k = None →
  (ns ++ [n]) !! i = Some l → heap' !! l = Some nd →
  next nd = (ns ++ [n]) !! S i ∨
  (next nd = None ∧ ∃ j b, (ns ++ [n]) !! S i = Some b ∧ pending' !! j = Some (l, b)).
Proof.
  intros Hk [Hi|[-> ->]]%snoc_lookup_Some.
  - rewrite (swap_heap_old _ _ Hi). intros Hnd.
    pose proof (lookup_lt_Some _ _ _ Hi) as Hlt.
    destruct (decide (S i = length ns)) as [He|].
    + assert (l = head (queue c)) as ->.
      { pose proof (inv_head _ _ _ H). rewrite (inv_length _ _ _ H) in He. congruence. }
      destruct (inv_head_next _ _ _ H) as (nd' & ? & ?). right. split; [congruence |].
      exists k, n. unfold pending'.
      by rewrite list_lookup_middle, lookup_insert_eq by done.
    + rewrite lookup_app_l by lia.
      destruct (inv_next _ _ _ H _ _ _ Hi Hnd) as [?|(? & j & b & ? & ?)]; [by left |].
      right. split; [done |]. exists j, b. split; [done |].
      unfold pending'. rewrite lookup_insert_ne; congruence.
  - unfold heap'. rewrite lookup_insert_eq. intros [= <-]. left.
    rewrite lookup_ge_None_2; [done |]. rewrite length_app; simpl; lia.
Qed.

Lemma swap_pending j a b :
  pending' !! j = Some (a, b) →
  ∃ i nd, (ns ++ [n]) !! i = Some a ∧ (ns ++ [n]) !! S i = Some b ∧
          heap' !! a = Some nd ∧ next nd = None.
Proof.
  intros [[<- [= <- <-]]|[? Hj]]%lookup_insert_Some.
  - destruct (inv_head_next _ _ _ H) as (nd & Hnd & Hx).
    pose proof (inv_head _ _ _ H) as Hhd.
    exists (length vs), nd. rewrite (swap_heap_old _ _ Hhd). split_and!; try done.
    + by apply lookup_app_l_Some.
    + by rewrite list_lookup_middle by by rewrite (inv_length _ _ _ H).
  - destruct (inv_pending _ _ _ H _ _ _ Hj) as (i & nd & Ha & Hb & Hnd & Hx).
    exists i, nd. rewrite (swap_heap_old _ _ Ha).
    by split_and!; try by apply lookup_app_l_Some.
Qed.

Lemma swap_inv :
  pending c !! k = None →
  inv (mkConfig (push_swap n t (queue c)).2 pending' (popping c)) (ns ++ [n]) (vs ++ [t]).
Proof.
  intros Hk. pose proof (inv_length _ _ _ H) as Hlen.
  split; simpl; try apply swap_value; try apply swap_pending;
    try (intros; by eapply swap_next).
  - apply NoDup_app. split_and!; [apply H | | apply NoDup_singleton].
    intros l Hl ->%list_elem_of_singleton. by eapply inv_fresh.
  - rewrite !length_app; simpl; lia.
  - apply lookup_app_l_Some, H.
  - rewrite length_app, Nat.add_comm. by apply list_lookup_middle.
  - intros l. rewrite elem_of_app, list_elem_of_singleton, lookup_insert_is_Some',
      (inv_dom _ _ _ H). by split; intros [?|?]; auto.
  - intros k1 k2 a b1 b2 [[<- [= <- <-]]|[? H1]]%lookup_insert_Some
      [[<- [=]]|[? H2]]%lookup_insert_Some; subst; try done.
    + by apply (inv_head_not_pending _ _ _ _ _ H) in H2.
    + by apply (inv_head_not_pending _ _ _ _ _ H) in H1.
    + by eapply H.
Qed.
End swap.

Lemma link_inv c ns vs i prev n q' :
  inv c ns vs →
  pending c !! i = Some (prev, n) →
  push_link prev n (queue c) = Return q' →
  inv (mkConfig q' (delete i (pending c)) (popping c)) ns vs.
Proof.
  intros H Hi Hq. unfold push_link in Hq.
  destruct (inv_pending _ _ _ H _ _ _ Hi) as (j & nd & Hj & Hn & Hnd & Hx).
  rewrite Hnd in Hq. injection Hq as <-.
  assert (∀ k l, ns !! k = Some l → l = prev → k = j) as Hidx.
  { intros k l Hk ->. eapply NoDup_lookup; [apply H | done | done]. }
  split; simpl; try apply H.
  - intros l. rewrite lookup_insert_is_Some', <- (inv_dom _ _ _ H).
    split; [| tauto]. intros [<-|?]; [by eexists | done].
  - intros k l nd' Hk Hl. apply lookup_insert_Some in Hl as [[<- <-]|[? Hl]].
    + apply (inv_value _ _ _ H _ _ _ Hk Hnd).
    + by apply (inv_value _ _ _ H _ _ _ Hk Hl).
  - intros k l nd' Hk Hl. apply lookup_insert_Some in Hl as [[<- <-]|[Hne Hl]].
    + left. by rewrite (Hidx _ _ Hk eq_refl).
    + destruct (inv_next _ _ _ H _ _ _ Hk Hl) as [?|(? & p & b & Hb & Hp)]; [by left |].
      right. split; [done |]. exists p, b. split; [done |].
      rewrite lookup_delete_ne; [done |]. congruence.
  - intros k a b Hk. apply lookup_delete_Some in Hk as [Hne Hk].
    destruct (inv_pending _ _ _ H _ _ _ Hk) as (p & nd' & Ha & Hb & Hnd' & Hx').
    exists p, nd'. split_and!; try done. rewrite lookup_insert_ne; [done |].
    intros ->. by apply Hne, (inv_pending_inj _ _ _ H _ _ _ _ _ Hi Hk).
  - intros k1 k2 a b1 b2 [_ H1]%lookup_delete_Some [_ H2]%lookup_delete_Some.
    by eapply H.
Qed.

(** [head] is compared with [tail] to see whether the queue is empty. *)
Lemma pop_check_spec c ns vs :
  inv c ns vs → pop_check (queue c) = match vs with [] => Empty | _ => Inconsistent end.
Proof.
  intros H. unfold pop_check. pose proof (inv_length _ _ _ H) as Hlen.
  pose proof (inv_tail _ _ _ H) as Htl. pose proof (inv_head _ _ _ H) as Hhd.
  destruct vs as [|v vs]; simpl in *; [by rewrite bool_decide_eq_true_2 by congruence |].
  rewrite bool_decide_eq_false_2; [done |]. intros Heq. rewrite Heq in Hhd.
  by pose proof (NoDup_lookup _ _ _ _ (inv_nodup _ _ _ H) Htl Hhd).
Qed.

(** What loading [next] of the tail finds in a state described by the invariant. *)
Lemma pop_next_cases c ns vs :
  inv c ns vs →
  (vs = [] ∧ pop_next (queue c) = Return None) ∨
  (vs ≠ [] ∧ pop_next (queue c) = Return None ∧
     ∃ i n, pending c !! i = Some (tail (queue c), n)) ∨
  (∃ nx ns' v vs' nd, ns = tail (queue c) :: nx :: ns' ∧ vs = v :: vs' ∧
     heap (queue c) !! nx = Some nd ∧ nx ≠ tail (queue c) ∧
     (∀ i n, pending c !! i ≠ Some (tail (queue c), n)) ∧
     pop_next (queue c) = Return (Some (Data v, mkQueue (head (queue c)) nx
       (delete (tail (queue c)) (<[nx := mkNode (next nd) None]> (heap (queue c))))))).
Proof.
  intros H. unfold pop_next.
  destruct (inv_lookup _ _ _ _ _ H (inv_tail _ _ _ H)) as [tn Htn]. rewrite Htn; simpl.
  pose proof (inv_value _ _ _ H _ _ _ (inv_tail _ _ _ H) Htn) as Hv; simpl in Hv.
  pose proof (inv_next _ _ _ H _ _ _ (inv_tail _ _ _ H) Htn) as Hx.
  pose proof (inv_length _ _ _ H) as Hlen. pose proof (inv_tail _ _ _ H) as Htl.
  destruct ns as [|a [|nx ns']], vs as [|v vs']; simplify_eq/=.
  - left. by destruct Hx as [->|(_ & ? & ? & ? & _)].
  - right. pose proof (inv_nodup _ _ _ H) as [Hn1 Hn2]%NoDup_cons.
    destruct Hx as [Hx|(Hx & k & b & [= <-] & Hk)]; rewrite Hx.
    + right. destruct (inv_lookup _ _ _ 1 nx H eq_refl) as [nd Hnd].
      pose proof (inv_value _ _ _ H 1 _ _ eq_refl Hnd) as Hvn; simpl in Hvn.
      exists nx, ns', v, vs', nd. rewrite Hv, Hnd; simpl. rewrite Hvn; simpl.
      split_and!; try done; [set_solver |].
      intros k b Hk. destruct (inv_pending _ _ _ H _ _ _ Hk) as (j & nd' & _ & _ & ? & ?).
      congruence.
    + left. split_and!; eauto.
Qed.

(** What [pop] answers when it is not interrupted. *)
Lemma pop_cases c ns vs :
  inv c ns vs →
  (vs = [] ∧ pop (queue c) = Return (Empty, queue c)) ∨
  (vs ≠ [] ∧ pop (queue c) = Return (Inconsistent, queue c) ∧
     ∃ i n, pending c !! i = Some (tail (queue c), n)) ∨
  (∃ nx ns' v vs' nd, ns = tail (queue c) :: nx :: ns' ∧ vs = v :: vs' ∧
     heap (queue c) !! nx = Some nd ∧ nx ≠ tail (queue c) ∧
     (∀ i n, pending c !! i ≠ Some (tail (queue c), n)) ∧
     pop (queue c) = Return (Data v, mkQueue (head (queue c)) nx
       (delete (tail (queue c)) (<[nx := mkNode (next nd) None]> (heap (queue c)))))).
Proof.
  intros H. unfold pop. rewrite (pop_check_spec _ _ _ H).
  destruct (pop_next_cases _ _ _ H)
    as [[-> ->]|[(Hne & -> & Hp)|(nx & ns' & v & vs' & nd & ? & ? & ? & ? & ? & ->)]].
  - by left.
  - right; left. split_and!; [done | by destruct vs | done].
  - right; right. exists nx, ns', v, vs', nd. by split_and!.
Qed.

Lemma pop_data_inv c nx ns v vs nd :
  inv c (tail (queue c) :: nx :: ns) (v :: vs) →
  heap (queue c) !! nx = Some nd →
  (∀ i n, pending c !! i ≠ Some (tail (queue c), n)) →
  inv (mkConfig (mkQueue (head (queue c)) nx
        (delete (tail (queue c)) (<[nx := mkNode (next nd) None]> (heap (queue c)))))
        (pending c) false) (nx :: ns) vs.
Proof.
  intros H Hnd Hnone. set (tl := tail (queue c)) in *.
  pose proof (inv_nodup _ _ _ H) as [Htl Hnd']%NoDup_cons.
  assert (∀ l, l ∈ nx :: ns → l ≠ tl) as Hne by by intros l Hl ->.
  assert (∀ i l nd1, (nx :: ns) !! i = Some l →
    delete tl (<[nx := mkNode (next nd) None]> (heap (queue c))) !! l = Some nd1 →
    ∃ nd0, heap (queue c) !! l = Some nd0 ∧ next nd1 = next nd0 ∧
           value nd1 = if decide (l = nx) then None else value nd0) as Hheap.
  { intros i l nd1 Hi [_ Hl]%lookup_delete_Some.
    apply lookup_insert_Some in Hl as [[<- <-]|[? Hl]].
    - exists nd. by rewrite decide_True.
    - exists nd1. by rewrite decide_False. }
  split; simpl.
  - done.
  - pose proof (inv_length _ _ _ H); simpl in *; lia.
  - done.
  - apply (inv_head _ _ _ H).
  - intros l. rewrite lookup_delete_is_Some, lookup_insert_is_Some', (inv_dom _ _ _ H).
    split.
    + intros [? [<-|[->|?]%elem_of_cons]]; [by left | done | done].
    + intros Hl. split; [by apply not_eq_sym, Hne | right; by right].
  - intros i l nd1 Hi Hl. destruct (Hheap _ _ _ Hi Hl) as (nd0 & Hl0 & _ & ->).
    case_decide as Hd.
    + subst. by rewrite (NoDup_lookup _ _ 0%nat _ Hnd' Hi eq_refl).
    + destruct i as [|i]; [by simplify_eq/= |].
      by apply (inv_value _ _ _ H (S (S i)) _ _ Hi Hl0).
  - intros i l nd1 Hi Hl. destruct (Hheap _ _ _ Hi Hl) as (nd0 & Hl0 & -> & _).
    by apply (inv_next _ _ _ H (S i) _ _ Hi Hl0).
  - intros k a b Hk.
    destruct (inv_pending _ _ _ H _ _ _ Hk) as ([|j] & nd0 & Ha & Hb & Hnd0 & Hx).
    { simplify_eq/=. by apply Hnone in Hk. }
    assert (a ≠ tl) by by eapply Hne, list_elem_of_lookup_2.
    exists j. rewrite lookup_delete_ne by done.
    destruct (decide (a = nx)) as [->|].
    + exists (mkNode (next nd) None). rewrite lookup_insert_eq. simplify_eq. naive_solver.
    + exists nd0. by rewrite lookup_insert_ne by done.
  - apply H.
Qed.

(** ** Refinement *)

(** [represents c l]: the queue of [c] holds the values [l], oldest first. *)
Definition represents (c : Config) (l : list T) : Prop := ∃ ns, inv c ns l.

Lemma step_simulation c e c' l :
  represents c l →
  step c e c' →
  ∃ l', represents c' l' ∧
        match e with None => l' = l | Some e => fifo_step l e l' end.
Proof.
  intros [ns H] Hs.
  destruct Hs as [c i n t prev q' Hi Hn Hq|c i prev n q' Hi Hq|c r q' Hb Hq|c Hb Hq|c Hb].
  - injection Hq as <- <-. exists (l ++ [t]). split; [| constructor].
    eexists. by apply swap_inv.
  - exists l. split; [| done]. eexists. by eapply link_inv.
  - destruct (pop_next_cases _ _ _ H)
      as [[_ Hp]|[(_ & Hp & _)|(nx & ns' & v & vs' & nd & -> & -> & ? & ? & ? & Hp)]];
      rewrite Hp in Hq; [done.. |]. injection Hq as <- <-.
    exists vs'. split; [| constructor]. eexists. by apply pop_data_inv with v.
  - exists l. split; [| done]. exists ns. by destruct H.
  - exists l. split; [exists ns; by destruct H |]. rewrite (pop_check_spec _ _ _ H).
    destruct l; constructor.
Qed.

Lemma run_represents tr c :
  run init tr c → ∃ l, fifo_run [] tr l ∧ represents c l.
Proof.
  intros Hr. remember init as c0 eqn:Hc. induction Hr as [c|c c1 c2 tr _ IH Hs|c c1 c2 tr e _ IH Hs].
  - exists []. split; [constructor |]. subst. eexists. apply init_inv.
  - destruct (IH Hc) as (l & Hl & Hrep).
    destruct (step_simulation _ _ _ _ Hrep Hs) as (l' & ? & ->). eauto.
  - destruct (IH Hc) as (l & Hl & Hrep).
    destruct (step_simulation _ _ _ _ Hrep Hs) as (l' & ? & ?).
    exists l'. split; [by econstructor | done].
Qed.

Lemma fifo_run_conserves tr l : fifo_run [] tr l → pushed tr = popped tr ++ l.
Proof.
  intros Hr. remember [] as l0 eqn:Hl0. induction Hr as [|l l1 l2 tr e _ IH Hs]; subst; [done |].
  unfold pushed, popped in *. rewrite !omap_app, IH by done.
  destruct Hs; simpl; rewrite <- ?app_assoc, ?app_nil_r; done.
Qed.

(** ** Dropping the queue *)

Lemma drop_loop_chain fuel ns m :
  (length ns ≤ fuel)%nat →
  NoDup ns →
  (∀ l, is_Some (m !! l) ↔ l ∈ ns) →
  (∀ i l nd, ns !! i = Some l → m !! l = Some nd → next nd = ns !! S i) →
  drop_loop fuel (ns !! 0%nat) m = Return ∅.
Proof.
  revert fuel m. induction ns as [|l ns IH]; intros fuel m Hf Hnd Hdom Hnext; simpl in *.
  - assert (m = ∅) as ->; [| by destruct fuel].
    apply map_eq. intros l. rewrite lookup_empty. apply eq_None_not_Some.
    rewrite Hdom. by apply not_elem_of_nil.
  - destruct fuel as [|fuel]; [lia |]. apply NoDup_cons in Hnd as [Hl Hnd]; simpl.
    destruct (proj2 (Hdom l) (list_elem_of_here _ _)) as [nd Hm]. rewrite Hm; simpl.
    rewrite (Hnext 0%nat l nd eq_refl Hm); simpl.
    apply IH; [lia | done | |].
    + intros l'. rewrite lookup_delete_is_Some, Hdom, elem_of_cons.
      split; [by intros [? [->|?]] |]. intros Hin. split; [by intros -> | by right].
    + intros i l' nd' Hi [_ Hm']%lookup_delete_Some. by apply (Hnext (S i) l').
Qed.

End nodes.

Arguments Node : clear implicits.
Arguments Queue : clear implicits.
Arguments Config : clear implicits.
Arguments event : clear implicits.

(** ** The interface the channels use *)

(** What a client that runs its operations one at a time may rely on:
    [q_repr q l] relates a queue to the list of values it holds. *)
Class MpscQueue (Q : Type → Type) : Type := {
  q_new {T} : Q T;
  q_push {T} : T → Q T → Exec (Q T);
  q_pop {T} : Q T → Exec (PopResult T * Q T);
  q_repr {T} : Q T → list T → Prop;
  q_new_repr {T} : q_repr (T := T) q_new [];
  q_push_repr {T} (q : Q T) l t :
    q_repr q l → ∃ q', q_push t q = Return q' ∧ q_repr q' (l ++ [t]);
  q_pop_nil {T} (q : Q T) :
    q_repr q [] → q_pop q = Return (Empty, q);
  q_pop_cons {T} (q : Q T) x l :
    q_repr q (x :: l) → ∃ q', q_pop q = Return (Data x, q') ∧ q_repr q' l
}.

(** The values a queue holds are determined by what popping it yields. *)
Lemma q_repr_unique {Q} `{!MpscQueue Q} {T} (q : Q T) l1 l2 :
  q_repr q l1 → q_repr q l2 → l1 = l2.
Proof.
  revert q l2. induction l1 as [|x l1 IH]; intros q [|y l2] H1 H2; [done | ..].
  - apply q_pop_nil in H1. apply q_pop_cons in H2 as (? & ? & _). congruence.
  - apply q_pop_nil in H2. apply q_pop_cons in H1 as (? & ? & _). congruence.
  - apply q_pop_cons in H1 as (q1 & Hp1 & H1). apply q_pop_cons in H2 as (q2 & Hp2 & H2).
    rewrite Hp1 in Hp2. injection Hp2 as <- <-. f_equal. by eapply IH.
Qed.

Section sequential.
Context {T : Type}.

(** A queue no producer is working on. *)
Definition queue_repr (q : Queue T) (l : list T) : Prop := represents (mkConfig q ∅ false) l.

Lemma push_repr q l t :
  queue_repr q l → ∃ q', push t q = Return q' ∧ queue_repr q' (l ++ [t]).
Proof.
  intros [ns H]. unfold push.
  set (n := fresh (dom (heap q))).
  assert (heap q !! n = None) as Hn by apply not_elem_of_dom, is_fresh.
  pose proof (swap_inv _ _ _ 0%nat n t H Hn (lookup_empty _)) as H1.
  destruct (inv_head_next _ _ _ H) as (nd & Hnd & _). simpl in *.
  assert (n ≠ head q) as Hne by (intros Heq; congruence).
  destruct (push_link (head q) n (push_swap n t q).2) as [q'| | |] eqn:Hq.
  2-4: unfold push_link in Hq; simpl in Hq; by rewrite lookup_insert_ne, Hnd in Hq by done.
  exists q'. split; [done |]. exists (ns ++ [n]).
  pose proof (link_inv _ _ _ 0%nat _ _ _ H1 (lookup_insert_eq _ _ _) Hq) as H2.
  simpl in H2. by rewrite delete_insert_id in H2 by apply lookup_empty.
Qed.

Lemma pop_nil_repr q : queue_repr q [] → pop q = Return (Empty, q).
Proof.
  intros [ns H]. by destruct (pop_cases _ _ _ H)
    as [[_ ?]|[[? _]|(? & ? & ? & ? & ? & _ & ? & _)]].
Qed.

Lemma pop_cons_repr q x l :
  queue_repr q (x :: l) → ∃ q', pop q = Return (Data x, q') ∧ queue_repr q' l.
Proof.
  intros [ns H]. destruct (pop_cases _ _ _ H)
    as [[? _]|[(_ & _ & i & n & Hi)|(nx & ns' & v & vs' & nd & -> & [= -> ->] & ? & ? & ? & ?)]].
  - done.
  - simpl in Hi. by rewrite lookup_empty in Hi.
  - eexists. split; [done |]. eexists. by eapply (pop_data_inv (mkConfig q ∅ false)).
Qed.
End sequential.

#[export] Instance node_queue : MpscQueue Queue := {|
  q_new _ := new;
  q_push _ := push;
  q_pop _ := pop;
  q_repr _ := queue_repr;
  q_new_repr _ := ex_intro _ _ init_inv;
  q_push_repr _ := push_repr;
  q_pop_nil _ := pop_nil_repr;
  q_pop_cons _ := pop_cons_repr
|}.

Section properties.
Context {T : Type}.
Implicit Types (c : Config T) (q : Queue T).

(** ** The properties *)

(** C3: the linked queue, with any number of producers preempted between the two
    actions of [push] and a consumer preempted between the two of [pop], refines
    an atomic FIFO. *)
Theorem queue_refines_fifo tr c :
  run init tr c → ∃ l, fifo_run [] tr l ∧ represents c l.
Proof. apply run_represents. Qed.

(** the values pushed (in the order of their swaps) are the values popped
    followed by the values still queued: nothing is lost, duplicated or
    reordered, whatever the interleaving. *)
Theorem queue_fifo_order tr c :
  run init tr c → ∃ l, pushed tr = popped tr ++ l ∧ represents c l.
Proof.
  intros (l & Hl & ?)%run_represents. exists l. split; [by apply fifo_run_conserves | done].
Qed.

(** C4: at every point of every interleaving, [pop] returns (it fails no
    assertion and dereferences no freed node) and so does the pending [next]
    store of every producer. *)
Theorem queue_safe tr c :
  run init tr c →
  (∃ r q', pop (queue c) = Return (r, q')) ∧
  (∀ i prev n, pending c !! i = Some (prev, n) →
     ∃ q', push_link prev n (queue c) = Return q').
Proof.
  intros (l & _ & ns & H)%run_represents. split.
  - destruct (pop_cases _ _ _ H)
      as [[_ ?]|[(_ & ? & _)|(? & ? & ? & ? & ? & _ & _ & _ & _ & _ & ?)]]; eauto.
  - intros i prev n Hi.
    destruct (inv_pending _ _ _ H _ _ _ Hi) as (_ & nd & _ & _ & Hnd & _).
    unfold push_link. rewrite Hnd. by eexists.
Qed.

(** [pop] run without interruption answers [Inconsistent] only while the producer
    of the oldest value is between its two actions, leaves the queue as it is, and
    once that producer has stored its link the next [pop] yields a value. *)
Theorem pop_Inconsistent tr c q' :
  run init tr c →
  pop (queue c) = Return (Inconsistent, q') →
  q' = queue c ∧
  ∃ i n, pending c !! i = Some (tail (queue c), n) ∧
    ∃ q1 v q2, push_link (tail (queue c)) n (queue c) = Return q1 ∧
               pop q1 = Return (Data v, q2).
Proof.
  intros (l & _ & ns & H)%run_represents Hp.
  destruct (pop_cases _ _ _ H)
    as [[_ Hp']|[(Hl & Hp' & i & n & Hi)|(? & ? & ? & ? & ? & _ & _ & _ & _ & _ & Hp')]];
    rewrite Hp' in Hp; simplify_eq.
  split; [done |]. exists i, n. split; [done |].
  destruct (push_link (tail (queue c)) n (queue c)) as [q1| | |] eqn:Hq1.
  2-4: unfold push_link in Hq1;
       destruct (inv_lookup _ _ _ _ _ H (inv_tail _ _ _ H)) as [? Hnd];
       by rewrite Hnd in Hq1.
  pose proof (link_inv _ _ _ _ _ _ _ H Hi Hq1) as H1.
  assert (tail q1 = tail (queue c)) as Htl.
  { unfold push_link in Hq1. apply exec_bind_Return_inv in Hq1 as (? & _ & [= <-]). done. }
  destruct (pop_cases _ _ _ H1)
    as [[-> _]|[(_ & _ & k & b & Hk)|(? & ? & v & ? & ? & _ & _ & _ & _ & _ & ?)]]; simpl in *.
  - done.
  - apply lookup_delete_Some in Hk as [Hne Hk]. rewrite Htl in Hk.
    by pose proof (inv_pending_inj _ _ _ H _ _ _ _ _ Hi Hk).
  - eauto.
Qed.

(** C5: dropping a queue no producer is working on frees every node exactly
    once: no leak, no double free, and one iteration per node. *)
Theorem drop_frees_all tr c fuel :
  run init tr c →
  pending c = ∅ →
  (S (length (pushed tr) - length (popped tr)) ≤ fuel)%nat →
  drop fuel (queue c) = Return ∅.
Proof.
  intros (l & Hl & ns & H)%run_represents Hp Hf.
  apply fifo_run_conserves in Hl. rewrite Hl, length_app in Hf.
  unfold drop. rewrite <- (inv_tail _ _ _ H). apply drop_loop_chain.
  - rewrite (inv_length _ _ _ H). lia.
  - apply H.
  - apply H.
  - intros i a nd Hi Hnd.
    destruct (inv_next _ _ _ H _ _ _ Hi Hnd) as [?|(_ & k & b & _ & Hk)]; [done |].
    by rewrite Hp, lookup_empty in Hk.
Qed.
End properties.

(** ** Witnesses *)

(** Two producers; the second finishes first, the consumer finds the queue
    inconsistent, then takes both values in the order of the swaps. *)
Definition demo_schedule : list (action (T := Z)) :=
  [ASwap 0 2 7; APopNext; ASwap 1 3 8; ALink 1; APopCheck].

Definition demo_inconsistent : Config Z :=
  match exec_schedule demo_schedule [] init with Some (_, c) => c | None => init end.

Lemma demo_run_inconsistent :
  run init [EPush 7; EPush 8; EPop Inconsistent] demo_inconsistent.
Proof. eapply (exec_schedule_run demo_schedule []); [apply run_nil | vm_compute; reflexivity]. Qed.

Definition demo_final : Config Z :=
  match exec_schedule [ALink 0; APopNext; APopNext] [] demo_inconsistent with
  | Some (_, c) => c | None => init end.

Lemma demo_run_final :
  run init [EPush 7; EPush 8; EPop Inconsistent; EPop (Data 7); EPop (Data 8)] demo_final.
Proof.
  eapply (exec_schedule_run [ALink 0; APopNext; APopNext]);
    [apply demo_run_inconsistent | vm_compute; reflexivity].
Qed.

Lemma queue_refines_fifo_witness :
  ∃ l, fifo_run [] [EPush 7; EPush 8; EPop Inconsistent; EPop (Data 7); EPop (Data 8)] l ∧
       represents demo_final l.
Proof. exact (queue_refines_fifo _ _ demo_run_final). Defined.

Lemma queue_fifo_order_witness :
  ∃ l, [7; 8] = [7; 8] ++ l ∧ represents demo_final l.
Proof. exact (queue_fifo_order _ _ demo_run_final). Defined.

Lemma queue_safe_witness :
  (∃ r q', pop (queue demo_inconsistent) = Return (r, q')) ∧
  (∀ i prev n, pending demo_inconsistent !! i = Some (prev, n) →
     ∃ q', push_link prev n (queue demo_inconsistent) = Return q').
Proof. exact (queue_safe _ _ demo_run_inconsistent). Defined.

Lemma pop_Inconsistent_witness :
  ∃ i n, pending demo_inconsistent !! i = Some (tail (queue demo_inconsistent), n) ∧
    ∃ q1 v q2, push_link (tail (queue demo_inconsistent)) n (queue demo_inconsistent) = Return q1 ∧
               pop q1 = Return (Data v, q2).
Proof.
  apply (pop_Inconsistent _ _ (queue demo_inconsistent) demo_run_inconsistent).
  vm_compute. reflexivity.
Defined.

Lemma drop_frees_all_witness : drop 1 (queue demo_final) = Return ∅.
Proof. apply (drop_frees_all _ _ _ demo_run_final); [vm_compute; reflexivity | simpl; lia]. Defined.
