(* ===== verification/Envelope.v ===== *)
(** * Message envelopes: [src/address/envelope.rs], [SendError] of
    [src/address/mod.rs]

    An address packs a message and the optional sender of its result into an
    envelope; the context later opens it.  [SyncEnvelopeProxy],
    [UnsyncEnvelopeProxy] and [SyncContextEnvelope] have the same two fields
    and the same [handle]; they are one record here.  The result senders
    ([oneshot::Sender] of the futures crate) are of an abstract type. *)

From S2P Require Import Prelude.

(** Why a message was not accepted; it carries the message back. *)
Inductive SendError (M : Type) : Type :=
| Full (m : M)
| Closed (m : M).
Arguments Full {M} m.
Arguments Closed {M} m.

(** Errors of message delivery. *)
Inductive MailboxError : Type :=
| MailboxClosed
| MailboxTimeout.

(** [SendError::into_inner]. *)
Definition into_inner {M} (e : SendError M) : M :=
  match e with Full m | Closed m => m end.

#[export] Instance send_error_eq_dec {M} `{EqDecision M} : EqDecision (SendError M).
Proof. solve_decision. Defined.
#[export] Instance mailbox_error_eq_dec : EqDecision MailboxError.
Proof. solve_decision. Defined.

Record Envelope (M Tx : Type) : Type := mkEnvelope {
  msg : option M;
  tx : option Tx
}.
Arguments mkEnvelope {M Tx}.
Arguments msg {M Tx}.
Arguments tx {M Tx}.

(** [ToEnvelope::pack]. *)
Definition pack {M Tx} (m : M) (t : option Tx) : Envelope M Tx :=
  mkEnvelope (Some m) t.

(** [UnsyncEnvelope] and [SyncContextEnvelope] are the same records, for messages
    that stay in their thread and for the messages of sync actors. *)
Definition UnsyncEnvelope (M Tx : Type) : Type := Envelope M Tx.
Definition unsync_envelope_new {M Tx} (m : M) (t : option Tx) : UnsyncEnvelope M Tx :=
  mkEnvelope (Some m) t.
Definition sync_context_envelope_new {M Tx} (m : M) (t : option Tx) : Envelope M Tx :=
  mkEnvelope (Some m) t.

(** The envelopes an operation on a channel put into it and took out of it. *)
Record outcome (M Tx : Type) : Type := mkOutcome {
  accepted : list (Envelope M Tx);
  delivered : list (Envelope M Tx)
}.
Arguments mkOutcome {M Tx}.
Arguments accepted {M Tx}.
Arguments delivered {M Tx}.
Definition silent {M Tx} : outcome M Tx := mkOutcome [] [].

Section handle.
(** [W] is everything a handler can change: the actor, its context and what they
    reach.  [is_canceled] asks the result channel whether the receiving half is
    gone; [handler] is [Handler::handle] of the actor and [respond] is
    [MessageResponse::handle] of its result. *)
Context {M Tx Resp W Task : Type}.
Context (is_canceled : Tx → W → bool)
        (handler : M → Prog W Task Resp)
        (respond : Resp → option Tx → Prog W Task ()).

(** [EnvelopeProxy::handle]: the envelope is left without its sender, and without
    its message if that was handled. *)
Definition handle (e : Envelope M Tx) : Prog W Task (Envelope M Tx) :=
  b ← gets (fun w => match tx e with Some t => is_canceled t w | None => false end);
  if b : bool then mret (mkEnvelope (msg e) None)
  else
    match msg e with
    | Some m =>
        r ← handler m;
        _ ← respond r (tx e);
        mret (mkEnvelope None None)
    | None => mret (mkEnvelope None None)
    end.

(** [handle] of the proxy of an [UnsyncEnvelope], the same code. *)
Definition unsync_envelope_handle (e : UnsyncEnvelope M Tx) : Prog W Task (UnsyncEnvelope M Tx) :=
  handle e.
End handle.
