(* ===== verification/UnsyncChannel.v ===== *)
(** * The single-threaded channel of [src/address/unsync_channel.rs]

    [Chan] is the allocation behind the [Rc<RefCell<Shared>>] of a receiver and
    the [Weak] pointers of its senders: whether the receiver still holds the
    only strong reference, how many weak references exist, and the contents.
    Every method of the source is a [Prog] over it; the tasks it notifies are
    its output.  All the code runs on one thread and no [RefCell] borrow is
    held across a call, so the borrow checks never fail and are not modelled.
    [current] is what [task::current()] returns to the caller, and the pair of
    [send] the oneshot channel it creates. *)

From S2P Require Import Prelude.
From S2P Require Import Envelope.

Section channel.
Context {M Tx Rx Task : Type}.
Abbreviation Env := (Envelope M Tx).

Record Shared : Type := mkShared {
  buffer : list Env;
  capacity : nat;
  blocked_senders : list Task;
  blocked_recv : option Task
}.

Record Chan : Type := mkChan {
  strong : bool;
  weak : nat;
  shared : Shared
}.

Abbreviation P := (Prog Chan Task).

(** ** Access to the shared part *)

Definition set_shared (sh : Shared) (c : Chan) : Chan := mkChan (strong c) (weak c) sh.
Definition set_weak (n : nat) (c : Chan) : Chan := mkChan (strong c) n (shared c).

(** [self.shared.upgrade()]. *)
Definition upgrade : P (option Shared) :=
  gets (fun c => if strong c then Some (shared c) else None).

(** [shared.buffer.push_back(env)] followed by the wake-up of the receiver. *)
Definition push_and_wake (sh : Shared) (e : Env) : P () :=
  _ ← modify (set_shared (mkShared (buffer sh ++ [e]) (capacity sh) (blocked_senders sh) None));
  notify_opt (blocked_recv sh).

(** [shared.capacity == 0 || shared.buffer.len() < shared.capacity]. *)
Definition has_room (sh : Shared) : bool :=
  bool_decide (capacity sh = 0%nat) || bool_decide (length (buffer sh) < capacity sh)%nat.

(** ** [UnsyncAddrSender] *)

Definition sender_connected : P bool :=
  o ← upgrade; mret (bool_decide (is_Some o)).

Definition do_send (m : M) : P (Result () (SendError M)) :=
  o ← upgrade;
  match o with
  | None => mret (Err (Closed m))
  | Some sh => _ ← push_and_wake sh (pack m None); mret (Ok ())
  end.

Definition try_send (current : Task) (m : M) (park : bool) : P (Result () (SendError M)) :=
  o ← upgrade;
  match o with
  | None => mret (Err (Closed m))
  | Some sh =>
      if has_room sh then
        _ ← push_and_wake sh (pack m None); mret (Ok ())
      else
        _ ← (if park then
               modify (set_shared (mkShared (buffer sh) (capacity sh)
                                     (blocked_senders sh ++ [current]) (blocked_recv sh)))
             else mret ());
        mret (Err (Full m))
  end.

Definition send (current : Task) (oneshot : Tx * Rx) (m : M) : P (Result Rx (SendError M)) :=
  o ← upgrade;
  match o with
  | None => mret (Err (Closed m))
  | Some sh =>
      if has_room sh then
        let '(tx, rx) := oneshot in
        _ ← push_and_wake sh (pack m (Some tx)); mret (Ok rx)
      else
        _ ← modify (set_shared (mkShared (buffer sh) (capacity sh)
                                  (blocked_senders sh ++ [current]) (blocked_recv sh)));
        mret (Err (Full m))
  end.

(** [Clone]: one more weak reference. *)
Definition sender_clone : P () := modify (fun c => set_weak (S (weak c)) c).

(** [Drop]: the last sender wakes the receiver up; then the weak reference is
    released. *)
Definition sender_drop : P () :=
  o ← upgrade;
  _ ← match o with
      | None => mret ()
      | Some sh =>
          n ← gets weak;
          if bool_decide (n = 1%nat) then
            _ ← modify (set_shared (mkShared (buffer sh) (capacity sh) (blocked_senders sh) None));
            notify_opt (blocked_recv sh)
          else mret ()
      end;
  modify (fun c => set_weak (pred (weak c)) c).

(** ** [UnsyncAddrReceiver] *)

Definition new (cap : nat) : Chan := mkChan true 0 (mkShared [] cap [] None).

Definition recv_connected : P bool := gets (fun c => bool_decide (weak c ≠ 0%nat)).

(** [Rc::downgrade]. *)
Definition sender : P () := modify (fun c => set_weak (S (weak c)) c).

Definition get_capacity : P nat := gets (fun c => capacity (shared c)).

(** The [for] loop of [set_capacity]: notify up to [n] blocked senders. *)
Fixpoint wake_senders (n : nat) : P () :=
  match n with
  | O => mret ()
  | S n =>
      sh ← gets shared;
      match blocked_senders sh with
      | t :: ts =>
          _ ← modify (set_shared (mkShared (buffer sh) (capacity sh) ts (blocked_recv sh)));
          _ ← notify t;
          wake_senders n
      | [] => mret ()
      end
  end.

Definition set_capacity (size : nat) : P () :=
  sh ← gets shared;
  _ ← modify (set_shared (mkShared (buffer sh) size (blocked_senders sh) (blocked_recv sh)));
  if bool_decide (length (buffer sh) < size)%nat
  then wake_senders (size - length (buffer sh))
  else mret ().

(** [Stream::poll].  [Rc::get_mut] succeeds when no [Weak] is left. *)
Definition poll (current : Task) : P (Poll (option Env) ()) :=
  c ← get_state;
  let sh := shared c in
  if bool_decide (weak c = 0%nat) then
    _ ← modify (set_shared (mkShared (tail (buffer sh)) (capacity sh)
                              (blocked_senders sh) (blocked_recv sh)));
    mret (Ok (Ready (head (buffer sh))))
  else
    match buffer sh with
    | e :: rest =>
        _ ← modify (set_shared (mkShared rest (capacity sh) (tail (blocked_senders sh))
                                  (blocked_recv sh)));
        _ ← notify_opt (head (blocked_senders sh));
        mret (Ok (Ready (Some e)))
    | [] =>
        _ ← modify (set_shared (mkShared (buffer sh) (capacity sh) (blocked_senders sh)
                                  (Some current)));
        mret (Ok NotReady)
    end.

(** The [for] loop of the receiver's [Drop]. *)
Fixpoint notify_all (ts : list Task) : P () :=
  match ts with
  | [] => mret ()
  | t :: ts => _ ← notify t; notify_all ts
  end.

(** [Drop]: the blocked senders are notified, then the last strong reference
    goes and with it the contents; the envelopes that were still queued are
    returned. *)
Definition recv_drop : P (list Env) :=
  sh ← gets shared;
  _ ← notify_all (blocked_senders sh);
  _ ← modify (fun c => mkChan false (weak c) (mkShared [] (capacity sh) [] None));
  mret (buffer sh).

(** ** Histories of a channel whose receiver is alive *)

Inductive op : Type :=
| DoSend (m : M)
| TrySend (current : Task) (m : M) (park : bool)
| Send (current : Task) (oneshot : Tx * Rx) (m : M)
| CloneSender
| DropSender
| NewSender
| SetCapacity (size : nat)
| RecvPoll (current : Task).

Definition exec_op (o : op) : P (outcome M Tx) :=
  match o with
  | DoSend m =>
      r ← do_send m;
      mret (match r with Ok _ => mkOutcome [pack m None] [] | Err _ => silent end)
  | TrySend t m park =>
      r ← try_send t m park;
      mret (match r with Ok _ => mkOutcome [pack m None] [] | Err _ => silent end)
  | Send t p m =>
      r ← send t p m;
      mret (match r with Ok _ => mkOutcome [pack m (Some p.1)] [] | Err _ => silent end)
  | CloneSender => _ ← sender_clone; mret silent
  | DropSender => _ ← sender_drop; mret silent
  | NewSender => _ ← sender; mret silent
  | SetCapacity n => _ ← set_capacity n; mret silent
  | RecvPoll t =>
      r ← poll t;
      mret (match r with Ok (Ready (Some e)) => mkOutcome [] [e] | _ => silent end)
  end.

(** Only a sender that exists can send, be cloned or be dropped. *)
Definition allowed (o : op) (c : Chan) : Prop :=
  match o with
  | DoSend _ | TrySend _ _ _ | Send _ _ _ | CloneSender | DropSender => (0 < weak c)%nat
  | NewSender | SetCapacity _ | RecvPoll _ => True
  end.

Inductive history : Chan → list op → list Env → list Env → Chan → Prop :=
| history_nil c : history c [] [] [] c
| history_snoc c0 c c' os ins outs o r w :
    history c0 os ins outs c →
    allowed o c →
    exec_op o c = Return (r, c', w) →
    history c0 (os ++ [o]) (ins ++ accepted r) (outs ++ delivered r) c'.

(** Histories by evaluation. *)
#[export] Instance allowed_dec o c : Decision (allowed o c).
Proof. destruct o; simpl; apply _. Defined.

Fixpoint exec_ops (os : list op) (c : Chan) : option (list Env * list Env * Chan) :=
  match os with
  | [] => Some ([], [], c)
  | o :: os =>
      if decide (allowed o c) then
        match exec_op o c with
        | Return (r, c', _) =>
            '(ins, outs, c'') ← exec_ops os c';
            Some (accepted r ++ ins, delivered r ++ outs, c'')
        | _ => None
        end
      else None
  end.

Lemma exec_ops_history os c0 os0 ins0 outs0 c ins outs c' :
  history c0 os0 ins0 outs0 c →
  exec_ops os c = Some (ins, outs, c') →
  history c0 (os0 ++ os) (ins0 ++ ins) (outs0 ++ outs) c'.
Proof.
  revert os0 ins0 outs0 c ins outs. induction os as [|o os IH]; simpl;
    intros os0 ins0 outs0 c ins outs Hh He.
  - simplify_eq. by rewrite !app_nil_r.
  - case_decide; [| done]. destruct (exec_op o c) as [[[r c1] w]| | |] eqn:Ho; [| done..].
    apply bind_Some in He as ([[ins' outs'] c2] & He & [= <- <- <-]).
    rewrite (cons_middle o), !app_assoc.
    eapply IH; [| done]. by eapply history_snoc.
Qed.

(** ** What one operation does *)

Lemma wake_senders_spec n c :
  wake_senders n c =
  Return ((), set_shared (mkShared (buffer (shared c)) (capacity (shared c))
                (drop n (blocked_senders (shared c))) (blocked_recv (shared c))) c,
          take n (blocked_senders (shared c))).
Proof.
  revert c. induction n as [|n IH]; intros [st wk [b cp bs br]]; simpl; [done |].
  unfold mbind, prog_bind; simpl. destruct bs as [|t bs]; [done |]; simpl.
  by rewrite IH.
Qed.

Lemma notify_all_spec ts c : notify_all ts c = Return ((), c, ts).
Proof.
  induction ts as [|t ts IH]; [done |]; simpl. unfold mbind, prog_bind; simpl.
  by rewrite IH.
Qed.

(** A parked receiver is parked on an empty buffer, and some sender is left to
    wake it up. *)
Definition inv (c : Chan) : Prop :=
  strong c = true ∧
  (is_Some (blocked_recv (shared c)) → buffer (shared c) = [] ∧ (0 < weak c)%nat).

Lemma new_inv cap : inv (new cap).
Proof. split; [done |]. intros [? [=]]. Qed.

(** The effects of the operations on a channel whose receiver is alive. *)
Definition with_pushed (e : Env) (c : Chan) : Chan :=
  set_shared (mkShared (buffer (shared c) ++ [e]) (capacity (shared c))
                (blocked_senders (shared c)) None) c.
Definition with_parked (t : Task) (c : Chan) : Chan :=
  set_shared (mkShared (buffer (shared c)) (capacity (shared c))
                (blocked_senders (shared c) ++ [t]) (blocked_recv (shared c))) c.

Ltac unfold_prog :=
  repeat progress (unfold exec_op, do_send, try_send, send, push_and_wake, upgrade,
    sender_clone, sender_drop, sender, set_capacity, poll, recv_drop, sender_connected,
    get_state, gets, modify, notify, notify_opt, with_pushed, with_parked, set_shared,
    set_weak, mbind, prog_bind, exec_bind, mret, prog_ret; simpl).
Ltac split_chan c := destruct c as [[|] wk [b cp bs [br|]]].

Lemma do_send_spec m c :
  do_send m c =
  if strong c
  then Return (Ok (), with_pushed (pack m None) c, option_list (blocked_recv (shared c)))
  else Return (Err (Closed m), c, []).
Proof. split_chan c; by unfold_prog. Qed.

Lemma try_send_spec t m park c :
  try_send t m park c =
  if strong c then
    if has_room (shared c)
    then Return (Ok (), with_pushed (pack m None) c, option_list (blocked_recv (shared c)))
    else Return (Err (Full m), if park then with_parked t c else c, [])
  else Return (Err (Closed m), c, []).
Proof.
  split_chan c; unfold_prog; try done; destruct (has_room _); unfold_prog; try done;
    destruct park; by unfold_prog.
Qed.

Lemma send_spec t p m c :
  send t p m c =
  if strong c then
    if has_room (shared c)
    then Return (Ok p.2, with_pushed (pack m (Some p.1)) c, option_list (blocked_recv (shared c)))
    else Return (Err (Full m), with_parked t c, [])
  else Return (Err (Closed m), c, []).
Proof.
  destruct p. split_chan c; unfold_prog; try done; destruct (has_room _); by unfold_prog.
Qed.

Lemma sender_drop_spec c :
  strong c = true →
  sender_drop c =
  Return ((), mkChan true (pred (weak c))
    (if bool_decide (weak c = 1%nat)
     then mkShared (buffer (shared c)) (capacity (shared c)) (blocked_senders (shared c)) None
     else shared c),
    if bool_decide (weak c = 1%nat) then option_list (blocked_recv (shared c)) else []).
Proof.
  split_chan c; intros Hs; try done; unfold_prog; case_bool_decide; by unfold_prog.
Qed.

Lemma set_capacity_spec size c :
  set_capacity size c =
  Return ((), set_shared (mkShared (buffer (shared c)) size
      (drop (size - length (buffer (shared c))) (blocked_senders (shared c)))
      (blocked_recv (shared c))) c,
    take (size - length (buffer (shared c))) (blocked_senders (shared c))).
Proof.
  unfold_prog. case_bool_decide; unfold_prog.
  - by rewrite wake_senders_spec.
  - by replace (size - length (buffer (shared c)))%nat with 0%nat by lia.
Qed.

Lemma poll_spec t c :
  poll t c =
  let sh := shared c in
  if bool_decide (weak c = 0%nat) then
    Return (Ok (Ready (head (buffer sh))),
            set_shared (mkShared (tail (buffer sh)) (capacity sh) (blocked_senders sh)
                          (blocked_recv sh)) c, [])
  else
    match buffer sh with
    | e :: b =>
        Return (Ok (Ready (Some e)),
                set_shared (mkShared b (capacity sh) (tail (blocked_senders sh))
                              (blocked_recv sh)) c,
                option_list (head (blocked_senders sh)))
    | [] =>
        Return (Ok NotReady,
                set_shared (mkShared [] (capacity sh) (blocked_senders sh) (Some t)) c, [])
    end.
Proof.
  unfold_prog. case_bool_decide; unfold_prog; [done |].
  destruct (buffer (shared c)) as [|e b] eqn:Hb; unfold_prog; [done |].
  destruct (blocked_senders (shared c)); by unfold_prog.
Qed.

(** The step equation of a history: an operation is its effect above. *)
Lemma exec_op_inv o c r c' w :
  strong c = true → exec_op o c = Return (r, c', w) →
  match o with
  | DoSend m =>
      r = mkOutcome [pack m None] [] ∧ c' = with_pushed (pack m None) c ∧
      w = option_list (blocked_recv (shared c))
  | TrySend t m park =>
      (has_room (shared c) = true ∧ r = mkOutcome [pack m None] [] ∧
       c' = with_pushed (pack m None) c ∧ w = option_list (blocked_recv (shared c))) ∨
      (has_room (shared c) = false ∧ r = silent ∧
       c' = (if park then with_parked t c else c) ∧ w = [])
  | Send t p m =>
      (has_room (shared c) = true ∧ r = mkOutcome [pack m (Some p.1)] [] ∧
       c' = with_pushed (pack m (Some p.1)) c ∧ w = option_list (blocked_recv (shared c))) ∨
      (has_room (shared c) = false ∧ r = silent ∧ c' = with_parked t c ∧ w = [])
  | RecvPoll t =>
      (r = silent ∧ buffer (shared c) = [] ∧ poll t c = Return (Ok NotReady, c', w)) ∨
      (r = silent ∧ buffer (shared c) = [] ∧ poll t c = Return (Ok (Ready None), c', w)) ∨
      (∃ e b, r = mkOutcome [] [e] ∧ buffer (shared c) = e :: b ∧
              poll t c = Return (Ok (Ready (Some e)), c', w))
  | _ => r = silent
  end.
Proof.
  intros Hs. destruct o as [m|t m park|t p m| | | |n|t]; simpl; intros He;
    apply prog_bind_Return_inv in He as (a & s1 & w1 & w2 & Hm & [= <- <- <-] & ->);
    rewrite ?app_nil_r; try done.
  - rewrite do_send_spec, Hs in Hm. by injection Hm as <- <- <-.
  - rewrite try_send_spec, Hs in Hm.
    destruct (has_room _); injection Hm as <- <- <-; naive_solver.
  - rewrite send_spec, Hs in Hm.
    destruct (has_room _); injection Hm as <- <- <-; naive_solver.
  - pose proof Hm as Hp. rewrite poll_spec in Hm; simpl in Hm.
    case_bool_decide; [| destruct (buffer (shared c)) as [|e b] eqn:Hb];
      injection Hm as <- <- <-; simpl in *; try (rewrite ?Hb in *; by eauto 10).
    destruct (buffer (shared c)) as [|e b]; simpl in *; eauto 10.
Qed.

Lemma with_pushed_inv e c : inv c → inv (with_pushed e c).
Proof. intros [? _]. split; [done |]. by intros [? [=]]. Qed.

Lemma exec_op_step o c r c' w :
  inv c → allowed o c → exec_op o c = Return (r, c', w) →
  inv c' ∧
  buffer (shared c) ++ accepted r = delivered r ++ buffer (shared c').
Proof.
  intros Hc Ha He. pose proof Hc as [Hs Hr].
  pose proof (exec_op_inv _ _ _ _ _ Hs He) as Hi.
  destruct o as [m|t m park|t p m| | | |n|t]; simpl in *.
  - destruct Hi as (-> & -> & _). split; [by apply with_pushed_inv | done].
  - destruct Hi as [(_ & -> & -> & _)|(_ & -> & -> & _)];
      [split; [by apply with_pushed_inv | done] |].
    destruct park; (split; [done | apply app_nil_r]).
  - destruct Hi as [(_ & -> & -> & _)|(_ & -> & -> & _)];
      [split; [by apply with_pushed_inv | done] |].
    split; [done | apply app_nil_r].
  - injection He as <- <- <-. split; [| apply app_nil_r].
    split; [done |]. intros [??]%Hr. split; [done | simpl; lia].
  - apply prog_bind_Return_inv in He as (a & s1 & w1 & w2 & Hm & [= <- <- <-] & _).
    rewrite sender_drop_spec in Hm by done. injection Hm as <- <- _.
    case_bool_decide; (split; [split; [done |]; simpl | apply app_nil_r]).
    + by intros [? [=]].
    + intros [??]%Hr. split; [done | lia].
  - injection He as <- <- <-. split; [| apply app_nil_r].
    split; [done |]. intros [??]%Hr. split; [done | simpl; lia].
  - apply prog_bind_Return_inv in He as (a & s1 & w1 & w2 & Hm & [= <- <- <-] & _).
    rewrite set_capacity_spec in Hm. injection Hm as <- <- _. split; [done | apply app_nil_r].
  - rewrite poll_spec in Hi; simpl in Hi.
    destruct Hi as [(-> & Hb & Hi)|[(-> & Hb & Hi)|(e & b & -> & Hb & Hi)]];
      rewrite Hb in Hi; case_bool_decide; simplify_eq/=; rewrite ?Hb;
      (split; [split; [done |]; simpl | by rewrite ?app_nil_r]).
    + intros _. split; [done | lia].
    + intros [_ ?]%Hr. split; [done | lia].
    + intros [? _]%Hr. congruence.
    + intros [? _]%Hr. congruence.
Qed.

Lemma history_inv cap os ins outs c :
  history (new cap) os ins outs c →
  inv c ∧ ins = outs ++ buffer (shared c).
Proof.
  intros Hh. remember (new cap) as c0 eqn:Hc0. induction Hh as [c|c0 c c' os ins outs o r w Hh IH Ha He].
  - subst. split; [apply new_inv | done].
  - destruct (IH Hc0) as [Hi ->].
    destruct (exec_op_step _ _ _ _ _ Hi Ha He) as [? Hb]. split; [done |].
    by rewrite <- !app_assoc, Hb.
Qed.

(** ** The properties *)

(** C6: along every history of a channel, the envelopes accepted by the three
    ways of sending are the envelopes delivered to the receiver followed by the
    ones still buffered: FIFO order, nothing lost, nothing duplicated. *)
Theorem unsync_fifo cap os ins outs c :
  history (new cap) os ins outs c → ins = outs ++ buffer (shared c).
Proof. by intros [_ ?]%history_inv. Qed.

(** The calls of the other methods, in any order, and the tasks they notified. *)
Definition polls (o : op) : bool := match o with RecvPoll _ => true | _ => false end.
Inductive others : Chan → list op → list Task → Chan → Prop :=
| others_nil c : others c [] [] c
| others_snoc c0 c c' os ts o r w :
    others c0 os ts c → allowed o c → polls o = false → exec_op o c = Return (r, c', w) →
    others c0 (os ++ [o]) (ts ++ w) c'.

(** One call of another method while [t] is parked: it stays parked, or it is
    notified. *)
Lemma parked_step t c o r c' w :
  inv c → blocked_recv (shared c) = Some t → allowed o c → polls o = false →
  exec_op o c = Return (r, c', w) →
  (blocked_recv (shared c') = Some t ∧ buffer (shared c') = [] ∧ (0 < weak c')%nat) ∨
  (blocked_recv (shared c') = None ∧ w = [t]).
Proof.
  intros [Hs Hr] Ht Ha Hpl He. destruct (Hr (mk_is_Some _ _ Ht)) as [Hb Hw].
  pose proof (exec_op_inv _ _ _ _ _ Hs He) as Hi.
  destruct o as [m|t' m park|t' p m| | | |n|t']; simpl in *; rewrite ?Ht in Hi; try done.
  - right. by destruct Hi as (_ & -> & ->).
  - destruct Hi as [(_ & _ & -> & ->)|(_ & _ & -> & _)]; [by right |].
    left. by destruct park.
  - destruct Hi as [(_ & _ & -> & ->)|(_ & _ & -> & _)]; [by right | by left].
  - injection He as _ <- _. left. simpl. split_and!; [done | done | lia].
  - apply prog_bind_Return_inv in He as (a & s1 & w1 & w2 & Hm & [= _ <- <-] & ->).
    rewrite sender_drop_spec in Hm by done. injection Hm as _ <- <-.
    case_bool_decide; simpl; rewrite ?Ht; [by right | left; split_and!; [done | done | lia]].
  - injection He as _ <- _. left. simpl. split_and!; [done | done | lia].
  - apply prog_bind_Return_inv in He as (a & s1 & w1 & w2 & Hm & [= _ <- <-] & ->).
    rewrite set_capacity_spec in Hm. injection Hm as _ <- <-. by left.
Qed.

Lemma others_inv c os ts c' : others c os ts c' → inv c → inv c'.
Proof.
  induction 1 as [|c0 c c' os ts o r w _ IH Ha _ He]; [done |]. intros Hi.
  by destruct (exec_op_step _ _ _ _ _ (IH Hi) Ha He).
Qed.

(** C7: no wake-up of the receiver is lost.  After a poll that answered
    [NotReady], whatever the senders and the owner of the receiver do: either the
    polling task has been notified, or it is still registered, and then the buffer
    is empty and a sender exists.  So once there is a message or no sender is left
    the task has been notified. *)
Theorem unsync_receiver_woken cap os ins outs c t c1 w1 os' ts c2 :
  history (new cap) os ins outs c →
  poll t c = Return (Ok NotReady, c1, w1) →
  others c1 os' ts c2 →
  (t ∈ ts ∨ (blocked_recv (shared c2) = Some t ∧ buffer (shared c2) = [] ∧ (0 < weak c2)%nat)) ∧
  (buffer (shared c2) ≠ [] ∨ weak c2 = 0%nat → t ∈ ts).
Proof.
  intros [Hc _]%history_inv Hp Ho.
  assert (inv c1 ∧ blocked_recv (shared c1) = Some t) as [Hc1 Ht].
  { pose proof Hp as Hp'. rewrite poll_spec in Hp'; simpl in Hp'. split.
    - eapply (exec_op_step (RecvPoll t) c); [done | done |]. simpl.
      by rewrite (prog_bind_Return _ _ _ _ _ _ Hp).
    - case_bool_decide; [done |]. destruct (buffer (shared c)); [by injection Hp' as <- _ | done]. }
  assert (t ∈ ts ∨ (blocked_recv (shared c2) = Some t ∧ buffer (shared c2) = [] ∧ (0 < weak c2)%nat))
    as H; [| split; [exact H |]; intros Hor; destruct H as [?|(_ & Hb & Hw)]; [done |];
             destruct Hor; [done | lia]].
  clear Hp. induction Ho as [c1|c0 c1 c2 os' ts o r w Ho IH Ha Hpl He].
  - right. destruct Hc1 as [_ Hr]. destruct (Hr (mk_is_Some _ _ Ht)). by split_and!.
  - destruct (IH Hc1 Ht) as [Hin|(Ht1 & _)]; [left; apply elem_of_app; by left |].
    destruct (parked_step t c1 o r c2 w (others_inv _ _ _ _ Ho Hc1) Ht1 Ha Hpl He) as [H|[_ ->]].
    + by right.
    + left. apply elem_of_app. right. by left.
Qed.

(** Operations that respect the capacity they were started with. *)
Definition bounded_op (o : op) : Prop :=
  match o with DoSend _ | SetCapacity _ => False | _ => True end.

(** C8: back pressure.  As long as nobody uses [do_send] or changes the
    capacity, a channel of capacity [cap > 0] never holds more than [cap]
    envelopes. *)
Theorem unsync_capacity_bound cap os ins outs c :
  (0 < cap)%nat →
  history (new cap) os ins outs c →
  Forall bounded_op os →
  capacity (shared c) = cap ∧ (length (buffer (shared c)) ≤ cap)%nat.
Proof.
  intros Hcap Hh. remember (new cap) as c0 eqn:Hc0.
  induction Hh as [c|c0 c c' os ins outs o r w Hh IH Ha He]; intros Hos.
  - subst; simpl. split; [done | lia].
  - apply Forall_app in Hos as [Hos Ho]. rewrite Forall_singleton in Ho. subst c0.
    destruct (IH eq_refl Hos) as [Hcp Hlen]. pose proof (history_inv _ _ _ _ _ Hh) as [[Hs _] _].
    pose proof (exec_op_inv _ _ _ _ _ Hs He) as Hi.
    assert (∀ e, has_room (shared c) = true →
      (length (buffer (shared c) ++ [e]) ≤ cap)%nat) as Hroom.
    { intros e. unfold has_room. rewrite orb_true_iff, !bool_decide_eq_true, length_app; simpl.
      rewrite Hcp. lia. }
    destruct o as [m|t' m park|t' p m| | | |n|t']; cbn [bounded_op] in Ho; try done.
    + destruct Hi as [(Hroom' & _ & -> & _)|(_ & _ & -> & _)];
        [by split; [| apply Hroom] | by destruct park].
    + destruct Hi as [(Hroom' & _ & -> & _)|(_ & _ & -> & _)];
        [by split; [| apply Hroom] | done].
    + by injection He as <- <- <-.
    + apply prog_bind_Return_inv in He as (a & s1 & w1 & w2 & Hm & [= <- <- <-] & ->).
      rewrite sender_drop_spec in Hm by done. injection Hm as <- <- <-. by case_bool_decide.
    + by injection He as <- <- <-.
    + destruct Hi as [(_ & Hb & Hp)|[(_ & Hb & Hp)|(e & b & _ & Hb & Hp)]];
        rewrite poll_spec in Hp; simpl in Hp; rewrite Hb in Hp, Hlen;
        case_bool_decide; simplify_eq/=; split; done || lia.
Qed.

(** [set_capacity] wakes the oldest blocked senders, one per slot the new
    capacity leaves free; but making the channel unbounded (capacity [0]) wakes
    nobody, although every blocked sender could now send. *)
Theorem unsync_set_capacity_wakes size c :
  (∃ c', set_capacity size c =
     Return ((), c', take (size - length (buffer (shared c))) (blocked_senders (shared c))) ∧
     blocked_senders (shared c') =
       drop (size - length (buffer (shared c))) (blocked_senders (shared c)) ∧
     buffer (shared c') = buffer (shared c) ∧ capacity (shared c') = size) ∧
  (∃ c', set_capacity 0 c = Return ((), c', []) ∧ has_room (shared c') = true ∧
     blocked_senders (shared c') = blocked_senders (shared c)).
Proof.
  split.
  - rewrite set_capacity_spec. eexists. by split_and!.
  - rewrite set_capacity_spec. eexists. by split_and!.
Qed.

(** dropping the receiver notifies every blocked sender in order, gives up
    exactly the buffered envelopes, and from then on every way of sending hands
    the message back with [Closed]. *)
Theorem unsync_closed_after_drop c :
  strong c = true →
  ∃ c', recv_drop c = Return (buffer (shared c), c', blocked_senders (shared c)) ∧
    sender_connected c' = Return (false, c', []) ∧
    (∀ m, do_send m c' = Return (Err (Closed m), c', [])) ∧
    (∀ t m park, try_send t m park c' = Return (Err (Closed m), c', [])) ∧
    (∀ t p m, send t p m c' = Return (Err (Closed m), c', [])).
Proof.
  intros Hs. eexists (mkChan false (weak c) (mkShared [] (capacity (shared c)) [] None)).
  split_and!.
  - unfold recv_drop, mbind, prog_bind; simpl. rewrite notify_all_spec; simpl.
    by rewrite app_nil_r.
  - done.
  - intros m. by rewrite do_send_spec.
  - intros t m park. by rewrite try_send_spec.
  - intros t p m. by rewrite send_spec.
Qed.
End channel.

(** ** Witnesses *)

Section witnesses.
Abbreviation demo_op := (@op Z nat nat nat).
Abbreviation demo_chan := (@Chan Z nat nat).

(** A sender of capacity 1, a second message that finds the buffer full, and
    the receiver parked after it took the first one. *)
Definition demo_ops : list demo_op :=
  [NewSender; Send 4%nat (0, 0)%nat 10; Send 5%nat (1, 1)%nat 11;
   RecvPoll 9%nat; RecvPoll 9%nat].
Definition demo : demo_chan :=
  mkChan true 1 (mkShared [] 1 [] (Some 9%nat)).

Lemma demo_history :
  history (new 1) demo_ops [pack 10 (Some 0%nat)] [pack 10 (Some 0%nat)] demo.
Proof.
  apply (exec_ops_history demo_ops (new 1) [] [] [] (new 1)); [apply history_nil |].
  vm_compute. reflexivity.
Qed.

Lemma unsync_fifo_witness :
  [pack 10 (Some 0%nat)] = [pack 10 (Some 0%nat)] ++ buffer (shared demo).
Proof. exact (unsync_fifo _ _ _ _ _ demo_history). Defined.

(** The receiver, task 9, parks again; a sender is cloned and dropped; a message is
    sent. *)
Lemma unsync_receiver_woken_witness :
  ∃ c2 ts, others demo [CloneSender; DropSender; DoSend 12 : demo_op] ts c2 ∧
           buffer (shared c2) = [pack 12 None] ∧ 9%nat ∈ ts.
Proof.
  assert (∃ c2 ts, others demo [CloneSender; DropSender; DoSend 12 : demo_op] ts c2 ∧
            buffer (shared c2) = [pack 12 None]) as (c2 & ts & Ho & Hb).
  { eexists _, _. split.
    - eapply (others_snoc _ _ _ [CloneSender; DropSender]);
        [eapply (others_snoc _ _ _ [CloneSender]);
          [eapply (others_snoc _ _ _ []); [apply others_nil | ..] | ..] | ..];
        (reflexivity || (simpl; lia)).
    - reflexivity. }
  exists c2, ts. split; [exact Ho |]. split; [exact Hb |].
  apply (unsync_receiver_woken 1 demo_ops _ _ demo 9%nat demo []
           [CloneSender; DropSender; DoSend 12 : demo_op] ts c2 demo_history);
    [reflexivity | exact Ho | left; by rewrite Hb].
Defined.

Lemma unsync_capacity_bound_witness :
  capacity (shared demo) = 1%nat ∧ (length (buffer (shared demo)) ≤ 1)%nat.
Proof.
  apply (unsync_capacity_bound 1 _ _ _ _ ltac:(lia) demo_history).
  repeat constructor.
Defined.

Lemma unsync_closed_after_drop_witness :
  ∃ c', recv_drop demo = Return ([], c', []) ∧
        do_send 13 c' = Return (Err (Closed 13), c', []).
Proof.
  destruct (unsync_closed_after_drop (Rx := nat) demo eq_refl) as (c' & Hd & _ & Hs & _).
  exists c'. split; [exact Hd | exact (Hs 13)].
Defined.
End witnesses.
