(* ===== verification/SyncChannel.v ===== *)
(** * The thread-safe channel of [src/address/sync_channel.rs]

    [Inner] is the state the source shares between the senders and the receiver
    through an [Arc]: the capacity, the packed state word, the two queues, the
    number of senders, the receiver's task slot, and the [Arc<Mutex<SenderTask>>]
    cells the senders own, addressed by [task_ptr].  This file runs every method
    to its end before the next one starts; [SyncChannelConc] interleaves their
    atomic actions.  Each compare-exchange loop is given by one iteration
    ([Cas]), which [cas_loop] runs without interference and which
    [SyncChannelConc] runs against other threads.

    The two queues are any [MpscQueue]; [current] is what [task::current()]
    returns, and the pair given to [send] the oneshot channel it creates. *)

From S2P Require Import Prelude.
From S2P Require Import Queue.
From S2P Require Import Envelope.

(** ** The packed state word *)

(** Struct representation of [Inner::state]. *)
Record State : Type := mkState {
  is_open : bool;
  num_messages : Z
}.

Definition OPEN_MASK : Z := usize_MAX - Z.shiftr usize_MAX 1.
Definition INIT_STATE : Z := OPEN_MASK.
(** [!(OPEN_MASK)] *)
Definition MAX_CAPACITY : Z := Z.lxor usize_MAX OPEN_MASK.
Definition MAX_BUFFER : Z := Z.shiftr MAX_CAPACITY 1.

Definition decode_state (num : Z) : State :=
  mkState (Z.land num OPEN_MASK =? OPEN_MASK) (Z.land num MAX_CAPACITY).

Definition encode_state (s : State) : Z :=
  if is_open s then Z.lor (num_messages s) OPEN_MASK else num_messages s.

(** One iteration of a compare-exchange loop on an atomic cell: return without
    touching the cell, panic, or try to replace the value that was read. *)
Inductive Cas (R : Type) : Type :=
| CasReturn (r : R)
| CasPanic (msg : string)
| CasTry (next : Z) (r : R).
Arguments CasReturn {R} r.
Arguments CasPanic {R} msg.
Arguments CasTry {R} next r.

(** [buffer != 0 && state.num_messages >= buffer]. *)
Definition is_full (buffer : Z) (s : State) : bool :=
  negb (buffer =? 0) && (buffer <=? num_messages s).

(** [inc_num_messages]: the loop body. *)
Definition inc_num_messages_iter (buffer curr : Z) : Cas (option bool) :=
  let state := decode_state curr in
  if negb (is_open state) then CasReturn None
  else if is_full buffer state then CasReturn (Some true)
  else CasTry (encode_state (mkState (is_open state) (wrap (num_messages state + 1)))) (Some false).

(** [inc_num_messages_force]: the loop body. *)
Definition inc_num_messages_force_iter (buffer curr : Z) : Cas (option bool) :=
  let state := decode_state curr in
  if negb (is_open state) then CasReturn None
  else
    let state := mkState (is_open state) (wrap (num_messages state + 1)) in
    CasTry (encode_state state) (Some (is_full buffer state)).

(** [dec_num_messages]: the loop body. *)
Definition dec_num_messages_iter (curr : Z) : Cas () :=
  let state := decode_state curr in
  CasTry (encode_state (mkState (is_open state) (wrap (num_messages state - 1)))) ().

(** The closing loop of the receiver's [Drop]. *)
Definition close_iter (curr : Z) : Cas () :=
  let state := decode_state curr in
  if negb (is_open state) then CasReturn ()
  else CasTry (encode_state (mkState false (num_messages state))) ().

(** [Inner::max_senders] of a channel with the given [buffer]. *)
Definition max_senders {build : Build} (buffer : Z) : Exec Z :=
  uint_sub debug_build 64 MAX_CAPACITY buffer.

(** The loop bodies of [Clone] of a sender and of [SyncAddressReceiver::sender]: the
    test for the maximum, the [debug_assert!], which loads [buffer] again and which
    only [Clone] has, and the exchange.  [Some msg]: a panic. *)
Definition clone_test {build : Build} (buffer curr : Z) : option string :=
  match max_senders buffer with
  | Return max =>
      if curr =? max then Some "cannot clone `Sender` -- too many outstanding senders"%string
      else None
  | Panic msg => Some msg
  | _ => None
  end.
Definition clone_assert {build : Build} (buffer curr : Z) : option string :=
  if debug_build then
    match max_senders buffer with
    | Return max =>
        if curr <? max then None
        else Some "assertion failed: curr < self.inner.max_senders()"%string
    | Panic msg => Some msg
    | _ => None
    end
  else None.
Definition clone_iter {build : Build} (buffer curr : Z) : Cas () :=
  match clone_test buffer curr with
  | Some msg => CasPanic msg
  | None =>
      match clone_assert buffer curr with
      | Some msg => CasPanic msg
      | None => CasTry (wrap (curr + 1)) ()
      end
  end.
Definition sender_iter {build : Build} (buffer curr : Z) : Cas () :=
  match clone_test buffer curr with
  | Some msg => CasPanic msg
  | None => CasTry (wrap (curr + 1)) ()
  end.

(** *** Arithmetic of the state word *)

Lemma OPEN_MASK_value : OPEN_MASK = 2 ^ 63.
Proof. reflexivity. Qed.
Lemma MAX_CAPACITY_value : MAX_CAPACITY = Z.ones 63.
Proof. reflexivity. Qed.

Lemma num_messages_decode num : num_messages (decode_state num) = num mod 2 ^ 63.
Proof.
  unfold decode_state; cbn [num_messages]. rewrite MAX_CAPACITY_value. by apply Z.land_ones.
Qed.

Lemma is_open_decode num :
  is_open (decode_state num) = Z.testbit num 63.
Proof.
  unfold decode_state; cbn [is_open]. rewrite OPEN_MASK_value.
  apply eq_true_iff_eq. rewrite Z.eqb_eq. split.
  - intros H. apply (f_equal (fun z => Z.testbit z 63)) in H.
    rewrite Z.land_spec, Z.pow2_bits_true, andb_true_r in H by lia. done.
  - intros H. apply Z.bits_inj'. intros n Hn. rewrite Z.land_spec.
    destruct (decide (n = 63)) as [->|]; [by rewrite H, Z.pow2_bits_true |].
    rewrite Z.pow2_bits_false by lia. apply andb_false_r.
Qed.

Lemma encode_state_value s :
  0 ≤ num_messages s ≤ MAX_CAPACITY →
  encode_state s = num_messages s + (if is_open s then 2 ^ 63 else 0).
Proof.
  intros Hn. unfold encode_state. destruct (is_open s); [| lia].
  rewrite OPEN_MASK_value, <- Z.lxor_lor, <- Z.add_nocarry_lxor; [done | |].
  all: apply Z.bits_inj'; intros n Hb; rewrite Z.land_spec, Z.bits_0.
  all: destruct (decide (n = 63)) as [->|];
    [| rewrite Z.pow2_bits_false by lia; apply andb_false_r].
  all: rewrite <- (Z.mod_small (num_messages s) (2 ^ 63));
    [by rewrite Z.mod_pow2_bits_high | ].
  all: rewrite MAX_CAPACITY_value, Z.ones_equiv in Hn; lia.
Qed.

Lemma State_ext a b :
  is_open a = is_open b → num_messages a = num_messages b → a = b.
Proof. destruct a, b; simpl. by intros -> ->. Qed.

Lemma decode_encode_state s :
  0 ≤ num_messages s ≤ MAX_CAPACITY → decode_state (encode_state s) = s.
Proof.
  intros Hn. pose proof Hn as Hn'. rewrite MAX_CAPACITY_value, Z.ones_equiv in Hn'.
  destruct s as [o n]; cbn [num_messages] in *.
  apply State_ext; rewrite ?is_open_decode, ?num_messages_decode, encode_state_value by done;
    cbn [is_open num_messages]; (destruct o; [replace (n + 2 ^ 63) with (n + 1 * 2 ^ 63) by lia | rewrite Z.add_0_r]).
  - apply Z.testbit_true; [lia |]. by rewrite Z.div_add, Z.div_small by lia.
  - apply Z.testbit_false; [lia |]. by rewrite Z.div_small by lia.
  - rewrite Z.mod_add by lia. apply Z.mod_small. lia.
  - apply Z.mod_small. lia.
Qed.

Lemma decode_num_bound num : 0 ≤ num_messages (decode_state num) ≤ MAX_CAPACITY.
Proof.
  rewrite num_messages_decode, MAX_CAPACITY_value, Z.ones_equiv.
  pose proof (Z.mod_pos_bound num (2 ^ 63)). lia.
Qed.

Lemma encode_decode_state num : is_usize num → encode_state (decode_state num) = num.
Proof.
  unfold is_usize, usize_modulus. intros Hn.
  rewrite encode_state_value by apply decode_num_bound.
  rewrite is_open_decode, num_messages_decode, Z.testbit_eqb by lia.
  pose proof (Z.div_mod num (2 ^ 63)). pose proof (Z.mod_pos_bound num (2 ^ 63)).
  assert (num / 2 ^ 63 = 0 ∨ num / 2 ^ 63 = 1) as [Hd|Hd].
  { assert (0 ≤ num / 2 ^ 63 < 2); [| lia].
    split; [apply Z.div_pos; lia | apply Z.div_lt_upper_bound; lia]. }
  all: rewrite Hd in *; simpl; lia.
Qed.

(** ** The shared state *)

(** Identity of an [Arc<Mutex<SenderTask>>]. *)
Abbreviation task_ptr := positive.

Section channel.
Context {M Tx Rx Task : Type} {Q : Type → Type} `{!MpscQueue Q}.
Abbreviation Env := (Envelope M Tx).

Record SenderTask : Type := mkSenderTask {
  task : option Task;
  is_parked : bool
}.

Record ReceiverTask : Type := mkReceiverTask {
  unparked : bool;
  recv_handle : option Task
}.

Record Inner : Type := mkInner {
  buffer : Z;
  state : Z;
  message_queue : Q Env;
  parked_queue : Q task_ptr;
  num_senders : Z;
  recv_task : ReceiverTask;
  sender_tasks : gmap task_ptr SenderTask
}.

(** A sender: its [Arc<Mutex<SenderTask>>] and its [Cell<bool>]. *)
Record SyncAddressSender : Type := mkSender {
  sender_task : task_ptr;
  maybe_parked : bool
}.

Abbreviation P := (Prog Inner Task).

Definition set_buffer b (i : Inner) : Inner :=
  mkInner b (state i) (message_queue i) (parked_queue i) (num_senders i) (recv_task i)
    (sender_tasks i).
Definition set_state st (i : Inner) : Inner :=
  mkInner (buffer i) st (message_queue i) (parked_queue i) (num_senders i) (recv_task i)
    (sender_tasks i).
Definition set_message_queue q (i : Inner) : Inner :=
  mkInner (buffer i) (state i) q (parked_queue i) (num_senders i) (recv_task i)
    (sender_tasks i).
Definition set_parked_queue q (i : Inner) : Inner :=
  mkInner (buffer i) (state i) (message_queue i) q (num_senders i) (recv_task i)
    (sender_tasks i).
Definition set_num_senders n (i : Inner) : Inner :=
  mkInner (buffer i) (state i) (message_queue i) (parked_queue i) n (recv_task i)
    (sender_tasks i).
Definition set_recv_task r (i : Inner) : Inner :=
  mkInner (buffer i) (state i) (message_queue i) (parked_queue i) (num_senders i) r
    (sender_tasks i).
Definition set_sender_task p st (i : Inner) : Inner :=
  mkInner (buffer i) (state i) (message_queue i) (parked_queue i) (num_senders i) (recv_task i)
    (<[p := st]> (sender_tasks i)).

(** A compare-exchange loop nobody interferes with succeeds at its first try. *)
Definition cas_loop {R} (read : Inner → Z) (write : Z → Inner → Inner)
    (iter : Inner → Z → Cas R) : P R :=
  i ← get_state;
  match iter i (read i) with
  | CasReturn r => mret r
  | CasPanic m => lift (Panic m)
  | CasTry next r => _ ← modify (write next); mret r
  end.

(** [task.lock().unwrap().notify()] on a cell of the parked queue. *)
Definition sender_task_notify (p : task_ptr) : P () :=
  i ← get_state;
  st ← lift (deref (sender_tasks i !! p));
  _ ← modify (set_sender_task p (mkSenderTask None false));
  notify_opt (task st).

(** [channel]: the receiver's [Inner] and the first sender. *)
Definition channel (buffer : Z) : Exec (SyncAddressSender * Inner) :=
  _ ← rassert "requested buffer size too large" (buffer <? MAX_BUFFER);
  Return (mkSender 1 false,
          mkInner buffer INIT_STATE q_new q_new 1 (mkReceiverTask false None)
            {[1%positive := mkSenderTask None false]}).

(** ** [SyncAddressSender] *)

Definition sender_connected : P bool := gets (fun i => is_open (decode_state (state i))).

Definition inc_num_messages : P (option bool) :=
  cas_loop state set_state (fun i => inc_num_messages_iter (buffer i)).

Definition inc_num_messages_force : P (option bool) :=
  cas_loop state set_state (fun i => inc_num_messages_force_iter (buffer i)).

Definition signal : P () :=
  rt ← gets recv_task;
  if unparked rt then mret ()
  else
    _ ← modify (set_recv_task (mkReceiverTask true None));
    notify_opt (recv_handle rt).

Definition queue_push_and_signal (e : Env) : P () :=
  i ← get_state;
  q ← lift (q_push e (message_queue i));
  _ ← modify (set_message_queue q);
  signal.

Definition park (current : Task) (can_park : bool) (s : SyncAddressSender)
  : P SyncAddressSender :=
  let t := if can_park then Some current else None in
  _ ← modify (set_sender_task (sender_task s) (mkSenderTask t true));
  i ← get_state;
  q ← lift (q_push (sender_task s) (parked_queue i));
  _ ← modify (set_parked_queue q);
  st ← gets state;
  mret (mkSender (sender_task s) (is_open (decode_state st))).

Definition poll_unparked (current : Task) (do_park : bool) (s : SyncAddressSender)
  : P (Async () * SyncAddressSender) :=
  if maybe_parked s then
    i ← get_state;
    st ← lift (deref (sender_tasks i !! sender_task s));
    if negb (is_parked st) then mret (Ready (), mkSender (sender_task s) false)
    else
      _ ← modify (set_sender_task (sender_task s)
                    (mkSenderTask (if do_park then Some current else None) (is_parked st)));
      mret (NotReady, s)
  else mret (Ready (), s).

Definition send (current : Task) (oneshot : Tx * Rx) (m : M) (s : SyncAddressSender)
  : P (Result Rx (SendError M) * SyncAddressSender) :=
  '(r, s) ← poll_unparked current false s;
  match r with
  | NotReady => mret (Err (Full m), s)
  | Ready _ =>
      o ← inc_num_messages;
      match o with
      | None => mret (Err (Closed m), s)
      | Some true => s ← park current true s; mret (Err (Full m), s)
      | Some false =>
          let '(tx, rx) := oneshot in
          _ ← queue_push_and_signal (pack m (Some tx));
          mret (Ok rx, s)
      end
  end.

Definition try_send (current : Task) (m : M) (do_park : bool) (s : SyncAddressSender)
  : P (Result () (SendError M) * SyncAddressSender) :=
  '(r, s) ← poll_unparked current false s;
  match r with
  | NotReady => mret (Err (Full m), s)
  | Ready _ =>
      o ← inc_num_messages;
      match o with
      | None => mret (Err (Closed m), s)
      | Some true =>
          s ← (if do_park then park current true s else mret s);
          mret (Err (Full m), s)
      | Some false => _ ← queue_push_and_signal (pack m None); mret (Ok (), s)
      end
  end.

Definition do_send (m : M) : P (Result () (SendError M)) :=
  o ← inc_num_messages_force;
  match o with
  | None => mret (Err (Closed m))
  | Some _ => _ ← queue_push_and_signal (pack m None); mret (Ok ())
  end.

(** The sender that [Clone] and [SyncAddressReceiver::sender] return. *)
Definition fresh_sender : P SyncAddressSender :=
  i ← get_state;
  let p := fresh (dom (sender_tasks i)) in
  _ ← modify (set_sender_task p (mkSenderTask None false));
  mret (mkSender p false).
Definition sender_clone {build : Build} : P SyncAddressSender :=
  _ ← cas_loop num_senders set_num_senders (fun i => clone_iter (buffer i)); fresh_sender.
Definition recv_sender {build : Build} : P SyncAddressSender :=
  _ ← cas_loop num_senders set_num_senders (fun i => sender_iter (buffer i)); fresh_sender.

Definition sender_drop : P () :=
  prev ← gets num_senders;
  _ ← modify (set_num_senders (wrap (prev - 1)));
  if prev =? 1 then signal else mret ().

(** ** [SyncAddressReceiver] *)

Definition recv_connected : P bool := gets (fun i => negb (num_senders i =? 0)).

(** One [pop] of a queue field. *)
Definition pop_parked : P (PopResult task_ptr) :=
  i ← get_state;
  '(r, q) ← lift (q_pop (parked_queue i));
  _ ← modify (set_parked_queue q);
  mret r.
Definition pop_message : P (PopResult Env) :=
  i ← get_state;
  '(r, q) ← lift (q_pop (message_queue i));
  _ ← modify (set_message_queue q);
  mret r.

(** The loops that notify every parked sender ([set_capacity], [drop]). *)
Fixpoint wake_all (fuel : nat) : P () :=
  match fuel with
  | O => lift OutOfFuel
  | S fuel =>
      r ← pop_parked;
      match r with
      | Data p => _ ← sender_task_notify p; wake_all fuel
      | Empty => mret ()
      | Inconsistent => wake_all fuel
      end
  end.

Definition set_capacity (fuel : nat) (cap : Z) : P () :=
  b ← gets buffer;
  _ ← modify (set_buffer cap);
  if b <? cap then wake_all fuel else mret ().

Fixpoint next_message (fuel : nat) : P (Async (option Env)) :=
  match fuel with
  | O => lift OutOfFuel
  | S fuel =>
      r ← pop_message;
      match r with
      | Data e => mret (Ready (Some e))
      | Empty => mret NotReady
      | Inconsistent => next_message fuel
      end
  end.

Fixpoint unpark_one (fuel : nat) : P () :=
  match fuel with
  | O => lift OutOfFuel
  | S fuel =>
      r ← pop_parked;
      match r with
      | Data p => sender_task_notify p
      | Empty => mret ()
      | Inconsistent => unpark_one fuel
      end
  end.

Inductive TryPark : Type := Parked | NotEmpty.

Definition try_park (current : Task) : P TryPark :=
  rt ← gets recv_task;
  if unparked rt then
    _ ← modify (set_recv_task (mkReceiverTask false (recv_handle rt))); mret NotEmpty
  else
    _ ← modify (set_recv_task (mkReceiverTask (unparked rt) (Some current))); mret Parked.

Definition dec_num_messages : P () :=
  cas_loop state set_state (fun _ => dec_num_messages_iter).

(** [Stream::poll]; the fuel bounds its loop and the retries of the queues. *)
Fixpoint poll (fuel : nat) (current : Task) : P (Poll (option Env) ()) :=
  match fuel with
  | O => lift OutOfFuel
  | S fuel' =>
      a ← next_message fuel;
      match a with
      | Ready msg =>
          _ ← unpark_one fuel;
          _ ← dec_num_messages;
          mret (Ok (Ready msg))
      | NotReady =>
          p ← try_park current;
          match p with
          | Parked => mret (Ok NotReady)
          | NotEmpty => poll fuel' current
          end
      end
  end.

(** [while self.next_message().is_ready() {}]; the envelopes drained are returned. *)
Fixpoint drain (fuel : nat) : P (list Env) :=
  match fuel with
  | O => lift OutOfFuel
  | S fuel' =>
      a ← next_message fuel;
      match a with
      | Ready (Some e) => es ← drain fuel'; mret (e :: es)
      | Ready None => drain fuel'
      | NotReady => mret []
      end
  end.

(** [Drop] of the receiver. *)
Definition recv_drop (fuel : nat) : P (list Env) :=
  _ ← cas_loop state set_state (fun _ => close_iter);
  _ ← wake_all fuel;
  drain fuel.
End channel.
