(* ===== verification/SyncChannelSpec.v ===== *)
(** * What the thread-safe channel promises: specification and refinement

    [AChan] is the channel of [SyncChannel] without its machinery: no packed
    state word, no linked queues, only the lists of queued envelopes and of
    parked senders.  [sync_refines] shows that every method of the source,
    run on any state that represents an [AChan], returns (with the fuel its
    loops need) and does what the specification does.  The rest of the file
    proves the guarantees of the channel along histories of operations. *)

From S2P Require Import Prelude.
From S2P Require Import Queue.
From S2P Require Import Envelope.
From S2P Require Import SyncChannel.

Section spec.
Context {M Tx Rx Task : Type}.
Abbreviation Env := (Envelope M Tx).
Abbreviation Cells := (gmap task_ptr (SenderTask (Task := Task))).
Abbreviation idle := (mkSenderTask None false).

Record AChan : Type := mkAChan {
  a_buffer : Z;
  a_open : bool;
  a_messages : list Env;
  a_parked : list task_ptr;
  a_senders : Z;
  a_recv : ReceiverTask (Task := Task);
  a_cells : Cells
}.

(** ** The operations of the specification *)

Definition a_full (a : AChan) : bool :=
  negb (a_buffer a =? 0) && (a_buffer a <=? Z.of_nat (length (a_messages a))).

(** Put a message in and mark the receiver as woken. *)
Definition a_push (e : Env) (a : AChan) : AChan :=
  mkAChan (a_buffer a) (a_open a) (a_messages a ++ [e]) (a_parked a) (a_senders a)
    (mkReceiverTask true None) (a_cells a).
Definition a_set_cell (p : task_ptr) (st : SenderTask) (a : AChan) : AChan :=
  mkAChan (a_buffer a) (a_open a) (a_messages a) (a_parked a) (a_senders a) (a_recv a)
    (<[p := st]> (a_cells a)).
Definition a_park (current : Task) (p : task_ptr) (a : AChan) : AChan :=
  mkAChan (a_buffer a) (a_open a) (a_messages a) (a_parked a ++ [p]) (a_senders a) (a_recv a)
    (<[p := mkSenderTask (Some current) true]> (a_cells a)).

(** Is the sender's cell still marked as parked? *)
Definition a_blocked (s : SyncAddressSender) (a : AChan) : bool :=
  maybe_parked s &&
  match a_cells a !! sender_task s with Some st => is_parked st | None => false end.

Inductive verdict : Type := Accepted | Rejected | Disconnected.

(** [send] and [try_send] differ only in the envelope and in whether they park. *)
Definition spec_try_send (current : Task) (do_park : bool) (e : Env)
    (s : SyncAddressSender) (a : AChan) : verdict * SyncAddressSender * AChan * list Task :=
  if a_blocked s a
  then (Rejected, s, a_set_cell (sender_task s) (mkSenderTask None true) a, [])
  else
    let s := mkSender (sender_task s) false in
    if negb (a_open a) then (Disconnected, s, a, [])
    else if a_full a then
      if do_park
      then (Rejected, mkSender (sender_task s) true, a_park current (sender_task s) a, [])
      else (Rejected, s, a, [])
    else (Accepted, s, a_push e a, option_list (recv_handle (a_recv a))).

Definition verdict_result {R} (m : M) (ok : R) (v : verdict) : Result R (SendError M) :=
  match v with
  | Accepted => Ok ok
  | Rejected => Err (Full m)
  | Disconnected => Err (Closed m)
  end.

Definition spec_do_send (e : Env) (a : AChan) : verdict * AChan * list Task :=
  if a_open a then (Accepted, a_push e a, option_list (recv_handle (a_recv a)))
  else (Disconnected, a, []).

(** Mark parked senders as unparked, in order; the tasks that are notified. *)
Fixpoint wake_cells (ps : list task_ptr) (cells : Cells) : Cells * list Task :=
  match ps with
  | [] => (cells, [])
  | p :: ps =>
      let '(cells', w) := wake_cells ps (<[p := idle]> cells) in
      (cells', match cells !! p with Some st => option_list (task st) | None => [] end ++ w)
  end.

Definition a_unpark (n : nat) (a : AChan) : AChan * list Task :=
  let '(cells, w) := wake_cells (take n (a_parked a)) (a_cells a) in
  (mkAChan (a_buffer a) (a_open a) (a_messages a) (skipn n (a_parked a)) (a_senders a)
     (a_recv a) cells, w).

Definition spec_poll (current : Task) (a : AChan)
  : Poll (option Env) () * AChan * list Task :=
  match a_messages a with
  | e :: ms =>
      let '(a, w) := a_unpark 1 a in
      (Ok (Ready (Some e)),
       mkAChan (a_buffer a) (a_open a) ms (a_parked a) (a_senders a) (a_recv a) (a_cells a), w)
  | [] =>
      (Ok NotReady,
       mkAChan (a_buffer a) (a_open a) [] (a_parked a) (a_senders a)
         (mkReceiverTask false (Some current)) (a_cells a), [])
  end.

Definition spec_set_capacity (cap : Z) (a : AChan) : AChan * list Task :=
  let a' := mkAChan cap (a_open a) (a_messages a) (a_parked a) (a_senders a) (a_recv a)
              (a_cells a) in
  if a_buffer a <? cap then a_unpark (length (a_parked a)) a' else (a', []).

(** When making a sender panics: at the maximum number of senders; in a debug build
    also when the capacity is so large that the maximum underflows, and, for
    [Clone], beyond the maximum, which is where raising the capacity can leave the
    channel. *)
Definition clone_refused {build : Build} (clone : bool) (buffer senders : Z) : bool :=
  let max := wrap (MAX_CAPACITY - buffer) in
  (senders =? max) ||
  (debug_build && ((MAX_CAPACITY <? buffer) || (clone && (max <=? senders)))).

Definition spec_clone (a : AChan) : SyncAddressSender * AChan :=
  let p := fresh (dom (a_cells a)) in
  (mkSender p false,
   mkAChan (a_buffer a) (a_open a) (a_messages a) (a_parked a) (a_senders a + 1) (a_recv a)
     (<[p := idle]> (a_cells a))).

Definition spec_sender_drop (a : AChan) : AChan * list Task :=
  let last := a_senders a =? 1 in
  (mkAChan (a_buffer a) (a_open a) (a_messages a) (a_parked a) (a_senders a - 1)
     (if last then mkReceiverTask true None else a_recv a) (a_cells a),
   if last then option_list (recv_handle (a_recv a)) else []).

Definition spec_recv_drop (a : AChan) : list Env * AChan * list Task :=
  let '(a', w) := a_unpark (length (a_parked a)) a in
  (a_messages a,
   mkAChan (a_buffer a') false [] [] (a_senders a') (a_recv a') (a_cells a'), w).
End spec.
Arguments AChan : clear implicits.

Section refinement.
Context {M Tx Rx Task : Type} {Q : Type → Type} `{!MpscQueue Q}.
Abbreviation Env := (Envelope M Tx).
Abbreviation Inner := (@Inner M Tx Task Q).
Abbreviation AChan := (AChan M Tx Task).
Abbreviation idle := (mkSenderTask (Task := Task) None false).
Implicit Types (i : Inner) (a : AChan) (s : SyncAddressSender).

(** [R i a]: the shared state [i] represents [a].  While the channel is open
    the counter of the state word is the number of queued messages. *)
Record R (i : Inner) (a : AChan) : Prop := mkR {
  R_buffer : buffer i = a_buffer a;
  R_state : ∃ n, state i = encode_state (mkState (a_open a) n) ∧ 0 ≤ n ≤ MAX_CAPACITY ∧
                 (a_open a = true → n = Z.of_nat (length (a_messages a)));
  R_messages : q_repr (message_queue i) (a_messages a);
  R_parked : q_repr (parked_queue i) (a_parked a);
  R_senders : num_senders i = a_senders a;
  R_recv : recv_task i = a_recv a;
  R_cells : sender_tasks i = a_cells a;
  R_parked_cells : Forall (fun p => is_Some (a_cells a !! p)) (a_parked a);
  R_unparked : unparked (a_recv a) = true → recv_handle (a_recv a) = None
}.

Ltac run_prog :=
  repeat progress (unfold cas_loop, get_state, gets, modify, notify, notify_opt, lift,
    mbind, prog_bind, exec_bind, mret, prog_ret, exec_ret, unwrap, deref; simpl).

Lemma cas_loop_spec {A} read write (iter : Inner → Z → Cas A) i :
  cas_loop read write iter i =
  match iter i (read i) with
  | CasReturn r => Return (r, i, [])
  | CasPanic m => Panic m
  | CasTry next r => Return (r, write next i, [])
  end.
Proof. run_prog. by destruct (iter i (read i)). Qed.

Lemma R_decode i a :
  R i a →
  is_open (decode_state (state i)) = a_open a ∧
  (a_open a = true → decode_state (state i) =
     mkState true (Z.of_nat (length (a_messages a))) ∧
     Z.of_nat (length (a_messages a)) ≤ MAX_CAPACITY).
Proof.
  intros [_ (n & -> & Hn & Ho) _ _ _ _ _ _ _]. rewrite decode_encode_state by done.
  split; [done |]. intros Hopen. specialize (Ho Hopen). rewrite Hopen. subst n. split; [done | lia].
Qed.

(** *** Pieces of the operations *)

Lemma signal_spec i :
  (unparked (recv_task i) = true → recv_handle (recv_task i) = None) →
  signal i = Return ((), set_recv_task (mkReceiverTask true None) i,
                     option_list (recv_handle (recv_task i))).
Proof.
  intros Hu. unfold signal. destruct i as [b st mq pq ns [u h] cs]; simpl in *.
  run_prog. destruct u; simpl; [by rewrite (Hu eq_refl) | by destruct h].
Qed.

Lemma queue_push_and_signal_spec e i ms :
  q_repr (message_queue i) ms →
  (unparked (recv_task i) = true → recv_handle (recv_task i) = None) →
  ∃ q, q_repr q (ms ++ [e]) ∧
    queue_push_and_signal e i =
    Return ((), set_recv_task (mkReceiverTask true None) (set_message_queue q i),
            option_list (recv_handle (recv_task i))).
Proof.
  intros Hq Hu. destruct (q_push_repr _ _ e Hq) as (q & Hp & Hq'). exists q.
  split; [done |]. unfold queue_push_and_signal. run_prog. rewrite Hp. simpl.
  rewrite signal_spec by done. done.
Qed.

Lemma inc_num_messages_spec i a :
  R i a →
  inc_num_messages i =
  if negb (a_open a) then Return (None, i, [])
  else if a_full a then Return (Some true, i, [])
  else Return (Some false, set_state (encode_state
         (mkState true (wrap (Z.of_nat (length (a_messages a)) + 1)))) i, []).
Proof.
  intros HR. destruct (R_decode _ _ HR) as [Ho Hd].
  unfold inc_num_messages. rewrite cas_loop_spec. unfold inc_num_messages_iter.
  rewrite Ho. destruct (a_open a) eqn:Hopen; cbn [negb]; [| done].
  destruct (Hd eq_refl) as [-> _]. unfold is_full, a_full. cbn [num_messages is_open].
  rewrite (R_buffer _ _ HR). by destruct (_ && _).
Qed.

Lemma inc_num_messages_force_spec i a :
  R i a →
  inc_num_messages_force i =
  if negb (a_open a) then Return (None, i, [])
  else Return (Some (is_full (a_buffer a)
                      (mkState true (wrap (Z.of_nat (length (a_messages a)) + 1)))),
               set_state (encode_state
                 (mkState true (wrap (Z.of_nat (length (a_messages a)) + 1)))) i, []).
Proof.
  intros HR. destruct (R_decode _ _ HR) as [Ho Hd].
  unfold inc_num_messages_force. rewrite cas_loop_spec. unfold inc_num_messages_force_iter.
  rewrite Ho. destruct (a_open a) eqn:Hopen; cbn [negb]; [| done].
  destruct (Hd eq_refl) as [-> _]. cbn [num_messages is_open]. by rewrite (R_buffer _ _ HR).
Qed.

(** Room for one more message in the counter of the state word. *)
Definition countable (a : AChan) : Prop := Z.of_nat (length (a_messages a)) < MAX_CAPACITY.

Lemma countable_wrap a :
  countable a →
  wrap (Z.of_nat (length (a_messages a)) + 1) = Z.of_nat (S (length (a_messages a))).
Proof.
  unfold countable. rewrite MAX_CAPACITY_value, Z.ones_equiv. intros H.
  rewrite wrap_small; [lia |]. unfold is_usize, usize_modulus. lia.
Qed.

(** Accepting a message: the counter goes up, then the message goes in. *)
Lemma accept_spec e i a :
  R i a → a_open a = true → countable a →
  ∃ i', queue_push_and_signal e (set_state (encode_state
           (mkState true (wrap (Z.of_nat (length (a_messages a)) + 1)))) i) =
        Return ((), i', option_list (recv_handle (a_recv a))) ∧ R i' (a_push e a).
Proof.
  intros HR Ho Hc.
  destruct (queue_push_and_signal_spec e (set_state (encode_state
     (mkState true (wrap (Z.of_nat (length (a_messages a)) + 1)))) i) (a_messages a))
    as (q & Hq & ->).
  { apply HR. }
  { simpl. rewrite (R_recv _ _ HR). apply HR. }
  simpl. rewrite (R_recv _ _ HR). eexists. split; [done |].
  destruct HR as [? ? ? ? ? ? ? ? ?]; split; simpl; try done.
  rewrite countable_wrap by done. eexists. split; [by rewrite Ho |]. unfold countable in Hc.
  rewrite length_app; simpl. split; [lia |]. intros _. lia.
Qed.

Lemma sender_task_notify_spec p i st :
  sender_tasks i !! p = Some st →
  sender_task_notify p i =
  Return ((), set_sender_task p idle i, option_list (task st)).
Proof.
  intros Hp. unfold sender_task_notify. run_prog. rewrite Hp. simpl. destruct (task st); by run_prog.
Qed.

(** *** The sender's methods *)

(** The sender's cell exists. *)
Definition owned (s : SyncAddressSender) (a : AChan) : Prop :=
  is_Some (a_cells a !! sender_task s).

Lemma poll_unparked_spec current s i a :
  R i a → owned s a →
  ∃ i', poll_unparked current false s i =
    (if a_blocked s a then Return ((NotReady, s), i', [])
     else Return ((Ready (), mkSender (sender_task s) false), i', [])) ∧
    R i' (if a_blocked s a then a_set_cell (sender_task s) (mkSenderTask None true) a else a).
Proof.
  intros HR [st Hst]. unfold poll_unparked, a_blocked. rewrite Hst.
  destruct s as [p [|]]; simpl in *; [| by exists i; destruct st].
  run_prog. rewrite (R_cells _ _ HR), Hst; simpl. destruct st as [t [|]]; simpl;
    [| by exists i].
  eexists. split; [done |].
  destruct HR as [? ? ? ? ? ? ? ? ?]; split; simpl; try done; [congruence |].
  eapply Forall_impl; [done |]. intros p' Hp'; simpl. by apply lookup_insert_is_Some'; right.
Qed.

Lemma park_spec current s i a :
  R i a → a_open a = true →
  ∃ i', park current true s i = Return (mkSender (sender_task s) true, i', []) ∧
        R i' (a_park current (sender_task s) a).
Proof.
  intros HR Ho. destruct (q_push_repr _ _ (sender_task s) (R_parked _ _ HR)) as (q & Hp & Hq).
  unfold park. run_prog. rewrite Hp; simpl.
  replace (Z.land (state i) OPEN_MASK =? OPEN_MASK) with true
    by (symmetry; destruct (R_decode _ _ HR) as [Hd _]; by rewrite Ho in Hd).
  eexists. split; [done |].
  destruct HR as [? ? ? ? ? ? ? Hf ?]; split; simpl; try done; [congruence |].
  apply Forall_app; split; [| apply Forall_singleton; rewrite lookup_insert_eq; by eexists].
  eapply Forall_impl; [exact Hf |]. intros p' Hp'; simpl. by apply lookup_insert_is_Some'; right.
Qed.

Lemma try_send_refines current m do_park s i a :
  R i a → owned s a → countable a →
  let '(v, s', a', w) := spec_try_send current do_park (pack m None) s a in
  ∃ i', try_send current m do_park s i = Return ((verdict_result m () v, s'), i', w) ∧ R i' a'.
Proof.
  intros HR Hs Hc. unfold spec_try_send, try_send.
  destruct (poll_unparked_spec current s i a HR Hs) as (i1 & Hp & HR1).
  destruct (a_blocked s a).
  { rewrite (prog_bind_Return _ _ _ _ _ _ Hp). simpl. by exists i1. }
  rewrite (prog_bind_Return _ _ _ _ _ _ Hp). cbn -[inc_num_messages park].
  unfold mbind at 2, prog_bind at 1. rewrite (inc_num_messages_spec _ _ HR1).
  destruct (a_open a) eqn:Ho; cbn [negb]; [| by exists i1].
  destruct (a_full a); cbn -[queue_push_and_signal park].
  - destruct do_park; [| by exists i1].
    destruct (park_spec current (mkSender (sender_task s) false) _ _ HR1 Ho) as (i2 & Hpk & HR2).
    rewrite (prog_bind_Return _ _ _ _ _ _ Hpk). by exists i2.
  - destruct (accept_spec (pack m None) _ _ HR1 Ho Hc) as (i2 & Hpk & HR2).
    rewrite (prog_bind_Return _ _ _ _ _ _ Hpk). simpl. rewrite app_nil_r. by exists i2.
Qed.

Lemma send_refines current tx (rx : Rx) m s i a :
  R i a → owned s a → countable a →
  let '(v, s', a', w) := spec_try_send current true (pack m (Some tx)) s a in
  ∃ i', send current (tx, rx) m s i = Return ((verdict_result m rx v, s'), i', w) ∧ R i' a'.
Proof.
  intros HR Hs Hc. unfold spec_try_send, send.
  destruct (poll_unparked_spec current s i a HR Hs) as (i1 & Hp & HR1).
  destruct (a_blocked s a).
  { rewrite (prog_bind_Return _ _ _ _ _ _ Hp). simpl. by exists i1. }
  rewrite (prog_bind_Return _ _ _ _ _ _ Hp). cbn -[inc_num_messages park].
  unfold mbind at 2, prog_bind at 1. rewrite (inc_num_messages_spec _ _ HR1).
  destruct (a_open a) eqn:Ho; cbn [negb]; [| by exists i1].
  destruct (a_full a); cbn -[queue_push_and_signal park].
  - destruct (park_spec current (mkSender (sender_task s) false) _ _ HR1 Ho) as (i2 & Hpk & HR2).
    rewrite (prog_bind_Return _ _ _ _ _ _ Hpk). by exists i2.
  - destruct (accept_spec (pack m (Some tx)) _ _ HR1 Ho Hc) as (i2 & Hpk & HR2).
    rewrite (prog_bind_Return _ _ _ _ _ _ Hpk). simpl. rewrite app_nil_r. by exists i2.
Qed.

Lemma do_send_refines m i a :
  R i a → countable a →
  let '(v, a', w) := spec_do_send (pack m None) a in
  ∃ i', do_send m i = Return (verdict_result m () v, i', w) ∧ R i' a'.
Proof.
  intros HR Hc. unfold spec_do_send, do_send.
  unfold mbind at 1, prog_bind at 1. rewrite (inc_num_messages_force_spec _ _ HR).
  destruct (a_open a) eqn:Ho; cbn -[queue_push_and_signal]; [| by exists i].
  destruct (accept_spec (pack m None) _ _ HR Ho Hc) as (i2 & Hpk & HR2).
  rewrite (prog_bind_Return _ _ _ _ _ _ Hpk). simpl. rewrite app_nil_r. by exists i2.
Qed.

Lemma clone_iter_spec {build : Build} (clone : bool) buffer curr :
  let iter := if clone then clone_iter else sender_iter in
  if clone_refused clone buffer curr then ∃ msg, iter buffer curr = CasPanic msg
  else iter buffer curr = CasTry (wrap (curr + 1)) ().
Proof.
  intros iter. subst iter. unfold clone_refused.
  destruct clone; unfold clone_iter, sender_iter, clone_test, clone_assert, max_senders, uint_sub;
    change (2 ^ 64) with usize_modulus; fold (wrap (MAX_CAPACITY - buffer)); destruct debug_build; simpl;
    try (destruct (MAX_CAPACITY <? buffer); simpl; [rewrite orb_true_r; by eexists |]);
    destruct (Z.eqb_spec curr (wrap (MAX_CAPACITY - buffer))); simpl; try (by eexists); try done.
  rewrite Z.leb_antisym. destruct (curr <? _); simpl; [done | by eexists].
Qed.

Lemma make_sender_refines {build : Build} (clone : bool) i a :
  R i a →
  let make := if clone then sender_clone else recv_sender in
  if clone_refused clone (a_buffer a) (a_senders a)
  then ∃ msg, make i = Panic msg
  else ∃ i', make i =
         Return (mkSender (fresh (dom (a_cells a))) false,
                 i', []) ∧
       (is_usize (a_senders a + 1) → R i' (spec_clone a).2).
Proof.
  intros HR. pose proof (clone_iter_spec clone (a_buffer a) (a_senders a)) as Hc.
  destruct clone; [unfold sender_clone | unfold recv_sender]; unfold fresh_sender; run_prog;
    rewrite (R_senders _ _ HR), (R_buffer _ _ HR);
    (destruct (clone_refused _ _ _); [destruct Hc as [msg ->]; by exists msg |]);
    rewrite Hc; simpl; rewrite (R_cells _ _ HR); eexists; (split; [done |]); intros Hu;
    destruct HR as [? ? ? ? ? ? ? ? ?]; (split; simpl; try done; [by rewrite wrap_small | congruence |]);
    (eapply Forall_impl; [done |]); intros p' Hp'; simpl; apply lookup_insert_is_Some'; by right.
Qed.

Lemma sender_drop_refines i a :
  R i a → 0 < a_senders a ≤ usize_MAX →
  let '(a', w) := spec_sender_drop a in
  ∃ i', sender_drop i = Return ((), i', w) ∧ R i' a'.
Proof.
  intros HR Hn. unfold spec_sender_drop, sender_drop. run_prog.
  rewrite (R_senders _ _ HR), wrap_small by (unfold is_usize, usize_MAX in *; lia).
  destruct (a_senders a =? 1).
  - rewrite signal_spec; simpl; rewrite (R_recv _ _ HR); [| apply HR].
    eexists. split; [done |].
    by destruct HR as [? ? ? ? ? ? ? ? ?]; split.
  - eexists. split; [done |]. by destruct HR as [? ? ? ? ? ? ? ? ?]; split.
Qed.

(** *** The receiver's methods *)

Definition set_cells (cs : gmap task_ptr (SenderTask (Task := Task))) (i : Inner) : Inner :=
  mkInner (buffer i) (state i) (message_queue i) (parked_queue i) (num_senders i) (recv_task i) cs.

Lemma pop_parked_cons i p ps :
  q_repr (parked_queue i) (p :: ps) →
  ∃ q, pop_parked i = Return (Data p, set_parked_queue q i, []) ∧ q_repr q ps.
Proof.
  intros Hq. destruct (q_pop_cons _ _ _ Hq) as (q & Hp & Hq'). exists q.
  unfold pop_parked. run_prog. by rewrite Hp.
Qed.

Lemma pop_parked_nil i :
  q_repr (parked_queue i) [] → pop_parked i = Return (Empty, i, []).
Proof.
  intros Hq. unfold pop_parked. run_prog. rewrite (q_pop_nil _ Hq). by destruct i.
Qed.

Lemma wake_cells_dom ps cells (p : task_ptr) :
  is_Some (cells !! p) → is_Some ((wake_cells (Task := Task) ps cells).1 !! p).
Proof.
  revert cells. induction ps as [|p' ps IH]; intros cells Hp; simpl; [done |].
  specialize (IH (<[p' := idle]> cells)). destruct (wake_cells _ _); simpl in *.
  apply IH, lookup_insert_is_Some'. by right.
Qed.

Lemma wake_all_spec ps i :
  q_repr (parked_queue i) ps →
  Forall (fun p => is_Some (sender_tasks i !! p)) ps →
  ∃ q, q_repr q [] ∧ ∀ fuel, (length ps < fuel)%nat →
    wake_all fuel i =
    Return ((), set_cells (wake_cells ps (sender_tasks i)).1 (set_parked_queue q i),
            (wake_cells ps (sender_tasks i)).2).
Proof.
  revert i. induction ps as [|p ps IH]; intros i Hq Hf.
  - exists (parked_queue i). split; [done |]. intros [|fuel] Hl; simpl in *; [lia |].
    rewrite (prog_bind_Return _ _ _ _ _ _ (pop_parked_nil _ Hq)). by destruct i.
  - apply Forall_cons in Hf as [[st Hst] Hf].
    destruct (pop_parked_cons _ _ _ Hq) as (q & Hp & Hq').
    destruct (IH (set_sender_task p idle (set_parked_queue q i))) as (q2 & Hq2 & Hw); [done | |].
    { simpl. eapply Forall_impl; [exact Hf |]. intros p' ?; simpl.
      apply lookup_insert_is_Some'. by right. }
    exists q2. split; [done |]. intros [|fuel] Hl; simpl in Hl; [lia |]. simpl.
    rewrite (prog_bind_Return _ _ _ _ _ _ Hp). simpl.
    rewrite (prog_bind_Return _ _ _ _ _ _ (sender_task_notify_spec _ (set_parked_queue q i) _ Hst)),
      Hw, Hst by lia.
    simpl. by destruct (wake_cells _ _).
Qed.

Lemma unpark_one_spec ps i :
  q_repr (parked_queue i) ps →
  Forall (fun p => is_Some (sender_tasks i !! p)) ps →
  ∃ q, q_repr q (skipn 1 ps) ∧ ∀ fuel, (0 < fuel)%nat →
    unpark_one fuel i =
    Return ((), set_cells (wake_cells (take 1 ps) (sender_tasks i)).1 (set_parked_queue q i),
            (wake_cells (take 1 ps) (sender_tasks i)).2).
Proof.
  intros Hq Hf. destruct ps as [|p ps]; simpl.
  - exists (parked_queue i). split; [done |]. intros [|fuel] Hl; [lia |]. simpl.
    rewrite (prog_bind_Return _ _ _ _ _ _ (pop_parked_nil _ Hq)). by destruct i.
  - apply Forall_cons in Hf as [[st Hst] _].
    destruct (pop_parked_cons _ _ _ Hq) as (q & Hp & Hq').
    exists q. split; [done |]. intros [|fuel] Hl; [lia |]. simpl.
    rewrite (prog_bind_Return _ _ _ _ _ _ Hp). simpl.
    rewrite (sender_task_notify_spec _ (set_parked_queue q i) _ Hst), Hst; simpl.
    by rewrite app_nil_r.
Qed.

(** Waking parked senders, from the queue or all of them. *)
Lemma R_unpark n i a q :
  R i a → q_repr q (skipn n (a_parked a)) →
  R (set_cells (wake_cells (take n (a_parked a)) (sender_tasks i)).1 (set_parked_queue q i))
    (a_unpark n a).1.
Proof.
  intros HR Hq. unfold a_unpark. rewrite (R_cells _ _ HR).
  pose proof (wake_cells_dom (take n (a_parked a)) (a_cells a)) as Hdom.
  destruct (wake_cells _ _) as [cs w]; simpl in *.
  destruct HR as [? ? ? ? ? ? ? Hf ?]; split; simpl; try done.
  eapply Forall_impl; [apply Forall_drop, Hf |]. intros p; simpl. apply Hdom.
Qed.

Lemma next_message_cons i e ms :
  q_repr (message_queue i) (e :: ms) →
  ∃ q, q_repr q ms ∧ ∀ fuel, (0 < fuel)%nat →
    next_message fuel i = Return (Ready (Some e), set_message_queue q i, []).
Proof.
  intros Hq. destruct (q_pop_cons _ _ _ Hq) as (q & Hp & Hq'). exists q. split; [done |].
  intros [|fuel] Hl; [lia |]. simpl. unfold pop_message. run_prog. by rewrite Hp.
Qed.

Lemma next_message_nil i fuel :
  q_repr (message_queue i) [] → (0 < fuel)%nat →
  next_message fuel i = Return (NotReady, i, []).
Proof.
  destruct fuel as [|fuel]; [lia |]. intros Hq _.
  simpl. unfold pop_message. run_prog. rewrite (q_pop_nil _ Hq). by destruct i.
Qed.

Lemma dec_num_messages_spec i n :
  state i = encode_state (mkState true (Z.of_nat (S n))) → Z.of_nat (S n) ≤ MAX_CAPACITY →
  dec_num_messages i =
  Return ((), set_state (encode_state (mkState true (Z.of_nat n))) i, []).
Proof.
  intros Hs Hn. unfold dec_num_messages. rewrite cas_loop_spec. unfold dec_num_messages_iter.
  rewrite Hs, decode_encode_state by (cbn [num_messages]; lia). cbn [num_messages is_open].
  rewrite wrap_small.
  - simpl. by replace (Z.of_nat (S n) - 1) with (Z.of_nat n) by lia.
  - rewrite MAX_CAPACITY_value, Z.ones_equiv in Hn. unfold is_usize, usize_modulus. lia.
Qed.

Lemma R_recv_parked current i a :
  R i a → a_messages a = [] →
  R (set_recv_task (mkReceiverTask false (Some current)) i)
    (mkAChan (a_buffer a) (a_open a) [] (a_parked a) (a_senders a)
       (mkReceiverTask false (Some current)) (a_cells a)).
Proof.
  destruct a as [b o ms ps ns r cs]; simpl. intros HR ->.
  by destruct HR as [? ? ? ? ? ? ? ? ?]; split.
Qed.

(** An empty channel: [poll] parks, after consuming a wake-up if there is one. *)
Lemma poll_empty current i fuel :
  q_repr (message_queue i) [] → (2 ≤ fuel)%nat →
  poll fuel current i =
    Return (Ok NotReady, set_recv_task (mkReceiverTask false (Some current)) i, []).
Proof.
  assert (∀ f (j : Inner), (0 < f)%nat → unparked (recv_task j) = false →
    q_repr (message_queue j) [] →
    poll f current j =
      Return (Ok NotReady, set_recv_task (mkReceiverTask false (Some current)) j, [])) as Hpark.
  { intros f j Hf' Hu Hqj. destruct f as [|f]; [lia |]. cbn -[next_message].
    rewrite (prog_bind_Return _ _ _ _ _ _ (next_message_nil _ (S f) Hqj ltac:(lia))).
    unfold try_park. run_prog. by rewrite Hu. }
  intros Hq Hf. destruct (unparked (recv_task i)) eqn:Hu; [| apply Hpark; [lia | done..]].
  destruct fuel as [|fuel]; [lia |]. cbn -[next_message].
  rewrite (prog_bind_Return _ _ _ _ _ _ (next_message_nil _ (S fuel) Hq ltac:(lia))).
  unfold try_park. run_prog. rewrite Hu. simpl. by rewrite Hpark by (done || lia).
Qed.

(** [poll] on a live channel, with the two iterations it may need. *)
Lemma poll_refines current i a :
  R i a → a_open a = true →
  let '(r, a', w) := spec_poll current a in
  ∃ i', R i' a' ∧ ∀ fuel, (2 ≤ fuel)%nat → poll fuel current i = Return (r, i', w).
Proof.
  intros HR Ho. unfold spec_poll. pose proof (R_messages _ _ HR) as Hq.
  destruct (a_messages a) as [|e ms] eqn:Hms.
  - eexists. split; [exact (R_recv_parked current i a HR Hms) |]. intros fuel Hf.
    by apply poll_empty.
  - destruct (next_message_cons _ _ _ Hq) as (q & Hq' & Hn).
    pose proof (R_parked_cells _ _ HR) as Hc. rewrite <- (R_cells _ _ HR) in Hc.
    destruct (unpark_one_spec (a_parked a) (set_message_queue q i))
      as (q2 & Hq2 & Hw); [exact (R_parked _ _ HR) | exact Hc |].
    destruct (R_state _ _ HR) as (n & Hst & Hle & Hn'). specialize (Hn' Ho).
    rewrite Ho, Hms in *. simpl in Hn'. subst n.
    pose proof (R_unpark 1 i a q2 HR Hq2) as HR2.
    pose proof (fun cs => dec_num_messages_spec
      (set_cells cs (set_parked_queue q2 (set_message_queue q i))) (length ms) Hst ltac:(lia)) as Hd.
    unfold a_unpark in *. cbn -[wake_cells] in Hw. rewrite (R_cells _ _ HR) in *.
    destruct (wake_cells (take 1 (a_parked a)) (a_cells a)) as [cs w]; cbn [fst snd] in *.
    exists (set_state (encode_state (mkState true (Z.of_nat (length ms))))
      (set_cells cs (set_parked_queue q2 (set_message_queue q i)))). split.
    + destruct HR2 as [? ? ? ? ? ? ? ? ?]; split; simpl in *; try done.
      rewrite Ho. exists (Z.of_nat (length ms)). split; [done |]. split; [lia | done].
    + intros [|fuel] Hf; [lia |]. cbn -[next_message unpark_one dec_num_messages].
      rewrite (prog_bind_Return _ _ _ _ _ _ (Hn (S fuel) ltac:(lia))).
      cbn -[unpark_one dec_num_messages].
      rewrite (prog_bind_Return _ _ _ _ _ _ (Hw (S fuel) ltac:(lia))). cbn -[dec_num_messages].
      rewrite (prog_bind_Return _ _ _ _ _ _ (Hd cs)). simpl. by rewrite !app_nil_r.
Qed.

Lemma R_cells_parked i a :
  R i a → Forall (fun p => is_Some (sender_tasks i !! p)) (a_parked a).
Proof. intros HR. rewrite (R_cells _ _ HR). apply HR. Qed.

(** [wake_all] empties the parked queue. *)
Lemma wake_all_refines i a :
  R i a →
  let '(a', w) := a_unpark (length (a_parked a)) a in
  ∃ i', R i' a' ∧ ∀ fuel, (length (a_parked a) < fuel)%nat →
    wake_all fuel i = Return ((), i', w).
Proof.
  intros HR.
  destruct (wake_all_spec (a_parked a) i) as (q & Hq & Hw);
    [apply HR | by apply R_cells_parked |].
  assert (q_repr q (skipn (length (a_parked a)) (a_parked a))) as Hq' by by rewrite drop_all.
  pose proof (R_unpark (length (a_parked a)) i a q HR Hq') as HR2.
  unfold a_unpark in *. rewrite firstn_all, (R_cells _ _ HR) in *.
  destruct (wake_cells (a_parked a) (a_cells a)) as [cs w]; simpl in *.
  eexists. by split.
Qed.

Lemma set_capacity_refines cap i a :
  R i a →
  let '(a', w) := spec_set_capacity cap a in
  ∃ i', R i' a' ∧ ∀ fuel, (length (a_parked a) < fuel)%nat →
    set_capacity fuel cap i = Return ((), i', w).
Proof.
  intros HR. unfold spec_set_capacity, set_capacity. run_prog.
  rewrite (R_buffer _ _ HR).
  assert (R (set_buffer cap i)
    (mkAChan cap (a_open a) (a_messages a) (a_parked a) (a_senders a) (a_recv a) (a_cells a)))
    as HR'.
  { by destruct HR as [? ? ? ? ? ? ? ? ?]; split. }
  destruct (_ <? _); [| by eexists].
  pose proof (wake_all_refines _ _ HR') as Hw. simpl in Hw.
  destruct (a_unpark _ _) as [a' w]. destruct Hw as (i' & HRw & Hw). exists i'.
  split; [done |]. intros fuel Hf. by rewrite Hw.
Qed.

Lemma drain_spec es i :
  q_repr (message_queue i) es →
  ∃ q, q_repr q [] ∧ ∀ fuel, (length es < fuel)%nat →
    drain fuel i = Return (es, set_message_queue q i, []).
Proof.
  revert i. induction es as [|e es IH]; intros i Hq.
  - exists (message_queue i). split; [done |]. intros [|fuel] Hl; simpl in Hl; [lia |].
    cbn -[next_message].
    rewrite (prog_bind_Return _ _ _ _ _ _ (next_message_nil _ (S fuel) Hq ltac:(lia))).
    by destruct i.
  - destruct (next_message_cons _ _ _ Hq) as (q & Hq' & Hn).
    destruct (IH (set_message_queue q i) Hq') as (q2 & Hq2 & Hd).
    exists q2. split; [done |]. intros [|fuel] Hl; simpl in Hl; [lia |]. cbn -[next_message].
    rewrite (prog_bind_Return _ _ _ _ _ _ (Hn (S fuel) ltac:(lia))). simpl.
    by rewrite (prog_bind_Return _ _ _ _ _ _ (Hd fuel ltac:(lia))).
Qed.

Lemma recv_drop_refines i a :
  R i a → a_open a = true →
  let '(es, a', w) := spec_recv_drop a in
  ∃ i', R i' a' ∧ ∀ fuel,
    (length (a_parked a) < fuel)%nat → (length (a_messages a) < fuel)%nat →
    recv_drop fuel i = Return (es, i', w).
Proof.
  intros HR Ho. unfold spec_recv_drop, recv_drop.
  destruct (R_state _ _ HR) as (n & Hst & Hle & Hn).
  assert (cas_loop state set_state (fun _ => close_iter) i =
    Return ((), set_state (encode_state (mkState false n)) i, [])) as Hclose.
  { rewrite cas_loop_spec. unfold close_iter.
    rewrite Hst, decode_encode_state by done. by rewrite Ho. }
  assert (R (set_state (encode_state (mkState false n)) i)
    (mkAChan (a_buffer a) false (a_messages a) (a_parked a) (a_senders a) (a_recv a) (a_cells a)))
    as HR'.
  { destruct HR as [? ? ? ? ? ? ? ? ?]; split; simpl; try done. by exists n. }
  pose proof (wake_all_refines _ _ HR') as Hw.
  unfold a_unpark in *; simpl in *.
  destruct (wake_cells _ _) as [cs w]. destruct Hw as (i1 & HR1 & Hw).
  destruct (drain_spec (a_messages a) i1 (R_messages _ _ HR1)) as (q & Hq & Hd).
  exists (set_message_queue q i1). split.
  - destruct HR1 as [? (n1 & ? & ? & _) ? Hpk ? ? ? ? ?]; split; simpl in *; try done.
    + by exists n1.
    + by rewrite drop_all in Hpk.
  - intros fuel Hp Hm.
    rewrite (prog_bind_Return _ _ _ _ _ _ Hclose), (prog_bind_Return _ _ _ _ _ _ (Hw _ Hp)),
      (Hd _ Hm). simpl. by rewrite app_nil_r.
Qed.

Lemma channel_refines buf :
  buf < MAX_BUFFER →
  ∃ i, channel buf = Return (mkSender 1 false, i) ∧
       R i (mkAChan buf true [] [] 1 (mkReceiverTask false None) {[1%positive := idle]}).
Proof.
  intros Hb. unfold channel. destruct (Z.ltb_spec buf MAX_BUFFER); [| lia]. simpl.
  eexists. split; [done |].
  split; simpl; try done; [| apply q_new_repr | apply q_new_repr].
  exists 0. split; [done |]. split; [by split | done].
Qed.
End refinement.
