(* ===== verification/SyncChannelProps.v ===== *)
(** * Guarantees of the thread-safe channel along histories

    [Sys] is a channel whose receiver is alive, with its live senders; an [op]
    is a call of one of the methods of [SyncChannel] and a [history] a sequence
    of calls, each run to its end with enough fuel.  The properties are proved
    on the specification of [SyncChannelSpec] and carried over to the code by
    [sys_refines]. *)

From S2P Require Import Prelude.
From S2P Require Import Queue.
From S2P Require Import Envelope.
From S2P Require Import SyncChannel.
From S2P Require Import SyncChannelSpec.

Section history.
Context {M Tx Rx Task : Type} {Q : Type → Type} `{!MpscQueue Q} {build : Build}.
Abbreviation Env := (Envelope M Tx).
Abbreviation Inner := (@Inner M Tx Task Q).
Abbreviation AChan := (AChan M Tx Task).
Abbreviation idle := (mkSenderTask (Task := Task) None false).

(** The senders alive, each with its [maybe_parked] cell. *)
Abbreviation Live := (gmap task_ptr bool).
Implicit Types (i : Inner) (a : AChan) (l : Live).

Record Sys : Type := mkSys { inner : Inner; live : Live }.

Inductive op : Type :=
| Send (p : task_ptr) (current : Task) (oneshot : Tx * Rx) (m : M)
| TrySend (p : task_ptr) (current : Task) (m : M) (park : bool)
| DoSend (p : task_ptr) (m : M)
| CloneSender (p : task_ptr)
| DropSender (p : task_ptr)
| NewSender
| SetCapacity (cap : Z)
| RecvPoll (current : Task).

Definition the_sender (p : task_ptr) (l : Live) : SyncAddressSender :=
  mkSender p (default false (l !! p)).
Definition put_sender (s : SyncAddressSender) (l : Live) : Live :=
  <[sender_task s := maybe_parked s]> l.
Definition took {A} (e : Env) (r : Result A (SendError M)) : outcome M Tx :=
  match r with Ok _ => mkOutcome [e] [] | Err _ => silent end.

Definition exec_op (fuel : nat) (o : op) (s : Sys) : Exec (outcome M Tx * Sys * list Task) :=
  match o with
  | Send p current oneshot m =>
      '(r, sd, i, w) ← send current oneshot m (the_sender p (live s)) (inner s);
      Return (took (pack m (Some oneshot.1)) r, mkSys i (put_sender sd (live s)), w)
  | TrySend p current m park =>
      '(r, sd, i, w) ← try_send current m park (the_sender p (live s)) (inner s);
      Return (took (pack m None) r, mkSys i (put_sender sd (live s)), w)
  | DoSend p m =>
      '(r, i, w) ← do_send m (inner s);
      Return (took (pack m None) r, mkSys i (live s), w)
  | CloneSender _ =>
      '(sd, i, w) ← sender_clone (inner s);
      Return (silent, mkSys i (put_sender sd (live s)), w)
  | NewSender =>
      '(sd, i, w) ← recv_sender (inner s);
      Return (silent, mkSys i (put_sender sd (live s)), w)
  | DropSender p =>
      '(_, i, w) ← sender_drop (inner s);
      Return (silent, mkSys i (delete p (live s)), w)
  | SetCapacity cap =>
      '(_, i, w) ← set_capacity fuel cap (inner s);
      Return (silent, mkSys i (live s), w)
  | RecvPoll current =>
      '(r, i, w) ← poll fuel current (inner s);
      Return (match r with Ok (Ready (Some e)) => mkOutcome [] [e] | _ => silent end,
              mkSys i (live s), w)
  end.

(** Only a live sender can send, be cloned or be dropped; a capacity is a [usize]. *)
Definition allowed (o : op) (l : Live) : Prop :=
  match o with
  | Send p _ _ _ | TrySend p _ _ _ | DoSend p _ | CloneSender p | DropSender p =>
      is_Some (l !! p)
  | SetCapacity cap => is_usize cap
  | NewSender | RecvPoll _ => True
  end.

Inductive history : Sys → list op → list Env → list Env → Sys → Prop :=
| history_nil s : history s [] [] [] s
| history_snoc s0 s s' os ins outs o r w :
    history s0 os ins outs s →
    allowed o (live s) →
    (fun fuel => exec_op fuel o s) ⇓ (r, s', w) →
    history s0 (os ++ [o]) (ins ++ accepted r) (outs ++ delivered r) s'.

(** A fresh channel and its first sender. *)
Definition opened (buf : Z) (s : Sys) : Prop :=
  ∃ sd i, channel buf = Return (sd, i) ∧ s = mkSys i (put_sender sd ∅).

(** ** The same operations on the specification *)

Definition verdict_outcome (e : Env) (v : verdict) : outcome M Tx :=
  match v with Accepted => mkOutcome [e] [] | _ => silent end.

(** The operations that make a sender; [true]: by [Clone]. *)
Definition makes_sender (o : op) : option bool :=
  match o with CloneSender _ => Some true | NewSender => Some false | _ => None end.

(** [None]: making a sender panics. *)
Definition spec_op (o : op) (a : AChan) (l : Live)
  : option (outcome M Tx * (AChan * Live) * list Task) :=
  match o with
  | Send p current oneshot m =>
      let e := pack m (Some oneshot.1) in
      let '(v, sd, a, w) := spec_try_send current true e (the_sender p l) a in
      Some (verdict_outcome e v, (a, put_sender sd l), w)
  | TrySend p current m park =>
      let e := pack m None in
      let '(v, sd, a, w) := spec_try_send current park e (the_sender p l) a in
      Some (verdict_outcome e v, (a, put_sender sd l), w)
  | DoSend p m =>
      let e := pack m None in
      let '(v, a, w) := spec_do_send e a in
      Some (verdict_outcome e v, (a, l), w)
  | CloneSender _ =>
      if clone_refused true (a_buffer a) (a_senders a) then None
      else let '(sd, a) := spec_clone a in Some (silent, (a, put_sender sd l), [])
  | NewSender =>
      if clone_refused false (a_buffer a) (a_senders a) then None
      else let '(sd, a) := spec_clone a in Some (silent, (a, put_sender sd l), [])
  | DropSender p =>
      let '(a, w) := spec_sender_drop a in Some (silent, (a, delete p l), w)
  | SetCapacity cap =>
      let '(a, w) := spec_set_capacity cap a in Some (silent, (a, l), w)
  | RecvPoll current =>
      let '(r, a, w) := spec_poll current a in
      Some (match r with Ok (Ready (Some e)) => mkOutcome [] [e] | _ => silent end, (a, l), w)
  end.

Lemma took_verdict {A} e m (ok : A) v : took e (verdict_result m ok v) = verdict_outcome e v.
Proof. by destruct v. Qed.

(** ** The invariant of a channel whose receiver is alive *)

Definition parked_cell (a : AChan) (p : task_ptr) : Prop :=
  ∃ st, a_cells a !! p = Some st ∧ is_parked st = true.

Record inv (a : AChan) (l : Live) : Prop := mkInv {
  inv_open : a_open a = true;
  inv_awake : a_messages a ≠ [] → unparked (a_recv a) = true;
  inv_handle : unparked (a_recv a) = true → recv_handle (a_recv a) = None;
  inv_cells : ∀ p, is_Some (l !! p) → is_Some (a_cells a !! p);
  inv_maybe : ∀ p, is_Some (l !! p) → parked_cell a p → l !! p = Some true;
  inv_parked : ∀ p, p ∈ a_parked a ↔ parked_cell a p;
  inv_nodup : NoDup (a_parked a);
  inv_senders : a_senders a = Z.of_nat (size l)
}.

Lemma inv_init buf :
  inv (mkAChan buf true [] [] 1 (mkReceiverTask false None) {[1%positive := idle]})
      {[1%positive := false]}.
Proof.
  split; simpl; try done.
  - intros p [b [<- _]%lookup_singleton_Some]. rewrite lookup_singleton_eq. by eexists.
  - intros p _ (st & Hst & Hp). simpl in Hst.
    by apply lookup_singleton_Some in Hst as [_ <-].
  - intros p. split; [by intros ?%not_elem_of_nil |].
    intros (st & Hst & Hp). simpl in Hst. by apply lookup_singleton_Some in Hst as [_ <-].
  - constructor.
Qed.

(** A sender that is not blocked is not in the parked queue. *)
Lemma not_blocked_not_parked a l p :
  inv a l → is_Some (l !! p) → a_blocked (the_sender p l) a = false → ¬ parked_cell a p.
Proof.
  intros H Hp Hb Hpk. pose proof Hpk as (st & Hst & Hs).
  unfold a_blocked, the_sender in Hb; simpl in Hb.
  by rewrite (inv_maybe _ _ H _ Hp Hpk), Hst in Hb; simpl in Hb; rewrite Hs in Hb.
Qed.

Lemma parked_cell_insert a p st p' :
  parked_cell (a_set_cell p st a) p' ↔
  (p' = p ∧ is_parked st = true) ∨ (p' ≠ p ∧ parked_cell a p').
Proof.
  unfold parked_cell; simpl. destruct (decide (p' = p)) as [->|Hne].
  - rewrite lookup_insert_eq. split; [intros (? & [= <-] & ?); by left | intros [[_ ?]|[? _]]; [by eexists | done]].
  - rewrite lookup_insert_ne by done. split; [by right | intros [[? _]|[_ ?]]; done].
Qed.

Lemma size_insert_old (l : Live) p b : is_Some (l !! p) → size (<[p := b]> l) = size l.
Proof. intros Hp. apply map_size_insert_Some. done. Qed.

(** Updating the live sender [p]. *)
Lemma inv_put a l p b :
  inv a l → is_Some (l !! p) → (parked_cell a p → b = true) →
  inv a (<[p := b]> l).
Proof.
  intros H Hp Hb. split; try apply H.
  - intros p' [->|?]%lookup_insert_is_Some'; by apply H.
  - intros p' Hp' Hpk. destruct (decide (p' = p)) as [->|].
    + rewrite lookup_insert_eq. by rewrite Hb.
    + rewrite lookup_insert_ne in * by done. by apply H.
  - rewrite size_insert_old by done. apply H.
Qed.

Lemma inv_push e a l : inv a l → inv (a_push e a) l.
Proof. intros H. split; try apply H; done. Qed.

Lemma inv_park current p a l :
  inv a l → is_Some (l !! p) → ¬ parked_cell a p →
  inv (a_park current p a) (<[p := true]> l).
Proof.
  intros H Hp Hn.
  assert (∀ p', parked_cell (a_park current p a) p' ↔ p' = p ∨ parked_cell a p') as Hpk.
  { intros p'. transitivity (parked_cell (a_set_cell p (mkSenderTask (Some current) true) a) p');
      [done |]. rewrite parked_cell_insert; simpl. destruct (decide (p' = p)); split.
    - by left.
    - subst; by left.
    - intros [[? _]|[_ ?]]; [done | by right].
    - intros [?|?]; [done | by right]. }
  split; simpl; try apply H.
  - intros p' Hp'. apply lookup_insert_is_Some'. destruct (decide (p' = p)) as [->|]; [by left |].
    right. apply (inv_cells _ _ H). by rewrite lookup_insert_ne in Hp'.
  - intros p' Hp' Hpc. destruct (decide (p' = p)) as [->|]; [apply lookup_insert_eq |].
    rewrite lookup_insert_ne in * by done. apply H; [done |]. by apply Hpk in Hpc as [?|?].
  - intros p'. rewrite elem_of_app, list_elem_of_singleton, (inv_parked _ _ H), Hpk. tauto.
  - apply NoDup_app. split_and!; [apply H | | apply NoDup_singleton].
    intros p' Hp' ->%list_elem_of_singleton. by apply Hn, (inv_parked _ _ H).
  - rewrite size_insert_old by done. apply H.
Qed.

Lemma inv_reblock p a l :
  inv a l → is_Some (l !! p) → parked_cell a p →
  inv (a_set_cell p (mkSenderTask None true) a) l.
Proof.
  intros H Hp Hpk.
  assert (∀ p', parked_cell (a_set_cell p (mkSenderTask None true) a) p' ↔ parked_cell a p') as Hi.
  { intros p'. rewrite parked_cell_insert; simpl. destruct (decide (p' = p)) as [->|]; tauto. }
  split; simpl; try apply H.
  - intros p' Hp'. apply lookup_insert_is_Some'. right. by apply H.
  - intros p' Hp' Hpc%Hi. by apply H.
  - intros p'. by rewrite Hi, (inv_parked _ _ H).
Qed.

(** *** Waking parked senders *)

Lemma wake_cells_lookup ps (cells : gmap task_ptr (SenderTask (Task := Task))) p :
  (wake_cells ps cells).1 !! p = if decide (p ∈ ps) then Some idle else cells !! p.
Proof.
  revert cells. induction ps as [|p' ps IH]; intros cells; simpl.
  - done.
  - specialize (IH (<[p' := idle]> cells)). destruct (wake_cells ps _) as [cs w]; simpl in *.
    rewrite IH. destruct (decide (p ∈ ps)); destruct (decide (p ∈ p' :: ps)) as [Hin|Hin].
    + done.
    + destruct Hin. by right.
    + apply elem_of_cons in Hin as [->|?]; [apply lookup_insert_eq | done].
    + apply lookup_insert_ne. intros ->. destruct Hin. by left.
Qed.

Lemma a_unpark_cells n a p :
  a_cells (a_unpark n a).1 !! p =
  if decide (p ∈ take n (a_parked a)) then Some idle else a_cells a !! p.
Proof.
  unfold a_unpark. pose proof (wake_cells_lookup (take n (a_parked a)) (a_cells a) p) as H.
  by destruct (wake_cells _ _).
Qed.

Lemma a_unpark_parked n a : a_parked (a_unpark n a).1 = skipn n (a_parked a).
Proof. unfold a_unpark. by destruct (wake_cells _ _). Qed.

Lemma a_unpark_rest n a :
  let a' := (a_unpark n a).1 in
  a_buffer a' = a_buffer a ∧ a_open a' = a_open a ∧ a_messages a' = a_messages a ∧
  a_senders a' = a_senders a ∧ a_recv a' = a_recv a.
Proof. unfold a_unpark. by destruct (wake_cells _ _). Qed.

Lemma inv_unpark n a l : inv a l → inv (a_unpark n a).1 l.
Proof.
  intros H. destruct (a_unpark_rest n a) as (_ & Ho & Hm & Hs & Hr).
  assert (NoDup (take n (a_parked a) ++ skipn n (a_parked a))) as Hnd
    by (rewrite take_drop; apply H).
  apply NoDup_app in Hnd as (_ & Hdisj & Hnd).
  assert (∀ p, parked_cell (a_unpark n a).1 p ↔
               (p ∉ take n (a_parked a)) ∧ parked_cell a p) as Hpk.
  { intros p. unfold parked_cell. rewrite a_unpark_cells. destruct (decide _) as [Hin|Hin].
    - split; [by intros (? & [= <-] & [=]) | by intros [? _]].
    - split; [by split | by intros [_ ?]]. }
  split; rewrite ?Ho, ?Hm, ?Hs, ?Hr; try apply H.
  - intros p Hp. rewrite a_unpark_cells. destruct (decide _); [by eexists | by apply H].
  - intros p Hp [_ Hpc]%Hpk. by apply H.
  - intros p. rewrite a_unpark_parked, Hpk, <- (inv_parked _ _ H).
    rewrite <- (take_drop n (a_parked a)) at 3. rewrite elem_of_app.
    split; [| tauto]. intros Hin. split; [| by right]. intros Hin'. by eapply Hdisj.
  - by rewrite a_unpark_parked.
Qed.

Lemma inv_clone a l :
  inv a l → inv (spec_clone a).2 (put_sender (spec_clone a).1 l).
Proof.
  intros H. unfold spec_clone, put_sender; simpl. set (p := fresh (dom (a_cells a))).
  assert (a_cells a !! p = None) as Hp by apply not_elem_of_dom, is_fresh.
  assert (l !! p = None) as Hl.
  { apply eq_None_not_Some. intros ?%(inv_cells _ _ H). by apply eq_None_not_Some in Hp. }
  assert (∀ p', parked_cell (a_set_cell p idle a) p' ↔ parked_cell a p') as Hpk.
  { intros p'. rewrite parked_cell_insert; simpl.
    destruct (decide (p' = p)) as [->|]; [| by split; [intros [[? _]|[_ ?]] | by right]].
    split; [by intros [[_ ?]|[? _]] |]. intros (? & ? & _). congruence. }
  split; simpl; try apply H.
  - intros p' [->|Hp']%lookup_insert_is_Some'; apply lookup_insert_is_Some'; [by left |].
    right. by apply H.
  - intros p' Hp' Hpc%Hpk. destruct (decide (p' = p)) as [->|].
    + destruct Hpc as (? & ? & _). congruence.
    + rewrite lookup_insert_ne in * by done. by apply H.
  - intros p'. rewrite (inv_parked _ _ H). symmetry. apply Hpk.
  - rewrite map_size_insert_None by done. rewrite (inv_senders _ _ H). lia.
Qed.

Lemma inv_drop_sender p a l :
  inv a l → is_Some (l !! p) → inv (spec_sender_drop a).1 (delete p l).
Proof.
  intros H Hp. unfold spec_sender_drop; simpl. split; simpl; try apply H.
  - intros Hm. destruct (_ =? _); [done | by apply H].
  - destruct (_ =? _); [done | apply H].
  - intros p' [? ?]%lookup_delete_is_Some. by apply H.
  - intros p' Hp' Hpc. pose proof Hp' as [? ?]%lookup_delete_is_Some.
    rewrite lookup_delete_ne by done. by apply H.
  - destruct Hp as [b Hb]. rewrite (inv_senders _ _ H).
    rewrite <- (insert_delete_id l p b) at 1 by done.
    rewrite map_size_insert_None by apply lookup_delete_eq. lia.
Qed.

Lemma inv_set_capacity cap a l :
  inv a l →
  inv (spec_set_capacity cap a).1 l ∧ a_messages (spec_set_capacity cap a).1 = a_messages a.
Proof.
  intros H. unfold spec_set_capacity.
  set (a1 := mkAChan cap _ _ _ _ _ _).
  assert (inv a1 l) as H1 by (split; apply H).
  destruct (_ <? _); [| done]. split; [by apply inv_unpark |].
  by destruct (a_unpark_rest (length (a_parked a)) a1) as (_ & _ & -> & _).
Qed.

Lemma inv_poll current a l :
  inv a l → inv (spec_poll current a).1.2 l.
Proof.
  intros H. unfold spec_poll. destruct (a_messages a) as [|e ms] eqn:Hm; simpl.
  - split; simpl; try apply H; done.
  - pose proof (inv_unpark 1 _ _ H) as H1.
    destruct (a_unpark_rest 1 a) as (_ & _ & Hms & _ & _).
    destruct (a_unpark 1 a) as [a1 w]; simpl in *. split; simpl; try apply H1.
    intros _. apply H1. by rewrite Hms, Hm.
Qed.

Lemma inv_try_send current park e p a l :
  inv a l → is_Some (l !! p) →
  let '(v, sd, a', w) := spec_try_send current park e (the_sender p l) a in
  inv a' (put_sender sd l) ∧
  a_messages a' = a_messages a ++ accepted (verdict_outcome e v) ∧
  delivered (verdict_outcome e v) = [].
Proof.
  intros H Hp. unfold spec_try_send, put_sender.
  destruct (a_blocked _ a) eqn:Hb; simpl.
  - rewrite app_nil_r. split; [| done].
    unfold a_blocked, the_sender in Hb; simpl in Hb. apply andb_true_iff in Hb as [Hl Hst].
    assert (parked_cell a p) as Hpk.
    { destruct (a_cells a !! p) as [st|] eqn:Hc; [by exists st | done]. }
    apply inv_put; [by apply inv_reblock | done |]. intros _. done.
  - pose proof (not_blocked_not_parked _ _ _ H Hp Hb) as Hn.
    rewrite (inv_open _ _ H); simpl. destruct (a_full a); [destruct park |]; simpl.
    + rewrite app_nil_r. split; [| done]. by apply inv_park.
    + rewrite app_nil_r. split; [| done]. by apply inv_put.
    + split; [| done]. apply inv_put; [by apply inv_push | done | done].
Qed.

(** Every operation keeps the invariant, and moves envelopes in at the back and
    out at the front only. *)
Lemma spec_op_inv o a l r a' l' w :
  inv a l → allowed o l → spec_op o a l = Some (r, (a', l'), w) →
  inv a' l' ∧ a_messages a ++ accepted r = delivered r ++ a_messages a'.
Proof.
  intros H Ha. destruct o as [p t x m|p t m k|p m|p|p| |cap|t]; simpl in *; intros Ho.
  - pose proof (inv_try_send t true (pack m (Some x.1)) p _ _ H Ha) as Hs.
    destruct (spec_try_send _ _ _ _ _) as [[[v sd] a1] w1]. injection Ho as <- <- <- <-.
    by destruct Hs as (? & -> & ->).
  - pose proof (inv_try_send t k (pack m None) p _ _ H Ha) as Hs.
    destruct (spec_try_send _ _ _ _ _) as [[[v sd] a1] w1]. injection Ho as <- <- <- <-.
    by destruct Hs as (? & -> & ->).
  - unfold spec_do_send in Ho. rewrite (inv_open _ _ H) in Ho. injection Ho as <- <- <- <-.
    split; [by apply inv_push | done].
  - destruct (clone_refused _ _ _); [done |]. injection Ho as <- <- <- <-.
    split; [by apply (inv_clone a l) | apply app_nil_r].
  - injection Ho as <- <- <- <-. split; [by apply (inv_drop_sender p a l) | apply app_nil_r].
  - destruct (clone_refused _ _ _); [done |]. injection Ho as <- <- <- <-.
    split; [by apply (inv_clone a l) | apply app_nil_r].
  - destruct (inv_set_capacity cap _ _ H) as [Hi Hm].
    destruct (spec_set_capacity cap a) as [a1 w1]. injection Ho as <- <- <- <-.
    split; [done |]. simpl in Hm. by rewrite Hm, app_nil_r.
  - pose proof (inv_poll t _ _ H) as Hp.
    destruct (a_unpark_rest 1 a) as (_ & _ & Hm & _ & _).
    unfold spec_poll in *. destruct (a_messages a) as [|e ms].
    + injection Ho as <- <- <- <-. by split.
    + destruct (a_unpark 1 a) as [a1 w1]. injection Ho as <- <- <- <-.
      split; [done |]. by rewrite app_nil_r.
Qed.

(** ** The code does what the specification does *)

Lemma the_sender_owned p a l : inv a l → is_Some (l !! p) → owned (the_sender p l) a.
Proof. intros H Hp. by apply H. Qed.

(** One operation of the code, on a state that represents [a]. *)
Definition refines_op (o : op) (s : Sys) (a : AChan) : Prop :=
  match spec_op o a (live s) with
  | Some (r, (a', l'), w) =>
      ∃ i', (fun fuel => exec_op fuel o s) ⇓ (r, mkSys i' l', w) ∧ R i' a'
  | None => ∃ msg, ∀ fuel, exec_op fuel o s = Panic msg
  end.

Lemma clone_refines_op clone o s a :
  makes_sender o = Some clone →
  R (inner s) a → inv a (live s) → a_senders a < usize_MAX → refines_op o s a.
Proof.
  intros Ho HR H Hn. unfold refines_op.
  pose proof (make_sender_refines clone _ _ HR) as Hc.
  assert (is_usize (a_senders a + 1)) as Hu
    by (rewrite (inv_senders _ _ H) in *; unfold is_usize, usize_MAX in *; lia).
  destruct o; simplify_eq Ho; intros <-; simpl in *;
    (destruct (clone_refused _ _ _);
      [destruct Hc as [msg Hc]; exists msg; intros fuel; by rewrite Hc |]);
    destruct Hc as (i' & Hc & HR'); exists i'; (split; [| by apply HR']);
    exists 0%nat; intros fuel _; by rewrite Hc.
Qed.

Lemma sys_refines o s a :
  R (inner s) a → inv a (live s) → allowed o (live s) →
  countable a → a_senders a < usize_MAX → refines_op o s a.
Proof.
  intros HR H Ha Hc Hn. destruct o as [p t [tx rx] m|p t m k|p m|p|p| |cap|t]; simpl in Ha.
  - unfold refines_op; simpl.
    pose proof (send_refines t tx rx m _ _ _ HR (the_sender_owned _ _ _ H Ha) Hc) as Hs.
    destruct (spec_try_send _ _ _ _ _) as [[[v sd] a'] w]. destruct Hs as (i' & -> & HR').
    exists i'. split; [| done]. apply returns_const; simpl. by rewrite took_verdict.
  - unfold refines_op; simpl.
    pose proof (try_send_refines t m k _ _ _ HR (the_sender_owned _ _ _ H Ha) Hc) as Hs.
    destruct (spec_try_send _ _ _ _ _) as [[[v sd] a'] w]. destruct Hs as (i' & -> & HR').
    exists i'. split; [| done]. apply returns_const; simpl. by rewrite took_verdict.
  - unfold refines_op; simpl.
    pose proof (do_send_refines m _ _ HR Hc) as Hs.
    destruct (spec_do_send _ _) as [[v a'] w]. destruct Hs as (i' & -> & HR').
    exists i'. split; [| done]. apply returns_const; simpl. by rewrite took_verdict.
  - eapply clone_refines_op; eauto; done.
  - unfold refines_op; cbn -[spec_sender_drop].
    assert (0 < a_senders a ≤ usize_MAX) as Hs.
    { split; [| lia]. rewrite (inv_senders _ _ H). destruct Ha as [b Hb].
      rewrite <- (insert_delete_id _ _ _ Hb), map_size_insert_None by apply lookup_delete_eq. lia. }
    pose proof (sender_drop_refines _ _ HR Hs) as Hd.
    destruct (spec_sender_drop a) as [a' w]. destruct Hd as (i' & -> & HR').
    exists i'. split; [| done]. exact (returns_const _ _ eq_refl).
  - eapply clone_refines_op; eauto; done.
  - unfold refines_op; simpl.
    pose proof (set_capacity_refines cap _ _ HR) as Hs.
    destruct (spec_set_capacity cap a) as [a' w]. destruct Hs as (i' & HR' & Hs).
    exists i'. split; [| done]. exists (S (length (a_parked a))). intros fuel Hf.
    by rewrite (Hs fuel Hf).
  - unfold refines_op; simpl.
    pose proof (poll_refines t _ _ HR (inv_open _ _ H)) as Hs.
    destruct (spec_poll t a) as [[r a'] w]. destruct Hs as (i' & HR' & Hs).
    exists i'. split; [| done]. exists 2%nat. intros fuel Hf. by rewrite (Hs fuel Hf).
Qed.

Lemma spec_op_growth o a l r a' l' w :
  inv a l → allowed o l → spec_op o a l = Some (r, (a', l'), w) →
  (length (a_messages a') ≤ S (length (a_messages a)))%nat ∧ a_senders a' ≤ a_senders a + 1.
Proof.
  intros H Ha Ho. destruct (spec_op_inv _ _ _ _ _ _ _ H Ha Ho) as [H' Hm].
  assert ((length (accepted r) ≤ 1)%nat ∧ (size l' ≤ S (size l))%nat) as [Hacc Hl].
  { assert (∀ b p, (size (<[p := b]> l) ≤ S (size l))%nat) as Hins
      by (intros; rewrite map_size_insert; case_match; simpl; lia).
    assert (∀ e v, (length (accepted (verdict_outcome e v)) ≤ 1)%nat) as Hv
      by (intros e []; simpl; lia).
    destruct o; simpl in Ho; repeat case_match; simplify_eq; simpl;
      (split; [by (lia || apply Hv) |]); try lia; try apply Hins.
    all: rewrite map_size_delete; destruct (l !! _); unfold id; lia. }
  apply (f_equal length) in Hm. rewrite !length_app in Hm.
  rewrite (inv_senders _ _ H), (inv_senders _ _ H'). lia.
Qed.

Definition a_init (buf : Z) : AChan :=
  mkAChan buf true [] [] 1 (mkReceiverTask false None) {[1%positive := idle]}.

(** Every state of a history represents a specification state that satisfies
    the invariant, and any further property [P] the specification maintains. *)
Lemma history_sim (P : list op → AChan → Prop) buf s0 os ins outs s :
  buf < MAX_BUFFER → opened buf s0 →
  P [] (a_init buf) →
  (∀ os o a l r a' l' w, inv a l → P os a →
     spec_op o a l = Some (r, (a', l'), w) → P (os ++ [o]) a') →
  history s0 os ins outs s → Z.of_nat (length os) < MAX_CAPACITY →
  ∃ a, R (inner s) a ∧ inv a (live s) ∧ ins = outs ++ a_messages a ∧
       (length (a_messages a) ≤ length os)%nat ∧ a_senders a ≤ 1 + Z.of_nat (length os) ∧
       P os a.
Proof.
  intros Hb (sd & i & Hch & ->) HP0 HPs Hh.
  remember (mkSys i (put_sender sd ∅)) as s0 eqn:Hs0.
  induction Hh as [s|s0 s s' os ins outs o r w Hh IH Ha He]; intros Hl.
  - subst s. destruct (channel_refines (M := M) (Tx := Tx) (Task := Task) (Q := Q) buf Hb)
      as (i' & Hi & HR).
    rewrite Hi in Hch. injection Hch as <- <-. eexists. simpl. split_and!; [exact HR | | done | simpl; lia.. | exact HP0].
    unfold put_sender; simpl. rewrite insert_empty. apply inv_init.
  - rewrite length_app in *; simpl in *.
    destruct (IH Hs0 ltac:(lia)) as (a & HR & H & -> & Hm & Hn & HP).
    pose proof (sys_refines o s a HR H Ha ltac:(unfold countable; lia)
      ltac:(rewrite MAX_CAPACITY_value, Z.ones_equiv in Hl; unfold usize_MAX, usize_modulus; lia))
      as Hr.
    unfold refines_op in Hr.
    destruct (spec_op o a (live s)) as [[[r1 [a1 l1]] w1]|] eqn:Ho.
    + destruct Hr as (i1 & Hi1 & HR1).
      pose proof (returns_det _ _ _ He Hi1) as [= -> -> ->].
      destruct (spec_op_inv _ _ _ _ _ _ _ H Ha Ho) as [H1 Hms].
      destruct (spec_op_growth _ _ _ _ _ _ _ H Ha Ho) as [Hg1 Hg2].
      exists a1. simpl. split_and!; [done | done | | lia.. | exact (HPs _ _ _ _ _ _ _ _ H HP Ho)].
      by rewrite <- !app_assoc, Hms.
    + destruct He as [n He]. specialize (He n ltac:(lia)). destruct Hr as [msg Hr]. by rewrite Hr in He.
Qed.

(** ** Histories by evaluation *)

Lemma wake_all_mono n1 n2 :
  (n1 ≤ n2)%nat → prog_le (wake_all n1 : Prog Inner Task ()) (wake_all n2).
Proof.
  revert n2. induction n1 as [|n1 IH]; intros [|n2] Hn; try lia; simpl; solve_prog_le.
Qed.

Lemma next_message_mono n1 n2 :
  (n1 ≤ n2)%nat → prog_le (next_message n1 : Prog Inner Task _) (next_message n2).
Proof.
  revert n2. induction n1 as [|n1 IH]; intros [|n2] Hn; try lia; simpl; solve_prog_le.
Qed.

Lemma unpark_one_mono n1 n2 :
  (n1 ≤ n2)%nat → prog_le (unpark_one n1 : Prog Inner Task ()) (unpark_one n2).
Proof.
  revert n2. induction n1 as [|n1 IH]; intros [|n2] Hn; try lia; simpl; solve_prog_le.
Qed.

#[local] Hint Resolve wake_all_mono next_message_mono unpark_one_mono : fuel.

Lemma poll_mono n1 n2 t :
  (n1 ≤ n2)%nat → prog_le (poll n1 t : Prog Inner Task _) (poll n2 t).
Proof.
  revert n2. induction n1 as [|n1 IH]; intros [|n2] Hn; try lia;
    cbn -[next_message unpark_one dec_num_messages]; solve_prog_le.
Qed.

Lemma set_capacity_mono n1 n2 cap :
  (n1 ≤ n2)%nat → prog_le (set_capacity n1 cap : Prog Inner Task _) (set_capacity n2 cap).
Proof. intros Hn. unfold set_capacity. solve_prog_le. Qed.

Lemma exec_op_mono n1 n2 o s : (n1 ≤ n2)%nat → exec_op n1 o s ⊑ₑ exec_op n2 o s.
Proof.
  intros Hn. destruct o; simpl; try (by right); apply exec_le_bind;
    try (by (apply set_capacity_mono || apply poll_mono)).
  all: intros [[??]?]; by right.
Qed.

#[export] Instance allowed_dec o l : Decision (allowed o l).
Proof. destruct o; simpl; unfold is_usize; apply _. Defined.

Fixpoint exec_ops (fuel : nat) (os : list op) (s : Sys) : option (list Env * list Env * Sys) :=
  match os with
  | [] => Some ([], [], s)
  | o :: os =>
      if decide (allowed o (live s)) then
        match exec_op fuel o s with
        | Return (r, s', _) =>
            '(ins, outs, s'') ← exec_ops fuel os s';
            Some (accepted r ++ ins, delivered r ++ outs, s'')
        | _ => None
        end
      else None
  end.

Lemma exec_ops_extend fuel os s0 os0 ins0 outs0 s ins outs s' :
  history s0 os0 ins0 outs0 s →
  exec_ops fuel os s = Some (ins, outs, s') →
  history s0 (os0 ++ os) (ins0 ++ ins) (outs0 ++ outs) s'.
Proof.
  revert os0 ins0 outs0 s ins outs. induction os as [|o os IH]; simpl;
    intros os0 ins0 outs0 s ins outs Hh He.
  - simplify_eq. by rewrite !app_nil_r.
  - case_decide; [| done].
    destruct (exec_op fuel o s) as [[[r s1] w]| | |] eqn:Ho; [| done..].
    apply bind_Some in He as ([[ins' outs'] c2] & He & [= <- <- <-]).
    rewrite (cons_middle o), !app_assoc.
    eapply IH; [| done]. eapply history_snoc; [done.. |].
    by apply (returns_mono _ _ fuel (fun n1 n2 => exec_op_mono n1 n2 o s)).
Qed.

(** ** The properties *)

(** The envelopes in the message queue, the senders in the parked queue. *)
Definition queued (i : Inner) (ms : list Env) : Prop := q_repr (message_queue i) ms.
Definition waiting (i : Inner) (ps : list task_ptr) : Prop := q_repr (parked_queue i) ps.

(** States reached from a fresh channel of buffer [buf] by fewer operations
    than the state word can count. *)
Definition reached (buf : Z) (os : list op) (ins outs : list Env) (s : Sys) : Prop :=
  buf < MAX_BUFFER ∧ Z.of_nat (length os) < MAX_CAPACITY ∧
  ∃ s0, opened buf s0 ∧ history s0 os ins outs s.

Lemma exec_ops_reached fuel buf s0 os ins outs s :
  buf < MAX_BUFFER → Z.of_nat (length os) < MAX_CAPACITY → opened buf s0 →
  exec_ops fuel os s0 = Some (ins, outs, s) → reached buf os ins outs s.
Proof.
  intros Hb Hl Ho He. split_and!; [done | done |]. exists s0. split; [done |].
  by apply (exec_ops_extend fuel os s0 [] [] [] s0); [apply history_nil |].
Qed.

Lemma reached_sim buf os ins outs s :
  reached buf os ins outs s →
  ∃ a, R (inner s) a ∧ inv a (live s) ∧ ins = outs ++ a_messages a ∧
       countable a ∧ a_senders a < usize_MAX.
Proof.
  intros (Hb & Hl & s0 & Ho & Hh).
  destruct (history_sim (fun _ _ => True) _ _ _ _ _ _ Hb Ho I ltac:(auto) Hh Hl)
    as (a & HR & H & Hio & Hm & Hs & _).
  exists a. split_and!; [done.. | |].
  - unfold countable. lia.
  - rewrite MAX_CAPACITY_value, Z.ones_equiv in Hl. unfold usize_MAX, usize_modulus. lia.
Qed.

(** C9: refinement.  Every state a channel can reach represents a
    specification state, and every operation allowed in it returns, given
    enough fuel, the outcome of the specification in a state that represents
    the specification's next state; the only panics are those of [Clone] and of
    [SyncAddressReceiver::sender] when [clone_refused]: at the maximum number of
    senders, in a debug build also when the capacity exceeds the maximum, and, for
    [Clone], beyond it.  In particular no counter wraps and no loop diverges. *)
Theorem sync_refines buf os ins outs s :
  reached buf os ins outs s →
  ∃ a, R (inner s) a ∧ inv a (live s) ∧
    ∀ o, allowed o (live s) →
      match spec_op o a (live s) with
      | Some (r, (a', l'), w) =>
          ∃ i', (fun fuel => exec_op fuel o s) ⇓ (r, mkSys i' l', w) ∧ R i' a' ∧ inv a' l'
      | None =>
          (∃ clone, makes_sender o = Some clone ∧
             clone_refused clone (buffer (inner s)) (num_senders (inner s)) = true) ∧
          ∃ msg, ∀ fuel, exec_op fuel o s = Panic msg
      end.
Proof.
  intros (a & HR & H & _ & Hc & Hs)%reached_sim. exists a. split_and!; [done | done |].
  intros o Ha. pose proof (sys_refines o s a HR H Ha Hc Hs) as Hr. unfold refines_op in Hr.
  destruct (spec_op o a (live s)) as [[[r [a' l']] w]|] eqn:Ho.
  - destruct Hr as (i' & ? & ?). exists i'. split_and!; [done | done |].
    by destruct (spec_op_inv _ _ _ _ _ _ _ H Ha Ho).
  - rewrite (R_senders _ _ HR), (R_buffer _ _ HR).
    destruct o; simpl in Ho; repeat case_match; simplify_eq; split_and!; eauto.
Qed.

(** the envelopes accepted by all senders are the envelopes delivered to
    the receiver followed by those still queued, in the order they were
    accepted; and the packed state word counts exactly the queued ones. *)
Theorem sync_fifo buf os ins outs s :
  reached buf os ins outs s →
  ∃ ms, queued (inner s) ms ∧ ins = outs ++ ms ∧
        decode_state (state (inner s)) = mkState true (Z.of_nat (length ms)).
Proof.
  intros (a & HR & H & Hio & _)%reached_sim. exists (a_messages a).
  split_and!; [apply HR | done |]. by apply (R_decode _ _ HR), H.
Qed.

Lemma reached_step buf os ins outs s o r s' w :
  reached buf os ins outs s → allowed o (live s) →
  (fun fuel => exec_op fuel o s) ⇓ (r, s', w) →
  ∃ a a', R (inner s) a ∧ inv a (live s) ∧
    spec_op o a (live s) = Some (r, (a', live s'), w) ∧ R (inner s') a' ∧ inv a' (live s').
Proof.
  intros (a & HR & H & _ & Hc & Hs)%reached_sim Ha He.
  pose proof (sys_refines o s a HR H Ha Hc Hs) as Hr. unfold refines_op in Hr.
  destruct (spec_op o a (live s)) as [[[r1 [a1 l1]] w1]|] eqn:Ho.
  - destruct Hr as (i1 & Hi1 & HR1). pose proof (returns_det _ _ _ He Hi1) as [= -> -> ->].
    exists a, a1. split_and!; [done.. |]. by destruct (spec_op_inv _ _ _ _ _ _ _ H Ha Ho).
  - destruct He as [n He]. specialize (He n ltac:(lia)). destruct Hr as [msg Hr]. by rewrite Hr in He.
Qed.

Lemma spec_op_wakes o a l r a' l' w t :
  inv a l → spec_op o a l = Some (r, (a', l'), w) →
  recv_handle (a_recv a) = Some t →
  accepted r ≠ [] ∨ (0 < a_senders a ∧ a_senders a' = 0) → w = [t].
Proof.
  intros H Ho Ht Hor.
  assert (∀ n b, a_senders (a_unpark n b).1 = a_senders b) as Hu
    by (intros n b; by destruct (a_unpark_rest n b) as (_ & _ & _ & -> & _)).
  destruct o as [p c x m|p c m k|p m|p|p| |cap|c]; simpl in Ho;
    unfold spec_try_send, spec_do_send, spec_sender_drop, spec_set_capacity, spec_poll in Ho;
    rewrite ?(inv_open _ _ H), ?Ht in Ho; simpl in Ho;
    repeat case_match; simplify_eq/=; try done;
    destruct Hor as [?|[??]]; try done; try lia.
  - match goal with He : a_unpark ?n ?b = _ |- _ => pose proof (Hu n b) as Hs; rewrite He in Hs end.
    simpl in Hs. lia.
  - match goal with He : a_unpark ?n ?b = _ |- _ => pose proof (Hu n b) as Hs; rewrite He in Hs end.
    simpl in Hs. lia.
Qed.

(** no wake-up of the receiver is lost.  A task is registered in the
    receiver's slot only while the message queue is empty, and whichever
    operation puts a message in or drops the last sender notifies exactly that
    task. *)
Theorem sync_receiver_woken buf os ins outs s t :
  reached buf os ins outs s →
  recv_handle (recv_task (inner s)) = Some t →
  queued (inner s) [] ∧
  ∀ o r s' w, allowed o (live s) → (fun fuel => exec_op fuel o s) ⇓ (r, s', w) →
    accepted r ≠ [] ∨ (live s ≠ ∅ ∧ live s' = ∅) → w = [t].
Proof.
  intros Hre Ht. split.
  - destruct (reached_sim _ _ _ _ _ Hre) as (a & HR & H & _). unfold queued.
    rewrite (R_recv _ _ HR) in Ht. destruct (a_messages a) as [|e ms] eqn:Hm.
    + rewrite <- Hm. apply HR.
    + pose proof (inv_handle _ _ H (inv_awake _ _ H ltac:(by rewrite Hm))). congruence.
  - intros o r s' w Ha He Hor.
    destruct (reached_step _ _ _ _ _ _ _ _ _ Hre Ha He) as (a & a' & HR & H & Ho & _ & H').
    rewrite (R_recv _ _ HR) in Ht. eapply spec_op_wakes; [exact H | exact Ho | exact Ht |].
    destruct Hor as [?|[Hl Hl']]; [by left | right].
    rewrite (inv_senders _ _ H), (inv_senders _ _ H'), Hl', map_size_empty.
    split; [| done]. apply map_size_non_empty_iff in Hl. lia.
Qed.

(** Operations that respect the capacity they were started with. *)
Definition bounded_op (o : op) : Prop :=
  match o with DoSend _ _ | SetCapacity _ => False | _ => True end.

Lemma spec_op_bounded o a l r a' l' w n :
  inv a l → bounded_op o → spec_op o a l = Some (r, (a', l'), w) →
  0 < n → a_buffer a = n → Z.of_nat (length (a_messages a)) ≤ n →
  a_buffer a' = n ∧ Z.of_nat (length (a_messages a')) ≤ n.
Proof.
  intros H Hb Ho Hn Hbuf Hl.
  assert (∀ e, a_full a = false →
    Z.of_nat (length (a_messages a ++ [e])) ≤ n) as Hpush.
  { intros e. unfold a_full. rewrite Hbuf, length_app, andb_false_iff, negb_false_iff,
      Z.eqb_eq, Z.leb_gt. simpl. lia. }
  destruct (a_unpark_rest 1 a) as (Hub & _ & Hum & _).
  destruct o as [p c x m|p c m k|p m|p|p| |cap|c]; simpl in Hb, Ho; try done;
    unfold spec_try_send, spec_sender_drop, spec_poll in Ho;
    rewrite ?(inv_open _ _ H) in Ho; simpl in Ho; repeat case_match; simplify_eq/=; auto.
  split; [by rewrite Hub | lia].
Qed.

(** back pressure.  As long as nobody uses [do_send] or changes the
    capacity, a channel of buffer [buf > 0] never holds more than [buf]
    messages, however many senders it has. *)
Theorem sync_capacity_bound buf os ins outs s ms :
  0 < buf → reached buf os ins outs s → Forall bounded_op os →
  queued (inner s) ms → Z.of_nat (length ms) ≤ buf.
Proof.
  intros Hbuf (Hb & Hl & s0 & Hop & Hh) Hos Hms.
  destruct (history_sim (fun os a => Forall bounded_op os →
    a_buffer a = buf ∧ Z.of_nat (length (a_messages a)) ≤ buf) _ _ os ins outs s Hb Hop) as
    (a & HR & _ & _ & _ & _ & Hle); [| | exact Hh | done |].
  - simpl. intros _. split; [done | lia].
  - intros os' o a l r a' l' w H HP Hsp [Hos' Ho]%Forall_app.
    rewrite Forall_singleton in Ho.
    destruct (HP Hos') as [Hab Hal]. exact (spec_op_bounded _ _ _ _ _ _ _ _ H Ho Hsp Hbuf Hab Hal).
  - rewrite (q_repr_unique _ _ _ Hms (R_messages _ _ HR)). by apply Hle.
Qed.

(** Polling hands out the oldest message and unparks the oldest parked sender. *)
Lemma spec_poll_cons t a l e ms :
  a_messages a = e :: ms →
  spec_op (RecvPoll t) a l =
  Some (mkOutcome [] [e],
        (mkAChan (a_buffer a) (a_open a) ms (skipn 1 (a_parked a)) (a_senders a) (a_recv a)
           (a_cells (a_unpark 1 a).1), l), (a_unpark 1 a).2).
Proof.
  intros Hm. simpl. unfold spec_poll. rewrite Hm. unfold a_unpark.
  by destruct (wake_cells _ _).
Qed.

Lemma a_unpark_1_wakes p ps a :
  a_parked a = p :: ps →
  (a_unpark 1 a).2 = match a_cells a !! p with Some st => option_list (task st) | None => [] end.
Proof. unfold a_unpark. intros ->. simpl. by rewrite app_nil_r. Qed.

(** parked senders are released in the order they parked, one per message
    taken: [poll] with a message and a parked sender [p] at the front delivers
    the oldest message, removes [p] from the parked queue, notifies the task [p]
    registered, and leaves [p] free to send again; nobody else's cell changes. *)
Theorem sync_poll_releases_sender buf os ins outs s t e ms p ps :
  reached buf os ins outs s →
  queued (inner s) (e :: ms) → waiting (inner s) (p :: ps) →
  ∃ s' st, sender_tasks (inner s) !! p = Some st ∧
    (fun fuel => exec_op fuel (RecvPoll t) s) ⇓
      (mkOutcome [] [e], s', option_list (task st)) ∧
    queued (inner s') ms ∧ waiting (inner s') ps ∧
    sender_tasks (inner s') = <[p := mkSenderTask None false]> (sender_tasks (inner s)).
Proof.
  intros (a & HR & H & _ & Hc & Hs)%reached_sim Hms Hps.
  apply (q_repr_unique _ _ _ (R_messages _ _ HR)) in Hms.
  apply (q_repr_unique _ _ _ (R_parked _ _ HR)) in Hps.
  assert (p ∈ a_parked a) as (st & Hst & _)%(inv_parked _ _ H) by (rewrite Hps; left).
  pose proof (sys_refines (RecvPoll t) s a HR H I Hc Hs) as Hr. unfold refines_op in Hr.
  rewrite (spec_poll_cons _ _ _ _ _ Hms), (a_unpark_1_wakes _ _ _ Hps), Hst in Hr.
  destruct Hr as (i' & Hi & HR'). exists (mkSys i' (live s)), st.
  rewrite (R_cells _ _ HR). split_and!; [done | done | apply HR' | |].
  - unfold waiting. rewrite Hps in HR'. apply HR'.
  - simpl. rewrite (R_cells _ _ HR'). simpl. unfold a_unpark. by rewrite Hps.
Qed.

(** a parked sender that tries again is refused with its message, and the
    attempt erases the task it had registered: when its turn comes it is
    unparked, but nobody is notified. *)
Theorem sync_retry_forgets_task buf os ins outs s t x m p st :
  reached buf os ins outs s →
  is_Some (live s !! p) →
  sender_tasks (inner s) !! p = Some st → is_parked st = true →
  ∃ i', (fun fuel => exec_op fuel (Send p t x m) s) ⇓ (silent, mkSys i' (live s), []) ∧
    fst <$> send t x m (the_sender p (live s)) (inner s) =
      Return (Err (Full m), the_sender p (live s), i') ∧
    sender_tasks i' !! p = Some (mkSenderTask None true) ∧
    ∀ ms qs t' e, queued i' (e :: ms) → waiting i' (p :: qs) →
      ∃ s', (fun fuel => exec_op fuel (RecvPoll t') (mkSys i' (live s))) ⇓
              (mkOutcome [] [e], s', []).
Proof.
  intros (a & HR & H & _ & Hc & Hs)%reached_sim Hp Hst Hpk.
  rewrite (R_cells _ _ HR) in Hst.
  assert (parked_cell a p) as Hpc by by exists st.
  pose proof (inv_maybe _ _ H _ Hp Hpc) as Hl.
  assert (put_sender (the_sender p (live s)) (live s) = live s) as Hput.
  { unfold put_sender, the_sender; simpl. rewrite Hl. by apply insert_id. }
  destruct x as [tx rx].
  pose proof (send_refines t tx rx m _ _ _ HR (the_sender_owned _ _ _ H Hp) Hc) as Hr.
  assert (a_blocked (the_sender p (live s)) a = true) as Hb.
  { unfold a_blocked, the_sender; simpl. by rewrite Hl, Hst. }
  unfold spec_try_send in Hr. rewrite Hb in Hr. destruct Hr as (i' & Hi & HR').
  exists i'. split; [| split; [by rewrite Hi | split]].
  - exists 0%nat. intros fuel _. simpl. rewrite Hi. simpl. by rewrite Hput.
  - rewrite (R_cells _ _ HR'). apply lookup_insert_eq.
  - intros ms qs t' e Hms Hqs.
    apply (q_repr_unique _ _ _ (R_messages _ _ HR')) in Hms.
    apply (q_repr_unique _ _ _ (R_parked _ _ HR')) in Hqs.
    pose proof (sys_refines (RecvPoll t') (mkSys i' (live s)) _ HR' (inv_reblock _ _ _ H Hp Hpc)
      I Hc Hs) as Hr. unfold refines_op in Hr.
    rewrite (spec_poll_cons _ _ _ _ _ Hms), (a_unpark_1_wakes _ _ _ Hqs) in Hr.
    cbn [a_cells a_set_cell the_sender sender_task] in Hr. rewrite lookup_insert_eq in Hr.
    destruct Hr as (i2 & Hi2 & _). by exists (mkSys i2 (live s)).
Qed.

Lemma a_unpark_all_cells a l p st :
  inv a l → a_cells (a_unpark (length (a_parked a)) a).1 !! p = Some st → is_parked st = false.
Proof.
  intros H. rewrite a_unpark_cells, firstn_all. destruct (decide _) as [|Hn]; [by intros [= <-] |].
  intros Hst. apply not_true_iff_false. intros Hpk. apply Hn, (inv_parked _ _ H). by exists st.
Qed.

(** A closed channel refuses every sender that is not marked as parked. *)
Lemma closed_refuses i a (s : SyncAddressSender) :
  R i a → a_open a = false → countable a → a_blocked s a = false → owned s a →
  (∀ m, ∃ i', do_send m i = Return (Err (Closed m), i', [])) ∧
  (∀ t m k, ∃ s' i', try_send t m k s i = Return ((Err (Closed m), s'), i', [])) ∧
  (∀ t (x : Tx * Rx) m, ∃ s' i', send t x m s i = Return ((Err (Closed m), s'), i', [])).
Proof.
  intros HR Ho Hc Hb Hs. split_and!.
  - intros m. pose proof (do_send_refines m _ _ HR Hc) as Hr. unfold spec_do_send in Hr.
    rewrite Ho in Hr. destruct Hr as (i' & Hr & _). by exists i'.
  - intros t m k. pose proof (try_send_refines t m k _ _ _ HR Hs Hc) as Hr.
    unfold spec_try_send in Hr. rewrite Hb, Ho in Hr. destruct Hr as (i' & Hr & _). by eexists _, i'.
  - intros t [tx rx] m. pose proof (send_refines t tx rx m _ _ _ HR Hs Hc) as Hr.
    unfold spec_try_send in Hr. rewrite Hb, Ho in Hr. destruct Hr as (i' & Hr & _). by eexists _, i'.
Qed.

(** dropping the receiver terminates, gives up exactly the queued
    envelopes and leaves no sender parked; afterwards the channel is seen as
    disconnected and every way of sending, by any live sender, hands the
    message back with [Closed]. *)
Theorem sync_closed_after_drop buf os ins outs s :
  reached buf os ins outs s →
  ∃ ms i' w, queued (inner s) ms ∧
    (fun fuel => recv_drop fuel (inner s)) ⇓ (ms, i', w) ∧
    waiting i' [] ∧ sender_connected i' = Return (false, i', []) ∧
    ∀ p, is_Some (live s !! p) →
      (∀ m, ∃ i2, do_send m i' = Return (Err (Closed m), i2, [])) ∧
      (∀ t m k, ∃ sd i2, try_send t m k (the_sender p (live s)) i' =
                           Return ((Err (Closed m), sd), i2, [])) ∧
      (∀ t (x : Tx * Rx) m, ∃ sd i2, send t x m (the_sender p (live s)) i' =
                           Return ((Err (Closed m), sd), i2, [])).
Proof.
  intros (a & HR & H & _ & Hc & _)%reached_sim.
  pose proof (recv_drop_refines _ _ HR (inv_open _ _ H)) as Hd. unfold spec_recv_drop in Hd.
  pose proof (fun p st => a_unpark_all_cells a (live s) p st H) as Hcells.
  pose proof (a_unpark_cells (length (a_parked a)) a) as Hlk.
  destruct (a_unpark (length (a_parked a)) a) as [a' w]. simpl in *.
  destruct Hd as (i' & HR' & Hd). exists (a_messages a), i', w.
  destruct (R_decode _ _ HR') as [Ho _]. cbn [a_open] in Ho.
  split_and!; [apply HR | | apply HR' | |].
  - exists (S (length (a_parked a) + length (a_messages a))). intros fuel Hf. apply Hd; lia.
  - unfold sender_connected, gets. by rewrite Ho.
  - intros p Hp. apply (closed_refuses _ _ _ HR'); [done | done | |].
    + unfold a_blocked; simpl. destruct (a_cells a' !! p) as [st|] eqn:Hst; [| by apply andb_false_r].
      rewrite (Hcells _ _ Hst). apply andb_false_r.
    + unfold owned; simpl. rewrite Hlk. destruct (decide _); [by eexists | by apply H].
Qed.
End history.

(** ** Witnesses *)

(** A channel of buffer 1 with two senders: the first fills it, the second
    finds it full and parks. *)
Section witnesses.
#[local] Instance demo_build : Build := true.
Abbreviation WOp := (@op Z nat nat nat).
Abbreviation WSys := (@Sys Z nat nat Queue).

Definition demo_init : WSys :=
  match channel 1 with
  | Return (sd, i) => mkSys i (put_sender sd ∅)
  | _ => mkSys (mkInner 0 0 new new 0 (mkReceiverTask false None) ∅) ∅
  end.

Definition demo_run (os : list WOp) : WSys :=
  match exec_ops 5 os demo_init with Some (_, _, s) => s | None => demo_init end.

(** The receiver parks; a second sender is made; the first fills the buffer;
    the second is refused and parks. *)
Definition demo_ops1 : list WOp := [RecvPoll 9%nat; NewSender].
Definition demo_ops2 : list WOp :=
  demo_ops1 ++ [Send 1 4%nat (0, 0)%nat 10; Send 2 5%nat (1, 1)%nat 11].

Lemma demo_opened : opened 1 demo_init.
Proof. eexists _, _. split; vm_compute; reflexivity. Qed.

Lemma demo_reached1 : reached 1 demo_ops1 [] [] (demo_run demo_ops1).
Proof.
  apply (exec_ops_reached 5 1 demo_init); [reflexivity | reflexivity | apply demo_opened |].
  vm_compute. reflexivity.
Qed.

Lemma demo_reached2 : reached 1 demo_ops2 [pack 10 (Some 0%nat)] [] (demo_run demo_ops2).
Proof.
  apply (exec_ops_reached 5 1 demo_init); [reflexivity | reflexivity | apply demo_opened |].
  vm_compute. reflexivity.
Qed.

(** Two nodes of the linked queue holding one value. *)
Lemma one_message : queued (inner (demo_run demo_ops2)) [pack 10 (Some 0%nat)].
Proof.
  destruct (reached_sim _ _ _ _ _ demo_reached2) as (a & HR & _ & Hio & _).
  simpl in Hio. rewrite Hio. apply HR.
Qed.

(** The parked queue, as the first push on a new queue leaves it. *)
Lemma one_parked : waiting (inner (demo_run demo_ops2)) [2%positive].
Proof.
  destruct (q_push_repr (Q := Queue) q_new [] 2%positive q_new_repr) as (q & Hq & Hr).
  vm_compute in Hq. injection Hq as <-. exact Hr.
Qed.

Lemma sync_refines_witness :
  ∃ a, R (inner (demo_run demo_ops2)) a ∧ inv a (live (demo_run demo_ops2)) ∧
    ∃ r a' l' w, spec_op (RecvPoll 9%nat : WOp) a (live (demo_run demo_ops2)) = Some (r, (a', l'), w) ∧
      ∃ i', (fun fuel => exec_op fuel (RecvPoll 9%nat : WOp) (demo_run demo_ops2)) ⇓
              (r, mkSys i' l', w) ∧ R i' a' ∧ inv a' l'.
Proof.
  destruct (sync_refines _ _ _ _ _ demo_reached2) as (a & HR & H & Hops).
  exists a. split; [exact HR |]. split; [exact H |].
  specialize (Hops (RecvPoll 9%nat) I). cbn [spec_op] in Hops |- *.
  destruct (spec_poll 9%nat a) as [[r a'] w]. eexists _, _, _, _. split; [reflexivity | exact Hops].
Defined.

Lemma sync_fifo_witness :
  ∃ ms, queued (inner (demo_run demo_ops2)) ms ∧ [pack 10 (Some 0%nat)] = [] ++ ms ∧
        decode_state (state (inner (demo_run demo_ops2))) = mkState true (Z.of_nat (length ms)).
Proof. exact (sync_fifo _ _ _ _ _ demo_reached2). Defined.

Definition demo_woken : outcome Z nat * WSys * list nat :=
  match exec_op 3 (DoSend 1 12 : WOp) (demo_run demo_ops1) with
  | Return r => r
  | _ => (silent, demo_init, [])
  end.

Lemma sync_receiver_woken_witness : demo_woken.2 = [9%nat].
Proof.
  apply (proj2 (sync_receiver_woken _ _ _ _ _ 9%nat demo_reached1 eq_refl)
           (DoSend 1 12) demo_woken.1.1 demo_woken.1.2).
  - vm_compute. eauto.
  - exists 0%nat. intros fuel _. vm_compute. reflexivity.
  - left. vm_compute. discriminate.
Defined.

Lemma sync_capacity_bound_witness : Z.of_nat (length [pack (Tx := nat) 10 (Some 0%nat)]) ≤ 1.
Proof.
  apply (sync_capacity_bound 1 _ _ _ _ _ ltac:(lia) demo_reached2); [| apply one_message].
  repeat constructor.
Defined.

Lemma sync_poll_releases_sender_witness :
  ∃ s', (fun fuel => exec_op fuel (RecvPoll 9%nat : WOp) (demo_run demo_ops2)) ⇓
          (mkOutcome [] [pack 10 (Some 0%nat)], s', [5%nat]) ∧ waiting (inner s') [].
Proof.
  destruct (sync_poll_releases_sender _ _ _ _ _ 9%nat _ _ _ _ demo_reached2 one_message one_parked)
    as (s' & st & Hst & Hp & _ & Hw & _).
  vm_compute in Hst. injection Hst as <-. exists s'. split; [exact Hp | exact Hw].
Defined.

Lemma sync_retry_forgets_task_witness :
  ∃ i', (fun fuel => exec_op fuel (Send 2 7%nat (1, 1)%nat 11 : WOp) (demo_run demo_ops2)) ⇓
          (silent, mkSys i' (live (demo_run demo_ops2)), []) ∧
        sender_tasks i' !! 2%positive = Some (mkSenderTask None true).
Proof.
  destruct (sync_retry_forgets_task _ _ _ _ _ 7%nat (1, 1)%nat 11 2%positive
    (mkSenderTask (Some 5%nat) true) demo_reached2) as (i' & Hi & _ & Hc & _);
    [vm_compute; eauto | vm_compute; reflexivity | reflexivity |].
  exists i'. split; [exact Hi | exact Hc].
Defined.

Lemma sync_closed_after_drop_witness :
  ∃ ms i' w, (fun fuel => recv_drop fuel (inner (demo_run demo_ops2))) ⇓ (ms, i', w) ∧
    ∃ i2, do_send 13 i' = Return (Err (Closed 13), i2, []).
Proof.
  destruct (sync_closed_after_drop _ _ _ _ _ demo_reached2)
    as (ms & i' & w & _ & Hd & _ & _ & Hs).
  exists ms, i', w. split; [exact Hd |].
  destruct (Hs 1%positive ltac:(vm_compute; eauto)) as [Hdo _]. exact (Hdo 13).
Defined.
End witnesses.
