(* ===== verification/SyncChannelConc.v ===== *)
(** * The thread-safe channel under concurrency: [src/address/sync_channel.rs]

    Sender threads and one receiver interleave at the granularity of the
    source's atomic actions: a load, a compare-exchange, a push or pop of a
    queue, a critical section of a mutex.  The compare-exchange loops are those
    of [SyncChannel] ([inc_num_messages_iter] and the others), run here against
    interference: an iteration decides on the value it loaded and succeeds only
    if the cell has not changed since.  The queues are atomic FIFOs, which is
    what [Queue.queue_refines_fifo] allows; a [pop] that answers [Inconsistent]
    is a retry and changes nothing.  Senders are cloned and dropped; the
    receiver polls, makes senders, changes the capacity and is dropped. *)

From S2P Require Import Prelude.
From S2P Require Import SyncChannel.

(** The ways to send: [send] and [try_send] that parks, [try_send] that does not,
    and [do_send]. *)
Inductive kind : Type := KSend | KTry | KDo.

Section conc.
Context {M Task : Type} {build : Build}.

(** Where a sender stands. *)
Inductive spc : Type :=
| SIdle
| SLoaded (k : kind) (curr : Z) (m : M)      (** the word was loaded, to load the buffer size *)
| SCas (k : kind) (curr next : Z) (m : M)    (** to exchange the word *)
| SPush (m : M)                              (** counted, to push its envelope *)
| SSignal                                    (** pushed, to signal the receiver *)
| SPark (current : Task)                     (** refused, to fill its cell *)
| SParkPush                                  (** to push its cell *)
| SParkCheck                                 (** to check that the channel is open *)
| SClone (curr : Z)                          (** the number of senders was loaded *)
| SCloneAssert (curr : Z)                    (** it is not the maximum *)
| SCloneCas (curr next : Z)
| SLast                                      (** dropped as the last one, to signal *)
| SGone.                                     (** dropped *)

(** Where the receiver stands: [RIdle] after [Ready], [RAsleep] after [NotReady].
    [asleep] is what it returns to from a call that does not poll. *)
Inductive rpc : Type :=
| RIdle
| RAsleep
| RPop
| RTryPark
| RUnpark (m : M)
| RDec (curr : Z) (m : M)
| RSender (asleep : bool) (curr : Z)
| RSenderCas (asleep : bool) (curr next : Z)
| RWake (asleep : bool)                      (** the loop of [set_capacity] *)
| RClose (curr : Z)                          (** the loops of [Drop] *)
| RCloseWake
| RDrain
| RDead.

Record Thread : Type := mkThread {
  pc : spc;
  maybe : bool;
  cell : SenderTask (Task := Task)
}.

Record Config : Type := mkConfig {
  word : Z;
  cap : Z;
  senders : Z;
  msgs : list M;
  parked : list nat;
  recv : ReceiverTask (Task := Task);
  threads : list Thread;
  receiver : rpc;
  notified : bool;        (** the receiver's task was notified since it went to sleep *)
  alone : bool;           (** there was no sender when it went to sleep *)
  woken : list Task;      (** the tasks of senders notified so far *)
  taken : list M;         (** the messages the receiver returned so far *)
  lost : list M           (** the messages it dropped when it was dropped itself *)
}.

(** ** Updates *)

Definition set_threads ts (c : Config) : Config :=
  mkConfig (word c) (cap c) (senders c) (msgs c) (parked c) (recv c) ts (receiver c)
    (notified c) (alone c) (woken c) (taken c) (lost c).
Definition set_thread (i : nat) (t : Thread) (c : Config) : Config :=
  set_threads (<[i := t]> (threads c)) c.
Definition set_word w (c : Config) : Config :=
  mkConfig w (cap c) (senders c) (msgs c) (parked c) (recv c) (threads c) (receiver c)
    (notified c) (alone c) (woken c) (taken c) (lost c).
Definition set_cap k (c : Config) : Config :=
  mkConfig (word c) k (senders c) (msgs c) (parked c) (recv c) (threads c) (receiver c)
    (notified c) (alone c) (woken c) (taken c) (lost c).
Definition set_senders n (c : Config) : Config :=
  mkConfig (word c) (cap c) n (msgs c) (parked c) (recv c) (threads c) (receiver c)
    (notified c) (alone c) (woken c) (taken c) (lost c).
Definition set_msgs ms (c : Config) : Config :=
  mkConfig (word c) (cap c) (senders c) ms (parked c) (recv c) (threads c) (receiver c)
    (notified c) (alone c) (woken c) (taken c) (lost c).
Definition set_parked ps (c : Config) : Config :=
  mkConfig (word c) (cap c) (senders c) (msgs c) ps (recv c) (threads c) (receiver c)
    (notified c) (alone c) (woken c) (taken c) (lost c).
Definition set_recv r n (c : Config) : Config :=
  mkConfig (word c) (cap c) (senders c) (msgs c) (parked c) r (threads c) (receiver c)
    n (alone c) (woken c) (taken c) (lost c).
Definition set_receiver r (c : Config) : Config :=
  mkConfig (word c) (cap c) (senders c) (msgs c) (parked c) (recv c) (threads c) r
    (notified c) (alone c) (woken c) (taken c) (lost c).
Definition set_alone b (c : Config) : Config :=
  mkConfig (word c) (cap c) (senders c) (msgs c) (parked c) (recv c) (threads c) (receiver c)
    (notified c) b (woken c) (taken c) (lost c).
Definition set_woken w (c : Config) : Config :=
  mkConfig (word c) (cap c) (senders c) (msgs c) (parked c) (recv c) (threads c) (receiver c)
    (notified c) (alone c) w (taken c) (lost c).
Definition set_taken ms (c : Config) : Config :=
  mkConfig (word c) (cap c) (senders c) (msgs c) (parked c) (recv c) (threads c) (receiver c)
    (notified c) (alone c) (woken c) ms (lost c).
Definition set_lost ms (c : Config) : Config :=
  mkConfig (word c) (cap c) (senders c) (msgs c) (parked c) (recv c) (threads c) (receiver c)
    (notified c) (alone c) (woken c) (taken c) ms.
Definition at_pc (p : spc) (t : Thread) : Thread := mkThread p (maybe t) (cell t).
Definition new_thread : Thread := mkThread SIdle false (mkSenderTask None false).

(** ** The actions of the senders *)

(** [poll_unparked(false)] and the first load of [send] and [try_send]: refused
    at once, or on to the loop.  [do_send] goes straight to its loop. *)
Definition begin_send (k : kind) (m : M) (c : Config) (t : Thread) : Thread :=
  match k with
  | KDo => at_pc (SLoaded KDo (word c) m) t
  | _ =>
      if maybe t && is_parked (cell t)
      then mkThread SIdle (maybe t) (mkSenderTask None true)
      else mkThread (SLoaded k (word c) m) false (cell t)
  end.

Definition inc_iter (k : kind) (cap curr : Z) : Cas (option bool) :=
  match k with
  | KDo => inc_num_messages_force_iter cap curr
  | _ => inc_num_messages_iter cap curr
  end.

(** The first half of an iteration of the increment loop. *)
Definition load_step (current : Task) (k : kind) (curr : Z) (m : M) (c : Config) : spc :=
  match inc_iter k (cap c) curr with
  | CasReturn (Some true) => match k with KSend => SPark current | _ => SIdle end
  | CasReturn _ | CasPanic _ => SIdle
  | CasTry next _ => SCas k curr next m
  end.
(** The second half: the exchange. *)
Definition cas_step (i : nat) (k : kind) (curr next : Z) (m : M) (t : Thread) (c : Config) : Config :=
  if word c =? curr
  then set_word next (set_thread i (at_pc (SPush m) t) c)
  else set_thread i (at_pc (SLoaded k (word c) m) t) c.

(** [signal]: the critical section on [recv_task], and the notification. *)
Definition signal_step (c : Config) : Config :=
  if unparked (recv c) then c
  else set_recv (mkReceiverTask true None)
         (notified c || bool_decide (is_Some (recv_handle (recv c)))) c.

(** An iteration of [Clone]: the test, the assertion, which loads the capacity
    again, and the exchange.  A panic ends the call. *)
Definition clone_step (curr : Z) (c : Config) : spc :=
  match clone_test (cap c) curr with Some _ => SIdle | None => SCloneAssert curr end.
Definition clone_assert_step (curr : Z) (c : Config) : spc :=
  match clone_assert (cap c) curr with Some _ => SIdle | None => SCloneCas curr (wrap (curr + 1)) end.
Definition clone_cas_step (i : nat) (curr next : Z) (t : Thread) (c : Config) : Config :=
  if senders c =? curr
  then set_senders next (set_threads (<[i := at_pc SIdle t]> (threads c) ++ [new_thread]) c)
  else set_thread i (at_pc (SClone (senders c)) t) c.

(** [Drop]: the [fetch_sub]. *)
Definition drop_step (i : nat) (t : Thread) (c : Config) : Config :=
  set_senders (wrap (senders c - 1))
    (set_thread i (at_pc (if senders c =? 1 then SLast else SGone) t) c).

(** [free]: may senders use [do_send], and the receiver [set_capacity], which do
    not respect the capacity? *)
Inductive sender_step (free : bool) (i : nat) (t : Thread) (c : Config) : Config → Prop :=
| step_begin k m :
    pc t = SIdle → (k = KDo → free = true) →
    sender_step free i t c (set_thread i (begin_send k m c t) c)
| step_load current k curr m :
    pc t = SLoaded k curr m →
    sender_step free i t c (set_thread i (at_pc (load_step current k curr m c) t) c)
| step_cas k curr next m :
    pc t = SCas k curr next m → sender_step free i t c (cas_step i k curr next m t c)
| step_push m :
    pc t = SPush m →
    sender_step free i t c (set_msgs (msgs c ++ [m]) (set_thread i (at_pc SSignal t) c))
| step_signal :
    pc t = SSignal → sender_step free i t c (signal_step (set_thread i (at_pc SIdle t) c))
| step_park current :
    pc t = SPark current →
    sender_step free i t c
      (set_thread i (mkThread SParkPush (maybe t) (mkSenderTask (Some current) true)) c)
| step_park_push :
    pc t = SParkPush →
    sender_step free i t c (set_parked (parked c ++ [i]) (set_thread i (at_pc SParkCheck t) c))
| step_park_check :
    pc t = SParkCheck →
    sender_step free i t c
      (set_thread i (mkThread SIdle (is_open (decode_state (word c))) (cell t)) c)
| step_clone :
    pc t = SIdle → sender_step free i t c (set_thread i (at_pc (SClone (senders c)) t) c)
| step_clone_load curr :
    pc t = SClone curr → sender_step free i t c (set_thread i (at_pc (clone_step curr c) t) c)
| step_clone_assert curr :
    pc t = SCloneAssert curr →
    sender_step free i t c (set_thread i (at_pc (clone_assert_step curr c) t) c)
| step_clone_cas curr next :
    pc t = SCloneCas curr next → sender_step free i t c (clone_cas_step i curr next t c)
| step_drop : pc t = SIdle → sender_step free i t c (drop_step i t c)
| step_last :
    pc t = SLast → sender_step free i t c (signal_step (set_thread i (at_pc SGone t) c)).

(** ** The actions of the receiver, whose task is [rt] *)

(** Where it is between two calls. *)
Definition rests (asleep : bool) : rpc := if asleep then RAsleep else RIdle.

(** Popping one parked sender and notifying it. *)
Definition unpark_step (c : Config) : Config :=
  match parked c with
  | [] => c
  | p :: ps =>
      match threads c !! p with
      | Some t =>
          set_woken (woken c ++ option_list (task (cell t)))
            (set_parked ps (set_thread p (mkThread (pc t) (maybe t) (mkSenderTask None false)) c))
      | None => set_parked ps c
      end
  end.

Definition dec_step (curr : Z) (m : M) (c : Config) : Config :=
  match dec_num_messages_iter curr with
  | CasTry next _ =>
      if word c =? curr
      then set_receiver RIdle (set_word next (set_taken (taken c ++ [m]) c))
      else set_receiver (RDec (word c) m) c
  | _ => c
  end.

Definition try_park_step (rt : Task) (c : Config) : Config :=
  if unparked (recv c)
  then set_receiver RPop (set_recv (mkReceiverTask false (recv_handle (recv c))) (notified c) c)
  else set_alone (senders c =? 0)
         (set_receiver RAsleep (set_recv (mkReceiverTask false (Some rt)) false c)).

(** [sender]: an iteration of its loop, which is that of [Clone] without the
    [debug_assert!]. *)
Definition sender_load_step (b : bool) (curr : Z) (c : Config) : rpc :=
  match clone_test (cap c) curr with
  | Some _ => rests b
  | None => RSenderCas b curr (wrap (curr + 1))
  end.
Definition sender_cas_step (b : bool) (curr next : Z) (c : Config) : Config :=
  if senders c =? curr
  then set_senders next (set_threads (threads c ++ [new_thread]) (set_receiver (rests b) c))
  else set_receiver (RSender b (senders c)) c.

(** An iteration of the closing loop of [Drop]. *)
Definition close_step (curr : Z) (c : Config) : Config :=
  match close_iter curr with
  | CasReturn _ | CasPanic _ => set_receiver RCloseWake c
  | CasTry next _ =>
      if word c =? curr then set_receiver RCloseWake (set_word next c)
      else set_receiver (RClose (word c)) c
  end.

Inductive receiver_step (free : bool) (rt : Task) (c : Config) : Config → Prop :=
| step_poll b :
    receiver c = rests b → receiver_step free rt c (set_receiver RPop c)
| step_pop_data m ms :
    receiver c = RPop → msgs c = m :: ms →
    receiver_step free rt c (set_receiver (RUnpark m) (set_msgs ms c))
| step_pop_empty :
    receiver c = RPop → msgs c = [] → receiver_step free rt c (set_receiver RTryPark c)
| step_try_park :
    receiver c = RTryPark → receiver_step free rt c (try_park_step rt c)
| step_unpark m :
    receiver c = RUnpark m →
    receiver_step free rt c (set_receiver (RDec (word c) m) (unpark_step c))
| step_dec curr m :
    receiver c = RDec curr m → receiver_step free rt c (dec_step curr m c)
| step_make_sender b :
    receiver c = rests b → receiver_step free rt c (set_receiver (RSender b (senders c)) c)
| step_sender_load b curr :
    receiver c = RSender b curr →
    receiver_step free rt c (set_receiver (sender_load_step b curr c) c)
| step_sender_cas b curr next :
    receiver c = RSenderCas b curr next → receiver_step free rt c (sender_cas_step b curr next c)
| step_set_capacity b k :
    receiver c = rests b → free = true → 0 ≤ k →
    receiver_step free rt c (set_receiver (if cap c <? k then RWake b else rests b) (set_cap k c))
| step_wake b p ps :
    receiver c = RWake b → parked c = p :: ps → receiver_step free rt c (unpark_step c)
| step_wake_end b :
    receiver c = RWake b → parked c = [] → receiver_step free rt c (set_receiver (rests b) c)
| step_close b :
    receiver c = rests b → receiver_step free rt c (set_receiver (RClose (word c)) c)
| step_close_cas curr :
    receiver c = RClose curr → receiver_step free rt c (close_step curr c)
| step_close_wake p ps :
    receiver c = RCloseWake → parked c = p :: ps → receiver_step free rt c (unpark_step c)
| step_close_woken :
    receiver c = RCloseWake → parked c = [] → receiver_step free rt c (set_receiver RDrain c)
| step_drain m ms :
    receiver c = RDrain → msgs c = m :: ms →
    receiver_step free rt c (set_lost (lost c ++ [m]) (set_msgs ms c))
| step_drained :
    receiver c = RDrain → msgs c = [] → receiver_step free rt c (set_receiver RDead c).

Inductive step (free : bool) (rt : Task) : Config → Config → Prop :=
| step_sender i t c c' : threads c !! i = Some t → sender_step free i t c c' → step free rt c c'
| step_receiver c c' : receiver_step free rt c c' → step free rt c c'.

(** [reach free rt c0 n c]: [c] is reached from [c0] by [n] actions. *)
Inductive reach (free : bool) (rt : Task) (c0 : Config) : nat → Config → Prop :=
| reach_refl : reach free rt c0 0 c0
| reach_step n c c' : reach free rt c0 n c → step free rt c c' → reach free rt c0 (S n) c'.

(** [n] idle senders and a channel of capacity [cap], just created. *)
Definition start (n : nat) (cap : Z) : Config :=
  mkConfig INIT_STATE cap (Z.of_nat n) [] [] (mkReceiverTask false None)
    (replicate n new_thread) RIdle false false [] [] [].
End conc.
Arguments Config : clear implicits.
Arguments spc : clear implicits.
Arguments rpc : clear implicits.
Arguments Thread : clear implicits.
