(* ===== verification/SyncChannelConcProps.v ===== *)
(** * What holds under every interleaving of the thread-safe channel

    Invariants of [SyncChannelConc.step] by induction on [reach]: [word_ok] (the
    state word counts), [senders_ok] (so does the number of senders), [wake_ok]
    (nobody forgets the receiver), [park_ok] (who is parked is queued), and
    [bounded] (the capacity).  Two runs show wake-ups that are lost. *)

From S2P Require Import Prelude.
From S2P Require Import SyncChannel.
From S2P Require Import SyncChannelConc.

(** ** Tallies over the threads *)

Section tally.
Context {M Task : Type}.
Implicit Types (t : Thread M Task) (ts : list (Thread M Task)).

Definition tally (f : Thread M Task → nat) ts : nat := sum_list (f <$> ts).

Lemma tally_cons f t ts : tally f (t :: ts) = (f t + tally f ts)%nat.
Proof. done. Qed.

Lemma tally_insert f ts i t t' :
  ts !! i = Some t → (tally f (<[i := t']> ts) + f t = tally f ts + f t')%nat.
Proof.
  revert i. induction ts as [|t0 ts IH]; intros [|i] Hi; [done | done | |].
  - injection Hi as ->. change (<[0 := t']> (t :: ts))%nat with (t' :: ts). rewrite !tally_cons. lia.
  - change (<[S i := t']> (t0 :: ts)) with (t0 :: <[i := t']> ts). specialize (IH i Hi).
    rewrite !tally_cons. lia.
Qed.

Lemma tally_app f ts ts' : tally f (ts ++ ts') = (tally f ts + tally f ts')%nat.
Proof. induction ts as [|t ts IH]; [done |]. simpl app. rewrite !tally_cons. lia. Qed.

Lemma tally_le f ts i t : ts !! i = Some t → (f t ≤ tally f ts)%nat.
Proof.
  revert i. induction ts as [|t0 ts IH]; intros [|i] Hi; [done | done | |]; rewrite tally_cons.
  - injection Hi as ->. lia.
  - specialize (IH i Hi). lia.
Qed.

Lemma tally_replicate f n t : tally f (replicate n t) = (n * f t)%nat.
Proof. induction n as [|n IH]; [done |]. simpl replicate. rewrite tally_cons. lia. Qed.

Definition pushing t : nat := match pc t with SPush _ => 1 | _ => 0 end.
Definition alive_sender t : nat := match pc t with SLast | SGone => 0 | _ => 1 end.

(** A thread that is about to signal the receiver. *)
Definition to_signal t : Prop := match pc t with SSignal | SLast => True | _ => False end.
Definition signalling ts : Prop := ∃ i t, ts !! i = Some t ∧ to_signal t.

Lemma signalling_insert ts i t t' :
  ts !! i = Some t → (to_signal t → to_signal t') → signalling ts → signalling (<[i := t']> ts).
Proof.
  intros Hi Hor (j & u & Hj & Hu). destruct (decide (i = j)) as [->|].
  - exists j, t'. rewrite list_lookup_insert_eq by by eapply lookup_lt_Some.
    split; [done |]. apply Hor. congruence.
  - exists j, u. by rewrite list_lookup_insert_ne.
Qed.

Lemma signalling_here ts i t t' :
  ts !! i = Some t → to_signal t' → signalling (<[i := t']> ts).
Proof.
  intros Hi Ht. exists i, t'. by rewrite list_lookup_insert_eq by by eapply lookup_lt_Some.
Qed.

Lemma signalling_app ts ts' : signalling ts → signalling (ts ++ ts').
Proof. intros (i & t & Hi & Ht). exists i, t. split; [by apply lookup_app_l_Some | done]. Qed.

Lemma Forall_insert_thread (P : Thread M Task → Prop) ts i t' :
  Forall P ts → P t' → Forall P (<[i := t']> ts).
Proof. intros. by apply Forall_insert. Qed.
End tally.

(** ** The state word *)

Section word.
Context {M Task : Type} {build : Build}.
Implicit Types (c : Config M Task) (t : Thread M Task).

(** Messages counted in the state word but no longer in the queue. *)
Definition in_flight (r : rpc M) : nat := match r with RUnpark _ | RDec _ _ => 1 | _ => 0 end.
Definition counted c : nat :=
  length (msgs c) + tally pushing (threads c) + in_flight (receiver c) + length (lost c).
(** Is the channel open? *)
Definition open (r : rpc M) : bool :=
  match r with RCloseWake | RDrain | RDead => false | _ => true end.

(** The value a thread is about to write. *)
Definition thread_word t : Prop :=
  match pc t with
  | SCas _ curr next _ => is_open (decode_state curr) = true ∧
      next = encode_state (mkState true (wrap (num_messages (decode_state curr) + 1)))
  | _ => True
  end.

Record word_ok (k : nat) c : Prop := mkWordOk {
  word_value : word c = encode_state (mkState (open (receiver c)) (Z.of_nat (counted c)));
  word_counted : (counted c ≤ k)%nat;
  word_threads : Forall thread_word (threads c);
  word_close curr : receiver c = RClose curr → is_open (decode_state curr) = true
}.

Lemma word_start n cap : word_ok 0 (start n cap).
Proof.
  assert (tally pushing (replicate n (@new_thread M Task)) = 0%nat) as Ht.
  { rewrite tally_replicate. apply Nat.mul_0_r. }
  split; try done; try (unfold counted; simpl; rewrite Ht; done).
  apply Forall_replicate. exact I.
Qed.

Lemma word_decode k c :
  word_ok k c → Z.of_nat k < MAX_CAPACITY →
  decode_state (word c) = mkState (open (receiver c)) (Z.of_nat (counted c)) ∧
  wrap (Z.of_nat (counted c) + 1) = Z.of_nat (S (counted c)) ∧
  (counted c ≠ 0%nat → wrap (Z.of_nat (counted c) - 1) = Z.of_nat (pred (counted c))).
Proof.
  intros H Hn. pose proof (word_counted _ _ H) as Hc. rewrite MAX_CAPACITY_value in *.
  rewrite Z.ones_equiv in Hn. split_and!.
  - rewrite (word_value _ _ H). apply decode_encode_state. cbn [num_messages].
    rewrite MAX_CAPACITY_value, Z.ones_equiv. lia.
  - rewrite wrap_small; [lia |]. unfold is_usize, usize_modulus. lia.
  - intros H0. rewrite wrap_small; [lia |]. unfold is_usize, usize_modulus. lia.
Qed.

(** A step that leaves the word and what it counts alone. *)
Lemma word_frame k c c' :
  word_ok k c → word c' = word c → counted c' = counted c →
  open (receiver c') = open (receiver c) → Forall thread_word (threads c') →
  (∀ curr, receiver c' = RClose curr → is_open (decode_state curr) = true) → word_ok (S k) c'.
Proof.
  intros [Hv Hc _ _] Hw Hn Ho Ht Hr. split; [by rewrite Hw, Hn, Ho | rewrite Hn; lia | done..].
Qed.

Lemma word_move k c i t t' :
  word_ok k c → threads c !! i = Some t → pushing t' = pushing t → thread_word t' →
  word_ok (S k) (set_thread i t' c).
Proof.
  intros H Hi Hp Ht. pose proof (tally_insert pushing _ _ _ t' Hi) as Hc.
  apply (word_frame _ _ _ H); [done | unfold counted; simpl; lia | done | | by apply H].
  apply Forall_insert_thread; [apply H | done].
Qed.

Lemma word_cas_step k c i kd curr next m t :
  word_ok k c → Z.of_nat k < MAX_CAPACITY → threads c !! i = Some t → pc t = SCas kd curr next m →
  word_ok (S k) (cas_step i kd curr next m t c).
Proof.
  intros H Hk Hi Hpc. destruct (word_decode _ _ H Hk) as (Hd & Hinc & _).
  pose proof (proj1 (Forall_lookup _ _) (word_threads _ _ H) _ _ Hi) as Ht.
  unfold thread_word in Ht. rewrite Hpc in Ht. destruct Ht as [Hopen ->]. unfold cas_step.
  destruct (Z.eqb_spec (word c) curr) as [<-|];
    [| apply (word_move _ _ _ _ _ H Hi); [unfold pushing; by rewrite Hpc | exact I]].
  rewrite Hd in *. cbn [is_open num_messages] in *. rewrite Hinc.
  pose proof (tally_insert pushing _ _ _ (at_pc (SPush m) t) Hi) as Hc.
  unfold pushing in Hc at 2 4; rewrite Hpc in Hc; simpl in Hc.
  destruct H as [Hv Hn Ht Hr].
  assert (counted (set_word (encode_state (mkState true (Z.of_nat (S (counted c)))))
    (set_thread i (at_pc (SPush m) t) c)) = S (counted c)) as Heq by (unfold counted; simpl; lia).
  split; rewrite ?Heq; simpl; [by rewrite Hopen | lia | | done].
  apply Forall_insert_thread; [done | exact I].
Qed.

Lemma inc_iter_next kd cap curr next r :
  inc_iter kd cap curr = CasTry next r →
  is_open (decode_state curr) = true ∧
  next = encode_state (mkState true (wrap (num_messages (decode_state curr) + 1))).
Proof.
  unfold inc_iter, inc_num_messages_force_iter, inc_num_messages_iter.
  destruct (is_open (decode_state curr)); [| by destruct kd]. cbn [negb].
  destruct kd; [| |by intros [= <- _]]; destruct (is_full _ _); by intros [= <- _].
Qed.

Lemma thread_word_load current kd curr m c t :
  thread_word (at_pc (load_step current kd curr m c) t) ∧
  pushing (at_pc (load_step current kd curr m c) t) = 0%nat.
Proof.
  unfold load_step. destruct (inc_iter kd (cap c) curr) as [[[|]|]|?|next r] eqn:Hi; try done.
  - by destruct kd.
  - split; [| done]. by eapply inc_iter_next.
Qed.

(** The state without its receiver's slot is left alone by a signal. *)
Lemma word_signal k c : word_ok k c → word_ok k (signal_step c).
Proof. intros H. unfold signal_step. destruct (unparked _); [done |]. by destruct H. Qed.

Lemma word_sender_step free k c c' i t :
  word_ok k c → Z.of_nat k < MAX_CAPACITY →
  threads c !! i = Some t → sender_step free i t c c' → word_ok (S k) c'.
Proof.
  intros H Hk Hi Hs.
  assert (∀ t', pushing t' = pushing t → thread_word t' → word_ok (S k) (set_thread i t' c)) as Hmove
    by (intros; by eapply word_move).
  destruct Hs as [kd m Hpc _|current kd curr m Hpc|kd curr next m Hpc|m Hpc|Hpc|current Hpc|Hpc|Hpc
    |Hpc|curr Hpc|curr Hpc|curr next Hpc|Hpc|Hpc].
  - apply Hmove; unfold pushing, thread_word, begin_send; rewrite ?Hpc; destruct kd; simpl; try done;
      by destruct (maybe t && _).
  - destruct (thread_word_load current kd curr m c t) as [Ht Hp].
    apply Hmove; [| done]. rewrite Hp. unfold pushing. by rewrite Hpc.
  - by apply word_cas_step.
  - pose proof (tally_insert pushing _ _ _ (at_pc SSignal t) Hi) as Hc.
    unfold pushing in Hc at 2 4; rewrite Hpc in Hc; simpl in Hc.
    apply (word_frame _ _ _ H); [done | | done | | by apply H].
    + unfold counted; simpl. rewrite length_app. simpl. lia.
    + apply Forall_insert_thread; [apply H | exact I].
  - apply word_signal, Hmove; unfold pushing; by rewrite ?Hpc.
  - apply Hmove; unfold pushing; by rewrite ?Hpc.
  - destruct (Hmove (at_pc SParkCheck t)); [unfold pushing; by rewrite Hpc | done | by split].
  - apply Hmove; unfold pushing; by rewrite ?Hpc.
  - apply Hmove; unfold pushing; by rewrite ?Hpc.
  - apply Hmove; unfold pushing, thread_word, clone_step; rewrite ?Hpc; by destruct (clone_test _ _).
  - apply Hmove; unfold pushing, thread_word, clone_assert_step; rewrite ?Hpc; by destruct (clone_assert _ _).
  - unfold clone_cas_step. destruct (_ =? _); [| apply Hmove; unfold pushing; by rewrite ?Hpc].
    pose proof (tally_insert pushing _ _ _ (at_pc SIdle t) Hi) as Hc.
    unfold pushing in Hc at 2 4; rewrite Hpc in Hc; simpl in Hc.
    apply (word_frame _ _ _ H); [done | | done | | by apply H].
    + unfold counted; simpl. rewrite tally_app. change (tally pushing [new_thread]) with 0%nat. lia.
    + apply Forall_app. split; [apply Forall_insert_thread; [apply H | exact I] |].
      repeat constructor.
  - destruct (Hmove (at_pc (if senders c =? 1 then SLast else SGone) t));
      [unfold pushing; rewrite Hpc; simpl; by destruct (_ =? _)
      | unfold thread_word; simpl; by destruct (_ =? _) | by split].
  - apply word_signal, Hmove; unfold pushing; by rewrite ?Hpc.
Qed.

Lemma unpark_frame c :
  let c' := unpark_step c in
  (∀ f : Thread M Task → nat, (∀ t b s, f (mkThread (pc t) b s) = f t) →
    tally f (threads c') = tally f (threads c)) ∧
  (∀ P : Thread M Task → Prop, (∀ t b s, P t → P (mkThread (pc t) b s)) →
    Forall P (threads c) → Forall P (threads c')) ∧
  word c' = word c ∧ cap c' = cap c ∧ senders c' = senders c ∧ msgs c' = msgs c ∧ recv c' = recv c ∧
  receiver c' = receiver c ∧ notified c' = notified c ∧ alone c' = alone c ∧ lost c' = lost c ∧
  (signalling (threads c) → signalling (threads c')).
Proof.
  unfold unpark_step. destruct (parked c) as [|p ps]; [done |].
  destruct (threads c !! p) as [t|] eqn:Hp; simpl; [| done].
  split_and!; try done.
  - intros f Hf. pose proof (tally_insert f _ _ _ (mkThread (pc t) (maybe t) (mkSenderTask None false)) Hp) as Hc.
    rewrite Hf in Hc. lia.
  - intros P HP Hall. apply Forall_insert_thread; [done |]. apply HP.
    by apply (proj1 (Forall_lookup _ _) Hall p).
  - by eapply signalling_insert.
Qed.

Lemma unpark_counted c :
  counted (unpark_step c) = counted c.
Proof.
  destruct (unpark_frame c) as (Ht & _ & _ & _ & _ & Hm & _ & Hr & _ & _ & Hl & _).
  unfold counted. by rewrite Ht, Hm, Hr, Hl.
Qed.

Lemma word_unpark k c : word_ok k c → word_ok k (unpark_step c).
Proof.
  intros [Hv Hc Ht Hr]. pose proof (unpark_counted c) as Heq.
  destruct (unpark_frame c) as (_ & HF & Hw & _ & _ & _ & _ & Hrc & _).
  split; rewrite ?Heq, ?Hw, ?Hrc; try done. by apply HF.
Qed.

(** The receiver goes on. *)
Lemma word_receiver k c r :
  word_ok k c → in_flight r = in_flight (receiver c) → open r = open (receiver c) →
  (∀ curr, r = RClose curr → is_open (decode_state curr) = true) → word_ok (S k) (set_receiver r c).
Proof.
  intros H Hf Ho Hr. apply (word_frame _ _ _ H); [done | | done | apply H | done].
  unfold counted; simpl. by rewrite Hf.
Qed.

Lemma rests_in_flight b : in_flight (rests (M := M) b) = 0%nat ∧ open (rests (M := M) b) = true.
Proof. by destruct b. Qed.

Lemma word_dec_step k c curr m :
  word_ok k c → Z.of_nat k < MAX_CAPACITY → receiver c = RDec curr m → word_ok (S k) (dec_step curr m c).
Proof.
  intros H Hk Hr. destruct (word_decode _ _ H Hk) as (Hd & _ & Hdec).
  unfold dec_step, dec_num_messages_iter. destruct (Z.eqb_spec (word c) curr) as [<-|];
    [| apply word_receiver; [done | by rewrite Hr..| done]].
  rewrite Hd. cbn [is_open num_messages].
  assert (counted c ≠ 0%nat) as H0 by (unfold counted; rewrite Hr; simpl; lia).
  rewrite (Hdec H0). destruct H as [Hv Hc Ht _].
  assert (counted (set_receiver RIdle (set_word (encode_state (mkState (open (receiver c))
    (Z.of_nat (pred (counted c))))) (set_taken (taken c ++ [m]) c))) = pred (counted c)) as Heq.
  { unfold counted; simpl. rewrite Hr. simpl. lia. }
  split; rewrite ?Heq; simpl; [by rewrite Hr | lia | done | done].
Qed.

Lemma word_close_step k c curr :
  word_ok k c → Z.of_nat k < MAX_CAPACITY → receiver c = RClose curr → word_ok (S k) (close_step curr c).
Proof.
  intros H Hk Hr. destruct (word_decode _ _ H Hk) as (Hd & _ & _). rewrite Hr in Hd; cbn [open] in Hd.
  unfold close_step, close_iter. rewrite (word_close _ _ H _ Hr). cbn [negb].
  destruct (Z.eqb_spec (word c) curr) as [<-|].
  - rewrite Hd. cbn [num_messages]. destruct H as [Hv Hc Ht _].
    assert (∀ w, counted (set_receiver RCloseWake (set_word w c)) = counted c) as Heq
      by (intros; unfold counted; simpl; by rewrite Hr).
    split; rewrite ?Heq; [done | lia | done | done].
  - apply word_receiver; [done | by rewrite Hr.. |]. intros ? [= <-]. by rewrite Hd.
Qed.

Lemma word_receiver_step free rt k c c' :
  word_ok k c → Z.of_nat k < MAX_CAPACITY → receiver_step free rt c c' → word_ok (S k) c'.
Proof.
  intros H Hk Hs. destruct (word_decode _ _ H Hk) as (Hd & _ & _).
  assert (∀ r b, receiver c = rests b → in_flight r = 0%nat → open r = true →
    (∀ curr, r = RClose curr → is_open (decode_state curr) = true) → word_ok (S k) (set_receiver r c)) as Hrest.
  { intros r b Hr Hf Ho Hcl. destruct (rests_in_flight b). apply word_receiver; rewrite ?Hr; try congruence. done. }
  assert (∀ c0, word_ok k c0 → word_ok (S k) c0) as Hup by (intros c0 []; split; [done | lia | done..]).
  destruct Hs as [b Hr|m ms Hr Hm|Hr Hm|Hr|m Hr|curr m Hr|b Hr|b curr Hr|b curr next Hr|b q Hr _ _
    |b p ps Hr _|b Hr _|b Hr|curr Hr|p ps Hr _|Hr _|m ms Hr Hm|Hr Hm].
  - by eapply Hrest.
  - apply (word_frame _ _ _ H); [done | | by rewrite Hr | apply H | done].
    unfold counted; simpl. rewrite Hr, Hm. simpl. lia.
  - apply word_receiver; by rewrite ?Hr.
  - unfold try_park_step. destruct (unparked _).
    + by destruct (word_receiver k c RPop H) as [? ? ? ?]; [by rewrite Hr.. | done | split].
    + by destruct (word_receiver k c RAsleep H) as [? ? ? ?]; [by rewrite Hr.. | done | split].
  - destruct (unpark_frame c) as (_ & _ & _ & _ & _ & _ & _ & Hr' & _).
    apply word_receiver; rewrite ?Hr', ?Hr; try done. by apply word_unpark.
  - by apply word_dec_step.
  - by eapply Hrest.
  - unfold sender_load_step. apply word_receiver; [done | rewrite Hr..|];
      destruct (clone_test _ _); try done; by destruct b.
  - unfold sender_cas_step. destruct (_ =? _); [| by apply word_receiver; rewrite ?Hr].
    destruct (rests_in_flight b) as [Hf Ho].
    apply (word_frame _ _ _ H); [done | | by rewrite Hr | |]; simpl.
    + unfold counted; simpl. rewrite tally_app, Hr, Hf. change (tally pushing [new_thread]) with 0%nat.
      simpl. lia.
    + apply Forall_app. split; [apply H | by repeat constructor].
    + by destruct b.
  - destruct (rests_in_flight b) as [Hf Ho].
    assert (word_ok (S k) (set_receiver (if cap c <? q then RWake b else rests b) c)) as [? ? ? ?]; [| by split].
    destruct (_ <? _); eapply Hrest; try done; by destruct b.
  - by apply Hup, word_unpark.
  - destruct (rests_in_flight b) as [Hf Ho]. apply word_receiver; rewrite ?Hr; try done. by destruct b.
  - eapply Hrest; try done. intros curr [= <-]. rewrite Hd, Hr. by destruct b.
  - by apply word_close_step.
  - by apply Hup, word_unpark.
  - by apply word_receiver; rewrite ?Hr.
  - apply (word_frame _ _ _ H); [done | | done | apply H | by simpl; rewrite Hr].
    unfold counted; simpl. rewrite Hm, length_app. simpl. lia.
  - by apply word_receiver; rewrite ?Hr.
Qed.

Lemma reach_word free rt n cap k c :
  reach free rt (start n cap) k c → Z.of_nat k ≤ MAX_CAPACITY → word_ok k c.
Proof.
  induction 1 as [|k c c' Hr IH Hs]; intros Hk; [apply word_start |].
  destruct Hs as [i t c c' Hi Hs|c c' Hs].
  - eapply word_sender_step; [apply IH; lia | lia | done..].
  - eapply word_receiver_step; [apply IH; lia | lia | done..].
Qed.
End word.

(** ** The number of senders *)

Section senders.
Context {M Task : Type} {build : Build}.
Implicit Types (c : Config M Task) (t : Thread M Task).

Definition thread_clone t : Prop :=
  match pc t with SCloneCas curr next => next = wrap (curr + 1) | _ => True end.

Record senders_ok (n : nat) c : Prop := mkSendersOk {
  senders_value : senders c = Z.of_nat (tally alive_sender (threads c));
  senders_bound : (tally alive_sender (threads c) ≤ n)%nat;
  senders_threads : Forall thread_clone (threads c);
  senders_receiver b curr next : receiver c = RSenderCas b curr next → next = wrap (curr + 1)
}.

Lemma senders_start n cap : senders_ok n (start n cap).
Proof.
  assert (tally alive_sender (replicate n (@new_thread M Task)) = n) as Ht.
  { rewrite tally_replicate. apply Nat.mul_1_r. }
  split; simpl; rewrite ?Ht; try done. by apply Forall_replicate.
Qed.

Lemma senders_frame n c c' :
  senders_ok n c → senders c' = senders c → tally alive_sender (threads c') = tally alive_sender (threads c) →
  Forall thread_clone (threads c') →
  (∀ b curr next, receiver c' = RSenderCas b curr next → next = wrap (curr + 1)) → senders_ok (S n) c'.
Proof. intros [Hv Hb _ _] Hs Ha Ht Hr. split; rewrite ?Hs, ?Ha; try done. lia. Qed.

Lemma senders_move n c i t t' :
  senders_ok n c → threads c !! i = Some t → alive_sender t' = alive_sender t → thread_clone t' →
  senders_ok (S n) (set_thread i t' c).
Proof.
  intros H Hi Ha Ht. pose proof (tally_insert alive_sender _ _ _ t' Hi) as Hc.
  apply (senders_frame _ _ _ H); [done | simpl; lia | | apply H].
  apply Forall_insert_thread; [apply H | done].
Qed.

Lemma wrap_small_nat n : Z.of_nat n < MAX_CAPACITY → wrap (Z.of_nat n + 1) = Z.of_nat (S n).
Proof.
  intros Hn. rewrite MAX_CAPACITY_value, Z.ones_equiv in Hn.
  rewrite wrap_small; [lia | unfold is_usize, usize_modulus; lia].
Qed.

Lemma senders_signal n c : senders_ok n c → senders_ok n (signal_step c).
Proof. intros H. unfold signal_step. destruct (unparked _); [done |]. by destruct H. Qed.

(** One more thread. *)
Lemma senders_more n c ts r :
  senders_ok n c → Z.of_nat n < MAX_CAPACITY → tally alive_sender ts = tally alive_sender (threads c) →
  Forall thread_clone ts → (∀ b curr next, r = RSenderCas b curr next → next = wrap (curr + 1)) →
  senders_ok (S n) (set_senders (wrap (senders c + 1)) (set_threads (ts ++ [new_thread]) (set_receiver r c))).
Proof.
  intros [Hv Hb Ht _] Hn Hts HF Hr. rewrite Hv, wrap_small_nat by lia.
  split; simpl; rewrite ?tally_app, ?Hts; change (tally alive_sender [new_thread]) with 1%nat; [lia | lia | | done].
  apply Forall_app. split; [done | by repeat constructor].
Qed.

Lemma senders_sender_step free n c c' i t :
  senders_ok n c → Z.of_nat n < MAX_CAPACITY →
  threads c !! i = Some t → sender_step free i t c c' → senders_ok (S n) c'.
Proof.
  intros H Hn Hi Hs.
  assert (∀ t', alive_sender t' = alive_sender t → thread_clone t' → senders_ok (S n) (set_thread i t' c)) as Hmove
    by (intros; by eapply senders_move).
  destruct Hs as [kd m Hpc _|current kd curr m Hpc|kd curr next m Hpc|m Hpc|Hpc|current Hpc|Hpc|Hpc
    |Hpc|curr Hpc|curr Hpc|curr next Hpc|Hpc|Hpc].
  - apply Hmove; unfold alive_sender, thread_clone, begin_send; rewrite ?Hpc; destruct kd; simpl; try done;
      by destruct (maybe t && _).
  - apply Hmove; unfold alive_sender, thread_clone, load_step; rewrite ?Hpc; simpl;
      destruct (inc_iter _ _ _) as [[[]|]| |]; try done; by destruct kd.
  - unfold cas_step. destruct (_ =? _); [| apply Hmove; unfold alive_sender; by rewrite ?Hpc].
    destruct (Hmove (at_pc (SPush m) t)); [unfold alive_sender; by rewrite Hpc | done | by split].
  - destruct (Hmove (at_pc SSignal t)); [unfold alive_sender; by rewrite Hpc | done | by split].
  - apply senders_signal, Hmove; unfold alive_sender; by rewrite ?Hpc.
  - apply Hmove; unfold alive_sender; by rewrite ?Hpc.
  - destruct (Hmove (at_pc SParkCheck t)); [unfold alive_sender; by rewrite Hpc | done | by split].
  - apply Hmove; unfold alive_sender; by rewrite ?Hpc.
  - apply Hmove; unfold alive_sender; by rewrite ?Hpc.
  - apply Hmove; unfold alive_sender, thread_clone, clone_step; rewrite ?Hpc; simpl;
      by destruct (clone_test _ _).
  - apply Hmove; unfold alive_sender, thread_clone, clone_assert_step; rewrite ?Hpc; simpl;
      by destruct (clone_assert _ _).
  - unfold clone_cas_step. destruct (Z.eqb_spec (senders c) curr) as [<-|];
      [| apply Hmove; unfold alive_sender; by rewrite ?Hpc].
    pose proof (proj1 (Forall_lookup _ _) (senders_threads _ _ H) _ _ Hi) as Ht.
    unfold thread_clone in Ht. rewrite Hpc in Ht. subst next.
    pose proof (tally_insert alive_sender _ _ _ (at_pc SIdle t) Hi) as Hc.
    unfold alive_sender in Hc at 2 4; rewrite Hpc in Hc; simpl in Hc.
    destruct (senders_more n c (<[i := at_pc SIdle t]> (threads c)) (receiver c) H Hn) as [? ? ? ?];
      [lia | | apply H | by split]. apply Forall_insert_thread; [apply H | exact I].
  - unfold drop_step. pose proof (tally_insert alive_sender _ _ _ (at_pc (if senders c =? 1 then SLast else SGone) t) Hi) as Hc.
    replace (alive_sender (at_pc (if senders c =? 1 then SLast else SGone) t)) with 0%nat in Hc
      by (by simpl; unfold alive_sender; destruct (_ =? _)).
    unfold alive_sender in Hc at 2; rewrite Hpc in Hc; simpl in Hc. destruct H as [Hv Hb Ht Hr].
    split; simpl; [| lia | | done].
    + rewrite Hv at 1. rewrite MAX_CAPACITY_value, Z.ones_equiv in Hn.
      rewrite wrap_small; [lia | unfold is_usize, usize_modulus; lia].
    + apply Forall_insert_thread; [done |]. by unfold thread_clone; simpl; destruct (_ =? _).
  - apply senders_signal, Hmove; unfold alive_sender; by rewrite ?Hpc.
Qed.

Lemma senders_unpark n c : senders_ok n c → senders_ok n (unpark_step c).
Proof.
  intros [Hv Hb Ht Hr]. destruct (unpark_frame c) as (Htal & HF & _ & _ & Hs & _ & _ & Hrc & _).
  split; rewrite ?Hs, ?Hrc, ?(Htal alive_sender) by done; try done. by apply HF.
Qed.

Lemma senders_receiver_step free rt n c c' :
  senders_ok n c → Z.of_nat n < MAX_CAPACITY → receiver_step free rt c c' → senders_ok (S n) c'.
Proof.
  intros H Hn Hs.
  assert (∀ c0, senders_ok n c0 → senders_ok (S n) c0) as Hup by (intros c0 []; split; [done | lia | done..]).
  assert (∀ r, (∀ b curr next, r = RSenderCas b curr next → next = wrap (curr + 1)) →
    senders_ok (S n) (set_receiver r c)) as Hrec.
  { intros r Hr. apply (senders_frame _ _ _ H); [done | done | apply H | done]. }
  assert (∀ b b0 curr next, rests (M := M) b = RSenderCas b0 curr next → next = wrap (curr + 1)) as Hrests
    by (by intros []).
  destruct Hs as [b Hr|m ms Hr Hm|Hr Hm|Hr|m Hr|curr m Hr|b Hr|b curr Hr|b curr next Hr|b q Hr _ _
    |b p ps Hr _|b Hr _|b Hr|curr Hr|p ps Hr _|Hr _|m ms Hr Hm|Hr Hm]; try (by apply Hrec); try (by apply Hrec, Hrests).
  - by destruct (Hrec (RUnpark m)).
  - unfold try_park_step. destruct (unparked _); [by destruct (Hrec RPop) | by destruct (Hrec RAsleep)].
  - by destruct (senders_unpark _ _ (Hup _ H)).
  - unfold dec_step, dec_num_messages_iter. destruct (_ =? _); [by destruct (Hrec RIdle) | by apply Hrec].
  - apply Hrec. unfold sender_load_step. destruct (clone_test _ _); [apply Hrests |].
    by intros ? ? ? [= -> -> ->].
  - unfold sender_cas_step. destruct (Z.eqb_spec (senders c) curr) as [<-|]; [| by apply Hrec].
    rewrite (senders_receiver _ _ H _ _ _ Hr).
    destruct (senders_more n c (threads c) (rests b) H Hn) as [? ? ? ?]; [done | apply H | apply Hrests | by split].
  - destruct (Hrec (if cap c <? q then RWake b else rests b)) as [? ? ? ?]; [| by split].
    destruct (_ <? _); [done | apply Hrests].
  - by apply Hup, senders_unpark.
  - unfold close_step. destruct (close_iter _) as [| |next u]; try by apply Hrec.
    destruct (_ =? _); [by destruct (Hrec RCloseWake) | by apply Hrec].
  - by apply Hup, senders_unpark.
  - by destruct (Hup _ H).
Qed.

Lemma reach_senders free rt n cap k c :
  reach free rt (start n cap) k c → Z.of_nat (n + k) ≤ MAX_CAPACITY → senders_ok (n + k) c.
Proof.
  induction 1 as [|k c c' Hr IH Hs]; intros Hk; [rewrite Nat.add_0_r; apply senders_start |].
  rewrite Nat.add_succ_r. destruct Hs as [i t c c' Hi Hs|c c' Hs].
  - eapply senders_sender_step; [apply IH; lia | lia | done..].
  - eapply senders_receiver_step; [apply IH; lia | lia | done..].
Qed.
End senders.

(** ** Waking the receiver *)

Section wake.
Context {M Task : Type} {build : Build} (rt : Task).
Implicit Types (c : Config M Task) (t : Thread M Task).

(** The receiver was told that there is nothing, and was not polled since. *)
Definition sleeping (r : rpc M) : bool :=
  match r with
  | RAsleep | RSender true _ | RSenderCas true _ _ | RWake true => true
  | _ => false
  end.

(** There is nothing to wake it for: no message, and no last sender that went. *)
Definition quiet c : Prop := msgs c = [] ∧ (senders c ≠ 0 ∨ alone c = true).

Record wake_ok c : Prop := mkWakeOk {
  wake_unparked : unparked (recv c) = true → recv_handle (recv c) = None;
  wake_handle (t' : Task) : recv_handle (recv c) = Some t' → t' = rt ∧ (quiet c ∨ signalling (threads c));
  wake_try_park : receiver c = RTryPark →
    unparked (recv c) = true ∨ msgs c = [] ∨ signalling (threads c);
  wake_asleep : sleeping (receiver c) = true → notified c = true ∨ recv_handle (recv c) = Some rt
}.

Lemma wake_start n cap : wake_ok (start n cap).
Proof. by split. Qed.

Lemma wake_frame c c' :
  wake_ok c → recv c' = recv c → notified c' = notified c →
  (quiet c → quiet c' ∨ signalling (threads c')) →
  (msgs c = [] → msgs c' = [] ∨ signalling (threads c')) →
  (signalling (threads c) → signalling (threads c')) →
  (receiver c' = RTryPark → receiver c = RTryPark) →
  (sleeping (receiver c') = true → sleeping (receiver c) = true) → wake_ok c'.
Proof.
  intros [Hu Hh Ht Ha] Hr Hn Hq Hm Hs Hrt Hsl. split; rewrite ?Hr, ?Hn; auto.
  - intros t' [-> [?|?]]%Hh; (split; [done |]); [auto | right; auto].
  - intros [?|[?|?]]%Hrt%Ht; [by left | right; auto | right; right; auto].
Qed.

Lemma wake_move c i t t' :
  wake_ok c → threads c !! i = Some t → (to_signal t → to_signal t') → wake_ok (set_thread i t' c).
Proof.
  intros H Hi Hs. apply (wake_frame _ _ H); simpl; auto.
  intros. by eapply signalling_insert.
Qed.

(** A thread signals and goes on. *)
Lemma wake_signal c i t' : wake_ok c → wake_ok (signal_step (set_thread i t' c)).
Proof.
  intros [Hu Hh Ht Ha]. unfold signal_step; simpl. destruct (unparked (recv c)) eqn:Hun.
  - split; simpl; [auto | intros ? Hx; by rewrite Hu in Hx | by left | done].
  - split; simpl; [done | done | by left |]. intros [->|Hr]%Ha; [by left | left].
    rewrite Hr. apply orb_true_r.
Qed.

Lemma wake_sender_step free n c c' i t :
  senders_ok n c → wake_ok c → Z.of_nat n < MAX_CAPACITY →
  threads c !! i = Some t → sender_step free i t c c' → wake_ok c'.
Proof.
  intros Hsn H Hn Hi Hs.
  assert (∀ t', (to_signal t → to_signal t') → wake_ok (set_thread i t' c)) as Hmove
    by (intros; by eapply wake_move).
  destruct Hs as [kd m Hpc _|current kd curr m Hpc|kd curr next m Hpc|m Hpc|Hpc|current Hpc|Hpc|Hpc
    |Hpc|curr Hpc|curr Hpc|curr next Hpc|Hpc|Hpc];
    try (by apply wake_signal); try (apply Hmove; unfold to_signal; by rewrite Hpc).
  - unfold cas_step. destruct (_ =? _); [| apply Hmove; unfold to_signal; by rewrite Hpc].
    destruct (Hmove (at_pc (SPush m) t)); [unfold to_signal; by rewrite Hpc | by split].
  - assert (signalling (<[i := at_pc SSignal t]> (threads c))) as Hsig by (by eapply signalling_here).
    apply (wake_frame _ _ H); simpl; auto.
  - destruct (Hmove (at_pc SParkCheck t)); [unfold to_signal; by rewrite Hpc | by split].
  - unfold clone_cas_step. destruct (Z.eqb_spec (senders c) curr) as [<-|];
      [| apply Hmove; unfold to_signal; by rewrite Hpc].
    pose proof (proj1 (Forall_lookup _ _) (senders_threads _ _ Hsn) _ _ Hi) as Ht.
    unfold thread_clone in Ht. rewrite Hpc in Ht. subst next. pose proof (senders_bound _ _ Hsn).
    apply (wake_frame _ _ H); simpl; auto.
    + intros [Hm _]. left. split; [done |]. left. simpl.
      rewrite (senders_value _ _ Hsn), wrap_small_nat by lia. lia.
    + intros. apply signalling_app. eapply signalling_insert; [done | unfold to_signal; by rewrite Hpc | done].
  - unfold drop_step. destruct (Z.eqb_spec (senders c) 1) as [H1|H1].
    + assert (signalling (<[i := at_pc SLast t]> (threads c))) as Hsig by (by eapply signalling_here).
      apply (wake_frame _ _ H); simpl; auto.
    + apply (wake_frame _ _ H); simpl; auto.
      * intros [Hm Ha]. left. split; [done |]. left. simpl.
        pose proof (tally_le alive_sender _ _ _ Hi) as Hal. unfold alive_sender in Hal at 1. rewrite Hpc in Hal.
        pose proof (senders_value _ _ Hsn) as Hv. pose proof (senders_bound _ _ Hsn).
        rewrite MAX_CAPACITY_value, Z.ones_equiv in Hn.
        rewrite wrap_small; [lia | unfold is_usize, usize_modulus; lia].
      * intros. eapply signalling_insert; [done | unfold to_signal; by rewrite Hpc | done].
Qed.

Lemma wake_unpark c : wake_ok c → wake_ok (unpark_step c).
Proof.
  intros H. destruct (unpark_frame c) as (_ & _ & _ & _ & Hs & Hm & Hr & Hrc & Hn & Hal & _ & Hsig).
  apply (wake_frame _ _ H); unfold quiet; rewrite ?Hs, ?Hm, ?Hrc, ?Hal; auto.
Qed.

Lemma wake_receiver c r :
  wake_ok c → r ≠ RTryPark → (sleeping r = true → sleeping (receiver c) = true) →
  wake_ok (set_receiver r c).
Proof. intros H Hr Hs. by apply (wake_frame _ _ H); simpl; auto. Qed.

Lemma sleeping_rests b r : r = rests b → sleeping r = b.
Proof. intros ->. by destruct b. Qed.

Lemma wake_try_park_step c : wake_ok c → receiver c = RTryPark → wake_ok (try_park_step rt c).
Proof.
  intros [Hu Hh Ht Ha] Hr. unfold try_park_step. destruct (unparked (recv c)) eqn:Hun.
  - by split; simpl; rewrite ?(Hu eq_refl).
  - split; simpl; try done; [| by right]. intros t' [= <-]. split; [done |].
    destruct (Ht Hr) as [?|[Hm|Hs]]; [done | | by right]. left. split; [done |]. simpl.
    destruct (Z.eqb_spec (senders c) 0); [by right | by left].
Qed.

Lemma wake_receiver_step free n c c' :
  senders_ok n c → wake_ok c → Z.of_nat n < MAX_CAPACITY → receiver_step free rt c c' → wake_ok c'.
Proof.
  intros Hsn H Hn Hs.
  assert (∀ r, r ≠ RTryPark → (sleeping r = true → sleeping (receiver c) = true) →
    wake_ok (set_receiver r c)) as Hrec by (intros; by apply wake_receiver).
  destruct Hs as [b Hr|m ms Hr Hm|Hr Hm|Hr|m Hr|curr m Hr|b Hr|b curr Hr|b curr next Hr|b q Hr _ _
    |b p ps Hr _|b Hr _|b Hr|curr Hr|p ps Hr _|Hr _|m ms Hr Hm|Hr Hm];
    try (by apply Hrec); try (by apply wake_unpark).
  - apply (wake_frame _ _ H); simpl; auto; unfold quiet; rewrite ?Hm; [by intros [? _] | done..].
  - destruct H as [Hu Hh Ht Ha]. split; simpl; try done. intros _. by right; left.
  - by apply wake_try_park_step.
  - by destruct (wake_unpark _ H).
  - unfold dec_step, dec_num_messages_iter. destruct (_ =? _); [by destruct (Hrec RIdle) | by apply Hrec].
  - apply Hrec; [done |]. rewrite (sleeping_rests _ _ Hr). by destruct b.
  - unfold sender_load_step. apply Hrec; destruct (clone_test _ _); rewrite ?Hr; by destruct b.
  - unfold sender_cas_step. destruct (Z.eqb_spec (senders c) curr) as [<-|];
      [| apply Hrec; rewrite ?Hr; by destruct b].
    rewrite (senders_receiver _ _ Hsn _ _ _ Hr). pose proof (senders_bound _ _ Hsn).
    apply (wake_frame _ _ H); simpl; auto.
    + intros [Hm _]. left. split; [done |]. left. simpl.
      rewrite (senders_value _ _ Hsn), wrap_small_nat by lia. lia.
    + intros. by apply signalling_app.
    + by destruct b.
    + rewrite Hr. by destruct b.
  - assert (wake_ok (set_receiver (if cap c <? q then RWake b else rests b) c)) as [? ? ? ?]; [| by split].
    apply Hrec; rewrite ?(sleeping_rests _ _ Hr); by destruct (_ <? _), b.
  - apply Hrec; rewrite ?Hr; by destruct b.
  - unfold close_step. destruct (close_iter _); try (by apply Hrec).
    destruct (_ =? _); [by destruct (Hrec RCloseWake) | by apply Hrec].
  - apply (wake_frame _ _ H); simpl; auto; unfold quiet; rewrite ?Hm; [by intros [? _] | done..].
Qed.

Lemma reach_wake free n cap k c :
  reach free rt (start n cap) k c → Z.of_nat (n + k) ≤ MAX_CAPACITY → wake_ok c.
Proof.
  induction 1 as [|k c c' Hr IH Hs]; intros Hk; [apply wake_start |].
  assert (senders_ok (n + k) c) as Hsn by (eapply reach_senders; [done | lia]).
  destruct Hs as [i t c c' Hi Hs|c c' Hs].
  - eapply wake_sender_step; [done | apply IH; lia | lia | done..].
  - eapply wake_receiver_step; [done | apply IH; lia | lia | done].
Qed.
End wake.

(** ** Parked senders *)

Section park.
Context {M Task : Type} {build : Build}.
Implicit Types (c : Config M Task) (t : Thread M Task).

(** A thread that has found itself not to be parked, or is about to park. *)
Definition unparking (p : spc M Task) : bool :=
  match p with
  | SLoaded KDo _ _ | SCas KDo _ _ _ => false
  | SLoaded _ _ _ | SCas _ _ _ _ | SPark _ | SParkPush | SParkCheck => true
  | _ => false
  end.
(** The dropped receiver has unparked everybody. *)
Definition past_wake (r : rpc M) : bool := match r with RDrain | RDead => true | _ => false end.

Record thread_parked (ps : list nat) (r : rpc M) (i : nat) t : Prop := mkThreadParked {
  parked_maybe : unparking (pc t) = true → maybe t = false;
  parked_queued : maybe t = true ∨ pc t = SParkCheck → is_parked (cell t) = true → i ∈ ps;
  parked_past : past_wake r = true → maybe t = true → is_parked (cell t) = false
}.
Definition park_ok c : Prop :=
  ∀ i t, threads c !! i = Some t → thread_parked (parked c) (receiver c) i t.

Lemma park_new ps r i : thread_parked ps r i (@new_thread M Task).
Proof. by split. Qed.

Lemma park_start n cap : park_ok (start n cap).
Proof. intros i t [-> _]%lookup_replicate. apply park_new. Qed.

Lemma park_frame c c' :
  park_ok c → threads c' = threads c → parked c' = parked c →
  (past_wake (receiver c') = true → past_wake (receiver c) = true) → park_ok c'.
Proof.
  intros H Ht Hp Hr i t. rewrite Ht, Hp. intros Hi. destruct (H i t Hi) as [H1 H2 H3].
  split; auto.
Qed.

Lemma park_move c i t' :
  park_ok c → thread_parked (parked c) (receiver c) i t' → park_ok (set_thread i t' c).
Proof. intros H Ht j u [[<- [<- _]]|[_ Hj]]%list_lookup_insert_Some; [done | by apply H]. Qed.

Lemma park_begin kd m c i t :
  thread_parked (parked c) (receiver c) i t → pc t = SIdle →
  thread_parked (parked c) (receiver c) i (begin_send kd m c t).
Proof.
  intros [H1 H2 H3] Hpc. assert (thread_parked (parked c) (receiver c) i
    (if maybe t && is_parked (cell t) then mkThread SIdle (maybe t) (mkSenderTask None true)
     else mkThread (SLoaded kd (word c) m) false (cell t))) as H.
  { destruct (maybe t) eqn:Hm, (is_parked (cell t)) eqn:Hc; simpl; split; simpl; auto; try done;
      by intros [?|?]. }
  destruct kd; [exact H | exact H |]. split; simpl; [done | | done]. intros [?|?]; [auto | done].
Qed.

Lemma park_signal c : park_ok c → park_ok (signal_step c).
Proof. intros H. apply (park_frame c); [done | unfold signal_step; by destruct (unparked _)..]. Qed.

Lemma park_sender_step free k c c' i t :
  word_ok k c → park_ok c → Z.of_nat k < MAX_CAPACITY →
  threads c !! i = Some t → sender_step free i t c c' → park_ok c'.
Proof.
  intros Hw H Hk Hi Hs. destruct (word_decode _ _ Hw Hk) as (Hd & _ & _).
  pose proof (H i t Hi) as [H1 H2 H3].
  assert (∀ p, (unparking p = true → maybe t = false) → (p = SParkCheck → is_parked (cell t) = true → i ∈ parked c) →
    park_ok (set_thread i (at_pc p t) c)) as Hmove.
  { intros p Hp Hc. apply park_move; [done |]. split; simpl; [done | | done]. intros [?|?]; auto. }
  destruct Hs as [kd m Hpc _|current kd curr m Hpc|kd curr next m Hpc|m Hpc|Hpc|current Hpc|Hpc|Hpc
    |Hpc|curr Hpc|curr Hpc|curr next Hpc|Hpc|Hpc]; try (by apply Hmove); try (by apply park_signal, Hmove).
  - apply park_move; [done |]. by apply park_begin.
  - apply Hmove; unfold load_step; destruct (inc_iter _ _ _) as [[[]|]| |]; try done;
      destruct kd; try done; intros _; apply H1; by rewrite Hpc.
  - unfold cas_step. destruct (_ =? _); [apply (park_frame (set_thread i (at_pc (SPush m) t) c));
      [by apply Hmove | done..] |]. apply Hmove; [| done]. destruct kd; try done; intros _; apply H1; by rewrite Hpc.
  - apply park_move; [done |]. assert (maybe t = false) as Hm by (apply H1; by rewrite Hpc).
    split; simpl; rewrite Hm; try done. by intros [?|?].
  - assert (maybe t = false) as Hm by (apply H1; by rewrite Hpc).
    intros j u [[<- [<- _]]|[_ Hj]]%list_lookup_insert_Some; simpl.
    + split; simpl; rewrite ?Hm; try done. intros _ _. apply elem_of_app. right. by left.
    + destruct (H j u Hj) as [U1 U2 U3]. split; [done | | done]. intros. apply elem_of_app. left. auto.
  - apply park_move; [done |]. rewrite Hd. split; simpl; [done | |].
    + intros _ Hc. apply H2; [by right | done].
    + by destruct (receiver c).
  - apply Hmove; unfold clone_step; by destruct (clone_test _ _).
  - apply Hmove; unfold clone_assert_step; by destruct (clone_assert _ _).
  - unfold clone_cas_step. destruct (_ =? _); [| by apply Hmove].
    intros j u [Hj|[-> ->]]%snoc_lookup_Some; [| apply park_new].
    apply (park_move c i (at_pc SIdle t) H); [split; simpl; [done | | done]; intros [?|?]; [auto | done] | done].
  - unfold drop_step. apply (park_frame (set_thread i (at_pc (if senders c =? 1 then SLast else SGone) t) c));
      [| done..]. apply Hmove; by destruct (_ =? _).
Qed.

Lemma park_unpark c :
  park_ok c → past_wake (receiver c) = false → park_ok (unpark_step c).
Proof.
  intros H Hpast. unfold unpark_step. destruct (parked c) as [|p ps] eqn:Hps; [done |].
  assert (∀ j u, threads c !! j = Some u → j ≠ p → thread_parked ps (receiver c) j u) as Hother.
  { intros j u Hj Hne. destruct (H j u Hj) as [H1 H2 H3]. split; [done | | done].
    intros Hm Hc. specialize (H2 Hm Hc). rewrite Hps in H2. by apply elem_of_cons in H2 as [?|?]. }
  destruct (threads c !! p) as [t|] eqn:Hp.
  - intros j u [[<- [<- _]]|[Hne Hj]]%list_lookup_insert_Some; [| by apply Hother].
    destruct (H p t Hp) as [H1 H2 H3]. by split.
  - intros j u Hj. simpl in Hj. apply Hother; [done |]. intros Heq. congruence.
Qed.

Lemma park_receiver_step free rt c c' :
  park_ok c → receiver_step free rt c c' → park_ok c'.
Proof.
  intros H Hs.
  assert (∀ r, past_wake r = false → park_ok (set_receiver r c)) as Hrec.
  { intros r Hr. apply (park_frame c); [done..|]. simpl. by rewrite Hr. }
  assert (∀ b, past_wake (rests (M := M) b) = false) as Hrests by (by intros []).
  destruct Hs as [b Hr|m ms Hr Hm|Hr Hm|Hr|m Hr|curr m Hr|b Hr|b curr Hr|b curr next Hr|b q Hr _ _
    |b p ps Hr _|b Hr _|b Hr|curr Hr|p ps Hr _|Hr Hp|m ms Hr Hm|Hr Hm];
    try (by apply Hrec); try (by apply Hrec, Hrests); try (by apply park_unpark; rewrite ?Hr).
  - unfold try_park_step. destruct (unparked _); [by apply (Hrec RPop) | by apply (Hrec RAsleep)].
  - apply (park_frame (unpark_step c)); [by apply park_unpark; rewrite ?Hr | done..].
  - unfold dec_step, dec_num_messages_iter. destruct (_ =? _); [by apply (Hrec RIdle) | by apply Hrec].
  - apply Hrec. unfold sender_load_step. destruct (clone_test _ _); by destruct b.
  - unfold sender_cas_step. destruct (_ =? _); [| by apply Hrec].
    intros j u [Hj|[-> ->]]%snoc_lookup_Some; [| apply park_new]. by apply (Hrec (rests b)).
  - apply (park_frame (set_receiver (if cap c <? q then RWake b else rests b) c)); [| done..].
    apply Hrec. by destruct (_ <? _), b.
  - unfold close_step. destruct (close_iter _); try (by apply Hrec).
    destruct (_ =? _); [by apply (Hrec RCloseWake) | by apply Hrec].
  - intros i t Hi. destruct (H i t Hi) as [H1 H2 H3]. split; [done.. |]. intros _ Hmt.
    destruct (is_parked (cell t)) eqn:Hc; [| done]. specialize (H2 (or_introl Hmt) eq_refl).
    rewrite Hp in H2. by apply elem_of_nil in H2.
  - by apply (park_frame c).
  - apply (park_frame c); [done..|]. simpl. by rewrite Hr.
Qed.

Lemma reach_park free rt n cap k c :
  reach free rt (start n cap) k c → Z.of_nat k ≤ MAX_CAPACITY → park_ok c.
Proof.
  induction 1 as [|k c c' Hr IH Hs]; intros Hk; [apply park_start |].
  destruct Hs as [i t c c' Hi Hs|c c' Hs].
  - eapply park_sender_step; [eapply reach_word; [done | lia] | apply IH; lia | lia | done..].
  - eapply park_receiver_step; [apply IH; lia | done].
Qed.
End park.

(** ** The capacity, without [do_send] and [set_capacity] *)

Section bounded.
Context {M Task : Type} {build : Build} (k : Z) (k_pos : 0 < k).
Implicit Types (c : Config M Task) (t : Thread M Task).

Definition thread_bounded t : Prop :=
  match pc t with
  | SLoaded KDo _ _ | SCas KDo _ _ _ => False
  | SCas _ curr _ _ => num_messages (decode_state curr) < k
  | _ => True
  end.
Record bounded c : Prop := mkBounded {
  bounded_cap : cap c = k;
  bounded_counted : Z.of_nat (counted c) ≤ k;
  bounded_threads : Forall thread_bounded (threads c)
}.

Lemma bounded_frame c c' :
  bounded c → cap c' = cap c → (counted c' ≤ counted c)%nat → Forall thread_bounded (threads c') → bounded c'.
Proof. intros [Hc Hn Ht] Hc' Hn' Ht'. split; [congruence | lia | done]. Qed.

Lemma bounded_move c i t t' :
  bounded c → threads c !! i = Some t → (pushing t' ≤ pushing t)%nat → thread_bounded t' →
  bounded (set_thread i t' c).
Proof.
  intros H Hi Hp Ht. pose proof (tally_insert pushing _ _ _ t' Hi) as Hc.
  apply (bounded_frame _ _ H); [done | unfold counted; simpl; lia |].
  apply Forall_insert_thread; [apply H | done].
Qed.

Lemma bounded_signal c : bounded c → bounded (signal_step c).
Proof. intros H. unfold signal_step. destruct (unparked _); [done |]. by destruct H. Qed.

Lemma bounded_cas n c i kd curr next m t :
  word_ok n c → Z.of_nat n < MAX_CAPACITY → bounded c → threads c !! i = Some t →
  pc t = SCas kd curr next m → bounded (cas_step i kd curr next m t c).
Proof.
  intros Hw Hn H Hi Hpc. destruct (word_decode _ _ Hw Hn) as (Hd & _ & _).
  pose proof (proj1 (Forall_lookup _ _) (bounded_threads _ H) _ _ Hi) as Ht.
  unfold thread_bounded in Ht. rewrite Hpc in Ht. unfold cas_step.
  destruct (Z.eqb_spec (word c) curr) as [<-|].
  - rewrite Hd in Ht. cbn [num_messages] in Ht.
    pose proof (tally_insert pushing _ _ _ (at_pc (SPush m) t) Hi) as Hc.
    unfold pushing in Hc at 2 4; rewrite Hpc in Hc; simpl in Hc. destruct H as [Hcap Hle HF].
    split; [done | | by apply Forall_insert_thread].
    assert (Z.of_nat (counted c) < k) by (by destruct kd). unfold counted in *; simpl. lia.
  - apply (bounded_move _ _ _ _ H Hi); [unfold pushing; by rewrite Hpc |].
    unfold thread_bounded; simpl. by destruct kd.
Qed.

Lemma bounded_load c i current kd curr m t :
  bounded c → threads c !! i = Some t → pc t = SLoaded kd curr m →
  thread_bounded (at_pc (load_step current kd curr m c) t).
Proof.
  intros H Hi Hpc. pose proof (proj1 (Forall_lookup _ _) (bounded_threads _ H) _ _ Hi) as Ht.
  unfold thread_bounded in Ht. rewrite Hpc in Ht. unfold load_step, inc_iter.
  assert (kd ≠ KDo) as Hkd by (by intros ->).
  replace (match kd with KDo => inc_num_messages_force_iter (cap c) curr | _ => inc_num_messages_iter (cap c) curr end)
    with (inc_num_messages_iter (cap c) curr) by (by destruct kd).
  unfold inc_num_messages_iter. destruct (negb _); [done |].
  destruct (is_full (cap c) (decode_state curr)) eqn:Hf; [by destruct kd |].
  unfold is_full in Hf. rewrite (bounded_cap _ H), andb_false_iff, negb_false_iff, Z.eqb_eq, Z.leb_gt in Hf.
  assert (num_messages (decode_state curr) < k) by lia. by destruct kd.
Qed.

Lemma bounded_sender_step n c c' i t :
  word_ok n c → Z.of_nat n < MAX_CAPACITY → bounded c →
  threads c !! i = Some t → sender_step false i t c c' → bounded c'.
Proof.
  intros Hw Hn H Hi Hs.
  assert (∀ t', (pushing t' ≤ pushing t)%nat → thread_bounded t' → bounded (set_thread i t' c)) as Hmove
    by (intros; by eapply bounded_move).
  destruct Hs as [kd m Hpc Hkd|current kd curr m Hpc|kd curr next m Hpc|m Hpc|Hpc|current Hpc|Hpc|Hpc
    |Hpc|curr Hpc|curr Hpc|curr next Hpc|Hpc|Hpc]; 
    try (apply Hmove; unfold pushing, thread_bounded; simpl; solve [done | lia]);
    try (apply bounded_signal, Hmove; unfold pushing, thread_bounded; simpl; solve [done | lia]).
  - apply Hmove; unfold pushing, thread_bounded, begin_send; destruct kd; simpl; try (by destruct (maybe t && _); simpl; lia || done).
    + lia.
    + by specialize (Hkd eq_refl).
  - apply Hmove; [| by eapply bounded_load]. unfold pushing at 1; simpl. unfold load_step.
    destruct (inc_iter _ _ _) as [[[]|]| |]; try lia. destruct kd; lia.
  - by eapply bounded_cas.
  - pose proof (tally_insert pushing _ _ _ (at_pc SSignal t) Hi) as Hc.
    unfold pushing in Hc at 2 4; rewrite Hpc in Hc; simpl in Hc.
    apply (bounded_frame _ _ H); [done | |].
    + unfold counted; simpl. rewrite length_app. simpl. lia.
    + apply Forall_insert_thread; [apply H | exact I].
  - destruct (Hmove (at_pc SParkCheck t)) as [? ? ?]; [unfold pushing; simpl; lia | done | by split].
  - apply Hmove; unfold pushing, thread_bounded, clone_step; simpl; destruct (clone_test _ _); done || lia.
  - apply Hmove; unfold pushing, thread_bounded, clone_assert_step; simpl; destruct (clone_assert _ _); done || lia.
  - unfold clone_cas_step. destruct (_ =? _); [| apply Hmove; unfold pushing; simpl; done || lia].
    pose proof (tally_insert pushing _ _ _ (at_pc SIdle t) Hi) as Hc.
    unfold pushing in Hc at 2 4; rewrite Hpc in Hc; simpl in Hc.
    apply (bounded_frame _ _ H); [done | |].
    + unfold counted; simpl. rewrite tally_app. change (tally pushing [new_thread]) with 0%nat. lia.
    + apply Forall_app. split; [apply Forall_insert_thread; [apply H | exact I] | by repeat constructor].
  - apply (bounded_frame (set_thread i (at_pc (if senders c =? 1 then SLast else SGone) t) c)); [| done | done |].
    + apply Hmove; unfold pushing, thread_bounded; simpl; destruct (_ =? _); done || lia.
    + simpl. apply Forall_insert_thread; [apply H |]. unfold thread_bounded; simpl. by destruct (_ =? _).
Qed.

Lemma bounded_unpark c : bounded c → bounded (unpark_step c).
Proof.
  intros H. pose proof (unpark_counted c) as Hc. destruct (unpark_frame c) as (_ & HF & _ & Hcap & _).
  apply (bounded_frame _ _ H); [done | lia |]. apply HF; [done | apply H].
Qed.

Lemma bounded_receiver_step rt c c' : bounded c → receiver_step false rt c c' → bounded c'.
Proof.
  intros H Hs.
  assert (∀ r, (in_flight r ≤ in_flight (receiver c))%nat → bounded (set_receiver r c)) as Hrec.
  { intros r Hr. apply (bounded_frame _ _ H); [done | unfold counted; simpl; lia | apply H]. }
  destruct Hs as [b Hr|m ms Hr Hm|Hr Hm|Hr|m Hr|curr m Hr|b Hr|b curr Hr|b curr next Hr|b q Hr Hf _
    |b p ps Hr _|b Hr _|b Hr|curr Hr|p ps Hr _|Hr Hp|m ms Hr Hm|Hr Hm];
    try (by apply Hrec; rewrite ?Hr); try (apply Hrec; simpl; lia); try (by apply bounded_unpark); try done.
  - apply (bounded_frame _ _ H); [done | | apply H]. unfold counted; simpl. rewrite Hr, Hm. simpl. lia.
  - unfold try_park_step. destruct (unparked _);
      [by destruct (Hrec RPop ltac:(simpl; lia)) | by destruct (Hrec RAsleep ltac:(simpl; lia))].
  - destruct (unpark_frame c) as (_ & _ & _ & _ & _ & _ & _ & Hr' & _).
    apply (bounded_frame _ _ (bounded_unpark _ H)); [done | | apply (bounded_unpark _ H)].
    unfold counted; simpl. rewrite Hr', Hr. simpl. lia.
  - unfold dec_step, dec_num_messages_iter. destruct (_ =? _); [| apply Hrec; by rewrite Hr].
    by destruct (Hrec RIdle ltac:(simpl; lia)).
  - apply Hrec. unfold sender_load_step. destruct (clone_test _ _); destruct b; simpl; lia.
  - unfold sender_cas_step. destruct (_ =? _); [| apply Hrec; simpl; lia].
    apply (bounded_frame _ _ H); [done | |].
    + unfold counted; simpl. rewrite tally_app. change (tally pushing [new_thread]) with 0%nat.
      destruct b; simpl; lia.
    + simpl. apply Forall_app. split; [apply H | by repeat constructor].
  - apply Hrec. destruct b; simpl; lia.
  - unfold close_step. destruct (close_iter _); try (apply Hrec; simpl; lia).
    destruct (_ =? _); [by destruct (Hrec RCloseWake ltac:(simpl; lia)) | apply Hrec; simpl; lia].
  - apply (bounded_frame _ _ H); [done | | apply H]. unfold counted; simpl. rewrite Hm, length_app. simpl. lia.
Qed.

Lemma reach_bounded rt n m c :
  reach false rt (start n k) m c → Z.of_nat m ≤ MAX_CAPACITY → bounded c.
Proof.
  induction 1 as [|m c c' Hr IH Hs]; intros Hm.
  - split; [done | | apply Forall_replicate; exact I].
    pose proof (word_counted _ _ (word_start (M := M) (Task := Task) n k)). lia.
  - destruct Hs as [i t c c' Hi Hs|c c' Hs].
    + eapply bounded_sender_step; [eapply reach_word; [done | lia] | lia | apply IH; lia | done..].
    + eapply bounded_receiver_step; [apply IH; lia | done].
Qed.
End bounded.

(** ** The properties *)

Section properties.
Context {M Task : Type} {build : Build}.
Implicit Types (c : Config M Task) (t : Thread M Task).

(** C10: the packed state word and the number of senders are never corrupted by
    the races of the compare-exchange loops: after any interleaving the word is
    open until the receiver closes it, and counts the queued messages, those a
    sender has counted but not pushed yet, the one the receiver has popped but
    not uncounted yet, and those it threw away when it was dropped; the number of
    senders is that of the senders that were not dropped.  Without [do_send] and
    [set_capacity] the total, and so the queue, never exceeds a capacity [k > 0]. *)
Theorem conc_state_word free rt n k m c :
  0 < k →
  reach free rt (start n k) m c → Z.of_nat (n + m) ≤ MAX_CAPACITY →
  decode_state (word c) = mkState (open (receiver c)) (Z.of_nat (length (msgs c) +
    tally pushing (threads c) + in_flight (receiver c) + length (lost c))) ∧
  senders c = Z.of_nat (tally alive_sender (threads c)) ∧
  (free = false → Z.of_nat (length (msgs c) + tally pushing (threads c) +
    in_flight (receiver c) + length (lost c)) ≤ k).
Proof.
  intros Hk Hr Hm. split_and!.
  - pose proof (reach_word _ _ _ _ _ _ Hr ltac:(lia)) as H.
    rewrite (word_value _ _ H). apply decode_encode_state. cbn [num_messages].
    pose proof (word_counted _ _ H). unfold counted in *. lia.
  - apply (senders_value (n + m)). by eapply reach_senders.
  - intros ->. apply (bounded_counted k c). eapply reach_bounded; [done | done | lia].
Qed.

(** C11: the receiver never sleeps for ever on a message, or on the news that the
    last sender is gone.  If it was told that there is nothing, and there is a
    message in the queue or the last sender was dropped since, then its task was
    notified since, or some sender is about to signal, and its signal will
    notify it. *)
Theorem conc_receiver_woken free rt n k m c :
  reach free rt (start n k) m c → Z.of_nat (n + m) ≤ MAX_CAPACITY →
  sleeping (receiver c) = true → msgs c ≠ [] ∨ (senders c = 0 ∧ alone c = false) →
  notified c = true ∨
  ∃ i t, threads c !! i = Some t ∧ to_signal t ∧
    ∀ t', notified (signal_step (set_thread i t' c)) = true.
Proof.
  intros Hr Hm Ha Hne. pose proof (reach_wake _ _ _ _ _ _ Hr Hm) as H.
  destruct (wake_asleep _ _ H Ha) as [?|Hh]; [by left | right].
  destruct (wake_handle _ _ H _ Hh) as [_ [[Hq1 Hq2]|(i & t & Hi & Hpc)]].
  { destruct Hne as [?|[Hs Hal]]; [done |]. rewrite Hs, Hal in Hq2. by destruct Hq2. }
  exists i, t. split_and!; [done | done |]. intros t'. unfold signal_step; simpl.
  destruct (unparked (recv c)) eqn:Hu.
  - by rewrite (wake_unparked _ _ H Hu) in Hh.
  - simpl. rewrite Hh. apply orb_true_r.
Qed.

(** C12: once the dropped receiver has woken the parked senders, no sender is
    turned away for being parked: whatever it sends next, in whichever way, is
    answered [Closed]. *)
Theorem conc_closed free rt n cap m c i t kd x :
  reach free rt (start n cap) m c → Z.of_nat (n + m) ≤ MAX_CAPACITY →
  past_wake (receiver c) = true → threads c !! i = Some t → pc t = SIdle →
  pc (begin_send kd x c t) = SLoaded kd (word c) x ∧
  ∀ k, inc_iter kd k (word c) = CasReturn None.
Proof.
  intros Hr Hm Hp Hi Hpc. pose proof (reach_park _ _ _ _ _ _ Hr ltac:(lia) i t Hi) as [_ _ Hmt].
  specialize (Hmt Hp). pose proof (reach_word _ _ _ _ _ _ Hr ltac:(lia)) as Hw. split.
  - unfold begin_send. destruct kd; [| |done]; destruct (maybe t); [|done| |done]; by rewrite Hmt.
  - intros k. assert (is_open (decode_state (word c)) = false) as Ho.
    { rewrite (word_value _ _ Hw), decode_encode_state; [by destruct (receiver c) |]. cbn [num_messages].
      pose proof (word_counted _ _ Hw). lia. }
    unfold inc_iter, inc_num_messages_iter, inc_num_messages_force_iter. rewrite Ho. by destruct kd.
Qed.

(** A receiver that only polls, and a thread that is not sending. *)
Definition polls (r : rpc M) : Prop :=
  match r with RIdle | RAsleep | RPop | RTryPark | RUnpark _ | RDec _ _ => True | _ => False end.
Definition sending (p : spc M Task) : bool :=
  match p with
  | SIdle | SClone _ | SCloneAssert _ | SCloneCas _ _ | SLast | SGone => false
  | _ => true
  end.

(** Anything happens but that a sender other than [j] sends, or that the receiver
    does something else than to poll. *)
Definition lull_step rt (j : nat) c c' : Prop :=
  step false rt c c' ∧ polls (receiver c') ∧
  ∀ i t, i ≠ j → threads c' !! i = Some t → sending (pc t) = false.

(** Sender [j] is parked and there is nothing to do. *)
Definition sleeper t : Prop := maybe t = true ∧ is_parked (cell t) = true ∧ sending (pc t) = false.
Record stranded (j : nat) c : Prop := mkStranded {
  stranded_msgs : msgs c = [];
  stranded_woken : woken c = [];
  stranded_receiver : polls (receiver c) ∧ in_flight (receiver c) = 0%nat;
  stranded_quiet : ∀ i t, threads c !! i = Some t → sending (pc t) = false;
  stranded_parked : ∃ t, threads c !! j = Some t ∧ sleeper t
}.

Lemma sleeper_insert j i t t' (ts : list (Thread M Task)) u :
  ts !! i = Some t → (sleeper t → sleeper t') → ts !! j = Some u → sleeper u →
  ∃ u', <[i := t']> ts !! j = Some u' ∧ sleeper u'.
Proof.
  intros Hi Ht Hj Hu. destruct (decide (i = j)) as [->|Hne].
  - exists t'. rewrite list_lookup_insert_eq by (by eapply lookup_lt_Some). simplify_eq. auto.
  - exists u. by rewrite list_lookup_insert_ne.
Qed.

Lemma sleeper_begin k m c t : k ≠ KDo → sleeper t → sleeper (begin_send k m c t).
Proof. intros Hk (Hm & Hp & Hq). unfold begin_send. rewrite Hm, Hp. by destruct k. Qed.

(** A step of a thread that is not sending. *)
Lemma quiet_sender_step j i t c c' :
  threads c !! i = Some t → sending (pc t) = false → sender_step false i t c c' →
  msgs c' = msgs c ∧ woken c' = woken c ∧ receiver c' = receiver c ∧
  ∀ u, threads c !! j = Some u → sleeper u → ∃ u', threads c' !! j = Some u' ∧ sleeper u'.
Proof.
  intros Hi Hq Hs.
  destruct Hs as [kd m Hpc Hk|current kd curr m Hpc|kd curr next m Hpc|m Hpc|Hpc|current Hpc|Hpc|Hpc
    |Hpc|curr Hpc|curr Hpc|curr next Hpc|Hpc|Hpc]; rewrite Hpc in Hq; try done.
  - split_and!; try done. intros u. apply (sleeper_insert _ _ _ _ _ _ Hi). apply sleeper_begin.
    intros E. by specialize (Hk E).
  - split_and!; try done. intros u. apply (sleeper_insert _ _ _ _ _ _ Hi). by intros (? & ? & _).
  - split_and!; try done. intros u. apply (sleeper_insert _ _ _ _ _ _ Hi). intros (? & ? & _).
    split_and!; try done. unfold clone_step; simpl. by destruct (clone_test _ _).
  - split_and!; try done. intros u. apply (sleeper_insert _ _ _ _ _ _ Hi). intros (? & ? & _).
    split_and!; try done. unfold clone_assert_step; simpl. by destruct (clone_assert _ _).
  - unfold clone_cas_step. destruct (_ =? _); split_and!; try done; intros u Hj Hu.
    + destruct (sleeper_insert j i t (at_pc SIdle t) _ u Hi) as (u' & Hu' & Hs'); [by intros (? & ? & _) | done | done |].
      exists u'. split; [by apply lookup_app_l_Some | done].
    + revert Hj Hu. apply (sleeper_insert _ _ _ _ _ _ Hi). by intros (? & ? & _).
  - split_and!; try done. intros u. apply (sleeper_insert _ _ _ _ _ _ Hi). intros (? & ? & _).
    split_and!; try done. simpl. by destruct (_ =? _).
  - unfold signal_step. destruct (unparked _); split_and!; try done; intros u;
      apply (sleeper_insert _ _ _ _ _ _ Hi); by intros (? & ? & _).
Qed.

(** A step of a receiver that polls an empty channel. *)
Lemma quiet_receiver_step rt c c' :
  receiver_step false rt c c' → polls (receiver c') → msgs c = [] → polls (receiver c) →
  in_flight (receiver c) = 0%nat →
  msgs c' = [] ∧ threads c' = threads c ∧ woken c' = woken c ∧ in_flight (receiver c') = 0%nat.
Proof.
  intros Hs Hp Hm Hr Hf.
  destruct Hs as [b Hb|m ms Hb Hm'|Hb Hm'|Hb|m Hb|curr m Hb|b Hb|b curr Hb|b curr next Hb|b q Hb Hfr _
    |b p ps Hb _|b Hb _|b Hb|curr Hb|p ps Hb _|Hb Hp'|m ms Hb Hm'|Hb Hm'];
    rewrite ?Hb in Hr, Hf; simpl in *; try done; try congruence.
  unfold try_park_step. by destruct (unparked _).
Qed.

Lemma lull_stranded rt j c c' : rtc (lull_step rt j) c c' → stranded j c → stranded j c'.
Proof.
  induction 1 as [c|c c1 c2 (Hs & Hp & Ho) _ IH]; [done |]. intros [Hm Hw [Hr Hf] Hq (u & Hj & Hu)].
  apply IH. clear IH. inversion Hs as [i t c0 c0' Hi Hs'|c0 c0' Hs']; subst.
  - destruct (quiet_sender_step j i t c c1 Hi (Hq _ _ Hi) Hs') as (Hm1 & Hw1 & Hr1 & Hj1).
    destruct (Hj1 u Hj Hu) as (u' & Hj' & Hu').
    split; rewrite ?Hm1, ?Hw1, ?Hr1; try done; [| by exists u'].
    intros k t' Hk. destruct (decide (k = j)) as [->|Hne]; [| by eapply Ho].
    simplify_eq. apply Hu'.
  - destruct (quiet_receiver_step rt c c1 Hs' Hp Hm Hr Hf) as (Hm1 & Ht1 & Hw1 & Hf1).
    split; rewrite ?Ht1, ?Hw1; try done. by exists u.
Qed.

(** Nobody notifies a sender any more once the receiver is gone. *)
Lemma dead_quiet free rt c c' :
  rtc (step free rt) c c' → receiver c = RDead → receiver c' = RDead ∧ woken c' = woken c.
Proof.
  induction 1 as [c|c c1 c2 Hs _ IH]; intros Hr; [done |].
  assert (receiver c1 = RDead ∧ woken c1 = woken c) as [Hr1 <-]; [| by apply IH].
  destruct Hs as [i t c c1 Hi Hs|c c1 Hs].
  - destruct Hs; simpl; try done; unfold cas_step, signal_step, clone_cas_step; simpl;
      by repeat case_match.
  - destruct Hs; try congruence; repeat match goal with b : bool |- _ => destruct b end;
      simpl in *; congruence.
Qed.

Lemma reach_sender free rt (c0 : Config M Task) n c i t c' :
  reach free rt c0 n c → threads c !! i = Some t → sender_step free i t c c' →
  reach free rt c0 (S n) c'.
Proof. intros Hr Hi Hs. eapply reach_step; [done |]. by eapply step_sender. Qed.

Lemma reach_receiver free rt (c0 : Config M Task) n c c' :
  reach free rt c0 n c → receiver_step free rt c c' → reach free rt c0 (S n) c'.
Proof. intros Hr Hs. eapply reach_step; [done |]. by eapply step_receiver. Qed.
End properties.

(** Concrete runs, action by action. *)
Tactic Notation "sender" constr(i) uconstr(s) :=
  match goal with H : reach _ _ _ _ _ |- _ =>
    eapply (reach_sender _ _ _ _ _ i) in H; [| reflexivity | eapply s; (reflexivity || discriminate)];
    vm_compute in H end.
Tactic Notation "polls" uconstr(s) :=
  match goal with H : reach _ _ _ _ _ |- _ =>
    eapply reach_receiver in H; [| eapply s; reflexivity];
    vm_compute in H end.

(** *** Lost wake-ups *)

Section stranded.
Context {M Task : Type} {build : Build} (rt ta tb : Task) (m0 m1 : M).

(** Two senders on a channel of capacity 1.  The first fills it.  The second
    finds it full; before it reaches the parked queue, the receiver takes the
    message, finds nobody to unpark, and goes to sleep on the empty channel.
    Then the second sender parks. *)
Definition stranded_config : Config M Task :=
  mkConfig INIT_STATE 1 2 [] [1%nat] (mkReceiverTask false (Some rt))
    [mkThread SIdle false (mkSenderTask None false);
     mkThread SIdle true (mkSenderTask (Some tb) true)] RAsleep false false [] [m0] [].

Lemma stranded_reached : reach false rt (start 2 1) 19 stranded_config.
Proof.
  pose proof (reach_refl false rt (start (M := M) (Task := Task) 2 1)) as H.
  vm_compute in H.
  sender 0%nat (step_begin _ _ _ _ KSend m0). sender 0%nat (step_load _ _ _ _ ta).
  sender 0%nat step_cas. sender 0%nat step_push. sender 0%nat step_signal.
  sender 1%nat (step_begin _ _ _ _ KSend m1). sender 1%nat (step_load _ _ _ _ tb).
  polls (step_poll _ _ _ false). polls step_pop_data. polls step_unpark. polls step_dec.
  polls (step_poll _ _ _ false). polls step_pop_empty. polls step_try_park.
  polls step_pop_empty. polls step_try_park.
  sender 1%nat step_park. sender 1%nat step_park_push. sender 1%nat step_park_check.
  exact H.
Qed.

(** A sender finds the channel full; before it reaches the parked queue the
    receiver is dropped.  Then the sender parks. *)
Definition closed_config : Config M Task :=
  mkConfig 1 1 1 [] [0%nat] (mkReceiverTask true None)
    [mkThread SIdle false (mkSenderTask (Some ta) true)] RDead false false [] [] [m0].

Lemma closed_reached : reach false rt (start 1 1) 15 closed_config.
Proof.
  pose proof (reach_refl false rt (start (M := M) (Task := Task) 1 1)) as H.
  vm_compute in H.
  sender 0%nat (step_begin _ _ _ _ KSend m0). sender 0%nat (step_load _ _ _ _ ta).
  sender 0%nat step_cas. sender 0%nat step_push. sender 0%nat step_signal.
  sender 0%nat (step_begin _ _ _ _ KSend m1). sender 0%nat (step_load _ _ _ _ ta).
  polls (step_close _ _ _ false). polls step_close_cas. polls step_close_woken.
  polls step_drain. polls step_drained.
  sender 0%nat step_park. sender 0%nat step_park_push. sender 0%nat step_park_check.
  exact H.
Qed.

End stranded.

(** ** Witnesses *)

#[local] Instance conc_demo_build : Build := true.

(** The receiver falls asleep on an empty channel, then a sender pushes. *)
Definition pushed_config : Config Z nat :=
  mkConfig (INIT_STATE + 1) 1 1 [7] [] (mkReceiverTask false (Some 9%nat))
    [mkThread SSignal false (mkSenderTask None false)] RAsleep false false [] [] [].

Lemma pushed_reached : reach false 9%nat (start 1 1) 7 pushed_config.
Proof.
  pose proof (reach_refl false 9%nat (start (M := Z) (Task := nat) 1 1)) as H.
  vm_compute in H.
  polls (step_poll _ _ _ false). polls step_pop_empty. polls step_try_park.
  sender 0%nat (step_begin _ _ _ _ KSend 7). sender 0%nat (step_load _ _ _ _ 4%nat).
  sender 0%nat step_cas. sender 0%nat step_push.
  exact H.
Qed.

Lemma conc_state_word_witness :
  decode_state (word pushed_config) = mkState true 1 ∧ senders pushed_config = 1 ∧
  (Z.of_nat (length (msgs pushed_config) + tally pushing (threads pushed_config) +
             in_flight (receiver pushed_config) + length (lost pushed_config)) ≤ 1).
Proof.
  destruct (conc_state_word false 9%nat 1 1 7 pushed_config) as (Hw & Hs & Hb);
    [lia | exact pushed_reached | rewrite MAX_CAPACITY_value; vm_compute; discriminate |].
  split; [exact Hw | split; [exact Hs | exact (Hb eq_refl)]].
Defined.

Lemma conc_receiver_woken_witness :
  notified pushed_config = true ∨
  ∃ i t, threads pushed_config !! i = Some t ∧ to_signal t ∧
    ∀ t', notified (signal_step (set_thread i t' pushed_config)) = true.
Proof.
  apply (conc_receiver_woken false 9%nat 1 1 7 pushed_config);
    [exact pushed_reached | rewrite MAX_CAPACITY_value; vm_compute; discriminate |
     reflexivity | left; discriminate].
Defined.

Lemma conc_closed_witness :
  inc_iter KTry 1 (word (closed_config (M := Z) 4%nat 7)) = CasReturn None.
Proof.
  apply (conc_closed false 9%nat 1 1 15 (closed_config (M := Z) 4%nat 7) 0%nat
    (mkThread SIdle false (mkSenderTask (Some 4%nat) true)) KTry 8
    (closed_reached 9%nat 4%nat 7 8));
    [rewrite MAX_CAPACITY_value; vm_compute; discriminate | reflexivity | reflexivity | reflexivity].
Defined.
