(* ===== verification/Mailbox.v ===== *)
(** * The mailbox of an actor: [src/mailbox.rs]

    A mailbox holds the receivers of the two channels.  [poll] hands messages to
    the actor until none is left or the context starts to wait.  Handlers are
    user code that can reach the mailbox again through the context, so [poll]
    runs on the whole state [W] the handlers run on, and finds the mailbox in it
    by [get] and [put].

    The class [AddrReceiver] is what [poll] needs of a receiver; both channels
    are instances. *)

From S2P Require Import Prelude.
From S2P Require Import Queue.
From S2P Require Import Envelope.
From S2P Require Import UnsyncChannel.
From S2P Require Import SyncChannel.
From S2P Require Import SyncChannelSpec.

(** Maximum number of consecutive polls in a loop. *)
Definition MAX_SYNC_POLLS : Z := 256.
(** Default address channel capacity. *)
Definition DEFAULT_CAPACITY : Z := 16.

(** ** The interface of a receiver *)

(** [rx_holds r es]: the receiver [r] is alive and holds the envelopes [es]. *)
Class AddrReceiver (R E Task : Type) : Type := {
  rx_poll : Task → Prog R Task (Poll (option E) ());
  rx_holds : R → list E → Prop;
  rx_poll_cons t r e es :
    rx_holds r (e :: es) →
    ∃ r' w, rx_poll t r = Return (Ok (Ready (Some e)), r', w) ∧ rx_holds r' es;
  rx_poll_nil t r :
    rx_holds r [] →
    ∃ x r' w, rx_poll t r = Return (x, r', w) ∧ rx_holds r' [] ∧
              match x with Ok (Ready (Some _)) => False | _ => True end
}.

Section receivers.
Context {M Tx Task : Type}.

#[export] Program Instance unsync_receiver :
    AddrReceiver (Chan (M := M) (Tx := Tx) (Task := Task)) (Envelope M Tx) Task := {|
  rx_poll := UnsyncChannel.poll;
  rx_holds c es := strong c = true ∧ UnsyncChannel.buffer (shared c) = es
|}.
Next Obligation.
  intros t c e es [Hs Hb]. rewrite poll_spec; simpl. rewrite Hb; simpl.
  case_bool_decide; eexists _, _; by split_and!.
Qed.
Next Obligation.
  intros t c [Hs Hb]. rewrite poll_spec; simpl. rewrite Hb; simpl.
  case_bool_decide; eexists _, _, _; by split_and!.
Qed.

Context {Q : Type → Type} `{!MpscQueue Q}.

(** Two iterations are enough for a receiver nobody else is pushing to. *)
#[export] Program Instance sync_receiver :
    AddrReceiver (Inner (M := M) (Tx := Tx) (Task := Task) (Q := Q)) (Envelope M Tx) Task := {|
  rx_poll := SyncChannel.poll 2;
  rx_holds i es := ∃ a, R i a ∧ a_open a = true ∧ a_messages a = es
|}.
Next Obligation.
  intros t i e es (a & HR & Ho & Hm). pose proof (poll_refines t _ _ HR Ho) as Hp.
  unfold spec_poll in Hp. rewrite Hm in Hp.
  unfold a_unpark in Hp. destruct (wake_cells _ _) as [cs w]. simpl in Hp.
  destruct Hp as (i' & HR' & Hp). eexists _, _. split; [by apply (Hp 2%nat) |].
  eexists. split; [done |]. by split.
Qed.
Next Obligation.
  intros t i (a & HR & Ho & Hm). pose proof (poll_refines t _ _ HR Ho) as Hp.
  unfold spec_poll in Hp. rewrite Hm in Hp. destruct Hp as (i' & HR' & Hp).
  eexists _, _, _. split; [by apply (Hp 2%nat) |]. split; [| done].
  eexists. split; [done |]. by split.
Qed.
End receivers.

(** ** The mailbox *)

Section mailbox.
Context {M Txs Txu Task : Type} {Q : Type → Type} `{!MpscQueue Q}.
Abbreviation SyncEnv := (Envelope M Txs).
Abbreviation UnsyncEnv := (Envelope M Txu).
Abbreviation SyncRecv := (@Inner M Txs Task Q).
Abbreviation UnsyncRecv := (@Chan M Txu Task).

Record Mailbox : Type := mkMailbox {
  sync_msgs : option SyncRecv;
  unsync_msgs : UnsyncRecv
}.

(** [Mailbox::default] and [Mailbox::new]. *)
Definition default_mailbox : Mailbox :=
  mkMailbox None (UnsyncChannel.new (Z.to_nat DEFAULT_CAPACITY)).
Definition new_mailbox (rx : SyncRecv) : Mailbox :=
  mkMailbox (Some rx) (UnsyncChannel.new 16).

(** Running a method of one of the receivers. *)
Definition on_unsync {A} (m : Prog UnsyncRecv Task A) : Prog Mailbox Task A := fun mb =>
  '(a, c, w) ← m (unsync_msgs mb);
  Return (a, mkMailbox (sync_msgs mb) c, w).
Definition on_sync {A} (m : Prog SyncRecv Task A) : Prog Mailbox Task A := fun mb =>
  i ← deref (sync_msgs mb);
  '(a, i, w) ← m i;
  Return (a, mkMailbox (Some i) (unsync_msgs mb), w).

Definition mailbox_capacity : Prog Mailbox Task nat := on_unsync UnsyncChannel.get_capacity.

Definition mailbox_set_capacity (fuel : nat) (cap : Z) : Prog Mailbox Task () :=
  _ ← on_unsync (UnsyncChannel.set_capacity (Z.to_nat cap));
  s ← gets sync_msgs;
  match s with
  | Some _ => on_sync (SyncChannel.set_capacity fuel cap)
  | None => mret ()
  end.

Definition mailbox_connected (mb : Mailbox) : bool :=
  bool_decide (weak (unsync_msgs mb) ≠ 0%nat) ||
  match sync_msgs mb with Some i => negb (num_senders i =? 0) | None => false end.

(** [remote_address]: the sender of a [Addr<Syn, A>]. *)
Definition remote_address {build : Build} : Prog Mailbox Task SyncAddressSender :=
  s ← gets sync_msgs;
  match s with
  | None =>
      cap ← mailbox_capacity;
      '(tx, rx) ← lift (SyncChannel.channel (Z.of_nat cap));
      mb ← get_state;
      _ ← put_state (mkMailbox (Some rx) (unsync_msgs mb));
      mret tx
  | Some _ => on_sync SyncChannel.recv_sender
  end.

(** [unsync_address]: one more weak reference. *)
Definition unsync_address : Prog Mailbox Task () := on_unsync UnsyncChannel.sender.

(** ** Polling *)

Section poll.
Context {W : Type} (get : W → Mailbox) (put : Mailbox → W → W) (waiting : W → bool).
Context (handle_unsync : UnsyncEnv → Prog W Task ()) (handle_sync : SyncEnv → Prog W Task ()).
(** Is the crate built with debug assertions?  The task that polls. *)
Context (debug : bool) (current : Task).

(** Run a method of the mailbox in the state that contains it. *)
Definition in_mailbox {A} (m : Prog Mailbox Task A) : Prog W Task A := fun s =>
  '(a, mb, w) ← m (get s);
  Return (a, put mb s, w).

(** [debug_assert!(n_polls.inc() < MAX_SYNC_POLLS, ...)]. *)
Definition count_poll (n : Z) : Exec Z :=
  if debug then
    _ ← rassert "Use Self::Context::notify() instead of direct use of address"
          (n + 1 <? MAX_SYNC_POLLS);
    Return (n + 1)
  else Return n.

(** One of the two inner loops.  [None]: the context is waiting and [poll]
    returns; otherwise the count of polls and the [not_ready] flag. *)
Fixpoint drain_loop {E} (fuel : nat) (rx : Prog W Task (Poll (option E) ()))
    (handle : E → Prog W Task ()) (n_polls : Z) (not_ready : bool)
  : Prog W Task (option (Z * bool)) :=
  match fuel with
  | O => lift OutOfFuel
  | S fuel =>
      b ← gets waiting;
      if b : bool then mret None
      else
        r ← rx;
        match r with
        | Ok (Ready (Some msg)) =>
            _ ← handle msg;
            n ← lift (count_poll n_polls);
            drain_loop fuel rx handle n false
        | _ => mret (Some (n_polls, not_ready))
        end
  end.

Definition poll_unsync : Prog W Task (Poll (option UnsyncEnv) ()) :=
  in_mailbox (on_unsync (rx_poll current)).
Definition poll_sync : Prog W Task (Poll (option SyncEnv) ()) :=
  in_mailbox (on_sync (rx_poll current)).

Fixpoint poll_loop (fuel : nat) (n_polls : Z) : Prog W Task () :=
  match fuel with
  | O => lift OutOfFuel
  | S fuel' =>
      o ← drain_loop fuel poll_unsync handle_unsync n_polls true;
      match o with
      | None => mret ()
      | Some (n, not_ready) =>
          s ← gets (fun s => sync_msgs (get s));
          o ← match s with
              | Some _ => drain_loop fuel poll_sync handle_sync n not_ready
              | None => mret (Some (n, not_ready))
              end;
          match o with
          | None => mret ()
          | Some (n, not_ready) => if not_ready : bool then mret () else poll_loop fuel' n
          end
      end
  end.

Definition poll (fuel : nat) : Prog W Task () := poll_loop fuel 0.
End poll.
End mailbox.
