(* ===== verification/MailboxProps.v ===== *)
(** * What the mailbox guarantees

    [mailbox_quiet_while_waiting]: a handler never starts while the context is
    waiting.  [mailbox_handles_all] and [mailbox_poll_limit]: with handlers that
    neither wait nor refill the mailbox, [poll] terminates and hands over every
    queued message in order, the single-threaded channel first, unless a debug
    build meets 256 of them. *)

From S2P Require Import Prelude.
From S2P Require Import Queue.
From S2P Require Import Envelope.
From S2P Require Import UnsyncChannel.
From S2P Require Import SyncChannel.
From S2P Require Import SyncChannelSpec.
From S2P Require Import Mailbox.

Definition no_data {E} (x : Poll (option E) ()) : Prop :=
  match x with Ok (Ready (Some _)) => False | _ => True end.

Section poll.
Context {M Txs Txu Task : Type} {Q : Type → Type} `{!MpscQueue Q}.
Abbreviation SyncEnv := (Envelope M Txs).
Abbreviation UnsyncEnv := (Envelope M Txu).
Abbreviation Mailbox := (@Mailbox M Txs Txu Task Q).
Context {W : Type} (get : W → Mailbox) (put : Mailbox → W → W) (waiting : W → bool).
Context (debug : bool) (current : Task).
Context (get_put : ∀ mb s, get (put mb s) = mb)
        (waiting_put : ∀ mb s, waiting (put mb s) = waiting s).

Abbreviation drain_loop := (drain_loop waiting debug).
Abbreviation poll := (Mailbox.poll get put waiting).

(** ** Waiting *)

(** The handler, if it is started while the context is waiting, panics. *)
Definition guarded {E} (h : E → Prog W Task ()) : E → Prog W Task () := fun e s =>
  if waiting s then Panic "a handler started while the context is waiting" else h e s.

(** A receiver's method leaves the flags of the context alone. *)
Definition keeps_waiting {A} (m : Prog W Task A) : Prop :=
  ∀ s x s' w, m s = Return (x, s', w) → waiting s' = waiting s.

Lemma in_mailbox_keeps_waiting {A} (m : Prog Mailbox Task A) :
  keeps_waiting (in_mailbox get put m).
Proof.
  intros s x s' w Hm. unfold in_mailbox in Hm.
  apply exec_bind_Return_inv in Hm as ([[a mb] w'] & _ & [= _ <- _]). apply waiting_put.
Qed.

Lemma prog_bind_ext {S A B} (m : Prog S Task A) (f g : A → Prog S Task B) s :
  (∀ a s' w, m s = Return (a, s', w) → f a s' = g a s') → (m ≫= f) s = (m ≫= g) s.
Proof.
  intros Hfg. unfold mbind, prog_bind. destruct (m s) as [[[a s'] w]| | |]; [| done..].
  simpl. by rewrite (Hfg _ _ _ eq_refl).
Qed.

Lemma prog_bind_eq {S A B} (m1 m2 : Prog S Task A) (f g : A → Prog S Task B) s :
  m1 s = m2 s → (∀ a s' w, m2 s = Return (a, s', w) → f a s' = g a s') →
  (m1 ≫= f) s = (m2 ≫= g) s.
Proof.
  intros Hm Hfg. transitivity ((m1 ≫= g) s).
  - apply prog_bind_ext. intros a s' w Ha. rewrite Hm in Ha. by eapply Hfg.
  - unfold mbind, prog_bind. by rewrite Hm.
Qed.

Lemma drain_guarded {E} fuel rx (h : E → Prog W Task ()) n nr s :
  keeps_waiting rx →
  drain_loop fuel rx h n nr s = drain_loop fuel rx (guarded h) n nr s.
Proof.
  intros Hrx. revert n nr s. induction fuel as [|fuel IH]; intros n nr s; [done |].
  cbn [Mailbox.drain_loop]. apply prog_bind_ext. intros b s' w Hb. injection Hb as <- <- <-.
  destruct (waiting s) eqn:Hw; [done |].
  apply prog_bind_ext. intros [[[e|]|]|] s' w Hs'; try done.
  apply Hrx in Hs'. rewrite Hw in Hs'.
  transitivity ((guarded h e ≫= λ _, n0 ← lift (count_poll debug n);
    drain_loop fuel rx h n0 false) s').
  { unfold mbind, prog_bind, guarded. by rewrite Hs'. }
  apply prog_bind_ext. intros _ s1 w1 _. apply prog_bind_ext. intros n1 s2 w2 _. apply IH.
Qed.

(** ** Plain handlers *)

(** A loop over a source [rx] that holds the messages [es], with a handler that
    logs what it handles: [P es l s] describes the states on the way, and
    [popped e es l s] those in which [e] was taken out and not handled yet. *)
Section drain.
Context {E L : Type} (rx : Prog W Task (Poll (option E) ())) (h : E → Prog W Task ()).
Context (P : list E → list L → W → Prop) (popped : E → list E → list L → W → Prop) (inj : E → L).
Context (P_waiting : ∀ es l s, P es l s → waiting s = false)
        (P_cons : ∀ e es l s, P (e :: es) l s →
           ∃ s' w, rx s = Return (Ok (Ready (Some e)), s', w) ∧ popped e es l s')
        (P_nil : ∀ l s, P [] l s →
           ∃ x s' w, rx s = Return (x, s', w) ∧ no_data x ∧ P [] l s')
        (P_handle : ∀ e es l s, popped e es l s →
           ∃ s' w, h e s = Return ((), s', w) ∧ P es (l ++ [inj e]) s').

Lemma drain_stop fuel n nr l s :
  P [] l s → (0 < fuel)%nat →
  ∃ s' w, drain_loop fuel rx h n nr s = Return (Some (n, nr), s', w) ∧ P [] l s'.
Proof.
  destruct fuel as [|fuel]; [lia |]. intros HP _. cbn [Mailbox.drain_loop].
  destruct (P_nil _ _ HP) as (x & s' & w & Hx & Hno & HP').
  rewrite (prog_bind_Return _ _ s (waiting s) s []) by done. rewrite (P_waiting _ _ _ HP).
  rewrite (prog_bind_Return _ _ _ _ _ _ Hx).
  exists s'. destruct x as [[[?|]|]|]; simpl; [done | by eexists..].
Qed.

Lemma drain_step fuel n nr e es l s :
  P (e :: es) l s →
  ∃ s' w, P es (l ++ [inj e]) s' ∧
    drain_loop (S fuel) rx h n nr s =
      (n' ← count_poll debug n;
       '(r, s', w') ← drain_loop fuel rx h n' false s'; Return (r, s', w ++ w')).
Proof.
  intros HP. destruct (P_cons _ _ _ _ HP) as (s1 & w1 & Hx & HP1).
  destruct (P_handle _ _ _ _ HP1) as (s2 & w2 & Hh & HP2).
  exists s2, (w1 ++ w2). split; [done |]. cbn [Mailbox.drain_loop].
  rewrite (prog_bind_Return _ _ s (waiting s) s []) by done. rewrite (P_waiting _ _ _ HP).
  rewrite (prog_bind_Return _ _ _ _ _ _ Hx), (prog_bind_Return _ _ _ _ _ _ Hh).
  unfold lift, mbind, prog_bind. destruct (count_poll debug n) as [n'| | |]; simpl; try done.
  destruct (drain_loop fuel rx h n' false s2) as [[[r s3] w3]| | |]; simpl; try done.
  by rewrite app_assoc.
Qed.

Lemma drain_plain fuel n nr es l s :
  P es l s → (length es < fuel)%nat →
  (debug = true → n + Z.of_nat (length es) < MAX_SYNC_POLLS) →
  ∃ n' s' w, drain_loop fuel rx h n nr s =
      Return (Some (n', nr && bool_decide (es = [])), s', w) ∧
    P [] (l ++ (inj <$> es)) s' ∧ (debug = true → n' = n + Z.of_nat (length es)).
Proof.
  revert fuel n nr l s. induction es as [|e es IH]; intros fuel n nr l s HP Hf Hd.
  - destruct (drain_stop fuel n nr l s HP Hf) as (s' & w & Hs & HP').
    exists n, s', w. rewrite andb_true_r, app_nil_r, Z.add_0_r. by split_and!.
  - destruct fuel as [|fuel]; [simpl in Hf; lia |].
    destruct (drain_step fuel n nr _ _ _ _ HP) as (s1 & w1 & HP1 & ->).
    assert (∃ n1, count_poll debug n = Return n1 ∧ (debug = true → n1 = n + 1)) as (n1 & -> & Hn1).
    { unfold count_poll. destruct debug; [| by eexists]. specialize (Hd eq_refl).
      simpl in Hd. destruct (Z.ltb_spec (n + 1) MAX_SYNC_POLLS); [by eexists | lia]. }
    simpl in Hf. destruct (IH fuel n1 false _ _ HP1 ltac:(lia)) as (n2 & s2 & w2 & Hs & HP2 & Hn2).
    { intros Hdb. specialize (Hd Hdb). rewrite (Hn1 Hdb). simpl in Hd. lia. }
    exists n2, s2, (w1 ++ w2). simpl. rewrite Hs. simpl. rewrite andb_false_r.
    split_and!; [done | by rewrite <- app_assoc in HP2 |].
    intros Hdb. rewrite (Hn2 Hdb), (Hn1 Hdb). simpl. lia.
Qed.

Lemma drain_limit fuel n nr es l s :
  P es l s → (length es ≤ fuel)%nat → debug = true → n < MAX_SYNC_POLLS →
  MAX_SYNC_POLLS ≤ n + Z.of_nat (length es) →
  drain_loop fuel rx h n nr s =
    Panic "Use Self::Context::notify() instead of direct use of address".
Proof.
  intros HP Hf Hdb. revert fuel n nr l s HP Hf. induction es as [|e es IH];
    intros fuel n nr l s HP Hf Hn Hd; simpl in *; [lia |].
  destruct fuel as [|fuel]; [lia |].
  destruct (drain_step fuel n nr _ _ _ _ HP) as (s1 & w1 & HP1 & ->).
  assert (count_poll debug n = if n + 1 <? MAX_SYNC_POLLS then Return (n + 1)
    else Panic "Use Self::Context::notify() instead of direct use of address") as ->.
  { unfold count_poll. rewrite Hdb. by destruct (_ <? _). }
  destruct (Z.ltb_spec (n + 1) MAX_SYNC_POLLS); [| done].
  simpl. rewrite (IH fuel (n + 1) false _ _ HP1) by lia. done.
Qed.
End drain.

(** ** The whole poll *)

(** The messages the two receivers hold. *)
Definition mailbox_holds (mb : Mailbox) (us : list UnsyncEnv) (ss : list SyncEnv) : Prop :=
  rx_holds (unsync_msgs mb) us ∧
  match sync_msgs mb with Some i => rx_holds i ss | None => ss = [] end.

(** C14: while the context waits (for a future, or to stop) no handler starts:
    [poll] runs exactly as it would with handlers that panic when started in a
    waiting context. *)
Theorem mailbox_quiet_while_waiting (handle_unsync : UnsyncEnv → Prog W Task ())
    (handle_sync : SyncEnv → Prog W Task ()) fuel s :
  poll handle_unsync handle_sync debug current fuel s =
  poll (guarded handle_unsync) (guarded handle_sync) debug current fuel s.
Proof.
  unfold Mailbox.poll. generalize 0. revert s.
  induction fuel as [|fuel IH]; intros s n; [done |].
  cbn -[Mailbox.drain_loop mbind].
  apply prog_bind_eq; [by apply drain_guarded, in_mailbox_keeps_waiting |].
  intros [[n1 nr1]|] s1 w1 _; [| done]. apply prog_bind_eq; [done |].
  intros o s2 w2 _. apply prog_bind_eq.
  - destruct o; [by apply drain_guarded, in_mailbox_keeps_waiting | done].
  - intros [[n2 [|]]|] s3 w3 _; [done | apply IH | done].
Qed.

(** Handlers that record what they handle and do nothing to the mailbox or the
    state of the context. *)
Context (log : W → list (UnsyncEnv + SyncEnv)).
Context (log_put : ∀ mb s, log (put mb s) = log s).

Definition plain {E} (h : E → Prog W Task ()) (inj : E → UnsyncEnv + SyncEnv) : Prop :=
  ∀ e s, ∃ s' w, h e s = Return ((), s', w) ∧
    get s' = get s ∧ waiting s' = waiting s ∧ log s' = log s ++ [inj e].

Definition at_messages (us : list UnsyncEnv) (ss : list SyncEnv)
    (l : list (UnsyncEnv + SyncEnv)) (s : W) : Prop :=
  mailbox_holds (get s) us ss ∧ waiting s = false ∧ log s = l.

Lemma plain_handle {E} (h : E → Prog W Task ()) inj e us ss l s :
  plain h inj → at_messages us ss l s →
  ∃ s' w, h e s = Return ((), s', w) ∧ at_messages us ss (l ++ [inj e]) s'.
Proof.
  intros Hh (Hm & Hw & Hl). destruct (Hh e s) as (s' & w & Hs & Hg & Hw' & Hl').
  exists s', w. split; [done |]. unfold at_messages. rewrite Hg, Hw', Hl', Hl. done.
Qed.

Lemma poll_unsync_cons e us ss l s :
  at_messages (e :: us) ss l s →
  ∃ s' w, poll_unsync get put current s = Return (Ok (Ready (Some e)), s', w) ∧
          at_messages us ss l s'.
Proof.
  intros ([Hu Hs] & Hw & Hl). destruct (rx_poll_cons current _ _ _ Hu) as (r' & w & Hr & Hr').
  eexists _, w. split; [unfold poll_unsync, in_mailbox, on_unsync; by rewrite Hr |].
  unfold at_messages. rewrite get_put, waiting_put, log_put. done.
Qed.

Lemma poll_unsync_nil ss l s :
  at_messages [] ss l s →
  ∃ x s' w, poll_unsync get put current s = Return (x, s', w) ∧ no_data x ∧
            at_messages [] ss l s'.
Proof.
  intros ([Hu Hs] & Hw & Hl). destruct (rx_poll_nil current _ Hu) as (x & r' & w & Hr & Hr' & Hx).
  eexists x, _, w. split; [unfold poll_unsync, in_mailbox, on_unsync; by rewrite Hr |].
  split; [done |]. unfold at_messages. rewrite get_put, waiting_put, log_put. done.
Qed.

Definition has_sync (s : W) : Prop := is_Some (sync_msgs (get s)).

Lemma on_sync_run {A} (m : Prog _ Task A) (mb : Mailbox) i a i' w :
  sync_msgs mb = Some i → m i = Return (a, i', w) →
  on_sync m mb = Return (a, mkMailbox (Some i') (unsync_msgs mb), w).
Proof. intros Hi Hm. unfold on_sync, mbind, exec_bind, deref. by rewrite Hi, Hm. Qed.

Lemma poll_sync_cons e us ss l s :
  at_messages us (e :: ss) l s →
  ∃ s' w, poll_sync get put current s = Return (Ok (Ready (Some e)), s', w) ∧
          at_messages us ss l s' ∧ has_sync s'.
Proof.
  intros ([Hu Hs] & Hw & Hl). destruct (sync_msgs (get s)) as [i|] eqn:Hi; [| done].
  destruct (rx_poll_cons current _ _ _ Hs) as (r' & w & Hr & Hr').
  eexists _, w. split; [unfold poll_sync, in_mailbox; by rewrite (on_sync_run _ _ _ _ _ _ Hi Hr) |].
  unfold at_messages, has_sync. rewrite get_put, waiting_put, log_put. by split; [| eexists].
Qed.

Lemma poll_sync_nil us l s :
  at_messages us [] l s → has_sync s →
  ∃ x s' w, poll_sync get put current s = Return (x, s', w) ∧ no_data x ∧
            at_messages us [] l s' ∧ has_sync s'.
Proof.
  intros ([Hu Hs] & Hw & Hl) [i Hi]. rewrite Hi in Hs.
  destruct (rx_poll_nil current _ Hs) as (x & r' & w & Hr & Hr' & Hx).
  eexists x, _, w. split; [unfold poll_sync, in_mailbox; by rewrite (on_sync_run _ _ _ _ _ _ Hi Hr) |].
  split; [done |]. unfold at_messages, has_sync. rewrite get_put, waiting_put, log_put.
  by split; [| eexists].
Qed.

Lemma drain_loop_mono {E} n1 n2 rx (h : E → Prog W Task ()) n nr :
  (n1 ≤ n2)%nat → prog_le (drain_loop n1 rx h n nr) (drain_loop n2 rx h n nr).
Proof.
  revert n2 n nr. induction n1 as [|n1 IH]; intros [|n2] n nr Hn; try lia;
    cbn [Mailbox.drain_loop]; solve_prog_le.
Qed.

#[local] Hint Resolve drain_loop_mono : fuel.

Lemma poll_mono_fuel hu hs n1 n2 :
  (n1 ≤ n2)%nat → prog_le (poll hu hs debug current n1) (poll hu hs debug current n2).
Proof.
  intros Hn. unfold Mailbox.poll. generalize 0. revert n2 Hn.
  induction n1 as [|n1 IH]; intros [|n2] Hn n; try lia; cbn [Mailbox.poll_loop]; solve_prog_le.
Qed.

(** The messages handled by one round of [poll] over both channels. *)
Definition round (us : list UnsyncEnv) (ss : list SyncEnv) : list (UnsyncEnv + SyncEnv) :=
  (inl <$> us) ++ (inr <$> ss).

Section plain.
Context (handle_unsync : UnsyncEnv → Prog W Task ()) (handle_sync : SyncEnv → Prog W Task ()).
Context (Hu : plain handle_unsync inl) (Hs : plain handle_sync inr).

Lemma at_waiting us ss l s : at_messages us ss l s → waiting s = false.
Proof. by intros (_ & ? & _). Qed.

Lemma woken_assoc {S A} (m : Exec (A * S * list Task)) w1 w2 :
  ((m ≫= λ '(b, s, w), Return (b, s, w2 ++ w)) ≫= λ '(b, s, w), Return (b, s, w)) ≫=
    (λ '(b, s, w), Return (b, s, w1 ++ w)) =
  m ≫= λ '(b, s, w), Return (b, s, (w1 ++ w2) ++ w).
Proof. destruct m as [[[b s] w]| | |]; [simpl; by rewrite app_assoc | done..]. Qed.

(** One turn of the outer loop empties both channels. *)
Lemma poll_turn fuel n us ss l s :
  at_messages us ss l s → (length us < S fuel)%nat → (length ss < S fuel)%nat →
  (debug = true → n + Z.of_nat (length us + length ss) < MAX_SYNC_POLLS) →
  ∃ n' s' w, at_messages [] [] (l ++ round us ss) s' ∧
    (debug = true → n' = n + Z.of_nat (length us + length ss)) ∧
    poll_loop get put waiting handle_unsync handle_sync debug current (S fuel) n s =
      ('(x, s', w') ← (if bool_decide (us = [] ∧ ss = []) then mret ()
        else poll_loop get put waiting handle_unsync handle_sync debug current fuel n') s';
       Return (x, s', w ++ w')).
Proof.
  intros Hat Hfu Hfs Hd. cbn -[Mailbox.drain_loop mbind].
  destruct (drain_plain (poll_unsync get put current) handle_unsync
    (fun us l s => at_messages us ss l s) (fun _ us l s => at_messages us ss l s) inl (fun us l s => at_waiting us ss l s)
    (fun e es l s => poll_unsync_cons e es ss l s) (fun l s => poll_unsync_nil ss l s)
    (fun e es l s H => plain_handle _ _ e es ss l s Hu H)
    (S fuel) n true us l s Hat Hfu ltac:(intros Hdb; specialize (Hd Hdb); lia))
    as (n1 & s1 & w1 & Hdr & Hat1 & Hn1).
  rewrite (prog_bind_Return _ _ _ _ _ _ Hdr).
  rewrite (prog_bind_Return _ _ s1 (sync_msgs (get s1)) s1 []) by done.
  destruct (sync_msgs (get s1)) as [i|] eqn:Hi.
  - destruct (drain_plain (poll_sync get put current) handle_sync
      (fun ss l s => at_messages [] ss l s ∧ has_sync s)
      (fun _ ss l s => at_messages [] ss l s ∧ has_sync s) inr) with (fuel := S fuel) (n := n1)
      (nr := true && bool_decide (us = [])) (es := ss) (l := l ++ (inl <$> us)) (s := s1)
      as (n2 & s2 & w2 & Hds & [Hat2 _] & Hn2).
    + intros es l0 s0 [H _]. by eapply at_waiting.
    + intros e es l0 s0 [H _]. destruct (poll_sync_cons _ _ _ _ _ H) as (s' & w & ? & ? & ?).
      by exists s', w.
    + intros l0 s0 [H Hh]. destruct (poll_sync_nil _ _ _ H Hh) as (x & s' & w & ? & ? & ? & ?).
      by exists x, s', w.
    + intros e es l0 s0 [H [j Hj]]. destruct (plain_handle _ _ e _ _ _ _ Hs H)
        as (s' & w & Hr & H'). exists s', w. split_and!; [done | done |].
      destruct (Hs e s0) as (s'' & w'' & Hr' & Hg & _). rewrite Hr in Hr'. simplify_eq.
      exists j. by rewrite Hg.
    + split; [done |]. by exists i.
    + done.
    + intros Hdb. rewrite (Hn1 Hdb). specialize (Hd Hdb). lia.
    + exists n2, s2, (w1 ++ w2). split; [by rewrite <- app_assoc in Hat2 |].
      split; [intros Hdb; rewrite (Hn2 Hdb), (Hn1 Hdb); lia |].
      simpl in Hds. cbn [mbind exec_bind app]. rewrite (prog_bind_Return _ _ _ _ _ _ Hds).
      replace (bool_decide (us = []) && bool_decide (ss = []))
        with (bool_decide (us = [] ∧ ss = [])) by apply bool_decide_and.
      apply woken_assoc.
  - pose proof Hat1 as ([_ Hss] & _). rewrite Hi in Hss. subst ss.
    exists n1, s1, (w1 ++ []). split; [unfold round; by rewrite fmap_nil, app_nil_r |].
    split; [intros Hdb; rewrite (Hn1 Hdb); simpl; lia |].
    rewrite (prog_bind_Return _ _ s1 (Some (n1, true && bool_decide (us = []))) s1 []) by done.
    replace (true && bool_decide (us = [])) with (bool_decide (us = [] ∧ @nil SyncEnv = []))
      by (rewrite bool_decide_and, andb_true_r; done).
    apply (woken_assoc _ w1 []).
Qed.

(** C20: with plain handlers, a context that is not waiting handles every
    queued message exactly once: first those of the single-threaded channel in
    their order, then those of the thread-safe one.  Both channels end empty,
    and [poll] terminates.  (In a debug build, if there are fewer than 256.) *)
Theorem mailbox_handles_all us ss l s :
  at_messages us ss l s →
  (debug = true → Z.of_nat (length us + length ss) < MAX_SYNC_POLLS) →
  ∃ s' w, (fun fuel => poll handle_unsync handle_sync debug current fuel s) ⇓ ((), s', w) ∧
    at_messages [] [] (l ++ round us ss) s'.
Proof.
  intros Hat Hd. set (f := S (length us + length ss)).
  destruct (poll_turn f 0 us ss l s Hat ltac:(lia) ltac:(lia) ltac:(done))
    as (n1 & s1 & w1 & Hat1 & Hn1 & Hp).
  assert (∃ s' w, poll handle_unsync handle_sync debug current (S f) s = Return ((), s', w) ∧
    at_messages [] [] (l ++ round us ss) s') as (s' & w & Hr & Hat').
  - unfold Mailbox.poll. rewrite Hp. case_bool_decide as He; [simpl; eauto |].
    destruct (poll_turn (length us + length ss) n1 [] [] _ s1 Hat1 ltac:(simpl; lia)
      ltac:(simpl; lia)) as (n2 & s2 & w2 & Hat2 & _ & Hp2).
    { intros Hdb. rewrite (Hn1 Hdb). specialize (Hd Hdb). simpl. lia. }
    unfold f. rewrite Hp2. rewrite bool_decide_true by done. simpl.
    eexists s2, _. split; [done |]. unfold round in Hat2; simpl in Hat2.
    by rewrite app_nil_r in Hat2.
  - exists s', w. split; [| done]. eapply returns_mono; [| exact Hr].
    intros k1 k2 Hk. by apply poll_mono_fuel.
Qed.

(** 256 messages handled in one [poll] are the limit of a debug build:
    with at least that many in the single-threaded channel, [poll] panics
    instead of handing over the rest. *)
Theorem mailbox_poll_limit us ss l s fuel :
  at_messages us ss l s → debug = true →
  MAX_SYNC_POLLS ≤ Z.of_nat (length us) → (length us < fuel)%nat →
  poll handle_unsync handle_sync debug current fuel s =
    Panic "Use Self::Context::notify() instead of direct use of address".
Proof.
  intros Hat Hdb Hl Hf. destruct fuel as [|fuel]; [lia |]. unfold Mailbox.poll.
  cbn -[Mailbox.drain_loop mbind]. unfold mbind, prog_bind.
  rewrite (drain_limit (poll_unsync get put current) handle_unsync
    (fun us l s => at_messages us ss l s) (fun _ us l s => at_messages us ss l s) inl (fun us l s => at_waiting us ss l s)
    (fun e es l s => poll_unsync_cons e es ss l s)
    (fun e es l s H => plain_handle _ _ e es ss l s Hu H)
    (S fuel) 0 true us l s Hat ltac:(lia) Hdb ltac:(done) ltac:(lia)). done.
Qed.
End plain.
End poll.

(** ** Witnesses *)

Section witnesses.
Abbreviation WMailbox := (@Mailbox Z nat nat nat Queue).
Abbreviation WEnv := (Envelope Z nat).

(** A context reduced to its mailbox, its waiting flag and a log. *)
Definition Demo : Type := WMailbox * (bool * list (WEnv + WEnv)).
Definition demo_get (s : Demo) : WMailbox := s.1.
Definition demo_put (mb : WMailbox) (s : Demo) : Demo := (mb, s.2).
Definition demo_waiting (s : Demo) : bool := s.2.1.
Definition demo_log (s : Demo) : list (WEnv + WEnv) := s.2.2.

Definition demo_handle (inj : WEnv → WEnv + WEnv) (e : WEnv) : Prog Demo nat () := fun s =>
  Return ((), (s.1, (s.2.1, s.2.2 ++ [inj e])), []).
(** A handler that makes the context wait. *)
Definition demo_pause (inj : WEnv → WEnv + WEnv) (e : WEnv) : Prog Demo nat () := fun s =>
  Return ((), (s.1, (true, s.2.2 ++ [inj e])), []).

Definition demo_world (n : nat) : Demo :=
  (mkMailbox None (mkChan true 1 (mkShared (replicate n (pack 7 None)) 16 [] None)),
   (false, [])).

Lemma demo_plain inj : plain demo_get demo_waiting demo_log (demo_handle inj) inj.
Proof. intros e s. eexists _, _. split; [reflexivity |]. by split_and!. Qed.

Lemma demo_at n :
  at_messages demo_get demo_waiting demo_log (replicate n (pack 7 None)) [] [] (demo_world n).
Proof. by split. Qed.

Lemma mailbox_quiet_while_waiting_witness :
  Mailbox.poll demo_get demo_put demo_waiting (demo_pause inl) (demo_pause inr) true 9%nat 5
    (demo_world 3) =
  Mailbox.poll demo_get demo_put demo_waiting (guarded demo_waiting (demo_pause inl))
    (guarded demo_waiting (demo_pause inr)) true 9%nat 5 (demo_world 3).
Proof. apply mailbox_quiet_while_waiting. intros mb s. reflexivity. Defined.

Lemma mailbox_handles_all_witness :
  ∃ s' w, (fun fuel => Mailbox.poll demo_get demo_put demo_waiting (demo_handle inl)
              (demo_handle inr) true 9%nat fuel (demo_world 3)) ⇓ ((), s', w) ∧
    at_messages demo_get demo_waiting demo_log [] []
      ([] ++ round (replicate 3 (pack 7 None)) []) s'.
Proof.
  apply (mailbox_handles_all demo_get demo_put demo_waiting true 9%nat
    (fun _ _ => eq_refl) (fun _ _ => eq_refl) demo_log (fun _ _ => eq_refl) _ _
    (demo_plain inl) (demo_plain inr)); [apply demo_at | by intros _; vm_compute].
Defined.

Lemma mailbox_poll_limit_witness :
  Mailbox.poll demo_get demo_put demo_waiting (demo_handle inl) (demo_handle inr) true 9%nat 300
    (demo_world 256) =
  Panic "Use Self::Context::notify() instead of direct use of address".
Proof.
  apply (mailbox_poll_limit demo_get demo_put demo_waiting true 9%nat
    (fun _ _ => eq_refl) (fun _ _ => eq_refl) demo_log (fun _ _ => eq_refl) _ _
    (demo_plain inl) (replicate 256 (pack 7 None)) [] []);
    [apply demo_at | reflexivity | vm_compute; discriminate | rewrite length_replicate; lia].
Defined.
End witnesses.
