(* ===== verification/ContextImpl.v ===== *)
(** * The actor's execution context: [src/contextimpl.rs], the wait item of
    [src/contextitems.rs], the state of [src/actor.rs], [src/context.rs]

    A context and its actor are one state, [World]: the source passes the
    context to the actor's callbacks while it is polling itself (by
    [mem::transmute]), so whatever a callback does to the context is seen by the
    rest of [poll].  [env] is everything else the callbacks can reach.

    The actor's code ([ActorCode]) is a parameter: its callbacks and the futures
    it spawns are arbitrary programs on the [World].  [Context<A>] only wraps
    [ContextImpl<A>] and forwards every method. *)

From S2P Require Import Prelude.
From S2P Require Import Queue.
From S2P Require Import Envelope.
From S2P Require Import UnsyncChannel.
From S2P Require Import SyncChannel.
From S2P Require Import Mailbox.

(** ** Flags, states and handles *)

(** [bitflags! struct ContextFlags: u8]. *)
Definition STARTED : Z := 1.
Definition RUNNING : Z := 2.
Definition STOPPING : Z := 4.
Definition STOPPED : Z := 16.
Definition MODIFIED : Z := 32.

Definition flags_contains (f m : Z) : bool := Z.land f m =? m.
Definition flags_intersects (f m : Z) : bool := negb (Z.land f m =? 0).
Definition flags_insert (f m : Z) : Z := Z.lor f m.
Definition flags_remove (f m : Z) : Z := Z.ldiff f m.

Inductive ActorState : Type := AStarted | ARunning | AStopping | AStopped.
Inductive Running : Type := Stop | Continue.

#[export] Instance actor_state_eq_dec : EqDecision ActorState.
Proof. solve_decision. Defined.
#[export] Instance running_eq_dec : EqDecision Running.
Proof. solve_decision. Defined.

(** [ActorState::alive]. *)
Definition state_alive (s : ActorState) : bool :=
  bool_decide (s = AStarted) || bool_decide (s = ARunning).

(** [SpawnHandle]: a [usize]; [SpawnHandle::next]; [SpawnHandle::default].  The
    handle after 2^64 - 1 is written as in a release build, where it wraps around;
    a debug build panics there.  Handles stay unique only before that, and the
    theorem that says so ([context_handles_unique]) is about actors whose code
    leaves the handles below it. *)
Definition SpawnHandle : Type := Z.
Definition next_handle (h : SpawnHandle) : SpawnHandle := wrap (h + 1).
Definition default_handle : SpawnHandle := 0.

Section context.
Context {A V Fut M Txs Txu Task : Type} {Q : Type → Type} `{!MpscQueue Q}.
Abbreviation SyncEnv := (Envelope M Txs).
Abbreviation UnsyncEnv := (Envelope M Txu).
Abbreviation Mailbox := (@Mailbox M Txs Txu Task Q).

(** ** The state *)

Record ContextImpl : Type := mkContext {
  act : option A;
  flags : Z;
  mailbox : Mailbox;
  wait : list Fut;
  items : list (SpawnHandle * Fut);
  handle : SpawnHandle;
  curr_handle : SpawnHandle
}.

Record World : Type := mkWorld { impl : ContextImpl; env : V }.

Definition set_act a (c : ContextImpl) : ContextImpl :=
  mkContext a (flags c) (mailbox c) (wait c) (items c) (handle c) (curr_handle c).
Definition set_flags f (c : ContextImpl) : ContextImpl :=
  mkContext (act c) f (mailbox c) (wait c) (items c) (handle c) (curr_handle c).
Definition set_mailbox mb (c : ContextImpl) : ContextImpl :=
  mkContext (act c) (flags c) mb (wait c) (items c) (handle c) (curr_handle c).
Definition set_wait w (c : ContextImpl) : ContextImpl :=
  mkContext (act c) (flags c) (mailbox c) w (items c) (handle c) (curr_handle c).
Definition set_items i (c : ContextImpl) : ContextImpl :=
  mkContext (act c) (flags c) (mailbox c) (wait c) i (handle c) (curr_handle c).
Definition set_handle h (c : ContextImpl) : ContextImpl :=
  mkContext (act c) (flags c) (mailbox c) (wait c) (items c) h (curr_handle c).
Definition set_curr_handle h (c : ContextImpl) : ContextImpl :=
  mkContext (act c) (flags c) (mailbox c) (wait c) (items c) (handle c) h.

(** ** The methods of [ContextImpl] *)

(** [ContextImpl::new] and [ContextImpl::with_receiver]. *)
Definition new (a : option A) : ContextImpl :=
  mkContext a RUNNING default_mailbox [] [] default_handle default_handle.
Definition with_receiver (a : option A) (rx : @Inner M Txs Task Q) : ContextImpl :=
  mkContext a RUNNING (new_mailbox rx) [] [] default_handle default_handle.

Definition modified (c : ContextImpl) : ContextImpl :=
  set_flags (flags_insert (flags c) MODIFIED) c.

Definition is_stopping (c : ContextImpl) : bool :=
  flags_intersects (flags c) (Z.lor STOPPING STOPPED).

Definition waiting (c : ContextImpl) : bool :=
  negb (bool_decide (wait c = [])) || is_stopping c.

Definition stop (c : ContextImpl) : ContextImpl :=
  if flags_contains (flags c) RUNNING
  then set_flags (flags_insert (flags_remove (flags c) (Z.lor RUNNING MODIFIED)) STOPPING) c
  else c.

Definition terminate (c : ContextImpl) : ContextImpl := set_flags STOPPED c.

Definition state (c : ContextImpl) : ActorState :=
  if flags_contains (flags c) RUNNING then ARunning
  else if flags_contains (flags c) STOPPED then AStopped
  else if flags_contains (flags c) STOPPING then AStopping
  else AStarted.

(** The handle of the new future is the new value of [handle]. *)
Definition spawn (f : Fut) (c : ContextImpl) : ContextImpl :=
  let c := modified c in
  let h := next_handle (handle c) in
  set_items (items c ++ [(h, f)]) (set_handle h c).

Definition wait_for (f : Fut) (c : ContextImpl) : ContextImpl :=
  let c := modified c in set_wait (wait c ++ [f]) c.

(** The [for] loop of [cancel_future]: the first index that carries [h]. *)
Definition find_handle (h : SpawnHandle) (l : list (SpawnHandle * Fut)) : option nat :=
  fst <$> list_find (fun i => i.1 = h) l.

Definition cancel_future (h : SpawnHandle) (c : ContextImpl) : bool * ContextImpl :=
  match find_handle h (items c) with
  | Some idx =>
      match swap_remove (items c) idx with
      | Some (_, l) => (true, set_items l (modified c))
      | None => (true, modified c)
      end
  | None => (false, c)
  end.

Definition connected (c : ContextImpl) : bool := mailbox_connected (mailbox c).

Definition alive (c : ContextImpl) : bool :=
  if is_stopping c then false
  else connected c || negb (bool_decide (items c = [])) || negb (bool_decide (wait c = [])).

Definition set_actor (a : A) (c : ContextImpl) : ContextImpl := modified (set_act (Some a) c).

Definition into_inner (c : ContextImpl) : option A := act c.

Definition has_started (c : ContextImpl) : bool := flags_contains (flags c) STARTED.

(** ** Programs on the whole state *)

Abbreviation P := (Prog World Task).

Definition on_impl (f : ContextImpl → ContextImpl) : P () :=
  modify (fun w => mkWorld (f (impl w)) (env w)).
Definition get_impl : P ContextImpl := gets impl.
Definition put_mailbox (mb : Mailbox) (w : World) : World :=
  mkWorld (set_mailbox mb (impl w)) (env w).
Definition via_mailbox {X} (m : Prog Mailbox Task X) : P X :=
  in_mailbox (fun w => mailbox (impl w)) put_mailbox m.

Definition set_mailbox_capacity (fuel : nat) (cap : Z) : P () :=
  _ ← on_impl modified; via_mailbox (mailbox_set_capacity fuel cap).
Definition get_unsync_address : P () :=
  _ ← on_impl modified; via_mailbox unsync_address.
Definition get_sync_address {build : Build} : P SyncAddressSender :=
  _ ← on_impl modified; via_mailbox remote_address.

(** The actor's code: [Actor], [Supervised], the [handle] of the envelopes
    addressed to it, and the [poll] of the futures it spawns, which returns the
    future's next state. *)
Class ActorCode : Type := {
  started : P ();
  stopping : P Running;
  stopped : P ();
  restarting : P ();
  handle_unsync : UnsyncEnv → P ();
  handle_sync : SyncEnv → P ();
  fut_poll : Fut → P (Fut * Poll () ())
}.

Context `{!ActorCode}.

(** [restart]. *)
Definition restart : P bool :=
  c ← get_impl;
  if bool_decide (act c = None) || negb (connected c) then mret false
  else
    _ ← on_impl (fun c => set_handle default_handle (set_items [] (set_wait []
                           (set_flags RUNNING c))));
    _ ← restarting;
    mret true.

(** ** [poll] *)

Context (debug : bool) (current : Task).

(** [ActorWaitItem::poll]. *)
Definition wait_item_poll (f : Fut) : P (Fut * Async ()) :=
  '(f, r) ← fut_poll f;
  c ← get_impl;
  mret (f, match r with
           | Ok NotReady => if state_alive (state c) then NotReady else Ready ()
           | _ => Ready ()
           end).

(** The [while] loop over [wait]; [true]: [poll] returns [NotReady].  The last
    item is polled where it is, then the last item, whichever it is by then, is
    dropped. *)
Fixpoint wait_loop (fuel : nat) : P bool :=
  match fuel with
  | O => lift OutOfFuel
  | S fuel =>
      c ← get_impl;
      match last (wait c) with
      | Some f =>
          if is_stopping c then mret false
          else
            '(f, r) ← wait_item_poll f;
            _ ← on_impl (fun c' => set_wait (<[pred (length (wait c)) := f]> (wait c')) c');
            match r with
            | NotReady => mret true
            | Ready _ =>
                _ ← on_impl (fun c => set_wait (removelast (wait c)) c);
                wait_loop fuel
            end
      | None => mret false
      end
  end.

(** Putting back the future [f] that was polled under the handle [h].  If no
    item has that handle any more, its box was freed while it was being polled. *)
Definition put_item (h : SpawnHandle) (f : Fut) : P () :=
  c ← get_impl;
  match find_handle h (items c) with
  | Some i => on_impl (set_items (<[i := (h, f)]> (items c)))
  | None => lift Undef
  end.

(** Some item scheduled a wait future: [!self.wait.is_empty() && !self.stopping()]. *)
Definition must_wait (c : ContextImpl) : bool :=
  negb (bool_decide (wait c = [])) && negb (is_stopping c).

Inductive Flow : Type := Done | Again.

(** The [while] loop over [items]; [Again] is [continue 'outer]. *)
Fixpoint items_loop (fuel : nat) (idx : nat) : P Flow :=
  match fuel with
  | O => lift OutOfFuel
  | S fuel =>
      c ← get_impl;
      match items c !! idx with
      | Some (h, f) =>
          if is_stopping c then mret Done
          else
            _ ← on_impl (set_curr_handle h);
            '(f, r) ← fut_poll f;
            _ ← put_item h f;
            match r with
            | Ok NotReady =>
                c ← get_impl;
                if must_wait c then
                  let next := pred (length (items c)) in
                  _ ← (if bool_decide (idx ≠ next) then
                         l ← lift (unwrap "index out of bounds" (list_swap (items c) idx next));
                         on_impl (set_items l)
                       else mret ());
                  mret Again
                else items_loop fuel (Nat.succ idx)
            | Ok (Ready _) | Err _ =>
                c ← get_impl;
                '(_, l) ← lift (unwrap "index out of bounds" (swap_remove (items c) idx));
                _ ← on_impl (set_items l);
                c ← get_impl;
                if must_wait c then mret Again else items_loop fuel idx
            end
      | None => mret Done
      end
  end.

(** What follows the items: [Some r] is [return r]. *)
Definition finish : P (option (Poll () ())) :=
  _ ← on_impl (set_curr_handle default_handle);
  c ← get_impl;
  if flags_contains (flags c) MODIFIED && negb (flags_contains (flags c) STOPPING)
  then mret None
  else if flags_contains (flags c) RUNNING then
    if alive c then mret (Some (Ok NotReady))
    else
      r ← stopping;
      match r with
      | Stop =>
          _ ← on_impl (set_flags STOPPED);
          _ ← stopped;
          mret (Some (Ok (Ready ())))
      | Continue => mret (Some (Ok NotReady))
      end
  else if flags_contains (flags c) STOPPING then
    r ← stopping;
    match r with
    | Stop =>
        _ ← on_impl (set_flags STOPPED);
        _ ← stopped;
        mret (Some (Ok (Ready ())))
    | Continue =>
        _ ← on_impl (fun c => set_flags (flags_insert (flags_remove (flags c) STOPPING) RUNNING) c);
        mret None
    end
  else if flags_contains (flags c) STOPPED then
    _ ← stopped; mret (Some (Ok (Ready ())))
  else mret (Some (Ok NotReady)).

Definition mailbox_poll (fuel : nat) : P () :=
  Mailbox.poll (fun w => mailbox (impl w)) put_mailbox (fun w => waiting (impl w))
    handle_unsync handle_sync debug current fuel.

Fixpoint outer_loop (fuel : nat) : P (Poll () ()) :=
  match fuel with
  | O => lift OutOfFuel
  | S fuel' =>
      _ ← on_impl (fun c => set_flags (flags_remove (flags c) MODIFIED) c);
      b ← wait_loop fuel;
      if b : bool then mret (Ok NotReady)
      else
        _ ← mailbox_poll fuel;
        c ← get_impl;
        if must_wait c then outer_loop fuel'
        else
          f ← items_loop fuel 0;
          match f with
          | Again => outer_loop fuel'
          | Done =>
              o ← finish;
              match o with
              | Some r => mret r
              | None => outer_loop fuel'
              end
          end
  end.

(** [ContextImpl::poll]; the fuel bounds each of its loops. *)
Definition poll (fuel : nat) : P (Poll () ()) :=
  c ← get_impl;
  match act c with
  | None => mret (Ok (Ready ()))
  | Some _ =>
      _ ← (if flags_contains (flags c) STARTED then mret ()
           else
             _ ← on_impl (fun c => set_flags (flags_insert (flags c) STARTED) c);
             started);
      outer_loop fuel
  end.
End context.
