(* ===== verification/ContextProps.v ===== *)
(** * What polling a context maintains

    [internal] lists the changes [poll] itself makes to the context between the
    actor's callbacks.  [poll_triple] is the invariant rule of [poll]: whatever
    the internal changes, the receivers and the callbacks maintain, [poll]
    maintains.  Its instances here: the life cycle stays in one state at a time
    ([context_one_state]), handles stay unique ([context_handles_unique]), and
    an actor that never cancels a future makes [poll] neither panic nor touch
    freed memory ([context_poll_safe]). *)

From S2P Require Import Prelude.
From S2P Require Import Queue.
From S2P Require Import Envelope.
From S2P Require Import UnsyncChannel.
From S2P Require Import SyncChannel.
From S2P Require Import Mailbox.
From S2P Require Import ContextImpl.

Section rule.
Context {A V Fut M Txs Txu Task : Type} {Q : Type → Type} `{!MpscQueue Q}.
Abbreviation ContextImpl := (@ContextImpl A Fut M Txs Txu Task Q).
Abbreviation World := (@World A V Fut M Txs Txu Task Q).
Context `{!ActorCode (A := A) (V := V) (Fut := Fut) (M := M) (Txs := Txs) (Txu := Txu)
            (Task := Task) (Q := Q)}.
Context (debug : bool) (current : Task).
Implicit Types (c : ContextImpl) (w : World).

(** The flag update of an actor that refuses to stop. *)
Definition continued c : ContextImpl :=
  set_flags (flags_insert (flags_remove (flags c) STOPPING) RUNNING) c.

Inductive internal : ContextImpl → ContextImpl → Prop :=
| int_clear c : internal c (set_flags (flags_remove (flags c) MODIFIED) c)
| int_started c : internal c (set_flags (flags_insert (flags c) STARTED) c)
| int_stopped c : internal c (set_flags STOPPED c)
| int_curr h c : internal c (set_curr_handle h c)
| int_wait_put k f c : internal c (set_wait (<[k := f]> (wait c)) c)
| int_wait_pop c : internal c (set_wait (removelast (wait c)) c)
| int_put i h f g c :
    items c !! i = Some (h, g) → internal c (set_items (<[i := (h, f)]> (items c)) c)
| int_swap i j l c : list_swap (items c) i j = Some l → internal c (set_items l c)
| int_swap_remove i x l c : swap_remove (items c) i = Some (x, l) → internal c (set_items l c).

Section poll.
Context (safe : bool) (I : World → Prop).
Context (I_internal : ∀ w c, I w → internal (impl w) c → I (mkWorld c (env w))).
Context (I_unsync : triple safe I
  (poll_unsync (fun w => mailbox (impl w)) put_mailbox current) (fun _ => I)).
Context (I_sync : triple safe (fun w => I w ∧ is_Some (sync_msgs (mailbox (impl w))))
  (poll_sync (fun w => mailbox (impl w)) put_mailbox current)
  (fun _ w => I w ∧ is_Some (sync_msgs (mailbox (impl w))))).
(** [F] is what holds once [stopped] was called on a stopped context. *)
Context (F : World → Prop).
Context (I_stopped : triple safe
           (fun w => I w ∧ flags_contains (flags (impl w)) STOPPED = true) stopped
           (fun _ => F))
        (I_stopping : triple safe I stopping (fun r w =>
           I w ∧ (r = Continue → I (mkWorld (continued (impl w)) (env w)))))
        (I_handle_unsync : ∀ e, triple safe I (handle_unsync e) (fun _ => I))
        (I_handle_sync : ∀ e,
           triple safe (fun w => I w ∧ is_Some (sync_msgs (mailbox (impl w)))) (handle_sync e)
             (fun _ w => I w ∧ is_Some (sync_msgs (mailbox (impl w))))).
Context (I_wait : ∀ f, triple safe I (fut_poll f) (fun _ => I)).
(** A polled item stays at its index, with its handle, in the safe reading. *)
Context (I_item : ∀ f h idx,
  triple safe (fun w => I w ∧ ∃ g, items (impl w) !! idx = Some (h, g)) (fut_poll f)
    (fun _ w => I w ∧ (safe = true → ∃ g, items (impl w) !! idx = Some (h, g)))).
(** In the safe reading the mailbox does not reach the limit of a debug build. *)
Context (I_debug : safe = true → debug = false).

Lemma triple_internal (f : ContextImpl → ContextImpl) :
  (∀ c, internal c (f c)) → triple safe I (on_impl f : Prog World Task ()) (fun _ => I).
Proof. intros Hf. apply triple_modify. intros w Hw. by apply I_internal. Qed.

Lemma triple_count_poll (J : World → Prop) n :
  triple safe J (lift (count_poll debug n) : Prog World Task Z) (fun _ => J).
Proof.
  intros w Hw. unfold lift, count_poll. destruct debug eqn:Hd; [| done].
  destruct (_ <? _); simpl; [done |]. destruct safe; [| done]. by specialize (I_debug eq_refl).
Qed.

Lemma triple_drain {E} (J : World → Prop) fuel rx (h : E → Prog World Task ()) n nr :
  triple safe J rx (fun _ => J) → (∀ e, triple safe J (h e) (fun _ => J)) →
  triple safe J (drain_loop (fun w => waiting (impl w)) debug fuel rx h n nr) (fun _ => J).
Proof.
  intros Hrx Hh. revert n nr. induction fuel as [|fuel IH]; intros n nr; [done |].
  cbn [drain_loop]. eapply triple_bind; [by apply (triple_gets _ J _ (fun _ => J)) |].
  intros [|]; [by apply triple_ret; auto |].
  eapply triple_bind; [apply Hrx |]. intros [[[e|]|]|]; [| by apply triple_ret; auto..].
  eapply triple_bind; [apply Hh |]. intros ?.
  eapply triple_bind; [apply triple_count_poll |]. intros n'. apply IH.
Qed.

Lemma triple_mailbox_poll fuel : triple safe I (mailbox_poll debug current fuel) (fun _ => I).
Proof.
  unfold mailbox_poll, Mailbox.poll. generalize 0.
  induction fuel as [|fuel IH]; intros n; [done |]. cbn [poll_loop].
  eapply triple_bind; [by apply triple_drain |]. intros [[n1 nr1]|]; [| by apply triple_ret; auto].
  eapply (triple_bind _ _ _ _ (fun o w => I w ∧ (is_Some o → is_Some (sync_msgs (mailbox (impl w)))))).
  { apply triple_gets. intros w Hw. by split. }
  intros o. apply (triple_bind _ _ _ _ (fun _ => I)).
  - destruct o as [i|]; [| by apply triple_ret; intros w [Hw _]].
    eapply triple_conseq; [apply (triple_drain (fun w => I w ∧ is_Some (sync_msgs (mailbox (impl w)))));
      [apply I_sync | apply I_handle_sync] | |].
    + intros w [Hw Hi]. split; [done |]. by apply Hi.
    + by intros a w [Hw _].
  - intros [[n2 [|]]|]; [by apply triple_ret; auto | apply IH | by apply triple_ret; auto].
Qed.

Lemma triple_get_impl (J : World → Prop) :
  triple safe J (get_impl : Prog World Task _) (fun c w => J w ∧ c = impl w).
Proof. apply triple_gets. by intros w Hw. Qed.

Lemma triple_wait_item f : triple safe I (wait_item_poll f) (fun _ => I).
Proof.
  unfold wait_item_poll. eapply triple_bind; [apply I_wait |]. intros [f' r].
  eapply triple_bind; [apply triple_get_impl |]. intros c. apply triple_ret. by intros w [Hw _].
Qed.

Lemma triple_wait_loop fuel : triple safe I (wait_loop fuel) (fun _ => I).
Proof.
  induction fuel as [|fuel IH]; [done |]. cbn [wait_loop].
  eapply triple_bind; [apply triple_get_impl |]. intros c.
  eapply triple_pre; [| by intros w [Hw _]].
  destruct (last (wait c)) as [f|]; [| by apply triple_ret].
  destruct (is_stopping c); [by apply triple_ret |].
  eapply triple_bind; [apply triple_wait_item |]. intros [f' r].
  eapply triple_bind; [apply triple_internal; intros c'; apply int_wait_put |]. intros ?.
  destruct r; [| by apply triple_ret].
  eapply triple_bind; [apply triple_internal; intros c'; apply int_wait_pop |]. intros ?. apply IH.
Qed.

(** The handles of the items tell them apart. *)
Context (I_nodup : safe = true → ∀ w, I w → NoDup (items (impl w)).*1).

Lemma find_handle_Some h (l : list (SpawnHandle * Fut)) i :
  find_handle h l = Some i → ∃ g, l !! i = Some (h, g).
Proof.
  unfold find_handle. intros (x & Hf & ->)%fmap_Some. destruct x as [i [h' g]].
  apply list_find_Some in Hf as (Hl & Hh & _). simpl in *. subst. by exists g.
Qed.

Lemma find_handle_nodup h g (l : list (SpawnHandle * Fut)) i :
  NoDup l.*1 → l !! i = Some (h, g) → find_handle h l = Some i.
Proof.
  intros Hnd Hi. unfold find_handle.
  destruct (list_find (fun i => i.1 = h) l) as [[j [h' g']]|] eqn:Hf; simpl.
  - apply list_find_Some in Hf as (Hj & Hh & _). simpl in Hh. subst h'. f_equal.
    eapply NoDup_lookup; [done | by rewrite list_lookup_fmap, Hj | by rewrite list_lookup_fmap, Hi].
  - apply list_find_None in Hf. rewrite Forall_lookup in Hf. by destruct (Hf _ _ Hi).
Qed.

Lemma triple_put_item h f idx :
  triple safe (fun w => I w ∧ (safe = true → ∃ g, items (impl w) !! idx = Some (h, g)))
    (put_item h f)
    (fun _ w => I w ∧ (safe = true → (idx < length (items (impl w)))%nat)).
Proof.
  intros w [Hw Hi]. unfold put_item, get_impl, gets, mbind, prog_bind; simpl.
  destruct (find_handle h (items (impl w))) as [i|] eqn:Hf; simpl.
  - destruct (find_handle_Some _ _ _ Hf) as [g Hg]. split.
    + apply (I_internal w); [done |]. by eapply int_put.
    + intros Hs. destruct (Hi Hs) as [g' Hg']. rewrite length_insert. by eapply lookup_lt_Some.
  - destruct safe; [| done]. destruct (Hi eq_refl) as [g Hg].
    by rewrite (find_handle_nodup _ _ _ _ (I_nodup eq_refl _ Hw) Hg) in Hf.
Qed.

Lemma triple_items_loop fuel idx : triple safe I (items_loop fuel idx) (fun _ => I).
Proof.
  revert idx. induction fuel as [|fuel IH]; intros idx; [done |]. cbn [items_loop].
  eapply triple_bind; [apply triple_get_impl |]. intros c.
  destruct (items c !! idx) as [[h f]|] eqn:Hi; [| by apply triple_ret; intros w [Hw _]].
  destruct (is_stopping c); [by apply triple_ret; intros w [Hw _] |].
  apply (triple_bind _ _ _ _ (fun _ w => I w ∧ ∃ g, items (impl w) !! idx = Some (h, g))).
  { apply triple_modify. intros w [Hw ->]. split; [apply I_internal; [done | apply int_curr] |].
    simpl. by exists f. }
  intros ?. eapply triple_bind; [apply I_item |]. intros [f' r].
  eapply triple_bind; [apply triple_put_item |]. intros ?.
  assert (∀ c', triple safe
    (fun w => (I w ∧ (safe = true → (idx < length (items (impl w)))%nat)) ∧ c' = impl w)
    ('(_, l) ← lift (unwrap "index out of bounds" (swap_remove (items c') idx));
     _ ← on_impl (set_items l); c ← get_impl;
     if must_wait c then mret Again else items_loop fuel idx) (fun _ => I)) as Hremove.
  { intros c' w [[Hw Hlt] ->]. unfold lift, unwrap, mbind, prog_bind; simpl.
    destruct (swap_remove (items (impl w)) idx) as [[x l]|] eqn:Hsw; simpl.
    - assert (I (mkWorld (set_items l (impl w)) (env w))) as Hw'
        by (apply I_internal; [done | by eapply int_swap_remove]).
      destruct (must_wait _); [done |].
      specialize (IH idx _ Hw'). by destruct (items_loop fuel idx _) as [[[? ?] ?]| | |].
    - apply swap_remove_None in Hsw. destruct safe; [| done]. specialize (Hlt eq_refl). lia. }
  destruct r as [[u|]|u].
  - eapply triple_bind; [apply triple_get_impl |]. apply Hremove.
  - eapply triple_bind; [apply triple_get_impl |]. intros c'.
    destruct (must_wait c'); [| eapply triple_pre; [apply IH | by intros w [[Hw _] _]]].
    case_bool_decide as Hne.
    + intros w [[Hw Hlt] ->]. unfold lift, unwrap, mbind, prog_bind; simpl.
      destruct (list_swap _ _ _) as [l|] eqn:Hsw; simpl.
      * apply I_internal; [done |]. by eapply int_swap.
      * destruct safe; [| done]. specialize (Hlt eq_refl). unfold list_swap in Hsw.
        destruct (lookup_lt_is_Some_2 (items (impl w)) idx) as [x Hx]; [done |].
        destruct (lookup_lt_is_Some_2 (items (impl w)) (pred (length (items (impl w)))))
          as [y Hy]; [lia |].
        by rewrite Hx, Hy in Hsw.
    + eapply triple_bind; [by apply (triple_ret _ _ _ (fun _ => I)); intros w [[Hw _] _] |].
      intros ?. by apply triple_ret.
  - eapply triple_bind; [apply triple_get_impl |]. apply Hremove.
Qed.

Definition ended (o : option (Poll () ())) (w : World) : Prop :=
  match o with Some (Ok NotReady) | None => I w | _ => F w end.

Lemma triple_stop_now (J : World → Prop) :
  (∀ w, J w → I w) →
  triple safe J (_ ← on_impl (set_flags STOPPED); _ ← stopped;
    mret (Some (Ok (Ready ()) : Poll () ()))) ended.
Proof.
  intros HJ. eapply (triple_bind _ _ _ _
    (fun _ w => I w ∧ flags_contains (flags (impl w)) STOPPED = true)).
  { apply triple_modify. intros w Hw. split; [| done].
    apply I_internal; [by apply HJ | apply int_stopped]. }
  intros ?. eapply triple_bind; [apply I_stopped |]. intros ?. by apply triple_ret.
Qed.

Lemma triple_finish : triple safe I finish ended.
Proof.
  unfold finish. eapply triple_bind; [apply triple_internal; intros c; apply int_curr |]. intros ?.
  eapply triple_bind; [apply triple_get_impl |]. intros c.
  assert (∀ o : option (Poll () ()), match o with Some (Ok NotReady) | None => True | _ => False end →
    triple safe (fun w => I w ∧ c = impl w) (mret o : Prog World Task _) ended) as Hret.
  { intros o Ho. apply triple_ret. intros w [Hw _]. by destruct o as [[[|]|]|]. }
  destruct (_ && _); [by apply Hret |].
  destruct (flags_contains (flags c) RUNNING).
  { destruct (alive c); [by apply Hret |].
    eapply triple_bind; [eapply triple_pre; [apply I_stopping | by intros w [Hw _]] |].
    intros [|]; [apply triple_stop_now; by intros w [Hw _] |].
    apply triple_ret. by intros w [Hw _]. }
  destruct (flags_contains (flags c) STOPPING).
  { eapply triple_bind; [eapply triple_pre; [apply I_stopping | by intros w [Hw _]] |].
    intros [|]; [apply triple_stop_now; by intros w [Hw _] |].
    eapply (triple_bind _ _ _ _ (fun _ => I)); [| intros ?; by apply triple_ret].
    apply triple_modify. intros w [_ Hw]. by apply Hw. }
  destruct (flags_contains (flags c) STOPPED) eqn:Hst; [| by apply Hret].
  eapply triple_bind; [eapply triple_pre; [apply I_stopped | by intros w [Hw ->]] |].
  intros ?. by apply triple_ret.
Qed.

(** Whatever [outer_loop] returns: the invariant, or [F] if it completes. *)
Definition completed (r : Poll () ()) (w : World) : Prop :=
  match r with Ok NotReady => I w | _ => F w end.

Lemma triple_outer_loop fuel : triple safe I (outer_loop debug current fuel) completed.
Proof.
  induction fuel as [|fuel IH]; [done |]. cbn [outer_loop].
  eapply triple_bind; [apply triple_internal; intros c'; apply int_clear |]. intros ?.
  eapply triple_bind; [apply triple_wait_loop |]. intros [|]; [by apply triple_ret |].
  eapply triple_bind; [apply triple_mailbox_poll |]. intros ?.
  eapply triple_bind; [apply triple_get_impl |]. intros c'.
  eapply triple_pre; [| by intros w [Hw _]; exact Hw].
  destruct (must_wait c'); [done |].
  eapply triple_bind; [apply triple_items_loop |]. intros [|]; [| done].
  eapply triple_bind; [apply triple_finish |].
  intros [r|]; [| done]. apply triple_ret. intros w Hw. by destruct r as [[[]|]|].
Qed.

Context (I_started : triple safe I started (fun _ => I)).

(** The invariant rule of [poll], on a context that has an actor. *)
Lemma poll_triple fuel :
  triple safe (fun w => I w ∧ is_Some (act (impl w))) (poll debug current fuel) completed.
Proof.
  unfold poll. eapply triple_bind; [apply triple_get_impl |]. intros c.
  destruct (act c) as [a|] eqn:Ha; [| by intros w [[_ [? Ha']] ->]; rewrite Ha in Ha'].
  eapply triple_pre; [| by intros w [[Hw _] _]; exact Hw].
  apply (triple_bind _ _ _ _ (fun _ => I)); [| intros _; apply triple_outer_loop].
  destruct (flags_contains _ _); [by apply triple_ret |].
  eapply triple_bind; [apply triple_internal; intros c'; apply int_started |].
  intros ?. apply I_started.
Qed.
End poll.
End rule.
