(* ===== verification/ContextLaws.v ===== *)
(** * Actors that reach their context through its methods only

    [api] is what one call of a method of the context, or of an address of the
    actor, can do; [ActorLaws] says that the actor's callbacks and futures do
    nothing else to the context.  With [cancels = false] they never cancel a
    future.  The properties of [ContextImpl.poll] that follow from this: *)

From S2P Require Import Prelude.
From S2P Require Import Queue.
From S2P Require Import Envelope.
From S2P Require Import UnsyncChannel.
From S2P Require Import SyncChannel.
From S2P Require Import Mailbox.
From S2P Require Import MailboxProps.
From S2P Require Import ContextImpl.
From S2P Require Import ContextProps.

Section laws.
Context {A V Fut M Txs Txu Task : Type} {Q : Type → Type} `{!MpscQueue Q}.
Abbreviation ContextImpl := (@ContextImpl A Fut M Txs Txu Task Q).
Abbreviation World := (@World A V Fut M Txs Txu Task Q).
Abbreviation Mailbox := (@Mailbox M Txs Txu Task Q).
Implicit Types (c : ContextImpl) (w : World) (mb : Mailbox).

(** Both receivers are alive and in order. *)
Definition mailbox_ok mb : Prop := ∃ us ss, mailbox_holds mb us ss.

Inductive api (cancels : bool) : World → World → Prop :=
| api_env v w : api cancels w (mkWorld (impl w) v)
| api_actor a w : api cancels w (mkWorld (set_act (Some a) (impl w)) (env w))
| api_mailbox mb w :
    (mailbox_ok (mailbox (impl w)) → mailbox_ok mb) →
    (is_Some (sync_msgs (mailbox (impl w))) → is_Some (sync_msgs mb)) →
    api cancels w (put_mailbox mb w)
| api_modify w : api cancels w (mkWorld (modified (impl w)) (env w))
| api_stop w : api cancels w (mkWorld (stop (impl w)) (env w))
| api_terminate w : api cancels w (mkWorld (terminate (impl w)) (env w))
| api_spawn f w :
    (** fewer than [2^64] futures are ever spawned *)
    handle (impl w) + 1 < usize_modulus →
    api cancels w (mkWorld (spawn f (impl w)) (env w))
| api_wait f w : api cancels w (mkWorld (wait_for f (impl w)) (env w))
| api_cancel h w :
    cancels = true → api cancels w (mkWorld (cancel_future h (impl w)).2 (env w)).

Definition obeys {X} (safe cancels : bool) (m : Prog World Task X) : Prop :=
  ∀ w, match m w with
       | Return (_, w', _) => rtc (api cancels) w w'
       | OutOfFuel => True
       | Panic _ | Undef => safe = false
       end.

(** [safe]: the actor's own code does not panic either. *)
Class ActorLaws `{!ActorCode (A := A) (V := V) (Fut := Fut) (M := M) (Txs := Txs) (Txu := Txu)
    (Task := Task) (Q := Q)} (safe cancels : bool) : Prop := {
  law_started : obeys safe cancels started;
  law_stopping : obeys safe cancels stopping;
  law_stopped : obeys safe cancels stopped;
  law_handle_unsync e : obeys safe cancels (handle_unsync e);
  law_handle_sync e : obeys safe cancels (handle_sync e);
  law_fut_poll f : obeys safe cancels (fut_poll f)
}.

Lemma obeys_triple {X} safe cancels (m : Prog World Task X) (I : World → Prop) :
  obeys safe cancels m → (∀ w w', api cancels w w' → I w → I w') →
  triple safe I m (fun _ => I).
Proof.
  intros Hm HI w Hw. specialize (Hm w). destruct (m w) as [[[x w'] t]| | |]; [| done..].
  induction Hm; [done | eauto].
Qed.

(** ** One state at a time *)

(** The life-cycle bits are one of running, stopping and stopped; [STARTED] and
    [MODIFIED] are free. *)
Definition one_state (f : Z) : Prop :=
  existsb (Z.eqb f) [2; 3; 34; 35; 4; 5; 36; 37; 16; 17; 48; 49] = true.

(** What the flag updates of the source do to such a flag word. *)
Record flag_updates (f : Z) : Prop := mkUpdates {
  upd_clear : one_state (flags_remove f MODIFIED);
  upd_started : one_state (flags_insert f STARTED);
  upd_modified : one_state (flags_insert f MODIFIED);
  upd_stop : flags_contains f RUNNING = true →
    one_state (flags_insert (flags_remove f (Z.lor RUNNING MODIFIED)) STOPPING);
  upd_continue : flags_contains f STOPPED = false →
    one_state (flags_insert (flags_remove f STOPPING) RUNNING);
  upd_stopped : flags_contains f STOPPED = true →
    flags_contains f RUNNING = false ∧ flags_contains (flags_insert f MODIFIED) STOPPED = true
}.

Lemma one_state_updates f : one_state f → flag_updates f.
Proof.
  intros Hf. apply existsb_exists in Hf as (g & Hg & <-%Z.eqb_eq).
  repeat (destruct Hg as [<-|Hg]; [by split | ]). destruct Hg.
Qed.

Lemma one_state_internal w c' :
  one_state (flags (impl w)) → internal (impl w) c' → one_state (flags c').
Proof.
  intros H Hi. pose proof (one_state_updates _ H) as [].
  by destruct Hi.
Qed.

Lemma one_state_api cancels w w' :
  api cancels w w' → one_state (flags (impl w)) → one_state (flags (impl w')).
Proof.
  intros Ha H. pose proof (one_state_updates _ H) as []. destruct Ha; simpl in *; try done.
  - unfold stop. destruct (flags_contains _ _); auto.
  - unfold cancel_future. destruct (find_handle _ _); [| done].
    by destruct (swap_remove _ _) as [[??]|].
Qed.

Definition is_stopped w : Prop := flags_contains (flags (impl w)) STOPPED = true.

Lemma is_stopped_api cancels w w' :
  api cancels w w' → one_state (flags (impl w)) ∧ is_stopped w →
  one_state (flags (impl w')) ∧ is_stopped w'.
Proof.
  intros Ha [H Hs]. split; [by eapply one_state_api |].
  pose proof (one_state_updates _ H) as [_ _ _ _ _ Hu]. destruct (Hu Hs) as [Hr Hm].
  unfold is_stopped in *. destruct Ha; simpl in *; try done.
  - unfold stop. by rewrite Hr.
  - unfold cancel_future. destruct (find_handle _ _); [| done].
    by destruct (swap_remove _ _) as [[??]|].
Qed.

(** ** The receivers *)

Definition ignores_mailbox (I : World → Prop) : Prop := ∀ mb w, I w → I (put_mailbox mb w).

Lemma poll_unsync_triple current (I : World → Prop) :
  ignores_mailbox I →
  triple false I (poll_unsync (fun w => mailbox (impl w)) put_mailbox current) (fun _ => I).
Proof.
  intros HI w Hw. unfold poll_unsync, in_mailbox.
  destruct (on_unsync _ _) as [[[x mb] t]| | |]; [by apply HI | done..].
Qed.

Lemma on_sync_is_Some {X} (m : Prog _ Task X) mb x mb' t :
  on_sync m mb = Return (x, mb', t) → is_Some (sync_msgs mb').
Proof.
  unfold on_sync. intros Hm. apply exec_bind_Return_inv in Hm as (i & _ & Hm).
  apply exec_bind_Return_inv in Hm as ([[x' i'] t'] & _ & [= _ <- _]). by eexists.
Qed.

Lemma poll_sync_triple current (I : World → Prop) :
  ignores_mailbox I →
  triple false (fun w => I w ∧ is_Some (sync_msgs (mailbox (impl w))))
    (poll_sync (fun w => mailbox (impl w)) put_mailbox current)
    (fun _ w => I w ∧ is_Some (sync_msgs (mailbox (impl w)))).
Proof.
  intros HI w [Hw _]. unfold poll_sync, in_mailbox.
  destruct (on_sync _ _) as [[[x mb] t]| | |] eqn:Hm; [| done..].
  simpl. split; [by apply HI | by eapply on_sync_is_Some].
Qed.

Definition has_sync w : Prop := is_Some (sync_msgs (mailbox (impl w))).

Lemma has_sync_api cancels w w' : api cancels w w' → has_sync w → has_sync w'.
Proof.
  unfold has_sync. intros Ha H. destruct Ha; simpl in *; auto.
  - unfold stop. by destruct (flags_contains _ _).
  - unfold cancel_future. destruct (find_handle _ _); [| done].
    by destruct (swap_remove _ _) as [[??]|].
Qed.

(** *** Safety of the receivers *)

Definition mailbox_fine w : Prop := mailbox_ok (mailbox (impl w)).

Lemma mailbox_fine_api cancels w w' : api cancels w w' → mailbox_fine w → mailbox_fine w'.
Proof.
  unfold mailbox_fine. intros Ha H. destruct Ha; simpl in *; auto.
  - unfold stop. by destruct (flags_contains _ _).
  - unfold cancel_future. destruct (find_handle _ _); [| done].
    by destruct (swap_remove _ _) as [[??]|].
Qed.

Lemma poll_unsync_safe current (I : World → Prop) :
  ignores_mailbox I →
  triple true (fun w => I w ∧ mailbox_fine w)
    (poll_unsync (fun w => mailbox (impl w)) put_mailbox current)
    (fun _ w => I w ∧ mailbox_fine w).
Proof.
  intros HI w [Hw (us & ss & Hu & Hs)]. unfold poll_unsync, in_mailbox, on_unsync.
  assert (∃ x r t us', rx_poll current (unsync_msgs (mailbox (impl w))) = Return (x, r, t) ∧
    rx_holds r us') as (x & r & t & us' & -> & Hr).
  { destruct us as [|e us].
    - destruct (rx_poll_nil current _ Hu) as (x & r & t & ? & ? & _). by exists x, r, t, [].
    - destruct (rx_poll_cons current _ _ _ Hu) as (r & t & ? & ?). by eexists _, r, t, us. }
  split; [by apply HI |]. by exists us', ss.
Qed.

Lemma poll_sync_safe current (I : World → Prop) :
  ignores_mailbox I →
  triple true (fun w => (I w ∧ mailbox_fine w) ∧ has_sync w)
    (poll_sync (fun w => mailbox (impl w)) put_mailbox current)
    (fun _ w => (I w ∧ mailbox_fine w) ∧ has_sync w).
Proof.
  intros HI w [[Hw (us & ss & Hu & Hs)] [i Hi]]. unfold poll_sync, in_mailbox.
  rewrite Hi in Hs.
  assert (∃ x r t ss', rx_poll current i = Return (x, r, t) ∧ rx_holds r ss')
    as (x & r & t & ss' & Hr & Hr').
  { destruct ss as [|e ss].
    - destruct (rx_poll_nil current _ Hs) as (x & r & t & ? & ? & _). by exists x, r, t, [].
    - destruct (rx_poll_cons current _ _ _ Hs) as (r & t & ? & ?). by eexists _, r, t, ss. }
  rewrite (on_sync_run _ _ _ _ _ _ Hi Hr). simpl.
  split; [split; [by apply HI | by exists us, ss'] | by eexists].
Qed.

(** ** Unique handles *)

(** The handles of the spawned futures tell them apart and are not above the
    last one given out. *)
Definition handles_unique c : Prop :=
  NoDup (items c).*1 ∧ Forall (fun h => 0 < h ≤ handle c) (items c).*1 ∧
  0 ≤ handle c < usize_modulus.

Lemma handles_unique_sub l c :
  handles_unique c → (∃ x, (items c).*1 ≡ₚ x :: l.*1) ∨ (items c).*1 ≡ₚ l.*1 →
  handles_unique (set_items l c).
Proof.
  intros (Hnd & Hf & Hh) Hp. assert (NoDup l.*1 ∧ Forall (fun h => 0 < h ≤ handle c) l.*1) as [??].
  { destruct Hp as [[x Hp]|Hp]; rewrite Hp in Hnd, Hf.
    - by apply NoDup_cons in Hnd as [_ ?]; apply Forall_cons in Hf as [_ ?].
    - done. }
  unfold handles_unique; simpl. done.
Qed.

Lemma swap_remove_handles (l : list (SpawnHandle * Fut)) i x l' :
  swap_remove l i = Some (x, l') → l.*1 ≡ₚ x.1 :: l'.*1.
Proof. intros H%swap_remove_Permutation. by rewrite H. Qed.

Lemma list_swap_Permutation {X} (l : list X) i j l' : list_swap l i j = Some l' → l ≡ₚ l'.
Proof.
  unfold list_swap. destruct (l !! i) as [x|] eqn:Hi; [| done].
  destruct (l !! j) as [y|] eqn:Hj; [| done]. intros [= <-].
  destruct (decide (i = j)) as [->|Hne].
  - rewrite list_insert_insert_eq. simplify_eq. by rewrite list_insert_id.
  - apply (Permutation_cons_inv (a := x)).
    rewrite (insert_Permutation (<[j:=x]> l) i y x) by by rewrite list_lookup_insert_ne.
    symmetry. by apply insert_Permutation.
Qed.

Lemma handles_unique_internal w c' :
  handles_unique (impl w) → internal (impl w) c' → handles_unique c'.
Proof.
  intros H Hi. destruct Hi; try exact H.
  - apply handles_unique_sub; [done | right]. rewrite list_fmap_insert. simpl.
    rewrite list_insert_id; [done |]. rewrite list_lookup_fmap. by rewrite H0.
  - apply handles_unique_sub; [done | right]. by rewrite (list_swap_Permutation _ _ _ _ H0).
  - apply handles_unique_sub; [done | left]. eexists. by eapply swap_remove_handles.
Qed.

Lemma find_handle_lookup h (l : list (SpawnHandle * Fut)) i :
  find_handle h l = Some i → (i < length l)%nat.
Proof.
  intros Hf. destruct (find_handle_Some _ _ _ Hf) as [g Hg]. by eapply lookup_lt_Some.
Qed.

Lemma handles_unique_api cancels w w' :
  api cancels w w' → handles_unique (impl w) → handles_unique (impl w').
Proof.
  intros Ha H. destruct Ha; simpl in *; try exact H.
  - unfold stop. by destruct (flags_contains _ _).
  - destruct H as (Hnd & Hf & Hh). unfold handles_unique, spawn, next_handle; simpl.
    rewrite wrap_small by (unfold is_usize; lia). rewrite fmap_app; simpl. split_and!; try lia.
    + apply NoDup_app. split_and!; [done | | apply NoDup_singleton].
      intros h Hin ->%list_elem_of_singleton. rewrite Forall_forall in Hf.
      specialize (Hf _ Hin). lia.
    + apply Forall_app. split; [| apply Forall_singleton; lia].
      eapply Forall_impl; [done |]. simpl. intros. lia.
  - unfold cancel_future. destruct (find_handle _ _) as [i|]; [| done].
    destruct (swap_remove _ _) as [[x l]|] eqn:Hsw; simpl; [| exact H].
    apply (handles_unique_sub l (modified (impl w))); [exact H | left]. eexists.
    by eapply swap_remove_handles.
Qed.

(** ** The invariant rule for such actors *)

Section api_rule.
Context `{!ActorCode (A := A) (V := V) (Fut := Fut) (M := M) (Txs := Txs) (Txu := Txu)
            (Task := Task) (Q := Q)}.
Context (debug : bool) (current : Task) (cancels : bool).
Context (I F : World → Prop).
Context (I_api : ∀ w w', api cancels w w' → I w → I w')
        (I_internal : ∀ w c, I w → internal (impl w) c → I (mkWorld c (env w)))
        (I_mailbox : ignores_mailbox I)
        (F_stopped : ∀ w, I w → is_stopped w → F w)
        (F_api : ∀ w w', api cancels w w' → I w ∧ F w → F w').

Lemma obeys_stopped safe {X} (m : Prog World Task X) (J : World → Prop) :
  obeys safe cancels m → (∀ w w', api cancels w w' → J w → J w') →
  triple safe (fun w => (I w ∧ J w) ∧ is_stopped w) m (fun _ w => (I w ∧ J w) ∧ F w).
Proof.
  intros Hm HJ. eapply triple_conseq; [apply (obeys_triple safe cancels m
    (fun w => (I w ∧ J w) ∧ F w) Hm) | |].
  - intros w w' Ha [[Hw Hj] Hf]. split; [split; eauto | by eapply F_api].
  - intros w [[Hw Hj] Hs]. split; [by split | by apply F_stopped].
  - by intros x w [[Hw Hj] Hf].
Qed.

Lemma poll_preserves fuel :
  ActorLaws false cancels →
  triple false I stopping
    (fun r w => I w ∧ (r = Continue → I (mkWorld (continued (impl w)) (env w)))) →
  triple false (fun w => I w ∧ is_Some (act (impl w))) (poll debug current fuel)
    (fun r w => I w ∧ (r ≠ Ok NotReady → F w)).
Proof.
  intros [Ls _ Ld Lu Ly Lf] Hstopping.
  eapply (triple_conseq _ _ (fun w => I w ∧ is_Some (act (impl w))) _ _ (completed I (fun w => I w ∧ F w))); [| done |].
  2: { intros [[[]|]|] w Hw; simpl in Hw; [by destruct Hw | by split | by destruct Hw]. }
  assert (∀ X (m : Prog World Task X), obeys false cancels m → triple false I m (fun _ => I)) as Ho
    by (intros X m Hm; by eapply obeys_triple).
  apply poll_triple; try done; try (by auto).
  - by apply poll_unsync_triple.
  - by apply poll_sync_triple.
  - eapply triple_conseq; [apply (obeys_stopped false _ (fun _ => True) Ld); auto | |].
    + by intros w [Hw Hs].
    + by intros x w [[Hw _] Hf].
  - intros e. apply (obeys_triple _ _ _ _ (Ly e)). intros w w' Ha [Hw Hs].
    split; [eauto | by eapply has_sync_api].
  - intros f h idx. eapply triple_conseq; [apply (Ho _ _ (Lf f)) | by intros w [Hw _] |].
    intros x w Hw. by split.
Qed.
End api_rule.

(** An item stays where it is while nothing is cancelled. *)
Lemma item_stays w w' idx h :
  api false w w' → (∃ g, items (impl w) !! idx = Some (h, g)) →
  ∃ g, items (impl w') !! idx = Some (h, g).
Proof.
  intros Ha [g Hg]. destruct Ha; simpl in *; try (by exists g); try done.
  - exists g. unfold stop. by destruct (flags_contains _ _).
  - exists g. rewrite lookup_app_l; [done | by eapply lookup_lt_Some].
Qed.

(** ** The properties *)

Section properties.
Context `{!ActorCode (A := A) (V := V) (Fut := Fut) (M := M) (Txs := Txs) (Txu := Txu)
            (Task := Task) (Q := Q)}.
Context (current : Task).

(** An actor that was terminated while it was asked to stop does not ask to
    continue. *)
Definition accepts_termination : Prop :=
  ∀ w w' t, stopping w = Return (Continue, w', t) → flags_contains (flags (impl w')) STOPPED = false.

(** C15: the life cycle.  A context that is in exactly one of the states running,
    stopping and stopped is so after [poll], whatever the actor does through its
    context, provided it accepts its own termination; and if [poll] completes,
    the actor is stopped. *)
Theorem context_one_state debug fuel w r w' t :
  ActorLaws false true → accepts_termination →
  one_state (flags (impl w)) → is_Some (act (impl w)) →
  poll debug current fuel w = Return (r, w', t) →
  one_state (flags (impl w')) ∧ (r ≠ Ok NotReady → state (impl w') = AStopped).
Proof.
  intros L Hacc Hw Ha Hp.
  set (I w := one_state (flags (impl w))).
  assert (triple false I stopping
    (fun r w => I w ∧ (r = Continue → I (mkWorld (continued (impl w)) (env w))))) as Hst.
  { intros w0 H0. pose proof (obeys_triple _ _ _ I law_stopping
      (fun w w' => one_state_api true w w') w0 H0) as H1.
    destruct (stopping w0) as [[[r0 w1] t1]| | |] eqn:Hs; [| done..].
    split; [done |]. intros ->. apply one_state_updates in H1 as []. by apply upd_continue0, (Hacc w0 w1 t1). }
  pose proof (poll_preserves debug current true I is_stopped
    (fun w w' => one_state_api true w w') one_state_internal (fun _ _ H => H)
    (fun _ _ H => H) (fun w w' Ha' H => proj2 (is_stopped_api true w w' Ha' H)) fuel L Hst w
    (conj Hw Ha)) as Ht.
  rewrite Hp in Ht. destruct Ht as [H1 H2]. split; [done |]. intros Hr. unfold state.
  destruct (upd_stopped _ (one_state_updates _ H1) (H2 Hr)) as [-> _].
  by rewrite (H2 Hr : flags_contains _ _ = true).
Qed.

(** C16: the handles of the spawned futures stay unique through [poll], and so
    [cancel_future] removes exactly the future whose handle it is given. *)
Theorem context_handles_unique debug fuel w r w' t :
  ActorLaws false true →
  handles_unique (impl w) → is_Some (act (impl w)) →
  poll debug current fuel w = Return (r, w', t) →
  handles_unique (impl w') ∧
  ∀ h, (∃ f, items (impl w') ≡ₚ (h, f) :: items (cancel_future h (impl w')).2 ∧
             (cancel_future h (impl w')).1 = true ∧
             h ∉ (items (cancel_future h (impl w')).2).*1) ∨
       (cancel_future h (impl w') = (false, impl w') ∧ h ∉ (items (impl w')).*1).
Proof.
  intros L Hw Ha Hp.
  set (I w := handles_unique (impl w)).
  assert (triple false I stopping
    (fun r w => I w ∧ (r = Continue → I (mkWorld (continued (impl w)) (env w))))) as Hst.
  { eapply triple_conseq; [apply (obeys_triple _ _ _ I law_stopping
      (fun w w' => handles_unique_api true w w')) | done |]. by intros x w0 H0. }
  pose proof (poll_preserves debug current true I (fun _ => True)
    (fun w w' => handles_unique_api true w w') handles_unique_internal (fun _ _ H => H)
    (fun _ _ _ => Logic.I) (fun _ _ _ _ => Logic.I) fuel L Hst w (conj Hw Ha)) as Ht.
  rewrite Hp in Ht. destruct Ht as [H1 _]. split; [done |]. intros h.
  destruct H1 as (Hnd & _ & _). unfold cancel_future.
  destruct (find_handle h (items (impl w'))) as [i|] eqn:Hf.
  - left. destruct (find_handle_Some _ _ _ Hf) as [f Hi].
    destruct (swap_remove (items (impl w')) i) as [[x l]|] eqn:Hsw.
    + pose proof (swap_remove_Permutation _ _ _ _ Hsw) as Hperm.
      assert (x = (h, f)) as ->.
      { unfold swap_remove in Hsw. rewrite Hi in Hsw. destruct (last _); by simplify_eq. }
      exists f. split_and!; [done | done |]. simpl. rewrite Hperm in Hnd.
      by apply NoDup_cons in Hnd as [? _].
    + apply swap_remove_None in Hsw. apply lookup_lt_Some in Hi. lia.
  - right. split; [done |]. intros ([h' f] & -> & Hin)%list_elem_of_fmap.
    unfold find_handle in Hf. apply fmap_None, list_find_None in Hf.
    rewrite Forall_forall in Hf. by apply (Hf _ Hin).
Qed.

(** The rule above, with an invariant that excludes every panic. *)
Lemma poll_safe fuel w :
  ActorLaws true false →
  handles_unique (impl w) → mailbox_ok (mailbox (impl w)) → is_Some (act (impl w)) →
  match poll false current fuel w with
  | Return (_, w', _) => handles_unique (impl w') ∧ mailbox_ok (mailbox (impl w'))
  | OutOfFuel => True
  | Panic _ | Undef => False
  end.
Proof.
  intros [Ls Lp Ld Lu Ly Lf] Hw Hm Ha.
  set (I w := handles_unique (impl w) ∧ mailbox_fine w).
  assert (∀ w w', api false w w' → I w → I w') as Hapi.
  { intros w1 w2 H12 [H1 H2]. split; [by eapply handles_unique_api | by eapply mailbox_fine_api]. }
  assert (∀ X (m : Prog World Task X), obeys true false m → triple true I m (fun _ => I)) as Ho
    by (intros X m Hm'; by eapply obeys_triple).
  assert (triple true (fun w => I w ∧ is_Some (act (impl w))) (poll false current fuel)
    (completed I I)) as Ht.
  - apply poll_triple; try (by auto).
    + intros w0 c' [H1 H2] Hi. split; [by eapply handles_unique_internal |].
      unfold mailbox_fine in *. by destruct Hi.
    + exact (poll_unsync_safe current (fun w => handles_unique (impl w)) (fun _ _ H => H)).
    + exact (poll_sync_safe current (fun w => handles_unique (impl w)) (fun _ _ H => H)).
    + eapply triple_conseq; [apply (Ho _ _ Ld) | by intros w0 [? _] | done].
    + eapply triple_conseq; [apply (Ho _ _ Lp) | done | by intros x w0 H0].
    + intros e. apply (obeys_triple _ _ _ _ (Ly e)). intros w1 w2 H12 [H1 Hs].
      split; [eauto | by eapply has_sync_api].
    + intros f h idx. eapply triple_conseq; [apply (obeys_triple _ _ _
        (fun w => I w ∧ ∃ g, items (impl w) !! idx = Some (h, g)) (Lf f)) | done | by intros x w0 [? ?]].
      intros w1 w2 H12 [H1 Hg]. split; [eauto | by eapply item_stays].
    + intros _ w0 [(Hnd & _) _]. done.
  - specialize (Ht w (conj (conj Hw Hm) Ha)).
    destruct (poll false current fuel w) as [[[[[[]|]|] w'] t]| | |]; done.
Qed.

(** C17: safety of the unsafe re-entrancy.  If the actor's code does not panic
    and never cancels a future, then [poll] indexes no item out of bounds and
    no future is freed while it is being polled; in a release build [poll] does
    not panic at all. *)
Theorem context_poll_safe fuel w :
  ActorLaws true false →
  handles_unique (impl w) → mailbox_ok (mailbox (impl w)) → is_Some (act (impl w)) →
  match poll false current fuel w with
  | Return (_, w', _) => handles_unique (impl w') ∧ mailbox_ok (mailbox (impl w'))
  | OutOfFuel => True
  | Panic _ | Undef => False
  end.
Proof. apply poll_safe. Qed.

(** *** The order of the life-cycle callbacks *)

Inductive Event : Type := EStarted | EStopping | EStopped | EHandled | EPolled.

Definition middle (e : Event) : Prop := e ≠ EStarted ∧ e ≠ EStopped.

(** A log kept outside the context, to which each callback adds its event. *)
Context (log : V → list Event).

Definition adds {X} (e : Event) (m : Prog World Task X) : Prop :=
  ∀ w x w' t, m w = Return (x, w', t) → log (env w') = log (env w) ++ [e].

Class Logged : Prop := {
  logs_started : adds EStarted started;
  logs_stopping : adds EStopping stopping;
  logs_stopped : adds EStopped stopped;
  logs_unsync e : adds EHandled (handle_unsync e);
  logs_sync e : adds EHandled (handle_sync e);
  logs_poll f : adds EPolled (fut_poll f)
}.

(** The log is [l] followed by events of the middle of a life. *)
Definition living (l : list Event) w : Prop :=
  ∃ mid, log (env w) = l ++ mid ∧ Forall middle mid.
Definition over (l : list Event) w : Prop :=
  ∃ mid, log (env w) = l ++ mid ++ [EStopped] ∧ Forall middle mid.

Lemma living_adds {X} l e (m : Prog World Task X) :
  adds e m → middle e → triple false (living l) m (fun _ => living l).
Proof.
  intros Hm He w (mid & Hl & Hmid).
  destruct (m w) as [[[x w'] t]| | |] eqn:Hw; [| done..].
  exists (mid ++ [e]). rewrite (Hm _ _ _ _ Hw), Hl, <- app_assoc. split; [done |].
  apply Forall_app. split; [done | by apply Forall_singleton].
Qed.

Lemma over_adds l :
  adds EStopped stopped → triple false (living l) stopped (fun _ => over l).
Proof.
  intros Hm w (mid & Hl & Hmid).
  destruct (stopped w) as [[[x w'] t]| | |] eqn:Hw; [| done..].
  exists mid. rewrite (Hm _ _ _ _ Hw), Hl, <- app_assoc. done.
Qed.

Definition keeps_sync : Prop :=
  ∀ e w x w' t, handle_sync e w = Return (x, w', t) → has_sync w → has_sync w'.

Lemma lifecycle_triple debug l fuel :
  Logged → keeps_sync →
  triple false (living l) (outer_loop debug current fuel) (completed (living l) (over l)).
Proof.
  intros [Ls Lp Ld Lu Ly Lf] Hk.
  assert (∀ e X (m : Prog World Task X), adds e m → middle e →
    triple false (living l) m (fun _ => living l)) as Ho by (intros; by eapply living_adds).
  apply triple_outer_loop; try done.
  - exact (poll_unsync_triple current (living l) (fun _ _ H => H)).
  - exact (poll_sync_triple current (living l) (fun _ _ H => H)).
  - eapply triple_pre; [by apply over_adds | by intros w [Hw _]].
  - eapply triple_conseq; [by apply (Ho _ _ _ Lp) | done |]. by intros x w Hw.
  - intros e. by apply (Ho _ _ _ (Lu e)).
  - intros e w [Hw Hs]. pose proof (Ho _ _ _ (Ly e) ltac:(done) w Hw) as H1.
    destruct (handle_sync e w) as [[[x w'] t]| | |] eqn:He; [| done..].
    split; [done | by eapply Hk].
  - intros f. by apply (Ho _ _ _ (Lf f)).
  - intros f h idx. eapply triple_conseq; [by apply (Ho _ _ _ (Lf f)) | by intros w [Hw _] |].
    by intros x w Hw.
Qed.

(** C18: the order of the callbacks in a poll.  If the flag [STARTED] is set when
    the poll begins, [started] is not called in it; otherwise it is called once,
    before everything else.  [stopped] is called exactly when [poll] completes,
    once and after everything else.  Between them are only messages, futures and
    [stopping].  (It is not once per context: [terminate] forgets the flag, see
    [terminated_actor_started_twice].) *)
Theorem context_lifecycle_order debug fuel w r w' t :
  Logged → keeps_sync → is_Some (act (impl w)) →
  poll debug current fuel w = Return (r, w', t) →
  ∃ mid, Forall middle mid ∧
    log (env w') = log (env w) ++ (if has_started (impl w) then [] else [EStarted]) ++ mid ++
                   match r with Ok NotReady => [] | _ => [EStopped] end.
Proof.
  intros L Hk [a Ha] Hp. unfold poll in Hp.
  apply prog_bind_Return_inv in Hp as (c & w0 & t0 & t1 & [= <- <- <-] & Hp & _).
  rewrite Ha in Hp. apply prog_bind_Return_inv in Hp as (u & w1 & t2 & t3 & Hs & Hp & _).
  unfold has_started. set (l := log (env w) ++ if flags_contains (flags (impl w)) STARTED then [] else [EStarted]).
  assert (living l w1) as Hl.
  { exists []. split; [| done]. rewrite app_nil_r. unfold l.
    destruct (flags_contains _ _); [injection Hs as _ <- _; by rewrite app_nil_r |].
    apply prog_bind_Return_inv in Hs as (u' & w2 & t4 & t5 & [= _ <- _] & Hs & _).
    by apply logs_started in Hs. }
  pose proof (lifecycle_triple debug l fuel L Hk w1 Hl) as Ht. rewrite Hp in Ht.
  destruct r as [[[]|]|]; destruct Ht as (mid & Hm & Hmid); exists mid; (split; [done |]);
    rewrite Hm; unfold l; by rewrite <- ?app_assoc, ?app_nil_r.
Qed.
End properties.
End laws.
