(* ===== verification/ContextDemo.v ===== *)
(** * Scripted actors: runs of the context by evaluation

    An actor whose callbacks, messages and futures are lists of commands.  It
    satisfies the laws of [ContextLaws], so the properties apply to it (the
    witnesses), and runs of it show corner cases of [ContextImpl::poll]. *)

From S2P Require Import Prelude.
From S2P Require Import Queue.
From S2P Require Import Envelope.
From S2P Require Import UnsyncChannel.
From S2P Require Import SyncChannel.
From S2P Require Import Mailbox.
From S2P Require Import MailboxProps.
From S2P Require Import ContextImpl.
From S2P Require Import ContextProps.
From S2P Require Import ContextLaws.

(** A future is what it does at each poll, and whether it is then ready. *)
Inductive fut : Type :=
| Script (steps : list (list cmd * bool))
with cmd : Type :=
| CStop
| CTerminate
| CSpawn (f : fut)
| CWait (f : fut)
| CCancel (h : Z)
| CLog (n : Z).

Record Behaviour : Type := mkBehaviour {
  on_started : list cmd;
  on_stopping : list cmd * Running;
  on_stopped : list cmd;
  may_cancel : bool
}.

(** The outside world: the events, and the numbers logged by [CLog]. *)
Abbreviation Outside := (list Event * list Z)%type.
Abbreviation SWorld := (@World () Outside fut (list cmd) nat nat nat Queue).
Abbreviation SProg := (Prog SWorld nat).

Section scripted.
Context (b : Behaviour).

Definition log_event (e : Event) : SProg () :=
  modify (fun w => mkWorld (impl w) ((env w).1 ++ [e], (env w).2)).

Definition run_cmd (c : cmd) : SProg () :=
  match c with
  | CStop => on_impl stop
  | CTerminate => on_impl terminate
  | CSpawn f =>
      c ← get_impl;
      if handle c + 1 <? usize_modulus then on_impl (spawn f) else mret ()
  | CWait f => on_impl (wait_for f)
  | CCancel h => if may_cancel b then on_impl (fun c => (cancel_future h c).2) else mret ()
  | CLog n => modify (fun w => mkWorld (impl w) ((env w).1, (env w).2 ++ [n]))
  end.

Fixpoint run_cmds (cs : list cmd) : SProg () :=
  match cs with
  | [] => mret ()
  | c :: cs => _ ← run_cmd c; run_cmds cs
  end.

Definition callback (e : Event) (cs : list cmd) : SProg () := _ ← log_event e; run_cmds cs.

#[local] Instance scripted : ActorCode (A := ()) (V := Outside) (Fut := fut) (M := list cmd)
    (Txs := nat) (Txu := nat) (Task := nat) (Q := Queue) := {|
  started := callback EStarted (on_started b);
  stopping := _ ← callback EStopping (on_stopping b).1; mret (on_stopping b).2;
  stopped := callback EStopped (on_stopped b);
  restarting := mret ();
  handle_unsync e := callback EHandled (default [] (msg e));
  handle_sync e := callback EHandled (default [] (msg e));
  fut_poll f :=
    match f with
    | Script ((cs, ready) :: rest) =>
        _ ← callback EPolled cs;
        mret (Script rest, Ok (if ready : bool then Ready () else NotReady))
    | Script [] => _ ← callback EPolled []; mret (f, Ok (Ready ()))
    end
|}.

Lemma obeys_ret {X} (x : X) : obeys true (may_cancel b) (mret x : SProg X).
Proof. intros w. apply rtc_refl. Qed.

Lemma obeys_bind {X Y} (m : SProg X) (f : X → SProg Y) :
  obeys true (may_cancel b) m → (∀ x, obeys true (may_cancel b) (f x)) →
  obeys true (may_cancel b) (m ≫= f).
Proof.
  intros Hm Hf w. specialize (Hm w). unfold mbind, prog_bind.
  destruct (m w) as [[[x w1] t1]| | |]; simpl; [| done..].
  specialize (Hf x w1). destruct (f x w1) as [[[y w2] t2]| | |]; simpl; [| done..].
  by etrans.
Qed.

Lemma obeys_cmd c : obeys true (may_cancel b) (run_cmd c).
Proof.
  destruct c; simpl; try (intros w; apply rtc_once; by constructor).
  - intros w. unfold get_impl, gets, mbind, prog_bind; simpl.
    destruct (Z.ltb_spec (handle (impl w) + 1) usize_modulus); [| apply rtc_refl].
    apply rtc_once. by constructor.
  - destruct (may_cancel b) eqn:Hc; [| intros w; apply rtc_refl].
    intros w. apply rtc_once. by constructor.
Qed.

Lemma obeys_callback e cs : obeys true (may_cancel b) (callback e cs).
Proof.
  apply obeys_bind; [intros w; apply rtc_once; constructor |]. intros _.
  induction cs as [|c cs IH]; [apply obeys_ret |]. apply obeys_bind; [apply obeys_cmd | done].
Qed.

Lemma scripted_laws : ActorLaws true (may_cancel b).
Proof.
  split; simpl; intros; try apply obeys_callback.
  - apply obeys_bind; [apply obeys_callback | intros; apply obeys_ret].
  - destruct f as [[|[cs ready] rest]]; apply obeys_bind;
      (apply obeys_callback || (intros; apply obeys_ret)).
Qed.

(** Events are added by the callbacks only. *)
Lemma run_cmds_events cs w x w' t :
  run_cmds cs w = Return (x, w', t) → (env w').1 = (env w).1.
Proof.
  revert w x w' t. induction cs as [|c cs IH]; intros w x w' t H; [by injection H as _ <- _ |].
  simpl in H. apply prog_bind_Return_inv in H as (u & w1 & t1 & t2 & Hc & H & _).
  rewrite (IH _ _ _ _ H). clear H IH. destruct c; simpl in Hc; try (by injection Hc as _ <- _).
  - unfold get_impl, gets, mbind, prog_bind in Hc; simpl in Hc.
    destruct (_ <? _); by injection Hc as _ <- _.
  - destruct (may_cancel b); by injection Hc as _ <- _.
Qed.

Lemma callback_adds e cs : adds (λ v, v.1) e (callback e cs).
Proof.
  intros w x w' t H. unfold callback in H.
  apply prog_bind_Return_inv in H as (u & w1 & t1 & t2 & [= _ <- _] & H & _).
  by apply run_cmds_events in H.
Qed.

Lemma adds_bind_ret {X Y} e (m : SProg X) (y : X → Y) :
  adds (λ v, v.1) e m → adds (λ v, v.1) e (x ← m; mret (y x)).
Proof.
  intros Hm w x w' t H.
  apply prog_bind_Return_inv in H as (u & w1 & t1 & t2 & Hu & [= _ <- _] & _). by eapply Hm.
Qed.

Lemma scripted_logged : Logged (fun v : Outside => v.1).
Proof.
  split; simpl; intros; try apply callback_adds.
  - by apply adds_bind_ret, callback_adds.
  - destruct f as [[|[cs ready] rest]]; by apply adds_bind_ret, callback_adds.
Qed.
End scripted.

(** ** Runs *)

Definition fresh_world : SWorld := mkWorld (new (Some ())) ([], []).

(** [poll] in a release build, by task 9. *)
Definition poll_scripted (b : Behaviour) (fuel : nat) (w : SWorld) :
    Exec (Poll () () * SWorld * list nat) :=
  @ContextImpl.poll _ _ _ _ _ _ _ _ _ (scripted b) false 9%nat fuel w.

Definition result_world (m : Exec (Poll () () * SWorld * list nat)) : SWorld :=
  match m with Return (_, w, _) => w | _ => fresh_world end.

(** An actor that logs in [started] and spawns a future that is ready at its
    second poll, and otherwise lets itself be stopped. *)
Definition polite : Behaviour :=
  mkBehaviour [CLog 1; CSpawn (Script [([CLog 2], false); ([CLog 3], true)])] ([], Stop) [CLog 4]
    false.

Example polite_first_poll :
  match poll_scripted polite 9 fresh_world with
  | Return (r, w, _) => (r, env w) = (Ok NotReady, ([EStarted; EPolled], [1; 2]))
  | _ => False
  end.
Proof. vm_compute. reflexivity. Qed.

Definition polite_world : SWorld := result_world (poll_scripted polite 9 fresh_world).

Example polite_second_poll :
  match poll_scripted polite 9 polite_world with
  | Return (r, w, _) =>
      (r, env w) =
      (Ok (Ready ()), ([EStarted; EPolled; EPolled; EStopping; EStopped], [1; 2; 3; 4]))
  | _ => False
  end.
Proof. vm_compute. reflexivity. Qed.

Definition polite_end : SWorld := result_world (poll_scripted polite 9 polite_world).

(** ** Corner cases *)

(** A future that cancels an earlier one and completes: the item that was polled
    was last, [cancel_future] has moved it, and [poll] removes past the end. *)
Definition canceller : Behaviour :=
  mkBehaviour [CSpawn (Script [([], false)]); CSpawn (Script [([CCancel 1], true)])]
    ([], Stop) [] true.

(** A future that cancels itself is freed while it is being polled. *)
Definition self_canceller : Behaviour :=
  mkBehaviour [CSpawn (Script [([CCancel 1], false)])] ([], Stop) [] true.

(** A wait future that completes in the poll in which it schedules another one:
    the new one (logging 3) is dropped without being polled, and the completed
    one is polled again (logging 2). *)
Definition rewaiter : Behaviour :=
  mkBehaviour [CWait (Script [([CLog 1; CWait (Script [([CLog 3], true)])], true);
                              ([CLog 2], true)])] ([], Stop) [] false.

(** the limits of the re-entrancy.  [poll] relies on the futures it polls to
    leave the lists of futures in place: one that cancels an earlier future and
    completes makes it index out of bounds, one that cancels itself is polled
    after it was freed, and a wait future that completes just after scheduling
    another one makes it drop the new one and poll the finished one again. *)
Theorem context_reentrancy_hazards :
  poll_scripted canceller 9 fresh_world = Panic "index out of bounds" ∧
  poll_scripted self_canceller 9 fresh_world = Undef ∧
  ∃ r w t, poll_scripted rewaiter 9 fresh_world = Return (r, w, t) ∧
    (env w).2 = [1; 2] ∧ wait (impl w) = [].
Proof.
  split; [vm_compute; reflexivity |]. split; [vm_compute; reflexivity |].
  eexists _, _, _. split; [vm_compute; reflexivity |]. by split.
Qed.

(** An actor that terminates itself in [stopping] but asks to continue: [poll]
    answers [NotReady] on a terminated context, and the next [poll] calls
    [started] a second time, because [terminate] forgets [STARTED]. *)
Definition stubborn : Behaviour := mkBehaviour [CStop] ([CTerminate], Continue) [] false.

Theorem terminated_actor_started_twice :
  match poll_scripted stubborn 9 fresh_world with
  | Return (r, w, _) =>
      (r, state (impl w), waiting (impl w)) = (Ok NotReady, AStopped, true) ∧
      match poll_scripted stubborn 9 w with
      | Return (r', w', _) =>
          (r', (env w').1) =
          (Ok (Ready ()), [EStarted; EStopping; EStopping; EStarted; EStopped])
      | _ => False
      end
  | _ => False
  end.
Proof. vm_compute. split; reflexivity. Qed.

(** ** Witnesses *)

Lemma polite_accepts : @accepts_termination _ _ _ _ _ _ _ _ (scripted polite).
Proof. intros w w' t H. simpl in H. discriminate H. Qed.

Lemma polite_laws : @ActorLaws _ _ _ _ _ _ _ _ _ (scripted polite) true false.
Proof. exact (scripted_laws polite). Qed.

Lemma laws_weaken (b : Behaviour) :
  @ActorLaws _ _ _ _ _ _ _ _ _ (scripted b) true false →
  @ActorLaws _ _ _ _ _ _ _ _ _ (scripted b) false true.
Proof.
  intros [Ls Lp Ld Lu Ly Lf].
  assert (∀ X (m : SProg X), obeys true false m → obeys false true m) as Hweak.
  { intros X m Hm w. specialize (Hm w). destruct (m w) as [[[x w'] t]| | |]; [| done..].
    eapply rtc_subrel; [| exact Hm]. intros w1 w2 Ha. destruct Ha; try by constructor. }
  split; intros; apply Hweak; auto.
Qed.

Lemma fresh_handles : handles_unique (impl fresh_world).
Proof. split_and!; [constructor | constructor | done | done]. Qed.

Lemma fresh_mailbox : mailbox_ok (mailbox (impl fresh_world)).
Proof. exists [], []. by split. Qed.

Lemma context_one_state_witness :
  one_state (flags (impl polite_world)) ∧ state (impl polite_end) = AStopped.
Proof.
  assert (one_state (flags (impl polite_world))) as H.
  { apply (@context_one_state _ _ _ _ _ _ _ _ _ (scripted polite) 9%nat false 9 fresh_world
      (Ok NotReady) polite_world []); [apply laws_weaken, polite_laws | apply polite_accepts |
      reflexivity | by eexists | vm_compute; reflexivity]. }
  split; [exact H |].
  apply (@context_one_state _ _ _ _ _ _ _ _ _ (scripted polite) 9%nat false 9 polite_world
    (Ok (Ready ())) polite_end []); [apply laws_weaken, polite_laws | apply polite_accepts |
    exact H | by eexists | vm_compute; reflexivity | discriminate].
Defined.

Lemma context_handles_unique_witness :
  handles_unique (impl polite_world) ∧ (cancel_future 1 (impl polite_world)).1 = true.
Proof.
  split; [| vm_compute; reflexivity].
  apply (@context_handles_unique _ _ _ _ _ _ _ _ _ (scripted polite) 9%nat false 9 fresh_world
    (Ok NotReady) polite_world []); [apply laws_weaken, polite_laws | apply fresh_handles |
    by eexists | vm_compute; reflexivity].
Defined.

Lemma context_poll_safe_witness :
  handles_unique (impl polite_world) ∧ mailbox_ok (mailbox (impl polite_world)).
Proof.
  exact (@context_poll_safe _ _ _ _ _ _ _ _ _ (scripted polite) 9%nat 9 fresh_world
    polite_laws fresh_handles fresh_mailbox (ex_intro _ () eq_refl)).
Defined.

Lemma context_lifecycle_order_witness :
  ∃ mid, Forall middle mid ∧
    [EStarted; EPolled; EPolled; EStopping; EStopped] =
    [EStarted; EPolled] ++ [] ++ mid ++ [EStopped].
Proof.
  apply (@context_lifecycle_order _ _ _ _ _ _ _ _ _ (scripted polite) 9%nat
    (fun v : Outside => v.1) false 9 polite_world (Ok (Ready ())) polite_end []);
    [apply scripted_logged | | by eexists | vm_compute; reflexivity].
  intros e w x w' t H Hs.
  pose proof (obeys_triple true false _ has_sync
    (@law_handle_sync _ _ _ _ _ _ _ _ _ (scripted polite) true false polite_laws e)
    (fun w w' => has_sync_api false w w') w Hs) as Ht.
  by rewrite H in Ht.
Defined.
