(* ===== verification/ContextTermination.v ===== *)
(** * Polling a context ends

    [ContextImpl::poll] starts over whenever a callback changed the context
    ([MODIFIED]), scheduled a wait future, or refused to stop, so it ends only
    if its actor comes to rest.  [Paid] is what that takes: every message and
    every future has a weight, a callback may put work into the context of at
    most the weight it uses up, and a future that uses up none leaves the
    context alone.  Then [poll] returns ([poll_terminates]); an item that keeps
    calling [stop] without using up anything keeps it spinning
    ([context_spins]). *)

From S2P Require Import Prelude.
From S2P Require Import Queue.
From S2P Require Import Envelope.
From S2P Require Import UnsyncChannel.
From S2P Require Import SyncChannel.
From S2P Require Import Mailbox.
From S2P Require Import MailboxProps.
From S2P Require Import ContextImpl.
From S2P Require Import ContextProps.
From S2P Require Import ContextLaws.

(** ** Weights *)

Section termination.
Context {A V Fut M Txs Txu Task : Type} {Q : Type → Type} `{!MpscQueue Q}.
Abbreviation ContextImpl := (@ContextImpl A Fut M Txs Txu Task Q).
Abbreviation World := (@World A V Fut M Txs Txu Task Q).
Context `{!ActorCode (A := A) (V := V) (Fut := Fut) (M := M) (Txs := Txs) (Txu := Txu)
            (Task := Task) (Q := Q)}.
Implicit Types (c : ContextImpl) (w : World).

(** The weights of messages, of futures, and of what waits outside the context
    (the ticks of a timer that have passed, for example). *)
Context (wu : Envelope M Txu → nat) (ws : Envelope M Txs → nat) (wf : Fut → nat) (wv : V → nat).

Definition futures c : nat :=
  (sum_list_with wf (wait c) + sum_list_with (fun i => wf i.2) (items c))%nat.

(** The context holds work of the weight [n]. *)
Definition weighs w (n : nat) : Prop :=
  ∃ us ss, mailbox_holds (mailbox (impl w)) us ss ∧
    n = (wv (env w) + sum_list_with wu us + sum_list_with ws ss + futures (impl w))%nat.

(** What [poll] looks at to decide whether it starts over. *)
Definition quiet c c' : Prop :=
  flags c' = flags c ∧ wait c' = wait c ∧ length (items c') = length (items c).

(** A callback either used up some weight or left the context alone. *)
Definition lighter (n : nat) c (n' : nat) c' : Prop := (n' < n)%nat ∨ n' = n ∧ quiet c c'.

Class Paid : Prop := {
  paid_fut_pos f : (0 < wf f)%nat;
  paid_unsync e w x w' t n :
    weighs w n → handle_unsync e w = Return (x, w', t) →
    ∃ n', weighs w' n' ∧ (n' < n + wu e)%nat;
  paid_sync e w x w' t n :
    weighs w n → handle_sync e w = Return (x, w', t) →
    ∃ n', weighs w' n' ∧ (n' < n + ws e)%nat;
  paid_poll f w f' r w' t n :
    weighs w n → fut_poll f w = Return (f', r, w', t) →
    ∃ n', weighs w' n' ∧ (n' + wf f' ≤ n + wf f)%nat ∧
      (r = Ok NotReady → lighter (n + wf f) (impl w) (n' + wf f') (impl w'));
  paid_stopping w w' t n :
    weighs w n → stopping w = Return (Continue, w', t) → ∃ n', weighs w' n' ∧ (n' ≤ n)%nat
}.

(** The callbacks return. *)
Class Returning : Prop := {
  returning_started w : started w ≠ OutOfFuel;
  returning_stopping w : stopping w ≠ OutOfFuel;
  returning_stopped w : stopped w ≠ OutOfFuel;
  returning_unsync e w : handle_unsync e w ≠ OutOfFuel;
  returning_sync e w : handle_sync e w ≠ OutOfFuel;
  returning_poll f w : fut_poll f w ≠ OutOfFuel
}.

Lemma quiet_refl c : quiet c c.
Proof. done. Qed.

Lemma quiet_trans c1 c2 c3 : quiet c1 c2 → quiet c2 c3 → quiet c1 c3.
Proof. intros (?&?&?) (?&?&?). split_and!; congruence. Qed.

Lemma lighter_refl n c : lighter n c n c.
Proof. right. by split. Qed.

Lemma lighter_trans n1 c1 n2 c2 n3 c3 :
  lighter n1 c1 n2 c2 → lighter n2 c2 n3 c3 → lighter n1 c1 n3 c3.
Proof.
  intros [H12|[-> Hq12]] [H23|[-> Hq23]]; [left; lia.. |].
  right. split; [done |]. by eapply quiet_trans.
Qed.

Lemma lighter_le n c n' c' : lighter n c n' c' → (n' ≤ n)%nat.
Proof. intros [?|[-> _]]; lia. Qed.

(** ** The mailbox *)

Context (laws : ActorLaws (A := A) (V := V) (Fut := Fut) (M := M) (Txs := Txs) (Txu := Txu)
           (Task := Task) (Q := Q) true false) (paid : Paid) (returning : Returning)
        (current : Task).

Definition loaded (n : nat) w : Prop := handles_unique (impl w) ∧ weighs w n.

(** A callback keeps what every call of the context's methods keeps. *)
Lemma callback_ends {X} (m : Prog World Task X) (I : World → Prop) (T : X → World → Prop) w :
  obeys true false m → m w ≠ OutOfFuel → (∀ w w', api false w w' → I w → I w') → I w →
  (∀ x w' t, m w = Return (x, w', t) → T x w') →
  ends m w (fun x w' => I w' ∧ T x w').
Proof.
  intros Hm Hf HI Hw HT. pose proof (obeys_triple _ _ _ I Hm HI w Hw) as Hi. unfold ends.
  destruct (m w) as [[[x w'] t]| | |] eqn:Hr; [| done..]. split; [done | by eapply HT].
Qed.

(** Where a part of [poll] may end that starts with the weight [n] in [c]. *)
Definition after (J : nat → World → Prop) (n : nat) c w' : Prop :=
  ∃ n', J n' w' ∧ lighter n c n' (impl w').

Lemma after_now (J : nat → World → Prop) n w : J n w → after J n (impl w) w.
Proof. intros H. exists n. split; [done | apply lighter_refl]. Qed.

Lemma after_trans (J : nat → World → Prop) n0 c0 n c w :
  lighter n0 c0 n c → after J n c w → after J n0 c0 w.
Proof. intros H0 (n' & Hn' & H1). exists n'. split; [done | by eapply lighter_trans]. Qed.

(** One of the two loops of [Mailbox::poll]: [J n] says that the receiver is
    there and the context weighs [n]. *)
Lemma drain_ends {E} (rx : Prog World Task (Poll (option E) ())) (h : E → Prog World Task ())
    (we : E → nat) (J : nat → World → Prop) fuel k nr n w :
  (∀ n w, J n w → ends rx w (fun r w' => quiet (impl w) (impl w') ∧
     match r with Ok (Ready (Some e)) => ∃ n', J n' w' ∧ n = (n' + we e)%nat | _ => J n w' end)) →
  (∀ e n w, J n w → ends (h e) w (fun _ w' => ∃ n', J n' w' ∧ (n' < n + we e)%nat)) →
  (n < fuel)%nat → J n w →
  ends (drain_loop (fun w => waiting (impl w)) false fuel rx h k nr) w
    (fun o w' => ∃ n', J n' w' ∧ lighter n (impl w) n' (impl w') ∧
       (∀ k', o = Some (k', false) → nr = false ∨ (n' < n)%nat)).
Proof.
  intros Hrx Hh. revert k nr n w. induction fuel as [|fuel IH]; intros k nr n w Hn Hw; [lia |].
  cbn [drain_loop]. eapply (ends_bind _ _ _ (fun _ w' => w' = w)); [done |]. intros b ? ->.
  destruct b. { exists n. split_and!; [done | apply lighter_refl | done]. }
  eapply ends_bind; [by apply Hrx |]. intros r w1 [Hq Hr].
  destruct r as [[[e|]|]|u];
    [| exists n; split_and!; [done | by right | intros k' [= _ ->]; by left] ..].
  destruct Hr as (n1 & Hn1 & ->).
  eapply ends_bind; [by apply Hh |]. intros ? w2 (n2 & Hn2 & Hlt).
  eapply (ends_bind _ _ _ (fun _ w' => w' = w2)); [done |]. intros k2 ? ->.
  eapply ends_conseq; [apply (IH k2 false n2); [lia | done] |].
  intros o w3 (n3 & Hn3 & Hl3 & _). apply lighter_le in Hl3.
  exists n3. split_and!; [done | left; lia | right; lia].
Qed.

Lemma poll_unsync_ends n w :
  loaded n w →
  ends (poll_unsync (fun w => mailbox (impl w)) put_mailbox current) w (fun r w' =>
    quiet (impl w) (impl w') ∧
    match r with
    | Ok (Ready (Some e)) => ∃ n', loaded n' w' ∧ n = (n' + wu e)%nat
    | _ => loaded n w'
    end).
Proof.
  intros [Hh (us & ss & [Hu Hs] & ->)]. unfold ends, poll_unsync, in_mailbox, on_unsync.
  destruct us as [|e us].
  - destruct (rx_poll_nil current _ Hu) as (x & r & t & -> & Hr & Hx). simpl.
    assert (loaded (wv (env w) + sum_list_with wu [] + sum_list_with ws ss + futures (impl w))%nat
      (put_mailbox (mkMailbox (sync_msgs (mailbox (impl w))) r) w)) as Hl
      by (split; [done |]; by exists [], ss).
    split; [done |]. by destruct x as [[[?|]|]|].
  - destruct (rx_poll_cons current _ _ _ Hu) as (r & t & -> & Hr). simpl.
    split; [done |]. eexists. split; [split; [done |]; by exists us, ss |]. unfold futures. simpl. lia.
Qed.

Lemma poll_sync_ends n w :
  loaded n w ∧ has_sync w →
  ends (poll_sync (fun w => mailbox (impl w)) put_mailbox current) w (fun r w' =>
    quiet (impl w) (impl w') ∧
    match r with
    | Ok (Ready (Some e)) => ∃ n', (loaded n' w' ∧ has_sync w') ∧ n = (n' + ws e)%nat
    | _ => loaded n w' ∧ has_sync w'
    end).
Proof.
  intros [[Hh (us & ss & [Hu Hs] & ->)] [i Hi]]. rewrite Hi in Hs.
  unfold ends, poll_sync, in_mailbox. destruct ss as [|e ss].
  - destruct (rx_poll_nil current _ Hs) as (x & r & t & Hr & Hr' & Hx).
    rewrite (on_sync_run _ _ _ _ _ _ Hi Hr). simpl. split; [done |].
    set (w' := put_mailbox _ w). assert (has_sync w') by by eexists.
    assert (loaded (wv (env w) + sum_list_with wu us + sum_list_with ws [] + futures (impl w))%nat
      w') as Hl by (split; [done |]; by exists us, []).
    by destruct x as [[[?|]|]|].
  - destruct (rx_poll_cons current _ _ _ Hs) as (r & t & Hr & Hr').
    rewrite (on_sync_run _ _ _ _ _ _ Hi Hr). simpl. split; [done |]. eexists.
    split; [split; [split; [done |]; by exists us, ss | by eexists] |]. unfold futures. simpl. lia.
Qed.

Lemma unsync_ends e n w :
  loaded n w → ends (handle_unsync e) w (fun _ w' => ∃ n', loaded n' w' ∧ (n' < n + wu e)%nat).
Proof.
  intros [Hh Hw]. eapply ends_conseq; [apply (callback_ends _ (fun w => handles_unique (impl w))
    (fun _ w' => ∃ n', weighs w' n' ∧ (n' < n + wu e)%nat)) | ].
  - apply law_handle_unsync.
  - apply returning_unsync.
  - intros w1 w2. apply handles_unique_api.
  - done.
  - intros x w' t Hr. by eapply paid_unsync.
  - intros x w' (? & n' & ? & ?). by exists n'.
Qed.

Lemma sync_ends e n w :
  loaded n w ∧ has_sync w →
  ends (handle_sync e) w (fun _ w' => ∃ n', (loaded n' w' ∧ has_sync w') ∧ (n' < n + ws e)%nat).
Proof.
  intros [[Hh Hw] Hs]. eapply ends_conseq; [apply (callback_ends _
    (fun w => handles_unique (impl w) ∧ has_sync w)
    (fun _ w' => ∃ n', weighs w' n' ∧ (n' < n + ws e)%nat)) | ].
  - apply law_handle_sync.
  - apply returning_sync.
  - intros w1 w2 Ha [H1 H2]. split; [by eapply handles_unique_api | by eapply has_sync_api].
  - done.
  - intros x w' t Hr. by eapply paid_sync.
  - intros x w' ([? ?] & n' & ? & ?). by exists n'.
Qed.

Lemma mailbox_poll_ends fuel n w :
  (n < fuel)%nat → loaded n w →
  ends (mailbox_poll false current fuel) w (fun _ => after loaded n (impl w)).
Proof.
  unfold mailbox_poll, Mailbox.poll. generalize 0.
  revert n w. induction fuel as [|fuel IH]; intros n w k Hn Hw; [lia |]. cbn [poll_loop].
  eapply ends_bind; [apply (drain_ends _ _ wu loaded _ _ _ n); [apply poll_unsync_ends |
    apply unsync_ends | done | done] |].
  intros o w1 (n1 & Hn1 & Hl1 & Ho1). destruct o as [[k1 nr1]|]; [| by exists n1].
  eapply (ends_bind _ _ _ (fun o w' => w' = w1 ∧ o = sync_msgs (mailbox (impl w1)))); [done |].
  intros o ? [-> ->].
  eapply (ends_bind _ _ _ (fun o w' => ∃ n', loaded n' w' ∧ lighter n1 (impl w1) n' (impl w') ∧
    (∀ k', o = Some (k', false) → nr1 = false ∨ (n' < n1)%nat))).
  - destruct (sync_msgs (mailbox (impl w1))) as [i|] eqn:Hi.
    + eapply ends_conseq; [apply (drain_ends _ _ ws (fun n w => loaded n w ∧ has_sync w) _ _ _ n1);
        [apply poll_sync_ends | apply sync_ends | apply lighter_le in Hl1; lia |
         split; [done | by eexists]] |].
      intros o w2 (n2 & [? _] & ?). by exists n2.
    + exists n1. split_and!; [done | apply lighter_refl | intros k' [= _ ->]; by left].
  - intros o w2 (n2 & Hn2 & Hl2 & Ho2).
    assert (lighter n (impl w) n2 (impl w2)) as Hl by by eapply lighter_trans.
    destruct o as [[k2 [|]]|]; [by exists n2 | | by exists n2].
    assert (n2 < n)%nat as Hlt.
    { apply lighter_le in Hl1, Hl2. destruct (Ho2 k2 eq_refl) as [->|?]; [| lia].
      destruct (Ho1 k1 eq_refl); [done | lia]. }
    eapply ends_conseq; [apply (IH n2); [lia | done] |]. intros ? w3. by apply after_trans.
Qed.

(** ** The futures *)

Lemma sum_insert {X} (f : X → nat) (l : list X) i x y :
  l !! i = Some x →
  (sum_list_with f (<[i := y]> l) + f x = sum_list_with f l + f y)%nat.
Proof.
  intros Hi. assert (sum_list_with f (x :: <[i := y]> l) = sum_list_with f (y :: l)) as H
    by by rewrite (insert_Permutation l i y x Hi).
  simpl in H. lia.
Qed.

Lemma weighs_update n n' w c' :
  weighs w n → mailbox c' = mailbox (impl w) →
  (n + futures c' = n' + futures (impl w))%nat → weighs (mkWorld c' (env w)) n'.
Proof.
  intros (us & ss & Hm & ->) Hc Hn. exists us, ss. simpl. rewrite Hc. split; [done | lia].
Qed.

(** A change of the context that [poll] makes by itself. *)
Lemma loaded_internal n n' w c' :
  loaded n w → internal (impl w) c' → mailbox c' = mailbox (impl w) →
  (n + futures c' = n' + futures (impl w))%nat → loaded n' (mkWorld c' (env w)).
Proof.
  intros [Hh Hw] Hi Hm Hn. split; [by eapply handles_unique_internal | by eapply weighs_update].
Qed.

Lemma wait_stays w w' i f :
  api false w w' → wait (impl w) !! i = Some f → wait (impl w') !! i = Some f.
Proof.
  intros Ha Hi. destruct Ha; simpl in *; try done.
  - unfold stop. by destruct (flags_contains _ _).
  - rewrite lookup_app_l; [done | by eapply lookup_lt_Some].
Qed.

Lemma item_stays_put w w' i x :
  api false w w' → items (impl w) !! i = Some x → items (impl w') !! i = Some x.
Proof.
  intros Ha Hi. destruct Ha; simpl in *; try done.
  - unfold stop. by destruct (flags_contains _ _).
  - rewrite lookup_app_l; [done | by eapply lookup_lt_Some].
Qed.

Lemma fut_ends f n w (I : World → Prop) :
  (∀ w w', api false w w' → I w → I w') → I w → loaded n w →
  ends (fut_poll f) w (fun x w' => I w' ∧ ∃ n', loaded n' w' ∧ (n' + wf x.1 ≤ n + wf f)%nat ∧
    (x.2 = Ok NotReady → lighter (n + wf f) (impl w) (n' + wf x.1) (impl w'))).
Proof.
  intros HI Hw [Hh Hn]. eapply ends_conseq; [apply (callback_ends _
    (fun w => handles_unique (impl w) ∧ I w)
    (fun x w' => ∃ n', weighs w' n' ∧ (n' + wf x.1 ≤ n + wf f)%nat ∧
    (x.2 = Ok NotReady → lighter (n + wf f) (impl w) (n' + wf x.1) (impl w')))) | ].
  - apply law_fut_poll.
  - apply returning_poll.
  - intros w1 w2 Ha [H1 H2]. split; [by eapply handles_unique_api | by eapply HI].
  - done.
  - intros [f' r] w' t Hr. by eapply paid_poll.
  - intros x w' ([? ?] & n' & ? & ?). split; [done |]. by exists n'.
Qed.

Lemma last_pred_lookup {X} (l : list X) x : last l = Some x → l !! pred (length l) = Some x.
Proof. by rewrite last_lookup. Qed.

Lemma sum_removelast f l :
  l ≠ [] → (∀ x : Fut, 0 < f x)%nat → (sum_list_with f (removelast l) < sum_list_with f l)%nat.
Proof.
  intros Hl Hf. destruct l as [|x l _] using rev_ind; [done |].
  rewrite removelast_last, sum_list_with_app. simpl. specialize (Hf x). lia.
Qed.

(** [false]: the loop left nothing to wait for, or the context is stopping. *)
Lemma wait_loop_ends fuel n w :
  (n < fuel)%nat → loaded n w →
  ends (wait_loop fuel) w (fun b w' => b = false →
    after loaded n (impl w) w' ∧ must_wait (impl w') = false).
Proof.
  revert n w. induction fuel as [|fuel IH]; intros n w Hn Hw; [lia |]. cbn [wait_loop].
  eapply (ends_bind _ _ _ (fun c w' => w' = w ∧ c = impl w)); [done |]. intros c ? [-> ->].
  destruct (last (wait (impl w))) as [f|] eqn:Hl.
  2: { intros _. split; [by apply after_now |]. apply last_None in Hl.
       unfold must_wait. by rewrite Hl. }
  destruct (is_stopping (impl w)) eqn:Hs.
  { intros _. split; [by apply after_now |]. unfold must_wait. rewrite Hs. apply andb_false_r. }
  set (k := pred (length (wait (impl w)))).
  eapply (ends_bind _ _ _ (fun x w' => wait (impl w') !! k = Some f ∧
    ∃ n', loaded n' w' ∧ (n' + wf x.1 ≤ n + wf f)%nat)).
  { unfold wait_item_poll. eapply ends_bind.
    - apply (fut_ends f n w (fun w => wait (impl w) !! k = Some f));
        [intros w1 w2; apply wait_stays | by apply last_pred_lookup | done].
    - intros [f' r] w1 (Hk & n' & Hn' & Hle & _). split; [done |]. by exists n'. }
  intros [f' r] w1 (Hk & n1 & Hn1 & Hle). simpl in Hle.
  pose proof (sum_insert wf _ _ _ f' Hk) as Hsum.
  eapply (ends_bind _ _ _ (fun _ w' => ∃ n2, loaded n2 w' ∧ (n2 ≤ n)%nat ∧ wait (impl w') ≠ [])).
  { exists (n1 + wf f' - wf f)%nat. split_and!; [| lia |].
    - eapply loaded_internal; [done | apply int_wait_put | done |]. simpl.
      unfold futures. simpl. destruct Hn1 as [_ (us & ss & _ & Hn1)]. unfold futures in Hn1. lia.
    - simpl. intros He. apply (f_equal length) in He. rewrite length_insert in He.
      apply lookup_lt_Some in Hk. simpl in He. lia. }
  intros _ w2 (n2 & Hn2 & Hle2 & Hne). destruct r; [| done].
  pose proof (sum_removelast wf _ Hne paid_fut_pos) as Hlt.
  set (d := (sum_list_with wf (wait (impl w2)) - sum_list_with wf (removelast (wait (impl w2))))%nat).
  eapply (ends_bind _ _ _ (fun _ w' => ∃ n3, loaded n3 w' ∧ (n3 < n)%nat)).
  { exists (n2 - d)%nat. assert (d ≤ n2)%nat as Hd.
    { destruct Hn2 as [_ (us & ss & _ & Hn2)]. unfold futures in Hn2. lia. }
    split; [| lia]. eapply loaded_internal; [done | apply int_wait_pop | done |].
    unfold futures. simpl. lia. }
  intros _ w3 (n3 & Hn3 & Hlt3). eapply ends_conseq; [apply (IH n3); [lia | done] |].
  intros b w4 Hb Hf. specialize (Hb Hf) as [Ha Hm]. split; [| done].
  eapply after_trans; [left; exact Hlt3 | exact Ha].
Qed.
Lemma quiet_must_wait c c' : quiet c c' → must_wait c' = must_wait c.
Proof. intros (Hf & Hw & _). unfold must_wait, is_stopping. by rewrite Hf, Hw. Qed.

Lemma items_length n w : loaded n w → (length (items (impl w)) ≤ n)%nat.
Proof.
  intros [_ (us & ss & _ & ->)]. unfold futures.
  assert (length (items (impl w)) ≤ sum_list_with (fun i => wf i.2) (items (impl w)))%nat; [| lia].
  induction (items (impl w)) as [|[h f] l IH]; simpl; [lia |]. pose proof (paid_fut_pos f). lia.
Qed.

(** Polling the item at [idx] and putting it back. *)
Lemma poll_item_ends h f idx n w :
  items (impl w) !! idx = Some (h, f) → loaded n w →
  ends (_ ← on_impl (set_curr_handle h); '(f, r) ← fut_poll f; _ ← put_item h f; mret r) w
    (fun r w' => ∃ n', loaded n' w' ∧ (n' ≤ n)%nat ∧
       (r = Ok NotReady → lighter n (impl w) n' (impl w'))).
Proof.
  intros Hi Hw. eapply (ends_bind _ _ _ (fun _ w' => w' = mkWorld (set_curr_handle h (impl w)) (env w)));
    [done |]. intros _ ? ->.
  eapply ends_bind; [apply (fut_ends f n _ (fun w => items (impl w) !! idx = Some (h, f)));
    [intros w1 w2; apply item_stays_put | done |] |].
  { eapply loaded_internal; [done | apply int_curr | done | done]. }
  intros [f' r] w1 (Hi1 & n1 & Hn1 & Hle & Hq). simpl in Hle, Hq.
  pose proof (sum_insert (fun i => wf i.2) _ _ _ (h, f') Hi1) as Hsum. simpl in Hsum.
  assert (find_handle h (items (impl w1)) = Some idx) as Hf.
  { destruct Hn1 as [(Hnd & _) _]. by eapply find_handle_nodup. }
  eapply (ends_bind _ _ _ (fun _ w' =>
    w' = mkWorld (set_items (<[idx := (h, f')]> (items (impl w1))) (impl w1)) (env w1))).
  { unfold ends, put_item, get_impl, gets, mbind, prog_bind. simpl. by rewrite Hf. }
  intros _ ? ->. exists (n1 + wf f' - wf f)%nat.
  assert (wf f ≤ n1)%nat as Hfn.
  { destruct Hn1 as [_ (us & ss & _ & Hn1)]. unfold futures in Hn1. simpl in Hn1.
    apply list_elem_of_lookup_2, (sum_list_with_in _ (fun i => wf i.2)) in Hi1. simpl in Hi1. lia. }
  split_and!; [| lia |].
  - eapply loaded_internal; [done | by eapply int_put | done |]. unfold futures. simpl. lia.
  - intros Hr. destruct (Hq Hr) as [Hlt|[Heq (H1 & H2 & H3)]]; [left; lia | right].
    split; [lia |]. split_and!; [done | done |]. simpl. by rewrite length_insert.
Qed.

Lemma items_loop_step fuel idx w h f :
  items (impl w) !! idx = Some (h, f) → is_stopping (impl w) = false →
  items_loop (S fuel) idx w =
  (r ← (_ ← on_impl (set_curr_handle h); '(f, r) ← fut_poll f; _ ← put_item h f; mret r);
   match r with
   | Ok NotReady =>
       c ← get_impl;
       if must_wait c then
         let next := pred (length (items c)) in
         _ ← (if bool_decide (idx ≠ next) then
                l ← lift (unwrap "index out of bounds" (list_swap (items c) idx next));
                on_impl (set_items l)
              else mret ());
         mret Again
       else items_loop fuel (Nat.succ idx)
   | Ok (Ready _) | Err _ =>
       c ← get_impl;
       '(_, l) ← lift (unwrap "index out of bounds" (swap_remove (items c) idx));
       _ ← on_impl (set_items l);
       c ← get_impl;
       if must_wait c then mret Again else items_loop fuel idx
   end) w.
Proof.
  intros Hi Hs. cbn [items_loop].
  rewrite (prog_bind_quiet get_impl _ w (impl w) w) by done. rewrite Hi, Hs.
  rewrite prog_bind_assoc. apply prog_bind_cong. intros _.
  rewrite prog_bind_assoc. apply prog_bind_cong. intros [f' r].
  rewrite prog_bind_assoc. apply prog_bind_cong. intros _. by rewrite prog_bind_ret_l.
Qed.
(** Taking out an item that completed. *)
Lemma remove_item_ends {X} idx n w (k : Prog World Task X) R :
  loaded n w → (∀ n' w', loaded n' w' → (n' < n)%nat → ends k w' R) →
  ends (c ← get_impl; '(_, l) ← lift (unwrap "index out of bounds" (swap_remove (items c) idx));
        _ ← on_impl (set_items l); k) w R.
Proof.
  intros Hw Hk. unfold get_impl, gets, lift, unwrap, mbind, prog_bind, ends. simpl.
  destruct (swap_remove (items (impl w)) idx) as [[[h f] l]|] eqn:Hsw; [| done]. simpl.
  pose proof (swap_remove_Permutation _ _ _ _ Hsw) as Hp.
  assert (sum_list_with (fun i => wf i.2) (items (impl w)) =
          wf f + sum_list_with (fun i => wf i.2) l)%nat as Hsum by by rewrite Hp.
  pose proof (paid_fut_pos f) as Hpos.
  destruct (Hw) as [_ (us & ss & _ & Hn)]. unfold futures in Hn.
  assert (loaded (n - wf f)%nat (mkWorld (set_items l (impl w)) (env w))) as Hl.
  { eapply loaded_internal; [done | by eapply int_swap_remove | done |].
    unfold futures. simpl. lia. }
  specialize (Hk _ _ Hl ltac:(lia)). unfold ends in Hk.
  by destruct (k _) as [[[x w'] t]| | |].
Qed.

(** Moving the item that made the context wait to the end. *)
Lemma swap_items_ends idx n w :
  loaded n w →
  ends (let next := pred (length (items (impl w))) in
        _ ← (if bool_decide (idx ≠ next) then
               l ← lift (unwrap "index out of bounds" (list_swap (items (impl w)) idx next));
               on_impl (set_items l)
             else mret ());
        mret Again) w (fun r w' => r = Again ∧ loaded n w').
Proof.
  intros Hw. simpl. case_bool_decide; [| done].
  unfold ends, lift, unwrap, mbind, prog_bind. simpl.
  destruct (list_swap (items (impl w)) idx _) as [l|] eqn:Hsw; [| done]. simpl. split; [done |].
  eapply loaded_internal; [done | by eapply int_swap | done |].
  unfold futures. simpl. by rewrite (list_swap_Permutation _ _ _ _ Hsw).
Qed.

Lemma fuel_lighter N n n' len x fuel :
  (n' < n)%nat → (n ≤ N)%nat → (len ≤ n')%nat → (n * S N + x < S fuel)%nat →
  (n' * S N + (len - 0) < fuel)%nat.
Proof. intros Hn HN Hl Hf. assert (S n' * S N ≤ n * S N)%nat by (apply Nat.mul_le_mono_r; lia). lia. Qed.

(** Where the loop over the items may end that starts with the weight [n] in [c]. *)
Definition items_done (n : nat) c (r : Flow) w' : Prop :=
  ∃ n', loaded n' w' ∧ lighter n c n' (impl w') ∧ (r = Again → (n' < n)%nat).

(** After an item: leave the loop to wait ([k]), or go on with it ([loop]). *)
Lemma next_item_ends n c (k : ContextImpl → Prog World Task Flow) (loop : Prog World Task Flow)
    n1 w1 :
  must_wait c = false → loaded n1 w1 → lighter n c n1 (impl w1) →
  (must_wait (impl w1) = true → ends (k (impl w1)) w1 (fun r w' => r = Again ∧ loaded n1 w')) →
  (must_wait (impl w1) = false → ends loop w1 (items_done n1 (impl w1))) →
  ends (c ← get_impl; if must_wait c then k c else loop) w1 (items_done n c).
Proof.
  intros Hm Hn1 Hl1 Hk Hloop.
  eapply (ends_bind _ _ _ (fun c w' => w' = w1 ∧ c = impl w1)); [done |]. intros ? ? [-> ->].
  destruct (must_wait (impl w1)) eqn:Hm1.
  - assert (n1 < n)%nat as Hlt.
    { destruct Hl1 as [?|[_ Hq]]; [done |]. apply quiet_must_wait in Hq. congruence. }
    eapply ends_conseq; [by apply Hk |]. intros r w' [-> Hn']. exists n1.
    split_and!; [done | by left | done].
  - eapply ends_conseq; [by apply Hloop |]. intros r w' (n' & Hn' & Hl' & Ha).
    exists n'. split_and!; [done | by eapply lighter_trans |].
    intros Hr. specialize (Ha Hr). apply lighter_le in Hl1. lia.
Qed.

Lemma items_loop_ends N fuel idx n w :
  loaded n w → (n ≤ N)%nat → must_wait (impl w) = false →
  (n * S N + (length (items (impl w)) - idx) < fuel)%nat →
  ends (items_loop fuel idx) w (items_done n (impl w)).
Proof.
  revert idx n w. induction fuel as [|fuel IH]; intros idx n w Hw HN Hm Hf; [lia |].
  assert (∀ r : Flow, r = Done → items_done n (impl w) r w) as Hdone.
  { intros r ->. exists n. split_and!; [done | apply lighter_refl | done]. }
  destruct (items (impl w) !! idx) as [[h f]|] eqn:Hi; [destruct (is_stopping (impl w)) eqn:Hs |].
  1, 3: cbn [items_loop]; unfold ends; rewrite (prog_bind_quiet get_impl _ w (impl w) w) by done;
    rewrite Hi, ?Hs; by apply Hdone.
  unfold ends. rewrite (items_loop_step _ _ _ _ _ Hi Hs).
  eapply ends_bind; [by apply (poll_item_ends h f idx n) |]. intros r w1 (n1 & Hn1 & Hle & Hq).
  assert (∀ u, r = Ok (Ready u) ∨ r = Err u → ends (c ← get_impl;
       '(_, l) ← lift (unwrap "index out of bounds" (swap_remove (items c) idx));
       _ ← on_impl (set_items l);
       c ← get_impl;
       if must_wait c then mret Again else items_loop fuel idx) w1 (items_done n (impl w))) as Hrm.
  { intros _ _. apply (remove_item_ends idx n1); [done |]. intros n2 w2 Hn2 Hlt.
    apply (next_item_ends _ _ (fun _ => mret Again) _ n2); [done | done | left; lia | done |].
    intros Hm2. apply (IH _ n2); [done | lia | done |].
    pose proof (fuel_lighter N n n2 _ _ _ ltac:(lia) HN (items_length _ _ Hn2) Hf). lia. }
  destruct r as [[u|]|u]; [eauto | | eauto]. specialize (Hq eq_refl).
  apply (next_item_ends _ _ (fun c => let next := pred (length (items c)) in _) _ n1);
    [done | done | done | intros _; by apply swap_items_ends |].
  intros Hm1. apply (IH _ n1); [done | lia | done |]. destruct Hq as [Hlt|[-> (_ & _ & Hlen)]].
  - pose proof (fuel_lighter N n n1 _ _ _ Hlt HN (items_length _ _ Hn1) Hf). lia.
  - replace (Nat.succ idx) with (S idx) by done. rewrite Hlen. apply lookup_lt_Some in Hi. lia.
Qed.

(** ** The outer loop *)

Lemma remove_add_stopping (f : Z) :
  flags_contains (flags_insert (flags_remove f STOPPING) RUNNING) STOPPING = false.
Proof.
  unfold flags_contains, flags_insert, flags_remove.
  by rewrite Z.land_lor_distr_l, Z.land_ldiff.
Qed.

Lemma remove_modified (f : Z) : flags_contains (flags_remove f MODIFIED) MODIFIED = false.
Proof. unfold flags_contains, flags_remove. by rewrite Z.land_ldiff. Qed.

Lemma remove_modified_stopping (f : Z) :
  flags_contains (flags_remove f MODIFIED) STOPPING = flags_contains f STOPPING.
Proof. unfold flags_contains, flags_remove. by rewrite Z.ldiff_land, <- Z.land_assoc. Qed.

Definition stopping_bit c : nat := if flags_contains (flags c) STOPPING then 1 else 0.

Lemma stopping_ends n w :
  loaded n w →
  ends stopping w (fun r w' => r = Continue → ∃ n', loaded n' w' ∧ (n' ≤ n)%nat).
Proof.
  intros [Hh Hw]. eapply ends_conseq; [apply (callback_ends _ (fun w => handles_unique (impl w))
    (fun r w' => r = Continue → ∃ n', weighs w' n' ∧ (n' ≤ n)%nat)) | ].
  - apply law_stopping.
  - apply returning_stopping.
  - intros w1 w2. apply handles_unique_api.
  - done.
  - intros x w' t Hr ->. by eapply paid_stopping.
  - intros x w' [? Hc] Hx. destruct (Hc Hx) as (n' & ? & ?). by exists n'.
Qed.

Lemma stopped_ends {X} (r : X) w (R : X → World → Prop) :
  (∀ w', R r w') → ends (_ ← stopped; mret r) w R.
Proof.
  intros HR. unfold ends, mbind, prog_bind. pose proof (returning_stopped w) as Hf.
  by destruct (stopped w) as [[[x w'] t]| | |]; simpl; [apply HR | ..].
Qed.

(** [finish] starts over for one of two reasons. *)
Lemma finish_ends n w :
  loaded n w →
  ends finish w (fun o w' => o = None → ∃ n', loaded n' w' ∧ (n' ≤ n)%nat ∧
    (flags_contains (flags (impl w)) MODIFIED = true ∨
     flags_contains (flags (impl w)) STOPPING = true ∧ stopping_bit (impl w') = 0%nat)).
Proof.
  intros Hw. unfold finish. set (w0 := mkWorld (set_curr_handle default_handle (impl w)) (env w)).
  assert (loaded n w0) as Hw0 by (eapply loaded_internal; [done | apply int_curr | done | done]).
  eapply (ends_bind _ _ _ (fun _ w' => w' = w0)); [done |]. intros _ ? ->.
  eapply (ends_bind _ _ _ (fun c w' => w' = w0 ∧ c = impl w0)); [done |]. intros ? ? [-> ->].
  change (flags (impl w0)) with (flags (impl w)).
  assert (∀ w1, ends (_ ← on_impl (set_flags STOPPED); _ ← stopped;
     mret (Some (Ok (Ready ()) : Poll () ()))) w1 (fun o w' => o = None → False)) as Hstop.
  { intros w1. eapply (ends_bind _ _ _ (fun _ _ => True)); [done |]. intros _ w2 _.
    by apply stopped_ends. }
  destruct (_ && _) eqn:Hm.
  { intros _. apply andb_true_iff in Hm as [Hm _]. exists n. split_and!; [done | done | by left]. }
  destruct (flags_contains (flags (impl w)) RUNNING).
  { destruct (alive (impl w0)); [done |].
    eapply ends_bind; [by apply stopping_ends |]. intros [|] w1 H1; [| done].
    eapply ends_conseq; [apply Hstop |]. intros o w' Ho Hn. by destruct (Ho Hn). }
  destruct (flags_contains (flags (impl w)) STOPPING) eqn:Hs.
  { eapply ends_bind; [by apply stopping_ends |]. intros [|] w1 H1.
    { eapply ends_conseq; [apply Hstop |]. intros o w' Ho Hn. by destruct (Ho Hn). }
    destruct (H1 eq_refl) as (n1 & [Hh Hn1] & Hle).
    set (w2 := mkWorld (continued (impl w1)) (env w1)).
    eapply (ends_bind _ _ _ (fun _ w' => w' = w2)); [done |]. intros _ ? -> _.
    exists n1. split_and!; [| done | right; split; [done |]].
    - split; [exact Hh | by eapply weighs_update].
    - unfold stopping_bit. simpl. by rewrite remove_add_stopping. }
  destruct (flags_contains (flags (impl w)) STOPPED); [by apply stopped_ends | done].
Qed.

Lemma outer_loop_ends N fuel n w :
  loaded n w → (n ≤ N)%nat → (N * S (S N) + 2 * n + stopping_bit (impl w) < fuel)%nat →
  ends (outer_loop false current fuel) w (fun _ _ => True).
Proof.
  revert n w. induction fuel as [|fuel IH]; intros n w Hw HN Hf; [lia |]. cbn [outer_loop].
  set (w0 := mkWorld (set_flags (flags_remove (flags (impl w)) MODIFIED) (impl w)) (env w)).
  assert (loaded n w0) as Hw0 by (eapply loaded_internal; [done | apply int_clear | done | done]).
  eapply (ends_bind _ _ _ (fun _ w' => w' = w0)); [done |]. intros _ ? ->.
  eapply ends_bind; [apply (wait_loop_ends _ n); [lia | done] |]. intros b w1 H1.
  destruct b; [done |]. destruct (H1 eq_refl) as [(n1 & Hn1 & Hl1) Hm1].
  assert (n1 ≤ n)%nat as Hle1 by by eapply lighter_le.
  eapply ends_bind; [apply (mailbox_poll_ends _ n1); [lia | done] |].
  intros _ w2 (n2 & Hn2 & Hl2). assert (n2 ≤ n1)%nat as Hle2 by by eapply lighter_le.
  eapply (ends_bind _ _ _ (fun c w' => w' = w2 ∧ c = impl w2)); [done |]. intros ? ? [-> ->].
  assert (∀ n' w', loaded n' w' → (n' < n)%nat →
    ends (outer_loop false current fuel) w' (fun _ _ => True)) as Hagain.
  { intros n' w' Hn' Hlt. apply (IH n'); [done | lia |].
    unfold stopping_bit in *. destruct (flags_contains (flags (impl w')) STOPPING); lia. }
  destruct (must_wait (impl w2)) eqn:Hm2.
  { apply (Hagain n2); [done |]. destruct Hl2 as [?|[_ Hq]]; [lia |].
    apply quiet_must_wait in Hq. congruence. }
  eapply ends_bind; [apply (items_loop_ends N _ _ n2); [done | lia | done |] |].
  { pose proof (items_length _ _ Hn2). assert (n2 * S N ≤ N * S N)%nat by (apply Nat.mul_le_mono_r; lia).
    lia. }
  intros r w3 (n3 & Hn3 & Hl3 & Ha). destruct r; [| apply (Hagain n3); [done | specialize (Ha eq_refl); lia]].
  eapply ends_bind; [by apply finish_ends |]. intros [r|] w4 H4; [done |].
  destruct (H4 eq_refl) as (n4 & Hn4 & Hle4 & Hwhy).
  assert (lighter n (impl w0) n3 (impl w3)) as Hl
    by (eapply lighter_trans; [exact Hl1 | by eapply lighter_trans]).
  destruct Hl as [Hlt|[-> (Hq & _)]]; [apply (Hagain n4); [done | lia] |].
  rewrite Hq in Hwhy. simpl in Hwhy. rewrite remove_modified, remove_modified_stopping in Hwhy.
  destruct Hwhy as [?|[Hs Hb]]; [done |]. apply (IH n4); [done | lia |].
  unfold stopping_bit in Hf. rewrite Hs in Hf. lia.
Qed.
Lemma outer_loop_returns w :
  handles_unique (impl w) → mailbox_ok (mailbox (impl w)) →
  ∃ bound, ∀ fuel, (bound ≤ fuel)%nat → outer_loop false current fuel w ≠ OutOfFuel.
Proof.
  intros Hh (us & ss & Hm).
  set (n := (wv (env w) + sum_list_with wu us + sum_list_with ws ss + futures (impl w))%nat).
  assert (loaded n w) as Hw by (split; [done |]; by exists us, ss).
  exists (S (n * S (S n) + 2 * n + stopping_bit (impl w))). intros fuel Hf.
  pose proof (outer_loop_ends n fuel n w Hw (le_n _) Hf) as He. unfold ends in He.
  by destruct (outer_loop _ _ _ _) as [[[x w'] t]| | |].
Qed.

(** What [poll] does before its loop. *)
Definition poll_start : Prog World Task () :=
  c ← get_impl;
  if flags_contains (flags c) STARTED then mret ()
  else _ ← on_impl (fun c => set_flags (flags_insert (flags c) STARTED) c); started.

Lemma poll_start_ends w :
  handles_unique (impl w) → mailbox_ok (mailbox (impl w)) →
  ends poll_start w (fun _ w' => handles_unique (impl w') ∧ mailbox_ok (mailbox (impl w'))).
Proof.
  intros Hh Hm. unfold poll_start.
  eapply (ends_bind _ _ _ (fun c w' => w' = w ∧ c = impl w)); [done |]. intros ? ? [-> ->].
  destruct (flags_contains (flags (impl w)) STARTED); [done |].
  set (w0 := mkWorld (set_flags (flags_insert (flags (impl w)) STARTED) (impl w)) (env w)).
  eapply (ends_bind _ _ _ (fun _ w' => w' = w0)); [done |]. intros _ ? ->.
  eapply ends_conseq; [apply (callback_ends _
    (fun w => handles_unique (impl w) ∧ mailbox_fine w) (fun _ _ => True)) | by intros x w' [? _]].
  - apply law_started.
  - apply returning_started.
  - intros w1 w2 Ha [H1 H2]. split; [by eapply handles_unique_api | by eapply mailbox_fine_api].
  - by split.
  - done.
Qed.

Lemma poll_unfold debug w fuel :
  is_Some (act (impl w)) →
  poll debug current fuel w = (_ ← poll_start; outer_loop debug current fuel) w.
Proof.
  intros [a Ha]. unfold poll, poll_start. rewrite prog_bind_assoc.
  rewrite !(prog_bind_quiet get_impl _ w (impl w) w) by done. by rewrite Ha.
Qed.

(** *** More fuel changes nothing *)

Lemma wait_loop_mono n1 n2 : (n1 ≤ n2)%nat → prog_le (wait_loop n1) (wait_loop n2).
Proof.
  revert n2. induction n1 as [|n1 IH]; intros [|n2] Hn; try lia; cbn [wait_loop]; solve_prog_le.
Qed.

Lemma items_loop_mono n1 n2 i : (n1 ≤ n2)%nat → prog_le (items_loop n1 i) (items_loop n2 i).
Proof.
  revert n2 i. induction n1 as [|n1 IH]; intros [|n2] i Hn; try lia; cbn [items_loop]; solve_prog_le.
Qed.

Lemma mailbox_poll_mono debug n1 n2 :
  (n1 ≤ n2)%nat → prog_le (mailbox_poll debug current n1) (mailbox_poll debug current n2).
Proof. intros Hn. by apply poll_mono_fuel. Qed.

#[local] Hint Resolve wait_loop_mono items_loop_mono mailbox_poll_mono : fuel.

Lemma outer_loop_mono debug n1 n2 :
  (n1 ≤ n2)%nat → prog_le (outer_loop debug current n1) (outer_loop debug current n2).
Proof.
  revert n2. induction n1 as [|n1 IH]; intros [|n2] Hn; try lia; try apply prog_le_out_of_fuel.
  cbn [outer_loop]. solve_prog_le.
Qed.

#[local] Hint Resolve outer_loop_mono : fuel.

Lemma context_poll_mono debug n1 n2 :
  (n1 ≤ n2)%nat → prog_le (poll debug current n1) (poll debug current n2).
Proof. intros Hn. unfold poll. solve_prog_le. Qed.

(** C19: polling ends.  If the actor's code returns, does not cancel futures and
    puts no more work into its context than it uses up, [poll] of a release
    build returns: with enough fuel for its loops, always the same result. *)
Theorem poll_terminates w :
  handles_unique (impl w) → mailbox_ok (mailbox (impl w)) → is_Some (act (impl w)) →
  ∃ r w' t, (fun fuel => poll false current fuel w) ⇓ (r, w', t).
Proof.
  intros Hh Hm Ha.
  assert (∃ bound, poll false current bound w ≠ OutOfFuel) as [k Hk].
  { pose proof (poll_start_ends w Hh Hm) as Hs. unfold ends in Hs.
    destruct (poll_start w) as [[[x w1] t1]| | |] eqn:He; [| | | done].
    - destruct Hs as [Hh1 Hm1]. destruct (outer_loop_returns w1 Hh1 Hm1) as [k Hk].
      exists k. rewrite poll_unfold by done. rewrite (prog_bind_Return _ _ _ _ _ _ He).
      specialize (Hk k (le_n _)). by destruct (outer_loop _ _ _ _) as [[[? ?] ?]| | |].
    - exists 0%nat. rewrite poll_unfold by done. unfold mbind, prog_bind. by rewrite He.
    - exists 0%nat. rewrite poll_unfold by done. unfold mbind, prog_bind. by rewrite He. }
  pose proof (poll_safe current k w laws Hh Hm Ha) as Hsafe.
  destruct (poll false current k w) as [[[r w'] t]| | |] eqn:Hr; [| done..].
  exists r, w', t. eapply returns_mono; [| exact Hr]. intros n1 n2 Hn.
  rewrite !poll_unfold by done. apply prog_le_bind; [apply prog_le_refl |].
  intros _. by apply outer_loop_mono.
Qed.
End termination.
