(* ===== verification/ContextRest.v ===== *)
(** * Actors that come to rest, and one that does not

    The scripted actors of [ContextDemo] use up what they do, so [poll] ends for
    them ([scripted_paid]); an item that keeps calling [stop] without using up
    anything keeps [poll] spinning if its actor refuses to stop
    ([context_spins]). *)

From S2P Require Import Prelude.
From S2P Require Import Queue.
From S2P Require Import Envelope.
From S2P Require Import Mailbox.
From S2P Require Import ContextImpl.
From S2P Require Import ContextProps.
From S2P Require Import ContextLaws.
From S2P Require Import ContextDemo.
From S2P Require Import ContextTermination.

(** ** Scripted actors come to rest *)

Fixpoint fut_weight (f : fut) : nat :=
  match f with
  | Script steps => S (sum_list_with (fun st => sum_list_with cmd_weight st.1) steps)
  end
with cmd_weight (c : cmd) : nat :=
  match c with
  | CStop | CTerminate => 1
  | CSpawn f | CWait f => S (fut_weight f)
  | CCancel _ | CLog _ => 0
  end.

Definition cmds_weight (cs : list cmd) : nat := sum_list_with cmd_weight cs.
Definition msg_weight (e : Envelope (list cmd) nat) : nat := S (cmds_weight (default [] (msg e))).
Definition no_weight (v : Outside) : nat := 0.

Section scripted.
Context (b : Behaviour) (no_cancel : may_cancel b = false).

Abbreviation weighs := (weighs msg_weight msg_weight fut_weight no_weight).

Lemma cmd_paid c w x w' t n :
  weighs w n → run_cmd b c w = Return (x, w', t) →
  ∃ n', weighs w' n' ∧ lighter (n + cmd_weight c) (impl w) n' (impl w').
Proof.
  intros Hn Hr. destruct c as [| |f|f|h|k]; simpl in *.
  - injection Hr as _ <- _. exists n. split; [| left; lia].
    eapply weighs_update; [done | ..]; simpl; unfold stop; by destruct (flags_contains _ _).
  - injection Hr as _ <- _. exists n. split; [| left; lia]. by eapply weighs_update.
  - unfold get_impl, gets, mbind, prog_bind in Hr. simpl in Hr.
    destruct (_ <? _); injection Hr as _ <- _; [| exists n; split; [done | left; lia]].
    exists (n + fut_weight f)%nat. split; [| left; lia]. eapply weighs_update; [done | done |].
    unfold futures, spawn. simpl. rewrite sum_list_with_app. simpl. lia.
  - injection Hr as _ <- _. exists (n + fut_weight f)%nat. split; [| left; lia].
    eapply weighs_update; [done | done |]. unfold futures, wait_for. simpl.
    rewrite sum_list_with_app. simpl. lia.
  - rewrite no_cancel in Hr. injection Hr as _ <- _. exists n. split; [done |].
    rewrite Nat.add_0_r. apply lighter_refl.
  - injection Hr as _ <- _. exists n. split; [done |]. rewrite Nat.add_0_r. right. by split.
Qed.

Lemma cmds_paid cs w x w' t n :
  weighs w n → run_cmds b cs w = Return (x, w', t) →
  ∃ n', weighs w' n' ∧ lighter (n + cmds_weight cs) (impl w) n' (impl w').
Proof.
  revert w x w' t n. induction cs as [|c cs IH]; intros w x w' t n Hn Hr; simpl in *.
  - injection Hr as _ <- _. exists n. split; [done |]. rewrite Nat.add_0_r. apply lighter_refl.
  - apply prog_bind_Return_inv in Hr as (u & w1 & t1 & t2 & Hc & Hr & _).
    destruct (cmd_paid _ _ _ _ _ _ Hn Hc) as (n1 & Hn1 & Hl1).
    destruct (IH _ _ _ _ _ Hn1 Hr) as (n2 & Hn2 & Hl2). exists n2. split; [done |].
    eapply lighter_trans; [| exact Hl2]. unfold cmds_weight. simpl.
    destruct Hl1 as [?|[-> ?]]; [left; lia | right; split; [lia | done]].
Qed.

Lemma callback_paid e cs w x w' t n :
  weighs w n → callback b e cs w = Return (x, w', t) →
  ∃ n', weighs w' n' ∧ lighter (n + cmds_weight cs) (impl w) n' (impl w').
Proof.
  intros Hn Hr. apply prog_bind_Return_inv in Hr as (u & w1 & t1 & t2 & [= _ <- _] & Hr & _).
  by eapply cmds_paid in Hr.
Qed.
Lemma scripted_paid :
  ((on_stopping b).2 = Continue → cmds_weight (on_stopping b).1 = 0%nat) →
  @Paid _ _ _ _ _ _ _ _ _ (scripted b) msg_weight msg_weight fut_weight no_weight.
Proof.
  intros Hstop. split.
  - intros [steps]. simpl. lia.
  - intros e w x w' t n Hn Hr. destruct (callback_paid _ _ _ _ _ _ _ Hn Hr) as (n' & ? & Hl).
    exists n'. split; [done |]. apply lighter_le in Hl. unfold msg_weight. lia.
  - intros e w x w' t n Hn Hr. destruct (callback_paid _ _ _ _ _ _ _ Hn Hr) as (n' & ? & Hl).
    exists n'. split; [done |]. apply lighter_le in Hl. unfold msg_weight. lia.
  - intros f w f' r w' t n Hn Hr.
    destruct f as [[|[cs ready] rest]]; simpl in Hr;
      apply prog_bind_Return_inv in Hr as (u & w1 & t1 & t2 & Hr & [= <- <- <- <-] & _);
      destruct (callback_paid _ _ _ _ _ _ _ Hn Hr) as (n' & Hn' & Hl); exists n'.
    + pose proof (lighter_le _ _ _ _ Hl) as Hle. change (cmds_weight []) with 0%nat in Hle.
      split_and!; [done | simpl; lia | done].
    + pose proof (lighter_le _ _ _ _ Hl) as Hle. unfold cmds_weight in Hl, Hle. simpl.
      split_and!; [done | lia |]. intros _.
      destruct Hl as [?|[-> ?]]; [left; lia | right; split; [lia | done]].
  - intros w w' t n Hn Hr. simpl in Hr.
    apply prog_bind_Return_inv in Hr as (u & w1 & t1 & t2 & Hr & [= Hb <- _] & _).
    destruct (callback_paid _ _ _ _ _ _ _ Hn Hr) as (n' & ? & Hl).
    exists n'. split; [done |]. apply lighter_le in Hl. specialize (Hstop Hb). lia.
Qed.

Lemma run_cmds_return cs w : run_cmds b cs w ≠ OutOfFuel.
Proof.
  revert w. induction cs as [|c cs IH]; intros w; [done |]. simpl.
  assert (∃ w' t, run_cmd b c w = Return ((), w', t)) as (w' & t & Hc).
  { destruct c; simpl; try (by eexists _, _); [| destruct (may_cancel b); by eexists _, _].
    unfold get_impl, gets, mbind, prog_bind. simpl. destruct (_ <? _); by eexists _, _. }
  rewrite (prog_bind_Return _ _ _ _ _ _ Hc). specialize (IH w').
  by destruct (run_cmds b cs w') as [[[? ?] ?]| | |].
Qed.

Lemma callback_return {X} e cs w (k : () → SProg X) :
  (∀ u w', k u w' ≠ OutOfFuel) → (u ← callback b e cs; k u) w ≠ OutOfFuel.
Proof.
  intros Hk. unfold callback, log_event, modify, mbind, prog_bind. simpl.
  pose proof (run_cmds_return cs (mkWorld (impl w) ((env w).1 ++ [e], (env w).2))) as Hr.
  destruct (run_cmds b cs _) as [[[u w'] t]| | |]; simpl; [| done..].
  specialize (Hk u w'). by destruct (k u w') as [[[? ?] ?]| | |].
Qed.

Lemma scripted_returning : @Returning _ _ _ _ _ _ _ _ (scripted b).
Proof.
  assert (∀ e cs w, callback b e cs w ≠ OutOfFuel) as Hc.
  { intros e cs w Hf. apply (callback_return e cs w mret); [done |].
    by rewrite prog_bind_ret_r. }
  split; simpl; intros; try apply Hc.
  - by apply callback_return.
  - destruct f as [[|[cs ready] rest]]; by apply callback_return.
Qed.
End scripted.

(** An actor that refuses to stop.  It spawns a future that asks it to, at its
    first poll, and that spawns another one at its second poll. *)
Definition reluctant : Behaviour :=
  mkBehaviour [CSpawn (Script [([CStop], false); ([CSpawn (Script [([CLog 1], true)])], true)])]
    ([CLog 2], Continue) [] false.

Lemma reluctant_run n :
  match poll_scripted reluctant (20 + n) fresh_world with
  | Return (_, w, _) => (env w).2 = [2; 1; 2]
  | _ => False
  end.
Proof. vm_compute. reflexivity. Qed.

Lemma poll_terminates_witness :
  ∃ r w' t, (fun fuel => poll_scripted reluctant fuel fresh_world) ⇓ (r, w', t) ∧
    (env w').2 = [2; 1; 2].
Proof.
  assert (∃ r w' t, (fun fuel => poll_scripted reluctant fuel fresh_world) ⇓ (r, w', t))
    as (r & w' & t & Hr).
  { exact (@poll_terminates _ _ _ _ _ _ _ _ _ (scripted reluctant) msg_weight msg_weight
      fut_weight no_weight (scripted_laws reluctant) (scripted_paid reluctant eq_refl (fun _ => eq_refl))
      (scripted_returning reluctant eq_refl) 9%nat fresh_world fresh_handles fresh_mailbox
      (ex_intro _ () eq_refl)). }
  exists r, w', t. split; [exact Hr |]. destruct Hr as [n Hn]. pose proof (reluctant_run n) as He.
  rewrite (Hn (20 + n)%nat) in He by lia. exact He.
Defined.

(** ** A context that never comes to rest *)

(** An actor with one future that calls [stop] at every poll, and that answers
    [Continue] when it is asked to stop. *)
#[local] Instance spinning : ActorCode (A := ()) (V := ()) (Fut := ()) (M := ()) (Txs := nat)
    (Txu := nat) (Task := nat) (Q := Queue) := {|
  started := on_impl (spawn ());
  stopping := mret Continue;
  stopped := mret ();
  restarting := mret ();
  handle_unsync _ := mret ();
  handle_sync _ := mret ();
  fut_poll f := _ ← on_impl stop; mret (f, Ok NotReady)
|}.

Definition spinning_world (fl cur : Z) : @World () () () () nat nat nat Queue :=
  mkWorld (mkContext (Some ()) fl default_mailbox [] [(1, ())] 1 cur) ().

Lemma spinning_turn fuel fl :
  flags_remove fl MODIFIED = 3 →
  outer_loop false 9%nat (S (S fuel)) (spinning_world fl 0) =
  outer_loop false 9%nat (S fuel) (spinning_world 3 0).
Proof.
  intros Hfl. change (outer_loop false 9%nat (S (S fuel))) with
    (_ ← on_impl (fun c => set_flags (flags_remove (flags c) MODIFIED) c);
     b ← wait_loop (S (S fuel));
     if b : bool then mret (Ok NotReady)
     else
       _ ← mailbox_poll false 9%nat (S (S fuel));
       c ← get_impl;
       if must_wait c then outer_loop false 9%nat (S fuel)
       else
         f ← items_loop (S (S fuel)) 0;
         match f with
         | Again => outer_loop false 9%nat (S fuel)
         | Done =>
             o ← finish;
             match o with
             | Some r => mret r
             | None => outer_loop false 9%nat (S fuel)
             end
         end).
  rewrite (prog_bind_quiet (on_impl _) _ _ () (spinning_world 3 0))
    by (unfold on_impl, modify; simpl; by rewrite Hfl).
  rewrite (prog_bind_quiet (wait_loop _) _ _ false (spinning_world 3 0)) by reflexivity.
  rewrite (prog_bind_quiet (mailbox_poll _ _ _) _ _ () (spinning_world 3 0)) by reflexivity.
  rewrite (prog_bind_quiet get_impl _ _ (impl (spinning_world 3 0)) (spinning_world 3 0)) by reflexivity.
  change (must_wait (impl (spinning_world 3 0))) with false. cbn iota.
  rewrite (prog_bind_quiet (items_loop _ _) _ _ Done (spinning_world 5 1)) by reflexivity.
  by rewrite (prog_bind_quiet finish _ _ None (spinning_world 3 0)) by reflexivity.
Qed.

(** No amount of fuel is enough: the future calls [stop] during every turn of the
    loop, the actor refuses, and the loop starts over. *)
Theorem context_spins fuel :
  poll false 9%nat fuel (mkWorld (new (Some ())) () : @World () () () () nat nat nat Queue) = OutOfFuel.
Proof.
  assert (∀ fl, fl = 3 ∨ fl = 35 → outer_loop false 9%nat fuel (spinning_world fl 0) = OutOfFuel) as H.
  { induction fuel as [|[|fuel] IH]; intros fl Hfl; [done | by destruct Hfl as [->| ->] |].
    rewrite spinning_turn by by destruct Hfl as [->| ->]. apply IH. by left. }
  rewrite poll_unfold by by eexists.
  rewrite (prog_bind_quiet poll_start _ _ () (spinning_world 35 0)) by reflexivity.
  apply H. by right.
Qed.
