(* ===== verification/Supervisor.v ===== *)
(** * Starting and supervising actors: [src/supervisor.rs], the starting
    methods of [src/actor.rs]

    A supervisor polls its context; when the context completes it restarts it,
    unless no address of the actor is left.  Spawning the future of the context
    or of the supervisor on the event loop is outside the model: the functions
    that start an actor return the world the event loop will poll. *)

From S2P Require Import Prelude.
From S2P Require Import Queue.
From S2P Require Import Envelope.
From S2P Require Import UnsyncChannel.
From S2P Require Import SyncChannel.
From S2P Require Import Mailbox.
From S2P Require Import ContextImpl.
From S2P Require Import ContextProps.
From S2P Require Import ContextLaws.
From S2P Require Import ContextDemo.

Section supervisor.
Context {A V Fut M Txs Txu Task : Type} {Q : Type → Type} `{!MpscQueue Q}.
Abbreviation ContextImpl := (@ContextImpl A Fut M Txs Txu Task Q).
Abbreviation World := (@World A V Fut M Txs Txu Task Q).
Abbreviation P := (Prog World Task).
Implicit Types (c : ContextImpl) (w : World).

(** ** Starting an actor *)

(** [Actor::start]: a context for the actor, then the requested address. *)
Definition actor_start {X} (a : A) (address : P X) (v : V) : Exec (X * World * list Task) :=
  address (mkWorld (new (Some a)) v).

(** [Actor::create]: the address first; the actor is made, from its context,
    when the event loop runs the closure. *)
Definition actor_create {X} (address : P X) (f : P A) (v : V) : Exec (X * World * list Task) :=
  (x ← address; a ← f; _ ← on_impl (set_actor a); mret x) (mkWorld (new None) v).

(** [Supervisor::start]: the actor is made first. *)
Definition supervisor_start {X} (address : P X) (f : P A) (v : V)
  : Exec (X * World * list Task) :=
  (a ← f; x ← address; _ ← on_impl (set_actor a); mret x) (mkWorld (new None) v).

(** [Supervisor::start_in], the part that runs in the arbiter's thread. *)
Definition supervisor_start_in (rx : @Inner M Txs Task Q) (f : P A) (v : V)
  : Exec (() * World * list Task) :=
  (a ← f; on_impl (set_actor a)) (mkWorld (with_receiver None rx) v).

(** ** Supervision *)

Context `{!ActorCode (A := A) (V := V) (Fut := Fut) (M := M) (Txs := Txs) (Txu := Txu)
            (Task := Task) (Q := Q)}.
Context (debug : bool) (current : Task).

(** [Supervisor::poll]. *)
Fixpoint supervisor_poll (fuel : nat) : P (Poll () ()) :=
  match fuel with
  | O => lift OutOfFuel
  | S fuel' =>
      r ← poll debug current fuel;
      match r with
      | Ok NotReady => mret (Ok NotReady)
      | Ok (Ready _) | Err _ =>
          b ← restart;
          if b : bool then supervisor_poll fuel' else mret (Ok (Ready ()))
      end
  end.

(** The context a restart hands to [restarting]: the actor, its mailbox with
    every queued message and address, and nothing else of the old life. *)
Definition restarted c : ContextImpl :=
  mkContext (act c) RUNNING (mailbox c) [] [] default_handle (curr_handle c).

Lemma restart_spec w :
  restart w =
  if bool_decide (act (impl w) = None) || negb (connected (impl w)) then Return (false, w, [])
  else
    '(_, w', t) ← restarting (mkWorld (restarted (impl w)) (env w));
    Return (true, w', t).
Proof.
  unfold restart, get_impl, gets, mbind, prog_bind; simpl.
  destruct (_ || _); [done |]. simpl.
  destruct (restarting _) as [[[u w'] t]| | |]; simpl; [| done..]. by rewrite app_nil_r.
Qed.

(** What every context of a supervised actor satisfies. *)
Definition in_order w : Prop :=
  one_state (flags (impl w)) ∧ handles_unique (impl w) ∧ is_Some (act (impl w)).

Lemma in_order_api w w' : api true w w' → in_order w → in_order w'.
Proof.
  intros Ha (H1 & H2 & H3). split_and!; [by eapply one_state_api | by eapply handles_unique_api |].
  destruct Ha; simpl; try done.
  - unfold stop. by destruct (flags_contains _ _).
  - unfold cancel_future. destruct (find_handle _ _); [| done].
    by destruct (swap_remove _ _) as [[??]|].
Qed.

Lemma in_order_internal w c : in_order w → internal (impl w) c → in_order (mkWorld c (env w)).
Proof.
  intros (H1 & H2 & H3) Hi.
  split_and!; [by eapply one_state_internal | by eapply handles_unique_internal |].
  by destruct Hi.
Qed.

Lemma in_order_restarted w : in_order w → in_order (mkWorld (restarted (impl w)) (env w)).
Proof.
  intros (_ & _ & Ha). split_and!; [done | | done].
  split_and!; simpl; [constructor | constructor | done | done].
Qed.

Lemma poll_in_order fuel :
  ActorLaws false true → accepts_termination →
  triple false in_order (poll debug current fuel) (fun _ => in_order).
Proof.
  intros L Hacc.
  assert (triple false in_order stopping
    (fun r w => in_order w ∧ (r = Continue → in_order (mkWorld (continued (impl w)) (env w))))) as Hst.
  { intros w0 H0. pose proof (obeys_triple _ _ _ in_order law_stopping in_order_api w0 H0) as H1.
    destruct (stopping w0) as [[[r0 w1] t1]| | |] eqn:Hs; [| done..].
    split; [done |]. intros ->. destruct H1 as (H1 & H2 & H3). split_and!; [| done | done].
    apply (upd_continue _ (one_state_updates _ H1)). by apply (Hacc w0 w1 t1). }
  eapply triple_conseq; [apply (poll_preserves debug current true in_order (fun _ => True));
    eauto using in_order_api, in_order_internal | |].
  - by intros mb w.
  - intros w Hw. split; [done | apply Hw].
  - by intros x w [Hw _].
Qed.

(** C21: a supervisor gives up only on an actor that nobody can reach any more:
    when its [poll] completes, the context has no actor or no address is left.
    Through all the restarts on the way the context stays in exactly one state
    of the life cycle and the handles of its futures stay unique. *)
Theorem supervisor_outlives_addresses fuel w r w' t :
  ActorLaws false true → obeys false true restarting → accepts_termination →
  in_order w →
  supervisor_poll fuel w = Return (r, w', t) →
  in_order w' ∧ (r = Ok NotReady ∨ (r = Ok (Ready ()) ∧ connected (impl w') = false)).
Proof.
  intros L Hre Hacc. revert w r w' t. induction fuel as [|fuel IH]; intros w r w' t Hw Hp; [done |].
  cbn [supervisor_poll] in Hp.
  apply prog_bind_Return_inv in Hp as (x & w1 & t1 & t2 & Hx & Hp & _).
  pose proof (poll_in_order (S fuel) L Hacc w Hw) as H1. rewrite Hx in H1.
  assert (∀ r w' t, (b ← restart; if b : bool then supervisor_poll fuel else mret (Ok (Ready ()))) w1
    = Return (r, w', t) →
    in_order w' ∧ (r = Ok NotReady ∨ (r = Ok (Ready ()) ∧ connected (impl w') = false))) as Hagain.
  { intros r0 w0 t0 H0. apply prog_bind_Return_inv in H0 as (b & w2 & t3 & t4 & Hr & H0 & _).
    rewrite restart_spec in Hr. pose proof H1 as (_ & _ & [a Ha]).
    rewrite Ha in Hr. simpl in Hr. destruct (connected (impl w1)) eqn:Hc; simpl in Hr.
    - apply exec_bind_Return_inv in Hr as ([[u w3] t5] & Hr & [= <- <- <-]).
      eapply IH; [| exact H0].
      pose proof (obeys_triple _ _ _ in_order Hre in_order_api _ (in_order_restarted _ H1)) as H2.
      by rewrite Hr in H2.
    - injection Hr as <- <- <-. injection H0 as <- <- <-. split; [done | by right]. }
  destruct x as [[u|]|u]; [by eapply Hagain | | by eapply Hagain].
  injection Hp as <- <- <-. split; [done | by left].
Qed.

(** a restart keeps the mailbox, with its queued messages and addresses,
    and clears everything else: flags, wait futures, items and handles are those
    of a new context; it is refused when there is no actor or no address. *)
Theorem restart_keeps_mailbox w b w' t :
  restart w = Return (b, w', t) →
  if b then
    is_Some (act (impl w)) ∧ connected (impl w) = true ∧
    ∃ w1, restarting w1 = Return ((), w', t) ∧ env w1 = env w ∧
      act (impl w1) = act (impl w) ∧ mailbox (impl w1) = mailbox (impl w) ∧
      state (impl w1) = ARunning ∧ has_started (impl w1) = false ∧
      wait (impl w1) = [] ∧ items (impl w1) = [] ∧ handle (impl w1) = default_handle
  else w' = w ∧ (act (impl w) = None ∨ connected (impl w) = false).
Proof.
  rewrite restart_spec. case_bool_decide as Ha; simpl.
  { intros [= <- <- <-]. split; [done | by left]. }
  destruct (connected (impl w)) eqn:Hc; simpl.
  - intros Hr. apply exec_bind_Return_inv in Hr as ([[[] w3] t5] & Hr & [= <- <- <-]).
    split_and!; [by apply not_eq_None_Some | done |].
    eexists. split; [exact Hr |]. by split_and!.
  - intros [= <- <- <-]. split; [done | by right].
Qed.
End supervisor.

(** ** A run

    The actor gets the message "stop" and dies; its address is still there, so
    it is restarted; when the address is dropped it is given up. *)

Definition supervise (w : SWorld) : Exec (Poll () () * SWorld * list nat) :=
  @supervisor_poll _ _ _ _ _ _ _ _ _ (scripted polite) false 9%nat 9 w.

(** The world of a supervised actor to which a "stop" was sent. *)
Definition doomed : SWorld :=
  match
    (tx ← get_sync_address (build := false);
     via_mailbox (on_sync (SyncChannel.try_send 7%nat [CStop] false tx)))
      (mkWorld (new (Some ())) ([], []))
  with Return (_, w, _) => w | _ => fresh_world end.

Definition revived : SWorld := result_world (supervise doomed).

Definition orphaned : SWorld :=
  match via_mailbox (on_sync SyncChannel.sender_drop) revived with
  | Return (_, w, _) => w | _ => fresh_world
  end.
Definition given_up : SWorld := result_world (supervise orphaned).

Lemma polite_supervised : @in_order _ _ _ _ _ _ _ _ doomed.
Proof.
  split_and!; [reflexivity | | by eexists]. split_and!; [constructor | constructor | done | done].
Qed.

Lemma in_order_mailbox mb w :
  @in_order () Outside fut (list cmd) nat nat nat Queue w → in_order (put_mailbox mb w).
Proof. exact id. Qed.

Lemma orphaned_eq : orphaned = put_mailbox (mailbox (impl orphaned)) revived.
Proof. vm_compute. reflexivity. Qed.

Lemma supervisor_outlives_addresses_witness :
  (env revived).1 = [EStarted; EHandled; EStopping; EStopped; EStarted; EPolled] ∧
  connected (impl revived) = true ∧ connected (impl given_up) = false.
Proof.
  split; [vm_compute; reflexivity |]. split; [vm_compute; reflexivity |].
  assert (∀ w r w' t, in_order w → supervise w = Return (r, w', t) →
    in_order w' ∧ (r = Ok NotReady ∨ (r = Ok (Ready ()) ∧ connected (impl w') = false))) as Hrun.
  { intros w r w' t Hw Hp.
    exact (@supervisor_outlives_addresses _ _ _ _ _ _ _ _ _ (scripted polite)
      false 9%nat 9 w r w' t (laws_weaken polite polite_laws)
      (fun w0 => rtc_refl _ w0) polite_accepts Hw Hp). }
  destruct (Hrun doomed (Ok NotReady) revived [] polite_supervised) as [H _];
    [vm_compute; reflexivity |].
  destruct (Hrun orphaned (Ok (Ready ())) given_up []) as [_ [He|[_ He]]];
    [| vm_compute; reflexivity | discriminate He | exact He].
  by rewrite orphaned_eq; apply in_order_mailbox.
Defined.

Lemma restart_keeps_mailbox_witness :
  ∃ w', @restart _ _ _ _ _ _ _ _ (scripted polite) doomed = Return (true, w', []) ∧
  is_Some (act (impl doomed)) ∧ mailbox (impl w') = mailbox (impl doomed).
Proof.
  destruct (@restart _ _ _ _ _ _ _ _ (scripted polite) doomed) as [[[b w'] t]| | |] eqn:H;
    [| vm_compute in H; discriminate H..].
  pose proof (@restart_keeps_mailbox _ _ _ _ _ _ _ _ (scripted polite) doomed b w' t H) as Hk.
  destruct b; [| exfalso; vm_compute in H; discriminate H].
  destruct Hk as (Ha & _ & w1 & Hr & _ & _ & Hm & _). simpl in Hr. injection Hr as <- <-.
  exists w1. split; [reflexivity |]. by split.
Defined.
