(* ===== verification/SupervisorRuns.v ===== *)
(** * What a supervised actor handles: [src/supervisor.rs] with the context and
    the mailbox it polls

    A handler may stop its context; the supervisor then restarts the actor, which
    goes on with what is left in its mailbox.  [supervised_handles_all]: if the
    actor does nothing else to its context, one poll of the supervisor handles
    every queued message once, in order, with one restart per message that
    stopped it.  An actor that stops itself in [started] is restarted for ever
    ([supervisor_spins]). *)

From S2P Require Import Prelude.
From S2P Require Import Queue.
From S2P Require Import Envelope.
From S2P Require Import UnsyncChannel.
From S2P Require Import SyncChannel.
From S2P Require Import SyncChannelSpec.
From S2P Require Import Mailbox.
From S2P Require Import MailboxProps.
From S2P Require Import ContextImpl.
From S2P Require Import ContextLaws.
From S2P Require Import ContextTermination.
From S2P Require Import Supervisor.

(** ** Draining a channel until the context stops *)

(** How many of the messages in a list of handled ones stopped the context. *)
Definition stops {E} (l : list (E * bool)) : nat := length (filter (fun p => p.2 = true) l).

Lemma stops_app {E} (l1 l2 : list (E * bool)) : stops (l1 ++ l2) = (stops l1 + stops l2)%nat.
Proof. unfold stops. by rewrite filter_app, length_app. Qed.
Lemma stops_cons {E} (e : E) b l : stops ((e, b) :: l) = ((if b then 1 else 0) + stops l)%nat.
Proof. unfold stops. rewrite filter_cons. by destruct b. Qed.
Lemma stops_fmap {E F} (f : E → F) (l : list (E * bool)) : stops (prod_map f id <$> l) = stops l.
Proof. induction l as [|[e b] l IH]; [done |]. cbn [fmap list_fmap prod_map]. by rewrite !stops_cons, IH. Qed.

Section drain.
Context {W Task E : Type} (waiting : W → bool) (debug : bool).
Context (rx : Prog W Task (Poll (option E) ())) (h : E → Prog W Task ()).

(** [P es l b s]: the source holds [es], [l] was handled, [b] is [waiting]. *)
Context (P : list E → list (E * bool) → bool → W → Prop).
Context (P_waiting : ∀ es l b s, P es l b s → waiting s = b)
        (P_cons : ∀ e es l s, P (e :: es) l false s →
           gives rx s (fun r s' => r = Ok (Ready (Some e)) ∧ P es l false s'))
        (P_nil : ∀ l s, P [] l false s → gives rx s (fun r s' => no_data r ∧ P [] l false s'))
        (P_handle : ∀ e es l s, P es l false s →
           gives (h e) s (fun _ s' => ∃ b, P es (l ++ [(e, b)]) b s')).

(** The loop ends with everything handled, or after the first message that made
    the context wait. *)
Definition drained (es : list E) (l : list (E * bool)) (n : Z) (nr : bool)
    (r : option (Z * bool)) (s : W) : Prop :=
  ∃ l' rest b, es = l'.*1 ++ rest ∧ P rest (l ++ l') b s ∧ stops l' = (if b then 1 else 0)%nat ∧
    if b then r = None
    else rest = [] ∧ ∃ n', r = Some (n', nr && bool_decide (es = [])) ∧
           (debug = true → n' = n + Z.of_nat (length es)).

Lemma drain_until fuel n nr es l s :
  P es l false s → (length es < fuel)%nat →
  (debug = true → n + Z.of_nat (length es) < MAX_SYNC_POLLS) →
  gives (drain_loop waiting debug fuel rx h n nr) s (drained es l n nr).
Proof.
  revert es n nr l s. induction fuel as [|fuel IH]; intros es n nr l s HP Hf Hd; [lia |].
  cbn [drain_loop]. apply (gives_step _ _ _ (waiting s) s); [done |]. rewrite (P_waiting _ _ _ _ HP).
  destruct es as [|e es].
  { eapply gives_bind; [by apply P_nil |]. intros r s' [Hr HP']. destruct r as [[[e|]|]|]; [done | ..];
      apply gives_ret; exists [], [], false; rewrite (app_nil_r l), andb_true_r;
      (split_and!; [done.. |]; eexists; split; [done |]; intros _; simpl; lia). }
  eapply gives_bind; [by apply P_cons |]. intros r s1 [-> HP1].
  eapply gives_bind; [by apply P_handle |]. intros [] s2 [b HP2].
  simpl in Hf, Hd.
  assert (∃ n1, count_poll debug n = Return n1 ∧ (debug = true → n1 = n + 1)) as (n1 & Hn & Hn1).
  { unfold count_poll. destruct debug; [| by eexists]. specialize (Hd eq_refl).
    destruct (Z.ltb_spec (n + 1) MAX_SYNC_POLLS); [by eexists | lia]. }
  apply (gives_step _ _ _ n1 s2); [unfold lift; by rewrite Hn |].
  destruct b.
  - destruct fuel as [|fuel]; [lia |]. cbn [drain_loop].
    apply (gives_step _ _ _ (waiting s2) s2); [done |]. rewrite (P_waiting _ _ _ _ HP2).
    apply gives_ret. by exists [(e, true)], es, true.
  - eapply gives_conseq; [apply (IH es n1 false _ _ HP2); [lia |] |].
    { intros Hdb. specialize (Hd Hdb). rewrite (Hn1 Hdb). lia. }
    intros r s' (l' & rest & b & -> & HP' & Hs & Hr). exists ((e, false) :: l'), rest, b.
    rewrite <- app_assoc in HP'. rewrite stops_cons. split_and!; [done | done | done |].
    destruct b; [done |]. destruct Hr as (-> & n' & -> & Hn'). split; [done |]. exists n'.
    rewrite andb_false_r. split; [done |]. intros Hdb. rewrite (Hn' Hdb), (Hn1 Hdb). simpl. lia.
Qed.
End drain.

(** ** Actors that only stop *)

Section runs.
Context {A V Fut M Txs Txu Task : Type} {Q : Type → Type} `{!MpscQueue Q}.
Abbreviation ContextImpl := (@ContextImpl A Fut M Txs Txu Task Q).
Abbreviation World := (@World A V Fut M Txs Txu Task Q).
Abbreviation Mailbox := (@Mailbox M Txs Txu Task Q).
Abbreviation SyncEnv := (Envelope M Txs).
Abbreviation UnsyncEnv := (Envelope M Txu).
Context `{!ActorCode (A := A) (V := V) (Fut := Fut) (M := M) (Txs := Txs) (Txu := Txu)
            (Task := Task) (Q := Q)}.
Implicit Types (c : ContextImpl) (w : World).

(** What is known of a run: [rec l n v v'] may say anything of the outside world
    before and after the messages [l] were handled, each marked with whether its
    handler stopped the context, and [restarting] was called [n] times. *)
Context (rec : list ((UnsyncEnv + SyncEnv) * bool) → nat → V → V → Prop).

(** From [w] to [w'] the actor changed itself, and stopped its context if [b]. *)
Definition only_stops (b : bool) w w' : Prop :=
  is_Some (act (impl w')) ∧
  impl w' = set_act (act (impl w')) (if b then stop (impl w) else impl w).
Definition records l n w w' : Prop := rec l n (env w) (env w').

Class Supervisable : Prop := {
  sv_refl v : rec [] 0 v v;
  sv_trans l1 n1 l2 n2 v1 v2 v3 :
    rec l1 n1 v1 v2 → rec l2 n2 v2 v3 → rec (l1 ++ l2) (n1 + n2) v1 v3;
  sv_started w : is_Some (act (impl w)) →
    gives started w (fun _ w' => only_stops false w w' ∧ records [] 0 w w');
  sv_stopping w : is_Some (act (impl w)) →
    gives stopping w (fun _ w' => only_stops false w w' ∧ records [] 0 w w');
  sv_stopped w : is_Some (act (impl w)) →
    gives stopped w (fun _ w' => only_stops false w w' ∧ records [] 0 w w');
  sv_restarting w : is_Some (act (impl w)) →
    gives restarting w (fun _ w' => only_stops false w w' ∧ records [] 1 w w');
  sv_unsync e w : is_Some (act (impl w)) →
    gives (handle_unsync e) w (fun _ w' => ∃ b, only_stops b w w' ∧ records [(inl e, b)] 0 w w');
  sv_sync e w : is_Some (act (impl w)) →
    gives (handle_sync e) w (fun _ w' => ∃ b, only_stops b w w' ∧ records [(inr e, b)] 0 w w')
}.
Context (sv : Supervisable) (debug : bool) (current : Task).

(** ** The context between two steps *)

(** The flags of a context that started and that was stopped if [b]. *)
Definition life (b : bool) : Z := if b then Z.lor STARTED STOPPING else Z.lor STARTED RUNNING.

Record on_duty (us : list UnsyncEnv) (ss : list SyncEnv) w : Prop := mkOnDuty {
  od_act : is_Some (act (impl w));
  od_wait : wait (impl w) = [];
  od_items : items (impl w) = [];
  od_holds : mailbox_holds (mailbox (impl w)) us ss;
  od_connected : connected (impl w) = true
}.

Lemma on_duty_stops us ss b w w' : on_duty us ss w → only_stops b w w' → on_duty us ss w'.
Proof.
  intros [] [Ha Hi]. unfold stop in Hi.
  destruct b; [destruct (flags_contains _ _) |]; split; try done; by rewrite Hi.
Qed.

Lemma on_duty_flags us ss f w : on_duty us ss w → on_duty us ss (mkWorld (set_flags f (impl w)) (env w)).
Proof. by intros []. Qed.

Lemma life_stops b w w' : flags (impl w) = life false → only_stops b w w' → flags (impl w') = life b.
Proof. intros Hf [_ ->]. unfold stop. destruct b; simpl; rewrite Hf; done. Qed.

Lemma life_waiting b w : wait (impl w) = [] → flags (impl w) = life b → waiting (impl w) = b.
Proof. unfold waiting, is_stopping. intros -> ->. by destruct b. Qed.

(** *** The mailbox *)

Lemma unsync_poll_weak t (r : Chan (M := M) (Tx := Txu) (Task := Task)) x r' n :
  UnsyncChannel.poll t r = Return (x, r', n) → weak r' = weak r.
Proof.
  rewrite poll_spec. simpl. case_bool_decide; [by intros [= _ <- _] |].
  destruct (UnsyncChannel.buffer _); by intros [= _ <- _].
Qed.

Lemma sync_poll_senders t (i : Inner (M := M) (Tx := Txs) (Task := Task) (Q := Q)) es x i' n :
  rx_holds i es → rx_poll t i = Return (x, i', n) → num_senders i' = num_senders i.
Proof.
  intros (a & HR & Ho & Hm) Hp. pose proof (poll_refines t _ _ HR Ho) as Hs. unfold spec_poll in Hs.
  rewrite Hm in Hs. unfold a_unpark in Hs. destruct es as [|e es]; [| destruct (wake_cells _ _) as [cs wk]];
    destruct Hs as (i2 & HR2 & H2); specialize (H2 2%nat (le_n _)); change (SyncChannel.poll 2 t i = Return (x, i', n)) in Hp; rewrite H2 in Hp;
    injection Hp as _ <- _; by rewrite (R_senders _ _ HR2), (R_senders _ _ HR).
Qed.

Abbreviation take_unsync := (poll_unsync (fun w : World => mailbox (impl w)) put_mailbox current).
Abbreviation take_sync := (poll_sync (fun w : World => mailbox (impl w)) put_mailbox current).

Definition same_but_mailbox w w' : Prop := w' = put_mailbox (mailbox (impl w')) w.

Lemma take_unsync_gives us ss w :
  on_duty us ss w →
  gives take_unsync w (fun r w' => same_but_mailbox w w' ∧ on_duty (tl us) ss w' ∧
    match us with e :: _ => r = Ok (Ready (Some e)) | [] => no_data r end).
Proof.
  intros [Ha Hw Hi [Hu Hs] Hc].
  assert (∃ x r' n, rx_poll current (unsync_msgs (mailbox (impl w))) = Return (x, r', n) ∧
    rx_holds r' (tl us) ∧ match us with e :: _ => x = Ok (Ready (Some e)) | [] => no_data x end)
    as (x & r' & n & Hr & Hr' & Hx).
  { destruct us as [|e us].
    - by destruct (rx_poll_nil current _ Hu) as (x & r' & n & ? & ? & ?); exists x, r', n.
    - by destruct (rx_poll_cons current _ _ _ Hu) as (r' & n & ? & ?); exists (Ok (Ready (Some e))), r', n. }
  exists x, (put_mailbox (mkMailbox (sync_msgs (mailbox (impl w))) r') w), n.
  split; [unfold poll_unsync, in_mailbox, on_unsync; by rewrite Hr |].
  split; [done |]. split; [| done]. split; try done. cbn. unfold connected, mailbox_connected in *. simpl.
  by rewrite (unsync_poll_weak _ _ _ _ _ Hr).
Qed.

Lemma take_sync_gives us ss w :
  on_duty us ss w → is_Some (sync_msgs (mailbox (impl w))) →
  gives take_sync w (fun r w' => same_but_mailbox w w' ∧ on_duty us (tl ss) w' ∧
    is_Some (sync_msgs (mailbox (impl w'))) ∧
    match ss with e :: _ => r = Ok (Ready (Some e)) | [] => no_data r end).
Proof.
  intros [Ha Hw Hi [Hu Hs] Hc] [i Hsm]. rewrite Hsm in Hs.
  assert (∃ x i' n, rx_poll current i = Return (x, i', n) ∧
    rx_holds i' (tl ss) ∧ match ss with e :: _ => x = Ok (Ready (Some e)) | [] => no_data x end)
    as (x & i' & n & Hr & Hr' & Hx).
  { destruct ss as [|e ss].
    - by destruct (rx_poll_nil current _ Hs) as (x & r' & n & ? & ? & ?); exists x, r', n.
    - by destruct (rx_poll_cons current _ _ _ Hs) as (r' & n & ? & ?); exists (Ok (Ready (Some e))), r', n. }
  exists x, (put_mailbox (mkMailbox (Some i') (unsync_msgs (mailbox (impl w)))) w), n.
  split; [unfold poll_sync, in_mailbox; by rewrite (on_sync_run _ _ _ _ _ _ Hsm Hr) |].
  split; [done |]. split; [| by split]. split; try done.
  cbn. unfold connected, mailbox_connected in *. simpl. rewrite Hsm in Hc.
  by rewrite (sync_poll_senders _ _ _ _ _ _ Hs Hr).
Qed.

(** From [w], where it was not stopped, the context handled [l] and was stopped
    if [b]; [us] and [ss] are left. *)
Definition reached w l us ss (b : bool) w' : Prop :=
  on_duty us ss w' ∧ records l 0 w w' ∧ flags (impl w') = life b.

Lemma records_trans l1 n1 l2 n2 w1 w2 w3 :
  records l1 n1 w1 w2 → records l2 n2 w2 w3 → records (l1 ++ l2) (n1 + n2) w1 w3.
Proof. apply sv_trans. Qed.

Lemma reached_start us ss w : on_duty us ss w → flags (impl w) = life false → reached w [] us ss false w.
Proof. intros Hd Hf. split; [done |]. split; [apply sv_refl | done]. Qed.

Lemma reached_waiting w l us ss b w' : reached w l us ss b w' → waiting (impl w') = b.
Proof. intros (Hd & _ & Hf). apply life_waiting; [apply Hd | done]. Qed.

Lemma reached_mailbox w l us ss us' ss' b w1 w2 :
  reached w l us ss b w1 → same_but_mailbox w1 w2 → on_duty us' ss' w2 → reached w l us' ss' b w2.
Proof. intros (_ & Hr & Hf) Hs Hd. unfold same_but_mailbox in Hs. split; [done |]. rewrite Hs. by split. Qed.

Lemma reached_stops w l us ss b e w1 w2 :
  reached w l us ss false w1 → only_stops b w1 w2 → records [(e, b)] 0 w1 w2 →
  reached w (l ++ [(e, b)]) us ss b w2.
Proof.
  intros (Hd & Hr & Hf) Hs H2. split_and!; [by eapply on_duty_stops | | by eapply life_stops].
  exact (records_trans _ _ _ _ _ _ _ Hr H2).
Qed.

Abbreviation drain := (drain_loop (fun w : World => waiting (impl w)) debug).

Lemma serve_unsync fuel n nr w0 l us ss w :
  reached w0 l us ss false w → (length us < fuel)%nat →
  (debug = true → n + Z.of_nat (length us) < MAX_SYNC_POLLS) →
  gives (drain fuel take_unsync handle_unsync n nr) w
    (drained debug (fun us l' b w' => reached w0 (l ++ (prod_map inl id <$> l')) us ss b w') us [] n nr).
Proof.
  intros Hw Hf Hd. apply drain_until; [| | | | by rewrite app_nil_r | done | done].
  - intros *. apply reached_waiting.
  - intros e es l' s Hs. eapply gives_conseq; [apply (take_unsync_gives (e :: es) ss s), Hs |].
    intros r s' (Hm & Ho & ->). split; [done |]. by eapply reached_mailbox.
  - intros l' s Hs. eapply gives_conseq; [apply (take_unsync_gives [] ss s), Hs |].
    intros r s' (Hm & Ho & Hr). split; [done |]. by eapply reached_mailbox.
  - intros e es l' s Hs. eapply gives_conseq; [apply (sv_unsync e s), Hs |].
    intros _ s' (b & Hst & Hr). exists b. rewrite fmap_app, app_assoc. by eapply reached_stops.
Qed.

Lemma serve_sync fuel n nr w0 l us ss w :
  reached w0 l us ss false w → is_Some (sync_msgs (mailbox (impl w))) → (length ss < fuel)%nat →
  (debug = true → n + Z.of_nat (length ss) < MAX_SYNC_POLLS) →
  gives (drain fuel take_sync handle_sync n nr) w
    (drained debug (fun ss l' b w' => reached w0 (l ++ (prod_map inr id <$> l')) us ss b w' ∧
       is_Some (sync_msgs (mailbox (impl w')))) ss [] n nr).
Proof.
  intros Hw Hsm Hf Hd. apply drain_until; [| | | | by rewrite app_nil_r | done | done].
  - intros es l' b s [Hs _]. by eapply reached_waiting.
  - intros e es l' s [Hs Hi]. eapply gives_conseq; [apply (take_sync_gives us (e :: es) s); [apply Hs | done] |].
    intros r s' (Hm & Ho & Hi' & ->). split; [done |]. split; [by eapply reached_mailbox | done].
  - intros l' s [Hs Hi]. eapply gives_conseq; [apply (take_sync_gives us [] s); [apply Hs | done] |].
    intros r s' (Hm & Ho & Hi' & Hr). split; [done |]. split; [by eapply reached_mailbox | done].
  - intros e es l' s [Hs Hi]. eapply gives_conseq; [apply (sv_sync e s), Hs |].
    intros _ s' (b & Hst & Hr). exists b. rewrite fmap_app, app_assoc. split; [by eapply reached_stops |].
    destruct Hst as [_ ->]. unfold stop. destruct b; [by destruct (flags_contains _ _) | done].
Qed.

(** [Mailbox::poll] handles everything, or stops at the first message that
    stopped the context. *)
Definition served w0 l us ss w' : Prop :=
  ∃ l' us' ss' b, round us ss = l'.*1 ++ round us' ss' ∧ reached w0 (l ++ l') us' ss' b w' ∧
    stops l' = (if b then 1 else 0)%nat ∧ (b = false → us' = [] ∧ ss' = []).

Abbreviation loop := (poll_loop (fun w : World => mailbox (impl w)) put_mailbox
  (fun w : World => waiting (impl w)) handle_unsync handle_sync debug current).

Lemma fst_prod_map {X Y} (f : X → Y) (l : list (X * bool)) : (prod_map f id <$> l).*1 = f <$> l.*1.
Proof. by rewrite <- !list_fmap_compose. Qed.

Lemma served_unsync w0 l l' us ss w :
  reached w0 (l ++ (prod_map inl id <$> l')) us ss true w → stops l' = 1%nat →
  served w0 l (l'.*1 ++ us) ss w.
Proof.
  intros Hw Hs. exists (prod_map inl id <$> l'), us, ss, true.
  rewrite stops_fmap, fst_prod_map. unfold round. rewrite fmap_app, <- app_assoc. by split_and!.
Qed.

Lemma served_all w0 l l1 l2 ss b w :
  reached w0 ((l ++ (prod_map inl id <$> l1)) ++ (prod_map inr id <$> l2)) [] ss b w →
  stops l1 = 0%nat → stops l2 = (if b then 1 else 0)%nat → (b = false → ss = []) →
  served w0 l l1.*1 (l2.*1 ++ ss) w.
Proof.
  intros Hw H1 H2 Hb.
  exists ((prod_map inl id <$> l1) ++ (prod_map inr id <$> l2)), [], ss, b.
  rewrite <- app_assoc in Hw. rewrite stops_app, !stops_fmap, fmap_app, !fst_prod_map, H1, H2.
  unfold round. rewrite fmap_app, fmap_nil, <- app_assoc. split_and!; auto.
Qed.

(** The second inner loop, which only runs if there is a thread-safe channel. *)
Definition second_half w0 l ss n nr (r : option (Z * bool)) w' : Prop :=
  ∃ l2 ss' b, ss = l2.*1 ++ ss' ∧ reached w0 (l ++ (prod_map inr id <$> l2)) [] ss' b w' ∧
    stops l2 = (if b then 1 else 0)%nat ∧
    if b then r = None
    else ss' = [] ∧ ∃ n2, r = Some (n2, nr && bool_decide (ss = [])) ∧
      (debug = true → n2 = n + Z.of_nat (length ss)).

Lemma serve_second fuel n nr w0 l ss w :
  reached w0 l [] ss false w → (length ss < fuel)%nat →
  (debug = true → n + Z.of_nat (length ss) < MAX_SYNC_POLLS) →
  gives (match sync_msgs (mailbox (impl w)) with
         | Some _ => drain fuel take_sync handle_sync n nr
         | None => mret (Some (n, nr))
         end) w (second_half w0 l ss n nr).
Proof.
  intros Hw Hf Hd. destruct (sync_msgs (mailbox (impl w))) as [i|] eqn:Hi.
  - eapply gives_conseq; [by apply (serve_sync fuel n nr w0 l [] ss w Hw); [rewrite Hi | ..] |].
    intros r w2 (l2 & ss' & b & Hss & [Hw2 _] & H2 & Hr). by exists l2, ss', b.
  - destruct Hw as (Hd1 & ? & ?). pose proof (od_holds _ _ _ Hd1) as [_ Hss]. rewrite Hi in Hss. subst ss.
    apply gives_ret. exists [], [], false. cbn [fmap list_fmap]. rewrite (app_nil_r l), andb_true_r.
    split_and!; [done.. |]. exists n. split; [done |]. intros _. simpl. lia.
Qed.

Lemma serve_mailbox fuel n w0 l us ss w :
  reached w0 l us ss false w → (length us < fuel)%nat → (length ss < fuel)%nat →
  ((1 < fuel)%nat ∨ us = [] ∧ ss = []) →
  (debug = true → n + Z.of_nat (length us + length ss) < MAX_SYNC_POLLS) →
  gives (loop fuel n) w (fun _ => served w0 l us ss).
Proof.
  revert n l us ss w. induction fuel as [|fuel IH]; intros n l us ss w Hw Hu Hs Hf Hd; [lia |].
  cbn -[Mailbox.drain_loop mbind]. eapply gives_bind.
  { apply (serve_unsync (S fuel) n true w0 l us ss w Hw Hu). intros Hdb. specialize (Hd Hdb). lia. }
  intros r w1 (l1 & us' & b & -> & Hw1 & Hst & Hr). simpl in Hw1. destruct b.
  { subst r. apply gives_ret. by apply served_unsync. }
  destruct Hr as (-> & n1 & -> & Hn1). rewrite app_nil_r in *.
  apply (gives_step _ _ _ (sync_msgs (mailbox (impl w1))) w1); [done |].
  eapply gives_bind.
  { apply (serve_second (S fuel) n1 (bool_decide (l1.*1 = [])) w0 _ ss w1 Hw1 Hs). intros Hdb. rewrite (Hn1 Hdb). specialize (Hd Hdb). lia. }
  intros r w2 (l2 & ss' & b & Hss & Hw2 & H2 & Hr). destruct b.
  { subst r ss. apply gives_ret. by eapply served_all. }
  destruct Hr as (-> & n2 & -> & Hn2). rewrite app_nil_r in Hss. subst ss.
  assert (served w0 l l1.*1 l2.*1 w2) as Hdone.
  { rewrite <- (app_nil_r l2.*1). by apply (served_all _ _ _ _ _ false). }
  destruct (bool_decide _ && _) eqn:He; [by apply gives_ret |].
  destruct Hf as [Hf|[E1 E2]]; [| by rewrite E1, E2 in He].
  eapply gives_conseq; [apply (IH n2 _ [] [] w2 Hw2); [simpl; lia | simpl; lia | by right |] |].
  { intros Hdb. rewrite (Hn2 Hdb), (Hn1 Hdb). specialize (Hd Hdb). simpl. lia. }
  intros _ w3 (l3 & us3 & ss3 & b & Hl3 & Hw3 & H3 & Hb).
  symmetry in Hl3. apply app_eq_nil in Hl3 as [->%fmap_nil_inv Hl3].
  unfold round in Hl3. apply app_eq_nil in Hl3 as [->%fmap_nil_inv ->%fmap_nil_inv].
  rewrite app_nil_r in Hw3. destruct b; [by inversion H3 |].
  rewrite <- (app_nil_r l2.*1). by apply (served_all _ _ _ _ _ false).
Qed.

(** *** One life of the context *)

Definition always_stops : Prop := ∀ w r w' t, stopping w = Return (r, w', t) → r = Stop.

Lemma records_refl w : records [] 0 w w.
Proof. apply sv_refl. Qed.

(** What [poll] does with a context that was stopped, and with one that was not. *)
Lemma finish_stopped us ss w :
  on_duty us ss w → flags (impl w) = life true →
  gives finish w (fun o w' => on_duty us ss w' ∧ records [] 0 w w' ∧
    (o = Some (Ok (Ready ())) ∨ o = None ∧ flags (impl w') = life false ∧ ¬ always_stops)).
Proof.
  intros Hd Hf. set (w1 := mkWorld (set_curr_handle default_handle (impl w)) (env w)).
  assert (on_duty us ss w1) as Hd1 by by destruct Hd.
  unfold finish. apply (gives_step _ _ _ () w1); [done |]. apply (gives_step _ _ _ (impl w1) w1); [done |].
  replace (flags (impl w1)) with (life true) by by rewrite <- Hf. cbn -[mbind alive].
  destruct (sv_stopping w1 (od_act _ _ _ Hd1)) as (r & w2 & t & Hr & Hs & Hrec).
  pose proof (on_duty_stops _ _ _ _ _ Hd1 Hs) as Hd2.
  eapply (gives_bind _ _ _ (fun r' w' => r' = r ∧ w' = w2)); [by exists r, w2, t |]. intros ? ? [-> ->].
  destruct r.
  - apply (gives_step _ _ _ () (mkWorld (set_flags STOPPED (impl w2)) (env w2))); [done |].
    eapply gives_bind; [apply (sv_stopped _ (od_act _ _ _ (on_duty_flags _ _ STOPPED _ Hd2))) |].
    intros _ w3 [Hs3 Hr3]. apply gives_ret. split_and!; [| | by left].
    + eapply on_duty_stops; [| exact Hs3]. by apply on_duty_flags.
    + exact (records_trans [] 0 [] 0 _ _ _ Hrec Hr3).
  - eapply gives_step; [done |]. apply gives_ret. split_and!; [by apply on_duty_flags | exact Hrec |].
    right. split_and!; [done | | by intros Ha; specialize (Ha _ _ _ _ Hr)].
    destruct Hs as [_ ->]. simpl. by rewrite Hf.
Qed.

Lemma finish_on_duty us ss w :
  on_duty us ss w → flags (impl w) = life false →
  gives finish w (fun o w' => o = Some (Ok NotReady) ∧ on_duty us ss w' ∧ records [] 0 w w' ∧
    flags (impl w') = life false).
Proof.
  intros Hd Hf. set (w1 := mkWorld (set_curr_handle default_handle (impl w)) (env w)).
  assert (on_duty us ss w1) as Hd1 by by destruct Hd.
  unfold finish. apply (gives_step _ _ _ () w1); [done |]. apply (gives_step _ _ _ (impl w1) w1); [done |].
  replace (flags (impl w1)) with (life false) by by rewrite <- Hf. cbn -[alive impl].
  assert (alive (impl w1) = true) as ->.
  { unfold alive, is_stopping. replace (flags (impl w1)) with (life false) by by rewrite <- Hf.
    by rewrite (od_connected _ _ _ Hd1). }
  apply gives_ret. split_and!; [done | done | exact (records_refl w) | done].
Qed.

(** The messages [l] were handled in order, [us] and [ss] are left, and the poll
    answered [r]: it goes on when nothing is left, or the context completed. *)
Definition lived us ss w (r : Poll () ()) w' : Prop :=
  ∃ l us' ss', round us ss = l.*1 ++ round us' ss' ∧ on_duty us' ss' w' ∧ records l 0 w w' ∧
    (r = Ok NotReady ∧ us' = [] ∧ ss' = [] ∧ flags (impl w') = life false ∧ (always_stops → stops l = 0%nat) ∨
     r = Ok (Ready ()) ∧ (0 < stops l)%nat ∧ (always_stops → stops l = 1%nat)).

Lemma lived_trans us ss us1 ss1 w w1 r w2 l :
  round us ss = l.*1 ++ round us1 ss1 → records l 0 w w1 → ¬ always_stops →
  lived us1 ss1 w1 r w2 → lived us ss w r w2.
Proof.
  intros Hl Hr Hno (l2 & us2 & ss2 & Hl2 & Hd & Hr2 & H). exists (l ++ l2), us2, ss2.
  split_and!; [by rewrite Hl, Hl2, fmap_app, app_assoc | done | exact (records_trans _ _ _ _ _ _ _ Hr Hr2) |].
  destruct H as [(-> & -> & -> & Hf & _)|(-> & Hs & _)]; [left | right]; split_and!; try done.
  rewrite stops_app. lia.
Qed.

Lemma round_length (us : list UnsyncEnv) (ss : list SyncEnv) :
  length (round us ss) = (length us + length ss)%nat.
Proof. unfold round. by rewrite length_app, !length_fmap. Qed.

Lemma outer_gives n us ss w fuel :
  (length us + length ss ≤ n)%nat → (S n < fuel)%nat → on_duty us ss w →
  flags_remove (flags (impl w)) MODIFIED = life false →
  (debug = true → Z.of_nat (length us + length ss) < MAX_SYNC_POLLS) →
  gives (outer_loop debug current fuel) w (lived us ss w).
Proof.
  revert us ss w fuel. induction n as [n IH] using lt_wf_ind. intros us ss w [|fuel] Hn Hfuel Hd Hf Hdb; [lia |].
  set (w1 := mkWorld (set_flags (life false) (impl w)) (env w)).
  assert (on_duty us ss w1) as Hd1 by by apply on_duty_flags.
  cbn -[mbind wait_loop mailbox_poll items_loop finish].
  apply (gives_step _ _ _ () w1); [unfold on_impl, modify; by rewrite Hf |].
  apply (gives_step _ _ _ false w1).
  { cbn. unfold mbind, prog_bind. cbn. by rewrite (od_wait _ _ _ Hd). }
  eapply gives_bind.
  { apply (serve_mailbox (S fuel) 0 w1 [] us ss w1); [by apply reached_start | lia | lia | left; lia | done]. }
  intros _ w2 (l & us2 & ss2 & b & Hl & (Hd2 & Hr2 & Hf2) & Hs & Hb).
  apply (gives_step _ _ _ (impl w2) w2); [done |].
  assert (must_wait (impl w2) = false) as -> by (unfold must_wait; by rewrite (od_wait _ _ _ Hd2)).
  apply (gives_step _ _ _ Done w2).
  { cbn. unfold mbind, prog_bind. cbn. by rewrite (od_items _ _ _ Hd2). }
  destruct b.
  - eapply gives_bind; [by apply finish_stopped |]. intros o w3 (Hd3 & Hr3 & [-> | (-> & Hf3 & Hno)]).
    + apply gives_ret. exists l, us2, ss2. split_and!; [done | done | | right; split_and!; [done | lia | done]].
      rewrite <- (app_nil_r l). exact (records_trans _ _ _ _ _ _ _ Hr2 Hr3).
    + assert (length l ≠ 0)%nat as Hll by (destruct l; [done | simpl; lia]).
      assert (length us + length ss = length l + (length us2 + length ss2))%nat as Hlen.
      { rewrite <- !round_length, Hl, length_app, length_fmap. done. }
      eapply gives_conseq; [apply (IH (length us2 + length ss2)%nat ltac:(lia) us2 ss2 w3); try lia; try done |].
      * by rewrite Hf3.
      * intros E. specialize (Hdb E). lia.
      * intros r w4. apply lived_trans with (l := l); [done | | done].
        rewrite <- (app_nil_r l). exact (records_trans _ _ _ _ _ _ _ Hr2 Hr3).
  - destruct (Hb eq_refl) as [-> ->].
    eapply gives_bind; [by apply finish_on_duty |]. intros o w3 (-> & Hd3 & Hr3 & Hf3).
    apply gives_ret. exists l, [], []. split_and!; [done | done | | by left; split_and!].
    rewrite <- (app_nil_r l). exact (records_trans _ _ _ _ _ _ _ Hr2 Hr3).
Qed.

(** A context that runs, started or not, whether it was modified or not. *)
Definition running c : Prop :=
  ∃ f, flags c = f ∧ (f = RUNNING ∨ f = life false ∨ f = Z.lor RUNNING MODIFIED ∨
                      f = Z.lor (life false) MODIFIED).

Lemma running_started c :
  running c → flags_remove (flags_insert (flags c) STARTED) MODIFIED = life false ∧
    (flags_contains (flags c) STARTED = true → flags_insert (flags c) STARTED = flags c).
Proof. by intros (f & -> & [-> | [-> | [-> | ->]]]). Qed.

Lemma poll_gives us ss w fuel :
  on_duty us ss w → running (impl w) → (length us + length ss + 1 < fuel)%nat →
  (debug = true → Z.of_nat (length us + length ss) < MAX_SYNC_POLLS) →
  gives (poll debug current fuel) w (lived us ss w).
Proof.
  intros Hd Hrun Hfuel Hdb. unfold gives. rewrite poll_unfold by apply Hd. fold (gives (_ ← poll_start; outer_loop debug current fuel) w (lived us ss w)).
  apply (gives_bind _ _ _ (fun _ w1 => on_duty us ss w1 ∧ records [] 0 w w1 ∧
    flags_remove (flags (impl w1)) MODIFIED = life false)).
  - unfold poll_start. apply (gives_step _ _ _ (impl w) w); [done |].
    destruct (flags_contains (flags (impl w)) STARTED) eqn:Hst.
    { apply gives_ret. apply running_started in Hrun as [Hrun Hsame]. rewrite (Hsame Hst) in Hrun.
      split_and!; [done | apply records_refl | done]. }
    set (w0 := mkWorld (set_flags (flags_insert (flags (impl w)) STARTED) (impl w)) (env w)).
    apply (gives_step _ _ _ () w0); [done |].
    assert (on_duty us ss w0) as Hd0 by by apply on_duty_flags.
    eapply gives_conseq; [apply (sv_started w0), Hd0 |]. intros _ w1 [Hs Hr].
    split_and!; [by eapply on_duty_stops | exact Hr |]. destruct Hs as [_ ->]. by apply running_started.
  - intros _ w1 (Hd1 & Hr1 & Hf1).
    eapply gives_conseq; [apply (outer_gives _ us ss w1 fuel (le_n _)); [lia | done..] |].
    intros r w2 (l & us2 & ss2 & Hl & Hd2 & Hr2 & H). exists l, us2, ss2. split_and!; [done | done | | done].
    exact (records_trans _ _ _ _ _ _ _ Hr1 Hr2).
Qed.

(** ** The supervisor *)

Lemma restart_gives us ss w :
  on_duty us ss w →
  gives restart w (fun b w' => b = true ∧ on_duty us ss w' ∧ records [] 1 w w' ∧ running (impl w')).
Proof.
  intros Hd. unfold gives. rewrite restart_spec, (od_connected _ _ _ Hd).
  destruct (od_act _ _ _ Hd) as [a Ha]. rewrite Ha. cbn [negb orb bool_decide].
  set (w1 := mkWorld (restarted (impl w)) (env w)).
  assert (on_duty us ss w1) as Hd1 by by destruct Hd.
  destruct (sv_restarting w1 (od_act _ _ _ Hd1)) as ([] & w2 & t & Hr & Hs & Hrec).
  rewrite bool_decide_false by done. simpl. fold w1. rewrite Hr. simpl. eexists _, _, _. split; [done |].
  split_and!; [done | by eapply on_duty_stops | exact Hrec |]. destruct Hs as [_ ->]. simpl.
  exists RUNNING. split; [done | by left].
Qed.

(** Every queued message was handled, with a restart for each that stopped the
    actor. *)
Definition all_handled us ss w (r : Poll () ()) w' : Prop :=
  ∃ l n, r = Ok NotReady ∧ l.*1 = round us ss ∧ records l n w w' ∧ (n ≤ stops l)%nat ∧
    (always_stops → n = stops l) ∧ on_duty [] [] w' ∧ flags (impl w') = life false.

Lemma supervisor_gives n us ss w fuel :
  (length us + length ss ≤ n)%nat → (n + 2 < fuel)%nat → on_duty us ss w → running (impl w) →
  (debug = true → Z.of_nat (length us + length ss) < MAX_SYNC_POLLS) →
  gives (supervisor_poll debug current fuel) w (all_handled us ss w).
Proof.
  revert us ss w fuel. induction n as [n IH] using lt_wf_ind. intros us ss w [|fuel] Hn Hfuel Hd Hrun Hdb; [lia |].
  cbn [supervisor_poll]. eapply gives_bind; [apply poll_gives; [done | done | lia | done] |].
  intros r w1 (l & us1 & ss1 & Hl & Hd1 & Hr1 & [(-> & -> & -> & Hf & Hs)|(-> & Hs & Hs1)]).
  - apply gives_ret. exists l, 0%nat. unfold round in Hl at 2. rewrite app_nil_r in Hl.
    split_and!; [done | done | done | lia | | done | done]. intros Ha. by rewrite Hs.
  - eapply gives_bind; [by apply restart_gives |]. intros b w2 (-> & Hd2 & Hr2 & Hrun2).
    assert (length us + length ss = length l + (length us1 + length ss1))%nat as Hlen.
    { rewrite <- !round_length, Hl, length_app, length_fmap. done. }
    assert (length l ≠ 0)%nat as Hll by (destruct l; [by unfold stops in Hs; simpl in Hs; lia | simpl; lia]).
    eapply gives_conseq; [apply (IH (length us1 + length ss1)%nat ltac:(lia) us1 ss1 w2); try lia; try done |].
    { intros E. specialize (Hdb E). lia. }
    intros r w3 (l2 & n2 & -> & Hl2 & Hr3 & Hn2 & Ha2 & Hd3 & Hf3).
    exists (l ++ l2), (1 + n2)%nat. split_and!; [done | | | rewrite stops_app; lia | | done | done].
    + by rewrite fmap_app, Hl2, Hl.
    + exact (records_trans l 0 l2 _ _ _ _ Hr1 (records_trans [] 1 _ _ _ _ _ Hr2 Hr3)).
    + intros Ha. rewrite stops_app, (Hs1 Ha), (Ha2 Ha). done.
Qed.

Lemma supervisor_poll_mono n1 n2 :
  (n1 ≤ n2)%nat → prog_le (supervisor_poll debug current n1) (supervisor_poll debug current n2).
Proof.
  revert n2. induction n1 as [|n1 IH]; intros [|n2] Hn; try lia; try apply prog_le_out_of_fuel.
  cbn [supervisor_poll]. apply prog_le_bind; [by apply context_poll_mono |]. solve_prog_le.
Qed.

Lemma supervisor_handles us ss w :
  on_duty us ss w → running (impl w) →
  (debug = true → Z.of_nat (length us + length ss) < MAX_SYNC_POLLS) →
  ∃ w' t, (fun fuel => supervisor_poll debug current fuel w) ⇓ (Ok NotReady, w', t) ∧
    all_handled us ss w (Ok NotReady) w'.
Proof.
  intros Hd Hrun Hdb. set (n := (length us + length ss)%nat).
  assert (gives (supervisor_poll debug current (n + 3)) w (all_handled us ss w)) as Hg.
  { apply (supervisor_gives n); [lia | lia | done..]. }
  destruct (gives_returns (fun fuel => supervisor_poll debug current fuel) _ _ _ supervisor_poll_mono Hg)
    as (r & w' & t & Hr & Ha).
  pose proof Ha as (? & ? & -> & _). by exists w', t.
Qed.

(** C22: a supervised actor loses no message by dying.  If its handlers do no
    more to their context than stop it, one poll of the supervisor ends, and every
    message that was queued has been handled once, in order (first those of the
    single-threaded channel): the record [rec] of the run is that of those
    messages.  Each restart follows a message that stopped the actor, and if
    [stopping] never answers [Continue] there is one for each of them.  The actor
    is alive at the end, and waits. *)
Theorem supervised_handles_all us ss w :
  on_duty us ss w → running (impl w) →
  (debug = true → Z.of_nat (length us + length ss) < MAX_SYNC_POLLS) →
  ∃ l n w' t,
    (fun fuel => supervisor_poll debug current fuel w) ⇓ (Ok NotReady, w', t) ∧
    rec l n (env w) (env w') ∧ l.*1 = (inl <$> us) ++ (inr <$> ss) ∧
    (n ≤ stops l)%nat ∧ (always_stops → n = stops l) ∧
    on_duty [] [] w' ∧ state (impl w') = ARunning.
Proof.
  intros Hd Hrun Hdb.
  destruct (supervisor_handles us ss w Hd Hrun Hdb) as (w' & t & Hr & l & n & _ & Hl & Hrec & Hle & Heq & Hd' & Hf).
  exists l, n, w', t. split_and!; try done. unfold state. by rewrite Hf.
Qed.
End runs.

(** ** The actor of [tests/test_supervisor.rs]

    It counts its starts, its restarts and its messages in counters it shares
    with the test, and stops its context in every message. *)

Record Counters : Type := mkCounters {
  starts : nat; restarts : nat; messages : nat;
  seen : list ((Envelope () nat + Envelope () nat) * bool)
}.
Abbreviation DWorld := (@World () Counters () () nat nat nat Queue).

Definition counting (f : Counters → Counters) : Prog DWorld nat () :=
  modify (fun w => mkWorld (impl w) (f (env w))).
Definition handle_die (e : Envelope () nat + Envelope () nat) : Prog DWorld nat () :=
  _ ← counting (fun v => mkCounters (starts v) (restarts v) (S (messages v)) (seen v ++ [(e, true)]));
  on_impl stop.

#[local] Instance dying : ActorCode (A := ()) (V := Counters) (Fut := ()) (M := ()) (Txs := nat)
    (Txu := nat) (Task := nat) (Q := Queue) := {|
  started := counting (fun v => mkCounters (S (starts v)) (restarts v) (messages v) (seen v));
  stopping := mret Stop;
  stopped := mret ();
  restarting := counting (fun v => mkCounters (starts v) (S (restarts v)) (messages v) (seen v));
  handle_unsync e := handle_die (inl e);
  handle_sync e := handle_die (inr e);
  fut_poll f := mret (f, Ok NotReady)
|}.

Lemma set_act_same {B F N S1 S2 T : Type} {Qu : Type → Type} `{!MpscQueue Qu}
    (c : @ContextImpl B F N S1 S2 T Qu) : set_act (act c) c = c.
Proof. by destruct c. Qed.
Lemma act_stop {B F N S1 S2 T : Type} {Qu : Type → Type} `{!MpscQueue Qu}
    (c : @ContextImpl B F N S1 S2 T Qu) : act (stop c) = act c.
Proof. unfold stop. by destruct (flags_contains _ _). Qed.

(** The log and the counter of restarts tell what was handled. *)
Definition logged (l : list ((Envelope () nat + Envelope () nat) * bool)) (n : nat) (v v' : Counters) : Prop :=
  seen v' = seen v ++ l ∧ restarts v' = (restarts v + n)%nat.

Lemma dying_supervisable : Supervisable logged.
Proof.
  split; [intros v; split; [by rewrite app_nil_r | lia] | |..].
  { intros l1 n1 l2 n2 v1 v2 v3 [H1 H2] [H3 H4]. split; [by rewrite H3, H1, app_assoc | lia]. }
  all: intros; (eexists _, _, _; split; [reflexivity |]);
    try (exists true); unfold only_stops, records, logged; simpl;
    rewrite ?act_stop, ?set_act_same, ?app_nil_r; split_and!; try done; try lia;
    rewrite <- act_stop; by rewrite set_act_same.
Qed.

(** [test_supervisor_restart]: the actor is started and sent two messages. *)
Definition die : Envelope () nat := pack () None.
Definition send_die : Prog DWorld nat () :=
  via_mailbox (on_unsync (_ ← UnsyncChannel.do_send (); mret ())).
Definition two_deaths : Exec (() * DWorld * list nat) :=
  '(_, w, _) ← @supervisor_start () Counters () () nat nat nat Queue ()
                 get_unsync_address (mret ()) (mkCounters 0 0 0 []);
  (_ ← send_die; send_die) w.
Definition condemned : DWorld :=
  match two_deaths with Return (_, w, _) => w | _ => mkWorld (new None) (mkCounters 0 0 0 []) end.

Definition test_supervisor_restart : Exec (Poll () () * nat * nat * nat) :=
  '(r, w, _) ← supervisor_poll false 9%nat 9 condemned;
  Return (r, starts (env w), restarts (env w), messages (env w)).
Example test_supervisor_restart_passes :
  test_supervisor_restart = Return (Ok NotReady, 3, 2, 2)%nat.
Proof. vm_compute. reflexivity. Qed.

Lemma condemned_on_duty : on_duty [die; die] [] condemned.
Proof. split; [by eexists | done | done | by split | vm_compute; reflexivity]. Qed.

Lemma dying_always_stops : always_stops.
Proof. intros w r w' t Hr. simpl in Hr. by injection Hr as <- _ _. Qed.

Lemma supervised_handles_all_witness :
  ∃ l w' t, (fun fuel => supervisor_poll false 9%nat fuel condemned) ⇓ (Ok NotReady, w', t) ∧
    seen (env w') = l ∧ l.*1 = [inl die; inl die] ∧ restarts (env w') = stops l ∧ on_duty [] [] w'.
Proof.
  destruct (supervised_handles_all logged dying_supervisable false 9%nat
              [die; die] [] condemned condemned_on_duty)
    as (l & n & w' & t & Hr & [Hh Hn] & Hl & _ & Heq & Hd & _).
  - exists (Z.lor RUNNING MODIFIED). split; [vm_compute; reflexivity | right; right; by left].
  - discriminate.
  - exists l, w', t. split; [exact Hr |]. split; [exact Hh |]. split; [exact Hl |].
    split; [| exact Hd]. rewrite Hn, (Heq dying_always_stops). reflexivity.
Defined.

(** ** An actor that stops itself in [started] *)

#[local] Instance hasty : ActorCode (A := ()) (V := ()) (Fut := ()) (M := ()) (Txs := nat)
    (Txu := nat) (Task := nat) (Q := Queue) := {|
  started := on_impl stop;
  stopping := mret Stop;
  stopped := mret ();
  restarting := mret ();
  handle_unsync _ := mret ();
  handle_sync _ := mret ();
  fut_poll f := mret (f, Ok NotReady)
|}.
Abbreviation HWorld := (@World () () () () nat nat nat Queue).

(** Its context with the given flags and one address. *)
Definition hasty_world (fl : Z) : HWorld :=
  match @supervisor_start () () () () nat nat nat Queue () get_unsync_address (mret ()) () with
  | Return (_, w, _) => mkWorld (set_flags fl (impl w)) ()
  | _ => mkWorld (new None) ()
  end.

Lemma hasty_turn fuel fl :
  fl = RUNNING ∨ fl = Z.lor RUNNING MODIFIED →
  supervisor_poll false 9%nat (S (S fuel)) (hasty_world fl) =
  supervisor_poll false 9%nat (S fuel) (hasty_world RUNNING).
Proof.
  intros Hfl. cbn [supervisor_poll].
  rewrite (prog_bind_quiet (poll _ _ _) _ _ (Ok (Ready ())) (hasty_world STOPPED))
    by by destruct Hfl as [-> | ->].
  rewrite (prog_bind_quiet restart _ _ true (hasty_world RUNNING)) by reflexivity.
  reflexivity.
Qed.

(** one poll of the supervisor of an actor that stops itself in
    [started] never ends: the actor is restarted, and started again, for ever. *)
Theorem supervisor_spins fuel :
  supervisor_poll false 9%nat fuel (hasty_world (Z.lor RUNNING MODIFIED)) = OutOfFuel.
Proof.
  assert (∀ fl, fl = RUNNING ∨ fl = Z.lor RUNNING MODIFIED →
    supervisor_poll false 9%nat fuel (hasty_world fl) = OutOfFuel) as H; [| apply H; by right].
  induction fuel as [|[|fuel] IH]; intros fl Hfl; [done | by destruct Hfl as [-> | ->] |].
  rewrite hasty_turn by done. apply IH. by left.
Qed.
