(* ===== verification/Oneshot.v ===== *)
(** * Oneshot channels and conditions: [Condition] of [src/utils.rs]

    The oneshot channels of the futures crate are an interface with laws.
    [Condition::set] sends its value to everybody who called [wait]. *)

From S2P Require Import Prelude.

(** [o] names both halves of a channel: while it is [pending] nobody has sent and
    the receiver is there. *)
Class Oneshots (Os Res V Task : Type) : Type := {
  os_canceled : Os → V → bool;
  os_send : Os → Res → V → V * list Task;
  os_poll : Os → Prog V Task (Poll Res ());
  pending : Os → V → Prop;
  answered : Os → Res → V → Prop;
  pending_canceled o v : pending o v → os_canceled o v = false;
  send_answered o r v : pending o v → answered o r (os_send o r v).1;
  send_pending o o' r v : o ≠ o' → pending o' v → pending o' (os_send o r v).1;
  send_keeps o o' r r' v : o ≠ o' → answered o' r' v → answered o' r' (os_send o r v).1;
  poll_answered o r v : answered o r v →
    ∃ v' n, os_poll o v = Return (Ok (Ready r), v', n) ∧
            ∀ o' r', o ≠ o' → answered o' r' v → answered o' r' v'
}.

(** The oneshot channels as a map of the values sent. *)
#[export] Program Instance map_oneshots : Oneshots nat Z (gmap nat Z) nat := {|
  os_canceled _ _ := false;
  os_send o r v := (<[o := r]> v, []);
  os_poll o v := match v !! o with
                 | Some r => Return (Ok (Ready r), delete o v, [])
                 | None => Return (Ok NotReady, v, [])
                 end;
  pending o v := v !! o = None;
  answered o r v := v !! o = Some r
|}.
Next Obligation. done. Qed.
Next Obligation. intros o r v _. apply lookup_insert_eq. Qed.
Next Obligation. intros o o' r v Ho Hp. simpl. by rewrite lookup_insert_ne. Qed.
Next Obligation. intros o o' r r' v Ho Ha. simpl. by rewrite lookup_insert_ne. Qed.
Next Obligation.
  intros o r v Hv. exists (delete o v), []. rewrite Hv. split; [done |].
  intros o' r' Ho Ha. by rewrite lookup_delete_ne.
Qed.

(** ** [Condition] *)

Section condition.
Context {Os Res V Task : Type} `{!Oneshots Os Res V Task}.
Abbreviation P := (Prog V Task).
(** [oneshot::channel]. *)
Context (os_new : P Os).

Record Condition : Type := mkCondition { waiters : list Os }.
Definition condition_default : Condition := mkCondition [].

Definition condition_wait (c : Condition) : P (Condition * Os) :=
  o ← os_new; mret (mkCondition (waiters c ++ [o]), o).

(** [set]; sending to a receiver that is gone does nothing. *)
Fixpoint send_result (l : list Os) (result : Res) : P () :=
  match l with
  | [] => mret ()
  | o :: l => _ ← (fun v => let '(v, n) := os_send o result v in Return ((), v, n)); send_result l result
  end.
Definition condition_set (result : Res) (c : Condition) : P () := send_result (waiters c) result.

(** [os_new] makes a channel that was not there, and leaves the others alone. *)
Context (os_fresh : ∀ v, ∃ o v' n, os_new v = Return (o, v', n) ∧ pending o v' ∧
  ∀ o', pending o' v → o ≠ o' ∧ pending o' v').

(** The waiters are different channels on which nothing was sent. *)
Definition waiting_for (c : Condition) (v : V) : Prop :=
  NoDup (waiters c) ∧ Forall (fun o => pending o v) (waiters c).

Lemma condition_wait_spec c v :
  waiting_for c v →
  ∃ c' o v' n, condition_wait c v = Return ((c', o), v', n) ∧ waiters c' = waiters c ++ [o] ∧
    waiting_for c' v'.
Proof.
  intros [Hnd Hp]. destruct (os_fresh v) as (o & v' & n & Ho & Hpo & Hk).
  eexists _, o, v', _. split; [unfold condition_wait; by rewrite (prog_bind_Return _ _ _ _ _ _ Ho) |].
  split; [done |]. rewrite Forall_forall in Hp. split; simpl.
  - apply NoDup_app. split_and!; [done | | apply NoDup_singleton].
    intros x Hx ->%list_elem_of_singleton. by destruct (Hk o (Hp _ Hx)).
  - apply Forall_app. split; [| by apply Forall_singleton].
    apply Forall_forall. intros x Hx. by apply Hk, Hp.
Qed.

(** Everybody who waits gets the value, and nobody else gets anything. *)
Theorem condition_answers_all result c v :
  waiting_for c v →
  ∃ v' n, condition_set result c v = Return ((), v', n) ∧
    Forall (fun o => answered o result v') (waiters c) ∧
    ∀ o, o ∉ waiters c → (pending o v → pending o v') ∧ ∀ r, answered o r v → answered o r v'.
Proof.
  unfold condition_set, waiting_for. generalize (waiters c) as l. intros l [Hnd Hp].
  revert v Hp. induction Hnd as [|o l Ho Hnd IH]; intros v Hp; [by exists v, [] |].
  apply Forall_cons in Hp as [Hpo Hp]. cbn [send_result].
  destruct (os_send o result v) as [v1 n1] eqn:Hs.
  assert (v1 = (os_send o result v).1) as Hv1 by by rewrite Hs.
  destruct (IH v1) as (v2 & n2 & H2 & Ha & Hk).
  { rewrite Forall_forall in Hp. apply Forall_forall. intros x Hx. rewrite Hv1.
    apply send_pending; [by intros -> | by apply Hp]. }
  exists v2, (n1 ++ n2). split; [| split].
  - unfold mbind, prog_bind. rewrite Hs. simpl. by rewrite H2.
  - apply Forall_cons. split; [| done]. apply Hk; [done |]. rewrite Hv1. by apply send_answered.
  - intros x [Hx Hx']%not_elem_of_cons. destruct (Hk x Hx') as [Hk1 Hk2]. split.
    + intros Hpx. apply Hk1. rewrite Hv1. by apply send_pending.
    + intros r Hr. apply Hk2. rewrite Hv1. by apply send_keeps.
Qed.
End condition.
