(* ===== verification/Request.v ===== *)
(** * Sending a message and waiting for its result: [src/address/message.rs]

    A [Request] is the future that [Addr::send] returns.  It is polled over the
    state [C] of the channel to the actor and the state [V] of everything else:
    the oneshot channels of the results and the clock.

    The class [Transport] is what a request needs of the sending half of a
    channel ([MessageDestinationTransport] and the drop and clone of the
    handle); [Address] gives its two instances.  Oneshot receivers and timeouts
    are types of other crates: [rx_poll] and [timeout_poll] are their [poll]. *)

From S2P Require Import Prelude.
From S2P Require Import Envelope.

(** ** The interface of a sending half *)

(** [tr_holds c es]: the envelopes [es] are queued in the channel [c].  The
    handle [tr] is returned by every method that changes it (it has a [Cell]). *)
Class Transport (Tr C M Tx Rx Task : Type) : Type := {
  tr_connected : Tr → Prog C Task bool;
  tr_send : Task → Tx * Rx → M → Tr → Prog C Task (Result Rx (SendError M) * Tr);
  tr_try_send : Task → M → bool → Tr → Prog C Task (Result () (SendError M) * Tr);
  tr_do_send : M → Tr → Prog C Task (Result () (SendError M));
  tr_clone : Tr → Prog C Task Tr;
  tr_drop : Tr → Prog C Task ();
  tr_holds : C → list (Envelope M Tx) → Prop;
  tr_valid : Tr → C → Prop;
  tr_max : Z;

  tr_holds_unique c es es' : tr_holds c es → tr_holds c es' → es = es';
  (** [send] puts the message in with the sender of the oneshot channel whose
      receiver it returns, or gives the message back. *)
  tr_send_holds t os m tr c es :
    tr_valid tr c → tr_holds c es → Z.of_nat (length es) < tr_max →
    ∃ r tr' c' w, tr_send t os m tr c = Return ((r, tr'), c', w) ∧
      match r with
      | Ok rx => rx = os.2 ∧ tr_holds c' (es ++ [pack m (Some os.1)])
      | Err (Full m') | Err (Closed m') => m' = m ∧ tr_holds c' es
      end;
  tr_clone_holds tr c es tr' c' w es' :
    tr_clone tr c = Return (tr', c', w) → tr_holds c es → tr_holds c' es' → es' = es;
  tr_drop_holds tr c es c' w es' :
    tr_drop tr c = Return ((), c', w) → tr_holds c es → tr_holds c' es' → es' = es
}.

Section request.
Context {Tr C V M Tx Rx Res Timeout Task : Type} `{!Transport Tr C M Tx Rx Task}.
Context (rx_poll : Rx → Prog V Task (Poll Res ())) (timeout_poll : Timeout → Prog V Task (Poll () ())).
Abbreviation P := (Prog (C * V) Task).
Abbreviation Outcome := (Poll Res MailboxError).

Record Request : Type := mkRequest {
  rx : option Rx;
  info : option (Tr * M);
  timeout : option Timeout
}.

(** Running code that only touches the channel, or only the rest. *)
Definition on_chan {X} (m : Prog C Task X) : P X := fun '(c, v) =>
  '(x, c, w) ← m c; Return (x, (c, v), w).
Definition on_rest {X} (m : Prog V Task X) : P X := fun '(c, v) =>
  '(x, v, w) ← m v; Return (x, (c, v), w).

(** [Request::new] and [Request::timeout]. *)
Definition request_new (r : option Rx) (i : option (Tr * M)) : Request := mkRequest r i None.
Definition set_timeout (t : Timeout) (r : Request) : Request := mkRequest (rx r) (info r) (Some t).

Definition poll_timeout (r : Request) : P Outcome :=
  match timeout r with
  | Some t =>
      p ← on_rest (timeout_poll t);
      match p with
      | Ok (Ready _) => mret (Err MailboxTimeout)
      | Ok NotReady => mret (Ok NotReady)
      | Err _ => lift (Panic "internal error: entered unreachable code")
      end
  | None => mret (Ok NotReady)
  end.

(** The first half of [poll]: send the message if it was not sent yet.  The
    handle taken out of [info] is dropped unless it is put back.  [Some r]:
    [poll] returns [r]. *)
Definition poll_send (current : Task) (oneshot : Tx * Rx) (r : Request)
  : P (option Outcome * Request) :=
  match info r with
  | Some (sender, m) =>
      '(res, sender) ← on_chan (tr_send current oneshot m sender);
      match res with
      | Ok c =>
          _ ← on_chan (tr_drop sender);
          mret (None, mkRequest (Some c) None (timeout r))
      | Err (Full m) => mret (Some (Ok NotReady), mkRequest (rx r) (Some (sender, m)) (timeout r))
      | Err (Closed _) =>
          _ ← on_chan (tr_drop sender);
          mret (Some (Err MailboxClosed), mkRequest (rx r) None (timeout r))
      end
  | None => mret (None, r)
  end.

(** The second half: wait for the result. *)
Definition poll_result (r : Request) : P (Outcome * Request) :=
  match rx r with
  | Some c =>
      p ← on_rest (rx_poll c);
      match p with
      | Ok (Ready item) => mret (Ok (Ready item), mkRequest None (info r) (timeout r))
      | Ok NotReady => res ← poll_timeout r; mret (res, r)
      | Err _ => mret (Err MailboxClosed, mkRequest None (info r) (timeout r))
      end
  | None => mret (Err MailboxClosed, r)
  end.

(** [Request::poll]. *)
Definition request_poll (current : Task) (oneshot : Tx * Rx) (r : Request)
  : P (Outcome * Request) :=
  '(o, r) ← poll_send current oneshot r;
  match o with
  | Some res => mret (res, r)
  | None => poll_result r
  end.

(** [MessageDestination::send] and [MessageRecipient::send]: the handle stays
    with the caller, a request that could not send gets a clone of it. *)
Definition dest_send (current : Task) (oneshot : Tx * Rx) (tx : Tr) (m : M)
  : P (Request * Tr) :=
  '(res, tx) ← on_chan (tr_send current oneshot m tx);
  match res with
  | Ok c => mret (request_new (Some c) None, tx)
  | Err (Full m) => tx' ← on_chan (tr_clone tx); mret (request_new None (Some (tx', m)), tx)
  | Err (Closed _) => mret (request_new None None, tx)
  end.

(** ** The life of a request *)

(** What a request did: the envelopes it put into the channel, the answers of
    its polls, and the oneshot channels that were made for it. *)
Record Trace : Type := mkTrace {
  sent : list (Envelope M Tx);
  answers : list Outcome;
  oneshots : list (Tx * Rx)
}.

(** A request between its polls; the world may change arbitrarily in between. *)
Inductive life (m : M) : Request → Trace → Prop :=
| life_send t os tx w w' r tx' ts es new :
    tr_valid tx w.1 → tr_holds w.1 es → Z.of_nat (length es) < tr_max →
    dest_send t os tx m w = Return ((r, tx'), w', ts) →
    tr_holds w'.1 (es ++ new) →
    life m r (mkTrace new [] [os])
| life_timeout r T tm :
    life m r T → life m (set_timeout tm r) T
| life_poll r T t os w w' a r' ts es new :
    life m r T →
    (∀ tr m', info r = Some (tr, m') → tr_valid tr w.1) →
    tr_holds w.1 es → Z.of_nat (length es) < tr_max →
    request_poll t os r w = Return ((a, r'), w', ts) →
    tr_holds w'.1 (es ++ new) →
    life m r' (mkTrace (sent T ++ new) (answers T ++ [a]) (oneshots T ++ [os])).

Definition pending (a : Outcome) : Prop := a = Ok NotReady ∨ a = Err MailboxTimeout.
Definition closed (a : Outcome) : Prop := a = Err MailboxClosed.

(** [c] yielded [v]. *)
Definition yielded (c : Rx) (v : Res) : Prop :=
  ∃ s s' ts, rx_poll c s = Return (Ok (Ready v), s', ts).

(** Where a request can be in its life. *)
Inductive phase (m : M) (r : Request) (T : Trace) : Prop :=
| Unsent tr :
    info r = Some (tr, m) → rx r = None → sent T = [] →
    Forall (eq (Ok NotReady)) (answers T) → phase m r T
| Sent os :
    info r = None → rx r = Some os.2 → os ∈ oneshots T → sent T = [pack m (Some os.1)] →
    Forall pending (answers T) → phase m r T
| Answered os v pre post :
    info r = None → rx r = None → os ∈ oneshots T → sent T = [pack m (Some os.1)] →
    yielded os.2 v → answers T = pre ++ Ok (Ready v) :: post →
    Forall pending pre → Forall closed post → phase m r T
| Cancelled os pre post :
    info r = None → rx r = None → os ∈ oneshots T → sent T = [pack m (Some os.1)] →
    answers T = pre ++ post → Forall pending pre → Forall closed post → phase m r T
| Refused pre post :
    info r = None → rx r = None → sent T = [] →
    answers T = pre ++ post → Forall (eq (Ok NotReady)) pre → Forall closed post → phase m r T.

Lemma on_chan_Return {X} (m : Prog C Task X) w x w' ts :
  on_chan m w = Return (x, w', ts) ↔ m w.1 = Return (x, w'.1, ts) ∧ w'.2 = w.2.
Proof.
  destruct w as [c v], w' as [c' v']. unfold on_chan; simpl.
  rewrite exec_bind_Return_inv. split.
  - by intros ([[??]?] & -> & [= -> -> <- ->]).
  - intros [Hm ->]. by exists (x, c', ts).
Qed.

Lemma on_rest_Return {X} (m : Prog V Task X) w x w' ts :
  on_rest m w = Return (x, w', ts) → w'.1 = w.1 ∧ m w.2 = Return (x, w'.2, ts).
Proof.
  destruct w as [c v], w' as [c' v']. unfold on_rest; simpl.
  by intros ([[??]?] & -> & [= -> -> <- ->])%exec_bind_Return_inv.
Qed.

Lemma poll_timeout_frame r w a w' ts :
  poll_timeout r w = Return (a, w', ts) →
  w'.1 = w.1 ∧ (a = Ok NotReady ∨ a = Err MailboxTimeout).
Proof.
  unfold poll_timeout. destruct (timeout r); [| intros [= <- <- _]; by split; [| left]].
  intros (p & w1 & t1 & t2 & Hp & Ha & _)%prog_bind_Return_inv.
  apply on_rest_Return in Hp as [Hw _].
  destruct p as [[|]|]; [| | done]; injection Ha as <- <- _; rewrite Hw; auto.
Qed.

(** *** The two halves of a poll *)

Lemma poll_result_cases r w a r' w' ts :
  poll_result r w = Return ((a, r'), w', ts) →
  w'.1 = w.1 ∧ info r' = info r ∧
  match rx r with
  | None => a = Err MailboxClosed ∧ rx r' = None
  | Some c => rx r' = Some c ∧ pending a ∨
              rx r' = None ∧ (closed a ∨ ∃ v, a = Ok (Ready v) ∧ yielded c v)
  end.
Proof.
  unfold poll_result. destruct (rx r) as [c|] eqn:Hrx; [| by intros [= <- <- <- _]].
  intros (p & w1 & t1 & t2 & Hp & Ha & _)%prog_bind_Return_inv.
  apply on_rest_Return in Hp as [Hw Hp].
  destruct p as [[item|]|e].
  - injection Ha as <- <- <- _. split_and!; [done | done |]. right. split; [done |]. right.
    exists item. split; [done |]. by eexists _, _, _.
  - apply prog_bind_Return_inv in Ha as (res & w2 & t3 & t4 & Hto & [= <- <- <- _] & _).
    apply poll_timeout_frame in Hto as [Hw2 Hres]. rewrite Hw2. by split_and!; [| | left].
  - injection Ha as <- <- <- _. split_and!; [done | done |]. right. split; [done |]. by left.
Qed.

Lemma send_then_drop t os m tr w c1 w1 c2 w2 r tr' es es2 :
  tr_valid tr w → tr_holds w es → Z.of_nat (length es) < tr_max →
  tr_send t os m tr w = Return ((r, tr'), c1, w1) →
  tr_drop tr' c1 = Return ((), c2, w2) →
  tr_holds c2 (es ++ es2) →
  match r with
  | Ok c => c = os.2 ∧ es2 = [pack m (Some os.1)]
  | Err _ => es2 = []
  end.
Proof.
  intros Hv Hh Hl Hs Hd H2.
  destruct (tr_send_holds t os m tr w es Hv Hh Hl) as (r0 & tr0 & c0 & w0 & Hs0 & Hr).
  rewrite Hs in Hs0. injection Hs0 as <- <- <- <-.
  destruct r as [c|[m'|m']]; destruct Hr as [? H1];
    pose proof (tr_drop_holds _ _ _ _ _ _ Hd H1 H2) as He.
  - split; [done |]. by eapply app_inv_head.
  - rewrite <- (app_nil_r es) in He at 2. by eapply app_inv_head.
  - rewrite <- (app_nil_r es) in He at 2. by eapply app_inv_head.
Qed.

Lemma holds_nil c es new : tr_holds c es → tr_holds c (es ++ new) → new = [].
Proof.
  intros H1 H2. pose proof (tr_holds_unique _ _ _ H1 H2) as He.
  rewrite <- (app_nil_r es) in He at 1. symmetry. by eapply app_inv_head.
Qed.

Lemma poll_send_cases t os r tr m w o r' w' ts es new :
  info r = Some (tr, m) →
  tr_valid tr w.1 → tr_holds w.1 es → Z.of_nat (length es) < tr_max →
  poll_send t os r w = Return ((o, r'), w', ts) → tr_holds w'.1 (es ++ new) →
  match o with
  | None => r' = mkRequest (Some os.2) None (timeout r) ∧ new = [pack m (Some os.1)]
  | Some (Ok NotReady) =>
      (∃ tr', r' = mkRequest (rx r) (Some (tr', m)) (timeout r)) ∧ w'.2 = w.2 ∧ new = []
  | Some a => a = Err MailboxClosed ∧ r' = mkRequest (rx r) None (timeout r) ∧ new = []
  end.
Proof.
  intros Hi Hv Hh Hl Hp Hn. unfold poll_send in Hp. rewrite Hi in Hp.
  apply prog_bind_Return_inv in Hp as ([res s] & w1 & t1 & t2 & Hs & Hp & _).
  apply on_chan_Return in Hs as [Hs Hw1].
  pose proof (tr_send_holds t os m tr w.1 es Hv Hh Hl) as (r0 & tr0 & c0 & w0 & Hs0 & Hr).
  rewrite Hs in Hs0. injection Hs0 as <- <- <- <-.
  destruct res as [c|[m'|m']]; destruct Hr as [-> Hr].
  - apply prog_bind_Return_inv in Hp as ([] & w2 & t3 & t4 & Hd & [= <- <- <- _] & _).
    apply on_chan_Return in Hd as [Hd _].
    destruct (send_then_drop _ _ _ _ _ _ _ _ _ _ _ _ _ Hv Hh Hl Hs Hd Hn) as [_ ->]. done.
  - injection Hp as <- <- <- _. split_and!; [by eexists | done |]. by eapply holds_nil.
  - apply prog_bind_Return_inv in Hp as ([] & w2 & t3 & t4 & Hd & [= <- <- <- _] & _).
    apply on_chan_Return in Hd as [Hd _]. split_and!; [done | done |].
    exact (send_then_drop _ _ _ _ _ _ _ _ _ _ _ _ _ Hv Hh Hl Hs Hd Hn).
Qed.

Lemma phase_send t os tx m w r tx' w' ts es new :
  tr_valid tx w.1 → tr_holds w.1 es → Z.of_nat (length es) < tr_max →
  dest_send t os tx m w = Return ((r, tx'), w', ts) → tr_holds w'.1 (es ++ new) →
  phase m r (mkTrace new [] [os]).
Proof.
  intros Hv Hh Hl Hp Hn. unfold dest_send in Hp.
  apply prog_bind_Return_inv in Hp as ([res s] & w1 & t1 & t2 & Hs & Hp & _).
  apply on_chan_Return in Hs as [Hs Hw1].
  pose proof (tr_send_holds t os m tx w.1 es Hv Hh Hl) as (r0 & tr0 & c0 & w0 & Hs0 & Hr).
  rewrite Hs in Hs0. injection Hs0 as <- <- <- <-.
  destruct res as [c|[m'|m']]; destruct Hr as [-> Hr].
  - injection Hp as <- <- <- _.
    pose proof (app_inv_head _ _ _ (tr_holds_unique _ _ _ Hr Hn)) as <-.
    apply (Sent _ _ _ os); simpl; try done; by left.
  - apply prog_bind_Return_inv in Hp as (tx0 & w2 & t3 & t4 & Hc & [= <- <- <- _] & _).
    apply on_chan_Return in Hc as [Hc _].
    pose proof (tr_clone_holds _ _ _ _ _ _ _ Hc Hr Hn) as He.
    rewrite <- (app_nil_r es) in He at 2. apply app_inv_head in He as ->.
    by apply (Unsent _ _ _ tx0).
  - injection Hp as <- <- <- _. rewrite (holds_nil _ _ _ Hr Hn).
    by apply (Refused _ _ _ [] []).
Qed.

Lemma closed_snoc post a : Forall closed post → closed a → Forall closed (post ++ [a]).
Proof. intros. by apply Forall_app; split; [| apply Forall_singleton]. Qed.

Lemma pending_snoc pre a : Forall pending pre → pending a → Forall pending (pre ++ [a]).
Proof. intros. by apply Forall_app; split; [| apply Forall_singleton]. Qed.

(** The second half of a poll of a request whose message is in the channel. *)
Lemma phase_result m os r w a r' w' ts tr an oss :
  info r = None → rx r = Some os.2 → os ∈ oss → tr = [pack m (Some os.1)] → Forall pending an →
  poll_result r w = Return ((a, r'), w', ts) →
  phase m r' (mkTrace tr (an ++ [a]) oss).
Proof.
  intros Hi Hx Hos -> Han Hp. apply poll_result_cases in Hp as (_ & Hi' & Hc).
  rewrite Hx in Hc. rewrite Hi in Hi'.
  destruct Hc as [[Hx' Ha]|[Hx' [Ha|(v & -> & Hy)]]].
  - apply (Sent _ _ _ os); simpl; try done. by apply pending_snoc.
  - apply (Cancelled _ _ _ os an [a]); simpl; try done. by apply Forall_singleton.
  - by apply (Answered _ _ _ os v an []).
Qed.

Lemma phase_weaken m r tr an oss os : phase m r (mkTrace tr an oss) → phase m r (mkTrace tr an (oss ++ [os])).
Proof.
  assert (∀ x, x ∈ oss → x ∈ oss ++ [os]) as Hin by (intros; apply elem_of_app; by left).
  intros [tr0|os0|os0 v pre post|os0 pre post|pre post]; simpl in *.
  - by apply (Unsent _ _ _ tr0).
  - apply (Sent _ _ _ os0); auto.
  - apply (Answered _ _ _ os0 v pre post); auto.
  - apply (Cancelled _ _ _ os0 pre post); auto.
  - by apply (Refused _ _ _ pre post).
Qed.

(** A request that holds neither a message nor a receiver is over. *)
Lemma phase_over m r T a r' w w' ts os t :
  phase m r T → info r = None → rx r = None →
  request_poll t os r w = Return ((a, r'), w', ts) →
  phase m r' (mkTrace (sent T) (answers T ++ [a]) (oneshots T)).
Proof.
  intros Hph Hi Hx Hp. unfold request_poll, poll_send, poll_result in Hp.
  rewrite Hi in Hp. apply prog_bind_Return_inv in Hp as ([o r0] & w1 & t1 & t2 & [= <- <- <- _] & Hp & _).
  rewrite Hx in Hp. injection Hp as <- <- _ _.
  destruct T as [tr an oss].
  destruct Hph as [tr0 Hi0|os0 _ Hx0|os0 v pre post|os0 pre post|pre post]; simpl in *; try congruence.
  - subst an. rewrite <- app_assoc. apply (Answered _ _ _ os0 v pre (post ++ [Err MailboxClosed])); try done.
    by apply closed_snoc.
  - subst an. rewrite <- app_assoc. apply (Cancelled _ _ _ os0 pre (post ++ [Err MailboxClosed])); try done.
    by apply closed_snoc.
  - subst an. rewrite <- app_assoc. apply (Refused _ _ _ pre (post ++ [Err MailboxClosed])); try done.
    by apply closed_snoc.
Qed.

Lemma eq_pending an : Forall (eq (Ok NotReady)) an → Forall pending an.
Proof. intros H. eapply Forall_impl; [exact H |]. intros a <-. by left. Qed.

Lemma phase_poll m r T t os w w' a r' ts es new :
  phase m r T →
  (∀ tr m', info r = Some (tr, m') → tr_valid tr w.1) →
  tr_holds w.1 es → Z.of_nat (length es) < tr_max →
  request_poll t os r w = Return ((a, r'), w', ts) → tr_holds w'.1 (es ++ new) →
  phase m r' (mkTrace (sent T ++ new) (answers T ++ [a]) (oneshots T ++ [os])).
Proof.
  intros Hph Hv Hh Hl Hp Hn. pose proof Hp as Hp'.
  unfold request_poll in Hp.
  apply prog_bind_Return_inv in Hp as ([o r1] & w1 & t1 & t2 & Hs & Hp & _).
  assert (info r = None → r1 = r ∧ w1 = w ∧ o = None) as Hnone.
  { unfold poll_send in Hs. intros Hi. rewrite Hi in Hs. by injection Hs as <- <- <- _. }
  assert (info r = None → new = []) as Hnew.
  { intros Hi. destruct (Hnone Hi) as (-> & -> & ->). simpl in Hp.
    apply poll_result_cases in Hp as [Hw _]. rewrite Hw in Hn. exact (holds_nil _ _ _ Hh Hn). }
  destruct (info r) as [[tr m']|] eqn:Hi.
  - destruct Hph as [tr0 Hi0 Hx Hse Han|? Hi0|? ? ? ? Hi0|? ? ? Hi0|? ? Hi0];
      rewrite Hi in Hi0; [injection Hi0 as <- -> | done..].
    assert (tr_holds w1.1 (es ++ new)) as Hn1.
    { destruct o; [by injection Hp as _ _ <- _ |].
      apply poll_result_cases in Hp as [Hw _]. by rewrite Hw in Hn. }
    pose proof (poll_send_cases _ _ _ _ _ _ _ _ _ _ _ _ Hi (Hv _ _ eq_refl) Hh Hl Hs Hn1) as Hc.
    rewrite Hse. destruct o as [[[?|]|?]|].
    + by destruct Hc.
    + destruct Hc as ((tr' & ->) & _ & ->). injection Hp as <- <- _ _.
      apply (Unsent _ _ _ tr'); simpl; try done. apply Forall_app; split; [done |].
      by apply Forall_singleton.
    + destruct Hc as (He & -> & ->). rewrite He in Hp. injection Hp as <- <- _ _.
      apply (Refused _ _ _ (answers T) [Err MailboxClosed]); simpl; try done.
      by apply Forall_singleton.
    + destruct Hc as [-> ->].
      eapply phase_result in Hp; [exact Hp | done | done | | done | by apply eq_pending].
      apply elem_of_app. right. by left.
  - rewrite (Hnew eq_refl), app_nil_r. destruct (Hnone eq_refl) as (-> & -> & ->).
    apply phase_weaken. destruct (rx r) as [c|] eqn:Hx.
    + destruct Hph as [? Hi0|os0 _ Hx0 Hos Hse Han|? ? ? ? _ Hx0|? ? ? _ Hx0|? ? _ Hx0]; try congruence.
      eapply (phase_result m os0) in Hp; [exact Hp | done | congruence | done | done | done].
    + by eapply phase_over.
Qed.

Lemma life_phase m r T : life m r T → phase m r T.
Proof.
  induction 1 as [| r T tm _ IH | ].
  - by eapply phase_send.
  - destruct IH as [tr0|os0|os0 v pre post|os0 pre post|pre post].
    + by apply (Unsent _ _ _ tr0).
    + by apply (Sent _ _ _ os0).
    + by apply (Answered _ _ _ os0 v pre post).
    + by apply (Cancelled _ _ _ os0 pre post).
    + by apply (Refused _ _ _ pre post).
  - by eapply phase_poll.
Qed.

Lemma not_ready_in (l : list Outcome) v :
  Forall pending l → Ok (Ready v) ∉ l.
Proof. rewrite Forall_forall. intros H Hin. by destruct (H _ Hin). Qed.
Lemma not_ready_closed (l : list Outcome) v : Forall closed l → Ok (Ready v) ∉ l.
Proof. rewrite Forall_forall. intros H Hin. by specialize (H _ Hin). Qed.

(** C23: a request sends its message at most once and loses it only when the
    mailbox is closed: either the message is still with the request, or it was
    put into the channel exactly once, with the sender of one of the oneshot
    channels made for the request, and a result the request answers with is what
    the receiver of that channel yielded. *)
Theorem request_delivers_once m r T :
  life m r T →
  (∃ tr, info r = Some (tr, m) ∧ sent T = []) ∨
  info r = None ∧
  ((sent T = [] ∧ rx r = None ∧ ∀ v, Ok (Ready v) ∉ answers T) ∨
   ∃ os, os ∈ oneshots T ∧ sent T = [pack m (Some os.1)] ∧
         ∀ v, Ok (Ready v) ∈ answers T → yielded os.2 v).
Proof.
  intros [tr ? ? ? ?|os ? ? ? ? Hp|os v pre post ? ? ? ? Hy Ha Hpre Hpost
         |os pre post ? ? ? ? Ha Hpre Hpost|pre post ? ? ? Ha Hpre Hpost]%life_phase.
  - left. by exists tr.
  - right. split; [done |]. right. exists os. split_and!; [done | done |].
    intros v Hv. by apply (not_ready_in _ v) in Hp.
  - right. split; [done |]. right. exists os. split_and!; [done | done |].
    intros v' Hv. rewrite Ha in Hv. apply elem_of_app in Hv as [Hv|[[= ->]|Hv]%elem_of_cons].
    + by apply (not_ready_in _ v') in Hpre.
    + done.
    + by apply (not_ready_closed _ v') in Hpost.
  - right. split; [done |]. right. exists os. split_and!; [done | done |].
    intros v' Hv. rewrite Ha in Hv. apply elem_of_app in Hv as [Hv|Hv];
      [by apply (not_ready_in _ v') in Hpre | by apply (not_ready_closed _ v') in Hpost].
  - right. split; [done |]. left. split_and!; [done | done |].
    intros v Hv. rewrite Ha in Hv. apply elem_of_app in Hv as [Hv|Hv];
      [by apply eq_pending, (not_ready_in _ v) in Hpre | by apply (not_ready_closed _ v) in Hpost].
Qed.

(** C24: a request gives at most one result.  However often it is polled, its answers
    are any number of "not ready" and "timeout", which the code does not take for
    an end, then at most one result, then only "closed".  A timeout is reported
    only after the message is in the channel: while the mailbox is full the answer
    is "not ready" and the timer is not polled, so the time a message waits for
    room is not limited. *)
Theorem request_result_once m r T :
  life m r T →
  (∃ pre mid post, answers T = pre ++ mid ++ post ∧ Forall pending pre ∧
     (mid = [] ∨ ∃ v, mid = [Ok (Ready v)]) ∧ Forall closed post) ∧
  (Err MailboxTimeout ∈ answers T → sent T ≠ []) ∧
  ∀ t os w a r' w' ts,
    request_poll t os r w = Return ((a, r'), w', ts) → is_Some (info r') →
    a = Ok NotReady ∧ w'.2 = w.2.
Proof.
  intros Hl. apply life_phase in Hl as Hph. split; [| split].
  - destruct Hph as [tr ? ? ? Hp|os ? ? ? ? Hp|os v pre post ? ? ? ? Hy Ha Hpre Hpost
      |os pre post ? ? ? ? Ha Hpre Hpost|pre post ? ? ? Ha Hpre Hpost].
    + exists (answers T), [], []. rewrite !app_nil_r. split_and!; auto using eq_pending.
    + exists (answers T), [], []. rewrite !app_nil_r. split_and!; auto.
    + exists pre, [Ok (Ready v)], post. split_and!; eauto.
    + exists pre, [], post. split_and!; auto.
    + exists pre, [], post. split_and!; auto using eq_pending.
  - intros Hin. destruct Hph as [tr ? ? ? Hp|os ? ? ? He|os v pre post ? ? ? He
      |os pre post ? ? ? He|pre post ? ? ? Ha Hpre Hpost]; try by rewrite He.
    + rewrite Forall_forall in Hp. by specialize (Hp _ Hin).
    + rewrite Ha in Hin. rewrite Forall_forall in Hpre, Hpost.
      apply elem_of_app in Hin as [Hin|Hin]; [by specialize (Hpre _ Hin) | by specialize (Hpost _ Hin)].
  - intros t os w a r' w' ts Hp [x Hx]. unfold request_poll in Hp.
    apply prog_bind_Return_inv in Hp as ([o r1] & w1 & t1 & t2 & Hs & Hp & _).
    assert (o = None → info r1 = None) as Hr1.
    { intros ->. unfold poll_send in Hs. destruct (info r) as [[tr m']|] eqn:Hi;
        [| by injection Hs as <- <- _].
      apply prog_bind_Return_inv in Hs as ([[c|[]] s] & w2 & t3 & t4 & _ & Hs & _);
        try (by apply prog_bind_Return_inv in Hs as (? & ? & ? & ? & _ & [= <-] & _)); done. }
    destruct o as [a0|].
    + injection Hp as <- <- <- _. unfold poll_send in Hs.
      destruct (info r) as [[tr m']|] eqn:Hi; [| done].
      apply prog_bind_Return_inv in Hs as ([[c|[]] s] & w2 & t3 & t4 & Hc & Hs & _).
      * by apply prog_bind_Return_inv in Hs as (? & ? & ? & ? & _ & [= <-] & _).
      * injection Hs as <- <- <- _. by apply on_chan_Return in Hc as [_ ?].
      * apply prog_bind_Return_inv in Hs as (? & ? & ? & ? & _ & [= <- <- _ _] & _). done.
    + apply poll_result_cases in Hp as (_ & Hi' & _). rewrite (Hr1 eq_refl) in Hi'. congruence.
Qed.
End request.
