(* ===== verification/Address.v ===== *)
(** * Addresses and recipients: [src/address/mod.rs], [src/address/sync.rs],
    [src/address/unsync.rs]

    The two destinations [Syn] and [Unsync] are the two instances of [Transport]:
    the thread-safe channel with its senders, and the single-threaded one, whose
    senders are weak pointers and have no state of their own.  [Addr] is a
    handle that forwards to the transport; [Recipient] forwards to a [BoxedSender],
    the same sender behind a pointer ([into_sender], [boxed]), and sends as the
    address does ([recipients_send_alike]).  The three request types of the source have the same fields
    and the same code: they are [Request] over the two transports. *)

From S2P Require Import Prelude.
From S2P Require Import Queue.
From S2P Require Import Envelope.
From S2P Require Import UnsyncChannel.
From S2P Require Import SyncChannel.
From S2P Require Import SyncChannelSpec.
From S2P Require Import Request.

Section transports.
Context {M Tx Rx Task : Type}.

(** ** [Unsync] *)

Abbreviation Chan := (Chan (M := M) (Tx := Tx) (Task := Task)).

#[export] Program Instance Unsync : Transport () Chan M Tx Rx Task := {|
  tr_connected _ := UnsyncChannel.sender_connected;
  tr_send t os m _ := r ← UnsyncChannel.send t os m; mret (r, ());
  tr_try_send t m park _ := r ← UnsyncChannel.try_send t m park; mret (r, ());
  tr_do_send m _ := UnsyncChannel.do_send m;
  tr_clone _ := UnsyncChannel.sender_clone;
  tr_drop _ := UnsyncChannel.sender_drop;
  tr_holds c es := UnsyncChannel.buffer (shared c) = es;
  tr_valid _ _ := True;
  tr_max := usize_MAX
|}.
Next Obligation. intros c es es' H1 H2. by rewrite <- H1, <- H2. Qed.
Next Obligation.
  intros t os m [] c es _ Hh _. unfold mbind, prog_bind. rewrite send_spec. simpl in *.
  destruct (strong c); [| by eexists _, _, _, _].
  destruct (has_room (shared c)); simpl.
  - eexists _, _, _, _. split; [done |]. split; [done |]. simpl. by rewrite Hh.
  - by eexists _, _, _, _.
Qed.
Next Obligation. intros [] c es [] c' w es' [= <- _] H1 H2. simpl in *. congruence. Qed.
Next Obligation.
  intros [] c es c' w es' Hd H1 H2. simpl in *.
  destruct (strong c) eqn:Hs.
  - rewrite sender_drop_spec in Hd by done. injection Hd as <- _. simpl in *.
    case_bool_decide; simpl in *; congruence.
  - unfold UnsyncChannel.sender_drop, upgrade in Hd. unfold gets, mbind, prog_bind in Hd.
    simpl in Hd. rewrite Hs in Hd. injection Hd as <- _. simpl in *. congruence.
Qed.

(** ** [Syn] *)

Context {Q : Type → Type} `{!MpscQueue Q} {build : Build}.
Abbreviation Inner := (@Inner M Tx Task Q).

Lemma clone_messages (i i' : Inner) s w :
  sender_clone i = Return (s, i', w) → message_queue i' = message_queue i.
Proof.
  unfold sender_clone. intros (u & i1 & t1 & t2 & Hc & Hr & _)%prog_bind_Return_inv.
  rewrite cas_loop_spec in Hc. injection Hr as <- <- _.
  destruct (clone_iter _ _); [by injection Hc as _ <- _ | done | by injection Hc as _ <- _].
Qed.

Lemma drop_messages (i i' : Inner) w :
  SyncChannel.sender_drop i = Return ((), i', w) → message_queue i' = message_queue i.
Proof.
  unfold SyncChannel.sender_drop, gets, modify, mbind, prog_bind; simpl.
  destruct (_ =? 1); [| by intros [= <- _]].
  unfold signal, gets, modify, mbind, prog_bind; simpl.
  destruct (unparked _); [by intros [= <- _] |]. simpl.
  destruct (recv_handle _); by intros [= <- _].
Qed.

Lemma holds_messages (i i' : Inner) es es' :
  message_queue i' = message_queue i →
  (∃ a, R i a ∧ a_messages a = es) → (∃ a, R i' a ∧ a_messages a = es') → es' = es.
Proof.
  intros Hq (a & HR & <-) (a' & HR' & <-).
  pose proof (R_messages _ _ HR') as H'. rewrite Hq in H'.
  exact (q_repr_unique _ _ _ H' (R_messages _ _ HR)).
Qed.

#[export] Program Instance Syn : Transport SyncAddressSender Inner M Tx Rx Task := {|
  tr_connected _ := SyncChannel.sender_connected;
  tr_send := SyncChannel.send;
  tr_try_send := SyncChannel.try_send;
  tr_do_send m _ := SyncChannel.do_send m;
  tr_clone _ := SyncChannel.sender_clone;
  tr_drop _ := SyncChannel.sender_drop;
  tr_holds i es := ∃ a, R i a ∧ a_messages a = es;
  tr_valid s i := is_Some (sender_tasks i !! sender_task s);
  tr_max := MAX_CAPACITY
|}.
Next Obligation. intros i es es' H1 H2. symmetry. by apply (holds_messages i i). Qed.
Next Obligation.
  intros t [tx rx] m s i es Hv (a & HR & <-) Hl.
  assert (owned s a) as Ho by (unfold owned; by rewrite <- (R_cells _ _ HR)).
  pose proof (send_refines t tx rx m s i a HR Ho Hl) as Hs. unfold spec_try_send in Hs.
  destruct (a_blocked s a); [| destruct (a_open a); simpl in Hs; [destruct (a_full a) |]];
    destruct Hs as (i' & -> & HR'); eexists _, _, _, _; (split; [done |]); (split; [done |]);
    eexists; (split; [exact HR' | done]).
Qed.
Next Obligation.
  intros s i es s' i' w es' Hc H1 H2. simpl in *.
  by eapply holds_messages; [eapply clone_messages | |].
Qed.
Next Obligation.
  intros s i es i' w es' Hc H1 H2. simpl in *.
  by eapply holds_messages; [eapply drop_messages | |].
Qed.
End transports.

(** ** Senders behind a pointer

    A recipient only knows the messages its actor takes, not the actor: it holds
    a [Box<SyncSender<M>>] or a [Box<UnsyncSender<M>>].  [BoxedSender] is what
    those traits have in common. *)

Class BoxedSender (Tr C M Tx Rx Task : Type) : Type := {
  bs_do_send : M → Tr → Prog C Task (Result () (SendError M));
  bs_try_send : Task → M → Tr → Prog C Task (Result () (SendError M) * Tr);
  bs_send : Task → Tx * Rx → M → Tr → Prog C Task (Result Rx (SendError M) * Tr);
  bs_boxed : Tr → Prog C Task Tr
}.

(** [impl UnsyncSender for UnsyncAddrSender]; [try_send] registers the task. *)
#[export] Instance unsync_boxed {M Tx Rx Task} :
    BoxedSender () (Chan (M := M) (Tx := Tx) (Task := Task)) M Tx Rx Task := {|
  bs_do_send m _ := UnsyncChannel.do_send m;
  bs_try_send t m _ := r ← UnsyncChannel.try_send t m true; mret (r, ());
  bs_send t os m _ := r ← UnsyncChannel.send t os m; mret (r, ());
  bs_boxed _ := UnsyncChannel.sender_clone
|}.

(** [impl SyncSender for SyncAddressSender]. *)
#[export] Instance sync_boxed {M Tx Rx Task Q} `{!MpscQueue Q} {build : Build} :
    BoxedSender SyncAddressSender (@SyncChannel.Inner M Tx Task Q) M Tx Rx Task := {|
  bs_do_send m _ := SyncChannel.do_send m;
  bs_try_send t m s := SyncChannel.try_send t m true s;
  bs_send := SyncChannel.send;
  bs_boxed _ := SyncChannel.sender_clone
|}.

(** [MessageRecipient], which [Syn] and [Unsync] implement by the methods of the
    boxed sender. *)
Section message_recipient.
Context {Tr C V M Tx Rx Task : Type} `{!BoxedSender Tr C M Tx Rx Task}.
Abbreviation P := (Prog (C * V) Task).

Definition mr_do_send (tx : Tr) (m : M) : P (Result () (SendError M)) := on_chan (bs_do_send m tx).
Definition mr_try_send (current : Task) (tx : Tr) (m : M) : P (Result () (SendError M) * Tr) :=
  on_chan (bs_try_send current m tx).
Definition mr_send {Timeout} (current : Task) (oneshot : Tx * Rx) (tx : Tr) (m : M)
  : P (@Request Tr M Rx Timeout * Tr) :=
  '(res, tx) ← on_chan (bs_send current oneshot m tx);
  match res with
  | Ok rx => mret (request_new (Some rx) None, tx)
  | Err (Full m) => tx' ← on_chan (bs_boxed tx); mret (request_new None (Some (tx', m)), tx)
  | Err (Closed _) => mret (request_new None None, tx)
  end.
Definition mr_clone (tx : Tr) : P Tr := on_chan (bs_boxed tx).
End message_recipient.

(** ** [Addr] and [Recipient] *)

Section handles.
Context {Tr C V M Tx Rx Task : Type} `{!Transport Tr C M Tx Rx Task}.
Abbreviation P := (Prog (C * V) Task).
Abbreviation Request Timeout := (@Request Tr M Rx Timeout).

Record Addr : Type := mkAddr { addr_tx : Tr }.
Record Recipient : Type := mkRecipient { recipient_tx : Tr }.

Definition addr_connected (a : Addr) : P bool := on_chan (tr_connected (addr_tx a)).

Definition addr_do_send (m : M) (a : Addr) : P () :=
  _ ← on_chan (tr_do_send m (addr_tx a)); mret ().

Definition addr_send {Timeout} (current : Task) (oneshot : Tx * Rx) (m : M) (a : Addr)
  : P (Request Timeout * Addr) :=
  '(r, tx) ← dest_send current oneshot (addr_tx a) m; mret (r, mkAddr tx).

(** [try_send] of an address does not register the task. *)
Definition addr_try_send (current : Task) (m : M) (a : Addr)
  : P (Result () (SendError M) * Addr) :=
  '(r, tx) ← on_chan (tr_try_send current m false (addr_tx a)); mret (r, mkAddr tx).

Definition addr_recipient (a : Addr) : Recipient := mkRecipient (addr_tx a).

Definition addr_clone (a : Addr) : P Addr :=
  tx ← on_chan (tr_clone (addr_tx a)); mret (mkAddr tx).
End handles.

(** The methods of [Recipient]. *)
Section recipients.
Context {Tr C V M Tx Rx Task : Type} `{!BoxedSender Tr C M Tx Rx Task}.
Abbreviation P := (Prog (C * V) Task).
Abbreviation Request Timeout := (@Request Tr M Rx Timeout).
Abbreviation Recipient := (@Recipient Tr).

Definition recipient_do_send (m : M) (r : Recipient) : P (Result () (SendError M)) :=
  mr_do_send (recipient_tx r) m.

Definition recipient_try_send (current : Task) (m : M) (r : Recipient)
  : P (Result () (SendError M) * Recipient) :=
  '(x, tx) ← mr_try_send current (recipient_tx r) m; mret (x, mkRecipient tx).

Definition recipient_send {Timeout} (current : Task) (oneshot : Tx * Rx) (m : M) (r : Recipient)
  : P (Request Timeout * Recipient) :=
  '(x, tx) ← mr_send current oneshot (recipient_tx r) m; mret (x, mkRecipient tx).

Definition recipient_clone (r : Recipient) : P Recipient :=
  tx ← mr_clone (recipient_tx r); mret (mkRecipient tx).
End recipients.

(** A recipient sends as the address it was made from does, for either channel. *)
Definition sends_alike {Tr C V M Tx Rx Task Timeout : Type} `{!Transport Tr C M Tx Rx Task}
    `{!BoxedSender Tr C M Tx Rx Task} : Prop :=
  ∀ t os m (a : @Addr Tr),
    recipient_send t os m (addr_recipient a) ≡ₘ
      ('(r, a) ← addr_send t os m a; mret (r, addr_recipient a)
       : Prog (C * V) Task (@Request Tr M Rx Timeout * Recipient)) ∧
    (_ ← recipient_do_send m (addr_recipient a); mret () : Prog (C * V) Task ()) ≡ₘ addr_do_send m a.

Lemma recipients_send_alike {V M Tx Rx Task Timeout : Type} {Q} `{!MpscQueue Q} {build : Build} :
  sends_alike (V := V) (Timeout := Timeout) (Tr := ())
    (C := Chan (M := M) (Tx := Tx) (Task := Task)) (Rx := Rx) ∧
  sends_alike (V := V) (Timeout := Timeout) (Tr := SyncAddressSender)
    (C := @SyncChannel.Inner M Tx Task Q) (Rx := Rx).
Proof.
  split; intros t os m [tx]; (split; [| done]); intros s; unfold recipient_send, addr_send;
    cbn [recipient_tx addr_recipient addr_tx];
    change (mr_send (Timeout := Timeout) t os tx m) with (dest_send (V := V) (Timeout := Timeout) t os tx m);
    unfold mbind, prog_bind;
    destruct (dest_send _ _ _ _ s) as [[[[r tx'] s'] w]| | |]; simpl; by rewrite ?app_nil_r.
Qed.


(** ** The requests of recipients *)

Section recipient_requests.
Context {V M Tx Rx Res Timeout Task : Type} {Q : Type → Type} `{!MpscQueue Q} {build : Build}.
Context (rx_poll : Rx → Prog V Task (Poll Res ())) (timeout_poll : Timeout → Prog V Task (Poll () ())).

Definition SyncRecipientRequest : Type := @Request SyncAddressSender M Rx Timeout.
Definition UnsyncRecipientRequest : Type := @Request () M Rx Timeout.

(** [SyncRecipientRequest::poll] and [UnsyncRecipientRequest::poll]. *)
Definition sync_recipient_poll (current : Task) (oneshot : Tx * Rx) (r : SyncRecipientRequest)
  : Prog (@SyncChannel.Inner M Tx Task Q * V) Task (Poll Res MailboxError * SyncRecipientRequest) :=
  request_poll rx_poll timeout_poll current oneshot r.
Definition unsync_recipient_poll (current : Task) (oneshot : Tx * Rx) (r : UnsyncRecipientRequest)
  : Prog (Chan (M := M) (Tx := Tx) (Task := Task) * V) Task
      (Poll Res MailboxError * UnsyncRecipientRequest) :=
  request_poll rx_poll timeout_poll current oneshot r.
End recipient_requests.

(** ** A request that is polled again while the mailbox is full *)

Section lost_wakeup.
Context {V M Tx Rx Res Timeout Task : Type} {Q : Type → Type} `{!MpscQueue Q} {build : Build}.
Context (rx_poll : Rx → Prog V Task (Poll Res ())) (timeout_poll : Timeout → Prog V Task (Poll () ())).
Abbreviation Inner := (@Inner M Tx Task Q).
Abbreviation Request := (@Request SyncAddressSender M Rx Timeout).
Abbreviation request_poll := (request_poll (C := Inner) (Tx := Tx) rx_poll timeout_poll).

Implicit Types (os : Tx * Rx) (i : Inner) (v : V).

Definition refused (p : task_ptr) (parked : bool) (m : M) (tm : option Timeout) : Request :=
  mkRequest None (Some (mkSender p parked, m)) tm.

Lemma poll_refused t os p b m tm i v i' w :
  SyncChannel.send t os m (mkSender p b) i = Return ((Err (Full m), mkSender p true), i', w) →
  request_poll t os (refused p b m tm) (i, v) =
    Return ((Ok NotReady, refused p true m tm), (i', v), w).
Proof.
  intros Hs. unfold Request.request_poll, poll_send, mbind, prog_bind, on_chan; simpl.
  rewrite Hs. simpl. by rewrite !app_nil_r.
Qed.

(** The channel is full, nobody waits for room, and [p] is an idle sender. *)
Record full_for (p : task_ptr) (e : Envelope M Tx) (a : AChan M Tx Task) : Prop := {
  full_open : a_open a = true;
  full_messages : ∃ ms, a_messages a = e :: ms;
  full_exactly : a_buffer a = Z.of_nat (length (a_messages a));
  full_countable : countable a;
  full_nobody : a_parked a = [];
  full_sender : is_Some (a_cells a !! p)
}.

Lemma full_for_full p e a : full_for p e a → a_full a = true.
Proof.
  intros [_ [ms Hms] Hb _ _ _]. unfold a_full. rewrite Hb, Hms. simpl length.
  destruct (Z.eqb_spec (Z.of_nat (S (length ms))) 0); [lia |]. simpl. apply Z.leb_refl.
Qed.

(** The first poll registers the task; the second one erases it. *)
Lemma first_refusal t os p e m i a :
  R i a → full_for p e a →
  ∃ i', SyncChannel.send t os m (mkSender p false) i =
          Return ((Err (Full m), mkSender p true), i', []) ∧ R i' (a_park t p a).
Proof.
  intros HR Hf. destruct os as [tx rx].
  pose proof (send_refines t tx rx m (mkSender p false) i a HR (full_sender _ _ _ Hf)
    (full_countable _ _ _ Hf)) as Hs.
  unfold spec_try_send, a_blocked in Hs. simpl in Hs.
  rewrite (full_open _ _ _ Hf), (full_for_full _ _ _ Hf) in Hs. exact Hs.
Qed.

Lemma second_refusal t1 t2 os p e m i a :
  R i (a_park t1 p a) → full_for p e a →
  ∃ i', SyncChannel.send t2 os m (mkSender p true) i =
          Return ((Err (Full m), mkSender p true), i', []) ∧
        R i' (a_set_cell p (mkSenderTask None true) (a_park t1 p a)).
Proof.
  intros HR Hf. destruct os as [tx rx].
  pose proof (send_refines t2 tx rx m (mkSender p true) i _ HR) as Hs.
  unfold spec_try_send, a_blocked in Hs. simpl in Hs. rewrite lookup_insert_eq in Hs. simpl in Hs.
  apply Hs; [by exists (mkSenderTask (Some t1) true); apply lookup_insert_eq | apply Hf].
Qed.

(** The receiver takes the oldest message and wakes whoever [p] registered. *)
Lemma release t p e ms i a st :
  R i a → a_open a = true → a_messages a = e :: ms → a_parked a = [p] →
  a_cells a !! p = Some st →
  ∃ i', (fun fuel => SyncChannel.poll fuel t i) ⇓ (Ok (Ready (Some e)), i', option_list (task st)) ∧
        R i' (mkAChan (a_buffer a) true ms [] (a_senders a) (a_recv a)
               (<[p := mkSenderTask None false]> (a_cells a))).
Proof.
  intros HR Ho Hm Hp Hst. pose proof (poll_refines t i a HR Ho) as Hr.
  unfold spec_poll in Hr. rewrite Hm in Hr. unfold a_unpark in Hr.
  rewrite Hp in Hr. simpl in Hr. rewrite Hst, app_nil_r, Ho in Hr.
  destruct Hr as (i' & HR' & Hp'). exists i'. split; [by exists 2%nat | exact HR'].
Qed.

(** C25: a request that waits for room in a thread-safe mailbox must not be
    polled again.  Polled once, it is woken when the actor takes a message; if it
    is polled a second time before that (because the task that owns it was woken
    for another reason), the actor wakes nobody when it takes the message,
    although the mailbox then has room for the request's message. *)
Theorem syn_request_lost_wakeup t t1 t2 os1 os2 p e m tm i v a :
  R i a → full_for p e a →
  ∃ i1 i2 j1 j2,
    request_poll t1 os1 (refused p false m tm) (i, v) =
      Return ((Ok NotReady, refused p true m tm), (i1, v), []) ∧
    (fun fuel => SyncChannel.poll fuel t i1) ⇓ (Ok (Ready (Some e)), j1, [t1]) ∧
    request_poll t2 os2 (refused p true m tm) (i1, v) =
      Return ((Ok NotReady, refused p true m tm), (i2, v), []) ∧
    (fun fuel => SyncChannel.poll fuel t i2) ⇓ (Ok (Ready (Some e)), j2, []) ∧
    ∀ os3, ∃ j3 w, SyncChannel.send t2 os3 m (mkSender p true) j2 =
      Return ((Ok os3.2, mkSender p false), j3, w).
Proof.
  intros HR Hf. destruct (full_messages _ _ _ Hf) as [ms Hms].
  destruct (first_refusal t1 os1 p e m i a HR Hf) as (i1 & Hs1 & HR1).
  destruct (second_refusal t1 t2 os2 p e m i1 a HR1 Hf) as (i2 & Hs2 & HR2).
  destruct (release t p e ms i1 _ (mkSenderTask (Some t1) true) HR1) as (j1 & Hj1 & _);
    [apply Hf | done | by simpl; rewrite (full_nobody _ _ _ Hf) | apply lookup_insert_eq |].
  destruct (release t p e ms i2 _ (mkSenderTask None true) HR2) as (j2 & Hj2 & HRj);
    [apply Hf | done | by simpl; rewrite (full_nobody _ _ _ Hf) | apply lookup_insert_eq |].
  exists i1, i2, j1, j2. split; [by apply poll_refused |]. split; [exact Hj1 |].
  split; [by apply poll_refused |]. split; [exact Hj2 |]. intros [tx rx].
  pose proof (send_refines t2 tx rx m (mkSender p true) j2 _ HRj) as Hs.
  unfold spec_try_send, a_blocked, a_full in Hs. simpl in Hs.
  rewrite lookup_insert_eq in Hs. simpl in Hs.
  rewrite (full_exactly _ _ _ Hf), Hms in Hs. simpl length in Hs.
  destruct (Z.leb_spec (Z.of_nat (S (length ms))) (Z.of_nat (length ms))); [lia |].
  rewrite andb_false_r in Hs. destruct Hs as (j3 & Hs & _).
  - by exists (mkSenderTask None false); apply lookup_insert_eq.
  - pose proof (full_countable _ _ _ Hf) as Hc. unfold countable in *. rewrite Hms in Hc. simpl in *. lia.
  - by eexists _, _.
Qed.
End lost_wakeup.

(** ** Runs *)

Section runs.
#[local] Instance address_demo_build : Build := true.
(** The result of every request is the content of one cell, and a timer has
    always run out. *)
Definition demo_rx (c : nat) : Prog (option nat) nat (Poll nat ()) :=
  v ← get_state; mret (Ok (match v with Some n => Ready n | None => NotReady end)).
Definition demo_timer (t : nat) : Prog (option nat) nat (Poll () ()) := mret (Ok (Ready ())).

Abbreviation NChan := (Chan (M := nat) (Tx := nat) (Task := nat)).
Definition chan_full : NChan := mkChan true 1 (mkShared [pack 1%nat None] 1 [] None).
Definition chan_free : NChan := mkChan true 2 (mkShared [] 1 [] None).

Abbreviation demo_life := (life (Tr := ()) (C := NChan) (Tx := nat) demo_rx demo_timer).
Abbreviation NTrace := (@Trace nat nat nat nat).

(** Sent to a full mailbox, given a timeout, polled when there is room, and
    polled when the result is there. *)
Definition demo_trace : NTrace :=
  mkTrace [pack 7%nat (Some 1%nat)] [Err MailboxTimeout; Ok (Ready 42%nat)]
    [(0, 0); (1, 1); (2, 2)]%nat.

Lemma demo_lived : demo_life 7%nat (mkRequest None None (Some 3%nat)) demo_trace.
Proof.
  assert (demo_life 7%nat (mkRequest None (Some ((), 7%nat)) None) (mkTrace [] [] [(0, 0)%nat])) as H1.
  { eapply (life_send _ _ _ 5%nat _ () (chan_full, None) _ _ _ _ [pack 1%nat None] []);
      [done | done | done | reflexivity | done]. }
  apply (life_timeout _ _ _ _ _ 3%nat) in H1.
  eapply (life_poll _ _ _ _ _ 5%nat (1, 1)%nat (chan_free, None) _ _ _ _ [] [pack 7%nat (Some 1%nat)])
    in H1; [| done | done | done | reflexivity | done].
  eapply (life_poll _ _ _ _ _ 5%nat (2, 2)%nat (chan_free, Some 42%nat) _ _ _ _ [] [])
    in H1; [exact H1 | done | done | done | reflexivity | done].
Qed.

Lemma request_delivers_once_witness :
  ∃ os, os ∈ oneshots demo_trace ∧ sent demo_trace = [pack 7%nat (Some os.1)] ∧
        yielded demo_rx os.2 42%nat.
Proof.
  destruct (request_delivers_once demo_rx demo_timer _ _ _ demo_lived)
    as [(tr & Hi & _)|[_ [(Hs & _)|(os & H1 & H2 & H3)]]]; [discriminate Hi | discriminate Hs |].
  exists os. split; [exact H1 |]. split; [exact H2 |]. apply H3. right. left.
Defined.

Lemma request_result_once_witness :
  (∃ pre mid post, answers demo_trace = pre ++ mid ++ post ∧ Forall pending pre ∧
     (mid = [] ∨ ∃ v, mid = [Ok (Ready v)]) ∧ Forall closed post) ∧ sent demo_trace ≠ [].
Proof.
  destruct (request_result_once demo_rx demo_timer _ _ _ demo_lived) as (H1 & H2 & _).
  split; [exact H1 |]. apply H2. left.
Defined.

(** A thread-safe mailbox for one message that is full, and its idle sender. *)
Definition one_message : AChan nat nat nat :=
  a_push (pack 1%nat None)
    (mkAChan 1 true [] [] 1 (mkReceiverTask false None) {[1%positive := mkSenderTask None false]}).

Lemma one_message_full : full_for 1 (pack 1%nat None) one_message.
Proof. split; try done. by exists []. Qed.

Lemma one_message_real : ∃ i : @SyncChannel.Inner nat nat nat Queue, R i one_message.
Proof.
  destruct (channel_refines (M := nat) (Tx := nat) (Task := nat) (Q := Queue) 1 ltac:(done))
    as (i0 & _ & HR0).
  pose proof (do_send_refines 1%nat i0 _ HR0 ltac:(done)) as (i & _ & HR). by exists i.
Qed.

Lemma syn_request_lost_wakeup_witness :
  ∃ (i i1 i2 j2 : @SyncChannel.Inner nat nat nat Queue),
    R i one_message ∧
    request_poll demo_rx demo_timer 5%nat (0, 0)%nat (refused 1 true 7%nat None) (i1, None) =
      Return ((Ok NotReady, refused 1 true 7%nat None), (i2, None), []) ∧
    (fun fuel => SyncChannel.poll fuel 9%nat i2) ⇓ (Ok (Ready (Some (pack 1%nat None))), j2, []).
Proof.
  destruct one_message_real as [i HR].
  destruct (syn_request_lost_wakeup demo_rx demo_timer 9%nat 5%nat 5%nat (0, 0)%nat (0, 0)%nat 1
    (pack 1%nat None) 7%nat None i None one_message HR one_message_full)
    as (i1 & i2 & j1 & j2 & _ & _ & H2 & H3 & _).
  exists i, i1, i2, j2. split; [exact HR |]. split; [exact H2 | exact H3].
Defined.
End runs.
