(* ===== verification/ActorAddress.v ===== *)
(** * The address a starting actor hands out: [ActorAddress] of
    [src/address/mod.rs]; the messages of recipients: [MessageEnvelope] of
    [src/address/envelope.rs]; the texts of the errors

    [Actor::start] and its kin return the address their caller asks for:
    [Addr<Unsync, A>], [Addr<Syn, A>], both, or none.  An actor is connected when
    it starts exactly if it was asked for one ([started_connected]). *)

From S2P Require Import Prelude.
From S2P Require Import Queue.
From S2P Require Import Envelope.
From S2P Require Import UnsyncChannel.
From S2P Require Import SyncChannel.
From S2P Require Import Mailbox.
From S2P Require Import ContextImpl.
From S2P Require Import Supervisor.
From S2P Require Import Address.

(** ** [ActorAddress] *)

Section actor_address.
Context {A V Fut M Txs Txu Task : Type} {Q : Type → Type} `{!MpscQueue Q} {build : Build}.
Abbreviation World := (@World A V Fut M Txs Txu Task Q).
Abbreviation P := (Prog World Task).
Abbreviation UnsyncAddr := (@Addr ()).
Abbreviation SynAddr := (@Addr SyncAddressSender).
Implicit Types (w : World) (v : V) (a : A).

Class ActorAddress (X : Type) : Type := get_address : P X.

#[global] Instance unsync_actor_address : ActorAddress UnsyncAddr :=
  (_ ← get_unsync_address; mret (mkAddr ()) : P UnsyncAddr).
#[global] Instance sync_actor_address : ActorAddress SynAddr :=
  (tx ← get_sync_address; mret (mkAddr tx) : P SynAddr).
#[global] Instance both_actor_address : ActorAddress (UnsyncAddr * SynAddr) :=
  (_ ← get_unsync_address; tx ← get_sync_address; mret (mkAddr (), mkAddr tx)
   : P (UnsyncAddr * SynAddr)).
#[global] Instance no_actor_address : ActorAddress () := (mret () : P ()).

(** Whatever the actor, starting it with [m] for its address succeeds, and [b]
    tells whether its context is connected then. *)
Definition addresses {X} (m : P X) (b : bool) : Prop :=
  ∀ a v, ∃ x w t, actor_start a m v = Return (x, w, t) ∧
    act (impl w) = Some a ∧ env w = v ∧ connected (impl w) = b.

Lemma started_connected :
  addresses (get_address (X := UnsyncAddr)) true ∧ addresses (get_address (X := SynAddr)) true ∧
  addresses (get_address (X := UnsyncAddr * SynAddr)) true ∧ addresses (get_address (X := ())) false.
Proof. split_and!; intros a v; eexists _, _, _; (split; [reflexivity |]); done. Qed.
End actor_address.

(** ** [MessageEnvelope] and [SyncMessageEnvelope] *)

Record MessageEnvelope (M : Type) : Type := mkMessageEnvelope { env_msg : M }.
Arguments mkMessageEnvelope {M}.
Arguments env_msg {M}.
Definition message_envelope_from {M} (m : M) : MessageEnvelope M := mkMessageEnvelope m.
Definition message_envelope_into_inner {M} (e : MessageEnvelope M) : M := env_msg e.

(** ** The texts of the errors *)

Definition send_error_debug {M} (e : SendError M) : string :=
  match e with Full _ => "SendError::Full(..)" | Closed _ => "SendError::Closed(..)" end.
Definition send_error_display {M} (e : SendError M) : string :=
  match e with
  | Full _ => "send failed because receiver is full"
  | Closed _ => "send failed because receiver is gone"
  end.
Definition mailbox_error_display (e : MailboxError) : string :=
  match e with
  | MailboxClosed => "Mailbox has closed"
  | MailboxTimeout => "Message delivery timed out"
  end.
Definition mailbox_error_debug (e : MailboxError) : string :=
  "MailboxError(" +:+ mailbox_error_display e +:+ ")".

(** The texts tell the errors apart, and nothing of the message. *)
Lemma error_texts {M} (e1 e2 : SendError M) (d1 d2 : MailboxError) :
  (send_error_display e1 = send_error_display e2 ↔ send_error_debug e1 = send_error_debug e2) ∧
  (mailbox_error_display d1 = mailbox_error_display d2 → d1 = d2) ∧
  (mailbox_error_debug d1 = mailbox_error_debug d2 → d1 = d2).
Proof. by destruct e1, e2, d1, d2. Qed.
