(* ===== verification/Fut.v ===== *)
(** * Actor futures and streams: [src/fut/]

    An actor future is polled with its actor and context: here, it is polled as a
    program on a world [W] that contains both (and whatever the closures of the
    combinators have captured).  [ActorFuture] and [ActorStream] are the traits;
    a combinator is a record with its fields and an instance with its [poll].
    FutBuild has boxed futures, those of the futures crate, and [into_future],
    which is the identity on the futures of the source and left out here. *)

From S2P Require Import Prelude.

Section fut.
Context {W Task : Type}.
Abbreviation P := (Prog W Task).

(** ** The traits *)

Class ActorFuture (F T E : Type) : Type := poll_fut : F → P (F * Poll T E).
Class ActorStream (St T E : Type) : Type := poll_stream : St → P (St * Poll (option T) E).

(** ** Combinators on futures *)

(** [Map]. *)
Record Map (A T U : Type) : Type := mkMap { map_future : A; map_f : option (T → P U) }.
#[global] Arguments mkMap {A T U}.
#[global] Arguments map_future {A T U}.
#[global] Arguments map_f {A T U}.
Definition map_new {A T U} (a : A) (f : T → P U) : Map A T U := mkMap a (Some f).

Definition map_poll `{ActorFuture A T E} {U} (m : Map A T U) : P (Map A T U * Poll U E) :=
  '(a, r) ← poll_fut (map_future m);
  match r with
  | Ok NotReady => mret (mkMap a (map_f m), Ok NotReady)
  | Ok (Ready item) =>
      f ← lift (unwrap "cannot poll Map twice" (map_f m));
      u ← f item;
      mret (mkMap a None, Ok (Ready u))
  | Err err => mret (mkMap a (map_f m), Err err)
  end.
#[global] Instance map_fut `{ActorFuture A T E} {U} : ActorFuture (Map A T U) U E := map_poll.

(** [MapErr]. *)
Record MapErr (A E U : Type) : Type := mkMapErr { maperr_future : A; maperr_f : option (E → P U) }.
#[global] Arguments mkMapErr {A E U}.
#[global] Arguments maperr_future {A E U}.
#[global] Arguments maperr_f {A E U}.
Definition map_err_new {A E U} (a : A) (f : E → P U) : MapErr A E U := mkMapErr a (Some f).

Definition map_err_poll `{ActorFuture A T E} {U} (m : MapErr A E U) : P (MapErr A E U * Poll T U) :=
  '(a, r) ← poll_fut (maperr_future m);
  match r with
  | Ok x => mret (mkMapErr a (maperr_f m), Ok x)
  | Err e =>
      f ← lift (unwrap "cannot poll MapErr twice" (maperr_f m));
      u ← f e;
      mret (mkMapErr a None, Err u)
  end.
#[global] Instance map_err_fut `{ActorFuture A T E} {U} : ActorFuture (MapErr A E U) T U :=
  map_err_poll.

(** [DropErr]. *)
Record DropErr (A : Type) : Type := mkDropErr { droperr_future : A }.
#[global] Arguments mkDropErr {A}.
#[global] Arguments droperr_future {A}.
Definition drop_err_poll `{ActorFuture A T E} (d : DropErr A) : P (DropErr A * Poll T ()) :=
  '(a, r) ← poll_fut (droperr_future d);
  mret (mkDropErr a, match r with Ok x => Ok x | Err _ => Err () end).
#[global] Instance drop_err_fut `{ActorFuture A T E} : ActorFuture (DropErr A) T () :=
  drop_err_poll (E := E).

(** [FromErr]; [from] is [E::from]. *)
Record FromErr (A E E' : Type) : Type := mkFromErr { fromerr_future : A; from : E → E' }.
#[global] Arguments mkFromErr {A E E'}.
#[global] Arguments fromerr_future {A E E'}.
#[global] Arguments from {A E E'}.
Definition from_err_poll `{ActorFuture A T E} {E'} (d : FromErr A E E')
  : P (FromErr A E E' * Poll T E') :=
  '(a, r) ← poll_fut (fromerr_future d);
  mret (mkFromErr a (from d), result_map_err (from d) r).
#[global] Instance from_err_fut `{ActorFuture A T E} {E'} : ActorFuture (FromErr A E E') T E' :=
  from_err_poll.

(** [Either]. *)
Inductive Either (A B : Type) : Type := EitherA (a : A) | EitherB (b : B).
#[global] Arguments EitherA {A B}.
#[global] Arguments EitherB {A B}.
Definition either_split {T A B} (e : Either (T * A) (T * B)) : T * Either A B :=
  match e with EitherA (t, a) => (t, EitherA a) | EitherB (t, b) => (t, EitherB b) end.
Definition either_poll `{ActorFuture A T E, !ActorFuture B T E} (e : Either A B)
  : P (Either A B * Poll T E) :=
  match e with
  | EitherA a => '(a, r) ← poll_fut a; mret (EitherA a, r)
  | EitherB b => '(b, r) ← poll_fut b; mret (EitherB b, r)
  end.
#[global] Instance either_fut `{ActorFuture A T E, !ActorFuture B T E} :
  ActorFuture (Either A B) T E := either_poll.

(** [FutureResult], [ok] and [err]. *)
Record FutureResult (T E : Type) : Type := mkFutureResult { inner : option (Result T E) }.
#[global] Arguments mkFutureResult {T E}.
#[global] Arguments inner {T E}.
Definition result {T E} (r : Result T E) : FutureResult T E := mkFutureResult (Some r).
Definition ok {T E} (t : T) : FutureResult T E := result (Ok t).
Definition err {T E} (e : E) : FutureResult T E := result (Err e).
Definition result_poll {T E} (f : FutureResult T E) : P (FutureResult T E * Poll T E) :=
  r ← lift (unwrap "cannot poll Result twice" (inner f));
  mret (mkFutureResult None, result_map Ready r).
#[global] Instance result_fut {T E} : ActorFuture (FutureResult T E) T E := result_poll.

(** [Chain]. *)
Inductive Chain (A B C : Type) : Type :=
| First (a : A) (c : C)
| Second (b : B)
| Done.
#[global] Arguments First {A B C}.
#[global] Arguments Second {A B C}.
#[global] Arguments Done {A B C}.

(** The second half of [Chain::poll], after the first future has resolved. *)
Definition chain_switch `{ActorFuture B U E'} {A C} (m : P (Result (Result U B) E'))
  : P (Chain A B C * Poll U E') :=
  x ← m;
  match x with
  | Err e => mret (Done, Err e)
  | Ok (Ok e) => mret (Done, Ok (Ready e))
  | Ok (Err b) => '(b, ret) ← poll_fut b; mret (Second b, ret)
  end.

Definition chain_poll `{ActorFuture A T E, !ActorFuture B U E'} {C}
    (f : Result T E → C → P (Result (Result U B) E')) (c : Chain A B C)
  : P (Chain A B C * Poll U E') :=
  match c with
  | First a d =>
      '(a, r) ← poll_fut a;
      match r with
      | Ok NotReady => mret (First a d, Ok NotReady)
      | Ok (Ready t) => chain_switch (f (Ok t) d)
      | Err e => chain_switch (f (Err e) d)
      end
  | Second b => '(b, r) ← poll_fut b; mret (Second b, r)
  | Done => lift (Panic "cannot poll a chained future twice")
  end.

(** [Then]. *)
Record Then (A T E B : Type) : Type := mkThen { then_state : Chain A B (Result T E → P B) }.
#[global] Arguments mkThen {A T E B}.
#[global] Arguments then_state {A T E B}.
Definition then_new {A T E B} (a : A) (f : Result T E → P B) : Then A T E B := mkThen (First a f).
Definition then_poll `{ActorFuture A T E, !ActorFuture B U E'} (t : Then A T E B)
  : P (Then A T E B * Poll U E') :=
  '(c, r) ← chain_poll (fun a f => b ← f a; mret (Ok (Err b))) (then_state t);
  mret (mkThen c, r).
#[global] Instance then_fut `{ActorFuture A T E, !ActorFuture B U E'} :
  ActorFuture (Then A T E B) U E' := then_poll.

(** [AndThen]. *)
Record AndThen (A T B : Type) : Type := mkAndThen { and_then_state : Chain A B (T → P B) }.
#[global] Arguments mkAndThen {A T B}.
#[global] Arguments and_then_state {A T B}.
Definition and_then_new {A T B} (a : A) (f : T → P B) : AndThen A T B := mkAndThen (First a f).
Definition and_then_poll `{ActorFuture A T E, !ActorFuture B U E} (t : AndThen A T B)
  : P (AndThen A T B * Poll U E) :=
  '(c, r) ← chain_poll (fun r f =>
                match r with
                | Ok e => b ← f e; mret (Ok (Err b))
                | Err e => mret (Err e)
                end) (and_then_state t);
  mret (mkAndThen c, r).
#[global] Instance and_then_fut `{ActorFuture A T E, !ActorFuture B U E} :
  ActorFuture (AndThen A T B) U E := and_then_poll.

(** [Timeout]; a tokio timer is of a type [Timer]. *)
Record Timeout (A E Timer : Type) : Type := mkTimeout {
  timeout_fut : A;
  timeout_err : option E;
  timeout_timer : Timer
}.
#[global] Arguments mkTimeout {A E Timer}.
#[global] Arguments timeout_fut {A E Timer}.
#[global] Arguments timeout_err {A E Timer}.
#[global] Arguments timeout_timer {A E Timer}.

Definition timeout_poll {Timer} (timer_poll : Timer → P (Poll () ())) `{ActorFuture A T E}
    (t : Timeout A E Timer) : P (Timeout A E Timer * Poll T E) :=
  p ← timer_poll (timeout_timer t);
  match p with
  | Ok (Ready _) =>
      e ← lift (unwrap "called `Option::unwrap()` on a `None` value" (timeout_err t));
      mret (mkTimeout (timeout_fut t) None (timeout_timer t), Err e)
  | Ok NotReady =>
      '(a, r) ← poll_fut (timeout_fut t);
      mret (mkTimeout a (timeout_err t) (timeout_timer t), r)
  | Err _ => lift (Panic "internal error: entered unreachable code")
  end.

(** ** Combinators on streams *)

(** [StreamMap] and [StreamMapErr]; the closures are called any number of times. *)
Record StreamMap (St T U : Type) : Type := mkStreamMap { smap_stream : St; smap_f : T → P U }.
#[global] Arguments mkStreamMap {St T U}.
#[global] Arguments smap_stream {St T U}.
#[global] Arguments smap_f {St T U}.
Definition stream_map_poll `{ActorStream St T E} {U} (s : StreamMap St T U)
  : P (StreamMap St T U * Poll (option U) E) :=
  '(st, r) ← poll_stream (smap_stream s);
  let s := mkStreamMap st (smap_f s) in
  match r with
  | Ok NotReady => mret (s, Ok NotReady)
  | Ok (Ready (Some item)) => u ← smap_f s item; mret (s, Ok (Ready (Some u)))
  | Ok (Ready None) => mret (s, Ok (Ready None))
  | Err e => mret (s, Err e)
  end.
#[global] Instance stream_map_stream `{ActorStream St T E} {U} :
  ActorStream (StreamMap St T U) U E := stream_map_poll.

Record StreamMapErr (St E U : Type) : Type := mkStreamMapErr { smaperr_stream : St; smaperr_f : E → P U }.
#[global] Arguments mkStreamMapErr {St E U}.
#[global] Arguments smaperr_stream {St E U}.
#[global] Arguments smaperr_f {St E U}.
Definition stream_map_err_poll `{ActorStream St T E} {U} (s : StreamMapErr St E U)
  : P (StreamMapErr St E U * Poll (option T) U) :=
  '(st, r) ← poll_stream (smaperr_stream s);
  let s := mkStreamMapErr st (smaperr_f s) in
  match r with
  | Ok x => mret (s, Ok x)
  | Err e => u ← smaperr_f s e; mret (s, Err u)
  end.
#[global] Instance stream_map_err_stream `{ActorStream St T E} {U} :
  ActorStream (StreamMapErr St E U) T U := stream_map_err_poll.

(** [StreamThen] and [StreamAndThen] have the same fields and the same second
    half: poll the future of the current item. *)
Record StreamThen (St B F : Type) : Type := mkStreamThen {
  sthen_stream : St;
  sthen_future : option B;
  sthen_f : F
}.
#[global] Arguments mkStreamThen {St B F}.
#[global] Arguments sthen_stream {St B F}.
#[global] Arguments sthen_future {St B F}.
#[global] Arguments sthen_f {St B F}.

Definition poll_current `{ActorFuture B U E} {St F} (s : StreamThen St B F)
  : P (StreamThen St B F * Poll (option U) E) :=
  b ← lift (unwrap "assertion failed: self.future.is_some()" (sthen_future s));
  '(b, r) ← poll_fut b;
  match r with
  | Ok (Ready e) => mret (mkStreamThen (sthen_stream s) None (sthen_f s), Ok (Ready (Some e)))
  | Err e => mret (mkStreamThen (sthen_stream s) None (sthen_f s), Err e)
  | Ok NotReady => mret (mkStreamThen (sthen_stream s) (Some b) (sthen_f s), Ok NotReady)
  end.

Definition stream_then_poll `{ActorStream St T E, !ActorFuture B U E'}
    (s : StreamThen St B (Result T E → P B))
  : P (StreamThen St B (Result T E → P B) * Poll (option U) E') :=
  match sthen_future s with
  | Some _ => poll_current s
  | None =>
      '(st, r) ← poll_stream (sthen_stream s);
      let s := mkStreamThen st None (sthen_f s) in
      match r with
      | Ok NotReady => mret (s, Ok NotReady)
      | Ok (Ready None) => mret (s, Ok (Ready None))
      | Ok (Ready (Some e)) => b ← sthen_f s (Ok e); poll_current (mkStreamThen st (Some b) (sthen_f s))
      | Err e => b ← sthen_f s (Err e); poll_current (mkStreamThen st (Some b) (sthen_f s))
      end
  end.

Definition stream_and_then_poll `{ActorStream St T E, !ActorFuture B U E}
    (s : StreamThen St B (T → P B)) : P (StreamThen St B (T → P B) * Poll (option U) E) :=
  match sthen_future s with
  | Some _ => poll_current s
  | None =>
      '(st, r) ← poll_stream (sthen_stream s);
      let s := mkStreamThen st None (sthen_f s) in
      match r with
      | Ok NotReady => mret (s, Ok NotReady)
      | Ok (Ready None) => mret (s, Ok (Ready None))
      | Ok (Ready (Some e)) => b ← sthen_f s e; poll_current (mkStreamThen st (Some b) (sthen_f s))
      | Err e => mret (s, Err e)
      end
  end.

(** [StreamFinish] and [Finish]: the loop of [poll]. *)
Fixpoint finish_poll `{ActorStream St T E} (fuel : nat) (s : St) : P (St * Poll () E) :=
  match fuel with
  | O => lift OutOfFuel
  | S fuel =>
      '(s, r) ← poll_stream s;
      match r with
      | Ok NotReady => mret (s, Ok NotReady)
      | Ok (Ready None) => mret (s, Ok (Ready ()))
      | Ok (Ready (Some _)) => finish_poll fuel s
      | Err e => mret (s, Err e)
      end
  end.

(** [StreamFold]. *)
Inductive FoldState (T B : Type) : Type :=
| FoldEmpty
| FoldReady (t : T)
| FoldProcessing (b : B).
#[global] Arguments FoldEmpty {T B}.
#[global] Arguments FoldReady {T B}.
#[global] Arguments FoldProcessing {T B}.

Record StreamFold (St It T B : Type) : Type := mkStreamFold {
  fold_stream : St;
  fold_f : T → It → P B;
  fold_state : FoldState T B
}.
#[global] Arguments mkStreamFold {St It T B}.
#[global] Arguments fold_stream {St It T B}.
#[global] Arguments fold_f {St It T B}.
#[global] Arguments fold_state {St It T B}.
Definition fold_new {St It T B} (s : St) (f : T → It → P B) (t : T) : StreamFold St It T B :=
  mkStreamFold s f (FoldReady t).

(** The loop of its [poll]; [from_err] is [S::Error::from]. *)
Fixpoint fold_poll `{ActorStream St It E, !ActorFuture B T E'} (from_err : E' → E)
    (fuel : nat) (s : StreamFold St It T B) : P (StreamFold St It T B * Poll T E) :=
  match fuel with
  | O => lift OutOfFuel
  | S fuel =>
      match fold_state s with
      | FoldEmpty => lift (Panic "cannot poll Fold twice")
      | FoldReady state =>
          '(st, r) ← poll_stream (fold_stream s);
          match r with
          | Err e => mret (mkStreamFold st (fold_f s) FoldEmpty, Err e)
          | Ok (Ready (Some e)) =>
              b ← fold_f s state e;
              fold_poll from_err fuel (mkStreamFold st (fold_f s) (FoldProcessing b))
          | Ok (Ready None) => mret (mkStreamFold st (fold_f s) FoldEmpty, Ok (Ready state))
          | Ok NotReady => mret (mkStreamFold st (fold_f s) (FoldReady state), Ok NotReady)
          end
      | FoldProcessing b =>
          '(b, r) ← poll_fut b;
          match r with
          | Err e => mret (mkStreamFold (fold_stream s) (fold_f s) FoldEmpty, Err (from_err e))
          | Ok (Ready state) =>
              fold_poll from_err fuel (mkStreamFold (fold_stream s) (fold_f s) (FoldReady state))
          | Ok NotReady =>
              mret (mkStreamFold (fold_stream s) (fold_f s) (FoldProcessing b), Ok NotReady)
          end
      end
  end.

(** [StreamTimeout]; [timer_new] makes a timer for the duration. *)
Record StreamTimeout (St E Dur Timer : Type) : Type := mkStreamTimeout {
  stimeout_stream : St;
  stimeout_err : E;
  stimeout_dur : Dur;
  stimeout_timer : option Timer
}.
#[global] Arguments mkStreamTimeout {St E Dur Timer}.
#[global] Arguments stimeout_stream {St E Dur Timer}.
#[global] Arguments stimeout_err {St E Dur Timer}.
#[global] Arguments stimeout_dur {St E Dur Timer}.
#[global] Arguments stimeout_timer {St E Dur Timer}.

Definition stream_timeout_poll {Dur Timer} (timer_new : Dur → P Timer)
    (timer_poll : Timer → P (Poll () ())) `{ActorStream St T E}
    (s : StreamTimeout St E Dur Timer) : P (StreamTimeout St E Dur Timer * Poll (option T) E) :=
  '(st, r) ← poll_stream (stimeout_stream s);
  let with_timer := mkStreamTimeout st (stimeout_err s) (stimeout_dur s) in
  match r with
  | Ok (Ready res) => mret (with_timer None, Ok (Ready res))
  | Err e => mret (with_timer (stimeout_timer s), Err e)
  | Ok NotReady =>
      t ← match stimeout_timer s with
          | Some t => mret t
          | None => timer_new (stimeout_dur s)
          end;
      p ← timer_poll t;
      match p with
      | Ok (Ready _) => mret (with_timer None, Err (stimeout_err s))
      | Ok NotReady => mret (with_timer (Some t), Ok NotReady)
      | Err _ => lift (Panic "internal error: entered unreachable code")
      end
  end.
End fut.
#[global] Arguments ActorFuture W Task F T E : clear implicits.
#[global] Arguments ActorStream W Task St T E : clear implicits.
