(* ===== verification/FutProps.v ===== *)
(** * What the future combinators compute

    A future is driven to its end by [block_on], which polls it until it is
    ready; between two polls the rest of the program runs ([between], any
    program).  The combinators are compared with straight-line programs: [map]
    applies a function to the result, [then] is the bind of a monad, [fold] is a
    loop over the stream.  The equations are between programs, so they include
    the panics, the world at the end and the tasks notified on the way. *)

From S2P Require Import Prelude.
From S2P Require Import Fut.

Section drive.
Context {W Task : Type} (between : Prog W Task ()).
Abbreviation P := (Prog W Task).
Abbreviation ActorFuture := (ActorFuture W Task).
Abbreviation ActorStream := (ActorStream W Task).

Fixpoint block_on {F T E} (poll : F → P (F * Poll T E)) (fuel : nat) (f : F) : P (Result T E) :=
  match fuel with
  | O => lift OutOfFuel
  | S fuel =>
      '(f, r) ← poll f;
      match r with
      | Ok NotReady => _ ← between; block_on poll fuel f
      | Ok (Ready t) => mret (Ok t)
      | Err e => mret (Err e)
      end
  end.

(** The next item of a stream, its end, or its error. *)
Fixpoint next {St T E} (poll : St → P (St * Poll (option T) E)) (fuel : nat) (s : St)
  : P (St * Result (option T) E) :=
  match fuel with
  | O => lift OutOfFuel
  | S fuel =>
      '(s, r) ← poll s;
      match r with
      | Ok NotReady => _ ← between; next poll fuel s
      | Ok (Ready t) => mret (s, Ok t)
      | Err e => mret (s, Err e)
      end
  end.

(** Pushes binds to the right and evaluates returns. *)
Ltac step_prog :=
  repeat (setoid_rewrite prog_bind_assoc || setoid_rewrite prog_bind_ret_l ||
          setoid_rewrite prog_bind_lift).

Lemma map_is_map `{ActorFuture A T E} {U} (f : T → P U) n (a : A) :
  block_on map_poll n (map_new a f) ≡ₘ
  r ← block_on poll_fut n a;
  match r with Ok t => u ← f t; mret (Ok u) | Err e => mret (Err e) end.
Proof.
  revert a. induction n as [|n IH]; intros a; [done |]. cbn [block_on]. unfold map_poll, map_new.
  cbn [map_future map_f unwrap].
  rewrite !prog_bind_assoc. apply prog_bind_cong. intros [a' [[t|]|e]]; step_prog; try done.
  apply prog_bind_cong. intros _. apply IH.
Qed.

Lemma map_err_is_map `{ActorFuture A T E} {U} (f : E → P U) n (a : A) :
  block_on map_err_poll n (map_err_new a f) ≡ₘ
  r ← block_on poll_fut n a;
  match r with Ok t => mret (Ok t) | Err e => u ← f e; mret (Err u) end.
Proof.
  revert a. induction n as [|n IH]; intros a; [done |]. cbn [block_on]. unfold map_err_poll, map_err_new.
  cbn [maperr_future maperr_f unwrap].
  rewrite !prog_bind_assoc. apply prog_bind_cong. intros [a' [[t|]|e]]; step_prog; try done.
  apply prog_bind_cong. intros _. apply IH.
Qed.

Lemma from_err_is_map `{ActorFuture A T E} {E'} (f : E → E') n (a : A) :
  block_on from_err_poll n (mkFromErr a f) ≡ₘ
  r ← block_on poll_fut n a; mret (result_map_err f r).
Proof.
  revert a. induction n as [|n IH]; intros a; [done |]. cbn [block_on]. unfold from_err_poll.
  cbn [fromerr_future from].
  rewrite !prog_bind_assoc. apply prog_bind_cong. intros [a' [[t|]|e]]; step_prog; try done.
  apply prog_bind_cong. intros _. apply IH.
Qed.

Lemma drop_err_is_map `{ActorFuture A T E} n (a : A) :
  block_on (drop_err_poll (E := E)) n (mkDropErr a) ≡ₘ
  r ← block_on poll_fut n a; mret (result_map_err (fun _ => ()) r).
Proof.
  revert a. induction n as [|n IH]; intros a; [done |]. cbn [block_on]. unfold drop_err_poll.
  cbn [droperr_future].
  rewrite !prog_bind_assoc. apply prog_bind_cong. intros [a' [[t|]|e]]; step_prog; try done.
  apply prog_bind_cong. intros _. apply IH.
Qed.

(** *** More fuel *)

Lemma block_on_mono {F T E} (poll : F → P (F * Poll T E)) n1 n2 f :
  (n1 ≤ n2)%nat → prog_le (block_on poll n1 f) (block_on poll n2 f).
Proof.
  revert n2 f. induction n1 as [|n1 IH]; intros n2 f Hn; [apply prog_le_out_of_fuel |].
  destruct n2 as [|n2]; [lia |]. cbn [block_on]. solve_prog_le.
Qed.

Lemma next_mono {St T E} (poll : St → P (St * Poll (option T) E)) n1 n2 s :
  (n1 ≤ n2)%nat → prog_le (next poll n1 s) (next poll n2 s).
Proof.
  revert n2 s. induction n1 as [|n1 IH]; intros n2 s Hn; [apply prog_le_out_of_fuel |].
  destruct n2 as [|n2]; [lia |]. cbn [next]. solve_prog_le.
Qed.

Lemma next_step `{ActorStream St T E} {X} n (s : St) (g : St → Result (option T) E → P X) :
  ('(s, r) ← next poll_stream (S n) s; g s r) ≡ₘ
  '(s, r) ← poll_stream s;
  match r with
  | Ok NotReady => _ ← between; '(s, r) ← next poll_stream n s; g s r
  | Ok (Ready o) => g s (Ok o)
  | Err e => g s (Err e)
  end.
Proof.
  cbn [next]. rewrite prog_bind_assoc. apply prog_bind_cong.
  intros [s' [[o|]|e]]; by step_prog.
Qed.

(** *** Futures whose [poll] is a loop *)

Section loop.
Context {X T E : Type} (body : X → P (X * Turn (Poll T E))).

(** The loop without the polls: when the future would answer "not ready", the
    rest of the program runs and the loop goes on. *)
Fixpoint run_loop (fuel : nat) (x : X) : P (Result T E) :=
  match fuel with
  | O => lift OutOfFuel
  | S fuel =>
      '(x, t) ← body x;
      match t with
      | NextTurn => run_loop fuel x
      | Leave (Ok NotReady) => _ ← between; run_loop fuel x
      | Leave (Ok (Ready t)) => mret (Ok t)
      | Leave (Err e) => mret (Err e)
      end
  end.

Abbreviation drive_loop m n := (block_on (turns body m) n).

(** A poll that has fuel [k] left, and what follows. *)
Definition loop_mid m k n (x : X) : P (Result T E) :=
  '(x, r) ← turns body k x;
  match r with
  | Ok NotReady => _ ← between; drive_loop m n x
  | Ok (Ready t) => mret (Ok t)
  | Err e => mret (Err e)
  end.

Lemma loop_mid_step m k n x :
  loop_mid m (S k) n x ≡ₘ
  '(x, t) ← body x;
  match t with
  | NextTurn => loop_mid m k n x
  | Leave (Ok NotReady) => _ ← between; drive_loop m n x
  | Leave (Ok (Ready t)) => mret (Ok t)
  | Leave (Err e) => mret (Err e)
  end.
Proof.
  unfold loop_mid. cbn [turns]. rewrite prog_bind_assoc. apply prog_bind_cong.
  intros [x' [|[[t|]|e]]]; by step_prog.
Qed.

Lemma run_loop_mono n1 n2 x : (n1 ≤ n2)%nat → prog_le (run_loop n1 x) (run_loop n2 x).
Proof.
  revert n2 x. induction n1 as [|n1 IH]; intros n2 x Hn; [apply prog_le_out_of_fuel |].
  destruct n2 as [|n2]; [lia |]. cbn [run_loop]. solve_prog_le.
Qed.

Lemma drive_loop_mono m1 m2 n1 n2 x :
  (m1 ≤ m2)%nat → (n1 ≤ n2)%nat → prog_le (drive_loop m1 n1 x) (drive_loop m2 n2 x).
Proof.
  intros Hm. revert n2 x. induction n1 as [|n1 IH]; intros n2 x Hn; [apply prog_le_out_of_fuel |].
  destruct n2 as [|n2]; [lia |]. cbn [block_on].
  apply prog_le_bind; [by apply turns_mono |]. intros [x' [[t|]|e]]; try apply prog_le_refl.
  apply prog_le_bind; [apply prog_le_refl |]. intros _. apply IH. lia.
Qed.

Lemma loop_below m j n k x :
  (k + n * S m ≤ j)%nat → prog_le (loop_mid m k n x) (run_loop j x).
Proof.
  revert n k x. induction j as [|j IH]; intros n k x Hj.
  { assert (k = 0%nat) as -> by lia. apply prog_le_out_of_fuel. }
  destruct k as [|k]; [apply prog_le_out_of_fuel |].
  rewrite loop_mid_step. cbn [run_loop]. apply prog_le_bind; [apply prog_le_refl |].
  intros [x' [|[[t|]|e]]]; try apply prog_le_refl; [apply IH; lia |].
  apply prog_le_bind; [apply prog_le_refl |]. intros _.
  destruct n as [|n]; [apply prog_le_out_of_fuel |]. apply (IH n m). lia.
Qed.

Lemma loop_above m j n k x :
  (j ≤ k)%nat → (j ≤ m)%nat → (j ≤ n)%nat → prog_le (run_loop j x) (loop_mid m k n x).
Proof.
  revert n k x. induction j as [|j IH]; intros n k x Hk Hm Hn; [apply prog_le_out_of_fuel |].
  destruct k as [|k]; [lia |]. destruct n as [|n]; [lia |].
  rewrite loop_mid_step. cbn [run_loop]. apply prog_le_bind; [apply prog_le_refl |].
  intros [x' [|[[t|]|e]]]; try apply prog_le_refl; [apply IH; lia |].
  apply prog_le_bind; [apply prog_le_refl |]. intros _. apply (IH n m); lia.
Qed.

Lemma loop_is_run x : (fun n => drive_loop n n x) ≈ₘ (fun n => run_loop n x).
Proof.
  apply (same_returns_le _ _ (fun n => n + n * S n)%nat (fun n => S n)).
  - intros. by apply drive_loop_mono.
  - intros. by apply run_loop_mono.
  - intros [|n]; [apply prog_le_out_of_fuel |]. change (drive_loop (S n) (S n) x) with (loop_mid (S n) (S n) n x).
    apply loop_below. lia.
  - intros n. change (drive_loop (S n) (S n) x) with (loop_mid (S n) (S n) n x). apply loop_above; lia.
Qed.
End loop.

(** *** Chains *)

Section chain.
Context `{FA : ActorFuture A T E, FB : !ActorFuture B U E'} {C : Type}.
Context (f : Result T E → C → P (Result (Result U B) E')).

(** What a chain computes: run the first future, hand its result to the closure,
    run the future the closure made. *)
Definition finish_chain (n : nat) (x : Result (Result U B) E') : P (Result U E') :=
  match x with
  | Err e => mret (Err e)
  | Ok (Ok u) => mret (Ok u)
  | Ok (Err b) => block_on poll_fut n b
  end.
Definition run_chain (n1 n2 : nat) (a : A) (c : C) : P (Result U E') :=
  r ← block_on poll_fut n1 a; x ← f r c; finish_chain n2 x.

Lemma block_on_second n (b : B) :
  block_on (chain_poll (A := A) (C := C) f) n (Second b) ≡ₘ block_on poll_fut n b.
Proof.
  revert b. induction n as [|n IH]; intros b; [done |]. cbn [block_on chain_poll].
  rewrite !prog_bind_assoc. apply prog_bind_cong. intros [b' [[u|]|e]]; step_prog; try done.
  apply prog_bind_cong. intros _. apply IH.
Qed.

(** The poll in which the first future resolves also polls the second one. *)
Lemma block_on_switch n (m : P (Result (Result U B) E')) :
  ('(c, r) ← chain_switch (A := A) (C := C) m;
   match r with
   | Ok NotReady => _ ← between; block_on (chain_poll f) n c
   | Ok (Ready t) => mret (Ok t)
   | Err e => mret (Err e)
   end) ≡ₘ x ← m; finish_chain (S n) x.
Proof.
  unfold chain_switch. rewrite prog_bind_assoc. apply prog_bind_cong.
  intros [[u|b]|e]; cbn [finish_chain]; step_prog; try done.
  cbn [block_on]. apply prog_bind_cong. intros [b' [[u|]|e]]; step_prog; try done.
  apply prog_bind_cong. intros _. apply block_on_second.
Qed.

Lemma chain_step n a c :
  block_on (chain_poll f) (S n) (First a c) ≡ₘ
  '(a, r) ← poll_fut a;
  match r with
  | Ok NotReady => _ ← between; block_on (chain_poll f) n (First a c)
  | Ok (Ready t) => x ← f (Ok t) c; finish_chain (S n) x
  | Err e => x ← f (Err e) c; finish_chain (S n) x
  end.
Proof.
  cbn [block_on chain_poll]. rewrite prog_bind_assoc. apply prog_bind_cong.
  intros [a' [[t|]|e]]; [apply block_on_switch | | apply block_on_switch].
  by step_prog.
Qed.

Lemma run_chain_step n1 n2 a c :
  run_chain (S n1) n2 a c ≡ₘ
  '(a, r) ← poll_fut a;
  match r with
  | Ok NotReady => _ ← between; run_chain n1 n2 a c
  | Ok (Ready t) => x ← f (Ok t) c; finish_chain n2 x
  | Err e => x ← f (Err e) c; finish_chain n2 x
  end.
Proof.
  unfold run_chain. cbn [block_on]. rewrite prog_bind_assoc. apply prog_bind_cong.
  intros [a' [[t|]|e]]; by step_prog.
Qed.

Lemma finish_chain_mono n1 n2 x :
  (n1 ≤ n2)%nat → prog_le (finish_chain n1 x) (finish_chain n2 x).
Proof. intros Hn. destruct x as [[u|b]|e]; try apply prog_le_refl. by apply block_on_mono. Qed.

Lemma chain_below n1 n2 a c :
  (n1 ≤ n2)%nat → prog_le (block_on (chain_poll f) n1 (First a c)) (run_chain n1 n2 a c).
Proof.
  revert a. induction n1 as [|n1 IH]; intros a Hn; [apply prog_le_out_of_fuel |].
  rewrite chain_step, run_chain_step. apply prog_le_bind; [apply prog_le_refl |].
  intros [a' [[t|]|e]]; (apply prog_le_bind; [apply prog_le_refl |]); intros x.
  - by apply finish_chain_mono.
  - apply IH. lia.
  - by apply finish_chain_mono.
Qed.

Lemma chain_above n1 n2 a c :
  prog_le (run_chain n1 n2 a c) (block_on (chain_poll f) (n1 + n2) (First a c)).
Proof.
  revert a. induction n1 as [|n1 IH]; intros a; [apply prog_le_out_of_fuel |].
  cbn [Nat.add]. rewrite chain_step, run_chain_step. apply prog_le_bind; [apply prog_le_refl |].
  intros [a' [[t|]|e]]; (apply prog_le_bind; [apply prog_le_refl |]); intros x;
    [| apply IH |]; apply finish_chain_mono; lia.
Qed.

Lemma run_chain_mono n1 n2 a c :
  (n1 ≤ n2)%nat → prog_le (run_chain n1 n1 a c) (run_chain n2 n2 a c).
Proof.
  intros Hn. unfold run_chain. apply prog_le_bind; [by apply block_on_mono |]. intros r.
  apply prog_le_bind; [apply prog_le_refl |]. intros x. by apply finish_chain_mono.
Qed.

Lemma chain_is_run a c :
  (fun n => block_on (chain_poll f) n (First a c)) ≈ₘ (fun n => run_chain n n a c).
Proof.
  apply (same_returns_le _ _ (fun n => n) (fun n => n + n)%nat).
  - intros. by apply block_on_mono.
  - intros. by apply run_chain_mono.
  - intros n. by apply chain_below.
  - intros n. apply chain_above.
Qed.
End chain.

(** *** Streams *)

Lemma stream_map_is_map `{ActorStream St T E} {U} (f : T → P U) n (s : St) :
  next stream_map_poll n (mkStreamMap s f) ≡ₘ
  '(s, r) ← next poll_stream n s;
  match r with
  | Ok (Some t) => u ← f t; mret (mkStreamMap s f, Ok (Some u))
  | Ok None => mret (mkStreamMap s f, Ok None)
  | Err e => mret (mkStreamMap s f, Err e)
  end.
Proof.
  revert s. induction n as [|n IH]; intros s; [done |]. cbn [next]. unfold stream_map_poll.
  cbn [smap_stream smap_f].
  rewrite !prog_bind_assoc. apply prog_bind_cong. intros [s' [[[t|]|]|e]]; step_prog; try done.
  apply prog_bind_cong. intros _. apply IH.
Qed.

Lemma stream_map_err_is_map `{ActorStream St T E} {U} (f : E → P U) n (s : St) :
  next stream_map_err_poll n (mkStreamMapErr s f) ≡ₘ
  '(s, r) ← next poll_stream n s;
  match r with
  | Ok o => mret (mkStreamMapErr s f, Ok o)
  | Err e => u ← f e; mret (mkStreamMapErr s f, Err u)
  end.
Proof.
  revert s. induction n as [|n IH]; intros s; [done |]. cbn [next]. unfold stream_map_err_poll.
  cbn [smaperr_stream smaperr_f].
  rewrite !prog_bind_assoc. apply prog_bind_cong. intros [s' [[o|]|e]]; step_prog; try done.
  apply prog_bind_cong. intros _. apply IH.
Qed.

(** *** [StreamThen] and [StreamAndThen]: a future per item *)

Section item_future.
Context `{FS : ActorStream St T E0, FB : !ActorFuture B U E} {F : Type} (f : F).
Abbreviation SThen := (StreamThen St B F).
Abbreviation idle s := (mkStreamThen s None f).
Abbreviation busy s b := (mkStreamThen s (Some b) f).

(** [start] is what becomes of an answer of the stream: a future to poll, or an
    answer to pass on. *)
Context (poll : SThen → P (SThen * Poll (option U) E))
        (start : Result (option T) E0 → P (B + Result (option U) E)).

Definition begin_item (s : St) (x : B + Result (option U) E) : P (SThen * Poll (option U) E) :=
  match x with
  | inl b => poll_current (busy s b)
  | inr r => mret (idle s, result_map Ready r)
  end.

Context (poll_busy : ∀ s b, poll (busy s b) = poll_current (busy s b))
        (poll_idle : ∀ s, poll (idle s) ≡ₘ
           '(s, r) ← poll_stream s;
           match r with
           | Ok NotReady => mret (idle s, Ok NotReady)
           | Ok (Ready o) => x ← start (Ok o); begin_item s x
           | Err e => x ← start (Err e); begin_item s x
           end).

Definition finish_item (n : nat) (s : St) (x : B + Result (option U) E)
  : P (SThen * Result (option U) E) :=
  match x with
  | inl b => r ← block_on poll_fut n b; mret (idle s, result_map Some r)
  | inr r => mret (idle s, r)
  end.

(** The next item: the next answer of the stream, and its future run to its end. *)
Definition next_item (n1 n2 : nat) (s : St) : P (SThen * Result (option U) E) :=
  '(s, r) ← next poll_stream n1 s; x ← start r; finish_item n2 s x.

Lemma next_busy s b n :
  next poll n (busy s b) ≡ₘ r ← block_on poll_fut n b; mret (idle s, result_map Some r).
Proof.
  revert b. induction n as [|n IH]; intros b; [done |]. cbn [next block_on].
  rewrite poll_busy. unfold poll_current. cbn [sthen_future sthen_stream sthen_f unwrap].
  rewrite prog_bind_lift, !prog_bind_assoc. apply prog_bind_cong.
  intros [b' [[u|]|e]]; step_prog; try done. apply prog_bind_cong. intros _. apply IH.
Qed.

Definition resume_next n (x : SThen * Poll (option U) E) : P (SThen * Result (option U) E) :=
  let '(s, r) := x in
  match r with
  | Ok NotReady => _ ← between; next poll n s
  | Ok (Ready t) => mret (s, Ok t)
  | Err e => mret (s, Err e)
  end.

Lemma resume_begin n s x : (x ← begin_item s x; resume_next n x) ≡ₘ finish_item (S n) s x.
Proof.
  destruct x as [b|[o|e]]; cbn [begin_item finish_item result_map]; [| by step_prog..].
  rewrite <- next_busy. cbn [next]. by rewrite poll_busy.
Qed.

Lemma next_idle n s :
  next poll (S n) (idle s) ≡ₘ
  '(s, r) ← poll_stream s;
  match r with
  | Ok NotReady => _ ← between; next poll n (idle s)
  | Ok (Ready o) => x ← start (Ok o); finish_item (S n) s x
  | Err e => x ← start (Err e); finish_item (S n) s x
  end.
Proof.
  change (next poll (S n) (idle s)) with (x ← poll (idle s); resume_next n x).
  rewrite poll_idle, prog_bind_assoc. apply prog_bind_cong.
  intros [s' [[o|]|e]]; [| by step_prog |];
    rewrite prog_bind_assoc; apply prog_bind_cong; intros x; apply resume_begin.
Qed.

Lemma next_item_step n1 n2 s :
  next_item (S n1) n2 s ≡ₘ
  '(s, r) ← poll_stream s;
  match r with
  | Ok NotReady => _ ← between; next_item n1 n2 s
  | Ok (Ready o) => x ← start (Ok o); finish_item n2 s x
  | Err e => x ← start (Err e); finish_item n2 s x
  end.
Proof.
  unfold next_item. cbn [next]. rewrite prog_bind_assoc. apply prog_bind_cong.
  intros [s' [[o|]|e]]; by step_prog.
Qed.

Lemma finish_item_mono n1 n2 s x :
  (n1 ≤ n2)%nat → prog_le (finish_item n1 s x) (finish_item n2 s x).
Proof.
  intros Hn. destruct x; [| apply prog_le_refl].
  apply prog_le_bind; [by apply block_on_mono |]. intros r. apply prog_le_refl.
Qed.

Lemma item_is_next s : (fun n => next poll n (idle s)) ≈ₘ (fun n => next_item n n s).
Proof.
  assert (∀ n1 n2 s, (n1 ≤ n2)%nat → prog_le (next poll n1 (idle s)) (next_item n1 n2 s)) as Hbelow.
  { induction n1 as [|n1 IH]; intros n2 s' Hn; [apply prog_le_out_of_fuel |].
    rewrite next_idle, next_item_step. apply prog_le_bind; [apply prog_le_refl |].
    intros [s1 [[o|]|e]]; (apply prog_le_bind; [apply prog_le_refl |]); intros x;
      [by apply finish_item_mono | apply IH; lia | by apply finish_item_mono]. }
  assert (∀ n1 n2 s, prog_le (next_item n1 n2 s) (next poll (n1 + n2) (idle s))) as Habove.
  { induction n1 as [|n1 IH]; intros n2 s'; [apply prog_le_out_of_fuel |]. cbn [Nat.add].
    rewrite next_idle, next_item_step. apply prog_le_bind; [apply prog_le_refl |].
    intros [s1 [[o|]|e]]; (apply prog_le_bind; [apply prog_le_refl |]); intros x;
      [apply finish_item_mono; lia | apply IH | apply finish_item_mono; lia]. }
  apply (same_returns_le _ _ (fun n => n) (fun n => n + n)%nat); try done.
  - intros. by apply next_mono.
  - intros n1 n2 Hn. unfold next_item. apply prog_le_bind; [by apply next_mono |]. intros [s' r].
    apply prog_le_bind; [apply prog_le_refl |]. intros x. by apply finish_item_mono.
  - intros n. by apply Hbelow.
Qed.
End item_future.

(** What the two combinators make of an answer of the stream. *)
Definition start_then {T E B U E'} (f : Result T E → P B) (r : Result (option T) E)
  : P (B + Result (option U) E') :=
  match r with
  | Ok (Some t) => b ← f (Ok t); mret (inl b)
  | Ok None => mret (inr (Ok None))
  | Err e => b ← f (Err e); mret (inl b)
  end.
Definition start_and_then {T E B U} (f : T → P B) (r : Result (option T) E)
  : P (B + Result (option U) E) :=
  match r with
  | Ok (Some t) => b ← f t; mret (inl b)
  | Ok None => mret (inr (Ok None))
  | Err e => mret (inr (Err e))
  end.

Lemma stream_then_items `{ActorStream St T E, !ActorFuture B U E'} (f : Result T E → P B) (s : St) :
  (fun n => next stream_then_poll n (mkStreamThen s None f)) ≈ₘ
  (fun n => next_item f (start_then f) n n s).
Proof.
  apply item_is_next; [done |]. intros s'. unfold stream_then_poll. cbn [sthen_future sthen_stream sthen_f].
  apply prog_bind_cong. intros [s1 [[[t|]|]|e]]; cbn [start_then begin_item]; by step_prog.
Qed.

Lemma stream_and_then_items `{ActorStream St T E, !ActorFuture B U E} (f : T → P B) (s : St) :
  (fun n => next stream_and_then_poll n (mkStreamThen s None f)) ≈ₘ
  (fun n => next_item f (start_and_then f) n n s).
Proof.
  apply item_is_next; [done |]. intros s'. unfold stream_and_then_poll.
  cbn [sthen_future sthen_stream sthen_f].
  apply prog_bind_cong. intros [s1 [[[t|]|]|e]]; cbn [start_and_then begin_item]; by step_prog.
Qed.

(** *** [StreamFold]: a loop *)

Section fold.
Context `{FS : ActorStream St T E, FB : !ActorFuture B A E'}.
Context (from_err : E' → E) (f : A → T → P B).
Abbreviation Fold := (StreamFold St T A B).
Abbreviation ready s a := (mkStreamFold s f (FoldReady a)).
Abbreviation processing s b := (mkStreamFold s f (FoldProcessing b)).
Abbreviation drive m n := (block_on (fold_poll (T := A) from_err m) n).

(** The loop: take the next item, run the future that combines it. *)
Fixpoint fold_loop (fuel : nat) (s : St) (a : A) : P (Result A E) :=
  match fuel with
  | O => lift OutOfFuel
  | S n =>
      '(s, r) ← next poll_stream fuel s;
      match r with
      | Err e => mret (Err e)
      | Ok None => mret (Ok a)
      | Ok (Some t) =>
          b ← f a t;
          r ← block_on poll_fut fuel b;
          match r with
          | Ok a => fold_loop n s a
          | Err e => mret (Err (from_err e))
          end
      end
  end.

(** Its body, after the item and after the future. *)
Definition combined n (s : St) (r : Result A E') : P (Result A E) :=
  match r with Ok a => fold_loop n s a | Err e => mret (Err (from_err e)) end.
Definition taken n (a : A) (s : St) (r : Result (option T) E) : P (Result A E) :=
  match r with
  | Err e => mret (Err e)
  | Ok None => mret (Ok a)
  | Ok (Some t) => b ← f a t; r ← block_on poll_fut (S n) b; combined n s r
  end.

(** A poll that is in the middle of its loop with fuel [k], and what follows. *)
Definition resume_fold m n (x : Fold * Poll A E) : P (Result A E) :=
  let '(s, r) := x in
  match r with
  | Ok NotReady => _ ← between; drive m n s
  | Ok (Ready a) => mret (Ok a)
  | Err e => mret (Err e)
  end.
Definition mid m k n (s : Fold) : P (Result A E) := x ← fold_poll from_err k s; resume_fold m n x.

Lemma mid_ready m k n s a :
  mid m (S k) n (ready s a) ≡ₘ
  '(s, r) ← poll_stream s;
  match r with
  | Err e => mret (Err e)
  | Ok (Ready (Some t)) => b ← f a t; mid m k n (processing s b)
  | Ok (Ready None) => mret (Ok a)
  | Ok NotReady => _ ← between; drive m n (ready s a)
  end.
Proof.
  unfold mid. cbn [fold_poll fold_state fold_stream fold_f]. rewrite prog_bind_assoc.
  apply prog_bind_cong. intros [s' [[[t|]|]|e]]; by step_prog.
Qed.

Lemma mid_processing m k n s b :
  mid m (S k) n (processing s b) ≡ₘ
  '(b, r) ← poll_fut b;
  match r with
  | Err e => mret (Err (from_err e))
  | Ok (Ready a) => mid m k n (ready s a)
  | Ok NotReady => _ ← between; drive m n (processing s b)
  end.
Proof.
  unfold mid. cbn [fold_poll fold_state fold_stream fold_f]. rewrite prog_bind_assoc.
  apply prog_bind_cong. intros [b' [[a|]|e]]; by step_prog.
Qed.

Lemma drive_mid m n s : drive m (S n) s = mid m m n s.
Proof. done. Qed.

Lemma block_step {X} n b (g : Result A E' → P X) :
  (r ← block_on poll_fut (S n) b; g r) ≡ₘ
  '(b, r) ← poll_fut b;
  match r with
  | Ok NotReady => _ ← between; r ← block_on poll_fut n b; g r
  | Ok (Ready a) => g (Ok a)
  | Err e => g (Err e)
  end.
Proof.
  cbn [block_on]. rewrite prog_bind_assoc. apply prog_bind_cong.
  intros [b' [[o|]|e]]; by step_prog.
Qed.

Lemma fold_loop_step n s a :
  fold_loop (S n) s a = ('(s, r) ← next poll_stream (S n) s; taken n a s r).
Proof. done. Qed.

(** The loop has enough fuel if it has one unit for every step left: [k] in this
    poll, and [m] in each of the [n] polls to come. *)
Lemma fold_below m j N n k :
  (k + n * S m ≤ j)%nat → (j ≤ N)%nat →
  (∀ s a, prog_le (mid m k n (ready s a)) ('(s, r) ← next poll_stream j s; taken N a s r)) ∧
  (∀ s b, prog_le (mid m k n (processing s b)) (r ← block_on poll_fut j b; combined N s r)).
Proof.
  revert N n k. induction j as [|j IH]; intros N n k Hj HN.
  { assert (k = 0%nat) as -> by lia. split; intros; apply prog_le_out_of_fuel. }
  destruct k as [|k]; [split; intros; apply prog_le_out_of_fuel |].
  split; intros s x.
  - rewrite mid_ready, next_step. apply prog_le_bind; [apply prog_le_refl |].
    intros [s' [[[t|]|]|e]]; try apply prog_le_refl.
    + apply prog_le_bind; [apply prog_le_refl |]. intros b.
      destruct (IH N n k ltac:(lia) ltac:(lia)) as [_ Hp].
      etrans; [apply Hp |]. apply prog_le_bind; [apply block_on_mono; lia |].
      intros r. apply prog_le_refl.
    + apply prog_le_bind; [apply prog_le_refl |]. intros _.
      destruct n as [|n]; [apply prog_le_out_of_fuel |]. rewrite drive_mid.
      apply (IH N n m ltac:(lia) ltac:(lia)).
  - rewrite mid_processing, block_step. apply prog_le_bind; [apply prog_le_refl |].
    intros [b' [[a|]|e]]; [| | apply prog_le_refl].
    + destruct N as [|N]; [lia |]. change (combined (S N) s (Ok a)) with (fold_loop (S N) s a).
      rewrite fold_loop_step. destruct (IH N n k ltac:(lia) ltac:(lia)) as [Hr _].
      etrans; [apply Hr |]. apply prog_le_bind; [apply next_mono; lia |].
      intros r. apply prog_le_refl.
    + apply prog_le_bind; [apply prog_le_refl |]. intros _.
      destruct n as [|n]; [apply prog_le_out_of_fuel |]. rewrite drive_mid.
      apply (IH N n m ltac:(lia) ltac:(lia)).
Qed.

(** The waits of the loop from a future on, and from an item on. *)
Fixpoint waits (N : nat) : nat :=
  match N with O => O | S N' => N + N + waits N' end.

Definition above_ready m N : Prop := ∀ j k n s a,
  (2 * N + 2 ≤ k)%nat → (2 * N + 2 ≤ m)%nat → (j + S N + waits N ≤ n)%nat →
  prog_le ('(s, r) ← next poll_stream j s; taken N a s r) (mid m k n (ready s a)).
Definition above_processing m N : Prop := ∀ j k n s b,
  (2 * N + 1 ≤ k)%nat → (2 * N + 2 ≤ m)%nat → (j + waits N ≤ n)%nat →
  prog_le (r ← block_on poll_fut j b; combined N s r) (mid m k n (processing s b)).

Lemma above_ready_step m N : above_processing m N → above_ready m N.
Proof.
  intros Hp j. induction j as [|j IH]; intros k n s a Hk Hm Hn; [apply prog_le_out_of_fuel |].
  destruct k as [|k]; [lia |]. rewrite mid_ready, next_step.
  apply prog_le_bind; [apply prog_le_refl |].
  intros [s' [[[t|]|]|e]]; try apply prog_le_refl.
  - apply prog_le_bind; [apply prog_le_refl |]. intros b. apply Hp; lia.
  - apply prog_le_bind; [apply prog_le_refl |]. intros _.
    destruct n as [|n]; [lia |]. rewrite drive_mid. apply IH; lia.
Qed.

Lemma above_processing_step m N :
  (∀ N', N = S N' → above_ready m N') → above_processing m N.
Proof.
  intros Hr j. induction j as [|j IH]; intros k n s b Hk Hm Hn; [apply prog_le_out_of_fuel |].
  destruct k as [|k]; [lia |]. rewrite mid_processing, block_step.
  apply prog_le_bind; [apply prog_le_refl |]. intros [b' [[a|]|e]]; [| | apply prog_le_refl].
  - destruct N as [|N]; [apply prog_le_out_of_fuel |].
    change (combined (S N) s (Ok a)) with (fold_loop (S N) s a). rewrite fold_loop_step.
    cbn [waits] in Hn. apply (Hr N eq_refl); lia.
  - apply prog_le_bind; [apply prog_le_refl |]. intros _.
    destruct n as [|n]; [lia |]. rewrite drive_mid. apply IH; lia.
Qed.

Lemma above_all m N : above_ready m N.
Proof.
  induction N as [|N IH]; apply above_ready_step, above_processing_step; [done |].
  by intros N' [= <-].
Qed.

Lemma fold_loop_mono n1 n2 s a :
  (n1 ≤ n2)%nat → prog_le (fold_loop n1 s a) (fold_loop n2 s a).
Proof.
  revert n2 s a. induction n1 as [|n1 IH]; intros n2 s a Hn; [apply prog_le_out_of_fuel |].
  destruct n2 as [|n2]; [lia |]. rewrite !fold_loop_step.
  apply prog_le_bind; [by apply next_mono |]. intros [s' [[t|]|e]]; try apply prog_le_refl.
  apply prog_le_bind; [apply prog_le_refl |]. intros b.
  apply prog_le_bind; [by apply block_on_mono |]. intros [a'|e]; [| apply prog_le_refl].
  apply IH. lia.
Qed.

Lemma fold_poll_mono n1 n2 (s : Fold) :
  (n1 ≤ n2)%nat → prog_le (fold_poll (T := A) from_err n1 s) (fold_poll from_err n2 s).
Proof.
  revert n2 s. induction n1 as [|n1 IH]; intros n2 s Hn; [apply prog_le_out_of_fuel |].
  destruct n2 as [|n2]; [lia |]. cbn [fold_poll]. solve_prog_le.
Qed.

Lemma drive_mono m1 m2 n1 n2 s :
  (m1 ≤ m2)%nat → (n1 ≤ n2)%nat → prog_le (drive m1 n1 s) (drive m2 n2 s).
Proof.
  intros Hm. revert n2 s. induction n1 as [|n1 IH]; intros n2 s Hn; [apply prog_le_out_of_fuel |].
  destruct n2 as [|n2]; [lia |]. cbn [block_on].
  apply prog_le_bind; [by apply fold_poll_mono |]. intros [s' [[a|]|e]]; try apply prog_le_refl.
  apply prog_le_bind; [apply prog_le_refl |]. intros _. apply IH. lia.
Qed.

Lemma fold_is_loop s a :
  (fun n => drive n n (fold_new s f a)) ≈ₘ (fun n => fold_loop n s a).
Proof.
  apply (same_returns_le _ _ (fun n => S (n + n * S n)) (fun n => S (2 * n + 2 + n + waits n))).
  - intros. by apply drive_mono.
  - intros. by apply fold_loop_mono.
  - intros [|n]; [apply prog_le_out_of_fuel |]. rewrite drive_mid, fold_loop_step.
    destruct (fold_below (S n) (S n + n * S (S n)) (S n + S n * S (S n)) n (S n)) as [Hb _]; [lia.. |].
    etrans; [apply Hb |]. apply prog_le_bind; [apply next_mono; lia |].
    intros r. apply prog_le_refl.
  - intros [|n]; [apply prog_le_out_of_fuel |]. rewrite drive_mid, fold_loop_step.
    apply above_all; cbn [waits]; lia.
Qed.
End fold.

(** *** [Then] and [AndThen] are chains *)

Lemma then_chain `{ActorFuture A T E, !ActorFuture B U E'} n (c : Chain A B (Result T E → P B)) :
  block_on then_poll n (mkThen c) ≡ₘ
  block_on (chain_poll (fun a f => b ← f a; mret (Ok (Err b)))) n c.
Proof.
  revert c. induction n as [|n IH]; intros c; [done |]. cbn [block_on]. unfold then_poll.
  cbn [then_state]. rewrite !prog_bind_assoc. apply prog_bind_cong.
  intros [c' [[u|]|e]]; step_prog; try done. apply prog_bind_cong. intros _. apply IH.
Qed.

Definition and_then_closure {T E B U} (r : Result T E) (f : T → P B) : P (Result (Result U B) E) :=
  match r with Ok e => b ← f e; mret (Ok (Err b)) | Err e => mret (Err e) end.

Lemma and_then_chain `{ActorFuture A T E, !ActorFuture B U E} n (c : Chain A B (T → P B)) :
  block_on and_then_poll n (mkAndThen c) ≡ₘ block_on (chain_poll (E := E) and_then_closure) n c.
Proof.
  revert c. induction n as [|n IH]; intros c; [done |]. cbn [block_on]. unfold and_then_poll.
  cbn [and_then_state]. rewrite !prog_bind_assoc. apply prog_bind_cong.
  intros [c' [[u|]|e]]; step_prog; try done. apply prog_bind_cong. intros _. apply IH.
Qed.

Lemma then_is_bind `{ActorFuture A T E, !ActorFuture B U E'} (f : Result T E → P B) (a : A) :
  (fun n => block_on then_poll n (then_new a f)) ≈ₘ
  (fun n => r ← block_on poll_fut n a; b ← f r; block_on poll_fut n b).
Proof.
  etrans; [apply same_returns_eq; intros n; apply then_chain |].
  etrans; [apply chain_is_run |]. apply same_returns_eq. intros n. unfold run_chain.
  apply prog_bind_cong. intros r. rewrite prog_bind_assoc. apply prog_bind_cong.
  intros b. by step_prog.
Qed.

Lemma and_then_is_bind `{ActorFuture A T E, !ActorFuture B U E} (f : T → P B) (a : A) :
  (fun n => block_on and_then_poll n (and_then_new a f)) ≈ₘ
  (fun n => r ← block_on poll_fut n a;
            match r with Ok t => b ← f t; block_on poll_fut n b | Err e => mret (Err e) end).
Proof.
  etrans; [apply same_returns_eq; intros n; apply and_then_chain |].
  etrans; [apply chain_is_run |]. apply same_returns_eq. intros n. unfold run_chain.
  apply prog_bind_cong. intros [t|e]; cbn [and_then_closure]; by step_prog.
Qed.

(** ** The combinators compute what they should *)

(** the combinators that transform a result apply their function to it once,
    with the actor and the context, and leave the other half alone; nothing else
    happens, and they take no more polls than the future they wrap. *)
Theorem map_combinators `{ActorFuture A T E} {U E'} (f : T → P U) (g : E → P U) (h : E → E')
    n (a : A) :
  (block_on map_poll n (map_new a f) ≡ₘ
   r ← block_on poll_fut n a;
   match r with Ok t => u ← f t; mret (Ok u) | Err e => mret (Err e) end) ∧
  (block_on map_err_poll n (map_err_new a g) ≡ₘ
   r ← block_on poll_fut n a;
   match r with Ok t => mret (Ok t) | Err e => u ← g e; mret (Err u) end) ∧
  (block_on from_err_poll n (mkFromErr a h) ≡ₘ
   r ← block_on poll_fut n a; mret (result_map_err h r)) ∧
  (block_on (drop_err_poll (E := E)) n (mkDropErr a) ≡ₘ
   r ← block_on poll_fut n a; mret (result_map_err (fun _ => ()) r)).
Proof.
  split_and!; [apply map_is_map | apply map_err_is_map | apply from_err_is_map |
               apply drop_err_is_map].
Qed.

(** C26: [then] and [and_then] are sequential composition: the first future runs
    to its end, the closure makes the second one from its result ([and_then]:
    from its success, an error is the error of the whole), and that one runs to
    its end; no poll is lost between the two. *)
Theorem then_is_sequence `{ActorFuture A T E, FB : !ActorFuture B U E', FC : !ActorFuture C V E}
    (f : Result T E → P B) (g : T → P C) (a : A) :
  ((fun n => block_on then_poll n (then_new a f)) ≈ₘ
   (fun n => r ← block_on poll_fut n a; b ← f r; block_on poll_fut n b)) ∧
  ((fun n => block_on and_then_poll n (and_then_new a g)) ≈ₘ
   (fun n => r ← block_on poll_fut n a;
             match r with Ok t => b ← g t; block_on poll_fut n b | Err e => mret (Err e) end)).
Proof. split; [apply then_is_bind | apply and_then_is_bind]. Qed.

(** C27: the stream combinators handle one item at a time: the next item of
    [then] and [and_then] is the next item of the stream with the future of the
    closure run to its end, and [fold] is the loop that takes an item, runs the
    future that combines it with the accumulator, and goes on with its result
    until the stream ends or something fails. *)
Theorem streams_item_by_item `{ActorStream St T E, FB : !ActorFuture B U E',
    FC : !ActorFuture C V E, FD : !ActorFuture D A E''}
    (f : Result T E → P B) (g : T → P C) (h : A → T → P D) (from_err : E'' → E) (s : St) (a : A) :
  ((fun n => next stream_then_poll n (mkStreamThen s None f)) ≈ₘ
   (fun n => next_item f (start_then f) n n s)) ∧
  ((fun n => next stream_and_then_poll n (mkStreamThen s None g)) ≈ₘ
   (fun n => next_item g (start_and_then g) n n s)) ∧
  ((fun n => block_on (fold_poll from_err n) n (fold_new s h a)) ≈ₘ
   (fun n => fold_loop from_err h n s a)).
Proof.
  split_and!; [apply stream_then_items | apply stream_and_then_items | apply fold_is_loop].
Qed.
End drive.
