(* ===== verification/FutBuild.v ===== *)
(** * Building actor futures: the methods of the traits, [src/fut/mod.rs]

    The methods of [ActorFuture] and [ActorStream] that build combinators, boxed
    futures, and the futures and streams of the futures crate as actor futures
    ([into_actor]).  Those see only a part [V] of the world, the one outside
    the actor and its context: [PlainFuture] is the trait [Future] on it. *)

From S2P Require Import Prelude.
From S2P Require Import Fut.
From S2P Require Import FutProps.

Section build.
Context {W Task : Type}.
Abbreviation P := (Prog W Task).
Abbreviation ActorFuture := (ActorFuture W Task).
Abbreviation ActorStream := (ActorStream W Task).

(** [IntoActorFuture]; a future is one already. *)
Class IntoActorFuture (B F : Type) : Type := into_future : B → F.
#[global] Instance future_into_future `{ActorFuture F T E} : IntoActorFuture F F := fun f => f.

(** ** The methods of [ActorFuture] *)

Definition fut_map {A T U} (a : A) (f : T → P U) : Map A T U := map_new a f.
Definition fut_map_err {A E U} (a : A) (f : E → P U) : MapErr A E U := map_err_new a f.
Definition fut_drop_err {A} (a : A) : DropErr A := mkDropErr a.
Definition fut_from_err {A E E'} (a : A) (from : E → E') : FromErr A E E' := mkFromErr a from.
Definition fut_then {A T E B} (a : A) (f : Result T E → P B) : Then A T E B := then_new a f.
Definition fut_and_then {A T B} (a : A) (f : T → P B) : AndThen A T B := and_then_new a f.
(** [timeout::new] makes its timer at once. *)
Definition timeout_new {A E Dur Timer} (timer_new : Dur → P Timer) (a : A) (timeout : Dur) (err : E)
  : P (Timeout A E Timer) :=
  t ← timer_new timeout; mret (mkTimeout a (Some err) t).
Definition fut_timeout {A E Dur Timer} (timer_new : Dur → P Timer) (a : A) (timeout : Dur) (err : E)
  : P (Timeout A E Timer) := timeout_new timer_new a timeout err.

(** ** The methods of [ActorStream], and what they call *)

Definition stream_map_new {St T U} (s : St) (f : T → P U) : StreamMap St T U := mkStreamMap s f.
Definition stream_map_err_new {St E U} (s : St) (f : E → P U) : StreamMapErr St E U :=
  mkStreamMapErr s f.
Definition stream_then_new {St T E B} (s : St) (f : Result T E → P B)
  : StreamThen St B (Result T E → P B) := mkStreamThen s None f.
Definition stream_and_then_new {St T B} (s : St) (f : T → P B) : StreamThen St B (T → P B) :=
  mkStreamThen s None f.
Definition stream_timeout_new {St E Dur Timer} (s : St) (timeout : Dur) (err : E)
  : StreamTimeout St E Dur Timer := mkStreamTimeout s err timeout None.

Definition stream_map {St T U} (s : St) (f : T → P U) : StreamMap St T U := stream_map_new s f.
Definition stream_map_err {St E U} (s : St) (f : E → P U) : StreamMapErr St E U :=
  stream_map_err_new s f.
Definition stream_then {St T E B} (s : St) (f : Result T E → P B)
  : StreamThen St B (Result T E → P B) := stream_then_new s f.
Definition stream_and_then {St T B} (s : St) (f : T → P B) : StreamThen St B (T → P B) :=
  stream_and_then_new s f.
Definition stream_fold {St It T B} (s : St) (init : T) (f : T → It → P B) : StreamFold St It T B :=
  fold_new s f init.
Definition stream_timeout {St E Dur Timer} (s : St) (timeout : Dur) (err : E)
  : StreamTimeout St E Dur Timer := stream_timeout_new s timeout err.

(** [StreamFinish]; its [poll] is the loop [finish_poll]. *)
Record StreamFinish (St : Type) : Type := mkStreamFinish { finish_stream : St }.
#[global] Arguments mkStreamFinish {St}.
#[global] Arguments finish_stream {St}.
Definition stream_finish_new {St} (s : St) : StreamFinish St := mkStreamFinish s.
Definition stream_finish {St} (s : St) : StreamFinish St := stream_finish_new s.
Definition stream_finish_poll `{ActorStream St T E} (fuel : nat) (f : StreamFinish St)
  : P (StreamFinish St * Poll () E) :=
  '(s, r) ← finish_poll fuel (finish_stream f); mret (mkStreamFinish s, r).

(** ** Boxes *)

Record Box (F : Type) : Type := mkBox { unbox : F }.
#[global] Arguments mkBox {F}.
#[global] Arguments unbox {F}.
Definition box_poll `{ActorFuture F T E} (b : Box F) : P (Box F * Poll T E) :=
  '(f, r) ← poll_fut (unbox b); mret (mkBox f, r).
#[global] Instance box_fut `{ActorFuture F T E} : ActorFuture (Box F) T E := box_poll.

(** ** Futures and streams that know no actor *)

Context {V : Type} `{!Cell W V}.

Class PlainFuture (F T E : Type) : Type := poll_plain : F → Prog V Task (F * Poll T E).
Class PlainStream (St T E : Type) : Type := poll_plain_stream : St → Prog V Task (St * Poll (option T) E).

(** Running on the part [V] of the world. *)
Definition outside {X} (m : Prog V Task X) : P X := fun w =>
  '(x, v, n) ← m (cell_get w); Return (x, cell_set v w, n).

Record FutureWrap (F : Type) : Type := mkFutureWrap { wrapped_fut : F }.
#[global] Arguments mkFutureWrap {F}.
#[global] Arguments wrapped_fut {F}.
Definition wrap_future {F} (f : F) : FutureWrap F := mkFutureWrap f.
Definition future_wrap_poll `{PlainFuture F T E} (f : FutureWrap F) : P (FutureWrap F * Poll T E) :=
  '(g, r) ← outside (poll_plain (wrapped_fut f)); mret (mkFutureWrap g, r).
#[global] Instance future_wrap_fut `{PlainFuture F T E} : ActorFuture (FutureWrap F) T E :=
  future_wrap_poll.
(** [WrapFuture::into_actor] and [actfuture]; the actor only fixes a type. *)
Definition into_actor {F} (f : F) : FutureWrap F := wrap_future f.

Record StreamWrap (St : Type) : Type := mkStreamWrap { wrapped_stream : St }.
#[global] Arguments mkStreamWrap {St}.
#[global] Arguments wrapped_stream {St}.
Definition wrap_stream {St} (s : St) : StreamWrap St := mkStreamWrap s.
Definition stream_wrap_poll `{PlainStream St T E} (s : StreamWrap St) : P (StreamWrap St * Poll (option T) E) :=
  '(s, r) ← outside (poll_plain_stream (wrapped_stream s)); mret (mkStreamWrap s, r).
#[global] Instance stream_wrap_stream `{PlainStream St T E} : ActorStream (StreamWrap St) T E :=
  stream_wrap_poll.
Definition stream_into_actor {St} (s : St) : StreamWrap St := wrap_stream s.

(** [Finish] of helpers.rs: a stream of the futures crate until it ends. *)
Record Finish (St : Type) : Type := mkFinish { finish_inner : St }.
#[global] Arguments mkFinish {St}.
#[global] Arguments finish_inner {St}.
Definition finish_new {St} (s : St) : Finish St := mkFinish s.
Definition stream_finish_plain {St} (s : St) : Finish St := finish_new s.
Fixpoint plain_finish_poll `{PlainStream St T E} (fuel : nat) (f : Finish St)
  : Prog V Task (Finish St * Poll () E) :=
  match fuel with
  | O => lift OutOfFuel
  | S fuel =>
      '(s, r) ← poll_plain_stream (finish_inner f);
      match r with
      | Ok NotReady => mret (mkFinish s, Ok NotReady)
      | Ok (Ready None) => mret (mkFinish s, Ok (Ready ()))
      | Ok (Ready (Some _)) => plain_finish_poll fuel (mkFinish s)
      | Err e => mret (mkFinish s, Err e)
      end
  end.

(** ** What they compute *)

Context (between : P ()).

(** A box changes nothing. *)
Lemma box_forwards `{ActorFuture F T E} n (f : F) :
  block_on between poll_fut n (mkBox f) ≡ₘ block_on between poll_fut n f.
Proof.
  revert f. induction n as [|n IH]; intros f; [done |]. cbn [block_on].
  change (poll_fut (mkBox f)) with (box_poll (mkBox f)). unfold box_poll. cbn [unbox].
  rewrite prog_bind_assoc. apply prog_bind_cong. intros [g r]. rewrite prog_bind_ret_l.
  destruct r as [[t|]|e]; [done | | done]. apply prog_bind_cong. intros _. apply IH.
Qed.

(** A wrapped future leaves the actor and its context alone: whatever [see]s
    nothing of the outside is the same after a poll. *)
Lemma wrapped_sees_outside `{PlainFuture F T E} {X} (see : W → X) (f : FutureWrap F) w x w' n :
  (∀ v w, see (cell_set v w) = see w) →
  poll_fut f w = Return (x, w', n) → see w' = see w.
Proof.
  intros Hsee Hp. change (poll_fut f w) with (future_wrap_poll f w) in Hp.
  unfold future_wrap_poll in Hp.
  apply prog_bind_Return_inv in Hp as ([g r] & w1 & n1 & n2 & Ho & [= _ <- _] & _).
  unfold outside in Ho. apply exec_bind_Return_inv in Ho as ([[x1 v] n3] & _ & [= _ <- _]).
  apply Hsee.
Qed.

(** [fut.into_actor(self).then(f)], as a context waits for it: the future outside
    runs to its end, then [f] and the future it makes. *)
Lemma into_actor_then `{PlainFuture F T E, FB : !ActorFuture B U E'} (f : F) (k : Result T E → P B) :
  (fun n => block_on between poll_fut n (fut_then (into_actor f) k)) ≈ₘ
  (fun n => r ← block_on between poll_fut n (wrap_future f);
            b ← k r; block_on between poll_fut n (into_future b : B)).
Proof. apply then_is_bind. Qed.

Lemma outside_bind {X Y} (m : Prog V Task X) (f : X → Prog V Task Y) :
  outside (m ≫= f) ≡ₘ (x ← outside m; outside (f x)).
Proof.
  intros w. unfold outside, mbind, prog_bind.
  destruct (m (cell_get w)) as [[[x v] n]| | |]; simpl; [| done..].
  rewrite cell_get_set. destruct (f x v) as [[[y v'] n']| | |]; simpl; [| done..].
  by rewrite cell_set_set.
Qed.

Lemma outside_ret {X} (x : X) : outside (mret x) ≡ₘ mret x.
Proof. intros w. unfold outside. simpl. by rewrite cell_set_get. Qed.

(** [finish] of a stream outside, taken into an actor, is [finish] of the stream
    taken into the actor. *)
Lemma finish_into_actor `{PlainStream St T E} fuel (s : St) :
  outside (plain_finish_poll fuel (finish_new s)) ≡ₘ
  '(s, r) ← finish_poll fuel (wrap_stream s); mret (mkFinish (wrapped_stream s), r).
Proof.
  revert s. induction fuel as [|fuel IH]; intros s; [done |].
  cbn [plain_finish_poll finish_poll]. unfold finish_new. cbn [finish_inner].
  rewrite outside_bind, prog_bind_assoc. unfold wrap_stream at 1.
  change (poll_stream (mkStreamWrap s)) with (stream_wrap_poll (mkStreamWrap s)).
  unfold stream_wrap_poll. cbn [wrapped_stream].
  rewrite prog_bind_assoc. apply prog_bind_cong. intros [s' r]. rewrite prog_bind_ret_l.
  destruct r as [[[x|]|]|e]; [apply IH | by rewrite outside_ret, prog_bind_ret_l ..].
Qed.
End build.
