(* ===== verification/AsyncContext.v ===== *)
(** * Contexts as an interface, and the items an actor spawns:
    [src/actor.rs] ([ActorContext], [AsyncContext]), [src/context.rs],
    [src/contextitems.rs], [src/stream.rs], [TimerFunc] of [src/utils.rs]

    [AsyncContext] is what actors and the items below use of a context; [Context]
    is its instance for the context of [ContextImpl].  The items are actor
    futures; the context stores them boxed, in the type [Fut] of all spawned
    futures, and [box] puts an item there.  Timers are of a type of another
    crate, made by [timer_new] and polled by [timer_poll]. *)

From S2P Require Import Prelude.
From S2P Require Import Queue.
From S2P Require Import SyncChannel.
From S2P Require Import Mailbox.
From S2P Require Import ContextImpl.
From S2P Require Import Fut.

(** ** The interface *)

Class AsyncContext (W Task Fut : Type) : Type := {
  ctx_stop : Prog W Task ();
  ctx_terminate : Prog W Task ();
  ctx_state : W → ActorState;
  ctx_spawn : Fut → Prog W Task SpawnHandle;
  ctx_wait : Fut → Prog W Task ();
  ctx_waiting : W → bool;
  ctx_cancel_future : SpawnHandle → Prog W Task bool
}.

(** [Context<A>]: every method forwards to [ContextImpl]. *)
Section context_instance.
Context {A V Fut M Txs Txu Task : Type} {Q : Type → Type}.
Abbreviation World := (@World A V Fut M Txs Txu Task Q).

Definition context_spawn (f : Fut) : Prog World Task SpawnHandle :=
  _ ← on_impl (spawn f); gets (fun w => handle (impl w)).
Definition context_cancel_future (h : SpawnHandle) : Prog World Task bool := fun w =>
  let '(b, c) := cancel_future h (impl w) in Return (b, mkWorld c (env w), []).

#[export] Instance Context : AsyncContext World Task Fut := {|
  ctx_stop := on_impl stop;
  ctx_terminate := on_impl terminate;
  ctx_state w := state (impl w);
  ctx_spawn := context_spawn;
  ctx_wait f := on_impl (wait_for f);
  ctx_waiting w := waiting (impl w);
  ctx_cancel_future := context_cancel_future
|}.

(** The methods [Context] has of its own. *)
Definition context_handle : Prog World Task SpawnHandle := gets (fun w => curr_handle (impl w)).
Definition context_set_mailbox_capacity `{!MpscQueue Q} (fuel : nat) (cap : Z) : Prog World Task () :=
  set_mailbox_capacity fuel cap.
Definition context_new (a : option A) : @ContextImpl A Fut M Txs Txu Task Q := new a.
Definition context_with_receiver (a : option A) (rx : @SyncChannel.Inner M Txs Task Q)
  : @ContextImpl A Fut M Txs Txu Task Q := with_receiver a rx.
Definition context_set_actor (a : A) : Prog World Task () := on_impl (set_actor a).
Definition context_restart `{!ActorCode (A := A) (V := V) (Fut := Fut) (M := M) (Txs := Txs)
    (Txu := Txu) (Task := Task) (Q := Q)} : Prog World Task bool := restart.
End context_instance.

(** [ContextFutureSpawner]: the same calls as methods of the future. *)
Section spawner.
Context {W Task Fut : Type} `{!AsyncContext W Task Fut}.
Definition spawner_spawn (f : Fut) : Prog W Task () := _ ← ctx_spawn f; mret ().
Definition spawner_wait (f : Fut) : Prog W Task () := ctx_wait f.
End spawner.

Section items.
Context {W Task Fut : Type} `{!AsyncContext W Task Fut}.
Context {Dur Timer : Type} (timer_new : Dur → Prog W Task Timer)
        (timer_poll : Timer → Prog W Task (Poll () ())).
Abbreviation P := (Prog W Task).

(** ** Timers *)

Definition unreachable {X} : P X := lift (Panic "internal error: entered unreachable code").

(** [TimerFunc]: a closure called when the time has passed. *)
Record TimerFunc : Type := mkTimerFunc { timer_f : option (P ()); timer_timeout : Timer }.

Definition timer_func_new (dur : Dur) (f : P ()) : P TimerFunc :=
  t ← timer_new dur; mret (mkTimerFunc (Some f) t).

Definition timer_func_poll (i : TimerFunc) : P (TimerFunc * Poll () ()) :=
  p ← timer_poll (timer_timeout i);
  match p with
  | Ok (Ready _) =>
      _ ← match timer_f i with Some f => f | None => mret () end;
      mret (mkTimerFunc None (timer_timeout i), Ok (Ready ()))
  | Ok NotReady => mret (i, Ok NotReady)
  | Err _ => unreachable
  end.
#[export] Instance timer_func_fut : ActorFuture W Task TimerFunc () () := timer_func_poll.

(** [AsyncContext::run_later]. *)
Definition run_later (box : TimerFunc → Fut) (dur : Dur) (f : P ()) : P SpawnHandle :=
  i ← timer_func_new dur f; ctx_spawn (box i).

(** ** Messages of an actor to itself *)

Section messages.
(** [handle_msg] is [A::handle(act, msg, ctx)] and the handling of its response
    without a response channel. *)
Context {M : Type} (handle_msg : M → P ()).

(** [ActorMessageItem]. *)
Record ActorMessageItem : Type := mkMessageItem { item_msg : option M }.

Definition message_item_new (msg : M) : ActorMessageItem := mkMessageItem (Some msg).

Definition message_item_poll (i : ActorMessageItem) : P (ActorMessageItem * Poll () ()) :=
  m ← lift (unwrap "called `Option::unwrap()` on a `None` value" (item_msg i));
  _ ← handle_msg m;
  mret (mkMessageItem None, Ok (Ready ())).
#[export] Instance message_item_fut : ActorFuture W Task ActorMessageItem () () := message_item_poll.

(** [ActorDelayedMessageItem]. *)
Record ActorDelayedMessageItem : Type := mkDelayedItem {
  delayed_msg : option M;
  delayed_timeout : Timer
}.

Definition delayed_item_new (msg : M) (dur : Dur) : P ActorDelayedMessageItem :=
  t ← timer_new dur; mret (mkDelayedItem (Some msg) t).

Definition delayed_item_poll (i : ActorDelayedMessageItem)
  : P (ActorDelayedMessageItem * Poll () ()) :=
  p ← timer_poll (delayed_timeout i);
  match p with
  | Ok NotReady => mret (i, Ok NotReady)
  | Ok (Ready _) =>
      m ← lift (unwrap "called `Option::unwrap()` on a `None` value" (delayed_msg i));
      _ ← handle_msg m;
      mret (mkDelayedItem None (delayed_timeout i), Ok (Ready ()))
  | Err _ => unreachable
  end.
#[export] Instance delayed_item_fut : ActorFuture W Task ActorDelayedMessageItem () () :=
  delayed_item_poll.

(** [AsyncContext::notify] and [notify_later]; a stopped actor only logs. *)
Definition notify_self (box : ActorMessageItem → Fut) (msg : M) : P () :=
  s ← gets ctx_state;
  if bool_decide (s = AStopped) then mret ()
  else _ ← ctx_spawn (box (message_item_new msg)); mret ().

Definition notify_later (box : ActorDelayedMessageItem → Fut) (msg : M) (after : Dur)
  : P SpawnHandle :=
  s ← gets ctx_state;
  if bool_decide (s = AStopped) then mret default_handle
  else i ← delayed_item_new msg after; ctx_spawn (box i).

(** [ActorMessageStreamItem]: the body of the loop of its [poll]. *)
Definition message_stream_turn `{ActorStream W Task St M E} (st : St)
  : P (St * Turn (Poll () ())) :=
  '(st, r) ← poll_stream st;
  match r with
  | Ok (Ready (Some msg)) =>
      _ ← handle_msg msg;
      b ← gets ctx_waiting;
      mret (st, if b : bool then Leave (Ok NotReady) else NextTurn)
  | Ok (Ready None) => mret (st, Leave (Ok (Ready ())))
  | Ok NotReady => mret (st, Leave (Ok NotReady))
  | Err _ => mret (st, NextTurn)
  end.
Definition message_stream_poll `{ActorStream W Task St M E} (fuel : nat) (st : St)
  : P (St * Poll () ()) := turns message_stream_turn fuel st.

(** [AsyncContext::add_message_stream]. *)
Definition add_message_stream {St} (box : St → Fut) (st : St) : P () :=
  s ← gets ctx_state;
  if bool_decide (s = AStopped) then mret () else _ ← ctx_spawn (box st); mret ().
End messages.

(** ** Streams *)

(** The trait [StreamHandler]. *)
Class StreamHandler (It E : Type) : Type := {
  sh_handle : It → P ();
  sh_started : P ();
  sh_error : E → P Running;
  sh_finished : P ()
}.

(** The methods the trait provides. *)
Definition default_started : P () := mret ().
Definition default_error {E} (e : E) : P Running := mret Stop.
Definition default_finished : P () := ctx_stop.

(** [ActorStream] of [src/stream.rs]. *)
Record StreamItem (St : Type) : Type := mkStreamItem { item_stream : St; item_started : bool }.
#[global] Arguments mkStreamItem {St}.
#[global] Arguments item_stream {St}.
#[global] Arguments item_started {St}.
Definition stream_item_new {St} (st : St) : StreamItem St := mkStreamItem st false.

(** The body of the loop of its [poll]. *)
Definition stream_item_turn {It E St} `{!StreamHandler It E, !ActorStream W Task St It E} (st : St)
  : P (St * Turn (Poll () ())) :=
  '(st, r) ← poll_stream st;
  match r with
  | Ok (Ready (Some msg)) =>
      _ ← sh_handle msg;
      b ← gets ctx_waiting;
      mret (st, if b : bool then Leave (Ok NotReady) else NextTurn)
  | Err err =>
      x ← sh_error err;
      match x with
      | Stop => _ ← sh_finished; mret (st, Leave (Ok (Ready ())))
      | Continue => mret (st, NextTurn)
      end
  | Ok (Ready None) => _ ← sh_finished; mret (st, Leave (Ok (Ready ())))
  | Ok NotReady => mret (st, Leave (Ok NotReady))
  end.

Definition stream_item_poll {It E St} `{!StreamHandler It E, !ActorStream W Task St It E}
    (fuel : nat) (i : StreamItem St) : P (StreamItem St * Poll () ()) :=
  _ ← (if item_started i then mret () else sh_started);
  '(st, r) ← turns stream_item_turn fuel (item_stream i);
  mret (mkStreamItem st true, r).

(** [StreamHandler::add_stream]. *)
Definition add_stream {St} (box : StreamItem St → Fut) (st : St) : P SpawnHandle :=
  s ← gets ctx_state;
  if bool_decide (s = AStopped) then mret default_handle else ctx_spawn (box (stream_item_new st)).
End items.
