(* ===== verification/AsyncProps.v ===== *)
(** * What the items of a context do

    The items of [AsyncContext] driven to their end, compared with straight-line
    programs; [between] is whatever else runs between two polls. *)

From S2P Require Import Prelude.
From S2P Require Import ContextImpl.
From S2P Require Import Fut.
From S2P Require Import FutProps.
From S2P Require Import AsyncContext.

Section streams.
Context {W Task Fut : Type} `{!AsyncContext W Task Fut} (between : Prog W Task ()).
Abbreviation P := (Prog W Task).

(** ** Handling a stream *)

Section handler.
Context {It E St : Type} `{!StreamHandler (W := W) (Task := Task) It E, !ActorStream W Task St It E}.

(** While the actor waits for a future no item is taken from the stream. *)
Definition pause : P () := b ← gets ctx_waiting; if b : bool then between else mret ().

Fixpoint handle_stream (fuel : nat) (st : St) : P (Result () ()) :=
  match fuel with
  | O => lift OutOfFuel
  | S n =>
      '(st, r) ← next between poll_stream fuel st;
      match r with
      | Ok (Some msg) => _ ← sh_handle msg; _ ← pause; handle_stream n st
      | Ok None => _ ← sh_finished; mret (Ok ())
      | Err e =>
          x ← sh_error e;
          match x with
          | Stop => _ ← sh_finished; mret (Ok ())
          | Continue => handle_stream n st
          end
      end
  end.

(** Its body after an answer of the stream. *)
Definition handled n (st : St) (r : Result (option It) E) : P (Result () ()) :=
  match r with
  | Ok (Some msg) => _ ← sh_handle msg; _ ← pause; handle_stream n st
  | Ok None => _ ← sh_finished; mret (Ok ())
  | Err e =>
      x ← sh_error e;
      match x with
      | Stop => _ ← sh_finished; mret (Ok ())
      | Continue => handle_stream n st
      end
  end.

Lemma handle_stream_step n st :
  handle_stream (S n) st = ('(st, r) ← next between poll_stream (S n) st; handled n st r).
Proof. done. Qed.

Abbreviation run := (run_loop between stream_item_turn).

Ltac step_prog :=
  repeat (setoid_rewrite prog_bind_assoc || setoid_rewrite prog_bind_ret_l).

Lemma run_step n st :
  run (S n) st ≡ₘ
  '(st, r) ← poll_stream st;
  match r with
  | Ok NotReady => _ ← between; run n st
  | Ok (Ready (Some msg)) => _ ← sh_handle msg; _ ← pause; run n st
  | Ok (Ready None) => _ ← sh_finished; mret (Ok ())
  | Err e =>
      x ← sh_error e;
      match x with
      | Stop => _ ← sh_finished; mret (Ok ())
      | Continue => run n st
      end
  end.
Proof.
  cbn [run_loop]. unfold stream_item_turn. rewrite prog_bind_assoc. apply prog_bind_cong. intros [s' [[[msg|]|]|e]].
  - step_prog. apply prog_bind_cong. intros _. unfold pause. step_prog.
    apply prog_bind_cong. intros [|]; by step_prog.
  - by step_prog.
  - by step_prog.
  - rewrite prog_bind_assoc. apply prog_bind_cong. intros [|]; by step_prog.
Qed.

Lemma run_below j N st :
  (j ≤ N)%nat →
  prog_le (run j st) ('(st, r) ← next between poll_stream j st; handled N st r).
Proof.
  revert N st. induction j as [|j IH]; intros N st HN; [apply prog_le_out_of_fuel |].
  assert (∀ st, prog_le (run j st) (handle_stream N st)) as Hgo.
  { intros st'. destruct N as [|N]; [lia |]. rewrite handle_stream_step.
    etrans; [apply (IH N); lia |]. apply prog_le_bind; [apply next_mono; lia |].
    intros r. apply prog_le_refl. }
  rewrite run_step, next_step. apply prog_le_bind; [apply prog_le_refl |].
  intros [s' [[[msg|]|]|e]]; cbn [handled]; try apply prog_le_refl.
  - apply prog_le_bind; [apply prog_le_refl |]. intros _.
    apply prog_le_bind; [apply prog_le_refl |]. intros _. apply Hgo.
  - apply prog_le_bind; [apply prog_le_refl |]. intros _. apply IH. lia.
  - apply prog_le_bind; [apply prog_le_refl |]. intros [|]; [apply prog_le_refl | apply Hgo].
Qed.

(** The turns of the loop that [N] rounds of [handle_stream] can take. *)
Fixpoint turns_of (N : nat) : nat := match N with O => O | S N' => N + turns_of N' end.

Lemma run_above N : ∀ j n st,
  (j + turns_of N ≤ n)%nat →
  prog_le ('(st, r) ← next between poll_stream j st; handled N st r) (run n st).
Proof.
  induction N as [|N IHN].
  all: induction j as [|j IH]; intros n st Hn; [apply prog_le_out_of_fuel |].
  all: destruct n as [|n]; [cbn [turns_of] in Hn; lia |].
  all: rewrite run_step, next_step; apply prog_le_bind; [apply prog_le_refl |].
  all: intros [s' [[[msg|]|]|e]]; cbn [handled]; try apply prog_le_refl;
    (apply prog_le_bind; [apply prog_le_refl |]).
  all: try (intros _; apply IH; cbn [turns_of] in *; lia).
  - intros _. apply prog_le_bind; [apply prog_le_refl |]. intros _. apply prog_le_out_of_fuel.
  - intros [|]; [apply prog_le_refl | apply prog_le_out_of_fuel].
  - intros _. apply prog_le_bind; [apply prog_le_refl |]. intros _. rewrite handle_stream_step.
    apply IHN. cbn [turns_of] in Hn. lia.
  - intros [|]; [apply prog_le_refl |]. rewrite handle_stream_step.
    apply IHN. cbn [turns_of] in Hn. lia.
Qed.

Lemma handle_stream_mono n1 n2 st :
  (n1 ≤ n2)%nat → prog_le (handle_stream n1 st) (handle_stream n2 st).
Proof.
  revert n2 st. induction n1 as [|n1 IH]; intros n2 st Hn; [apply prog_le_out_of_fuel |].
  destruct n2 as [|n2]; [lia |]. rewrite !handle_stream_step.
  apply prog_le_bind; [by apply next_mono |]. intros [s' r]. unfold handled. solve_prog_le.
Qed.

Lemma run_is_handle st : (fun n => run n st) ≈ₘ (fun n => handle_stream n st).
Proof.
  apply (same_returns_le _ _ (fun n => S n) (fun n => n + turns_of n)%nat).
  - intros. by apply run_loop_mono.
  - intros. by apply handle_stream_mono.
  - intros n. rewrite handle_stream_step. etrans; [apply (run_below n n); lia |].
    apply prog_le_bind; [apply next_mono; lia |]. intros r. apply prog_le_refl.
  - intros [|n]; [apply prog_le_out_of_fuel |]. rewrite handle_stream_step.
    apply run_above. cbn [turns_of]. lia.
Qed.

(** The first poll starts the handler, the other ones only run the loop. *)
Lemma item_started_drive m n st :
  block_on between (stream_item_poll m) n (mkStreamItem st true) ≡ₘ
  block_on between (turns stream_item_turn m) n st.
Proof.
  revert st. induction n as [|n IH]; intros st; [done |]. cbn [block_on]. unfold stream_item_poll.
  cbn [item_started item_stream]. rewrite prog_bind_assoc, prog_bind_ret_l, prog_bind_assoc.
  apply prog_bind_cong. intros [st' [[t|]|e]]; step_prog; try done.
  apply prog_bind_cong. intros _. apply IH.
Qed.

Lemma item_new_drive m n st :
  block_on between (stream_item_poll m) (S n) (stream_item_new st) ≡ₘ
  _ ← sh_started; block_on between (turns stream_item_turn m) (S n) st.
Proof.
  cbn [block_on]. unfold stream_item_poll, stream_item_new. cbn [item_started item_stream].
  rewrite prog_bind_assoc. apply prog_bind_cong. intros []. rewrite prog_bind_assoc.
  apply prog_bind_cong. intros [st' [[t|]|e]]; step_prog; try done.
  apply prog_bind_cong. intros _. apply item_started_drive.
Qed.

Lemma stream_item_is_handle st :
  (fun n => block_on between (stream_item_poll n) n (stream_item_new st)) ≈ₘ
  (fun n => _ ← sh_started; handle_stream n st).
Proof.
  assert ((fun n => block_on between (stream_item_poll n) n (stream_item_new st)) ≈ₘ
    (fun n => _ ← sh_started; block_on between (turns stream_item_turn n) n st)) as ->.
  { apply (same_returns_le _ _ S S).
    - intros n1 n2 Hn. destruct n1 as [|n1]; [apply prog_le_out_of_fuel |].
      destruct n2 as [|n2]; [lia |]. rewrite !item_new_drive.
      apply prog_le_bind; [apply prog_le_refl |]. intros _. by apply drive_loop_mono.
    - intros n1 n2 Hn. apply prog_le_bind; [apply prog_le_refl |]. intros _.
      by apply drive_loop_mono.
    - intros [|n]; [apply prog_le_out_of_fuel |]. rewrite item_new_drive.
      apply prog_le_bind; [apply prog_le_refl |]. intros _. apply drive_loop_mono; lia.
    - intros n. rewrite item_new_drive.
      apply prog_le_bind; [apply prog_le_refl |]. intros _. apply drive_loop_mono; lia. }
  apply same_returns_bind; intros; [by apply drive_loop_mono | by apply handle_stream_mono |].
  etrans; [apply loop_is_run | apply run_is_handle].
Qed.
End handler.

(** A message stream is a stream whose handler ignores the errors and the end. *)
Definition ignoring_errors {M E} (handle_msg : M → P ()) : StreamHandler (W := W) M E := {|
  sh_handle := handle_msg;
  sh_started := mret ();
  sh_error _ := mret Continue;
  sh_finished := mret ()
|}.

Lemma message_turn {M E St} `{!ActorStream W Task St M E} (handle_msg : M → P ()) (st : St) :
  message_stream_turn handle_msg st ≡ₘ
  stream_item_turn (StreamHandler0 := ignoring_errors handle_msg) st.
Proof.
  unfold message_stream_turn, stream_item_turn. apply prog_bind_cong.
  intros [st' [[[msg|]|]|e]]; cbn [sh_handle sh_error sh_finished ignoring_errors];
    by rewrite ?prog_bind_ret_l.
Qed.

Lemma run_loop_cong {X T E} (body1 body2 : X → P (X * Turn (Poll T E))) n x :
  (∀ x, body1 x ≡ₘ body2 x) → run_loop between body1 n x ≡ₘ run_loop between body2 n x.
Proof.
  intros Hb. revert x. induction n as [|n IH]; intros x; [done |]. cbn [run_loop].
  rewrite (Hb x). apply prog_bind_cong. intros [x' [|[[t|]|e]]]; try done.
  apply prog_bind_cong. intros _. apply IH.
Qed.

Lemma message_stream_is_handle {M E St} `{!ActorStream W Task St M E} (handle_msg : M → P ())
    (st : St) :
  (fun n => block_on between (message_stream_poll handle_msg n) n st) ≈ₘ
  (fun n => handle_stream (StreamHandler0 := ignoring_errors handle_msg) n st).
Proof.
  etrans; [apply loop_is_run |]. etrans; [| apply run_is_handle].
  apply same_returns_eq. intros n. apply run_loop_cong, message_turn.
Qed.

(** C28: a stream is handled in order and completely.  Driven to its end, the
    item of [add_stream] calls [started], then for one item after the other the
    handler, pausing while the context waits; an error goes to [error], and
    [finished] is called once, at the end of the stream or at the error that
    stops it.  The item of [add_message_stream] does the same with the messages
    and ignores the errors of the stream and its end.  No item is lost, taken
    twice or taken early, whatever the handlers and the rest of the program do. *)
Theorem streams_handled_in_order {It E St} `{H : !StreamHandler It E,
    HS : !ActorStream W Task St It E} (handle_msg : It → P ()) (st : St) :
  ((fun n => block_on between (stream_item_poll n) n (stream_item_new st)) ≈ₘ
   (fun n => _ ← sh_started; handle_stream n st)) ∧
  ((fun n => block_on between (message_stream_poll handle_msg n) n st) ≈ₘ
   (fun n => handle_stream (StreamHandler0 := ignoring_errors handle_msg) n st)).
Proof. split; [apply stream_item_is_handle | apply message_stream_is_handle]. Qed.
End streams.
