(* ===== verification/Handler.v ===== *)
(** * Handling a message and responding to it: [src/handler.rs]

    A handler's result is turned into a response for the sender of the message:
    a value is sent at once, a future is spawned and its result is sent when it
    resolves.  The sending halves of the oneshot channels are instances of
    [ResponseChannel]; their types belong to the futures crate.  Futures that do
    not need the actor run on the event loop, which is not modelled: [loop_spawn]
    takes the future and the closure that [then] puts behind it. *)

From S2P Require Import Prelude.
From S2P Require Import Envelope.
From S2P Require Import ContextImpl.
From S2P Require Import Fut.
From S2P Require Import FutProps.
From S2P Require Import AsyncContext.

Section responses.
Context {W Task Fut : Type} `{!AsyncContext W Task Fut}.
Abbreviation P := (Prog W Task).

(** ** Channels and responses *)

Class ResponseChannel (R Res : Type) : Type := {
  rc_is_canceled : R → W → bool;
  rc_send : R → Res → P ()
}.

(** [impl ResponseChannel for ()], used for messages nobody waits for. *)
#[export] Instance no_channel {Res} : ResponseChannel () Res := {|
  rc_is_canceled _ _ := true;
  rc_send _ _ := mret ()
|}.

(** The responses that are values: [MessageResult], [Result], an address and the
    simple types. *)
Definition respond_value `{!ResponseChannel R Res} (res : Res) (tx : option R) : P () :=
  match tx with Some tx => rc_send tx res | None => mret () end.

(** [ResponseActFuture]: the future that is spawned, and its spawning. *)
Definition response_future {R I' E F} `{!ResponseChannel R (Result I' E)} (fut : F) (tx : option R)
  : Then F I' E (FutureResult () ()) :=
  then_new fut (fun res => _ ← respond_value res tx; mret (ok ())).

Definition respond_act_future {R I' E F} `{!ResponseChannel R (Result I' E)}
    (box : Then F I' E (FutureResult () ()) → Fut) (fut : F) (tx : option R) : P () :=
  _ ← ctx_spawn (box (response_future fut tx)); mret ().

(** [ResponseFuture]: the same on the event loop. *)
Definition respond_future {R I' E F} `{!ResponseChannel R (Result I' E)}
    (loop_spawn : F → (Result I' E → P ()) → P ()) (fut : F) (tx : option R) : P () :=
  loop_spawn fut (fun res => respond_value res tx).

(** [Response] and [ActorResponse]: a value or a future, decided at run time. *)
Inductive ResponseItem (I' E F : Type) : Type :=
| ItemResult (r : Result I' E)
| ItemFut (f : F).
#[global] Arguments ItemResult {I' E F}.
#[global] Arguments ItemFut {I' E F}.

Definition response_async {I' E F} (f : F) : ResponseItem I' E F := ItemFut f.
Definition response_reply {I' E F} (r : Result I' E) : ResponseItem I' E F := ItemResult r.

Definition respond_response {R I' E F} `{!ResponseChannel R (Result I' E)}
    (loop_spawn : F → (Result I' E → P ()) → P ()) (item : ResponseItem I' E F) (tx : option R)
  : P () :=
  match item with
  | ItemFut fut => respond_future loop_spawn fut tx
  | ItemResult res => respond_value res tx
  end.

Definition respond_actor_response {R I' E F} `{!ResponseChannel R (Result I' E)}
    (box : Then F I' E (FutureResult () ()) → Fut) (item : ResponseItem I' E F) (tx : option R)
  : P () :=
  match item with
  | ItemFut fut => respond_act_future box fut tx
  | ItemResult res => respond_value res tx
  end.

(** ** Opening an envelope *)

(** [handle] of the envelope of a message whose response is of the type [Resp]. *)
Definition open_envelope {M R Res Resp} `{!ResponseChannel R Res} (handler : M → P Resp)
    (respond : Resp → option R → P ()) (e : Envelope M R) : P (Envelope M R) :=
  Envelope.handle rc_is_canceled handler respond e.

(** ** What they do *)

Context (between : P ()).

Lemma block_on_ok n :
  block_on between (poll_fut (F := FutureResult () ())) (S n) (ok ()) ≡ₘ mret (Ok ()).
Proof. done. Qed.

Lemma response_future_runs {R I' E F} `{!ResponseChannel R (Result I' E), !ActorFuture W Task F I' E}
    (fut : F) (tx : option R) :
  (fun n => block_on between then_poll n (response_future fut tx)) ≈ₘ
  (fun n => r ← block_on between poll_fut n fut; _ ← respond_value r tx; mret (Ok ())).
Proof.
  etrans; [apply then_is_bind |]. apply (same_returns_le _ _ (fun n => n) S).
  - intros n1 n2 Hn. apply prog_le_bind; [by apply block_on_mono |]. intros r.
    apply prog_le_bind; [apply prog_le_refl |]. intros b. by apply block_on_mono.
  - intros n1 n2 Hn. apply prog_le_bind; [by apply block_on_mono |]. intros r. apply prog_le_refl.
  - intros n. apply prog_le_bind; [apply prog_le_refl |]. intros r. rewrite prog_bind_assoc.
    apply prog_le_bind; [apply prog_le_refl |]. intros []. rewrite prog_bind_ret_l.
    destruct n as [|n]; [apply prog_le_out_of_fuel |]. by rewrite (block_on_ok n).
  - intros n. apply prog_le_bind; [apply block_on_mono; lia |]. intros r. rewrite prog_bind_assoc.
    apply prog_le_bind; [apply prog_le_refl |]. intros []. rewrite prog_bind_ret_l.
    by rewrite (block_on_ok n).
Qed.

(** a message is handled once and answered once.  Opening its envelope runs
    the handler and sends its value to the sender of the message, or, if that
    has stopped waiting, does not run the handler at all; an envelope that was
    opened is spent.  A handler that answers with a future answers with the
    result of the future when it has run to its end. *)
Theorem message_answered_once {M R I' E F} `{!ResponseChannel R (Result I' E),
    !ActorFuture W Task F I' E} (handler : M → P (Result I' E)) (m : M) (tx : R) (fut : F) :
  (∀ w, open_envelope handler respond_value (pack m (Some tx)) w =
     if rc_is_canceled tx w then Return (mkEnvelope (Some m) None, w, [])
     else (r ← handler m; _ ← rc_send tx r; mret (mkEnvelope None None)) w) ∧
  open_envelope handler respond_value (mkEnvelope None None) ≡ₘ mret (mkEnvelope None None) ∧
  ((fun n => block_on between then_poll n (response_future fut (Some tx))) ≈ₘ
   (fun n => r ← block_on between poll_fut n fut; _ ← rc_send tx r; mret (Ok ()))).
Proof.
  split; [| split].
  - intros w. unfold open_envelope, Envelope.handle. rewrite prog_bind_gets. simpl.
    by destruct (rc_is_canceled tx w).
  - by unfold open_envelope, Envelope.handle; intros w.
  - exact (response_future_runs fut (Some tx)).
Qed.
End responses.
