(* ===== verification/SyncArbiter.v ===== *)
(** * Sync actors: [src/sync.rs]

    [SyncArbiter] moves the messages of its mailbox into a queue that several
    worker threads read; each worker owns an actor of its own ([SyncContext]).
    The queue is a channel of the crossbeam crate: any [Mpmc].  A worker waits in
    [recv]; [worker_step] interleaves the workers, one message at a time, with one
    another (they share the queue and [env], whatever else the actors reach). *)

From S2P Require Import Prelude.
From S2P Require Import Queue.
From S2P Require Import Envelope.
From S2P Require Import SyncChannel.
From S2P Require Import SyncChannelSpec.
From S2P Require Import ContextImpl.

(** An unbounded multi-consumer channel: [mc_send] fails when no receiver is
    left, [mc_recv] has nothing to return when the channel is empty.  [mc_holds]
    says which values a channel with a receiver left holds. *)
Class Mpmc (C : Type → Type) : Type := {
  mc_send {T} : T → C T → option (C T);
  mc_recv {T} : C T → option (T * C T);
  mc_holds {T} : C T → list T → Prop;
  mc_send_holds {T} (c : C T) l x :
    mc_holds c l → ∃ c', mc_send x c = Some c' ∧ mc_holds c' (l ++ [x]);
  mc_recv_cons {T} (c : C T) x l :
    mc_holds c (x :: l) → ∃ c', mc_recv c = Some (x, c') ∧ mc_holds c' l;
  mc_recv_nil {T} (c : C T) : mc_holds c [] → mc_recv c = None
}.

Inductive SyncContextProtocol (Env : Type) : Type :=
| StopWorker
| Deliver (e : Env).
Arguments StopWorker {Env}.
Arguments Deliver {Env} e.

(** ** The arbiter *)

Section arbiter.
Context {M Tx Task : Type} {Q C : Type → Type} `{!MpscQueue Q, !Mpmc C}.
Abbreviation Env := (Envelope M Tx).
Abbreviation Inner := (@Inner M Tx Task Q).
Abbreviation Protocol := (SyncContextProtocol Env).

Record SyncArbiter : Type := mkArbiter {
  queue : C Protocol;
  msgs : Inner;
  threads : nat
}.
Abbreviation P := (Prog SyncArbiter Task).

(** [SyncArbiter::start]: the arbiter that is spawned, and the first sender. *)
Definition arbiter_start (threads : nat) (queue : C Protocol) : Exec (SyncAddressSender * SyncArbiter) :=
  '(tx, rx) ← SyncChannel.channel 0; Return (tx, mkArbiter queue rx threads).

(** Methods of the receiver and of the queue. *)
Definition on_msgs {X} (m : Prog Inner Task X) : P X := fun a =>
  '(x, i, w) ← m (msgs a); Return (x, mkArbiter (queue a) i (threads a), w).
Definition send_worker (p : Protocol) : P bool := fun a =>
  match mc_send p (queue a) with
  | Some q => Return (true, mkArbiter q (msgs a) (threads a), [])
  | None => Return (false, a, [])
  end.

(** The loop of [poll]. *)
Definition arbiter_turn (fuel : nat) (current : Task) (u : ()) : P (() * Turn ()) :=
  r ← on_msgs (SyncChannel.poll fuel current);
  match r with
  | Ok (Ready (Some msg)) =>
      b ← send_worker (Deliver msg);
      if b : bool then mret ((), NextTurn) else lift (Panic "Should not fail")
  | Ok NotReady => mret ((), Leave ())
  | Ok (Ready None) | Err _ => lift (Panic "internal error: entered unreachable code")
  end.
Definition arbiter_drain (fuel : nat) (current : Task) : P () :=
  _ ← turns (arbiter_turn fuel current) fuel (); mret ().

(** What follows the loop. *)
Fixpoint stop_workers (n : nat) : P () :=
  match n with O => mret () | S n => _ ← send_worker StopWorker; stop_workers n end.
Definition arbiter_finish : P (Poll () ()) :=
  c ← on_msgs SyncChannel.recv_connected;
  if c : bool then mret (Ok NotReady)
  else n ← gets threads; _ ← stop_workers n; mret (Ok (Ready ())).

(** [SyncArbiter::poll]. *)
Definition arbiter_poll (fuel : nat) (current : Task) : P (Poll () ()) :=
  _ ← arbiter_drain fuel current; arbiter_finish.
End arbiter.

(** ** The workers *)

Section worker.
Context {A Env V Task : Type}.
Abbreviation Protocol := (SyncContextProtocol Env).

(** [SyncContext], without the queue and the factory, which do not change. *)
Record SyncContext : Type := mkSyncContext {
  sc_act : A;
  sc_stopping : bool;
  sc_state : ActorState
}.
Record SyncWorld : Type := mkSyncWorld { sc : SyncContext; sc_env : V }.
Abbreviation P := (Prog SyncWorld Task).

Definition set_sc (f : SyncContext → SyncContext) : P () :=
  modify (fun w => mkSyncWorld (f (sc w)) (sc_env w)).
Definition set_sc_state (s : ActorState) : P () :=
  set_sc (fun c => mkSyncContext (sc_act c) (sc_stopping c) s).

(** [ActorContext for SyncContext]. *)
Definition sync_stop : P () := set_sc (fun c => mkSyncContext (sc_act c) true AStopping).
Definition sync_terminate : P () := set_sc (fun c => mkSyncContext (sc_act c) true AStopping).
Definition sync_state : P ActorState := gets (fun w => sc_state (sc w)).

(** The actor's code and the factory. *)
Class SyncActor : Type := {
  sync_started : P ();
  sync_stopping : P Running;
  sync_stopped : P ();
  sync_handle : Env → P ();
  factory : P A
}.
Context `{!SyncActor}.

(** The part of [run] that replaces an actor that was stopped. *)
Definition replace_actor : P () :=
  c ← gets sc;
  if sc_stopping c then
    _ ← set_sc (fun c => mkSyncContext (sc_act c) false (sc_state c));
    _ ← sync_stopping;
    _ ← set_sc_state AStopped;
    _ ← sync_stopped;
    _ ← set_sc_state AStarted;
    a ← factory;
    _ ← set_sc (fun c => mkSyncContext a (sc_stopping c) (sc_state c));
    _ ← sync_started;
    set_sc_state ARunning
  else mret ().

(** One iteration of the loop of [run] with what [recv] returned ([None]: an
    error); [Leave]: [run] returns and the thread ends. *)
Definition run_turn (msg : option Protocol) : P (Turn ()) :=
  match msg with
  | Some StopWorker =>
      _ ← set_sc_state AStopping;
      _ ← sync_stopping;
      _ ← set_sc_state AStopped;
      _ ← sync_stopped;
      mret (Leave ())
  | Some (Deliver e) => _ ← sync_handle e; _ ← replace_actor; mret NextTurn
  | None => _ ← replace_actor; mret NextTurn
  end.

(** What [run] does before its loop. *)
Definition run_start : P () := _ ← sync_started; set_sc_state ARunning.

(** [SyncContext::new]. *)
Definition sync_context_new (a : A) : SyncContext := mkSyncContext a false AStarted.

(** [run] once every sender of the queue is gone: [recv] returns an error. *)
Definition run_disconnected (fuel : nat) : P () :=
  _ ← turns (fun _ : () => t ← run_turn None; mret ((), t)) fuel (); mret ().

(** *** The worker threads *)

Context {C : Type → Type} `{!Mpmc C}.

(** The queue, what the actors share, the workers ([None]: the thread ended),
    and two logs: who took what, and whose thread died of a panic. *)
Record Workers : Type := mkWorkers {
  backlog : C Protocol;
  shared : V;
  crew : list (option SyncContext);
  taken : list (nat * Protocol);
  panicked : list nat
}.

(** Worker [k] takes the next entry of the queue.  A handler that panics ends
    its thread, and may have done anything to what it shares before. *)
Inductive worker_step (s : Workers) : Workers → Prop :=
| worker_turn k c p q t c' env w :
    crew s !! k = Some (Some c) → mc_recv (backlog s) = Some (p, q) →
    run_turn (Some p) (mkSyncWorld c (shared s)) = Return (t, mkSyncWorld c' env, w) →
    worker_step s (mkWorkers q env
      (<[k := match t with NextTurn => Some c' | Leave _ => None end]> (crew s))
      (taken s ++ [(k, p)]) (panicked s))
| worker_panic k c p q msg env :
    crew s !! k = Some (Some c) → mc_recv (backlog s) = Some (p, q) →
    run_turn (Some p) (mkSyncWorld c (shared s)) = Panic msg →
    worker_step s (mkWorkers q env (<[k := None]> (crew s)) (taken s ++ [(k, p)])
                     (panicked s ++ [k])).
End worker.
