(* ===== verification/SyncProps.v ===== *)
(** * What sync actors promise

    The arbiter forwards everything that was sent, in order, before it stops
    the workers; however the workers' threads are scheduled, each message is
    taken by one worker and each worker finishes.  [taken] is a log of the step
    relation; that the handlers of the messages in it ran is said by a [Diary]: a
    part of what the actors share to which handling a message appends the message
    and nothing else appends anything. *)

From S2P Require Import Prelude.
From S2P Require Import Queue.
From S2P Require Import Envelope.
From S2P Require Import SyncChannel.
From S2P Require Import SyncChannelSpec.
From S2P Require Import ContextImpl.
From S2P Require Import SyncArbiter.

(** ** The arbiter *)

Section arbiter.
Context {M Tx Rx Task : Type} {Q C : Type → Type} `{!MpscQueue Q, !Mpmc C}.
Abbreviation Env := (Envelope M Tx).
Abbreviation Protocol := (SyncContextProtocol Env).
Abbreviation Arbiter := (@SyncArbiter M Tx Task Q C).
Implicit Types (a : Arbiter) (ch : AChan M Tx Task).

(** [arb a ch l]: the receiver of [a] represents the open channel [ch], and its
    queue holds [l]. *)
Record arb a ch (l : list Protocol) : Prop := mkArb {
  arb_msgs : R (msgs a) ch;
  arb_open : a_open ch = true;
  arb_queue : mc_holds (queue a) l
}.

Lemma send_worker_spec a ch l p :
  arb a ch l → ∃ a', send_worker p a = Return (true, a', []) ∧ arb a' ch (l ++ [p]) ∧
                     threads a' = threads a.
Proof.
  intros [HR Ho Hl]. destruct (mc_send_holds _ _ p Hl) as (q & Hq & Hh).
  unfold send_worker. rewrite Hq. eexists. by split_and!.
Qed.

Lemma a_unpark_keeps n ch :
  a_messages (a_unpark n ch).1 = a_messages ch ∧ a_open (a_unpark n ch).1 = a_open ch ∧
  a_senders (a_unpark n ch).1 = a_senders ch.
Proof. unfold a_unpark. by destruct (wake_cells _ _). Qed.

Lemma on_poll_spec current a ch l :
  arb a ch l →
  ∃ r a' ch' w, spec_poll current ch = (r, ch', w) ∧ arb a' ch' l ∧
    threads a' = threads a ∧ a_senders ch' = a_senders ch ∧
    ∀ fuel, (2 ≤ fuel)%nat → on_msgs (SyncChannel.poll fuel current) a = Return (r, a', w).
Proof.
  intros [HR Ho Hl]. pose proof (poll_refines current _ _ HR Ho) as Hp.
  destruct (spec_poll current ch) as [[r ch'] w] eqn:Hs. destruct Hp as (i & HR' & Hi).
  exists r, (mkArbiter (queue a) i (threads a)), ch', w.
  assert (a_open ch' = true ∧ a_senders ch' = a_senders ch) as [Ho' Hn].
  { revert Hs. unfold spec_poll. destruct (a_messages ch) as [|e ms].
    - by intros [= <- <- <-].
    - destruct (a_unpark_keeps 1 ch) as (_ & Ho1 & Hn1).
      destruct (a_unpark 1 ch) as [c1 w1]. intros [= <- <- <-]. simpl in *. by rewrite Ho1. }
  split_and!; [done..|].
  intros fuel Hf. unfold on_msgs. rewrite (Hi fuel Hf). done.
Qed.

(** One turn of the loop of [poll]: a message is forwarded, or there is none and
    the loop is left. *)
Lemma arbiter_turn_spec current a ch l :
  arb a ch l →
  let ch' := (spec_poll current ch).1.2 in
  ∃ a' w, threads a' = threads a ∧ a_senders ch' = a_senders ch ∧
    (∀ fuel, (2 ≤ fuel)%nat → arbiter_turn fuel current () a =
       Return ((), match a_messages ch with [] => Leave () | _ => NextTurn end, a', w)) ∧
    a_messages ch' = tl (a_messages ch) ∧
    arb a' ch' (l ++ match a_messages ch with [] => [] | e :: _ => [Deliver e] end).
Proof.
  intros Ha ch'. destruct (on_poll_spec current _ _ _ Ha) as (r & a1 & c1 & w1 & Hs & Ha1 & Ht & Hn & Hp).
  unfold ch'. rewrite Hs. simpl. unfold spec_poll in Hs. destruct (a_messages ch) as [|e ms].
  - injection Hs as <- <- <-. exists a1, []. rewrite app_nil_r. split_and!; [done.. | | done | done].
    intros fuel Hf. unfold arbiter_turn. by rewrite (prog_bind_Return _ _ _ _ _ _ (Hp fuel Hf)).
  - destruct (a_unpark 1 ch). injection Hs as <- <- <-.
    destruct (send_worker_spec _ _ _ (Deliver e) Ha1) as (a2 & Hw & Ha2 & Ht2).
    eexists a2, _. split_and!; [congruence | done | | done | done].
    intros fuel Hf. unfold arbiter_turn. rewrite (prog_bind_Return _ _ _ _ _ _ (Hp fuel Hf)). simpl.
    rewrite (prog_bind_Return _ _ _ _ _ _ Hw). simpl. by rewrite app_nil_r.
Qed.

Lemma spec_poll_parks current ch :
  a_messages ch = [] → a_recv (spec_poll current ch).1.2 = mkReceiverTask false (Some current).
Proof. unfold spec_poll. by intros ->. Qed.

Lemma arbiter_turns current a ch l :
  arb a ch l →
  ∃ a' ch' w, arb a' ch' (l ++ map Deliver (a_messages ch)) ∧
    a_messages ch' = [] ∧ a_senders ch' = a_senders ch ∧ threads a' = threads a ∧
    a_recv ch' = mkReceiverTask false (Some current) ∧
    ∀ fuel n, (2 ≤ fuel)%nat → (length (a_messages ch) < n)%nat →
      turns (arbiter_turn fuel current) n () a = Return ((), (), a', w).
Proof.
  remember (a_messages ch) as ms eqn:Hms. revert a ch l Hms.
  induction ms as [|e ms IH]; intros a ch l Hms Ha;
    destruct (arbiter_turn_spec current _ _ _ Ha) as (a1 & w1 & Ht & Hn & Hturn & Hm & Ha1);
    rewrite <- Hms in *.
  - exists a1, (spec_poll current ch).1.2, w1. split_and!; [done.. | by apply spec_poll_parks |].
    intros fuel [|n] Hf Hlen; simpl in Hlen; [lia |]. cbn [turns].
    by rewrite (prog_bind_Return _ _ _ _ _ _ (Hturn fuel Hf)); simpl; rewrite app_nil_r.
  - destruct (IH a1 _ _ (eq_sym Hm) Ha1) as (a3 & c3 & w3 & Ha3 & Hm3 & Hn3 & Ht3 & Hr3 & Hrun).
    rewrite <- app_assoc in Ha3.
    eexists a3, c3, _. split_and!; [done | done | congruence | congruence | done |].
    intros fuel [|n] Hf Hlen; simpl in Hlen; [lia |]. cbn [turns].
    rewrite (prog_bind_Return _ _ _ _ _ _ (Hturn fuel Hf)). by rewrite (Hrun fuel n Hf ltac:(lia)).
Qed.

(** [drain]: what was queued is forwarded, and the arbiter waits to be woken. *)
Lemma arbiter_drain_spec current a ch l :
  arb a ch l →
  ∃ a' ch' w, arb a' ch' (l ++ map Deliver (a_messages ch)) ∧
    a_messages ch' = [] ∧ a_senders ch' = a_senders ch ∧ threads a' = threads a ∧
    a_recv ch' = mkReceiverTask false (Some current) ∧
    ∀ fuel, (length (a_messages ch) + 2 ≤ fuel)%nat →
      arbiter_drain fuel current a = Return ((), a', w).
Proof.
  intros Ha. destruct (arbiter_turns current _ _ _ Ha)
    as (a' & ch' & w & Ha' & Hm & Hn & Ht & Hr & Hrun).
  exists a', ch', w. split_and!; [done..|]. intros fuel Hf. unfold arbiter_drain.
  unfold mbind, prog_bind. rewrite (Hrun fuel fuel) by lia. simpl. by rewrite app_nil_r.
Qed.

Lemma stop_workers_spec n a ch l :
  arb a ch l →
  ∃ a', stop_workers n a = Return ((), a', []) ∧ arb a' ch (l ++ replicate n StopWorker) ∧
        threads a' = threads a.
Proof.
  revert a l. induction n as [|n IH]; intros a l Ha; simpl.
  - exists a. by rewrite app_nil_r.
  - destruct (send_worker_spec _ _ _ StopWorker Ha) as (a1 & Hs & Ha1 & Ht1).
    destruct (IH _ _ Ha1) as (a2 & Hs2 & Ha2 & Ht2). exists a2.
    rewrite (prog_bind_Return _ _ _ _ _ _ Hs), Hs2. rewrite <- app_assoc in Ha2.
    split_and!; [done | done | congruence].
Qed.

(** What follows the loop: while a sender is left, wait; then stop the workers. *)
Lemma arbiter_finish_spec a ch l :
  arb a ch l →
  let last := a_senders ch =? 0 in
  ∃ a', arbiter_finish a = Return (if last then Ok (Ready ()) else Ok NotReady, a', []) ∧
        arb a' ch (l ++ if last then replicate (threads a) StopWorker else []) ∧
        threads a' = threads a.
Proof.
  intros Ha. unfold arbiter_finish, mbind, prog_bind, on_msgs; simpl.
  rewrite (R_senders _ _ (arb_msgs _ _ _ Ha)). destruct (a_senders ch =? 0); simpl.
  - replace (mkArbiter (queue a) (msgs a) (threads a)) with a by by destruct a.
    destruct (stop_workers_spec (threads a) _ _ _ Ha) as (a' & Hs & Ha' & Ht).
    exists a'. by rewrite Hs.
  - replace (mkArbiter (queue a) (msgs a) (threads a)) with a by by destruct a.
    exists a. by rewrite app_nil_r.
Qed.

(** Run on its own, [poll] forwards every queued envelope, in order, and
    registers the arbiter's task; it completes exactly when no sender is left,
    after asking each worker to stop. *)
Theorem sync_arbiter_forwards current a ch l :
  arb a ch l →
  let last := a_senders ch =? 0 in
  ∃ a' ch' w,
    (fun fuel => arbiter_poll fuel current a) ⇓
      (if last then Ok (Ready ()) else Ok NotReady, a', w) ∧
    arb a' ch' (l ++ map Deliver (a_messages ch) ++
                if last then replicate (threads a) StopWorker else []) ∧
    a_messages ch' = [] ∧ a_recv ch' = mkReceiverTask false (Some current).
Proof.
  intros Ha last. destruct (arbiter_drain_spec current _ _ _ Ha)
    as (a1 & ch1 & w & Ha1 & Hm & Hn & Ht & Hr & Hd).
  destruct (arbiter_finish_spec _ _ _ Ha1) as (a2 & Hf & Ha2 & _).
  rewrite Hn, Ht, <- app_assoc in *.
  exists a2, ch1, w. split_and!; [| done..]. exists (length (a_messages ch) + 2)%nat.
  intros fuel Hl. unfold arbiter_poll. rewrite (prog_bind_Return _ _ _ _ _ _ (Hd fuel Hl)).
  rewrite Hf. simpl. by rewrite app_nil_r.
Qed.

(** C31: But [poll] is not atomic: between its loop and its test of [connected],
    another thread may send a message and drop the last sender. *)
Theorem sync_arbiter_loses_message current a ch l m :
  arb a ch l → a_senders ch = 1 →
  ∃ a' w,
    (fun fuel => (_ ← arbiter_drain fuel current;
                  r ← on_msgs (do_send m);
                  _ ← on_msgs sender_drop;
                  p ← arbiter_finish; mret (r, p)) a) ⇓ ((Ok (), Ok (Ready ())), a', w) ∧
    mc_holds (queue a') (l ++ map Deliver (a_messages ch) ++ replicate (threads a) StopWorker) ∧
    q_repr (message_queue (msgs a')) [pack m None].
Proof.
  intros Ha Hs. destruct (arbiter_drain_spec current _ _ _ Ha)
    as (a1 & ch1 & w & Ha1 & Hm & Hn & Ht & Hr & Hd).
  pose proof (do_send_refines m _ _ (arb_msgs _ _ _ Ha1)) as Hsend.
  unfold countable, spec_do_send in Hsend. rewrite Hm, (arb_open _ _ _ Ha1) in Hsend.
  destruct Hsend as (i2 & Hs2 & HR2); [by rewrite MAX_CAPACITY_value |].
  pose proof (sender_drop_refines _ _ HR2) as Hdrop. unfold spec_sender_drop in Hdrop.
  simpl in Hdrop. rewrite Hn, Hs in Hdrop. simpl in Hdrop.
  destruct Hdrop as (i3 & Hs3 & HR3); [by split |].
  pose proof (mkArb (mkArbiter (queue a1) i3 (threads a1)) _ _ HR3
    (arb_open _ _ _ Ha1) (arb_queue _ _ _ Ha1)) as Ha3.
  destruct (arbiter_finish_spec _ _ _ Ha3) as (a4 & Hf & Ha4 & _).
  simpl in Hf, Ha4. rewrite Hm, Ht, <- app_assoc in Ha4.
  eexists a4, _. split_and!; [| apply Ha4 | exact (R_messages _ _ (arb_msgs _ _ _ Ha4))].
  exists (length (a_messages ch) + 2)%nat.
  intros fuel Hl. rewrite (prog_bind_Return _ _ _ _ _ _ (Hd fuel Hl)).
  unfold mbind, prog_bind, on_msgs. rewrite Hs2. simpl. rewrite Hs3. simpl. rewrite Hf. done.
Qed.
End arbiter.

(** ** The workers *)

Section workers.
Context {A Env V Task : Type} `{!SyncActor (A := A) (Env := Env) (V := V) (Task := Task)}.
Context {C : Type → Type} `{!Mpmc C}.
Abbreviation Protocol := (SyncContextProtocol Env).
Abbreviation Workers := (@Workers A Env V C).
Implicit Types (s : Workers) (l : list Protocol).

Definition ended (o : option (@SyncContext A)) : bool :=
  match o with Some _ => false | None => true end.
Definition is_stop (p : Protocol) : bool :=
  match p with StopWorker => true | Deliver _ => false end.

(** How many workers have ended, and how many were asked to. *)
Definition num_ended (cr : list (option (@SyncContext A))) : nat := length (filter ended cr).
Definition num_stops (l : list Protocol) : nat := length (filter is_stop l).

Lemma num_ended_insert cr k c o :
  cr !! k = Some (Some c) →
  num_ended (<[k := o]> cr) = (num_ended cr + if ended o then 1 else 0)%nat.
Proof.
  unfold num_ended. revert k. induction cr as [|x cr IH]; intros [|k] Hk; simplify_eq/=.
  - destruct o; rewrite !filter_cons; simpl; lia.
  - rewrite !filter_cons. specialize (IH k Hk). destruct (decide (ended x)); simpl; lia.
Qed.

Lemma num_ended_all cr : num_ended cr = length cr → Forall (fun o => ended o) cr.
Proof.
  unfold num_ended. induction cr as [|x cr IH]; intros H; [done |]. rewrite filter_cons in H.
  destruct (decide (ended x)); simpl in H; [constructor; auto |].
  pose proof (length_filter ended cr). lia.
Qed.

Lemma num_stops_app l1 l2 : num_stops (l1 ++ l2) = (num_stops l1 + num_stops l2)%nat.
Proof. unfold num_stops. by rewrite filter_app, length_app. Qed.

Lemma run_turn_stop w t w' n : run_turn (Some StopWorker) w = Return (t, w', n) → t = Leave ().
Proof.
  cbn [run_turn]. intros H. repeat (apply prog_bind_Return_inv in H as (? & ? & ? & ? & ? & H & _)).
  by injection H.
Qed.

Lemma run_turn_deliver e w t w' n : run_turn (Some (Deliver e)) w = Return (t, w', n) → t = NextTurn.
Proof.
  cbn [run_turn]. intros H. repeat (apply prog_bind_Return_inv in H as (? & ? & ? & ? & ? & H & _)).
  by injection H.
Qed.

(** *** What the handlers did *)

(** The actors keep a diary in what they share: a handler that returns has entered
    its message, and nothing else in the actor's code writes there. *)
Record Diary (diary : V → list Env) : Prop := mkDiary {
  diary_handle e w w' n :
    sync_handle e w = Return ((), w', n) → diary (sc_env w') = diary (sc_env w) ++ [e];
  diary_started w w' n : sync_started w = Return ((), w', n) → diary (sc_env w') = diary (sc_env w);
  diary_stopping w r w' n : sync_stopping w = Return (r, w', n) → diary (sc_env w') = diary (sc_env w);
  diary_stopped w w' n : sync_stopped w = Return ((), w', n) → diary (sc_env w') = diary (sc_env w);
  diary_factory w a w' n : factory w = Return (a, w', n) → diary (sc_env w') = diary (sc_env w)
}.

(** The messages among the entries of the queue. *)
Definition messages (l : list Protocol) : list Env :=
  omap (fun p => match p with Deliver e => Some e | StopWorker => None end) l.

Lemma messages_app l1 l2 : messages (l1 ++ l2) = messages l1 ++ messages l2.
Proof. apply omap_app. Qed.
Lemma messages_work (es : list Env) n : messages (map Deliver es ++ replicate n StopWorker) = es.
Proof.
  rewrite messages_app. replace (messages (replicate n StopWorker)) with (@nil Env) by by induction n.
  rewrite app_nil_r. induction es as [|e es IH]; [done |].
  change (e :: messages (map Deliver es) = e :: es). by rewrite IH.
Qed.

Lemma set_sc_env f (w : @SyncWorld A V) (u : ()) w' n : set_sc (Task := Task) f w = Return (u, w', n) → sc_env w' = sc_env w.
Proof. by intros [= _ <- _]. Qed.

Lemma replace_actor_diary diary w u w' n :
  Diary diary → replace_actor w = Return (u, w', n) → diary (sc_env w') = diary (sc_env w).
Proof.
  intros D H. unfold replace_actor in H.
  apply prog_bind_Return_inv in H as (c & w1 & ? & ? & [= <- <- _] & H & _).
  destruct (sc_stopping _); [| by injection H as _ <- _].
  apply prog_bind_Return_inv in H as (? & w2 & ? & ? & H1%set_sc_env & H & _).
  apply prog_bind_Return_inv in H as (? & w3 & ? & ? & H2%(diary_stopping _ D) & H & _).
  apply prog_bind_Return_inv in H as (? & w4 & ? & ? & H3%set_sc_env & H & _).
  apply prog_bind_Return_inv in H as ([] & w5 & ? & ? & H4%(diary_stopped _ D) & H & _).
  apply prog_bind_Return_inv in H as (? & w6 & ? & ? & H5%set_sc_env & H & _).
  apply prog_bind_Return_inv in H as (? & w7 & ? & ? & H6%(diary_factory _ D) & H & _).
  apply prog_bind_Return_inv in H as (? & w8 & ? & ? & H7%set_sc_env & H & _).
  apply prog_bind_Return_inv in H as ([] & w9 & ? & ? & H8%(diary_started _ D) & H9%set_sc_env & _).
  congruence.
Qed.

(** One iteration of [run] handles the message it received. *)
Lemma run_turn_diary diary p w t w' n :
  Diary diary → run_turn (Some p) w = Return (t, w', n) →
  diary (sc_env w') = diary (sc_env w) ++ messages [p].
Proof.
  intros D H. destruct p as [|e]; cbn [run_turn] in H.
  - apply prog_bind_Return_inv in H as (? & w2 & ? & ? & H1%set_sc_env & H & _).
    apply prog_bind_Return_inv in H as (? & w3 & ? & ? & H2%(diary_stopping _ D) & H & _).
    apply prog_bind_Return_inv in H as (? & w4 & ? & ? & H3%set_sc_env & H & _).
    apply prog_bind_Return_inv in H as ([] & w5 & ? & ? & H4%(diary_stopped _ D) & [= _ <- _] & _).
    simpl. rewrite app_nil_r. congruence.
  - apply prog_bind_Return_inv in H as ([] & w2 & ? & ? & H1%(diary_handle _ D) & H & _).
    apply prog_bind_Return_inv in H as (? & w3 & ? & ? & H2%(replace_actor_diary _ _ _ _ _ D) & [= _ <- _] & _).
    simpl. congruence.
Qed.

(** *** Along a run *)

(** What holds along a run: the log and the queue are what there was to do, the
    workers that were told to stop have ended, and the others have not, unless
    they panicked. *)
Record at_work (all : list Protocol) (n : nat) s l : Prop := mkAtWork {
  work_left : mc_holds (backlog s) l;
  work_all : map snd (taken s) ++ l = all;
  work_stops : (num_stops (map snd (taken s)) ≤ num_ended (crew s))%nat;
  work_ended : (num_ended (crew s) ≤ num_stops (map snd (taken s)) + length (panicked s))%nat;
  work_crew : length (crew s) = n;
  work_cause k : crew s !! k = Some None → (k, StopWorker) ∈ taken s ∨ k ∈ panicked s
}.

Lemma at_work_start (all : list Protocol) q env cr :
  mc_holds q all → Forall is_Some cr → at_work all (length cr) (mkWorkers q env cr [] []) all.
Proof.
  intros Hq Hcr. split; simpl; [done | done | apply Nat.le_0_l | | done |].
  - apply Nat.le_0_r. clear Hq. unfold num_ended.
    induction Hcr as [|c cr [x ->] Hcr IH]; [done |]. by rewrite filter_cons.
  - intros k Hk. rewrite Forall_lookup in Hcr. by destruct (Hcr _ _ Hk).
Qed.

(** A step: the next entry [p] is taken by some [k], whose thread ends if [p] is
    [StopWorker] or its code panics ([b]), and only then. *)
Lemma worker_step_inv s s' :
  worker_step s s' → ∃ k p q c o env b,
    crew s !! k = Some (Some c) ∧ mc_recv (backlog s) = Some (p, q) ∧
    ended o = is_stop p || b ∧
    s' = mkWorkers q env (<[k := o]> (crew s)) (taken s ++ [(k, p)])
           (panicked s ++ if b then [k] else []) ∧
    (b = false → ∀ diary, Diary diary → diary env = diary (shared s) ++ messages [p]).
Proof.
  intros [k c p q t c' env w Hk Hq Hr | k c p q msg env Hk Hq Hr].
  - exists k, p, q, c, (match t with NextTurn => Some c' | Leave _ => None end), env, false.
    rewrite app_nil_r. split_and!; try done.
    + destruct p as [|e]; [by apply run_turn_stop in Hr as -> | by apply run_turn_deliver in Hr as ->].
    + intros _ diary D. exact (run_turn_diary _ _ _ _ _ _ D Hr).
  - exists k, p, q, c, None, env, true. split_and!; try done. by rewrite orb_true_r.
Qed.

Lemma worker_step_at_work all n s s' l :
  worker_step s s' → at_work all n s l → ∃ p l', l = p :: l' ∧ at_work all n s' l'.
Proof.
  intros Hstep [Hl Hall Hst Hen Hn Hcause].
  apply worker_step_inv in Hstep as (k & p & q & c & o & env & b & Hk & Hq & Ho & -> & _).
  destruct l as [|p' l]; [by rewrite (mc_recv_nil _ Hl) in Hq |].
  destruct (mc_recv_cons _ _ _ Hl) as (q' & Hq' & Hl'). rewrite Hq' in Hq.
  injection Hq as -> ->. exists p, l. split; [done |].
  assert (num_stops (map snd (taken s ++ [(k, p)])) =
          num_stops (map snd (taken s)) + if is_stop p then 1 else 0)%nat as Hstops.
  { rewrite map_app, num_stops_app. simpl. unfold num_stops at 2. rewrite filter_cons. by destruct p. }
  split; cbn [backlog crew taken panicked].
  - done.
  - by rewrite map_app, <- app_assoc.
  - rewrite Hstops, (num_ended_insert _ _ _ _ Hk), Ho. destruct (is_stop p), b; simpl; lia.
  - rewrite Hstops, (num_ended_insert _ _ _ _ Hk), Ho, length_app. destruct (is_stop p), b; simpl; lia.
  - by rewrite length_insert.
  - intros j [(<- & -> & _)|[_ Hj]]%list_lookup_insert_Some.
    + destruct p as [|e]; [left; apply elem_of_app; right; by left |].
      right. destruct b; [apply elem_of_app; right; by left | done].
    + destruct (Hcause j Hj) as [?|?]; [left | right]; apply elem_of_app; by left.
Qed.

(** Without a panic the diary tells what was taken. *)
Lemma worker_step_diary s s' diary env0 :
  worker_step s s' → Diary diary →
  (panicked s = [] → diary (shared s) = diary env0 ++ messages (map snd (taken s))) →
  panicked s' = [] → diary (shared s') = diary env0 ++ messages (map snd (taken s')).
Proof.
  intros Hstep D Hd. apply worker_step_inv in Hstep as (k & p & q & c & o & env & b & _ & _ & _ & -> & He).
  simpl. intros [Hp Hb]%app_nil. destruct b; [done |].
  by rewrite (He eq_refl _ D), (Hd Hp), map_app, messages_app, app_assoc.
Qed.

Lemma workers_at_work all n m s s' l :
  nsteps worker_step m s s' → at_work all n s l →
  ∃ l', at_work all n s' l' ∧ length l = (m + length l')%nat.
Proof.
  intros Hr. revert l. induction Hr as [s | m s s1 s' Hstep _ IH]; intros l Hl; [by exists l |].
  destruct (worker_step_at_work _ _ _ _ _ Hstep Hl) as (p & l1 & -> & Hl1).
  destruct (IH _ Hl1) as (l' & Hl' & Hlen). exists l'. split; [done |]. simpl. lia.
Qed.

Lemma workers_diary m s s' diary env0 :
  nsteps worker_step m s s' → Diary diary →
  (panicked s = [] → diary (shared s) = diary env0 ++ messages (map snd (taken s))) →
  panicked s' = [] → diary (shared s') = diary env0 ++ messages (map snd (taken s')).
Proof. intros Hr D. induction Hr; [done |]. eauto using worker_step_diary. Qed.

(** The actor's code ends, with a value or a panic. *)
Definition actor_ends : Prop :=
  ∀ p w, (∃ x, run_turn (Some p) w = Return x) ∨ ∃ msg, run_turn (Some p) w = Panic msg.

Lemma at_work_stuck all n s l :
  actor_ends → at_work all n s l → nf worker_step s → l = [] ∨ Forall (fun o => ended o) (crew s).
Proof.
  intros Hends [Hl _ _ _ _ _] Hnf. destruct l as [|p l]; [by left |]. right.
  destruct (mc_recv_cons _ _ _ Hl) as (q & Hq & _). apply Forall_lookup_2.
  intros k [c|] Hk; [| done]. exfalso. apply Hnf.
  destruct (Hends p (mkSyncWorld c (shared s))) as [[[[t [c' env]] w] Hr] | [msg Hr]].
  - eexists. by eapply worker_turn.
  - eexists. by eapply (worker_panic s k c p q msg (shared s)).
Qed.

Lemma num_stops_work (es : list Env) n :
  num_stops (map Deliver es ++ replicate n StopWorker) = n.
Proof.
  rewrite num_stops_app. assert (num_stops (map Deliver es) = 0%nat) as ->.
  { induction es as [|e es IH]; [done |]. unfold num_stops in *. cbn [map].
    rewrite filter_cons_False; [done | by intros []]. }
  simpl. induction n as [|n IH]; [done |]. unfold num_stops in *. cbn [replicate].
  rewrite filter_cons_True by done. simpl. by rewrite IH.
Qed.

(** If as many entries [StopWorker] were taken as there are, nothing is left. *)
Lemma all_stopped (fwd : list Env) (h l : list Protocol) n :
  (0 < n)%nat → h ++ l = map Deliver fwd ++ replicate n StopWorker → (n ≤ num_stops h)%nat → l = [].
Proof.
  intros Hn Hl Hh. destruct l as [|p l _] using rev_ind; [done |].
  assert (num_stops (h ++ l ++ [p]) = n) as Hc by by rewrite Hl, num_stops_work.
  destruct n as [|n]; [lia |]. rewrite replicate_S_end, !app_assoc in Hl.
  apply app_inj_tail in Hl as [_ ->]. rewrite !num_stops_app in Hc. unfold num_stops at 3 in Hc.
  rewrite filter_cons_True in Hc by done. simpl in Hc. lia.
Qed.

Lemma num_ended_full (cr : list (option (@SyncContext A))) :
  Forall (fun o => ended o) cr → num_ended cr = length cr.
Proof.
  unfold num_ended. induction 1 as [|[c|] cr Hc _ IH]; [done | done |].
  rewrite filter_cons. simpl. by rewrite IH.
Qed.

(** The workers cannot go on: all have ended, and if none panicked nothing is left. *)
Lemma at_work_over (es : list Env) n s l :
  actor_ends → at_work (map Deliver es ++ replicate n StopWorker) n s l → nf worker_step s →
  Forall (fun o => o = None) (crew s) ∧ ((0 < n)%nat → panicked s = [] → l = []).
Proof.
  intros Hends Hw Hnf. pose proof (work_crew _ _ _ _ Hw) as Hcrew.
  pose proof (work_stops _ _ _ _ Hw) as Hs. pose proof (work_all _ _ _ _ Hw) as Hall.
  assert (Forall (fun o => ended o) (crew s)) as Hf.
  { destruct (at_work_stuck _ _ _ _ Hends Hw Hnf) as [-> | Hf]; [| done].
    apply num_ended_all. rewrite app_nil_r in Hall. rewrite Hall, num_stops_work in Hs.
    pose proof (length_filter ended (crew s)). unfold num_ended in *. lia. }
  split; [eapply Forall_impl; [exact Hf |]; by intros [] |]. intros Hn Hp.
  apply (all_stopped es (map snd (taken s)) l n Hn Hall). pose proof (work_ended _ _ _ _ Hw) as He.
  rewrite (num_ended_full _ Hf), Hp in He. simpl in He. lia.
Qed.

End workers.

(** A worker whose queue has lost its last sender without a [StopWorker] never
    ends: [recv] fails at once, again and again. *)
Lemma disconnected_worker_spins {A Env V Task : Type}
    `{!SyncActor (A := A) (Env := Env) (V := V) (Task := Task)} w fuel :
  sc_stopping (sc w) = false → run_disconnected fuel w = OutOfFuel.
Proof.
  intros Hw. unfold run_disconnected. unfold mbind at 1, prog_bind at 1.
  enough (turns (fun _ : () => t ← run_turn None; mret ((), t)) fuel () w = OutOfFuel) as -> by done.
  induction fuel as [|fuel IH]; [done |]. cbn [turns].
  assert ((t ← run_turn None; mret ((), t)) w = Return ((), NextTurn, w, [])) as Hturn.
  { cbn [run_turn]. unfold replace_actor, mbind, prog_bind; simpl. by rewrite Hw. }
  by rewrite (prog_bind_Return _ _ _ _ _ _ Hturn), IH.
Qed.

(** ** Concrete runs *)

Section demo.

#[local] Instance list_mpmc : Mpmc list.
Proof.
  refine {| mc_send T x c := Some (c ++ [x]);
            mc_recv T c := match c with [] => None | x :: c => Some (x, c) end;
            mc_holds T c l := c = l |}.
  - intros T c l x ->. by eexists.
  - intros T c x l ->. by eexists.
  - by intros T c ->.
Defined.

(** An actor that adds what it gets to the shared log. *)
#[local] Instance log_actor : SyncActor (A := nat) (Env := nat) (V := list nat) (Task := nat) := {|
  sync_started := mret ();
  sync_stopping := mret Stop;
  sync_stopped := mret ();
  sync_handle e := modify (fun w => mkSyncWorld (sc w) (sc_env w ++ [e]));
  factory := mret 0%nat
|}.

Definition demo_crew : list (option (@SyncContext nat)) :=
  [Some (sync_context_new 0%nat); Some (sync_context_new 1%nat)].

Definition demo_workers : @Workers nat nat (list nat) list :=
  mkWorkers [Deliver 5%nat; StopWorker; StopWorker] [] demo_crew [] [].

Lemma log_actor_ends : actor_ends.
Proof.
  intros [|e] [[a st s] env]; left; [by eexists |].
  destruct st; by eexists.
Qed.

Lemma log_actor_diary : Diary (fun v : list nat => v).
Proof.
  split; [by intros e w w' n [= <- _] | by intros w w' n [= <- _] | by intros w r w' n [= _ <- _]
    | by intros w w' n [= <- _] | by intros w a w' n [= _ <- _]].
Qed.


(** One message is queued and the only sender is gone. *)
Lemma demo_arbiter :
  ∃ a : @SyncArbiter Z nat nat Queue list,
    arb a (mkAChan 0 true [pack 10 None] [] 0 (mkReceiverTask true None)
             {[1%positive := mkSenderTask None false]}) [] ∧ threads a = 2%nat.
Proof.
  destruct (channel_refines (M := Z) (Tx := nat) (Task := nat) (Q := Queue) 0 eq_refl)
    as (i & _ & HR).
  destruct (do_send_refines 10 _ _ HR eq_refl) as (i1 & _ & HR1).
  destruct (sender_drop_refines _ _ HR1) as (i2 & _ & HR2); [by split |].
  exists (mkArbiter [] i2 2). split; [by split | done].
Qed.

Lemma sync_arbiter_forwards_witness :
  ∃ (a a' : @SyncArbiter Z nat nat Queue list) w,
    (fun fuel => arbiter_poll fuel 7%nat a) ⇓ (Ok (Ready ()), a', w) ∧
    queue a' = [Deliver (pack 10 None); StopWorker; StopWorker].
Proof.
  destruct demo_arbiter as (a & Ha & Ht).
  destruct (sync_arbiter_forwards 7%nat _ _ _ Ha) as (a' & ch' & w & Hp & Ha' & _).
  exists a, a', w. split; [exact Hp |]. pose proof (arb_queue _ _ _ Ha') as Hq.
  rewrite Ht in Hq. exact Hq.
Defined.

Lemma sync_arbiter_loses_message_witness :
  ∃ (a a' : @SyncArbiter Z nat nat Queue list) w,
    (fun fuel => (_ ← arbiter_drain fuel 7%nat;
                  r ← on_msgs (do_send 10);
                  _ ← on_msgs sender_drop;
                  p ← arbiter_finish; mret (r, p)) a) ⇓ ((Ok (), Ok (Ready ())), a', w) ∧
    queue a' = [StopWorker; StopWorker] ∧ q_repr (message_queue (msgs a')) [pack 10 None].
Proof.
  destruct (channel_refines (M := Z) (Tx := nat) (Task := nat) (Q := Queue) 0 eq_refl)
    as (i & _ & HR).
  exists (mkArbiter [] i 2).
  exact (sync_arbiter_loses_message 7%nat (mkArbiter [] i 2) _ [] 10
           (mkArb (mkArbiter [] i 2) _ [] HR eq_refl eq_refl) eq_refl).
Defined.
End demo.
