(* ===== verification/SyncPool.v ===== *)
(** * A pool of sync actors: [src/sync.rs] with the channel in front of it

    [SyncArbiter::start] as a whole: the threads that hold addresses, the arbiter
    and the worker threads take turns ([pool_step]).  The arbiter can be
    interrupted between any two of its accesses to the channel: a turn of the
    loop of its [poll], and the test after the loop, are a step each.
    [sync_pool_serves] says what becomes of every message an address accepted. *)

From S2P Require Import Prelude.
From S2P Require Import Queue.
From S2P Require Import Envelope.
From S2P Require Import SyncChannel.
From S2P Require Import SyncChannelSpec.
From S2P Require Import SyncChannelProps.
From S2P Require Import ContextImpl.
From S2P Require Import SyncArbiter.
From S2P Require Import SyncProps.

Section pool.
Context {M Tx Rx A V Task : Type} {Q C : Type → Type} `{!MpscQueue Q, !Mpmc C} {build : Build}.
Abbreviation Env := (Envelope M Tx).
Abbreviation Protocol := (SyncContextProtocol Env).
Abbreviation Arbiter := (@SyncArbiter M Tx Task Q C).
Abbreviation Workers := (@Workers A Env V C).
Abbreviation Op := (@op M Tx Rx Task).
Abbreviation AChan := (AChan M Tx Task).
Context `{!SyncActor (A := A) (Env := Env) (V := V) (Task := Task)}.

(** ** The system *)

(** Where the arbiter is in its [poll]: not in it, in the loop, before the test
    [connected], or done for good.  Being woken when it need not be does no harm,
    so it may start at any time. *)
Inductive Phase : Type := Asleep | Draining | Testing | Completed.

(** The addresses alive, and two logs: the envelopes that were accepted, and
    those of them accepted since the arbiter last left its loop. *)
Record Pool : Type := mkPool {
  arbiter : Arbiter;
  phase : Phase;
  addresses : gmap task_ptr bool;
  world : V;
  workers : list (option (@SyncContext A));
  handled : list (nat * Protocol);
  sent : list Env;
  late : list Env
}.
Implicit Types (s : Pool) (a : Arbiter) (ch : AChan) (l : list Protocol).

(** The threads of the addresses see the channel, the workers see the queue. *)
Definition channel_of s : Sys := mkSys (msgs (arbiter s)) (addresses s).
Definition workers_of s : Workers := mkWorkers (queue (arbiter s)) (world s) (workers s) (handled s) [].

Definition with_channel (c : Sys) (es : list Env) s : Pool :=
  mkPool (mkArbiter (queue (arbiter s)) (inner c) (threads (arbiter s))) (phase s) (live c)
    (world s) (workers s) (handled s) (sent s ++ es) (late s ++ es).
Definition with_workers (ws : Workers) s : Pool :=
  mkPool (mkArbiter (backlog ws) (msgs (arbiter s)) (threads (arbiter s))) (phase s) (addresses s)
    (shared ws) (crew ws) (taken ws) (sent s) (late s).
Definition with_arbiter a (p : Phase) (es : list Env) s : Pool :=
  mkPool a p (addresses s) (world s) (workers s) (handled s) (sent s) es.

(** The methods of an address; the others are the receiver's. *)
Definition by_address (o : Op) : Prop :=
  match o with
  | Send _ _ _ _ | TrySend _ _ _ _ | DoSend _ _ | CloneSender _ | DropSender _ => True
  | NewSender | SetCapacity _ | RecvPoll _ => False
  end.

Context (current : Task).

Inductive pool_step s : Pool → Prop :=
| pool_address o fuel r c w :
    by_address o → allowed o (addresses s) →
    exec_op fuel o (channel_of s) = Return (r, c, w) →
    pool_step s (with_channel c (accepted r) s)
| pool_wake :
    phase s = Asleep → pool_step s (with_arbiter (arbiter s) Draining (late s) s)
| pool_turn fuel t a w :
    phase s = Draining → (2 ≤ fuel)%nat →
    arbiter_turn fuel current () (arbiter s) = Return ((), t, a, w) →
    pool_step s (match t with
                 | NextTurn => with_arbiter a Draining (late s) s
                 | Leave _ => with_arbiter a Testing [] s
                 end)
| pool_test r a w :
    phase s = Testing →
    arbiter_finish (arbiter s) = Return (r, a, w) →
    pool_step s (with_arbiter a (match r with Ok (Ready _) => Completed | _ => Asleep end) (late s) s)
| pool_work ws :
    worker_step (workers_of s) ws → pool_step s (with_workers ws s).

(** [SyncArbiter::start] with an empty queue and workers that have started. *)
Definition pool_started (n : nat) s : Prop :=
  ∃ q tx a v cr, mc_holds q [] ∧ arbiter_start n q = Return (tx, a) ∧
    length cr = n ∧ Forall is_Some cr ∧
    s = mkPool a Asleep (put_sender tx ∅) v cr [] [] [].

(** ** What holds in every state *)

(** What the workers will find in the queue, once the arbiter has forwarded
    [fwd]. *)
Definition todo (fwd : list Env) (p : Phase) (n : nat) : list Protocol :=
  map Deliver fwd ++ match p with Completed => replicate n StopWorker | _ => [] end.

(** After [k] steps: [fwd] was forwarded, [ch] is the channel, [l] the queue. *)
Record pool_ok (n k : nat) (fwd : list Env) ch l s : Prop := mkPoolOk {
  ok_arb : arb (arbiter s) ch l;
  ok_inv : inv ch (addresses s);
  ok_threads : threads (arbiter s) = n;
  ok_messages : (length (a_messages ch) ≤ k)%nat;
  ok_senders : a_senders ch ≤ 1 + Z.of_nat k;
  ok_sent : sent s = fwd ++ a_messages ch;
  ok_late : phase s = Testing ∨ phase s = Completed → a_messages ch = late s;
  ok_work : at_work (todo fwd (phase s) n) n (workers_of s) l;
  ok_last : phase s = Completed → addresses s = ∅
}.
Definition pool_inv (n k : nat) s : Prop := ∃ fwd ch l, pool_ok n k fwd ch l s.

Lemma pool_started_inv n s : pool_started n s → pool_inv n 0 s.
Proof.
  intros (q & tx & a & v & cr & Hq & Ha & Hn & Hcr & ->). unfold arbiter_start in Ha.
  destruct (channel_refines (M := M) (Tx := Tx) (Task := Task) (Q := Q) 0 eq_refl) as (i & Hi & HR).
  rewrite Hi in Ha. injection Ha as <- <-.
  exists [], (mkAChan 0 true [] [] 1 (mkReceiverTask false None) {[1%positive := mkSenderTask None false]}), [].
  split; simpl; try done; [apply inv_init |]. subst n. by apply at_work_start.
Qed.

(** *** The steps *)

Lemma by_address_delivers o ch (lv : gmap task_ptr bool) r ch' lv' w :
  by_address o → inv ch lv → allowed o lv → spec_op o ch lv = Some (r, (ch', lv'), w) → delivered r = [].
Proof.
  intros Hb H Ha Ho. destruct o; simpl in *; try done; repeat case_match; simplify_eq/=; try done;
    by match goal with v : verdict |- _ => destruct v end.
Qed.

Lemma address_step n k s o fuel r c w :
  by_address o → allowed o (addresses s) → exec_op fuel o (channel_of s) = Return (r, c, w) →
  Z.of_nat (S k) < MAX_CAPACITY → pool_inv n k s → pool_inv n (S k) (with_channel c (accepted r) s).
Proof.
  intros Hb Hal He Hk (fwd & ch & l & [[HR Ho Hl] Hi Ht Hm Hs Hsent Hlate Hw Hlast]).
  pose proof MAX_CAPACITY_value as HM. rewrite HM, Z.ones_equiv in Hk.
  assert (a_senders ch < usize_MAX) as Hmax by (unfold usize_MAX, usize_modulus; lia).
  assert (countable ch) as Hc by (unfold countable; rewrite HM, Z.ones_equiv; lia).
  pose proof (sys_refines o (channel_of s) ch HR Hi Hal Hc Hmax) as Hr.
  assert ((fun fuel => exec_op fuel o (channel_of s)) ⇓ (r, c, w)) as Hret.
  { by apply (returns_mono _ _ fuel (fun n1 n2 => exec_op_mono n1 n2 o (channel_of s))). }
  unfold refines_op in Hr. destruct (spec_op o ch (live (channel_of s))) as [[[r1 [ch1 l1]] w1]|] eqn:Hso.
  - destruct Hr as (i1 & Hi1 & HR1). pose proof (returns_det _ _ _ Hret Hi1) as [= -> -> ->].
    destruct (spec_op_inv _ _ _ _ _ _ _ Hi Hal Hso) as [Hi' Hms].
    destruct (spec_op_growth _ _ _ _ _ _ _ Hi Hal Hso) as [Hg1 Hg2].
    rewrite (by_address_delivers _ _ _ _ _ _ _ Hb Hi Hal Hso) in Hms. simpl in Hms.
    exists fwd, ch1, l. split; simpl; try done; [| lia | lia | | |].
    + split; [done | apply Hi' | done].
    + by rewrite <- Hms, Hsent, app_assoc.
    + intros Hp. by rewrite <- Hms, (Hlate Hp).
    + intros Hp. exfalso. specialize (Hlast Hp). rewrite Hlast in Hal.
      destruct o; simpl in Hb, Hal; try done; rewrite lookup_empty in Hal; by destruct Hal.
  - destruct Hr as [msg Hr]. by rewrite Hr in He.
Qed.

Lemma wake_step n k s :
  phase s = Asleep → pool_inv n k s → pool_inv n (S k) (with_arbiter (arbiter s) Draining (late s) s).
Proof.
  intros Hp (fwd & ch & l & []). exists fwd, ch, l. rewrite Hp in *.
  split; simpl; try done; [lia | lia | by intros [? | ?]].
Qed.

Lemma turn_step n k s fuel t a w :
  phase s = Draining → (2 ≤ fuel)%nat → arbiter_turn fuel current () (arbiter s) = Return ((), t, a, w) →
  pool_inv n k s →
  pool_inv n (S k) (match t with
                    | NextTurn => with_arbiter a Draining (late s) s
                    | Leave _ => with_arbiter a Testing [] s
                    end).
Proof.
  intros Hp Hf He (fwd & ch & l & [Ha Hi Ht Hm Hs Hsent Hlate Hw Hlast]).
  destruct (arbiter_turn_spec current _ _ _ Ha) as (a1 & w1 & Ht1 & Hn1 & Hturn & Hm1 & Ha1).
  rewrite (Hturn fuel Hf) in He. injection He as <- <- <-.
  pose proof (inv_poll current _ _ Hi) as Hi1. set (ch1 := (spec_poll current ch).1.2) in *.
  rewrite Hp in *. destruct Hw as [Hw1 Hw2 Hw3 Hw4 Hw5 Hw6]. destruct (a_messages ch) as [|e ms] eqn:Hms.
  - rewrite app_nil_r in Ha1. exists fwd, ch1, l.
    split; simpl; try done; rewrite ?Hm1; simpl; try lia; [done | split; [apply Ha1 | done..]].
  - exists (fwd ++ [e]), ch1, (l ++ [Deliver e]).
    split; simpl; try done; rewrite ?Hm1; simpl in *; try lia.
    + by rewrite <- app_assoc.
    + by intros [? | ?].
    + unfold todo in *. rewrite app_nil_r in *.
      split; simpl; [apply Ha1 | | done..]. by rewrite map_app, app_assoc, Hw2.
Qed.

Lemma test_step n k s r a w :
  phase s = Testing → arbiter_finish (arbiter s) = Return (r, a, w) → pool_inv n k s →
  pool_inv n (S k) (with_arbiter a (match r with Ok (Ready _) => Completed | _ => Asleep end) (late s) s).
Proof.
  intros Hp He (fwd & ch & l & [Ha Hi Ht Hm Hs Hsent Hlate Hw Hlast]).
  destruct (arbiter_finish_spec _ _ _ Ha) as (a1 & Hf & Ha1 & Ht1).
  rewrite Hf in He. injection He as <- <- <-. rewrite Hp in *.
  exists fwd, ch, (l ++ if a_senders ch =? 0 then replicate (threads (arbiter s)) StopWorker else []).
  destruct Hw as [Hw1 Hw2 Hw3 Hw4 Hw5 Hw6]. unfold todo in *. rewrite app_nil_r in Hw2. simpl in Hw2.
  destruct (Z.eqb_spec (a_senders ch) 0) as [H0|H0]; rewrite ?app_nil_r in *;
    split; simpl; try done; try lia; rewrite ?app_nil_r; try congruence.
  - intros _. apply Hlate. by left.
  - split; simpl; [apply Ha1 | | done..]. by rewrite app_assoc, Hw2, Ht.
  - intros _. apply map_size_empty_iff. pose proof (inv_senders _ _ Hi). lia.
  - by intros [? | ?].
  - split; simpl; [apply Ha1 | by unfold todo; rewrite app_nil_r | done..].
Qed.

(** The actor's code returns: its handlers do not panic, so that a worker only
    ends when it is told to. *)
Definition actor_returns : Prop := ∀ p w, ∃ x, run_turn (Some p) w = Return x.
Context (Hret : actor_returns).

Lemma actor_returns_ends : actor_ends.
Proof. intros p w. left. apply Hret. Qed.

Lemma no_panic (ws ws' : Workers) : worker_step ws ws' → panicked ws' = panicked ws.
Proof.
  intros [k c p q t c' env w Hk Hq Hr | k c p q msg env Hk Hq Hr]; [done |].
  destruct (Hret p (mkSyncWorld c (shared ws))) as [x Hx]. by rewrite Hx in Hr.
Qed.

Lemma work_step n k s ws :
  worker_step (workers_of s) ws → pool_inv n k s → pool_inv n (S k) (with_workers ws s).
Proof.
  intros Hstep (fwd & ch & l & [[HR Ho Hl] Hi Ht Hm Hs Hsent Hlate Hw Hlast]).
  pose proof (no_panic _ _ Hstep) as Hnp. simpl in Hnp.
  destruct (worker_step_at_work _ _ _ _ _ Hstep Hw) as (p & l' & -> & Hw').
  exists fwd, ch, l'. split; simpl; try done; [| lia | lia | by destruct ws; simpl in *; subst].
  split; [done | done | apply Hw'].
Qed.

Lemma pool_steps_inv n m s0 s :
  pool_started n s0 → nsteps pool_step m s0 s → Z.of_nat m < MAX_CAPACITY → pool_inv n m s.
Proof.
  intros H0 Hrun. apply pool_started_inv in H0. revert s Hrun.
  induction m as [|m IH]; intros s Hrun Hm; [by inversion Hrun; subst |].
  apply nsteps_inv_r in Hrun as (s1 & Hrun & Hstep). specialize (IH s1 Hrun ltac:(lia)).
  destruct Hstep; eauto using address_step, wake_step, turn_step, test_step, work_step.
Qed.

(** What was handled is in the diary of the workers. *)
Lemma pool_diary m s0 s diary :
  nsteps pool_step m s0 s → Diary diary → handled s0 = [] →
  diary (world s) = diary (world s0) ++ messages (map snd (handled s)).
Proof.
  intros Hrun D H0. revert s Hrun. induction m as [|m IH]; intros s Hrun.
  { inversion Hrun; subst. by rewrite H0, app_nil_r. }
  apply nsteps_inv_r in Hrun as (s1 & Hrun & Hstep). specialize (IH s1 Hrun).
  destruct Hstep as [| | fuel t a w | | ws Hs]; try exact IH; [by destruct t |].
  pose proof (no_panic _ _ Hs) as Hnp.
  exact (worker_step_diary (workers_of s1) ws diary (world s0) Hs D (fun _ => IH) Hnp).
Qed.

(** *** A run that is over *)

Lemma num_ended_none (cr : list (option (@SyncContext A))) : num_ended cr = 0%nat → Forall is_Some cr.
Proof.
  unfold num_ended. induction cr as [|[c|] cr IH]; intros H; [done | | by rewrite filter_cons in H].
  rewrite filter_cons in H. constructor; [by eexists | by apply IH].
Qed.

Lemma pool_stuck_completed n k s : pool_inv n k s → nf pool_step s → phase s = Completed.
Proof.
  intros (fwd & ch & l & H) Hnf. destruct (phase s) eqn:Hp; [..| done]; exfalso; apply Hnf.
  - eexists. by apply pool_wake.
  - destruct (arbiter_turn_spec current _ _ _ (ok_arb _ _ _ _ _ _ H)) as (a & w & _ & _ & Ht & _).
    eexists. eapply (pool_turn s 2); [done | done | by apply Ht].
  - destruct (arbiter_finish_spec _ _ _ (ok_arb _ _ _ _ _ _ H)) as (a & Hf & _).
    eexists. by eapply pool_test.
Qed.

(** Nobody has anything left to do. *)
Lemma pool_over s :
  phase s = Completed → addresses s = ∅ → mc_recv (queue (arbiter s)) = None → nf pool_step s.
Proof.
  intros Hp Ha Hq [s' Hs].
  destruct Hs as [o fuel r c w Hb Hal He | Hp' | fuel t a w Hp' | r a w Hp' | ws Hw]; try congruence.
  - destruct o; simpl in Hb, Hal; try done; rewrite Ha, lookup_empty in Hal; by destruct Hal.
  - destruct Hw as [k c p q t c' env w Hk Hr | k c p q msg env Hk Hr]; simpl in Hr; congruence.
Qed.

End pool.

(** ** A run: one worker, one message *)

Section demo.
#[local] Existing Instance list_mpmc.

#[local] Instance pool_actor : SyncActor (A := ()) (Env := Envelope Z nat) (V := list (Envelope Z nat)) (Task := nat) := {|
  sync_started := mret ();
  sync_stopping := mret Stop;
  sync_stopped := mret ();
  sync_handle e := modify (fun w => mkSyncWorld (sc w) (sc_env w ++ [e]));
  factory := mret ()
|}.
Abbreviation DPool := (@Pool Z nat () (list (Envelope Z nat)) nat Queue list).
Abbreviation DOp := (@op Z nat () nat).

#[local] Instance pool_demo_build : Build := true.

Lemma pool_actor_returns : actor_returns.
Proof. intros [|e] [[[] st a] env]; [by eexists |]. by destruct st; eexists. Qed.

Definition demo_pool : DPool :=
  match arbiter_start 1 [] with
  | Return (tx, a) =>
      mkPool a Asleep (put_sender tx ∅) [] [Some (sync_context_new ())] [] [] []
  | _ => mkPool (mkArbiter [] (mkInner 0 0 q_new q_new 0 (mkReceiverTask false None) ∅) 0) Asleep ∅ [] [] [] [] []
  end.

Lemma demo_run :
  ∃ s : DPool, nsteps (pool_step (Rx := ()) 7%nat) 8 demo_pool s ∧ nf (pool_step (Rx := ()) 7%nat) s.
Proof.
  eexists. split.
  - eapply nsteps_l; [eapply (pool_address 7%nat demo_pool (DoSend 1 10 : DOp) 2); [done | by eexists | vm_compute; reflexivity] |].
    eapply nsteps_l; [by apply pool_wake |].
    eapply nsteps_l; [eapply (pool_turn _ _ 2); [done | done | vm_compute; reflexivity] |].
    eapply nsteps_l; [eapply (pool_turn _ _ 2); [done | done | vm_compute; reflexivity] |].
    eapply nsteps_l; [eapply (pool_address _ _ (DropSender 1 : DOp) 2); [done | by eexists | vm_compute; reflexivity] |].
    eapply nsteps_l; [eapply pool_test; [done | vm_compute; reflexivity] |].
    eapply nsteps_l; [eapply pool_work, (worker_turn _ 0%nat); [reflexivity | reflexivity | vm_compute; reflexivity] |].
    eapply nsteps_l; [eapply pool_work, (worker_turn _ 0%nat); [reflexivity | reflexivity | vm_compute; reflexivity] |].
    apply nsteps_O.
  - by apply pool_over.
Qed.

Lemma demo_pool_started : pool_started 1 demo_pool.
Proof.
  exists []. eexists _, _, [], [Some (sync_context_new ())].
  split_and!; [done | vm_compute; reflexivity | done | repeat constructor; by eexists | vm_compute; reflexivity].
Qed.

Lemma pool_actor_diary : Diary (fun v : list (Envelope Z nat) => v).
Proof.
  split; [by intros e w w' n [= <- _] | by intros w w' n [= <- _] | by intros w r w' n [= _ <- _]
    | by intros w w' n [= <- _] | by intros w a w' n [= _ <- _]].
Qed.

End demo.
