(* ===== verification/Writer.v ===== *)
(** * Writers: [src/io.rs]

    A [Writer] and the future that empties it share an [InnerWriter] through an
    [Rc<UnsafeCell<_>>]: it is a cell of the state [W] of all the programs here,
    and the actor's handlers, which may hold the [Writer] too, may change it.
    The stream underneath is any [AsyncWrite]; [drain_item] is the [WriterDrain]
    of this writer, boxed for the context. *)

From Stdlib Require Export Strings.Byte.
From S2P Require Import Prelude.
From S2P Require Import ContextImpl.
From S2P Require Import Fut.
From S2P Require Import AsyncContext.

(** ** [std::io] and the traits of tokio-io *)

Inductive ErrorKind : Type :=
| WouldBlock
| WriteZero
| OtherKind (n : nat).
Record IoError : Type := mkIoError { kind : ErrorKind; io_message : string }.

Definition is_would_block (e : IoError) : bool :=
  match kind e with WouldBlock => true | _ => false end.

Class AsyncWrite (T : Type) : Type := {
  aw_write : list byte → T → Exec (Result nat IoError * T);
  aw_flush : T → Exec (Result () IoError * T)
}.

Class Encoder (U Item E : Type) : Type :=
  encode : Item → list byte → U → Exec (Result () E * list byte * U).

(** [BytesMut::split_to], whose result the source drops. *)
Definition split_to (n : nat) (b : list byte) : Exec (list byte) :=
  if (n <=? length b)%nat then Return (drop n b) else Panic "split_to out of bounds".

(** ** The writer *)

Definition CLOSING : Z := 1.
Definition CLOSED : Z := 2.
Definition flags_insert (f x : Z) : Z := Z.lor f x.
Definition flags_contains (f x : Z) : bool := Z.land f x =? x.

Definition LOW_WATERMARK : nat := N.to_nat (4 * 1024).
Definition HIGH_WATERMARK : nat := 4 * LOW_WATERMARK.

Record InnerWriter (T E : Type) : Type := mkInnerWriter {
  flags : Z;
  io : T;
  buffer : list byte;
  error : option E;
  low : nat;
  high : nat;
  handle : SpawnHandle
}.
Arguments mkInnerWriter {T E}.
Arguments flags {T E}.
Arguments io {T E}.
Arguments buffer {T E}.
Arguments error {T E}.
Arguments low {T E}.
Arguments high {T E}.
Arguments handle {T E}.

Section writer.
Context {W Task Fut : Type} `{!AsyncContext W Task Fut}.
Context {T E : Type} `{!AsyncWrite T, !Cell W (InnerWriter T E)}.
Abbreviation P := (Prog W Task).
Abbreviation Inner := (InnerWriter T E).
Implicit Types i : Inner.

Definition set_flags f i : Inner :=
  mkInnerWriter f (io i) (buffer i) (error i) (low i) (high i) (handle i).
Definition set_io t i : Inner :=
  mkInnerWriter (flags i) t (buffer i) (error i) (low i) (high i) (handle i).
Definition set_buffer b i : Inner :=
  mkInnerWriter (flags i) (io i) b (error i) (low i) (high i) (handle i).
Definition set_error e i : Inner :=
  mkInnerWriter (flags i) (io i) (buffer i) e (low i) (high i) (handle i).
Definition set_marks l h i : Inner :=
  mkInnerWriter (flags i) (io i) (buffer i) (error i) l h (handle i).
Definition set_handle h i : Inner :=
  mkInnerWriter (flags i) (io i) (buffer i) (error i) (low i) (high i) h.

Definition inner : P Inner := cell_read.
Definition update (f : Inner → Inner) : P () := cell_update f.

(** What the constructors do, with [fut] the boxed [WriterFut]; then [Writer::new]. *)
Definition from_buffer (t : T) (buf : list byte) (fut : Fut) : P () :=
  _ ← update (fun _ => mkInnerWriter 0 t buf None LOW_WATERMARK HIGH_WATERMARK default_handle);
  h ← ctx_spawn fut;
  update (set_handle h).
Definition new (t : T) (fut : Fut) : P () := from_buffer t [] fut.

(** [FramedWrite::from_buffer] and [FramedWrite::new]; of a [FramedWrite] only the
    encoder is not shared. *)
Definition framed_from_buffer {U} (t : T) (encoder : U) (buf : list byte) (fut : Fut) : P U :=
  _ ← from_buffer t buf fut; mret encoder.
Definition framed_new {U} (t : T) (encoder : U) (fut : Fut) : P U :=
  framed_from_buffer t encoder [] fut.

(** The methods [Writer] and [FramedWrite] both have. *)
Definition close : P () := update (fun i => set_flags (flags_insert (flags i) CLOSING) i).
Definition closed : P bool := i ← inner; mret (flags_contains (flags i) CLOSED).
Definition set_buffer_capacity (l h : nat) : P () := update (set_marks l h).
Definition writer_handle : P SpawnHandle := i ← inner; mret (handle i).
Definition framed_close : P () := close.
Definition framed_closed : P bool := closed.
Definition framed_set_buffer_capacity (l h : nat) : P () := set_buffer_capacity l h.
Definition framed_handle : P SpawnHandle := writer_handle.

(** [Writer::write] and [FramedWrite::write], which returns the encoder. *)
Definition write (msg : list byte) : P () := update (fun i => set_buffer (buffer i ++ msg) i).
Definition framed_write {U Item} `{!Encoder U Item E} (item : Item) (enc : U) : P U :=
  i ← inner;
  '(r, b, enc) ← lift (encode item (buffer i) enc);
  _ ← update (set_buffer b);
  _ ← match r with Ok _ => mret () | Err e => update (set_error (Some e)) end;
  mret enc.

(** ** The futures *)

(** The trait [WriteHandler]. *)
Class WriteHandler : Type := { wh_error : E → P Running; wh_finished : P () }.
Definition default_write_error (e : E) : P Running := mret Stop.
Definition default_write_finished : P () := ctx_stop.

Context `{!WriteHandler} (from_io : IoError → E) (drain_item : Fut).

Definition write_zero : IoError := mkIoError WriteZero "failed to write frame to transport".

(** [inner.io.write(&inner.buffer)] and [inner.io.flush()]. *)
Definition io_write : P (Result nat IoError) :=
  i ← inner; '(r, t) ← lift (aw_write (buffer i) (io i)); _ ← update (set_io t); mret r.
Definition io_flush : P (Result () IoError) :=
  i ← inner; '(r, t) ← lift (aw_flush (io i)); _ ← update (set_io t); mret r.
Definition buffer_split_to (n : nat) : P () :=
  i ← inner; b ← lift (split_to n (buffer i)); update (set_buffer b).

(** [act.error(err, ctx) == Running::Stop], and what follows when it is. *)
Definition error_stops (e : E) : P bool :=
  x ← wh_error e; mret (match x with Stop => true | Continue => false end).
Definition stop_writer : P (Poll () ()) := _ ← wh_finished; mret (Ok (Ready ())).

(** The [while] loop of [WriterFut::poll]: [Leave (Some r)] is [return r]. *)
Definition fut_turn (u : ()) : P (() * Turn (option (Poll () ()))) :=
  i ← inner;
  match buffer i with
  | [] => mret ((), Leave None)
  | _ =>
      r ← io_write;
      match r with
      | Ok n =>
          stop ← (if (n =? 0)%nat then error_stops (from_io write_zero) else mret false);
          if stop : bool then r ← stop_writer; mret ((), Leave (Some r))
          else _ ← buffer_split_to n; mret ((), NextTurn)
      | Err e =>
          if is_would_block e then
            i ← inner;
            _ ← (if (high i <? length (buffer i))%nat then ctx_wait drain_item else mret ());
            mret ((), Leave (Some (Ok NotReady)))
          else
            stop ← error_stops (from_io e);
            if stop : bool then r ← stop_writer; mret ((), Leave (Some r)) else mret ((), NextTurn)
      end
  end.

(** What follows the loop: flush, then close. *)
Definition fut_close : P (Poll () ()) :=
  i ← inner;
  if flags_contains (flags i) CLOSING then
    _ ← update (fun i => set_flags (flags_insert (flags i) CLOSED) i); stop_writer
  else mret (Ok NotReady).
Definition fut_flush : P (Poll () ()) :=
  r ← io_flush;
  match r with
  | Ok _ => fut_close
  | Err e =>
      if is_would_block e then mret (Ok NotReady)
      else stop ← error_stops (from_io e); if stop : bool then stop_writer else fut_close
  end.

(** The pending error of an earlier write. *)
Definition fut_error : P bool :=
  i ← inner;
  _ ← update (set_error None);
  match error i with Some e => error_stops e | None => mret false end.

(** [WriterFut::poll]. *)
Definition writer_fut_poll (fuel : nat) : P (Poll () ()) :=
  stop ← fut_error;
  if stop : bool then stop_writer
  else
    '(_, r) ← turns fut_turn fuel ();
    match r with Some r => mret r | None => fut_flush end.

(** The loop of [WriterDrain::poll], and the whole of it. *)
Definition drain_turn (u : ()) : P (() * Turn (Poll () ())) :=
  i ← inner;
  match buffer i with
  | [] => mret ((), Leave (Ok (Ready ())))
  | _ =>
      r ← io_write;
      match r with
      | Ok n =>
          if (n =? 0)%nat then
            _ ← update (set_error (Some (from_io write_zero))); mret ((), Leave (Err ()))
          else _ ← buffer_split_to n; mret ((), NextTurn)
      | Err e =>
          if is_would_block e then
            i ← inner;
            mret ((), Leave (if (length (buffer i) <? low i)%nat then Ok (Ready ()) else Ok NotReady))
          else _ ← update (set_error (Some (from_io e))); mret ((), Leave (Err ()))
      end
  end.
Definition writer_drain_poll (fuel : nat) : P (Poll () ()) :=
  i ← inner;
  match error i with
  | Some _ => mret (Ok (Ready ()))
  | None => '(_, r) ← turns drain_turn fuel (); mret r
  end.
End writer.
