(* ===== verification/WriterProps.v ===== *)
(** * What writers promise

    The bytes handed to the stream, followed by the buffer, are the bytes that
    were written, in order, whatever the stream answers; a stream that takes
    bytes gets all of them in one poll; a full buffer makes the actor wait. *)

From S2P Require Import Prelude.
From S2P Require Import ContextImpl.
From S2P Require Import Fut.
From S2P Require Import AsyncContext.
From S2P Require Import Writer.

(** What [io::Write] documents: [Ok n] means that the first [n] bytes were
    written, an error that none was. *)
Class AsyncWriteLaws (T : Type) `{!AsyncWrite T} : Type := {
  aw_sent : T → list byte;
  aw_write_ok b t n t' :
    aw_write b t = Return (Ok n, t') →
    (n ≤ length b)%nat ∧ aw_sent t' = aw_sent t ++ take n b;
  aw_write_err b t e t' : aw_write b t = Return (Err e, t') → aw_sent t' = aw_sent t;
  aw_flush_sent t r t' : aw_flush t = Return (r, t') → aw_sent t' = aw_sent t
}.

Section writer.
Context {W Task Fut : Type} `{!AsyncContext W Task Fut}.
Context {T E : Type} `{!AsyncWrite T, !AsyncWriteLaws T, !Cell W (InnerWriter T E)}.
Context `{!WriteHandler (W := W) (Task := Task) (E := E)}.
Context (from_io : IoError → E) (drain_item : Fut).
Abbreviation P := (Prog W Task).
Abbreviation Inner := (InnerWriter T E).
Abbreviation hoare := (triple (S := W) (Task := Task) false).
Implicit Types (i : Inner) (w : W) (b : list byte).

Definition is_closed i : bool := flags_contains (flags i) CLOSED.
Definition total i : list byte := aw_sent (io i) ++ buffer i.

(** Bytes that were sent, the buffer and the flag [CLOSED]; code of the actor
    that does not write keeps them. *)
Definition same_data (i : Inner) (w : W) : Prop :=
  io (cell_get w) = io i ∧ buffer (cell_get w) = buffer i ∧ is_closed (cell_get w) = is_closed i.
Definition keeps_data {X} (m : P X) : Prop :=
  ∀ i, hoare (same_data i) m (fun _ => same_data i).

(** [holds b]: [b] is what was written so far; [open] also: not closed yet. *)
Definition holds b w : Prop := total (cell_get w) = b.
Definition still_open b w : Prop := holds b w ∧ is_closed (cell_get w) = false.

Lemma same_data_refl w : same_data (cell_get w) w.
Proof. by split_and!. Qed.

(** A predicate on the data that sending a part of the buffer keeps. *)
Implicit Types I : list byte → list byte → bool → Prop.
Definition on_data I (w : W) : Prop :=
  I (aw_sent (io (cell_get w))) (buffer (cell_get w)) (is_closed (cell_get w)).
Definition sendable I : Prop :=
  ∀ s b c n, (n ≤ length b)%nat → I s b c → I (s ++ take n b) (drop n b) c.

Lemma keeps_triple {X} (m : P X) I :
  keeps_data m → hoare (on_data I) m (fun _ => on_data I).
Proof.
  intros Hm w Hw. specialize (Hm _ w (same_data_refl w)).
  destruct (m w) as [[[x w'] n]| | |]; [| done..].
  destruct Hm as (H1 & H2 & H3). unfold on_data. by rewrite H1, H2, H3.
Qed.

Lemma keeps_ret {X} (x : X) : keeps_data (mret x).
Proof. by intros i w Hw. Qed.
Lemma keeps_bind {X Y} (m : P X) (f : X → P Y) :
  keeps_data m → (∀ x, keeps_data (f x)) → keeps_data (m ≫= f).
Proof. intros Hm Hf i. eapply triple_bind; [apply Hm | intros x; apply Hf]. Qed.

(** What the source does to the cell itself. *)
Lemma update_triple (P' Q : W → Prop) (f : Inner → Inner) :
  (∀ w, P' w → Q (cell_set (f (cell_get w)) w)) → hoare P' (update f) (fun _ => Q).
Proof. intros H. by apply triple_modify. Qed.

Lemma triple_inner {X} (P' : W → Prop) (f : Inner → P X) Q :
  (∀ i, hoare (fun w => P' w ∧ cell_get w = i) (f i) Q) →
  hoare P' (inner ≫= f) Q.
Proof.
  intros H w Hw. specialize (H _ w (conj Hw eq_refl)). unfold mbind, prog_bind; simpl.
  by destruct (f (cell_get w) w) as [[[x w'] n]| | |].
Qed.

(** *** Calls of the stream *)

(** After a write of [n] bytes the first [n] bytes of the buffer are still there,
    until [split_to] removes them. *)
Definition written I (r : Result nat IoError) (w : W) : Prop :=
  let i := cell_get w in
  match r with
  | Ok n => (n ≤ length (buffer i))%nat ∧ ∃ s, aw_sent (io i) = s ++ take n (buffer i) ∧
            I s (buffer i) (is_closed i)
  | Err _ => on_data I w
  end.

Lemma io_write_triple I : hoare (on_data I) (io_write) (written I).
Proof.
  intros w Hw. unfold io_write, inner, update, cell_read, cell_update, mbind, prog_bind; simpl.
  destruct (aw_write _ _) as [[r t]| | |] eqn:Hr; simpl; [| done..].
  unfold written, on_data. rewrite !cell_get_set. simpl. destruct r as [n|e].
  - apply aw_write_ok in Hr as [Hn Hs]. split; [done |]. by eexists.
  - apply aw_write_err in Hr. rewrite Hr. exact Hw.
Qed.

Lemma io_flush_triple I : hoare (on_data I) (io_flush) (fun _ => on_data I).
Proof.
  intros w Hw. unfold io_flush, inner, update, cell_read, cell_update, mbind, prog_bind; simpl.
  destruct (aw_flush _) as [[r t]| | |] eqn:Hr; simpl; [| done..].
  unfold on_data. rewrite cell_get_set. simpl. apply aw_flush_sent in Hr. by rewrite Hr.
Qed.

Lemma split_triple I n :
  sendable I → hoare (written I (Ok n)) (buffer_split_to n) (fun _ => on_data I).
Proof.
  intros HI w (Hn & s & Hs & Hw).
  unfold buffer_split_to, inner, update, cell_read, cell_update, mbind, prog_bind, split_to; simpl.
  destruct (Nat.leb_spec n (length (buffer (cell_get w)))); [simpl | lia].
  unfold on_data. rewrite cell_get_set. simpl. rewrite Hs. by apply HI.
Qed.

(** *** The handlers *)

Context (error_keeps : ∀ e, keeps_data (wh_error e)) (finished_keeps : keeps_data wh_finished).
Context (wait_keeps : keeps_data (ctx_wait drain_item)).

Lemma error_stops_keeps e : keeps_data (error_stops e).
Proof. apply keeps_bind; [apply error_keeps |]. intros x. apply keeps_ret. Qed.
Lemma stop_writer_keeps : keeps_data stop_writer.
Proof. apply keeps_bind; [apply finished_keeps |]. intros x. apply keeps_ret. Qed.

Lemma written_0 I w : written I (Ok 0%nat) w ↔ on_data I w.
Proof.
  unfold written, on_data. split.
  - intros (_ & s & -> & Hw). by rewrite app_nil_r.
  - intros Hw. split; [lia |]. eexists. by rewrite app_nil_r.
Qed.

(** *** The loops *)

Definition emptied (w : W) : Prop := buffer (cell_get w) = [].

Definition turn_post I (x : () * Turn (option (Poll () ()))) (w : W) : Prop :=
  on_data I w ∧ (x.2 = Leave None → emptied w).

Lemma stop_or_go_triple I e (k : P (() * Turn (option (Poll () ())))) (P' : W → Prop) :
  (∀ w, P' w → on_data I w) →
  hoare (on_data I) k (turn_post I) →
  hoare P'
    (stop ← error_stops e; if stop : bool then r ← stop_writer; mret ((), Leave (Some r)) else k)
    (turn_post I).
Proof.
  intros HP Hk. eapply triple_pre; [| exact HP].
  eapply triple_bind; [apply keeps_triple, error_stops_keeps |]. intros [].
  - eapply triple_bind; [apply keeps_triple, stop_writer_keeps |]. intros r. by apply triple_ret.
  - exact Hk.
Qed.

Lemma fut_turn_triple I :
  sendable I → hoare (on_data I) (fut_turn from_io drain_item ()) (turn_post I).
Proof.
  intros HI. apply triple_inner. intros i. destruct (buffer i) eqn:Hb.
  { apply triple_ret. intros w [Hw <-]. by split. }
  eapply triple_pre; [| by intros w [Hw _]; exact Hw].
  eapply triple_bind; [apply io_write_triple |]. intros [n|e].
  - assert (hoare (written I (Ok n)) (_ ← buffer_split_to n; mret ((), NextTurn)) (turn_post I))
      as Hgo.
    { eapply triple_bind; [by apply split_triple |]. intros []. by apply triple_ret. }
    destruct (Nat.eqb_spec n 0) as [->|Hn]; [| by rewrite prog_bind_ret_l].
    apply stop_or_go_triple; [apply written_0 |].
    eapply triple_pre; [exact Hgo | apply written_0].
  - cbn [written]. destruct (is_would_block e).
    + apply triple_inner. intros i'. eapply triple_pre; [| by intros w [Hw _]; exact Hw].
      eapply triple_bind.
      * destruct (_ <? _)%nat; [apply keeps_triple, wait_keeps | by apply keeps_triple, keeps_ret].
      * intros []. by apply triple_ret.
    + apply stop_or_go_triple; [done |]. by apply triple_ret.
Qed.

Lemma drain_turn_triple I :
  sendable I → hoare (on_data I) (drain_turn from_io ()) (fun _ => on_data I).
Proof.
  intros HI. apply triple_inner. intros i.
  eapply triple_pre; [| by intros w [Hw _]; exact Hw]. destruct (buffer i).
  { by apply triple_ret. }
  assert (∀ P' e r, (∀ w, P' w → on_data I w) → hoare P'
     (_ ← update (set_error (Some (e : E))); mret ((), Leave (r : Poll () ())) : P (() * Turn (Poll () ())))
     (fun _ => on_data I)) as Hset.
  { intros P' e r HP. eapply triple_bind; [apply (update_triple P' (on_data I)) | intros []; by apply triple_ret].
    intros w Hw%HP. unfold on_data. by rewrite cell_get_set. }
  eapply triple_bind; [apply io_write_triple |]. intros [n|e].
  - destruct (Nat.eqb_spec n 0) as [->|Hn]; [apply Hset, written_0 |].
    eapply triple_bind; [by apply split_triple |]. intros []. by apply triple_ret.
  - cbn [written]. destruct (is_would_block e); [| by apply Hset].
    apply triple_inner. intros i'. apply triple_ret. by intros w [Hw _].
Qed.

Lemma drain_poll_triple I fuel :
  sendable I → hoare (on_data I) (writer_drain_poll from_io fuel) (fun _ => on_data I).
Proof.
  intros HI. apply triple_inner. intros i. eapply triple_pre; [| by intros w [Hw _]; exact Hw].
  destruct (error i); [by apply triple_ret |].
  apply (triple_bind _ _ _ _ (fun _ => on_data I)); [| intros [u r]; by apply triple_ret].
  eapply (triple_turns _ _ (fun _ => on_data I) (fun _ => on_data I)). intros u.
  eapply triple_conseq; [by apply drain_turn_triple | done |]. by intros [? [|]] w.
Qed.

(** [b] is what was written so far; if the writer is closed, [C] holds of what
    was sent. *)
Definition tracked b (C : list byte → Prop) (s buf : list byte) (c : bool) : Prop :=
  s ++ buf = b ∧ (c = true → C s).
Definition growing (C : list byte → Prop) : Prop := ∀ s s', C s → C (s ++ s').

Lemma tracked_sendable b C : growing C → sendable (tracked b C).
Proof.
  intros HC s buf c n _ [Hb Hc]. split; [by rewrite <- app_assoc, take_drop |]. auto.
Qed.

Lemma flags_insert_contains f x : flags_contains (flags_insert f x) x = true.
Proof.
  apply Z.eqb_eq, Z.bits_inj'. intros n Hn. unfold flags_insert.
  rewrite Z.land_spec, Z.lor_spec. by destruct (Z.testbit f n), (Z.testbit x n).
Qed.

Definition sent_all b C (s buf : list byte) (c : bool) : Prop :=
  tracked b (fun s => C s ∨ s = b) s buf c.

Lemma tracked_sent_all b C w : on_data (tracked b C) w → on_data (sent_all b C) w.
Proof. intros [Hb Hc]. split; [done |]. intros H. left. by apply Hc. Qed.

(** Once the buffer is empty, the writer may be closed. *)
Lemma fut_close_triple b C :
  hoare (fun w => on_data (tracked b C) w ∧ emptied w) fut_close (fun _ => on_data (sent_all b C)).
Proof.
  apply triple_inner. intros i. destruct (flags_contains (flags i) CLOSING).
  - eapply triple_bind; [apply (update_triple _ (on_data (sent_all b C))) |].
    + intros w [[[Hb _] He] _]. unfold on_data, emptied in *. rewrite cell_get_set; simpl.
      rewrite He, app_nil_r in *. split; [by rewrite app_nil_r | by right].
    + intros []. apply keeps_triple, stop_writer_keeps.
  - apply triple_ret. intros w [[Hw _] _]. by apply tracked_sent_all.
Qed.

Lemma keeps_emptied {X} (m : P X) I :
  keeps_data m → hoare (fun w => on_data I w ∧ emptied w) m (fun _ w => on_data I w ∧ emptied w).
Proof. intros Hm. exact (keeps_triple m (fun s b c => I s b c ∧ b = []) Hm). Qed.

Lemma fut_flush_triple b C :
  hoare (fun w => on_data (tracked b C) w ∧ emptied w) (fut_flush from_io)
    (fun _ => on_data (sent_all b C)).
Proof.
  eapply triple_bind.
  { exact (io_flush_triple (fun s buf c => tracked b C s buf c ∧ buf = [])). }
  intros [[]|e]; [apply fut_close_triple |]. destruct (is_would_block e).
  { apply triple_ret. intros w [Hw _]. by apply tracked_sent_all. }
  eapply triple_bind; [apply (keeps_emptied _ (tracked b C)), error_stops_keeps |]. intros []; [| apply fut_close_triple].
  eapply triple_conseq; [apply (keeps_emptied _ (tracked b C)), stop_writer_keeps | done |].
  intros r w [Hw _]. by apply tracked_sent_all.
Qed.

Lemma fut_poll_triple b C fuel :
  growing C →
  hoare (on_data (tracked b C)) (writer_fut_poll from_io drain_item fuel)
    (fun _ => on_data (sent_all b C)).
Proof.
  intros HC. assert (hoare (on_data (tracked b C)) fut_error (fun _ => on_data (tracked b C))) as He.
  { apply triple_inner. intros i. eapply triple_bind.
    - apply (update_triple _ (on_data (tracked b C))). intros w [Hw _]. unfold on_data.
      by rewrite cell_get_set.
    - intros []. destruct (error i); [apply keeps_triple, error_stops_keeps | by apply triple_ret]. }
  eapply triple_bind; [exact He |]. intros [].
  { eapply triple_conseq; [apply keeps_triple, stop_writer_keeps | done |]. intros r. apply tracked_sent_all. }
  eapply (triple_bind _ _ _ _ (fun x w => on_data (tracked b C) w ∧ (x.2 = None → emptied w))).
  - apply (triple_turns _ _ (fun _ => on_data (tracked b C))). intros [].
    eapply triple_conseq; [apply fut_turn_triple; by apply tracked_sendable | done |].
    intros [u [|r]] w [Hw Hl]; [done |]. split; [done |]. simpl. intros ->. by apply Hl.
  - intros [u [r|]].
    + apply triple_ret. intros w [Hw _]. by apply tracked_sent_all.
    + eapply triple_pre; [apply fut_flush_triple |]. simpl. intros w [Hw Hl]. auto.
Qed.

(** ** Histories *)

(** What the actor does with a writer, and the polls of its two futures; in
    between, other code that does not write. *)
Inductive writer_op : Type :=
| WWrite (msg : list byte)
| WClose
| WSetCapacity (l h : nat)
| WPoll
| WDrain
| WOther (m : P ()).

Definition run_op (fuel : nat) (o : writer_op) : P () :=
  match o with
  | WWrite msg => write msg
  | WClose => close
  | WSetCapacity l h => set_buffer_capacity l h
  | WPoll => _ ← writer_fut_poll from_io drain_item fuel; mret ()
  | WDrain => _ ← writer_drain_poll from_io fuel; mret ()
  | WOther m => m
  end.
Definition run_ops (fuel : nat) (os : list writer_op) : P () :=
  foldl (fun m o => _ ← m; run_op fuel o) (mret ()) os.

Definition bytes_of (o : writer_op) : list byte := match o with WWrite msg => msg | _ => [] end.
Definition other_keeps (o : writer_op) : Prop := match o with WOther m => keeps_data m | _ => True end.

Lemma close_flags f : flags_contains (flags_insert f CLOSING) CLOSED = flags_contains f CLOSED.
Proof.
  unfold flags_contains, flags_insert. apply eq_true_iff_eq. rewrite !Z.eqb_eq.
  by rewrite Z.land_comm, Z.land_lor_distr_r, (Z.land_comm CLOSED f), Z.lor_0_r.
Qed.

(** What holds of a writer after the operations [os]. *)
Definition closed_after (sent0 : list byte) (os : list writer_op) (s : list byte) : Prop :=
  ∃ os1 os2, os = os1 ++ WPoll :: os2 ∧ (sent0 ++ concat (map bytes_of os1)) `prefix_of` s.
Definition conserved (sent0 : list byte) (os : list writer_op) (w : W) : Prop :=
  on_data (tracked (sent0 ++ concat (map bytes_of os)) (closed_after sent0 os)) w.

Lemma closed_after_growing sent0 os : growing (closed_after sent0 os).
Proof.
  intros s s' (os1 & os2 & -> & Hs). exists os1, os2. split; [done |].
  by apply prefix_app_r.
Qed.

Lemma closed_after_snoc sent0 os o s : closed_after sent0 os s → closed_after sent0 (os ++ [o]) s.
Proof.
  intros (os1 & os2 & -> & Hs). exists os1, (os2 ++ [o]). by rewrite <- app_assoc.
Qed.

Lemma conserved_snoc sent0 os o w :
  bytes_of o = [] → conserved sent0 os w → conserved sent0 (os ++ [o]) w.
Proof.
  intros Ho [Hb Hc]. split.
  - rewrite map_app, concat_app. simpl. by rewrite Ho, app_nil_r.
  - intros H%Hc. by apply closed_after_snoc.
Qed.

Lemma run_op_conserved fuel sent0 os o :
  other_keeps o → hoare (conserved sent0 os) (run_op fuel o) (fun _ => conserved sent0 (os ++ [o])).
Proof.
  intros Ho. destruct o as [msg| |l h| | |m].
  - apply update_triple. intros w [Hb Hc]. unfold conserved, on_data. rewrite cell_get_set. simpl.
    split; [| intros H%Hc; by apply closed_after_snoc].
    by rewrite map_app, concat_app, app_assoc, Hb, app_assoc; simpl; rewrite app_nil_r.
  - apply update_triple. intros w Hw. apply conserved_snoc; [done |].
    unfold conserved, on_data, is_closed in *. rewrite cell_get_set. cbn [flags io buffer set_flags].
    by rewrite close_flags.
  - apply update_triple. intros w Hw. apply conserved_snoc; [done |].
    unfold conserved, on_data in *. by rewrite cell_get_set.
  - eapply triple_bind; [apply fut_poll_triple, closed_after_growing |]. intros r.
    apply triple_ret. intros w [Hb Hc]. split; [by rewrite map_app, concat_app, app_nil_r |].
    intros [H| ->]%Hc; [by apply closed_after_snoc |]. by exists os, [].
  - eapply triple_bind; [apply drain_poll_triple, tracked_sendable, closed_after_growing |].
    intros r. apply triple_ret. intros w Hw. by apply conserved_snoc.
  - eapply triple_conseq; [by apply keeps_triple | done |]. intros [] w Hw. by apply conserved_snoc.
Qed.

(** C32: Nothing that was written is lost, duplicated or reordered: after any
    operations, whatever the stream answered and wherever its errors put an end
    to the future, what was sent followed by the buffer is what was written.
    The writer is only ever [closed] by a poll that found everything written
    before it sent. *)
Theorem writer_conserves t fut os fuel w w' n :
  keeps_data (ctx_spawn fut) → Forall other_keeps os →
  (_ ← new t fut; run_ops fuel os) w = Return ((), w', n) →
  let i := cell_get w' in
  aw_sent (io i) ++ buffer i = aw_sent t ++ concat (map bytes_of os) ∧
  (is_closed i = true → ∃ os1 os2, os = os1 ++ WPoll :: os2 ∧
     (aw_sent t ++ concat (map bytes_of os1)) `prefix_of` aw_sent (io i)).
Proof.
  intros Hsp Hos. assert (hoare (fun _ => True) (_ ← new t fut; run_ops fuel os)
    (fun _ => conserved (aw_sent t) os)) as Hrun; [| by intros Hw; specialize (Hrun w I); rewrite Hw in Hrun].
  apply (triple_bind _ _ _ _ (fun _ => conserved (aw_sent t) [])).
  - eapply triple_bind; [apply (update_triple _ (conserved (aw_sent t) [])) |].
    { intros w0 _. unfold conserved, on_data. rewrite cell_get_set. by split. }
    intros []. eapply triple_bind; [apply keeps_triple, Hsp |]. intros h. apply update_triple.
    intros w0 Hw. unfold conserved, on_data in *. rewrite cell_get_set. exact Hw.
  - intros []. induction os as [|o os IH] using rev_ind; [by apply triple_ret |].
    apply Forall_app in Hos as [Hos Ho]. rewrite Forall_singleton in Ho.
    unfold run_ops. rewrite foldl_app. simpl. eapply triple_bind; [by apply IH |].
    intros []. apply run_op_conserved. exact Ho.
Qed.
End writer.

(** ** Streams that take bytes, and streams that block *)

(** In a state [G] the stream takes at least a byte of what it is offered and
    flushes, and stays in such a state. *)
Record takes_bytes {T} `{!AsyncWrite T} (G : T → Prop) : Prop := mkTakes {
  takes_write b t :
    G t → b ≠ [] → ∃ n t', aw_write b t = Return (Ok n, t') ∧ (0 < n)%nat ∧ G t';
  takes_flush t : G t → ∃ t', aw_flush t = Return (Ok (), t') ∧ G t'
}.

(** The stream blocks. *)
Definition blocks {T} `{!AsyncWrite T} (t : T) : Prop :=
  ∀ b, b ≠ [] → ∃ m, aw_write b t = Return (Err (mkIoError WouldBlock m), t).

Section progress.
Context {W Task Fut : Type} `{!AsyncContext W Task Fut}.
Context {T E : Type} `{!AsyncWrite T, !AsyncWriteLaws T, !Cell W (InnerWriter T E)}.
Context `{!WriteHandler (W := W) (Task := Task) (E := E)}.
Context (from_io : IoError → E) (drain_item : Fut).
Abbreviation Inner := (InnerWriter T E).
Abbreviation P := (Prog W Task).
Implicit Types (i : Inner) (w : W).

Lemma inner_bind {X} (f : Inner → P X) w : (inner ≫= f) w = f (cell_get w) w.
Proof. apply prog_bind_gets. Qed.

Lemma update_bind {X} (f : Inner → Inner) (k : () → P X) w :
  (update f ≫= k) w = k () (cell_set (f (cell_get w)) w).
Proof. unfold mbind, prog_bind; simpl. by destruct (k () _) as [[[x w'] n]| | |]. Qed.

Lemma io_write_bind {X} r t (f : Result nat IoError → P X) w :
  aw_write (buffer (cell_get w)) (io (cell_get w)) = Return (r, t) →
  (io_write ≫= f) w = f r (cell_set (set_io t (cell_get w)) w).
Proof.
  intros Ht. unfold io_write. rewrite (prog_bind_assoc inner _ f w), inner_bind.
  unfold lift. rewrite Ht. unfold mbind at 1, prog_bind; simpl.
  by destruct (f r _) as [[[x w'] n]| | |].
Qed.

Lemma io_flush_bind {X} r t (f : Result () IoError → P X) w :
  aw_flush (io (cell_get w)) = Return (r, t) →
  (io_flush ≫= f) w = f r (cell_set (set_io t (cell_get w)) w).
Proof.
  intros Ht. unfold io_flush. rewrite (prog_bind_assoc inner _ f w), inner_bind.
  unfold lift. rewrite Ht. unfold mbind at 1, prog_bind; simpl.
  by destruct (f r _) as [[[x w'] n]| | |].
Qed.

Lemma split_bind {X} n (f : () → P X) w :
  (n ≤ length (buffer (cell_get w)))%nat →
  (buffer_split_to n ≫= f) w =
  f () (cell_set (set_buffer (drop n (buffer (cell_get w))) (cell_get w)) w).
Proof.
  intros Hn. unfold buffer_split_to. rewrite (prog_bind_assoc inner _ f w), inner_bind.
  unfold lift, split_to. destruct (Nat.leb_spec n (length (buffer (cell_get w)))); [| lia].
  unfold mbind at 1, prog_bind; simpl. by destruct (f () _) as [[[x w'] m]| | |].
Qed.

(** The cell after the whole buffer went to the stream, now in the state [t]. *)
Definition sent_to (t : T) (w : W) : W := cell_set (set_buffer [] (set_io t (cell_get w))) w.

Lemma turns_willing (G : T → Prop) w :
  takes_bytes G → G (io (cell_get w)) →
  ∃ t, G t ∧ aw_sent t = total (cell_get w) ∧
    ∀ fuel, (length (buffer (cell_get w)) < fuel)%nat →
      turns (fut_turn from_io drain_item) fuel () w = Return ((), None, sent_to t w, []).
Proof.
  intros HG. remember (length (buffer (cell_get w))) as k eqn:Hk. revert w Hk.
  induction k as [k IH] using lt_wf_ind. intros w Hk Hw.
  destruct (buffer (cell_get w)) as [|x b] eqn:Hb.
  - exists (io (cell_get w)). unfold total. rewrite Hb, app_nil_r. split_and!; [done..|].
    intros [|fuel] Hf; [lia |]. cbn [turns]. unfold fut_turn.
    assert (sent_to (io (cell_get w)) w = w) as ->.
    { etrans; [| apply cell_set_get]. unfold sent_to. f_equal.
      destruct (cell_get w); simpl in *. by rewrite Hb. }
    unfold mbind at 1, prog_bind at 1. by rewrite inner_bind, Hb.
  - destruct (takes_write G HG (x :: b) _ Hw) as (n & t & Ht & Hn & HGt); [done |].
    destruct (aw_write_ok _ _ _ _ Ht) as [Hle Hs]. rewrite <- Hb in Ht.
    set (w1 := cell_set (set_buffer (drop n (x :: b)) (set_io t (cell_get w))) w).
    assert (fut_turn from_io drain_item () w = Return ((), NextTurn, w1, [])) as Hturn.
    { unfold fut_turn. rewrite inner_bind, Hb, (io_write_bind _ _ _ _ Ht).
      destruct (Nat.eqb_spec n 0) as [->|_]; [lia |].
      rewrite (prog_bind_ret_l false). rewrite split_bind; rewrite cell_get_set; cbn [buffer set_io].
      - by rewrite cell_set_set, Hb.
      - by rewrite Hb. }
    destruct (IH (length (buffer (cell_get w1)))) with (w := w1) as (t' & HGt' & Hs' & Hrun);
      [ | done | by unfold w1; rewrite cell_get_set | ].
    { unfold w1. rewrite cell_get_set. cbn [buffer set_buffer]. rewrite length_drop, Hk. simpl in *. lia. }
    exists t'. split; [done |]. split.
    { rewrite Hs'. unfold total, w1. rewrite cell_get_set; cbn [io buffer set_buffer set_io].
      by rewrite Hs, <- app_assoc, take_drop, Hb. }
    intros [|fuel] Hf; [lia |]. cbn [turns]. rewrite (prog_bind_Return _ _ _ _ _ _ Hturn).
    assert (sent_to t' w1 = sent_to t' w) as Hst.
    { unfold sent_to, w1. by rewrite cell_get_set, cell_set_set. }
    rewrite Hrun, Hst; [done |]. unfold w1. rewrite cell_get_set. cbn [buffer set_buffer].
    rewrite length_drop. simpl in *. lia.
Qed.

Lemma cell_set_same i w : cell_get w = i → cell_set i w = w.
Proof. intros <-. apply cell_set_get. Qed.

Lemma fut_error_none {X} (f : bool → P X) w :
  error (cell_get w) = None → (fut_error ≫= f) w = f false w.
Proof.
  intros He. unfold fut_error. rewrite (prog_bind_assoc inner _ f w), inner_bind.
  rewrite (prog_bind_assoc (update _) _ f w), update_bind, He.
  rewrite (prog_bind_ret_l false f _). f_equal. apply cell_set_same.
  destruct (cell_get w); simpl in *. by rewrite He.
Qed.

(** C33: A stream that takes bytes gets the whole buffer in one poll, which then
    closes the writer if [close] was called.  A stream that blocks gets nothing:
    the actor is made to wait when more than [high] bytes are left, until less
    than [low] are. *)
Theorem writer_poll_progress (G : T → Prop) w :
  error (cell_get w) = None →
  (takes_bytes G → G (io (cell_get w)) →
   ∃ t, aw_sent t = aw_sent (io (cell_get w)) ++ buffer (cell_get w) ∧
     ∀ fuel, (length (buffer (cell_get w)) < fuel)%nat →
       writer_fut_poll from_io drain_item fuel w =
       if flags_contains (flags (cell_get w)) CLOSING
       then (_ ← update (fun i => set_flags (flags_insert (flags i) CLOSED) i);
             _ ← wh_finished; mret (Ok (Ready ()))) (sent_to t w)
       else Return (Ok NotReady, sent_to t w, [])) ∧
  (blocks (io (cell_get w)) → buffer (cell_get w) ≠ [] → ∀ fuel, (0 < fuel)%nat →
   writer_fut_poll from_io drain_item fuel w =
     (_ ← (if (high (cell_get w) <? length (buffer (cell_get w)))%nat
           then ctx_wait drain_item else mret ()); mret (Ok NotReady)) w ∧
   (writer_drain_poll from_io fuel : P _) w =
     Return (if (length (buffer (cell_get w)) <? low (cell_get w))%nat
             then Ok (Ready ()) else Ok NotReady, w, [])).
Proof.
  intros He. split.
  - intros HG Hw. destruct (turns_willing G w HG Hw) as (t1 & HG1 & Hs & Hrun).
    destruct (takes_flush G HG t1 HG1) as (t & Hfl & HGt). exists t.
    split; [by rewrite (aw_flush_sent _ _ _ Hfl) |]. intros fuel Hf.
    unfold writer_fut_poll. rewrite fut_error_none by done.
    rewrite (prog_bind_quiet _ _ _ _ _ (Hrun fuel Hf)). unfold fut_flush.
    rewrite (io_flush_bind (Ok ()) t) by (unfold sent_to; rewrite cell_get_set; exact Hfl).
    assert (cell_set (set_io t (cell_get (sent_to t1 w))) (sent_to t1 w) = sent_to t w) as ->.
    { unfold sent_to. by rewrite cell_get_set, cell_set_set. }
    unfold fut_close. rewrite inner_bind. unfold sent_to at 1. rewrite cell_get_set.
    cbn [flags set_buffer set_io]. by destruct (flags_contains _ _).
  - intros Hbl Hne fuel Hf. destruct (Hbl _ Hne) as (m & Hm).
    assert (cell_set (set_io (io (cell_get w)) (cell_get w)) w = w) as Hsame.
    { apply cell_set_same. by destruct (cell_get w). }
    destruct fuel as [|fuel]; [lia |]. split.
    + unfold writer_fut_poll. rewrite fut_error_none by done. cbn [turns].
      rewrite (prog_bind_assoc (fut_turn _ _ _) _ _ w). unfold fut_turn.
      rewrite (prog_bind_assoc inner _ _ w), inner_bind.
      destruct (buffer (cell_get w)) as [|x b] eqn:Hb; [done |]. rewrite <- Hb in Hm.
      rewrite (prog_bind_assoc io_write _ _ w), (io_write_bind _ _ _ _ Hm), Hsame.
      cbn [is_would_block kind]. rewrite (prog_bind_assoc inner _ _ w), inner_bind, Hb.
      destruct (_ <? _)%nat; [| done]. unfold mbind, prog_bind.
      destruct (ctx_wait drain_item w) as [[[[] w'] n]| | |]; simpl; rewrite ?app_nil_r; done.
    + unfold writer_drain_poll. rewrite inner_bind, He. cbn [turns].
      rewrite (prog_bind_assoc (drain_turn _ _) _ _ w). unfold drain_turn.
      rewrite (prog_bind_assoc inner _ _ w), inner_bind.
      destruct (buffer (cell_get w)) as [|x b] eqn:Hb; [done |]. rewrite <- Hb in Hm.
      rewrite (prog_bind_assoc io_write _ _ w), (io_write_bind _ _ _ _ Hm), Hsame.
      cbn [is_would_block kind]. rewrite (prog_bind_assoc inner _ _ w), inner_bind, Hb.
      by destruct (_ <? _)%nat.
Qed.

(** But a handler that answers [Continue] to an error that does not go away
    never returns to the event loop. *)
Lemma writer_spins e w fuel :
  (∀ b, b ≠ [] → aw_write b (io (cell_get w)) = Return (Err e, io (cell_get w))) →
  is_would_block e = false → wh_error (from_io e) ≡ₘ mret Continue →
  error (cell_get w) = None → buffer (cell_get w) ≠ [] →
  writer_fut_poll from_io drain_item fuel w = OutOfFuel.
Proof.
  intros Hio He Hc Herr Hb. unfold writer_fut_poll. rewrite fut_error_none by done.
  assert (fut_turn from_io drain_item () w = Return ((), NextTurn, w, [])) as Hturn.
  { unfold fut_turn. rewrite inner_bind.
    destruct (buffer (cell_get w)) eqn:Hbuf; [done |]. rewrite <- Hbuf in Hb.
    rewrite (io_write_bind _ _ _ _ (Hio _ Hb)), He.
    assert (cell_set (set_io (io (cell_get w)) (cell_get w)) w = w) as ->.
    { apply cell_set_same. by destruct (cell_get w). }
    unfold error_stops. by rewrite (prog_bind_assoc _ _ _ w), (prog_bind_quiet _ _ _ Continue w) by apply Hc. }
  unfold mbind at 1, prog_bind at 1.
  enough (turns (fut_turn from_io drain_item) fuel () w = OutOfFuel) as -> by done.
  induction fuel as [|fuel IH]; [done |]. cbn [turns].
  by rewrite (prog_bind_quiet _ _ _ _ _ Hturn).
Qed.
End progress.

(** ** Concrete runs *)

Section demo.

(** A stream that takes at most [limit] bytes at a time. *)
Record Pipe : Type := mkPipe { pipe_sent : list byte; limit : nat }.
#[local] Instance pipe_write : AsyncWrite Pipe := {|
  aw_write b t :=
    if (limit t =? 0)%nat then Return (Err (mkIoError WouldBlock "would block"), t)
    else Return (Ok (limit t `min` length b)%nat,
                 mkPipe (pipe_sent t ++ take (limit t `min` length b) b) (limit t));
  aw_flush t := Return (Ok (), t)
|}.
#[local] Instance pipe_laws : AsyncWriteLaws Pipe.
Proof.
  refine {| aw_sent := pipe_sent |}.
  - intros b t n t'. simpl. destruct (limit t =? 0)%nat; intros [= <- <-]. split; [lia | done].
  - intros b t e t'. simpl. by destruct (limit t =? 0)%nat; intros [= <- <-].
  - by intros t r t' [= _ <-].
Defined.

(** The writer, and how often [finished] was called. *)
Abbreviation DemoW := (InnerWriter Pipe IoError * nat)%type.
#[local] Instance demo_cell : Cell DemoW (InnerWriter Pipe IoError).
Proof. refine {| cell_get := fst; cell_set x w := (x, w.2) |}; [done | done | by intros []]. Defined.
#[local] Instance demo_context : AsyncContext DemoW nat nat := {|
  ctx_stop := mret (); ctx_terminate := mret (); ctx_state _ := ARunning;
  ctx_spawn _ := mret 7; ctx_wait _ := mret (); ctx_waiting _ := false;
  ctx_cancel_future _ := mret false
|}.
#[local] Instance demo_handler : WriteHandler (W := DemoW) (Task := nat) (E := IoError) := {|
  wh_error _ := mret Stop;
  wh_finished := modify (fun w => (w.1, S w.2))
|}.

Definition demo_bytes : list byte := [x61; x62; x63; x64; x65].
Definition demo_w0 : DemoW :=
  (mkInnerWriter 0 (mkPipe [] 0) [] None 0 0 0, 0%nat).
Definition demo_ops : list (writer_op (W := DemoW) (Task := nat)) :=
  [WWrite [x61; x62]; WClose; WWrite [x63; x64; x65]; WPoll; WWrite [x66]].

Lemma writer_conserves_witness :
  ∃ w' n, (_ ← new (mkPipe [] 3) 0%nat; run_ops (fun e => e) 0%nat 9 demo_ops) demo_w0 =
            Return ((), w', n) ∧
    pipe_sent (io w'.1) = demo_bytes ∧ buffer w'.1 = [x66] ∧ w'.2 = 1%nat ∧
    pipe_sent (io w'.1) ++ buffer w'.1 = concat (map bytes_of demo_ops) ∧
    ∃ os1 os2, demo_ops = os1 ++ WPoll :: os2 ∧
      concat (map bytes_of os1) `prefix_of` pipe_sent (io w'.1).
Proof.
  assert (Forall (other_keeps (W := DemoW) (Task := nat)) demo_ops) as Hops by repeat constructor.
  eexists _, _. split; [vm_compute; reflexivity |].
  pose proof (writer_conserves (W := DemoW) (Task := nat) (fun e : IoError => e) 0%nat
    (fun e => keeps_ret Stop) (fun i w Hw => Hw) (keeps_ret ()) (mkPipe [] 3) 0%nat demo_ops 9
    demo_w0 _ _ (keeps_ret 7) Hops ltac:(vm_compute; reflexivity)) as [Hb Hc].
  split_and!; [done..| exact Hb | exact (Hc eq_refl)].
Defined.

Lemma writer_poll_progress_witness :
  let i : InnerWriter Pipe IoError := mkInnerWriter CLOSING (mkPipe [] 3) demo_bytes None 4 4 7 in
  let full : InnerWriter Pipe IoError := mkInnerWriter 0 (mkPipe [] 0) demo_bytes None 4 4 7 in
  (∃ t, pipe_sent t = demo_bytes) ∧
  writer_drain_poll (fun e => e) 9 (full, 0%nat) = Return (Ok NotReady, (full, 0%nat), ([] : list nat)).
Proof.
  intros i full. split.
  - pose proof (writer_poll_progress (W := DemoW) (Task := nat) (fun e : IoError => e) 0%nat
      (fun t => limit t = 3%nat) (i, 0%nat)) as Hp.
    destruct (Hp eq_refl) as [Hg _].
    destruct Hg as (t & Hs & _); [split | done | by exists t].
    + intros b t Ht Hb. simpl. rewrite Ht. eexists _, _. split_and!; [done | | done].
      destruct b; [done |]; simpl. lia.
    + intros t Ht. by exists t.
  - pose proof (writer_poll_progress (W := DemoW) (Task := nat) (fun e : IoError => e) 0%nat
      (fun _ => False) (full, 0%nat)) as Hp.
    destruct (Hp eq_refl) as [_ Hb].
    apply Hb; [| done | lia]. intros b _. by eexists.
Defined.
End demo.
