(* ===== verification/Registry.v ===== *)
(** * Registries of services: [src/registry.rs]

    [Registry] belongs to an arbiter and is used by one thread; [SystemRegistry]
    is shared by all, behind a lock it does not hold while it starts a service.
    Both map the [TypeId] of a service to its address as a [Box<Any>].  [start]
    is [Supervisor::start] (or [start_in]) applied to the closure of [get]: it
    runs [default] and [service_started] of the service, which may look up other
    services, or itself: a lookup that is made inside another one can be
    overwritten by it ([greedy_replaces]), so [registry_get_stable] speaks of the
    registry between lookups. *)

From S2P Require Import Prelude.

Section registry.
Context {W Task Addr TypeId : Type} `{!EqDecision TypeId, !Countable TypeId}.
Abbreviation P := (Prog W Task).

(** [Box<Any>] of an address; [downcast_ref]. *)
Record AnyAddr : Type := mkAny { any_type : TypeId; any_addr : Addr }.
Definition downcast_ref (id : TypeId) (v : AnyAddr) : option Addr :=
  if decide (any_type v = id) then Some (any_addr v) else None.

Abbreviation Map := (gmap TypeId AnyAddr).

(** ** [Registry] *)

Section arbiter_registry.
Context `{!Cell W Map}.

Definition registry_new : Map := ∅.

(** The first part of [get]: an address that is there and of the right type. *)
Definition registry_lookup (id : TypeId) : P (option Addr) :=
  reg ← cell_read; mret (reg !! id ≫= downcast_ref id).

(** The fuel bounds how deep services start services. *)
Context (start : (TypeId → P Addr) → TypeId → P Addr).
Fixpoint registry_get (fuel : nat) (id : TypeId) : P Addr :=
  match fuel with
  | O => lift OutOfFuel
  | S fuel =>
      o ← registry_lookup id;
      match o with
      | Some addr => mret addr
      | None =>
          addr ← start (registry_get fuel) id;
          _ ← cell_update (insert id (mkAny id addr));
          mret addr
      end
  end.
End arbiter_registry.

(** ** [SystemRegistry] *)

Record SystemRegistry : Type := mkSystemRegistry { sr_map : Map; sr_poisoned : bool }.

Section system_registry.
Context `{!Cell W SystemRegistry}.

Definition system_registry_new : SystemRegistry := mkSystemRegistry ∅ false.

(** The two critical sections of [get]. *)
Definition with_lock {X} (f : Map → X * Map) : P X :=
  r ← cell_read;
  if sr_poisoned r then lift (Panic "System registry lock is poisoned")
  else
    let '(x, m) := f (sr_map r) in
    _ ← cell_update (fun r => mkSystemRegistry m (sr_poisoned r)); mret x.
Definition system_lookup (id : TypeId) : P (option Addr) :=
  with_lock (fun m => (m !! id ≫= downcast_ref id, m)).
Definition system_insert (id : TypeId) (addr : Addr) : P () :=
  with_lock (fun m => ((), <[id := mkAny id addr]> m)).

Definition system_get (start : TypeId → P Addr) (id : TypeId) : P Addr :=
  o ← system_lookup id;
  match o with
  | Some addr => mret addr
  | None => addr ← start id; _ ← system_insert id addr; mret addr
  end.
End system_registry.

(** ** Types *)

(** What is stored under the type of a service is an address of that service. *)
Definition well_typed (reg : Map) : Prop := ∀ id v, reg !! id = Some v → any_type v = id.

Lemma well_typed_empty : well_typed ∅.
Proof. intros id v. by rewrite lookup_empty. Qed.

Lemma well_typed_insert id addr reg : well_typed reg → well_typed (<[id := mkAny id addr]> reg).
Proof. intros Hr id' v [[<- <-]|[_ Hv]]%lookup_insert_Some; [done | by apply Hr]. Qed.

Lemma downcast_lookup reg id :
  well_typed reg → reg !! id ≫= downcast_ref id = any_addr <$> reg !! id.
Proof.
  intros Hr. destruct (reg !! id) as [v|] eqn:Hv; simpl; [| done].
  unfold downcast_ref. by rewrite decide_True by by apply Hr.
Qed.

(** ** What lookups promise *)

Section lookups.
Context `{!Cell W Map} (start : (TypeId → P Addr) → TypeId → P Addr).

(** A service reaches the registry only through [get]. *)
Context (start_uses_get : ∀ (J : Map → Prop) get id,
  (∀ id', triple false (fun w => J (cell_get w)) (get id') (fun _ w => J (cell_get w))) →
  triple false (fun w => J (cell_get w)) (start get id) (fun _ w => J (cell_get w))).

Lemma registry_lookup_spec id w :
  well_typed (cell_get w) →
  registry_lookup id w = Return (any_addr <$> cell_get w !! id, w, []).
Proof.
  intros Hr. unfold registry_lookup, cell_read. rewrite prog_bind_gets. by rewrite downcast_lookup.
Qed.

Lemma registry_get_triple fuel id reg :
  triple false (fun w => well_typed (cell_get w) ∧ reg ⊆ cell_get w)
    (registry_get start fuel id)
    (fun addr w => (well_typed (cell_get w) ∧ reg ⊆ cell_get w) ∧
                   cell_get w !! id = Some (mkAny id addr)).
Proof.
  revert id reg. induction fuel as [|fuel IH]; intros id reg w [Hw Hr]; [done |].
  cbn [registry_get]. rewrite (prog_bind_quiet _ _ _ _ _ (registry_lookup_spec id w Hw)).
  destruct (cell_get w !! id) as [[id' addr]|] eqn:Hid; simpl.
  { pose proof (Hw _ _ Hid) as Ht. simpl in Ht. subst id'. done. }
  assert (triple false (fun w' => well_typed (cell_get w') ∧ reg ⊆ cell_get w')
    (start (registry_get start fuel) id)
    (fun _ w' => well_typed (cell_get w') ∧ reg ⊆ cell_get w')) as Hstart.
  { apply (start_uses_get (fun m => well_typed m ∧ reg ⊆ m)). intros id'.
    eapply triple_conseq; [apply (IH id' reg) | done |]. by intros addr w' [? _]. }
  assert (triple false (fun w' => well_typed (cell_get w') ∧ reg ⊆ cell_get w')
    (addr ← start (registry_get start fuel) id;
     _ ← cell_update (insert id (mkAny id addr)); mret addr)
    (fun addr w' => (well_typed (cell_get w') ∧ reg ⊆ cell_get w') ∧
                    cell_get w' !! id = Some (mkAny id addr))) as Hrest; [| exact (Hrest w (conj Hw Hr))].
  eapply triple_bind; [exact Hstart |]. intros addr.
  eapply (triple_bind _ _ _ _ (fun _ w' => (well_typed (cell_get w') ∧ reg ⊆ cell_get w') ∧
    cell_get w' !! id = Some (mkAny id addr))); [| intros []; by apply triple_ret].
  apply triple_modify. intros w' [Hw' Hr']. rewrite cell_get_set.
  split_and!; [by apply well_typed_insert | | apply lookup_insert_eq].
  apply insert_subseteq_r; [| done]. by eapply lookup_weaken_None.
Qed.

(** A lookup of a service that is registered gives its address and starts nothing. *)
Lemma registry_get_there fuel id addr w :
  well_typed (cell_get w) → cell_get w !! id = Some (mkAny id addr) →
  registry_get start (S fuel) id w = Return (addr, w, []).
Proof.
  intros Hw Hid. cbn [registry_get]. rewrite (prog_bind_quiet _ _ _ _ _ (registry_lookup_spec id w Hw)).
  by rewrite Hid.
Qed.

(** The lookups of the program, one after the other, with the addresses they gave,
    and in between code that leaves the registry alone.  The lookups that starting
    a service makes are parts of these. *)
Inductive lookups (w0 : W) : list (TypeId * Addr) → W → Prop :=
| lookups_nil : lookups w0 [] w0
| lookups_get l w fuel id addr w' n :
    lookups w0 l w → registry_get start fuel id w = Return (addr, w', n) →
    lookups w0 (l ++ [(id, addr)]) w'
| lookups_other l w w' : lookups w0 l w → cell_get w' = cell_get w → lookups w0 l w'.

(** C34: let services reach the registry only through [get].  Along any sequence of
    lookups the registry keeps its types, every entry that is there when a lookup
    begins is there when it ends, and every service that was looked up is
    registered under the address that was given, for good: all lookups of a
    service give the same address, and the later ones start nothing.  (Between the
    beginning and the end of one lookup an entry can be replaced: see
    [greedy_replaces].) *)
Theorem registry_get_stable w0 l w :
  well_typed (cell_get w0) → lookups w0 l w →
  well_typed (cell_get w) ∧ cell_get w0 ⊆ cell_get w ∧
  (∀ id addr, (id, addr) ∈ l → cell_get w !! id = Some (mkAny id addr) ∧
     ∀ fuel, registry_get start (S fuel) id w = Return (addr, w, [])) ∧
  (∀ id a1 a2, (id, a1) ∈ l → (id, a2) ∈ l → a1 = a2).
Proof.
  intros Hw0 Hl.
  assert (well_typed (cell_get w) ∧ cell_get w0 ⊆ cell_get w ∧
    ∀ id addr, (id, addr) ∈ l → cell_get w !! id = Some (mkAny id addr)) as (Hw & Hsub & Hin).
  { induction Hl as [|l w fuel id addr w' n _ IH Hget|l w w' _ IH Heq].
    - split_and!; [done | done |]. by intros id addr ?%not_elem_of_nil.
    - destruct IH as (Hw & Hsub & Hin).
      pose proof (registry_get_triple fuel id (cell_get w) w) as Ht. rewrite Hget in Ht.
      destruct Ht as [[Hw' Hr] Hid]; [done |]. split_and!; [done | by etrans |].
      intros id' a [Hi|Hi]%elem_of_app; [eapply lookup_weaken; [by apply Hin | done] |].
      by apply list_elem_of_singleton in Hi as [= -> ->].
    - by rewrite Heq. }
  split_and!; [done | done | |].
  - intros id addr Hi. split; [by apply Hin |]. intros fuel. by apply registry_get_there, Hin.
  - intros id a1 a2 H1%Hin H2%Hin. congruence.
Qed.

(** A service that looks itself up while it is started is started without end. *)
Lemma registry_self_lookup fuel id (k : Addr → P Addr) w :
  well_typed (cell_get w) → cell_get w !! id = None →
  (∀ get, start get id ≡ₘ (a ← get id; k a)) →
  registry_get start fuel id w = OutOfFuel.
Proof.
  intros Hw Hid Hs. induction fuel as [|fuel IH]; [done |]. cbn [registry_get].
  rewrite (prog_bind_quiet _ _ _ _ _ (registry_lookup_spec id w Hw)), Hid. simpl.
  assert (start (registry_get start fuel) id w = OutOfFuel) as Hf.
  { rewrite (Hs _ w). unfold mbind, prog_bind. by rewrite IH. }
  unfold mbind at 1, prog_bind at 1. by rewrite Hf.
Qed.
End lookups.

(** Two threads that look up a service of the system at the same time: both find
    nothing, both start it, and the second one's address replaces the first's. *)
Definition system_race `{!Cell W SystemRegistry} (start : TypeId → P Addr) (id : TypeId)
  : P (option (Addr * Addr)) :=
  o1 ← system_lookup id;
  o2 ← system_lookup id;
  match o1, o2 with
  | None, None =>
      a1 ← start id; _ ← system_insert id a1;
      a2 ← start id; _ ← system_insert id a2;
      mret (Some (a1, a2))
  | _, _ => mret None
  end.

Lemma system_race_starts_twice `{!Cell W SystemRegistry} (start : TypeId → P Addr) id w m a1 a2 w1 w2 n1 n2 :
  cell_get w = mkSystemRegistry m false → m !! id = None →
  start id w = Return (a1, w1, n1) → cell_get w1 = cell_get w →
  start id (cell_set (mkSystemRegistry (<[id := mkAny id a1]> m) false) w1) = Return (a2, w2, n2) →
  cell_get w2 = mkSystemRegistry (<[id := mkAny id a1]> m) false →
  ∃ w', system_race start id w = Return (Some (a1, a2), w', n1 ++ n2) ∧
    cell_get w' = mkSystemRegistry (<[id := mkAny id a2]> (<[id := mkAny id a1]> m)) false.
Proof.
  intros Hw Hid H1 Hw1 H2 Hw2.
  assert (∀ (w : W) m, cell_get w = mkSystemRegistry m false → m !! id = None →
    system_lookup id w = Return (None, w, [])) as Hl.
  { clear. intros w m Hw Hid. unfold system_lookup, with_lock, cell_read, cell_update.
    rewrite prog_bind_gets, Hw. simpl. unfold mbind, prog_bind; simpl. rewrite Hid, Hw. simpl.
    by rewrite <- Hw, cell_set_get. }
  assert (∀ a (w : W) m, cell_get w = mkSystemRegistry m false →
    system_insert id a w = Return ((), cell_set (mkSystemRegistry (<[id := mkAny id a]> m) false) w, [])) as Hi.
  { clear. intros a w m Hw. unfold system_insert, with_lock, cell_read, cell_update.
    rewrite prog_bind_gets, Hw. simpl. unfold mbind, prog_bind; simpl. by rewrite Hw. }
  unfold system_race. rewrite !(prog_bind_quiet _ _ _ _ _ (Hl w m Hw Hid)).
  rewrite Hw in Hw1. eexists. split.
  - rewrite (prog_bind_Return _ _ _ _ _ _ H1), (prog_bind_quiet _ _ _ _ _ (Hi a1 w1 m Hw1)).
    rewrite (prog_bind_Return _ _ _ _ _ _ H2), (prog_bind_quiet _ _ _ _ _ (Hi a2 w2 _ Hw2)).
    simpl. by rewrite app_nil_r.
  - by rewrite cell_get_set.
Qed.
End registry.

(** ** A concrete registry *)

Section demo.
Abbreviation DemoW := (gmap nat (AnyAddr (Addr := nat) (TypeId := nat)) * nat)%type.
#[local] Instance demo_registry : Cell DemoW (gmap nat (AnyAddr (Addr := nat) (TypeId := nat))).
Proof. refine {| cell_get := fst; cell_set x w := (x, w.2) |}; [done | done | by intros []]. Defined.

(** Service 1 looks up service 2 when it is started; an address is a number. *)
Definition demo_start (get : nat → Prog DemoW nat nat) (id : nat) : Prog DemoW nat nat :=
  _ ← (if decide (id = 1%nat) then get 2%nat else mret 0%nat);
  n ← gets snd;
  _ ← modify (fun w : DemoW => (w.1, S w.2));
  mret n.

Lemma demo_start_uses_get (J : gmap nat _ → Prop) get id :
  (∀ id', triple false (fun w => J (cell_get w)) (get id') (fun _ w => J (cell_get w))) →
  triple false (fun w => J (cell_get w)) (demo_start get id) (fun _ w => J (cell_get w)).
Proof.
  intros Hget. apply (triple_bind _ _ _ _ (fun _ w => J (cell_get w))).
  { destruct (decide (id = 1%nat)); [apply Hget | by apply triple_ret]. }
  intros _ [m n] Hw. exact Hw.
Qed.

(** Service 1 is looked up, then service 2, then service 1 again. *)
Lemma registry_get_stable_witness :
  ∃ w, lookups demo_start (∅, 40%nat) [(1, 41); (2, 40); (1, 41)]%nat w ∧
    cell_get w !! 1%nat = Some (mkAny 1%nat 41%nat) ∧
    ∀ fuel, registry_get demo_start (S fuel) 2%nat w = Return (40%nat, w, []).
Proof.
  assert (∃ w, lookups (W := DemoW) (Task := nat) demo_start (∅, 40%nat) [(1, 41); (2, 40); (1, 41)]%nat w)
    as [w Hl].
  { pose proof (lookups_nil demo_start ((∅, 40%nat) : DemoW)) as H.
    eapply (lookups_get _ _ _ _ 3 1%nat) in H; [| vm_compute; reflexivity].
    eapply (lookups_get _ _ _ _ 3 2%nat) in H; [| vm_compute; reflexivity].
    eapply (lookups_get _ _ _ _ 3 1%nat) in H; [| vm_compute; reflexivity].
    by eexists. }
  exists w. split; [exact Hl |].
  destruct (registry_get_stable (W := DemoW) (Task := nat) demo_start demo_start_uses_get
    (∅, 40%nat) _ w well_typed_empty Hl) as (_ & _ & Hin & _).
  split; [apply (Hin 1%nat 41%nat); by left | apply (Hin 2%nat 40%nat); right; by left].
Defined.

(** A service that looks itself up the first time it is started, and is told apart by
    a counter: the address it got for itself is not the one that is registered. *)
Definition greedy_start (get : nat → Prog DemoW nat nat) (id : nat) : Prog DemoW nat nat :=
  n ← gets snd;
  _ ← modify (fun w : DemoW => (w.1, S w.2));
  if bool_decide (n = 0%nat) then a ← get id; mret (10 + a)%nat else mret n.

Example greedy_replaces :
  registry_get greedy_start 3 5%nat (∅, 0%nat) =
  Return (11%nat, ({[5%nat := mkAny 5%nat 11%nat]}, 2%nat), []).
Proof. vm_compute. reflexivity. Qed.
End demo.
