(* ===== verification/Codec.v ===== *)
(** * The chat example's wire format: [examples/chat/src/codec.rs]

    A frame is the length of the body as two bytes, the most significant first,
    then the body, a message as JSON.  JSON is made and read by serde: [Json] says
    what the codec relies on. *)

From Stdlib Require Import Strings.Byte.
From S2P Require Import Prelude.
From S2P Require Import Writer.

Inductive ChatRequest : Type :=
| List
| Join (name : string)
| RequestMessage (msg : string)
| RequestPing.

Inductive ChatResponse : Type :=
| Ping
| Rooms (names : list string)
| Joined (name : string)
| ResponseMessage (msg : string).

(** [json::to_string] and [json::from_slice]. *)
Class Json (T : Type) : Type := {
  to_json : T → list byte;
  from_json : list byte → Result T IoError;
  from_to_json m : from_json (to_json m) = Ok m
}.

(** ** Bytes *)

Definition u16_modulus : nat := N.to_nat 65536.
Definition nth_byte (n : nat) : byte := default x00 (of_N (N.of_nat n mod 256)).
Definition byte_nat (b : byte) : nat := N.to_nat (to_N b).

Lemma u16_modulus_value : u16_modulus = (256 * 256)%nat.
Proof. exact (N2Nat.inj_mul 256 256). Qed.
#[global] Opaque u16_modulus.

(** [put_u16::<BigEndian>] of [n as u16], and [BigEndian::read_u16]; reading
    panics when there are not two bytes. *)
Definition put_u16 (n : nat) : list byte :=
  let n := (n mod u16_modulus)%nat in [nth_byte (n / 256); nth_byte n].
Definition read_u16 (b : list byte) : Exec nat :=
  match b with
  | hi :: lo :: _ => Return (byte_nat hi * 256 + byte_nat lo)%nat
  | _ => Panic "read_u16 out of bounds"
  end.

Section codec.
Context {T : Type} `{!Json T}.

(** [encode]; [reserve] only allocates. *)
Definition encode_frame (msg : T) (dst : list byte) : Exec (Result () IoError * list byte) :=
  let msg := to_json msg in
  Return (Ok (), (dst ++ put_u16 (length msg)) ++ msg).

(** [decode]: the message and what is left of the buffer. *)
Definition decode_frame (src : list byte) : Exec (Result (option T) IoError * list byte) :=
  if (length src <? 2)%nat then Return (Ok None, src)
  else
    size ← read_u16 src;
    if (size + 2 <=? length src)%nat then
      rest ← split_to 2 src;
      let buf := take size rest in
      rest ← split_to size rest;
      Return (result_map Some (from_json buf), rest)
    else Return (Ok None, src).

(** What a [FramedRead] does with the bytes it has: decode until a frame is
    incomplete. *)
Fixpoint decode_all (fuel : nat) (src : list byte) : Exec (list (Result T IoError) * list byte) :=
  match fuel with
  | O => OutOfFuel
  | S fuel =>
      '(r, rest) ← decode_frame src;
      match r with
      | Ok None => Return ([], rest)
      | Ok (Some m) => '(ms, rest) ← decode_all fuel rest; Return (Ok m :: ms, rest)
      | Err e => '(ms, rest) ← decode_all fuel rest; Return (Err e :: ms, rest)
      end
  end.
End codec.

(** The two codecs. *)
Section codecs.
Context `{!Json ChatRequest, !Json ChatResponse}.
Definition chat_decode : list byte → Exec (Result (option ChatRequest) IoError * list byte) := decode_frame.
Definition chat_encode : ChatResponse → list byte → Exec (Result () IoError * list byte) := encode_frame.
Definition client_decode : list byte → Exec (Result (option ChatResponse) IoError * list byte) := decode_frame.
Definition client_encode : ChatRequest → list byte → Exec (Result () IoError * list byte) := encode_frame.
End codecs.

(** ** Lengths *)

Lemma byte_nat_bound b : (byte_nat b < 256)%nat.
Proof. unfold byte_nat. pose proof (to_N_bounded b). lia. Qed.

Lemma byte_nat_nth n : byte_nat (nth_byte n) = (n mod 256)%nat.
Proof.
  unfold byte_nat, nth_byte. destruct (of_N (N.of_nat n mod 256)) eqn:Hb.
  - apply to_of_N in Hb. simpl. rewrite Hb, N2Nat.inj_mod, Nat2N.id. done.
  - apply of_N_None_iff in Hb. pose proof (N.mod_lt (N.of_nat n) 256). lia.
Qed.

Lemma read_put n l : (n < u16_modulus)%nat → read_u16 (put_u16 n ++ l) = Return n.
Proof.
  intros Hn. unfold put_u16. rewrite (Nat.mod_small n) by done. simpl.
  rewrite !byte_nat_nth. rewrite u16_modulus_value in Hn.
  rewrite (Nat.mod_small (n / 256)) by (apply Nat.Div0.div_lt_upper_bound; lia).
  rewrite (Nat.div_mod_eq n 256) at 3. f_equal. lia.
Qed.

(** ** Round trips *)

Section roundtrip.
Context {T : Type} `{!Json T}.
Implicit Types (m : T) (src : list byte).

Definition frame m : list byte := put_u16 (length (to_json m)) ++ to_json m.
Definition fits m : Prop := (length (to_json m) < u16_modulus)%nat.

Lemma encode_frame_spec m dst : encode_frame m dst = Return (Ok (), dst ++ frame m).
Proof. unfold encode_frame, frame. by rewrite <- app_assoc. Qed.

(** [decode] never panics; it takes nothing unless it decodes a frame. *)
Lemma decode_frame_total src :
  ∃ r rest, decode_frame (T := T) src = Return (r, rest) ∧
    (r = Ok None ∧ rest = src ∨ r ≠ Ok None ∧ (length rest + 2 ≤ length src)%nat).
Proof.
  unfold decode_frame. destruct (Nat.ltb_spec (length src) 2); [eexists _, _; split; [done |]; by left |].
  destruct src as [|hi [|lo src]]; simpl in *; [lia | lia |].
  destruct (Nat.leb_spec (byte_nat hi * 256 + byte_nat lo + 2) (S (S (length src)))).
  - unfold split_to. simpl. rewrite ?drop_0. rewrite (proj2 (Nat.leb_le _ _)) by lia. simpl.
    eexists _, _. split; [done |]. right. split; [by destruct (from_json _) |].
    rewrite length_drop. lia.
  - eexists _, _. split; [done |]. by left.
Qed.

(** More bytes do not change a frame that was complete. *)
Lemma decode_frame_app a b r rest :
  decode_frame (T := T) a = Return (r, rest) → r ≠ Ok None →
  decode_frame (a ++ b) = Return (r, rest ++ b).
Proof.
  unfold decode_frame. destruct (Nat.ltb_spec (length a) 2); [by intros [= <- _] |].
  destruct a as [|hi [|lo a]]; simpl in *; [lia | lia |].
  destruct (Nat.leb_spec (byte_nat hi * 256 + byte_nat lo + 2) (S (S (length a)))) as [Hs|];
    [| by intros [= <- _]].
  rewrite (proj2 (Nat.leb_le _ (S (S (length (a ++ b)))))) by (rewrite length_app; lia).
  unfold split_to. simpl. rewrite ?drop_0. rewrite !(proj2 (Nat.leb_le _ _)) by (rewrite ?length_app; lia). simpl.
  intros [= <- <-] _. by rewrite take_app_le, drop_app_le by lia.
Qed.

(** Reading the two bytes of a length [n] and then [n] bytes. *)
Lemma decode_frame_sized n src :
  (n < u16_modulus)%nat → (n ≤ length src)%nat →
  decode_frame (put_u16 n ++ src) =
  Return (result_map (T := T) Some (from_json (take n src)), drop n src).
Proof.
  intros Hn Hle. unfold decode_frame. rewrite (read_put n src Hn).
  change (put_u16 n ++ src) with
    (nth_byte (n mod u16_modulus / 256) :: nth_byte (n mod u16_modulus) :: src).
  cbn [length Nat.ltb Nat.leb mbind exec_bind]. rewrite (proj2 (Nat.leb_le _ _)) by lia.
  unfold split_to. cbn [length Nat.leb drop mbind exec_bind]. rewrite !drop_0.
  by rewrite (proj2 (Nat.leb_le _ _)) by lia.
Qed.

Lemma decode_frame_frame m src : fits m → decode_frame (frame m ++ src) = Return (Ok (Some m), src).
Proof.
  intros Hm. unfold frame. rewrite <- app_assoc, decode_frame_sized; [| done | rewrite length_app; lia].
  by rewrite take_app_length, drop_app_length, from_to_json.
Qed.

(** A body of [2^16] bytes or more is announced modulo [2^16]: the reader takes
    a part of it for the message and the rest for the frames that follow. *)
Lemma oversized_frame_misread m src :
  let size := (length (to_json m) mod u16_modulus)%nat in
  decode_frame (frame m ++ src) =
  Return (result_map (T := T) Some (from_json (take size (to_json m))), drop size (to_json m) ++ src).
Proof.
  intros size. assert (size ≤ length (to_json m))%nat as Hle by apply Nat.Div0.mod_le.
  assert (put_u16 (length (to_json m)) = put_u16 size) as Hput.
  { unfold put_u16, size. by rewrite Nat.Div0.mod_mod. }
  assert (size < u16_modulus)%nat as Hs by by apply Nat.mod_upper_bound.
  unfold frame. rewrite Hput, <- app_assoc, decode_frame_sized; [| done | rewrite length_app; lia].
  by rewrite take_app_le, drop_app_le.
Qed.

(** *** Streams of frames *)

Lemma decode_all_step src r rest x :
  decode_frame src = Return (r, rest) → r ≠ Ok None →
  (fun fuel => decode_all fuel rest) ⇓ x →
  (fun fuel => decode_all fuel src) ⇓
    ((match r with Ok (Some m) => Ok m | Ok None => Err write_zero | Err e => Err e end : Result T IoError)
       :: x.1, x.2).
Proof.
  intros Hr Hne [n Hn]. exists (S n). intros [|fuel] Hf; [lia |]. cbn [decode_all].
  rewrite Hr. simpl. rewrite (Hn fuel) by lia. by destruct r as [[|]|], x.
Qed.

Lemma decode_all_stuck src :
  decode_frame (T := T) src = Return (Ok None, src) → (fun fuel => decode_all (T := T) fuel src) ⇓ ([], src).
Proof. intros Hr. exists 1%nat. intros [|fuel] Hf; [lia |]. cbn [decode_all]. by rewrite Hr. Qed.

(** Decoding ends, and what it leaves has no complete frame; with more bytes it
    goes on where it stopped. *)
Lemma decode_all_total src :
  ∃ ms rest, (fun fuel => decode_all (T := T) fuel src) ⇓ (ms, rest) ∧
    decode_frame (T := T) rest = Return (Ok None, rest) ∧
    ∀ b x, (fun fuel => decode_all fuel (rest ++ b)) ⇓ x →
           (fun fuel => decode_all fuel (src ++ b)) ⇓ (ms ++ x.1, x.2).
Proof.
  remember (length src) as n eqn:Hn. revert src Hn.
  induction n as [n IH] using lt_wf_ind. intros src ->.
  destruct (decode_frame_total src) as (r & rest & Hr & [[-> ->]|[Hne Hlen]]).
  - exists [], src. split_and!; [by apply decode_all_stuck | done | by intros b [] ?].
  - destruct (IH (length rest) ltac:(lia) rest eq_refl) as (ms & rest' & Hms & Hst & Happ).
    eexists _, rest'. split_and!; [exact (decode_all_step _ _ _ _ Hr Hne Hms) | done |].
    intros b x Hx. exact (decode_all_step _ _ _ _ (decode_frame_app _ b _ _ Hr Hne) Hne (Happ b x Hx)).
Qed.

(** The frames of some messages, as the encoder makes them, and a reader that
    gets them in chunks. *)
Fixpoint encode_all (ms : list T) (dst : list byte) : Exec (list byte) :=
  match ms with
  | [] => Return dst
  | m :: ms => '(_, dst) ← encode_frame m dst; encode_all ms dst
  end.
Fixpoint feed (fuel : nat) (chunks : list (list byte)) (buf : list byte)
  : Exec (list (Result T IoError) * list byte) :=
  match chunks with
  | [] => Return ([], buf)
  | c :: chunks =>
      '(ms1, buf) ← decode_all fuel (buf ++ c);
      '(ms2, buf) ← feed fuel chunks buf;
      Return (ms1 ++ ms2, buf)
  end.

Lemma encode_all_spec ms dst : encode_all ms dst = Return (dst ++ concat (map frame ms)).
Proof.
  revert dst. induction ms as [|m ms IH]; intros dst; [by simpl; rewrite app_nil_r |].
  cbn [encode_all]. rewrite encode_frame_spec. cbn [mbind exec_bind]. rewrite IH.
  by rewrite <- app_assoc.
Qed.

Lemma decode_all_frames ms :
  Forall fits ms → (fun fuel => decode_all fuel (concat (map frame ms))) ⇓ (map Ok ms, []).
Proof.
  induction 1 as [|m ms Hm _ IH]; [by apply decode_all_stuck |].
  exact (decode_all_step _ _ _ _ (decode_frame_frame m _ Hm) ltac:(done) IH).
Qed.

(** How the bytes are cut into chunks makes no difference. *)
Lemma feed_decode_all chunks buf x :
  decode_frame (T := T) buf = Return (Ok None, buf) →
  (fun fuel => decode_all fuel (buf ++ concat chunks)) ⇓ x → (fun fuel => feed fuel chunks buf) ⇓ x.
Proof.
  revert buf x. induction chunks as [|c chunks IH]; intros buf x Hb Hx; simpl in *.
  - rewrite app_nil_r in Hx. by rewrite (returns_det _ _ _ Hx (decode_all_stuck _ Hb)); exists 0%nat.
  - destruct (decode_all_total (buf ++ c)) as (ms & rest & Hms & Hst & Happ).
    destruct (decode_all_total (rest ++ concat chunks)) as (ms2 & rest2 & H2 & _ & _).
    pose proof (Happ _ _ H2) as Hall. rewrite <- app_assoc in Hall.
    rewrite (returns_det _ _ _ Hx Hall). destruct (IH _ _ Hst H2) as [n2 Hn2].
    destruct Hms as [n1 Hn1]. exists (n1 + n2)%nat. intros fuel Hf.
    rewrite (Hn1 fuel) by lia. simpl. by rewrite (Hn2 fuel) by lia.
Qed.

(** Messages whose JSON is shorter than 2^16 bytes survive the wire: however
    the bytes of their frames are cut into chunks, the reader decodes the
    messages, in order, and nothing is left over. *)
Theorem codec_roundtrip ms stream chunks :
  Forall fits ms → encode_all ms [] = Return stream → concat chunks = stream →
  (fun fuel => feed fuel chunks []) ⇓ (map Ok ms, []).
Proof.
  intros Hms. rewrite encode_all_spec. intros [= <-] Hc. apply feed_decode_all; [done |].
  rewrite Hc. by apply decode_all_frames.
Qed.
End roundtrip.

(** ** A concrete stream *)

#[local] Instance bytes_json : Json (list byte) := {|
  to_json m := m; from_json b := Ok b; from_to_json m := eq_refl
|}.

Lemma codec_roundtrip_witness :
  encode_all [[x61; x62]; []; [x63]] [] =
    Return [x00; x02; x61; x62; x00; x00; x00; x01; x63] ∧
  (fun fuel => feed (T := list byte) fuel [[x00]; [x02; x61]; [x62; x00; x00; x00]; []; [x01; x63]] []) ⇓
    ([Ok [x61; x62]; Ok []; Ok [x63]], []).
Proof.
  split; [vm_compute; reflexivity |].
  apply (codec_roundtrip (T := list byte) [[x61; x62]; []; [x63]]
    [x00; x02; x61; x62; x00; x00; x00; x01; x63]); [| vm_compute; reflexivity | reflexivity].
  repeat (apply Forall_cons; split; [unfold fits; rewrite u16_modulus_value; cbn [to_json bytes_json length]; lia |]).
  constructor.
Defined.
