(* ===== verification/Resolver.v ===== *)
(** * Resolving names and connecting: [src/actors/resolver.rs]

    The sockets and timers are tokio's, the DNS lookups trust-dns's; addresses
    are of the standard library.  What the source uses of them are parameters:
    [parse_addr] is [str::parse::<SocketAddr>], [socket_addr] is
    [SocketAddr::new]; lookups, connections and timers are handles into the
    world that are polled.

    A connector is compared with a program that connects to the addresses in
    order ([connect_all]): the connector is polled again and again, and the rest
    of the program runs between two polls ([connect_in_order]). *)

From Stdlib Require Import Ascii.
From S2P Require Import Prelude.
From S2P Require Import Fut.
From S2P Require Import FutProps.
From S2P Require Import AsyncContext.

(** ** Errors *)

Inductive ConnectorError (IoErr : Type) : Type :=
| ResolverError (msg : string)
| InvalidInput (msg : string)
| TimeoutError
| IoError (e : IoErr).
Arguments ResolverError {IoErr}.
Arguments InvalidInput {IoErr}.
Arguments TimeoutError {IoErr}.
Arguments IoError {IoErr}.

(** Their texts; [io_display] is [Display] of the I/O error. *)
Definition connector_error_display {IoErr} (io_display : IoErr → string) (e : ConnectorError IoErr)
  : string :=
  match e with
  | ResolverError msg => ("Failed resolving hostname: " ++ msg)%string
  | InvalidInput msg => ("Invalid input: " ++ msg)%string
  | TimeoutError => "Timeout out while establishing connection"
  | IoError e => io_display e
  end.

(** ** [Resolver::parse] *)

(** [addr.splitn(2, ':')]: its first part, which is always there, and its
    second. *)
Fixpoint split_colon (s : string) : string * option string :=
  match s with
  | EmptyString => (EmptyString, None)
  | String c s' =>
      if bool_decide (c = ":"%char) then (EmptyString, Some s')
      else let '(a, b) := split_colon s' in (String c a, b)
  end.

(** [str::parse::<u16>]: an optional plus sign, then digits. *)
Definition digit (c : Ascii.ascii) : option Z :=
  let n := Z.of_N (Ascii.N_of_ascii c) - 48 in
  if (0 <=? n) && (n <=? 9) then Some n else None.
Fixpoint parse_digits (s : string) (acc : Z) : option Z :=
  match s with
  | EmptyString => Some acc
  | String c s =>
      n ← digit c;
      let acc := 10 * acc + n in
      if acc <=? 65535 then parse_digits s acc else None
  end.
Definition parse_u16 (s : string) : option Z :=
  let digits := match s with String "+"%char s' => s' | _ => s end in
  match digits with EmptyString => None | _ => parse_digits digits 0 end.

Definition resolver_parse {IoErr} (addr : string) (port : Z)
  : Result (string * Z) (ConnectorError IoErr) :=
  let '(host, rest) := split_colon addr in
  Ok (host, default port (parse_u16 (default EmptyString rest))).

Section resolver.
Context {W Task SocketAddr IpAddr Lookup LookupErr TcpStreamNew TcpStream IoErr Dur Timer : Type}.
Abbreviation P := (Prog W Task).
Context (parse_addr : string → option SocketAddr) (socket_addr : IpAddr → Z → SocketAddr).
Context (lookup_ip : string → P Lookup) (lookup_poll : Lookup → P (Poll (list IpAddr) LookupErr))
        (format_error : LookupErr → string).
Context (tcp_connect : SocketAddr → P TcpStreamNew) (tcp_poll : TcpStreamNew → P (Poll TcpStream IoErr)).
Context (timer_new : Dur → P Timer) (timer_poll : Timer → P (Poll () ())) (one_second : Dur).
Abbreviation Error := (ConnectorError IoErr).

(** ** Messages *)

Record Resolve : Type := mkResolve { resolve_name : string; resolve_port : option Z }.
Record Connect : Type := mkConnect { connect_name : string; connect_port : option Z }.
Record ConnectAddr : Type := mkConnectAddr { connect_addr : SocketAddr }.

Definition resolve_host (host : string) : Resolve := mkResolve host None.
Definition resolve_host_and_port (host : string) (port : Z) : Resolve := mkResolve host (Some port).
Definition connect_host (host : string) : Connect := mkConnect host None.
Definition connect_host_and_port (host : string) (port : Z) : Connect := mkConnect host (Some port).

(** [Connector::default] on Unix: the resolver of the system's configuration,
    or else the one of the default configuration. *)
Definition connector_default {ResolverFuture ConfErr}
    (from_system_conf : P (Result ResolverFuture ConfErr)) (resolver_future_new : P ResolverFuture)
  : P ResolverFuture :=
  r ← from_system_conf;
  match r with Ok resolver => mret resolver | Err _ => resolver_future_new end.

(** ** [Resolver] *)

Record Resolver : Type := mkResolver {
  lookup : option Lookup;
  port : Z;
  addrs : option (list SocketAddr);
  error : option Error
}.

Definition resolver_new (addr : string) (port : Z) : P Resolver :=
  match parse_addr addr with
  | Some a => mret (mkResolver None port (Some [a]) None)
  | None =>
      match resolver_parse addr port with
      | Ok (host, port) => l ← lookup_ip host; mret (mkResolver (Some l) port None None)
      | Err err => mret (mkResolver None port None (Some err))
      end
  end.

Definition resolver_poll (r : Resolver) : P (Resolver * Poll (list SocketAddr) Error) :=
  match error r with
  | Some err => mret (mkResolver (lookup r) (port r) (addrs r) None, Err err)
  | None =>
      match addrs r with
      | Some a => mret (mkResolver (lookup r) (port r) None None, Ok (Ready a))
      | None =>
          l ← lift (unwrap "called `Option::unwrap()` on a `None` value" (lookup r));
          p ← lookup_poll l;
          mret (r, match p with
                   | Ok NotReady => Ok NotReady
                   | Ok (Ready ips) =>
                       match map (fun ip => socket_addr ip (port r)) ips with
                       | [] => Err (ResolverError "Expect at least one A dns record")
                       | a => Ok (Ready a)
                       end
                   | Err err => Err (ResolverError (format_error err))
                   end)
      end
  end.
#[export] Instance resolver_fut : ActorFuture W Task Resolver (list SocketAddr) Error := resolver_poll.

(** ** [TcpConnector] *)

Record TcpConnector : Type := mkTcpConnector {
  tcp_addrs : list SocketAddr;
  timeout : Timer;
  stream : option TcpStreamNew
}.

Definition with_timeout (addrs : list SocketAddr) (d : Dur) : P TcpConnector :=
  t ← timer_new d; mret (mkTcpConnector addrs t None).
Definition tcp_connector_new (addrs : list SocketAddr) : P TcpConnector := with_timeout addrs one_second.

(** The body of the loop of [poll]: the connection under way, then the next
    address. *)
Definition connect_next (c : TcpConnector) : P (TcpConnector * Turn (Poll TcpStream Error)) :=
  '(addr, rest) ← lift (unwrap "called `Option::unwrap()` on a `None` value"
      (match tcp_addrs c with [] => None | a :: rest => Some (a, rest) end));
  new ← tcp_connect addr;
  mret (mkTcpConnector rest (timeout c) (Some new), NextTurn).
Definition connect_turn (c : TcpConnector) : P (TcpConnector * Turn (Poll TcpStream Error)) :=
  match stream c with
  | Some new =>
      p ← tcp_poll new;
      match p with
      | Ok (Ready sock) => mret (c, Leave (Ok (Ready sock)))
      | Ok NotReady => mret (c, Leave (Ok NotReady))
      | Err err =>
          match tcp_addrs c with
          | [] => mret (c, Leave (Err (IoError err)))
          | _ => connect_next c
          end
      end
  | None => connect_next c
  end.

Definition tcp_connector_poll (fuel : nat) (c : TcpConnector)
  : P (TcpConnector * Poll TcpStream Error) :=
  p ← timer_poll (timeout c);
  match p with
  | Ok (Ready _) => mret (c, Err TimeoutError)
  | _ => turns connect_turn fuel c
  end.

(** ** The handlers of [Connector] *)

Definition handle_resolve (msg : Resolve) : P Resolver :=
  resolver_new (resolve_name msg) (default 0 (resolve_port msg)).
Definition handle_connect (msg : Connect) : P (AndThen Resolver (list SocketAddr) TcpConnector) :=
  r ← resolver_new (connect_name msg) (default 0 (connect_port msg));
  mret (and_then_new r tcp_connector_new).
Definition handle_connect_addr (msg : ConnectAddr) : P TcpConnector :=
  tcp_connector_new [connect_addr msg].

(** ** What they promise *)

(** What a resolver may answer with: never an empty list. *)
Definition answers_addrs (r : Resolver) : Prop := addrs r ≠ Some [].

Lemma resolver_new_answers addr port w r w' n :
  resolver_new addr port w = Return (r, w', n) → answers_addrs r.
Proof.
  unfold resolver_new. destruct (parse_addr addr); [by intros [= <- _ _] |].
  destruct (resolver_parse addr port) as [[host p]|err]; [| by intros [= <- _ _]].
  intros (l & w1 & n1 & n2 & _ & [= <- _ _] & _)%prog_bind_Return_inv. done.
Qed.

Lemma resolver_poll_answers r w r' p w' n :
  answers_addrs r → resolver_poll r w = Return (r', p, w', n) →
  answers_addrs r' ∧ p ≠ Ok (Ready []).
Proof.
  unfold resolver_poll, answers_addrs. intros Hr. destruct (error r).
  { intros [= <- <- _ _]. by split. }
  destruct (addrs r) as [a|] eqn:Ha.
  { intros [= <- <- _ _]. split; [done |]. congruence. }
  intros (l & w1 & n1 & n2 & _ & (q & w2 & n3 & n4 & _ & [= <- <- _ _] & _)%prog_bind_Return_inv & _)%prog_bind_Return_inv.
  split; [by rewrite Ha |]. destruct q as [[ips|]|err]; [| done | done].
  by destruct ips.
Qed.

(** *** Connecting, poll by poll *)

(** The reference: a program that connects to one address after the other, and
    while it waits for an answer lets the rest of the program run ([between]) and
    looks at the timer. *)
Section connecting.
Context (between : P ()).
Abbreviation drive m := (block_on between (tcp_connector_poll m)).

Definition expired (p : Poll () ()) : bool := match p with Ok (Ready _) => true | _ => false end.

(** Wait for a connection: [None] is the timeout. *)
Fixpoint await (fuel : nat) (new : TcpStreamNew) (t : Timer) : P (Result TcpStream (option IoErr)) :=
  match fuel with
  | O => lift OutOfFuel
  | S fuel =>
      p ← tcp_poll new;
      match p with
      | Ok (Ready sock) => mret (Ok sock)
      | Ok NotReady =>
          _ ← between; x ← timer_poll t;
          if expired x then mret (Err None) else await fuel new t
      | Err err => mret (Err (Some err))
      end
  end.

(** The first success decides, the last error is the one that is reported. *)
Fixpoint try_each (fuel : nat) (addr : SocketAddr) (l : list SocketAddr) (t : Timer)
    : P (Result TcpStream Error) :=
  new ← tcp_connect addr;
  r ← await fuel new t;
  match r, l with
  | Ok sock, _ => mret (Ok sock)
  | Err None, _ => mret (Err TimeoutError)
  | Err (Some err), [] => mret (Err (IoError err))
  | Err (Some _), addr :: l => try_each fuel addr l t
  end.

Definition connect_all (fuel : nat) (addr : SocketAddr) (l : list SocketAddr) (t : Timer)
    : P (Result TcpStream Error) :=
  x ← timer_poll t; if expired x then mret (Err TimeoutError) else try_each fuel addr l t.

(** What follows [await]. *)
Definition next_address (fuel : nat) (l : list SocketAddr) (t : Timer)
    (r : Result TcpStream (option IoErr)) : P (Result TcpStream Error) :=
  match r, l with
  | Ok sock, _ => mret (Ok sock)
  | Err None, _ => mret (Err TimeoutError)
  | Err (Some err), [] => mret (Err (IoError err))
  | Err (Some _), addr :: l => try_each fuel addr l t
  end.

Lemma try_each_unfold fuel addr l t :
  try_each fuel addr l t ≡ₘ new ← tcp_connect addr; r ← await fuel new t; next_address fuel l t r.
Proof. by destruct l. Qed.

Lemma await_mono n1 n2 new t : (n1 ≤ n2)%nat → prog_le (await n1 new t) (await n2 new t).
Proof.
  revert n2. induction n1 as [|n1 IH]; intros n2 Hn; [apply prog_le_out_of_fuel |].
  destruct n2 as [|n2]; [lia |]. cbn [await]. solve_prog_le.
Qed.

Lemma try_each_mono n1 n2 addr l t :
  (n1 ≤ n2)%nat → prog_le (try_each n1 addr l t) (try_each n2 addr l t).
Proof.
  intros Hn. revert addr. induction l as [|a l IH]; intros addr; cbn [try_each];
    (apply prog_le_bind; [apply prog_le_refl |]); intros new;
    (apply prog_le_bind; [by apply await_mono |]); intros [s|[e|]]; try apply prog_le_refl. apply IH.
Qed.

(** The connector in a poll that has fuel [k] left, and what follows. *)
Definition connecting (new : TcpStreamNew) (l : list SocketAddr) (t : Timer) : TcpConnector :=
  mkTcpConnector l t (Some new).
Definition mid_poll m k n (c : TcpConnector) : P (Result TcpStream Error) :=
  '(c, r) ← turns connect_turn k c;
  match r with
  | Ok NotReady => _ ← between; drive m n c
  | Ok (Ready sock) => mret (Ok sock)
  | Err e => mret (Err e)
  end.

Lemma drive_step m n l t o :
  drive m (S n) (mkTcpConnector l t o) ≡ₘ
  x ← timer_poll t;
  if expired x then mret (Err TimeoutError) else mid_poll m m n (mkTcpConnector l t o).
Proof.
  cbn [block_on]. unfold tcp_connector_poll. rewrite prog_bind_assoc. cbn [timeout].
  apply prog_bind_cong. intros [[[]|]|[]]; cbn [expired]; [| done..].
  by rewrite prog_bind_ret_l.
Qed.

Lemma connect_next_step {X} a l t o (f : TcpConnector * Turn (Poll TcpStream Error) → P X) :
  (connect_next (mkTcpConnector (a :: l) t o) ≫= f) ≡ₘ
  (new ← tcp_connect a; f (connecting new l t, NextTurn)).
Proof.
  unfold connect_next; cbn [tcp_addrs timeout unwrap].
  rewrite prog_bind_assoc, prog_bind_lift, prog_bind_assoc. apply prog_bind_cong. intros new.
  by rewrite prog_bind_ret_l.
Qed.

Lemma connector_turn_step {X} new l t (f : TcpConnector * Turn (Poll TcpStream Error) → P X) :
  (connect_turn (connecting new l t) ≫= f) ≡ₘ
  p ← tcp_poll new;
  match p, l with
  | Err err, [] => f (connecting new l t, Leave (Err (IoError err)))
  | Err _, a :: l => new ← tcp_connect a; f (connecting new l t, NextTurn)
  | Ok r, _ => f (connecting new l t, Leave (Ok r))
  end.
Proof.
  unfold connect_turn, connecting; cbn [stream tcp_addrs].
  rewrite prog_bind_assoc. apply prog_bind_cong. intros [[sock|]|err]; [by rewrite prog_bind_ret_l.. |].
  destruct l as [|a l]; [by rewrite prog_bind_ret_l |]. apply connect_next_step.
Qed.

(** The first turn of the first poll. *)
Lemma mid_first m k n addr l t :
  mid_poll m (S k) n (mkTcpConnector (addr :: l) t None) ≡ₘ
  new ← tcp_connect addr; mid_poll m k n (connecting new l t).
Proof.
  unfold mid_poll. cbn [turns]. rewrite prog_bind_assoc.
  change (connect_turn (mkTcpConnector (addr :: l) t None))
    with (connect_next (mkTcpConnector (addr :: l) t None)).
  by rewrite connect_next_step.
Qed.

(** The others: the connection under way is polled. *)
Lemma mid_step m k n new l t :
  mid_poll m (S k) n (connecting new l t) ≡ₘ
  p ← tcp_poll new;
  match p, l with
  | Ok (Ready sock), _ => mret (Ok sock)
  | Ok NotReady, _ => _ ← between; drive m n (connecting new l t)
  | Err err, [] => mret (Err (IoError err))
  | Err _, a :: l => new ← tcp_connect a; mid_poll m k n (connecting new l t)
  end.
Proof.
  unfold mid_poll. cbn [turns]. rewrite prog_bind_assoc, connector_turn_step.
  apply prog_bind_cong. intros [[sock|]|err]; [by rewrite prog_bind_ret_l.. |].
  destruct l as [|a l]; [by rewrite prog_bind_ret_l |]. done.
Qed.

Lemma connector_below m J l t j k n new :
  (k + n * S m ≤ j)%nat → (j ≤ J)%nat →
  prog_le (mid_poll m k n (connecting new l t)) (r ← await j new t; next_address J l t r).
Proof.
  revert j k n new. induction l as [|a l IHl]; induction j as [|j IH]; intros k n new Hj HJ.
  all: destruct k as [|k]; [apply prog_le_out_of_fuel |]; try lia.
  all: rewrite mid_step; cbn [await]; rewrite prog_bind_assoc;
    (apply prog_le_bind; [apply prog_le_refl |]); intros [[sock|]|err];
    rewrite ?prog_bind_ret_l; try apply prog_le_refl.
  1, 2: rewrite prog_bind_assoc; (apply prog_le_bind; [apply prog_le_refl |]); intros _;
    (destruct n as [|n]; [apply prog_le_out_of_fuel |]); unfold connecting; rewrite drive_step, prog_bind_assoc;
    (apply prog_le_bind; [apply prog_le_refl |]); intros x; destruct (expired x);
    [rewrite prog_bind_ret_l; apply prog_le_refl | apply IH; lia].
  cbn [next_address]. rewrite try_each_unfold. apply prog_le_bind; [apply prog_le_refl |].
  intros new'. apply IHl; lia.
Qed.

(** Conversely one iteration per address is enough for a poll, and as many
    polls as there are answers. *)
Lemma connector_above m J l t j k n new :
  (j ≤ J)%nat → (length l < m)%nat → (length l < k)%nat → (j + length l * J ≤ n)%nat →
  prog_le (r ← await j new t; next_address J l t r) (mid_poll m k n (connecting new l t)).
Proof.
  revert j k n new. induction l as [|a l IHl]; induction j as [|j IH]; intros k n new HJ Hm Hk Hn.
  all: try (apply prog_le_out_of_fuel).
  all: destruct k as [|k]; [simpl in Hk; lia |]; simpl in Hm, Hk, Hn.
  all: rewrite mid_step; cbn [await]; rewrite prog_bind_assoc;
    (apply prog_le_bind; [apply prog_le_refl |]); intros [[sock|]|err];
    rewrite ?prog_bind_ret_l; try apply prog_le_refl.
  1, 2: rewrite prog_bind_assoc; (apply prog_le_bind; [apply prog_le_refl |]); intros _;
    (destruct n as [|n]; [lia |]); unfold connecting; rewrite drive_step, prog_bind_assoc;
    (apply prog_le_bind; [apply prog_le_refl |]); intros x; destruct (expired x);
    [rewrite prog_bind_ret_l; apply prog_le_refl | apply IH; simpl; lia].
  cbn [next_address]. rewrite try_each_unfold. apply prog_le_bind; [apply prog_le_refl |].
  intros new'. apply IHl; lia.
Qed.

Lemma connect_all_mono n1 n2 addr l t :
  (n1 ≤ n2)%nat → prog_le (connect_all n1 addr l t) (connect_all n2 addr l t).
Proof.
  intros Hn. apply prog_le_bind; [apply prog_le_refl |]. intros x.
  destruct (expired x); [apply prog_le_refl | by apply try_each_mono].
Qed.

Lemma connector_drive_mono n1 n2 c : (n1 ≤ n2)%nat → prog_le (drive n1 n1 c) (drive n2 n2 c).
Proof.
  intros Hn. etrans; [by apply (block_on_mono _ _ _ n2) |].
  generalize n2 at 1 3. intros f. revert c. induction f as [|f IH]; intros c; [apply prog_le_refl |].
  cbn [block_on]. apply prog_le_bind; [| intros [c' [[s|]|e]]; solve_prog_le].
  unfold tcp_connector_poll. apply prog_le_bind; [apply prog_le_refl |].
  intros [[[]|]|e]; try apply prog_le_refl; by apply turns_mono.
Qed.

Lemma connector_le_all n addr l t :
  prog_le (drive n n (mkTcpConnector (addr :: l) t None)) (connect_all (n + n * S n) addr l t).
Proof.
  destruct n as [|n]; [apply prog_le_out_of_fuel |]. rewrite drive_step. unfold connect_all.
  apply prog_le_bind; [apply prog_le_refl |]. intros x. destruct (expired x); [apply prog_le_refl |].
  rewrite mid_first, try_each_unfold. apply prog_le_bind; [apply prog_le_refl |]. intros new.
  apply connector_below; lia.
Qed.

Lemma all_le_connector J addr l t :
  let n := S (S (length l + J + length l * J)) in
  prog_le (connect_all J addr l t) (drive n n (mkTcpConnector (addr :: l) t None)).
Proof.
  intros n. unfold n. rewrite drive_step. unfold connect_all.
  apply prog_le_bind; [apply prog_le_refl |]. intros x. destruct (expired x); [apply prog_le_refl |].
  rewrite mid_first, try_each_unfold. apply prog_le_bind; [apply prog_le_refl |]. intros new.
  apply connector_above; lia.
Qed.

(** C35: A connector that is polled until it is ready computes what the following
    program does: look at the timer, then connect to one address after the other,
    in order; while a connection is under way, poll it, let the rest of the
    program run when it is not ready, and look at the timer again before the next
    poll.  The first connection that succeeds is the answer, the last error is the
    one reported, and a timer that expires ends it all, whatever the connections
    and the timer answer.  The connector has no panic of its own: the queue of
    addresses is only taken from when it has one.  And a name is never resolved
    to an empty list of addresses, so a connector that follows a resolver has a
    first address. *)
Theorem connect_in_order addr l t :
  (fun n => drive n n (mkTcpConnector (addr :: l) t None)) ≈ₘ (fun n => connect_all n addr l t) ∧
  (∀ w msg, (∃ n, drive n n (mkTcpConnector (addr :: l) t None) w = Panic msg) ↔
            ∃ n, connect_all n addr l t w = Panic msg) ∧
  ∀ name port w r w1 n1 r' p w2 w3 n2,
    resolver_new name port w = Return (r, w1, n1) →
    resolver_poll r w2 = Return (r', p, w3, n2) → p ≠ Ok (Ready []).
Proof.
  split; [| split; [intros w msg; split |]].
  - eapply same_returns_le; [| | intros n; apply connector_le_all | intros n; apply all_le_connector].
    + intros n1 n2 Hn. by apply connector_drive_mono.
    + intros n1 n2 Hn. by apply connect_all_mono.
  - intros [n Hn]. destruct (connector_le_all n addr l t w) as [E|E]; [congruence |].
    eexists. by rewrite <- E.
  - intros [n Hn]. destruct (all_le_connector n addr l t w) as [E|E]; [congruence |].
    eexists. by rewrite <- E.
  - intros name port w r w1 n1 r' p w2 w3 n2 Hn Hp.
    eapply resolver_poll_answers; [by eapply resolver_new_answers | exact Hp].
Qed.
End connecting.
End resolver.

(** ** Examples *)

(** A port that is no [u16] is ignored, and so are the colons of an IPv6
    address without a port. *)
Lemma resolver_parse_examples :
  resolver_parse (IoErr := nat) "localhost:8080" 80 = Ok ("localhost"%string, 8080) ∧
  resolver_parse (IoErr := nat) "localhost" 80 = Ok ("localhost"%string, 80) ∧
  resolver_parse (IoErr := nat) "localhost:99999" 80 = Ok ("localhost"%string, 80) ∧
  resolver_parse (IoErr := nat) "::1" 80 = Ok (""%string, 80).
Proof. done. Qed.

(** The first two addresses refuse the connection, the third answers when it is
    polled for the third time; the world counts the polls. *)
Definition demo_poll (a : nat) : Prog nat nat (Poll nat nat) :=
  polls ← gets id;
  mret (if negb (a =? 3)%nat then Err a else if (polls <? 2)%nat then Ok NotReady else Ok (Ready 30%nat)).
Definition demo_between : Prog nat nat () := modify Nat.succ.
Definition demo_connector : TcpConnector := mkTcpConnector [1%nat; 2%nat; 3%nat; 4%nat] 0%nat (None (A := nat)).

Lemma connect_in_order_witness :
  (fun n => block_on demo_between
     (tcp_connector_poll (W := nat) (Task := nat) mret demo_poll (fun _ : nat => mret (Ok NotReady)) n)
     n demo_connector 0%nat) ⇓ (Ok 30%nat, 2%nat, []) ∧
  ∀ r' p n2,
    resolver_poll (W := nat) (Task := nat) (IoErr := nat) (fun ip _ => ip) (fun _ : nat => mret (Ok NotReady))
      (fun _ : nat => ""%string) (mkResolver None 80 (Some [7%nat]) None) 0%nat = Return (r', p, 0%nat, n2) →
    p ≠ Ok (Ready []).
Proof.
  destruct (connect_in_order (W := nat) (Task := nat) (SocketAddr := nat) (IpAddr := nat)
    (Lookup := nat) (LookupErr := nat) (fun _ => Some 7%nat) (fun ip _ => ip) (fun _ => mret 0%nat)
    (fun _ => mret (Ok NotReady)) (fun _ => ""%string) mret demo_poll
    (fun _ : nat => mret (Ok NotReady)) demo_between 1%nat [2%nat; 3%nat; 4%nat] 0%nat) as (H & _ & Hr).
  split; [| intros r' p n2 Hp; by eapply (Hr "localhost"%string 80 0%nat)].
  apply H. exists 5%nat. intros fuel Hfuel.
  destruct fuel as [|[|[|fuel]]]; [lia.. |]. reflexivity.
Defined.
