(* ===== verification/Arbiter.v ===== *)
(** * The thread-local variables of arbiters: [src/arbiter.rs]

    Every arbiter's thread has its own copy of the variables of
    [thread_local!]; [Arbiter::new] fills those of the new thread, and the
    accessors ([Arbiter::system] and the others) read those of the thread that
    calls them.  [System] has the messages between arbiters and the system.
    Event loops, threads and the addresses of actors are of abstract types. *)

From S2P Require Import Prelude.

Section arbiter.
Context {W Task Tid Handle StopTx UAddr SAddr SysAddr Registry SystemRegistry : Type}.
Context `{!EqDecision Tid, !Countable Tid}.
Abbreviation P := (Prog W Task).

(** The variables of a thread; [None] until they are set. *)
Record Locals : Type := mkLocals {
  HND : option Handle;
  STOP : option StopTx;
  NAME : option string;
  ADDR : option UAddr;
  REG : option Registry;
  SYS : option SysAddr;
  SYSARB : option SAddr;
  SYSNAME : option string;
  SYSREG : option SystemRegistry
}.
Definition no_locals : Locals := mkLocals None None None None None None None None None.

(** The threads that have set some. *)
Context `{!Cell W (gmap Tid Locals)}.
Definition locals (me : Tid) : P Locals := m ← cell_read; mret (default no_locals (m !! me)).
Definition set_locals (me : Tid) (l : Locals) : P () := cell_update (<[me := l]>).

(** ** The accessors *)

Definition read {X} (msg : string) (f : Locals → option X) (me : Tid) : P X :=
  l ← locals me; lift (unwrap msg (f l)).

Definition arbiter_name (me : Tid) : P string :=
  l ← locals me; mret (default "Arbiter is not running"%string (NAME l)).
Definition arbiter_arbiter : Tid → P UAddr := read "Arbiter is not running" ADDR.
Definition arbiter_system : Tid → P SysAddr := read "System is not running" SYS.
Definition arbiter_system_arbiter : Tid → P SAddr := read "System is not running" SYSARB.
Definition arbiter_system_name : Tid → P string := read "System is not running" SYSNAME.
Definition arbiter_system_registry : Tid → P SystemRegistry := read "System is not running" SYSREG.
Definition arbiter_loop_handle : Tid → P Handle := read "Arbiter is not running" HND.
Definition arbiter_registry (me : Tid) : P Registry :=
  name ← arbiter_name me; read ("System is not running: " +:+ name) REG me.

(** ** Making arbiters *)

(** The code outside: an event loop's handle, the channel that stops it, empty
    registries, and [Actor::start] of an arbiter in a thread; [thread_name] is
    the name of the thread, made of a fresh id and the name that was asked for. *)
Context (core_new : P Handle) (stop_channel : P StopTx) (registry_new : Registry)
        (system_registry_new : SystemRegistry) (actor_start : Tid → P (UAddr * SAddr))
        (thread_name : string → P string).

(** [Arbiter::new], called by [me]; the new thread is [tid]. *)
Definition arbiter_thread (tid : Tid) (name : string) (sys : SysAddr) (sys_name : string)
    (sys_arbiter : SAddr) (sys_registry : SystemRegistry) : P SAddr :=
  core ← core_new;
  stop_tx ← stop_channel;
  let l := mkLocals (Some core) (Some stop_tx) (Some name) None (Some registry_new)
             (Some sys) (Some sys_arbiter) (Some sys_name) (Some sys_registry) in
  _ ← set_locals tid l;
  '(addr, saddr) ← actor_start tid;
  _ ← set_locals tid (mkLocals (HND l) (STOP l) (NAME l) (Some addr) (REG l) (SYS l) (SYSARB l)
                        (SYSNAME l) (SYSREG l));
  mret saddr.
Definition new_arbiter (me tid : Tid) (name : string) : P SAddr :=
  sys ← arbiter_system me;
  sys_name ← arbiter_system_name me;
  sys_arbiter ← arbiter_system_arbiter me;
  sys_registry ← arbiter_system_registry me;
  name ← thread_name name;
  arbiter_thread tid name sys sys_name sys_arbiter sys_registry.

(** [Arbiter::new_system] and [set_system], on the thread of the system. *)
Definition new_system (me : Tid) (name : string) : P Handle :=
  core ← core_new;
  l ← locals me;
  let l := mkLocals (Some core) (STOP l) (Some name) (ADDR l) (Some registry_new) (SYS l) (SYSARB l)
             (SYSNAME l) (Some system_registry_new) in
  _ ← set_locals me l;
  '(addr, sys_addr) ← actor_start me;
  _ ← set_locals me (mkLocals (HND l) (STOP l) (NAME l) (Some addr) (REG l) (SYS l) (Some sys_addr)
                       (SYSNAME l) (SYSREG l));
  mret core.
Definition set_arbiter_system (me : Tid) (addr : SysAddr) (name : string) : P () :=
  l ← locals me;
  set_locals me (mkLocals (HND l) (STOP l) (NAME l) (ADDR l) (REG l) (Some addr) (SYSARB l)
                   (Some name) (SYSREG l)).

(** ** All threads of a system agree *)

Record belongs (sys : SysAddr) (sys_name : string) (sys_arbiter : SAddr)
    (sys_registry : SystemRegistry) (l : Locals) : Prop := mkBelongs {
  belongs_sys : SYS l = Some sys;
  belongs_name : SYSNAME l = Some sys_name;
  belongs_arbiter : SYSARB l = Some sys_arbiter;
  belongs_registry : SYSREG l = Some sys_registry;
  belongs_own : is_Some (HND l) ∧ is_Some (NAME l) ∧ is_Some (ADDR l) ∧ is_Some (REG l)
}.

(** Code outside that returns and leaves the variables alone. *)
Definition quiet {X} (m : P X) : Prop :=
  ∀ w, ∃ x w' n, m w = Return (x, w', n) ∧ cell_get (X := gmap Tid Locals) w' = cell_get w.
Context (core_quiet : quiet core_new) (stop_quiet : quiet stop_channel)
        (start_quiet : ∀ tid, quiet (actor_start tid)) (name_quiet : ∀ s, quiet (thread_name s)).

Lemma locals_spec me w :
  locals me w = Return (default no_locals (cell_get w !! me), w, []).
Proof. unfold locals, cell_read. by rewrite prog_bind_gets. Qed.

Lemma read_spec {X} msg (f : Locals → option X) me w l x :
  cell_get w !! me = Some l → f l = Some x → read msg f me w = Return (x, w, []).
Proof.
  intros Hl Hx. unfold read. rewrite (prog_bind_quiet _ _ _ _ _ (locals_spec me w)), Hl. simpl.
  unfold lift. by rewrite Hx.
Qed.

Lemma quiet_bind {X Y} (m : P X) (f : X → P Y) w (Q : Y → gmap Tid Locals → Prop) :
  quiet m →
  (∀ x w', cell_get w' = cell_get w → ∃ y w'' n, f x w' = Return (y, w'', n) ∧ Q y (cell_get w'')) →
  ∃ y w'' n, (m ≫= f) w = Return (y, w'', n) ∧ Q y (cell_get w'').
Proof.
  intros Hm Hf. destruct (Hm w) as (x & w1 & n1 & H1 & Hw1).
  destruct (Hf x w1 Hw1) as (y & w2 & n2 & H2 & HQ). exists y, w2, (n1 ++ n2).
  by rewrite (prog_bind_Return _ _ _ _ _ _ H1), H2.
Qed.

(** An arbiter that belongs to a system makes arbiters that do; all accessors
    work in the new thread and say the same of the system, and no other thread's
    variables change. *)
Theorem new_arbiter_belongs me tid name w l sys sys_name sys_arbiter sys_registry :
  cell_get w !! me = Some l → belongs sys sys_name sys_arbiter sys_registry l →
  ∃ saddr w' n, new_arbiter me tid name w = Return (saddr, w', n) ∧
    ∃ l', belongs sys sys_name sys_arbiter sys_registry l' ∧ is_Some (STOP l') ∧
          cell_get w' = <[tid := l']> (cell_get w).
Proof.
  intros Hl [H1 H2 H3 H4 _].
  unfold new_arbiter, arbiter_system, arbiter_system_name, arbiter_system_arbiter, arbiter_system_registry.
  rewrite (prog_bind_quiet _ _ _ _ _ (read_spec _ _ _ _ _ _ Hl H1)).
  rewrite (prog_bind_quiet _ _ _ _ _ (read_spec _ _ _ _ _ _ Hl H2)).
  rewrite (prog_bind_quiet _ _ _ _ _ (read_spec _ _ _ _ _ _ Hl H3)).
  rewrite (prog_bind_quiet _ _ _ _ _ (read_spec _ _ _ _ _ _ Hl H4)).
  apply (quiet_bind _ _ _ (fun _ m => ∃ l', belongs _ _ _ _ l' ∧ is_Some (STOP l') ∧ m = <[tid := l']> (cell_get w)));
    [by apply name_quiet |]. intros s w1 Hw1. rewrite <- Hw1.
  apply (quiet_bind core_new _ w1 (fun _ m => ∃ l', belongs _ _ _ _ l' ∧ is_Some (STOP l') ∧ m = <[tid := l']> (cell_get w1)));
    [done |]. intros core w2 Hw2. rewrite <- Hw2.
  apply (quiet_bind stop_channel _ w2 (fun _ m => ∃ l', belongs _ _ _ _ l' ∧ is_Some (STOP l') ∧ m = <[tid := l']> (cell_get w2)));
    [done |]. intros tx w3 Hw3. rewrite <- Hw3. cbn zeta.
  set (l3 := mkLocals (Some core) (Some tx) _ _ _ _ _ _ _).
  rewrite (prog_bind_quiet (set_locals tid l3) _ _ () (cell_set (<[tid := l3]> (cell_get w3)) w3)) by done.
  set (w4 := cell_set _ w3).
  destruct (start_quiet tid w4) as ([addr saddr] & w5 & n5 & H5 & Hw5).
  rewrite (prog_bind_Return _ _ _ _ _ _ H5).
  eexists saddr, _, _. split; [reflexivity |]. rewrite cell_get_set, Hw5. unfold w4. rewrite cell_get_set.
  eexists. split; [| split; [| apply insert_insert_eq]]; [by split; try by eexists | by eexists].
Qed.

Lemma set_arbiter_system_spec me addr name w l :
  cell_get w !! me = Some l →
  set_arbiter_system me addr name w = Return ((), cell_set (<[me := mkLocals (HND l) (STOP l) (NAME l)
    (ADDR l) (REG l) (Some addr) (SYSARB l) (Some name) (SYSREG l)]> (cell_get w)) w, []).
Proof.
  intros Hl. unfold set_arbiter_system.
  by rewrite (prog_bind_quiet _ _ _ _ _ (locals_spec me w)), Hl.
Qed.

(** The thread on which a system is made belongs to it. *)
Lemma new_system_belongs me name sys w :
  ∃ core w' n, (core ← new_system me name; _ ← set_arbiter_system me sys name; mret core) w =
      Return (core, w', n) ∧
    ∃ l' sys_arbiter, cell_get w' !! me = Some l' ∧
      belongs sys name sys_arbiter system_registry_new l'.
Proof.
  unfold new_system. destruct (core_quiet w) as (core & w1 & n1 & H1 & _).
  set (l := default no_locals (cell_get w1 !! me)).
  set (l1 := mkLocals (Some core) (STOP l) (Some name) (ADDR l) (Some registry_new) (SYS l) (SYSARB l)
               (SYSNAME l) (Some system_registry_new)).
  set (w2 := cell_set (<[me := l1]> (cell_get w1)) w1).
  destruct (start_quiet me w2) as ([addr sys_addr] & w3 & n3 & H3 & Hw3).
  set (l2 := mkLocals (HND l1) (STOP l1) (NAME l1) (Some addr) (REG l1) (SYS l1) (Some sys_addr)
               (SYSNAME l1) (SYSREG l1)).
  set (w4 := cell_set (<[me := l2]> (cell_get w3)) w3).
  assert (cell_get w4 !! me = Some l2) as Hw4.
  { unfold w4. rewrite cell_get_set. apply lookup_insert_eq. }
  eexists core, _, _. split.
  - rewrite (prog_bind_assoc core_new _ _ w), (prog_bind_Return _ _ _ _ _ _ H1).
    rewrite (prog_bind_assoc (locals me) _ _ w1), (prog_bind_quiet _ _ _ _ _ (locals_spec me w1)).
    fold l. cbn zeta. rewrite (prog_bind_assoc (set_locals me _) _ _ w1).
    rewrite (prog_bind_quiet (set_locals me l1) _ w1 () w2) by done.
    rewrite (prog_bind_assoc (actor_start me) _ _ w2), (prog_bind_Return _ _ _ _ _ _ H3).
    rewrite (prog_bind_assoc (set_locals me l2) _ _ w3).
    rewrite (prog_bind_quiet (set_locals me l2) _ w3 () w4), (prog_bind_ret_l core _ w4) by done.
    rewrite (prog_bind_quiet _ _ _ _ _ (set_arbiter_system_spec me sys name w4 l2 Hw4)). reflexivity.
  - eexists _, sys_addr. rewrite cell_get_set. split; [apply lookup_insert_eq |].
    by split; try by eexists.
Qed.

(** On a thread without a system there is no new arbiter. *)
Lemma new_arbiter_outside me tid name w :
  cell_get w !! me = None → new_arbiter me tid name w = Panic "System is not running".
Proof.
  intros Hl. unfold new_arbiter, arbiter_system, read. unfold mbind, prog_bind.
  by rewrite locals_spec, Hl.
Qed.
End arbiter.
