(* ===== verification/Msgs.v ===== *)
(** * Messages that carry code: [src/msgs.rs], and starting actors in the
    threads of arbiters: [src/arbiter.rs], [src/supervisor.rs]

    [Execute] carries a closure to the thread of an arbiter and [StartActor] the
    start of an actor; the arbiter runs what it is sent.  [Arbiter::start] and
    [Supervisor::start_in] send an [Execute] that makes the context of a new
    actor around the receiver of a channel, whose sender they return: what is
    sent through that address before the actor is there waits for it
    ([started_with_mail]). *)

From S2P Require Import Prelude.
From S2P Require Import Queue.
From S2P Require Import Envelope.
From S2P Require Import UnsyncChannel.
From S2P Require Import SyncChannel.
From S2P Require Import SyncChannelSpec.
From S2P Require Import Mailbox.
From S2P Require Import MailboxProps.
From S2P Require Import ContextImpl.
From S2P Require Import Supervisor.

(** ** Closures as messages *)

Section msgs.
Context {W Task : Type}.
Abbreviation P := (Prog W Task).

(** [Execute]: what the boxed closure does. *)
Record Execute (R E : Type) : Type := mkExecute { execute_fn : P (Result R E) }.
#[global] Arguments mkExecute {R E}.
#[global] Arguments execute_fn {R E}.
Definition execute_new {R E} (f : P (Result R E)) : Execute R E := mkExecute f.
Definition exec {R E} (m : Execute R E) : P (Result R E) := execute_fn m.

(** [StartActor]; [create] is [Actor::create] of the actor's type. *)
Record StartActor (Addr : Type) : Type := mkStartActor { start_fn : P Addr }.
#[global] Arguments mkStartActor {Addr}.
#[global] Arguments start_fn {Addr}.
Definition start_actor_new {F Addr} (create : F → P Addr) (f : F) : StartActor Addr :=
  mkStartActor (create f).
Definition start_actor_call {Addr} (m : StartActor Addr) : P Addr := start_fn m.

(** The handlers of [Arbiter]. *)
Definition handle_execute {R E} (m : Execute R E) : P (Result R E) := exec m.
Definition handle_start_actor {Addr} (m : StartActor Addr) : P Addr := start_actor_call m.

(** ** Starting an actor in another thread *)

(** [sync_channel::channel], [Arbiter::new], [do_send] to an arbiter; what the
    closure does there with the receiver and the function that makes the actor. *)
Context {Tx Rx F SAddr : Type}.
Context (channel : Z → P (Tx * Rx)) (new_arbiter : string → P SAddr)
        (do_send : SAddr → Execute () () → P ()) (run_actor run_supervised : Rx → F → P ()).

(** [Arbiter::start] and [Supervisor::start_in]. *)
Definition arbiter_start (f : F) : P Tx :=
  '(stx, srx) ← channel DEFAULT_CAPACITY;
  addr ← new_arbiter "actor";
  _ ← do_send addr (execute_new (_ ← run_actor srx f; mret (Ok ())));
  mret stx.
Definition start_in (addr : SAddr) (f : F) : P Tx :=
  '(tx, rx) ← channel DEFAULT_CAPACITY;
  _ ← do_send addr (execute_new (_ ← run_supervised rx f; mret (Ok ())));
  mret tx.
End msgs.

(** ** The closure *)

Section start.
Context {A V Fut M Txs Txu Task : Type} {Q : Type → Type} `{!MpscQueue Q}.
Abbreviation World := (@World A V Fut M Txs Txu Task Q).
Abbreviation P := (Prog World Task).

(** In the arbiter's thread: a context around the receiver; the actor is made
    from its context and put into it; the event loop is given the context. *)
Definition arbiter_start_actor (srx : @Inner M Txs Task Q) (f : P A) (v : V)
  : Exec (() * World * list Task) :=
  (act ← f; on_impl (set_actor act)) (mkWorld (with_receiver None srx) v).

(** What was sent to the address before is in the mailbox of the context that the
    event loop is given, and the actor is there, if making it did not touch the
    mailbox. *)
Lemma started_with_mail srx es (f : P A) v a w t :
  rx_holds srx es →
  f (mkWorld (with_receiver None srx) v) = Return (a, w, t) →
  mailbox (impl w) = new_mailbox srx →
  ∃ w', arbiter_start_actor srx f v = Return ((), w', t) ∧
    mailbox_holds (mailbox (impl w')) [] es ∧ act (impl w') = Some a.
Proof.
  intros Hes Hf Hm. eexists. split.
  - unfold arbiter_start_actor, mbind, prog_bind. rewrite Hf. simpl. by rewrite app_nil_r.
  - simpl. rewrite Hm. split; [| done]. by split.
Qed.
End start.
