(* ===== verification/System.v ===== *)
(** * The system and its arbiters: [src/system.rs], [src/arbiter.rs], [src/msgs.rs]

    The [System] actor knows the arbiters; [SystemExit] tells each of them to
    stop and ends the event loop of the system.  An arbiter runs in a thread of
    its own, whose event loop ends when its [STOP] channel is used.  Messages
    travel in mailboxes, first in, first out (see [UnsyncChannel] and
    [SyncChannelProps] for those); [net_step] lets every actor take its next
    message whenever it likes.  The other thread-local variables are
    in [Arbiter]; threads and event loops as such are not modelled. *)

From S2P Require Import Prelude.

Section system.
Context {Addr : Type} `{!EqDecision Addr, !Countable Addr}.

(** ** Messages and state *)

Inductive SystemMsg : Type :=
| SystemExit (code : Z)
| RegisterArbiter (id : string) (addr : Addr)
| UnregisterArbiter (id : string).

(** [System]: [stop] says whether the sender of the stop channel is still there. *)
Record System : Type := mkSystem { stop : bool; arbiters : gmap string Addr }.

(** [Arbiter], its thread's [STOP], its mailbox of [StopArbiter] codes, and the
    code that was sent on its stop channel. *)
Record Arbiter : Type := mkArbiter {
  id : string;
  sys : bool;
  STOP : bool;
  mailbox : list Z;
  result : option Z
}.

Record Net : Type := mkNet {
  system : System;
  system_mailbox : list SystemMsg;
  exit_code : option Z;
  threads : gmap Addr Arbiter
}.
Abbreviation P := (Prog Net ()).

(** ** Sending *)

Definition send_to_arbiter (code : Z) (a : Arbiter) : Arbiter :=
  mkArbiter (id a) (sys a) (STOP a) (mailbox a ++ [code]) (result a).
Definition do_send_stop (addr : Addr) (code : Z) : P () :=
  modify (fun n => mkNet (system n) (system_mailbox n) (exit_code n)
                     (alter (send_to_arbiter code) addr (threads n))).
Definition do_send_system (m : SystemMsg) : P () :=
  modify (fun n => mkNet (system n) (system_mailbox n ++ [m]) (exit_code n) (threads n)).

(** ** The handlers of [System] *)

Definition set_system (s : System) : P () :=
  modify (fun n => mkNet s (system_mailbox n) (exit_code n) (threads n)).

Fixpoint stop_arbiters (l : list Addr) (code : Z) : P () :=
  match l with
  | [] => mret ()
  | addr :: l => _ ← do_send_stop addr code; stop_arbiters l code
  end.
Definition stop_event_loop (code : Z) : P () :=
  s ← gets system;
  if stop s then
    _ ← set_system (mkSystem false (arbiters s));
    modify (fun n => mkNet (system n) (system_mailbox n) (Some code) (threads n))
  else mret ().

Definition system_handle (m : SystemMsg) : P () :=
  s ← gets system;
  match m with
  | SystemExit code =>
      _ ← stop_arbiters (map_to_list (arbiters s)).*2 code; stop_event_loop code
  | RegisterArbiter id addr => set_system (mkSystem (stop s) (<[id := addr]> (arbiters s)))
  | UnregisterArbiter id => set_system (mkSystem (stop s) (delete id (arbiters s)))
  end.

(** [SystemRunner::run]: what it returns when the event loop ends. *)
Definition run_result (code : option Z) : Z := default 1 code.

(** ** [Arbiter] *)

(** [Handler<StopArbiter>]; the arbiter of the system only logs. *)
Definition arbiter_handle (code : Z) (a : Arbiter) : Arbiter :=
  if sys a then a
  else if STOP a then mkArbiter (id a) (sys a) false (mailbox a) (Some code)
  else a.

(** [Arbiter::new] and [new_system]: the thread with its [STOP]; [started]. *)
Definition arbiter_new (i : string) : Arbiter := mkArbiter i false true [] None.
Definition arbiter_new_system (i : string) : Arbiter := mkArbiter i true false [] None.
Definition arbiter_started (addr : Addr) (a : Arbiter) : P () :=
  do_send_system (RegisterArbiter (id a) addr).
(** What the thread does after its event loop. *)
Definition arbiter_end (a : Arbiter) : P () := do_send_system (UnregisterArbiter (id a)).

(** ** Everything together *)

Definition take_message (a : Arbiter) (l : list Z) : Arbiter :=
  mkArbiter (id a) (sys a) (STOP a) l (result a).

Inductive net_step (n : Net) : Net → Prop :=
| system_takes m ms n' w :
    system_mailbox n = m :: ms →
    system_handle m (mkNet (system n) ms (exit_code n) (threads n)) = Return ((), n', w) →
    net_step n n'
| arbiter_takes addr a code l :
    threads n !! addr = Some a → mailbox a = code :: l →
    net_step n (mkNet (system n) (system_mailbox n) (exit_code n)
      (<[addr := arbiter_handle code (take_message a l)]> (threads n)))
| arbiter_starts addr i n' w :
    threads n !! addr = None →
    arbiter_started addr (arbiter_new i)
      (mkNet (system n) (system_mailbox n) (exit_code n) (<[addr := arbiter_new i]> (threads n)))
      = Return ((), n', w) →
    net_step n n'
| arbiter_ends addr a n' w :
    threads n !! addr = Some a → is_Some (result a) →
    arbiter_end a n = Return ((), n', w) → net_step n n'
| user_sends m n' w : do_send_system m n = Return ((), n', w) → net_step n n'
| user_stops addr code n' w : do_send_stop addr code n = Return ((), n', w) → net_step n n'.

(** [System::new]: the arbiter of the system is at [addr], not registered yet. *)
Definition net_init (addr : Addr) (i : string) : Net :=
  mkNet (mkSystem true ∅) [RegisterArbiter i addr] None {[addr := arbiter_new_system i]}.

(** ** Shutting down *)

(** The stop channel of the system is there until an exit code was sent, and a
    thread's until its result was. *)
Definition thread_fine (a : Arbiter) : Prop := sys a = false → STOP a = true ↔ result a = None.
Record net_fine (n : Net) : Prop := mkFine {
  fine_exit : stop (system n) = true ↔ exit_code n = None;
  fine_threads : map_Forall (fun _ => thread_fine) (threads n)
}.

(** The arbiter was told to stop. *)
Definition told (n : Net) (addr : Addr) : Prop :=
  ∀ a, threads n !! addr = Some a → sys a = false → is_Some (result a) ∨ mailbox a ≠ [].
Definition known (n : Net) (addr : Addr) : Prop := is_Some (threads n !! addr).

(** What a step keeps; [net_le] is the order of the states of a run. *)
Record net_le (n n' : Net) : Prop := mkLe {
  le_exit : is_Some (exit_code n) → exit_code n' = exit_code n;
  le_told addr : known n addr → told n addr → told n' addr;
  le_known addr : known n addr → known n' addr
}.

#[export] Instance net_le_preorder : PreOrder net_le.
Proof.
  split; [by split |]. intros n1 n2 n3 [E1 T1 K1] [E2 T2 K2].
  split; [| by eauto | by auto]. intros H. specialize (E1 H). rewrite <- E1 in H. by rewrite (E2 H).
Qed.

(** What may happen to a thread. *)
Definition stoppable (a : Arbiter) : Prop := is_Some (result a) ∨ mailbox a ≠ [].
Record moves (a a' : Arbiter) : Prop := mkMoves {
  moves_sys : sys a' = sys a;
  moves_fine : thread_fine a';
  moves_told : sys a = false → stoppable a → stoppable a'
}.

Lemma send_moves code a : thread_fine a → moves a (send_to_arbiter code a).
Proof. intros Ha. split; [done | exact Ha |]. intros _ _. right. simpl. by destruct (mailbox a). Qed.

Lemma handle_moves code l a :
  thread_fine a → mailbox a = code :: l → moves a (arbiter_handle code (take_message a l)).
Proof.
  destruct a as [i [] [] b r]; intros Ha Hb; split; try done; intros Hs; try done.
  - intros _. by left; eexists.
  - intros [Hr|_]; [by left |]. left. simpl in *. destruct (Ha Hs) as [_ Hn].
    destruct r as [r|]; [by eexists |]. by specialize (Hn eq_refl).
Qed.

Lemma net_moves n n' :
  (is_Some (exit_code n) → exit_code n' = exit_code n) →
  (stop (system n') = true ↔ exit_code n' = None) →
  (∀ addr a', threads n' !! addr = Some a' →
     match threads n !! addr with Some a => moves a a' | None => thread_fine a' end) →
  (∀ addr, known n addr → known n' addr) →
  net_fine n' ∧ net_le n n'.
Proof.
  intros He Hx Hm Hk. split; split; [done | | done | | done].
  - intros addr a' Ha'. specialize (Hm addr a' Ha'). by destruct (threads n !! addr); [apply Hm |].
  - intros addr [a Ha] Hto a' Ha' Hs. specialize (Hm addr a' Ha'). rewrite Ha in Hm.
    rewrite (moves_sys _ _ Hm) in Hs. by apply (moves_told _ _ Hm Hs), Hto.
Qed.

(** One thread moves. *)
Lemma thread_moves n n' addr a a' :
  net_fine n → threads n !! addr = Some a → moves a a' →
  system n' = system n → exit_code n' = exit_code n → threads n' = <[addr := a']> (threads n) →
  net_fine n' ∧ net_le n n'.
Proof.
  intros [Fx Ft] Ha Hm Hs He Ht. apply net_moves; [done | by rewrite Hs, He | |].
  - intros addr' b. rewrite Ht. intros [[<- <-]|[Hne Hb]]%lookup_insert_Some; [by rewrite Ha |].
    rewrite Hb. split; [done | by apply (Ft addr') | done].
  - intros addr'. unfold known. rewrite Ht. intros Hk. by apply lookup_insert_is_Some'; right.
Qed.

(** No thread moves. *)
Lemma threads_same n n' :
  net_fine n → threads n' = threads n → (is_Some (exit_code n) → exit_code n' = exit_code n) →
  (stop (system n') = true ↔ exit_code n' = None) → net_fine n' ∧ net_le n n'.
Proof.
  intros [Fx Ft] Ht He Hx. apply net_moves; [done | done | |].
  - intros addr a. rewrite Ht. intros Ha. rewrite Ha. split; [done | by apply (Ft addr) | done].
  - intros addr. unfold known. by rewrite Ht.
Qed.

Lemma do_send_stop_spec addr code n :
  net_fine n →
  ∃ n', do_send_stop addr code n = Return ((), n', []) ∧ net_fine n' ∧ net_le n n' ∧
    system n' = system n ∧ exit_code n' = exit_code n ∧ told n' addr.
Proof.
  intros Hn. eexists. split; [done |].
  match goal with |- context [net_le n ?n'] => enough (net_fine n' ∧ net_le n n') as [H1 H2] end.
  { split_and!; [exact H1 | exact H2 | done | done |].
    intros a. simpl. rewrite lookup_alter_eq. intros (a0 & _ & ->)%fmap_Some _. right.
    simpl. by destruct (mailbox a0). }
  destruct (threads n !! addr) as [a|] eqn:Ha.
  - apply (thread_moves _ _ addr a (send_to_arbiter code a)); try done.
    + by apply send_moves, (fine_threads _ Hn addr).
    + simpl. apply map_eq. intros addr'. destruct (decide (addr' = addr)) as [->|Hne].
      * by rewrite lookup_alter_eq, lookup_insert_eq, Ha.
      * by rewrite lookup_alter_ne, lookup_insert_ne by done.
  - apply threads_same; try done; [| apply Hn]. simpl. apply map_eq. intros addr'.
    destruct (decide (addr' = addr)) as [->|Hne];
      [by rewrite lookup_alter_eq, Ha | by rewrite lookup_alter_ne].
Qed.

Lemma stop_arbiters_spec l code n :
  net_fine n →
  ∃ n', stop_arbiters l code n = Return ((), n', []) ∧ net_fine n' ∧ net_le n n' ∧
    system n' = system n ∧ exit_code n' = exit_code n ∧ Forall (fun addr => known n addr → told n' addr) l.
Proof.
  revert n. induction l as [|addr l IH]; intros n Hn; cbn [stop_arbiters].
  - by exists n; split_and!.
  - destruct (do_send_stop_spec addr code n Hn) as (n1 & H1 & Hn1 & Hle1 & Hs1 & He1 & Ht1).
    destruct (IH n1 Hn1) as (n2 & H2 & Hn2 & Hle2 & Hs2 & He2 & Ht2).
    exists n2. rewrite (prog_bind_quiet _ _ _ _ _ H1). split_and!; [done | done | | congruence | congruence |].
    + by etrans.
    + constructor.
      * intros Hk. apply (le_told _ _ Hle2); [by apply (le_known _ _ Hle1) | done].
      * eapply Forall_impl; [exact Ht2 |]. simpl. intros a Ha Hk. by apply Ha, (le_known _ _ Hle1).
Qed.

(** Handling [SystemExit]. *)
Lemma system_exit_spec code n :
  net_fine n →
  ∃ n', system_handle (SystemExit code) n = Return ((), n', []) ∧ net_fine n' ∧ net_le n n' ∧
    exit_code n' = Some (default code (exit_code n)) ∧
    ∀ i addr, arbiters (system n) !! i = Some addr → known n addr → told n' addr.
Proof.
  intros Hn. unfold system_handle. rewrite prog_bind_gets.
  destruct (stop_arbiters_spec (map_to_list (arbiters (system n))).*2 code n Hn)
    as (n1 & H1 & Hn1 & Hle1 & Hs1 & He1 & Ht1).
  rewrite (prog_bind_quiet _ _ _ _ _ H1).
  assert (∀ i addr, arbiters (system n) !! i = Some addr → known n addr → told n1 addr) as Htold.
  { intros i addr Hi. rewrite Forall_forall in Ht1. apply Ht1. apply list_elem_of_fmap.
    exists (i, addr). split; [done |]. by apply elem_of_map_to_list. }
  unfold stop_event_loop. rewrite prog_bind_gets.
  pose proof (fine_exit _ Hn1) as Hx. destruct (stop (system n1)).
  - eexists. split; [done |].
    destruct (exit_code n1) as [c|] eqn:Hc; [by destruct Hx as [Hx _]; specialize (Hx eq_refl) |].
    match goal with |- context [net_le n ?n'] => enough (net_fine n' ∧ net_le n1 n') as [H2 H3] end.
    { split_and!; [exact H2 | by etrans | by rewrite <- He1 |].
      intros i addr Hi Hk. eapply le_told; [exact H3 | by apply (le_known _ _ Hle1) | by eapply Htold]. }
    apply threads_same; [done | done | by rewrite Hc; intros [] | done].
  - exists n1. split_and!; [done..| | done].
    rewrite <- He1. destruct (exit_code n1); [done |]. by destruct Hx as [_ Hx]; specialize (Hx eq_refl).
Qed.

Lemma net_step_fine n n' : net_step n n' → net_fine n → net_fine n' ∧ net_le n n'.
Proof.
  intros Hstep Hn. pose proof (fine_exit _ Hn) as Hx. destruct Hstep as
    [m ms n' w Hm Hh | addr a code l Ha Hb | addr i n' w Ha Hs | addr a n' w Ha Hr He
    | m n' w Hs | addr code n' w Hs].
  - set (n1 := mkNet (system n) ms (exit_code n) (threads n)) in Hh.
    destruct (threads_same n n1 Hn) as [Hn1 Hle1]; [done..|]. destruct m as [code|i addr|i].
    + destruct (system_exit_spec code n1 Hn1) as (n2 & H2 & Hn2 & Hle2 & _).
      rewrite H2 in Hh. injection Hh as <- _. split; [done | by etrans].
    + injection Hh as <- _. by apply threads_same.
    + injection Hh as <- _. by apply threads_same.
  - eapply thread_moves; [done | exact Ha | | done..].
    apply handle_moves; [by apply (fine_threads _ Hn addr) | done].
  - injection Hs as <- _. apply net_moves; [done | done | |].
    + simpl. intros addr' b [[<- <-]|[Hne Hb]]%lookup_insert_Some; [by rewrite Ha |].
      rewrite Hb. split; [done | by apply (fine_threads _ Hn addr') | done].
    + intros addr' Hk. unfold known; simpl. by apply lookup_insert_is_Some'; right.
  - injection He as <- _. by apply threads_same.
  - injection Hs as <- _. by apply threads_same.
  - destruct (do_send_stop_spec addr code n Hn) as (n2 & H2 & Hn2 & Hle2 & _).
    rewrite H2 in Hs. by injection Hs as <- _.
Qed.

Lemma net_run_fine n n' : rtc net_step n n' → net_fine n → net_fine n' ∧ net_le n n'.
Proof.
  induction 1 as [n|n n1 n2 Hstep _ IH]; intros Hn; [by split |].
  destruct (net_step_fine _ _ Hstep Hn) as [Hn1 Hle1]. destruct (IH Hn1) as [Hn2 Hle2].
  split; [done | by etrans].
Qed.

Lemma net_init_fine addr i : net_fine (net_init addr i).
Proof. split; [done |]. simpl. by intros a b [<- <-]%lookup_singleton_Some. Qed.

(** C36: The first [SystemExit] that the system handles decides the exit code, for
    ever; every arbiter that was registered then has been told to stop, and
    however the threads go on, it has stopped or has still to handle the message
    that stops it: when no mailbox holds anything, all of them have stopped. *)
Theorem system_shutdown addr0 i0 n code ms n1 w n2 :
  rtc net_step (net_init addr0 i0) n →
  system_mailbox n = SystemExit code :: ms →
  system_handle (SystemExit code) (mkNet (system n) ms (exit_code n) (threads n)) = Return ((), n1, w) →
  rtc net_step n1 n2 →
  run_result (exit_code n2) = default code (exit_code n) ∧
  ∀ i addr a, arbiters (system n) !! i = Some addr → known n addr →
    threads n2 !! addr = Some a → sys a = false →
    (is_Some (result a) ∨ mailbox a ≠ []) ∧ (mailbox a = [] → is_Some (result a)).
Proof.
  intros Hrun Hms Hh Hrun2. destruct (net_run_fine _ _ Hrun (net_init_fine addr0 i0)) as [Hn _].
  destruct (threads_same n (mkNet (system n) ms (exit_code n) (threads n)) Hn) as [Hn0 _];
    [done | done | apply Hn |].
  destruct (system_exit_spec code _ Hn0) as (n1' & H1 & Hn1 & Hle1 & He1 & Ht1).
  rewrite H1 in Hh. injection Hh as <- _.
  destruct (net_run_fine _ _ Hrun2 Hn1) as [_ Hle2]. split.
  - rewrite (le_exit _ _ Hle2), He1; [done | by rewrite He1; eexists].
  - intros i addr a Hi Hk Ha Hs.
    destruct (le_told _ _ Hle2 addr (le_known _ _ Hle1 addr Hk) (Ht1 i addr Hi Hk) a Ha Hs) as [Hr|Hb].
    + by split; [left | intros _].
    + split; [by right | done].
Qed.
End system.

(** ** A run: an arbiter is started and registered, then the system exits *)

Lemma net_run_step {Addr} `{!EqDecision Addr, !Countable Addr} (n0 n n' : Net (Addr := Addr)) :
  rtc net_step n0 n → net_step n n' → rtc net_step n0 n'.
Proof. apply rtc_r. Qed.

(** [go s]: the run [H] takes the step [s]. *)
Tactic Notation "go" uconstr(s) :=
  match goal with H : rtc _ _ _ |- _ =>
    eapply net_run_step in H; [| eapply s; reflexivity]; vm_compute in H end.

Lemma demo_running :
  ∃ n : Net (Addr := nat), rtc net_step (net_init 0%nat "sys") n ∧
    system_mailbox n = [SystemExit 7] ∧ exit_code n = None ∧ known n 1%nat ∧
    arbiters (system n) !! "a"%string = Some 1%nat.
Proof.
  pose proof (rtc_refl net_step (net_init 0%nat "sys")) as H. vm_compute in H.
  go system_takes. go (arbiter_starts _ 1%nat "a"). go system_takes. go (user_sends _ (SystemExit 7)).
  eexists. split; [exact H |]. split_and!; [reflexivity | reflexivity | by eexists | reflexivity].
Qed.

(** An arbiter that registers after the system has handled [SystemExit] is never
    told to stop: nothing is left to handle, and it is still running. *)
Lemma late_arbiter_runs_on :
  ∃ (n : Net (Addr := nat)) a, rtc net_step (net_init 0%nat "sys") n ∧ exit_code n = Some 7 ∧
    system_mailbox n = [] ∧ arbiters (system n) !! "a"%string = Some 1%nat ∧
    threads n !! 1%nat = Some a ∧ sys a = false ∧ mailbox a = [] ∧ result a = None.
Proof.
  pose proof (rtc_refl net_step (net_init 0%nat "sys")) as H. vm_compute in H.
  go (user_sends _ (SystemExit 7)). go (arbiter_starts _ 1%nat "a").
  go system_takes. go system_takes. go system_takes. go (arbiter_takes _ 0%nat).
  eexists _, _. split; [exact H |]. split_and!; reflexivity.
Qed.

Lemma system_shutdown_witness :
  ∃ n n1 n2 : Net (Addr := nat), rtc net_step (net_init 0%nat "sys") n ∧
    net_step n n1 ∧ rtc net_step n1 n2 ∧ run_result (exit_code n2) = 7 ∧
    ∀ a, threads n2 !! 1%nat = Some a → sys a = false → mailbox a = [] → is_Some (result a).
Proof.
  destruct demo_running as (n & Hrun & Hms & Hex & Hk & Hreg).
  destruct (net_run_fine _ _ Hrun (net_init_fine 0%nat "sys")) as [Hn _].
  destruct (system_exit_spec 7 (mkNet (system n) [] (exit_code n) (threads n)))
    as (n1 & H1 & _); [by split; apply Hn |].
  destruct (system_shutdown 0%nat "sys" n 7 [] n1 [] n1 Hrun Hms H1 (rtc_refl _ _)) as [Hc Ht].
  exists n, n1, n1. split_and!; [done | by eapply system_takes | apply rtc_refl | by rewrite Hc, Hex |].
  intros a Ha Hs. exact (proj2 (Ht "a"%string 1%nat a Hreg Hk Ha Hs)).
Defined.
