(* ===== verification/Signals.v ===== *)
(** * Process signals: [src/actors/signal.rs]

    [ProcessSignals] keeps the recipients that subscribed and passes every signal
    of the process on to them; [DefaultSignalsHandler] is such a subscriber and
    asks the system to exit.  The streams of signals are tokio's: [new_signal]
    makes the future of one and [tag] is the stream that yields a signal's type
    for each of its items.  The channels of the recipients are behind the class
    [Subscribers]. *)

From S2P Require Import Prelude.
From S2P Require Import Envelope.
From S2P Require Import ContextImpl.
From S2P Require Import Fut.
From S2P Require Import AsyncContext.

Inductive SignalType : Type := Hup | Int | Term | Quit | Child.

#[export] Instance signal_type_eq_dec : EqDecision SignalType.
Proof. solve_decision. Defined.

Section signals.
Context {W Task Rec : Type}.
Abbreviation P := (Prog W Task).

Record ProcessSignals : Type := mkProcessSignals { subscribers : list Rec }.
Definition process_signals_default : ProcessSignals := mkProcessSignals [].

Context `{!Cell W ProcessSignals}.
(** [Recipient<Syn, Signal>::do_send]. *)
Context (do_send : SignalType → Rec → P (Result () (SendError SignalType))).

(** ** The handlers of [ProcessSignals] *)

(** The [for] loop over the subscribers: those that are gone are forgotten. *)
Fixpoint notify_subscribers (sig : SignalType) (l : list Rec) : P () :=
  match l with
  | [] => mret ()
  | subscr :: l =>
      r ← do_send sig subscr;
      _ ← match r with
          | Ok _ => cell_update (fun p => mkProcessSignals (subscribers p ++ [subscr]))
          | Err _ => mret ()
          end;
      notify_subscribers sig l
  end.

(** [Handler<SignalType>] and [Handler<Subscribe>]. *)
Definition signal_handle (sig : SignalType) : P () :=
  p ← cell_read;
  _ ← cell_update (fun _ => mkProcessSignals []);
  notify_subscribers sig (subscribers p).
Definition subscribe_handle (r : Rec) : P () :=
  cell_update (fun p => mkProcessSignals (subscribers p ++ [r])).

(** ** Starting *)

Section starting.
Context {Fut Src St Err : Type} `{!AsyncContext W Task Fut, !ActorFuture W Task Src St Err}.
Context (unix : bool) (new_signal : SignalType → Src) (tag : St → SignalType → St).
Context (box_stream : St → Fut).

(** Once the stream of a signal is there its items become messages. *)
Definition watch (sig : SignalType) (st : St) : P () := add_message_stream box_stream (tag st sig).
Definition spawn_watch (box : Map (W := W) (Task := Task) Src St () → Fut) (sig : SignalType) : P () :=
  _ ← ctx_spawn (box (map_new (new_signal sig) (watch sig))); mret ().
Definition spawn_watch_drop_err (box : Map (DropErr Src) St () → Fut) (sig : SignalType) : P () :=
  _ ← ctx_spawn (box (map_new (mkDropErr (new_signal sig)) (watch sig))); mret ().

(** [service_started]; errors are dropped before or after the closure. *)
Definition service_started (box : Map (W := W) (Task := Task) Src St () → Fut)
    (box' : Map (DropErr Src) St () → Fut) : P () :=
  _ ← spawn_watch box Int;
  if unix then
    _ ← spawn_watch_drop_err box' Hup;
    _ ← spawn_watch box Term;
    _ ← spawn_watch box Quit;
    spawn_watch box Child
  else mret ().
End starting.

(** ** [DefaultSignalsHandler] *)

Section default_handler.
(** [exit] is [Arbiter::system().do_send(SystemExit(code))]. *)
Context (exit : Z → P ()).
Definition default_signal_handle (sig : SignalType) : P () :=
  match sig with
  | Int | Term | Quit => exit 0
  | Hup | Child => mret ()
  end.

(** [started]: the handler subscribes, and waits until it has. *)
Context {Fut Addr Req : Type} `{!AsyncContext W Task Fut, !ActorFuture W Task Req () MailboxError}.
Context (registry_get : P Addr) (own_recipient : P Rec) (send_subscribe : Addr → Rec → P Req).
Context (box : MapErr (W := W) (Task := Task) (Map (W := W) (Task := Task) Req () ()) MailboxError () → Fut).
Definition default_handler_started : P () :=
  addr ← registry_get;
  slf ← own_recipient;
  req ← send_subscribe addr slf;
  ctx_wait (box (map_err_new (map_new req (fun _ => mret ())) (fun _ => mret ()))).
End default_handler.

(** ** What subscribers get *)

(** [chan r] is the channel a recipient sends to, [sent] what was put into it so
    far and [live] says whether its receiver is there. *)
Class Subscribers (K : Type) : Type := {
  chan : Rec → K;
  sent : K → W → list SignalType;
  live : K → W → bool;
  do_send_live s r w : live (chan r) w = true → ∃ w' n,
    do_send s r w = Return (Ok (), w', n) ∧ cell_get w' = cell_get w ∧
    (∀ k, live k w' = live k w) ∧ sent (chan r) w' = sent (chan r) w ++ [s] ∧
    ∀ k, k ≠ chan r → sent k w' = sent k w;
  do_send_dead s r w : live (chan r) w = false → ∃ w' n,
    do_send s r w = Return (Err (Closed s), w', n) ∧ cell_get w' = cell_get w ∧
    (∀ k, live k w' = live k w) ∧ ∀ k, sent k w' = sent k w;
  sent_cell p k w : sent k (cell_set p w) = sent k w;
  live_cell p k w : live k (cell_set p w) = live k w
}.

Context {K : Type} `{!EqDecision K, !Subscribers K}.
Abbreviation subs w := (subscribers (cell_get w)).

(** How often the channel [k] is subscribed. *)
Definition times (k : K) (l : list Rec) : nat := length (filter (fun r => chan r = k) l).

Lemma times_app k l1 l2 : times k (l1 ++ l2) = (times k l1 + times k l2)%nat.
Proof. unfold times. by rewrite filter_app, length_app. Qed.

Lemma times_cons k r l :
  times k (r :: l) = ((if decide (chan r = k) then 1 else 0) + times k l)%nat.
Proof. unfold times. rewrite filter_cons. by destruct (decide _). Qed.

(** What one signal does. *)
Lemma notify_spec s l w :
  ∃ w' n, notify_subscribers s l w = Return ((), w', n) ∧
    (∀ k, live k w' = live k w) ∧
    subs w' = subs w ++ filter (fun r => live (chan r) w = true) l ∧
    ∀ k, sent k w' = sent k w ++ replicate (if live k w then times k l else 0) s.
Proof.
  revert w. induction l as [|r l IH]; intros w; cbn [notify_subscribers].
  - exists w, []. split_and!; [done | done | by rewrite app_nil_r |].
    intros k. unfold times; simpl. destruct (live k w); by rewrite app_nil_r.
  - destruct (live (chan r) w) eqn:Hr.
    + destruct (do_send_live s r w Hr) as (w1 & n1 & H1 & Hc & Hl & Hs & Hne).
      rewrite (prog_bind_Return _ _ _ _ _ _ H1). unfold cell_update at 1.
      set (w2 := cell_set (mkProcessSignals (subs w1 ++ [r])) w1).
      rewrite (prog_bind_quiet _ _ w1 () w2) by done.
      destruct (IH w2) as (w3 & n3 & H3 & Hl3 & Hsub & Hsent). rewrite H3.
      assert (∀ k, live k w2 = live k w) as Hl2 by (intros; unfold w2; by rewrite live_cell, Hl).
      eexists w3, _. split; [done |]. split; [intros k; by rewrite Hl3, Hl2 |]. split.
      * rewrite Hsub. unfold w2 at 1. rewrite cell_get_set, Hc. simpl.
        rewrite filter_cons_True by done. rewrite <- app_assoc. simpl. do 2 f_equal.
        apply list_filter_iff. intros x. by rewrite Hl2.
      * intros k. rewrite Hsent, Hl2. unfold w2. rewrite sent_cell.
        rewrite times_cons.
        destruct (decide (chan r = k)) as [<-|Hk].
        -- rewrite Hs, Hr, <- app_assoc. done.
        -- rewrite Hne by done. done.
    + destruct (do_send_dead s r w Hr) as (w1 & n1 & H1 & Hc & Hl & Hs).
      rewrite (prog_bind_Return _ _ _ _ _ _ H1), (prog_bind_quiet _ _ w1 () w1) by done.
      destruct (IH w1) as (w3 & n3 & H3 & Hl3 & Hsub & Hsent). rewrite H3.
      eexists w3, _. split; [done |]. split; [intros k; by rewrite Hl3, Hl |]. split.
      * rewrite Hsub, Hc. rewrite filter_cons_False by congruence. f_equal.
        apply list_filter_iff. intros x. by rewrite Hl.
      * intros k. rewrite Hsent, Hl, Hs, times_cons.
        destruct (decide (chan r = k)) as [<-|Hk]; [by rewrite Hr | done].
Qed.

(** ** Histories *)

Inductive Event : Type :=
| Subscribed (r : Rec)
| Raised (sig : SignalType).

(** Subscriptions and signals in some order; in between, receivers may go away. *)
Inductive history (w0 : W) : list Event → W → Prop :=
| history_start : history w0 [] w0
| history_subscribe es w r w' n :
    history w0 es w → subscribe_handle r w = Return ((), w', n) →
    history w0 (es ++ [Subscribed r]) w'
| history_signal es w sig w' n :
    history w0 es w → signal_handle sig w = Return ((), w', n) →
    history w0 (es ++ [Raised sig]) w'
| history_outside es w w' :
    history w0 es w → cell_get w' = cell_get w → (∀ k, sent k w' = sent k w) →
    (∀ k, live k w' = true → live k w = true) → history w0 es w'.

(** How often [k] is subscribed after [es], and the signals it should have got:
    each one as often as it was subscribed then. *)
Fixpoint expected (k : K) (n : nat) (es : list Event) : list SignalType :=
  match es with
  | [] => []
  | Subscribed r :: es => expected k (if decide (chan r = k) then S n else n) es
  | Raised sig :: es => replicate n sig ++ expected k n es
  end.
Definition subscriptions (k : K) (es : list Event) : nat :=
  times k (omap (fun e => match e with Subscribed r => Some r | Raised _ => None end) es).

Lemma subscriptions_snoc k es e :
  subscriptions k (es ++ [e]) =
  (subscriptions k es + match e with Subscribed r => if decide (chan r = k) then 1 else 0 | Raised _ => 0 end)%nat.
Proof.
  unfold subscriptions. rewrite omap_app, times_app. f_equal. destruct e as [r|]; [| done].
  simpl. rewrite times_cons. unfold times; simpl. lia.
Qed.

Lemma expected_snoc k n es e :
  expected k n (es ++ [e]) =
  expected k n es ++ match e with Subscribed _ => [] | Raised sig => replicate (n + subscriptions k es) sig end.
Proof.
  revert n. induction es as [|[r|sig] es IH]; intros n; simpl.
  - destruct e; simpl; [done | by rewrite app_nil_r, Nat.add_0_r].
  - rewrite IH. destruct e; [done |]. do 2 f_equal. unfold subscriptions; simpl.
    rewrite times_cons. change (list_omap Event Rec) with (@omap list _ Event Rec). case_decide; lia.
  - by rewrite IH, <- app_assoc.
Qed.

Lemma times_live k w l :
  live k w = true → times k (filter (fun r => live (chan r) w = true) l) = times k l.
Proof.
  intros Hk. unfold times. rewrite list_filter_filter. f_equal. apply list_filter_iff.
  intros r. split; [tauto |]. intros <-. done.
Qed.

Record delivered (es : list Event) (k : K) (w : W) : Prop := mkDelivered {
  delivered_live : live k w = true → sent k w = expected k 0 es ∧ times k (subs w) = subscriptions k es;
  delivered_dead : sent k w `prefix_of` expected k 0 es
}.

Lemma signal_handle_spec sig w :
  ∃ w' n, signal_handle sig w = Return ((), w', n) ∧
    (∀ k, live k w' = live k w) ∧ subs w' = filter (fun r => live (chan r) w = true) (subs w) ∧
    ∀ k, sent k w' = sent k w ++ replicate (if live k w then times k (subs w) else 0) sig.
Proof.
  unfold signal_handle, cell_read, cell_update. rewrite prog_bind_gets.
  set (w1 := cell_set (mkProcessSignals []) w).
  rewrite (prog_bind_quiet _ _ w () w1) by done.
  destruct (notify_spec sig (subs w) w1) as (w' & n & Hn & Hl & Hs & Hk).
  assert (∀ k, live k w1 = live k w) as Hl1 by (intros; apply live_cell).
  exists w', n. split_and!; [done | intros; by rewrite Hl | |].
  - rewrite Hs. unfold w1 at 1. rewrite cell_get_set. simpl. apply list_filter_iff.
    intros r. by rewrite Hl1.
  - intros k. rewrite Hk, Hl1. unfold w1. by rewrite sent_cell.
Qed.

Lemma history_delivered w0 es w k :
  subs w0 = [] → sent k w0 = [] → history w0 es w → delivered es k w.
Proof.
  intros H0 H1. induction 1 as [|es w r w' n _ IH Hs|es w sig w' n _ IH Hs|es w w' _ IH Hc Hs Hl].
  - split; [by rewrite H0, H1 | by rewrite H1].
  - injection Hs as <- _. destruct IH as [IHl IHd]. split; rewrite sent_cell, expected_snoc, app_nil_r; [| done].
    rewrite live_cell, cell_get_set, subscriptions_snoc. simpl. rewrite times_app, times_cons.
    intros Hk. destruct (IHl Hk) as [-> ->]. split; [done |]. unfold times; simpl. lia.
  - destruct (signal_handle_spec sig w) as (w1 & n1 & H & Hl & Hsub & Hsent).
    rewrite H in Hs. injection Hs as <- _. destruct IH as [IHl IHd].
    split; rewrite Hsent, expected_snoc; simpl.
    + rewrite Hl, subscriptions_snoc, Nat.add_0_r. intros Hk. rewrite Hk.
      destruct (IHl Hk) as [-> Ht]. by rewrite Hsub, (times_live _ _ _ Hk), Ht.
    + destruct (live k w) eqn:Hk.
      * destruct (IHl eq_refl) as [-> Ht]. by rewrite Ht.
      * rewrite app_nil_r. by apply prefix_app_r.
  - destruct IH as [IHl IHd]. split; rewrite Hs; [| done]. rewrite Hc. auto.
Qed.

(** C37: Every subscriber that is still there has got exactly the signals raised
    since it subscribed, in order, each one as often as it subscribed; one that
    is gone got a part of that from the beginning.  Handling a signal always
    ends, and forgets the subscribers that are gone. *)
Theorem signals_delivered w0 es w k sig :
  subs w0 = [] → sent k w0 = [] → history w0 es w →
  (live k w = true → sent k w = expected k 0 es) ∧
  sent k w `prefix_of` expected k 0 es ∧
  ∃ w' n, signal_handle sig w = Return ((), w', n) ∧
    subs w' = filter (fun r => live (chan r) w = true) (subs w).
Proof.
  intros H0 H1 Hh. destruct (history_delivered w0 es w k H0 H1 Hh) as [Hl Hd].
  destruct (signal_handle_spec sig w) as (w' & n & Hs & _ & Hsub & _).
  split_and!; [apply Hl | done | by exists w', n].
Qed.
End signals.

(** ** Witness *)

Section witness.

(** Recipients are numbers; those in the list are gone. *)
Definition Sinks : Type := ProcessSignals (Rec := nat) * (list (nat * SignalType) * list nat).

#[local] Program Instance sinks_cell : Cell Sinks (ProcessSignals (Rec := nat)) := {|
  cell_get := fst; cell_set p w := (p, w.2)
|}.
Next Obligation. done. Qed.
Next Obligation. done. Qed.
Next Obligation. by intros []. Qed.

Definition sink_send (s : SignalType) (r : nat) : Prog Sinks nat (Result () (SendError SignalType)) :=
  fun w =>
    if existsb (Nat.eqb r) w.2.2 then Return (Err (Closed s), w, [])
    else Return (Ok (), (w.1, (w.2.1 ++ [(r, s)], w.2.2)), [r]).

#[local] Program Instance sinks : Subscribers (W := Sinks) (Task := nat) sink_send nat := {|
  chan r := r;
  sent k w := (filter (fun x => x.1 = k) w.2.1).*2;
  live k w := negb (existsb (Nat.eqb k) w.2.2)
|}.
Next Obligation.
  intros s r w Hl. apply negb_true_iff in Hl. unfold sink_send. rewrite Hl.
  eexists _, _. split; [done |]. split_and!; [done | done | |].
  - simpl. by rewrite filter_app, filter_cons_True, fmap_app.
  - intros k Hk. simpl. by rewrite filter_app, filter_cons_False, app_nil_r.
Qed.
Next Obligation.
  intros s r w Hl. apply negb_false_iff in Hl. unfold sink_send. rewrite Hl.
  by eexists _, _.
Qed.
Next Obligation. done. Qed.
Next Obligation. done. Qed.

Abbreviation subs l := (mkProcessSignals (Rec := nat) l).
Definition signals_end : Sinks :=
  (subs [1; 1]%nat, ([(1%nat, Int); (2%nat, Int); (1%nat, Term); (1%nat, Term)], [2%nat])).

Lemma signals_history :
  history (K := nat) sink_send (subs [], ([], []))
    [Subscribed 1%nat; Subscribed 2%nat; Raised Int; Subscribed 1%nat; Raised Term] signals_end.
Proof.
  set (l1 := [(1%nat, Int); (2%nat, Int)]).
  apply (history_signal _ _ [_; _; _; _] (subs [1; 2; 1]%nat, (l1, [2%nat])) _ _ [1; 1]%nat); [| reflexivity].
  apply (history_subscribe _ _ [_; _; _] (subs [1; 2]%nat, (l1, [2%nat])) _ _ []); [| reflexivity].
  apply (history_outside _ _ _ (subs [1; 2]%nat, (l1, []))); [| done..].
  apply (history_signal _ _ [_; _] (subs [1; 2]%nat, ([], [])) _ _ [1; 2]%nat); [| reflexivity].
  apply (history_subscribe _ _ [_] (subs [1]%nat, ([], [])) _ _ []); [| reflexivity].
  apply (history_subscribe _ _ [] (subs [], ([], [])) _ _ []); [| reflexivity].
  apply history_start.
Qed.

Lemma signals_delivered_witness : sent sink_send 1%nat signals_end = [Int; Term; Term].
Proof.
  exact (proj1 (signals_delivered sink_send (subs [], ([], [])) _ signals_end 1%nat Int
    eq_refl eq_refl signals_history) eq_refl).
Defined.
End witness.
