(* ===== verification/Chat.v ===== *)
(** * The rooms of the chat example: [src/examples/chat/src/server.rs]

    [ChatServer] knows the sessions by their ids and the rooms they are in.  Its
    abstract specification is a map from the id of a session to its address and
    its room ([Hall]); each handler is shown to do what the specification does.
    Hash maps and sets are iterated in some order: here that of [map_to_list]
    and [elements], and the theorem speaks about messages up to permutation.
    [addr_do_send] sends to a session and [gen] is the random generator. *)

From S2P Require Import Prelude.

Section chat.
Context {W Task Addr : Type}.
Abbreviation P := (Prog W Task).

Record ChatServer : Type := mkChatServer {
  sessions : gmap Z Addr;
  rooms : gmap string (gset Z)
}.

Inductive ChatMessage : Type :=
| Connect (addr : Addr)
| Disconnect (id : Z)
| Message (id : Z) (msg room : string)
| Join (id : Z) (name : string).

(** [ChatServer::default]. *)
Definition chat_default : ChatServer := mkChatServer ∅ {["Main"%string := ∅]}.

Context `{!Cell W ChatServer}.
Context (addr_do_send : string → Addr → P ()) (gen : P Z).

(** ** The methods *)

(** [send_message]: the loop over the ids of a room. *)
Fixpoint send_each (l : list Z) (message : string) (skip_id : Z) : P () :=
  match l with
  | [] => mret ()
  | id :: l =>
      _ ← (if bool_decide (id ≠ skip_id) then
             s ← cell_read;
             match sessions s !! id with
             | Some addr => addr_do_send message addr
             | None => mret ()
             end
           else mret ());
      send_each l message skip_id
  end.
Definition send_message (room message : string) (skip_id : Z) : P () :=
  s ← cell_read;
  match rooms s !! room with
  | Some ids => send_each (elements ids) message skip_id
  | None => mret ()
  end.

Definition set_sessions (m : gmap Z Addr) : P () :=
  cell_update (fun s => mkChatServer m (rooms s)).
Definition set_rooms (m : gmap string (gset Z)) : P () :=
  cell_update (fun s => mkChatServer (sessions s) m).

(** Removing a session from all rooms: the names of those it was in. *)
Definition leave_rooms (id : Z) : P (list string) :=
  s ← cell_read;
  _ ← set_rooms ((fun ids => ids ∖ {[id]}) <$> rooms s);
  mret (filter (fun x : string * gset Z => id ∈ x.2) (map_to_list (rooms s))).*1.

Fixpoint send_disconnected (l : list string) : P () :=
  match l with
  | [] => mret ()
  | room :: l => _ ← send_message room "Someone disconnected" 0; send_disconnected l
  end.

(** [rooms.get_mut(name).unwrap().insert(id)]. *)
Definition enter_room (id : Z) (name : string) : P () :=
  s ← cell_read;
  ids ← lift (unwrap "called `Option::unwrap()` on a `None` value" (rooms s !! name));
  set_rooms (<[name := {[id]} ∪ ids]> (rooms s)).

(** ** The handlers *)

Definition connect_handle (addr : Addr) : P Z :=
  _ ← send_message "Main" "Someone joined" 0;
  id ← gen;
  s ← cell_read;
  _ ← set_sessions (<[id := addr]> (sessions s));
  _ ← enter_room id "Main";
  mret id.

Definition disconnect_handle (id : Z) : P () :=
  s ← cell_read;
  _ ← set_sessions (delete id (sessions s));
  names ← (if bool_decide (is_Some (sessions s !! id)) then leave_rooms id else mret []);
  send_disconnected names.

Definition message_handle (id : Z) (msg room : string) : P () := send_message room msg id.

Definition list_rooms_handle : P (list string) :=
  s ← cell_read; mret (map_to_list (rooms s)).*1.

Definition join_handle (id : Z) (name : string) : P () :=
  names ← leave_rooms id;
  _ ← send_disconnected names;
  s ← cell_read;
  _ ← (if bool_decide (rooms s !! name = None) then set_rooms (<[name := ∅]> (rooms s)) else mret ());
  _ ← send_message name "Someone connected" id;
  enter_room id name.

(** ** The specification *)

(** Every session with its address and the room it is in, if any. *)
Abbreviation Hall := (gmap Z (Addr * option string)).
Definition room_of (h : Hall) (id : Z) : option string := h !! id ≫= snd.

(** The messages to the sessions of a room but [skip]. *)
Definition others (h : Hall) (room msg : string) (skip : Z) : list (Addr * string) :=
  (fun x => (x.2.1, msg)) <$>
    filter (fun x : Z * (Addr * option string) => x.2.2 = Some room ∧ x.1 ≠ skip) (map_to_list h).
(** ... when one has left it. *)
Definition left_behind (h : Hall) (room : option string) : list (Addr * string) :=
  match room with Some room => others h room "Someone disconnected" 0 | None => [] end.

(** [spec h m r h' out]: in [h] the message [m] is answered with [r] and [out] is
    sent. *)
Inductive spec (h : Hall) : ChatMessage → option Z → Hall → list (Addr * string) → Prop :=
| spec_connect addr id :
    h !! id = None →
    spec h (Connect addr) (Some id) (<[id := (addr, Some "Main"%string)]> h)
      (others h "Main" "Someone joined" 0)
| spec_disconnect id :
    spec h (Disconnect id) None (delete id h) (left_behind (delete id h) (room_of h id))
| spec_message id msg room : spec h (Message id msg room) None h (others h room msg id)
| spec_join id name addr room :
    h !! id = Some (addr, room) →
    spec h (Join id name) None (<[id := (addr, Some name)]> h)
      (left_behind (<[id := (addr, None)]> h) room ++
       others (<[id := (addr, None)]> h) name "Someone connected" id).

Definition chat_handle (m : ChatMessage) : P (option Z) :=
  match m with
  | Connect addr => id ← connect_handle addr; mret (Some id)
  | Disconnect id => _ ← disconnect_handle id; mret None
  | Message id msg room => _ ← message_handle id msg room; mret None
  | Join id name => _ ← join_handle id name; mret None
  end.

(** [f] says in which room a session is. *)
Record in_rooms (m : gmap string (gset Z)) (f : Z → option string) : Prop := mkInRooms {
  in_main : is_Some (m !! "Main"%string);
  in_members room ids id : m !! room = Some ids → id ∈ ids ↔ f id = Some room;
  in_known id room : f id = Some room → is_Some (m !! room)
}.
Record represents (s : ChatServer) (h : Hall) : Prop := mkRepresents {
  rep_sessions : sessions s = fst <$> h;
  rep_rooms : in_rooms (rooms s) (room_of h)
}.

Lemma in_rooms_ext m f g : (∀ id, f id = g id) → in_rooms m f → in_rooms m g.
Proof.
  intros He [H1 H2 H3]. split; [done | |].
  - intros room ids id Hr. by rewrite <- He, (H2 room ids id Hr).
  - intros id room. rewrite <- He. apply H3.
Qed.

Lemma chat_default_represents : represents chat_default ∅.
Proof.
  split; [simpl; by rewrite fmap_empty |]. split; [by eexists | | done].
  intros room ids id Hr. simpl in Hr. apply lookup_singleton_Some in Hr as [<- <-].
  unfold room_of. rewrite lookup_empty. set_solver.
Qed.

(** ** What sending does *)

Context (log : W → list (Addr * string)).
Context (log_cell : ∀ s w, log (cell_set s w) = log w).
Context (do_send_logs : ∀ m a w, ∃ w' n, addr_do_send m a w = Return ((), w', n) ∧
  cell_get w' = cell_get w ∧ log w' = log w ++ [(a, m)]).
Context (gen_returns : ∀ w, ∃ id w' n, gen w = Return (id, w', n) ∧
  cell_get w' = cell_get w ∧ log w' = log w).

(** [m] returns [x], leaves the server in the state [s] and sends [out]. *)
Definition does {X} (m : P X) (w : W) (x : X) (s : ChatServer) (out : list (Addr * string)) : Prop :=
  ∃ w' n, m w = Return (x, w', n) ∧ cell_get w' = s ∧ log w' = log w ++ out.

Lemma does_ret {X} (x : X) w : does (mret x) w x (cell_get w) [].
Proof. exists w, []. by rewrite app_nil_r. Qed.

Lemma does_ret_in {X} (x : X) w s : cell_get w = s → does (mret x) w x s [].
Proof. intros <-. apply does_ret. Qed.

Lemma does_step {X Y} (m : P X) (f : X → P Y) w x w1 n out y s out' :
  m w = Return (x, w1, n) → log w1 = log w ++ out → does (f x) w1 y s out' →
  does (m ≫= f) w y s (out ++ out').
Proof.
  intros H1 Ho (w2 & n2 & H2 & Hs & Ho2). exists w2, (n ++ n2).
  rewrite (prog_bind_Return _ _ _ _ _ _ H1), H2. split_and!; [done | done |].
  by rewrite Ho2, Ho, app_assoc.
Qed.

(** Programs whose result depends on the state of the server and nothing else. *)
Lemma does_bind {X Y} (m : P X) (f : X → P Y) w x s out y s' out' :
  does m w x s out → (∀ w', cell_get w' = s → does (f x) w' y s' out') →
  does (m ≫= f) w y s' (out ++ out').
Proof.
  intros (w1 & n1 & H1 & Hs & Ho) Hf. destruct (Hf w1 Hs) as (w2 & n2 & H2 & Hs' & Ho').
  exists w2, (n1 ++ n2). rewrite (prog_bind_Return _ _ _ _ _ _ H1), H2.
  split_and!; [done | done |]. by rewrite Ho', Ho, app_assoc.
Qed.

Lemma does_read {Y} (f : ChatServer → P Y) w y s out :
  does (f (cell_get w)) w y s out → does (s ← cell_read; f s) w y s out.
Proof. unfold does, cell_read. by rewrite prog_bind_gets. Qed.

Lemma does_update {Y} (g : ChatServer → ChatServer) (f : () → P Y) w y s out :
  (∀ w', cell_get w' = g (cell_get w) → does (f ()) w' y s out) →
  does (cell_update g ≫= f) w y s out.
Proof.
  intros Hf. apply (does_bind _ _ _ () (g (cell_get w)) [] _ _ out); [| exact Hf].
  eexists _, []. split; [done |]. by rewrite cell_get_set, log_cell, app_nil_r.
Qed.

(** The addresses of the ids in a list. *)
Definition messages (m : gmap Z Addr) (l : list Z) (msg : string) (skip : Z) : list (Addr * string) :=
  omap (fun id => if bool_decide (id ≠ skip) then (fun a => (a, msg)) <$> m !! id else None) l.

Lemma send_each_does l msg skip w :
  does (send_each l msg skip) w () (cell_get w) (messages (sessions (cell_get w)) l msg skip).
Proof.
  revert w. induction l as [|id l IH]; intros w; [apply does_ret |]. cbn [send_each].
  assert (∀ w', cell_get w' = cell_get w → does (send_each l msg skip) w' () (cell_get w)
    (messages (sessions (cell_get w)) l msg skip)) as Hl by (intros w' <-; apply IH).
  unfold messages; simpl. case_bool_decide; simpl.
  - destruct (sessions (cell_get w) !! id) as [a|] eqn:Ha; simpl.
    + apply (does_bind _ _ _ () (cell_get w) [(a, msg)]); [| exact Hl].
      apply does_read. rewrite Ha. destruct (do_send_logs msg a w) as (w' & n & ? & ? & ?).
      by exists w', n.
    + apply (does_bind _ _ _ () (cell_get w) []); [| exact Hl].
      apply does_read. rewrite Ha. apply does_ret.
  - apply (does_bind _ _ _ () (cell_get w) []); [apply does_ret | exact Hl].
Qed.

Lemma messages_filter m l msg skip :
  messages m l msg skip = omap (fun id => (fun a => (a, msg)) <$> m !! id) (filter (fun id => id ≠ skip) l).
Proof.
  unfold messages. induction l as [|id l IH]; [done |]. rewrite filter_cons. csimpl.
  case_bool_decide; case_decide; try done; csimpl; by rewrite IH.
Qed.

(** The ids of the others. *)
Lemma others_ids (h : Hall) room skip (ids : gset Z) :
  (∀ id, id ∈ ids ↔ room_of h id = Some room) →
  filter (fun id => id ≠ skip) (elements ids) ≡ₚ
  (filter (fun x : Z * (Addr * option string) => x.2.2 = Some room ∧ x.1 ≠ skip) (map_to_list h)).*1.
Proof.
  intros Hids. apply NoDup_Permutation.
  - apply NoDup_filter, NoDup_elements.
  - eapply sublist_NoDup; [apply (NoDup_fst_map_to_list h) | apply fmap_sublist, sublist_filter].
  - intros id. rewrite list_elem_of_filter, elem_of_elements, Hids, list_elem_of_fmap. split.
    + intros [Hne ([a r] & Hid & Hr)%bind_Some]. simpl in Hr. subst r. exists (id, (a, Some room)).
      split; [done |]. apply list_elem_of_filter. split; [done |]. by apply elem_of_map_to_list.
    + intros ([id' [a r]] & -> & [[Hr Hne] Hid%elem_of_map_to_list]%list_elem_of_filter).
      simpl in *. subst r. unfold room_of. by rewrite Hid.
Qed.

Lemma messages_others (h : Hall) room (ids : gset Z) msg skip :
  (∀ id, id ∈ ids ↔ room_of h id = Some room) →
  messages (fst <$> h) (elements ids) msg skip ≡ₚ others h room msg skip.
Proof.
  intros Hr. rewrite messages_filter, (others_ids h room skip ids) by done. unfold others.
  assert (∀ l : list (Z * (Addr * option string)), (∀ x, x ∈ l → h !! x.1 = Some x.2) →
    omap (fun id => (fun a => (a, msg)) <$> (fst <$> h) !! id) l.*1 = (fun x => (x.2.1, msg)) <$> l) as Hl.
  { intros l. induction l as [|x l IH]; intros Hx; [done |]. csimpl.
    rewrite lookup_fmap, (Hx x) by (by left). simpl. f_equal. apply IH. intros; apply Hx. by right. }
  rewrite Hl; [done |]. intros [id x] [_ Hx%elem_of_map_to_list]%list_elem_of_filter. done.
Qed.

(** [m] leaves the server as it is and sends [out], in some order. *)
Definition sends (m : P ()) (w : W) (out : list (Addr * string)) : Prop :=
  ∃ out', does m w () (cell_get w) out' ∧ out' ≡ₚ out.

(** Sending to a room sends to the others in it. *)
Lemma send_message_sends w h room msg skip :
  represents (cell_get w) h → sends (send_message room msg skip) w (others h room msg skip).
Proof.
  intros [Hs [_ Hm Hk]]. unfold sends, send_message. destruct (rooms (cell_get w) !! room) as [ids|] eqn:Hr.
  - eexists. split; [apply does_read; rewrite Hr; apply send_each_does |].
    rewrite Hs. apply messages_others. intros id. by apply Hm.
  - exists []. split; [apply does_read; rewrite Hr; apply does_ret |].
    rewrite <- (messages_others h room ∅); [done |]. intros id. split; [set_solver |].
    intros Hid. apply Hk in Hid as [? Hid]. by rewrite Hr in Hid.
Qed.

Lemma send_disconnected_sends w h room :
  represents (cell_get w) h → sends (send_disconnected (option_list room)) w (left_behind h room).
Proof.
  intros H. destruct room as [room|]; simpl; [| exists []; split; [exact (does_ret () w) | reflexivity]].
  destruct (send_message_sends w h room "Someone disconnected" 0 H) as (out & Hd & Hp).
  exists (out ++ []). rewrite app_nil_r at 2. split; [| done].
  eapply does_bind; [exact Hd |]. intros w' <-. apply does_ret.
Qed.

(** A list of at most one. *)
Lemma option_list_unique {X} (l : list X) o :
  NoDup l → (∀ x, x ∈ l ↔ o = Some x) → l = option_list o.
Proof.
  intros Hl Ho. destruct l as [|x [|y l]].
  - destruct o as [x|]; [| done]. pose proof (proj2 (Ho x) eq_refl) as Hx. by apply elem_of_nil in Hx.
  - assert (o = Some x) as -> by (apply Ho; by left). done.
  - assert (o = Some x) as Hx by (apply Ho; by left). assert (o = Some y) as Hy by (apply Ho; right; by left).
    rewrite Hx in Hy. injection Hy as ->. apply NoDup_cons in Hl as [Hl _]. destruct Hl. by left.
Qed.

Definition leave (f : Z → option string) (id i : Z) : option string :=
  if decide (i = id) then None else f i.

Lemma leave_rooms_does id w f :
  in_rooms (rooms (cell_get w)) f →
  ∃ m, does (leave_rooms id) w (option_list (f id)) (mkChatServer (sessions (cell_get w)) m) [] ∧
    in_rooms m (leave f id).
Proof.
  intros [H1 H2 H3]. set (m0 := rooms (cell_get w)) in *.
  exists ((fun ids => ids ∖ {[id]}) <$> m0). split.
  - unfold leave_rooms. apply does_read, does_update. intros w' Hw'. fold m0.
    rewrite <- (option_list_unique (filter (fun x : string * gset Z => id ∈ x.2) (map_to_list m0)).*1 (f id)).
    + by apply does_ret_in.
    + eapply sublist_NoDup; [apply (NoDup_fst_map_to_list m0) | apply fmap_sublist, sublist_filter].
    + intros room. rewrite list_elem_of_fmap. split.
      * intros ([r ids] & -> & [Hin Hr%elem_of_map_to_list]%list_elem_of_filter). by apply (H2 r ids).
      * intros Hf. destruct (H3 _ _ Hf) as [ids Hids]. exists (room, ids). split; [done |].
        apply list_elem_of_filter. split; [by apply (H2 room) | by apply elem_of_map_to_list].
  - split.
    + rewrite lookup_fmap. by apply fmap_is_Some.
    + intros room ids i. rewrite lookup_fmap, fmap_Some. intros (ids0 & Hr & ->).
      rewrite elem_of_difference, elem_of_singleton, (H2 room ids0) by done. unfold leave.
      case_decide; [subst; split; [by intros [_ []] | done] | tauto].
    + intros i room. unfold leave. case_decide; [done |]. intros Hf. rewrite lookup_fmap.
      apply fmap_is_Some. by eapply H3.
Qed.

Definition enter (f : Z → option string) (id : Z) (name : string) (i : Z) : option string :=
  if decide (i = id) then Some name else f i.

Lemma enter_room_does id name w ids0 :
  rooms (cell_get w) !! name = Some ids0 →
  does (enter_room id name) w ()
    (mkChatServer (sessions (cell_get w)) (<[name := {[id]} ∪ ids0]> (rooms (cell_get w)))) [].
Proof.
  intros Hn. unfold enter_room. apply does_read. rewrite Hn. simpl unwrap.
  destruct (does_update (fun s => mkChatServer (sessions s) (<[name := {[id]} ∪ ids0]> (rooms (cell_get w))))
    mret w () (mkChatServer (sessions (cell_get w)) (<[name := {[id]} ∪ ids0]> (rooms (cell_get w)))) [])
    as (w' & n & Hw & Hs).
  { intros w' Hw'. by apply does_ret_in. }
  exists w', n. by rewrite (prog_bind_lift _ _ w), <- (prog_bind_ret_r (set_rooms _) w).
Qed.

Lemma in_rooms_enter m0 f id name ids0 :
  in_rooms m0 f → m0 !! name = Some ids0 → f id = None →
  in_rooms (<[name := {[id]} ∪ ids0]> m0) (enter f id name).
Proof.
  intros [H1 H2 H3] Hn Hid. split.
  - destruct (decide (name = "Main"%string)) as [->|Hne];
      [rewrite lookup_insert_eq; by eexists | by rewrite lookup_insert_ne].
  - intros room ids i [[<- <-]|[Hne Hr]]%lookup_insert_Some; unfold enter.
    + rewrite elem_of_union, elem_of_singleton, (H2 _ _ i Hn). case_decide; [subst; tauto |]. tauto.
    + rewrite (H2 _ _ i Hr). case_decide; [| done].
      subst. rewrite Hid. split; [done | by intros [= ->]].
  - intros i room. unfold enter. case_decide.
    + intros [= <-]. rewrite lookup_insert_eq. by eexists.
    + intros Hf. apply lookup_insert_is_Some'. right. by eapply H3.
Qed.

(** ** The handlers *)

(** [m] answers [x], leaves the server in a state that represents [h] and sends
    [out], in some order. *)
Definition answers {X} (m : P X) (w : W) (x : X) (h : Hall) (out : list (Addr * string)) : Prop :=
  ∃ s out', does m w x s out' ∧ represents s h ∧ out' ≡ₚ out.

Lemma answers_ret {X} (x : X) w h : represents (cell_get w) h → answers (mret x) w x h [].
Proof. intros H. exists (cell_get w), []. by split; [apply does_ret |]. Qed.

Lemma answers_bind {X Y} (m : P X) (f : X → P Y) w x s out y h out' :
  (∃ o, does m w x s o ∧ o ≡ₚ out) → (∀ w', cell_get w' = s → answers (f x) w' y h out') →
  answers (m ≫= f) w y h (out ++ out').
Proof.
  intros (o & (w1 & n1 & H1 & Hs & Ho) & Hp) Hf.
  destruct (Hf w1 Hs) as (s2 & o2 & (w2 & n2 & H2 & Hs2 & Ho2) & Hr & Hp2).
  exists s2, (o ++ o2). split_and!; [| done | by rewrite Hp, Hp2].
  exists w2, (n1 ++ n2). rewrite (prog_bind_Return _ _ _ _ _ _ H1), H2. split_and!; [done | done |].
  by rewrite Ho2, Ho, app_assoc.
Qed.

Lemma answers_quiet {X Y} (m : P X) (f : X → P Y) w x s y h out :
  does m w x s [] → (∀ w', cell_get w' = s → answers (f x) w' y h out) → answers (m ≫= f) w y h out.
Proof. intros Hm. apply (answers_bind _ _ _ _ _ [] _ _ out). by exists []. Qed.

Lemma answers_read {Y} (f : ChatServer → P Y) w y h out :
  answers (f (cell_get w)) w y h out → answers (s ← cell_read; f s) w y h out.
Proof. unfold answers, does, cell_read. by rewrite prog_bind_gets. Qed.

Lemma answers_update {Y} (g : ChatServer → ChatServer) (f : () → P Y) w y h out :
  (∀ w', cell_get w' = g (cell_get w) → answers (f ()) w' y h out) →
  answers (cell_update g ≫= f) w y h out.
Proof.
  apply answers_quiet. eexists _, []. split; [done |]. by rewrite cell_get_set, log_cell, app_nil_r.
Qed.

Lemma room_of_insert h id a r i :
  room_of (<[id := (a, r)]> h) i = if decide (i = id) then r else room_of h i.
Proof.
  unfold room_of. case_decide; [subst; by rewrite lookup_insert_eq | by rewrite lookup_insert_ne].
Qed.

(** The id that is drawn may be taken; the room [Main] is always there. *)
Lemma connect_answers addr w h :
  represents (cell_get w) h →
  ∃ id s out, does (connect_handle addr) w id s out ∧
    (h !! id = None → represents s (<[id := (addr, Some "Main"%string)]> h) ∧
                      out ≡ₚ others h "Main" "Someone joined" 0).
Proof.
  intros H. destruct (send_message_sends w h "Main" "Someone joined" 0 H) as (out & (w1 & n1 & H1 & Hw1 & Ho) & Hp).
  destruct (gen_returns w1) as (id & w2 & n2 & H2 & Hw2 & Ho2). rewrite Hw1 in Hw2.
  destruct H as [Hs Hr]. destruct (in_main _ _ Hr) as [ids0 Hmain].
  set (s' := mkChatServer (<[id := addr]> (sessions (cell_get w)))
    (<["Main"%string := {[id]} ∪ ids0]> (rooms (cell_get w)))).
  exists id, s', out. split.
  - rewrite <- (app_nil_r out). eapply (does_step _ _ _ _ _ _ _ _ _ _ H1 Ho).
    eapply (does_step _ _ _ _ _ _ [] _ _ _ H2); [by rewrite app_nil_r |].
    apply does_read, does_update. intros w3 Hw3. rewrite Hw2 in Hw3.
    assert (rooms (cell_get w3) !! "Main"%string = Some ids0) as Hm3 by (by rewrite Hw3).
    eapply (does_bind _ _ _ _ _ [] _ _ []); [by apply (enter_room_does id "Main" w3 ids0) |].
    intros w4 Hw4. apply does_ret_in. by rewrite Hw4, Hw3.
  - intros Hid. split; [| done]. split; simpl; [by rewrite Hs, fmap_insert |].
    eapply in_rooms_ext; [| apply (in_rooms_enter _ _ id "Main" ids0 Hr Hmain)].
    + intros i. by rewrite room_of_insert.
    + unfold room_of. by rewrite Hid.
Qed.

Lemma leave_ext h id i : leave (room_of h) id i = room_of (delete id h) i.
Proof.
  unfold leave, room_of. case_decide; [subst; by rewrite lookup_delete_eq | by rewrite lookup_delete_ne].
Qed.

Lemma disconnect_answers id w h :
  represents (cell_get w) h →
  answers (disconnect_handle id) w () (delete id h) (left_behind (delete id h) (room_of h id)).
Proof.
  intros [Hs Hr]. unfold disconnect_handle. apply answers_read, answers_update. intros w1 Hw1.
  assert (∃ m, does (if bool_decide (is_Some (sessions (cell_get w) !! id)) then leave_rooms id else mret [])
    w1 (option_list (room_of h id)) (mkChatServer (delete id (sessions (cell_get w))) m) [] ∧
    in_rooms m (room_of (delete id h))) as (m & Hd & Hm).
  { rewrite Hs, lookup_fmap. destruct (h !! id) as [x|] eqn:Hid; simpl.
    - destruct (leave_rooms_does id w1 (room_of h)) as (m & Hd & Hm); [by rewrite Hw1 |].
      exists m. rewrite Hw1 in Hd. rewrite <- Hs. split; [exact Hd |].
      eapply in_rooms_ext; [| exact Hm]. intros i. apply leave_ext.
    - exists (rooms (cell_get w)). rewrite (delete_id h) by done. split; [| done].
      rewrite <- Hs, (delete_id (sessions _)) by (by rewrite Hs, lookup_fmap, Hid).
      unfold room_of. rewrite Hid. apply does_ret_in. rewrite Hw1. simpl.
      rewrite delete_id by (by rewrite Hs, lookup_fmap, Hid). by destruct (cell_get w). }
  eapply answers_quiet; [exact Hd |]. intros w2 Hw2.
  assert (represents (cell_get w2) (delete id h)) as H2.
  { rewrite Hw2. split; [simpl; by rewrite Hs, fmap_delete | done]. }
  destruct (send_disconnected_sends w2 _ (room_of h id) H2) as (out & Hout & Hp).
  by eexists _, out.
Qed.

Lemma join_answers id name addr room w h :
  represents (cell_get w) h → h !! id = Some (addr, room) →
  answers (join_handle id name) w () (<[id := (addr, Some name)]> h)
    (left_behind (<[id := (addr, None)]> h) room ++
     others (<[id := (addr, None)]> h) name "Someone connected" id).
Proof.
  intros [Hs Hr] Hid. set (h0 := <[id := (addr, None)]> h).
  assert (room_of h id = room) as Hroom by (unfold room_of; by rewrite Hid).
  destruct (leave_rooms_does id w _ Hr) as (m & Hd & Hm). unfold join_handle.
  rewrite Hroom in Hd. eapply answers_quiet; [exact Hd |]. intros w1 Hw1.
  assert (represents (cell_get w1) h0) as H1.
  { rewrite Hw1. split; simpl.
    - unfold h0. rewrite Hs, fmap_insert. simpl. symmetry. apply insert_id. by rewrite lookup_fmap, Hid.
    - eapply in_rooms_ext; [| exact Hm]. intros i. unfold h0. by rewrite room_of_insert. }
  eapply answers_bind; [by apply send_disconnected_sends |]. intros w2 Hw2. rewrite <- Hw2 in H1.
  apply answers_read.
  assert (∃ s, does (if bool_decide (rooms (cell_get w2) !! name = None)
      then set_rooms (<[name := ∅]> (rooms (cell_get w2))) else mret ()) w2 () s [] ∧
    represents s h0 ∧ is_Some (rooms s !! name)) as (s & Hd3 & H3 & Hname).
  { destruct H1 as [H1s [Ha Hb Hc]]. case_bool_decide as Hn.
    - eexists. split; [eexists _, []; split; [done |]; by rewrite cell_get_set, log_cell, app_nil_r |].
      split; [| simpl; rewrite lookup_insert_eq; by eexists].
      split; [done |]. split; simpl.
      + destruct (decide (name = "Main"%string)) as [->|];
          [rewrite lookup_insert_eq; by eexists | by rewrite lookup_insert_ne].
      + intros r ids i [[<- <-]|[Hne Hids]]%lookup_insert_Some; [| by apply (Hb r)].
        split; [set_solver |]. intros Hi. destruct (Hc _ _ Hi) as [? Hx]. by rewrite Hn in Hx.
      + intros i r Hi. apply lookup_insert_is_Some'. right. by eapply Hc.
    - exists (cell_get w2). split; [apply does_ret |]. split; [done |].
      destruct (rooms (cell_get w2) !! name) eqn:Heq; [by eexists | done]. }
  eapply answers_quiet; [exact Hd3 |]. intros w3 Hw3. rewrite <- Hw3 in H3, Hname.
  rewrite <- (app_nil_r (others _ _ _ _)).
  eapply answers_bind; [by apply send_message_sends |]. intros w4 Hw4. rewrite <- Hw4 in H3, Hname.
  destruct H3 as [H3s H3r], Hname as [ids0 Hname].
  eexists _, []. split_and!; [by apply enter_room_does | | done]. split; simpl.
  - rewrite H3s. unfold h0. by rewrite !fmap_insert.
  - eapply in_rooms_ext; [| apply (in_rooms_enter _ _ id name ids0 H3r Hname)].
    + intros i. unfold h0, enter. rewrite !room_of_insert. by case_decide.
    + unfold h0. rewrite room_of_insert. by rewrite decide_True.
Qed.

(** The rooms that are listed: each once, and every room somebody is in. *)
Lemma list_rooms_complete w h :
  represents (cell_get w) h →
  ∃ l, list_rooms_handle w = Return (l, w, []) ∧ NoDup l ∧ "Main"%string ∈ l ∧
    ∀ id room, room_of h id = Some room → room ∈ l.
Proof.
  intros [_ [[ids0 Hmain] _ Hk]]. eexists. split; [done |].
  assert (∀ room, is_Some (rooms (cell_get w) !! room) → room ∈ (map_to_list (rooms (cell_get w))).*1) as Hin.
  { intros room [ids Hr]. apply list_elem_of_fmap. exists (room, ids). split; [done |].
    by apply elem_of_map_to_list. }
  split_and!; [apply NoDup_fst_map_to_list | by apply Hin | intros id room Hr]. eapply Hin, Hk, Hr.
Qed.

(** Handling a message, on every branch. *)
Lemma chat_handle_spec w h m :
  represents (cell_get w) h →
  (∀ id name, m = Join id name → is_Some (h !! id)) →
  ∃ r s out, does (chat_handle m) w r s out ∧
    ((∀ id, r = Some id → h !! id = None) →
     ∃ h' out', spec h m r h' out' ∧ represents s h' ∧ out ≡ₚ out').
Proof.
  intros H Hj. assert (∀ (p : P ()) h' out', spec h m None h' out' → answers p w () h' out' →
    ∃ s out, does (_ ← p; mret (@None Z)) w None s out ∧ represents s h' ∧ out ≡ₚ out') as Hquiet.
  { intros p h' out' _ (s & out & Hd & Hs & Hp). exists s, out. split_and!; [| done..].
    rewrite <- (app_nil_r out). eapply does_bind; [exact Hd |]. intros w' Hw'. by apply does_ret_in. }
  destruct m as [addr|id|id msg room|id name].
  - destruct (connect_answers addr w h H) as (id & s & out & Hd & Hf). exists (Some id), s, out. split.
    + rewrite <- (app_nil_r out). eapply does_bind; [exact Hd |]. intros w' Hw'. by apply does_ret_in.
    + intros Hid. specialize (Hid id eq_refl). destruct (Hf Hid) as [Hs Hp].
      eexists _, _. split; [by apply spec_connect | done].
  - destruct (Hquiet _ _ _ (spec_disconnect h id) (disconnect_answers id w h H)) as (s & out & Hd & Hs).
    exists None, s, out. split; [done |]. intros _. eexists _, _. split; [apply spec_disconnect | done].
  - destruct (Hquiet (message_handle id msg room) _ _ (spec_message h id msg room)) as (s & out & Hd & Hs).
    { destruct (send_message_sends w h room msg id H) as (out & Hd & Hp). by exists (cell_get w), out. }
    exists None, s, out. split; [done |]. intros _. eexists _, _. split; [apply spec_message | done].
  - destruct (Hj id name eq_refl) as [[addr room] Hid].
    destruct (Hquiet _ _ _ (spec_join h id name addr room Hid) (join_answers id name addr room w h H Hid))
      as (s & out & Hd & Hs).
    exists None, s, out. split; [done |]. intros _. eexists _, _. split; [by eapply spec_join | done].
Qed.
(** C38: The server does what the specification does.  Handling any message from
    a state that represents a hall always ends; provided that a session that joins
    is known, and that an id that is drawn is not taken, the result and the
    messages sent are those of the specification, and the new state represents
    its hall.  So a session is in one room at most, and what it says is sent
    once to every other session in the room and to nobody else. *)
Theorem chat_refines w h m :
  represents (cell_get w) h →
  (∀ id name, m = Join id name → is_Some (h !! id)) →
  ∃ r s out, does (chat_handle m) w r s out ∧
    ((∀ id, r = Some id → h !! id = None) →
     ∃ h' out', spec h m r h' out' ∧ represents s h' ∧ out ≡ₚ out').
Proof. apply chat_handle_spec. Qed.
End chat.

(** ** Runs *)

Section runs.

(** A server, what was sent, and the ids still to be drawn. *)
Definition ChatWorld : Type := ChatServer (Addr := string) * (list (string * string) * list Z).
#[local] Program Instance chat_cell : Cell ChatWorld (ChatServer (Addr := string)) := {|
  cell_get := fst; cell_set s w := (s, w.2)
|}.
Next Obligation. done. Qed.
Next Obligation. done. Qed.
Next Obligation. by intros []. Qed.

Definition log_send (m a : string) : Prog ChatWorld () () := fun w =>
  Return ((), (w.1, (w.2.1 ++ [(a, m)], w.2.2)), []).
Definition draw : Prog ChatWorld () Z := fun w =>
  Return (hd 0 w.2.2, (w.1, (w.2.1, tl w.2.2)), []).
Definition chat_world (ids : list Z) : ChatWorld := (chat_default, ([], ids)).

(** [l] is what a run of handlers sent. *)
Definition chat_sends (ids : list Z) (l : list ChatMessage) : option (list (string * string)) :=
  match mapM (M := Prog ChatWorld ()) (chat_handle log_send draw) l (chat_world ids) with
  | Return (_, w, _) => Some w.2.1
  | _ => None
  end.

Example chat_talk :
  chat_sends [7; 9] [Connect "a"; Connect "b"; Message 7 "hi" "Main"; Join 9 "Den"; Message 9 "x" "Den"] =
  Some [("a", "Someone joined"); ("b", "hi"); ("a", "Someone disconnected")]%string.
Proof. vm_compute. reflexivity. Qed.

(** Ids are drawn at random and not compared with those in use: a session whose
    id is drawn again gets nothing any more. *)
Example chat_id_clash :
  chat_sends [7; 7; 9] [Connect "a"; Connect "b"; Connect "c"] =
  Some [("a", "Someone joined"); ("b", "Someone joined")]%string.
Proof. vm_compute. reflexivity. Qed.

(** The id 0 can be drawn but stands for nobody: its session is not told who joins. *)
Example chat_zero_skipped : chat_sends [0; 9] [Connect "a"; Connect "b"] = Some [].
Proof. vm_compute. reflexivity. Qed.

Lemma chat_refines_witness :
  ∃ s out h' out', does (fun w => w.2.1) (chat_handle log_send draw (Connect "a"%string))
      (chat_world [7]) (Some 7) s out ∧
    spec ∅ (Connect "a"%string) (Some 7) h' out' ∧ represents s h' ∧ out ≡ₚ out'.
Proof.
  destruct (chat_refines log_send draw (fun w : ChatWorld => w.2.1)) with (w := chat_world [7])
    (h := ∅ : gmap Z (string * option string)) (m := Connect "a"%string) as (r & s & out & Hd & Hs).
  { done. } { intros m a w. by eexists _, _. } { intros w. by eexists _, _, _. }
  { apply chat_default_represents. } { done. }
  assert (r = Some 7) as ->.
  { destruct Hd as (w' & n & Hw & _). by vm_compute in Hw; injection Hw. }
  destruct Hs as (h' & out' & Hs); [intros id _; apply lookup_empty |]. by exists s, out, h', out'.
Defined.
End runs.
