(* ===== verification/ChatSession.v ===== *)
(** * A session of the chat example: [src/examples/chat/src/session.rs]

    [ChatSession] stands between one peer and the chat server: it turns the
    peer's requests into messages to the server and the server's messages into
    responses.  What it does outside itself is a parameter: [server_do_send] and
    [server_ask] send to the server, the second making the context wait for the
    answer; [write] writes to the peer; [ctx_stop] and [run_later] are those of
    its context; [now] reads the clock, in nanoseconds. *)

From S2P Require Import Prelude.
From S2P Require Import ContextImpl.
From S2P Require Import Codec.
From S2P Require Import Chat.

(** The fields [id], [hb] and [room]; those of the addresses are outside. *)
Record ChatSession : Type := mkSession {
  session_id : Z;
  session_hb : Z;
  session_room : string
}.

(** What a session asks the server: [Connect] with its own address, [ListRooms]. *)
Inductive Question : Type := AskConnect | AskRooms.

#[export] Instance question_eq_dec : EqDecision Question.
Proof. solve_decision. Defined.

Definition second : Z := 1000000000.

(** [ChatSession::new]. *)
Definition session_new (now : Z) : ChatSession := mkSession 0 now "Main".

Section session.
Context {W Task Addr : Type} `{!Cell W ChatSession}.
Abbreviation P := (Prog W Task).
Context (server_do_send : ChatMessage (Addr := Addr) → P ()) (server_ask : Question → P ())
        (write : ChatResponse → P ()) (ctx_stop : P ()) (run_later : Z → P ()) (now : P Z).

(** [hb]: ask for a tick in a second. *)
Definition hb : P () := run_later second.

(** [Instant::duration_since]. *)
Definition duration_since (later earlier : Z) : Exec Z :=
  if later <? earlier then Panic "supplied instant is later than self" else Return (later - earlier).

(** The closure that [hb] passes to [run_later]. *)
Definition hb_tick : P () :=
  t ← now;
  s ← cell_read;
  d ← lift (duration_since t (session_hb s));
  _ ← (if 10 * second <? d then
         _ ← server_do_send (Disconnect (session_id s));
         ctx_stop
       else mret ());
  _ ← write Ping;
  hb.

(** [started] and the closures of the two [then]s, run when the answer is there. *)
Definition session_started : P () := _ ← hb; server_ask AskConnect.
Definition session_connected {E} (res : Result Z E) : P () :=
  match res with
  | Ok id => cell_update (fun s => mkSession id (session_hb s) (session_room s))
  | Err _ => ctx_stop
  end.
Definition session_listed {E} (res : Result (list string) E) : P () :=
  match res with
  | Ok rooms => write (Rooms rooms)
  | Err _ => mret ()
  end.

Definition session_stopping : P Running :=
  s ← cell_read;
  _ ← server_do_send (Disconnect (session_id s));
  mret Stop.

(** [StreamHandler::handle]: what the peer sent. *)
Definition session_request (msg : ChatRequest) : P () :=
  match msg with
  | List => server_ask AskRooms
  | Codec.Join name =>
      _ ← cell_update (fun s => mkSession (session_id s) (session_hb s) name);
      s ← cell_read;
      _ ← server_do_send (Join (session_id s) name);
      write (Joined name)
  | RequestMessage message =>
      s ← cell_read;
      server_do_send (Message (session_id s) message (session_room s))
  | RequestPing =>
      t ← now;
      cell_update (fun s => mkSession (session_id s) t (session_room s))
  end.

(** [Handler<Message>::handle]: what the server sent. *)
Definition session_message (msg : string) : P () := write (ResponseMessage msg).
End session.

(** ** A session on its own *)

(** What a handler did outside the session. *)
Record Effects : Type := mkEffects {
  eff_sent : list (ChatMessage (Addr := nat));
  eff_asked : option Question;
  eff_written : list ChatResponse;
  eff_stop : bool;
  eff_timer : list Z
}.
Definition no_effects : Effects := mkEffects [] None [] false [].

Abbreviation Solo := (ChatSession * Effects)%type.
#[export] Program Instance solo_cell : Cell Solo ChatSession := {|
  cell_get := fst; cell_set s w := (s, w.2)
|}.
Next Obligation. done. Qed.
Next Obligation. done. Qed.
Next Obligation. by intros []. Qed.

Definition on_effects (f : Effects → Effects) : Prog Solo () () := modify (fun w => (w.1, f w.2)).
Definition solo_send (m : ChatMessage (Addr := nat)) : Prog Solo () () :=
  on_effects (fun e => mkEffects (eff_sent e ++ [m]) (eff_asked e) (eff_written e) (eff_stop e) (eff_timer e)).
Definition solo_ask (q : Question) : Prog Solo () () :=
  on_effects (fun e => mkEffects (eff_sent e) (Some q) (eff_written e) (eff_stop e) (eff_timer e)).
Definition solo_write (r : ChatResponse) : Prog Solo () () :=
  on_effects (fun e => mkEffects (eff_sent e) (eff_asked e) (eff_written e ++ [r]) (eff_stop e) (eff_timer e)).
Definition solo_stop : Prog Solo () () :=
  on_effects (fun e => mkEffects (eff_sent e) (eff_asked e) (eff_written e) true (eff_timer e)).
Definition solo_later (d : Z) : Prog Solo () () :=
  on_effects (fun e => mkEffects (eff_sent e) (eff_asked e) (eff_written e) (eff_stop e) (eff_timer e ++ [d])).

Definition solo_started : Prog Solo () () := session_started solo_ask solo_later.
Definition solo_tick (t : Z) : Prog Solo () () :=
  hb_tick solo_send solo_write solo_stop solo_later (mret t).
Definition solo_connected (id : Z) : Prog Solo () () :=
  session_connected solo_stop (Ok id : Result Z ()).
Definition solo_listed (rooms : list string) : Prog Solo () () :=
  session_listed solo_write (Ok rooms : Result (list string) ()).
Definition solo_stopping : Prog Solo () Running := session_stopping solo_send.
Definition solo_request (t : Z) (r : ChatRequest) : Prog Solo () () :=
  session_request solo_send solo_ask solo_write (mret t) r.
Definition solo_message (m : string) : Prog Solo () () := session_message solo_write m.

(** A tick more than ten seconds after the peer's last [Ping] says goodbye and
    stops the session; but it still writes to the peer and asks for another
    tick, and [stopping] says goodbye again. *)
Lemma hb_timeout s t :
  session_hb s + 10 * second < t →
  (_ ← solo_tick t; solo_stopping) (s, no_effects) =
    Return (Stop, (s, mkEffects [Disconnect (session_id s); Disconnect (session_id s)] None [Ping]
                        true [second]), []).
Proof.
  intros Ht. unfold solo_tick, solo_stopping, hb_tick, session_stopping, cell_read, gets, lift, mbind, prog_bind.
  simpl. unfold duration_since. destruct (Z.ltb_spec t (session_hb s)); [unfold second in Ht; lia |].
  simpl. destruct (Z.ltb_spec (10 * second) (t - session_hb s)); [done | lia].
Qed.

(** A tick in time only writes a [Ping]. *)
Lemma hb_in_time s t :
  session_hb s ≤ t ≤ session_hb s + 10 * second →
  solo_tick t (s, no_effects) = Return ((), (s, mkEffects [] None [Ping] false [second]), []).
Proof.
  intros Ht. unfold solo_tick, hb_tick, cell_read, gets, lift, mbind, prog_bind.
  simpl. unfold duration_since. destruct (Z.ltb_spec t (session_hb s)); [lia |].
  simpl. destruct (Z.ltb_spec (10 * second) (t - session_hb s)); [lia | done].
Qed.
