(* ===== verification/ChatNet.v ===== *)
(** * The chat: the server and its sessions together

    [ChatServer] of [Chat] and the sessions of [ChatSession] exchange messages: a
    session sends to the server's mailbox, which is a queue; the server answers
    questions and sends to the inboxes of sessions.  A step lets one actor run
    one of its handlers; the peers, the clock and the random generator do
    anything, except that an id is not drawn twice.  [chat_rooms_agree]: the
    room a session speaks in, by its own account, is the room in which the
    server has it when it takes the message. *)

From S2P Require Import Prelude.
From S2P Require Import Codec.
From S2P Require Import Chat.
From S2P Require Import ChatSession.

(** ** The network *)

(** What the server is sent; the sessions are named by numbers. *)
Inductive ToServer : Type :=
| SChat (m : ChatMessage (Addr := nat))
| SRooms (asker : nat).

(** A session that asked something waits for the answer and does nothing else;
    [Leaving]: [stop] was called; [Gone]: [stopping] was called. *)
Inductive Status : Type :=
| Live
| AskingConnect (answer : option Z)
| AskingRooms (answer : option (list string))
| Leaving
| Gone.

Record Peer : Type := mkPeer {
  peer_session : ChatSession;
  peer_status : Status;
  peer_inbox : list string;
  peer_written : list ChatResponse
}.
Definition set_status (st : Status) (p : Peer) : Peer :=
  mkPeer (peer_session p) st (peer_inbox p) (peer_written p).
Definition set_inbox (l : list string) (p : Peer) : Peer :=
  mkPeer (peer_session p) (peer_status p) l (peer_written p).

(** [net_used]: the ids drawn so far. *)
Record Net : Type := mkNet {
  net_server : ChatServer (Addr := nat);
  net_peers : gmap nat Peer;
  net_queue : list ToServer;
  net_used : gset Z
}.
Definition net_init : Net := mkNet chat_default ∅ [] ∅.

(** *** The turns of a session *)

Inductive turn : Peer → Peer → Prog Solo () () → Prop :=
| turn_connected p id :
    peer_status p = AskingConnect (Some id) → turn p (set_status Live p) (solo_connected id)
| turn_listed p rooms :
    peer_status p = AskingRooms (Some rooms) → turn p (set_status Live p) (solo_listed rooms)
| turn_request p t r : peer_status p = Live → turn p p (solo_request t r)
| turn_message p m l :
    peer_status p = Live → peer_inbox p = m :: l → turn p (set_inbox l p) (solo_message m)
| turn_tick p t : peer_status p = Live → turn p p (solo_tick t)
| turn_closed p : peer_status p = Live → turn p (set_status Leaving p) (mret ())
| turn_stopping p :
    peer_status p = Leaving → turn p (set_status Gone p) (_ ← solo_stopping; mret ()).

Definition status_after (e : Effects) (st : Status) : Status :=
  if eff_stop e then Leaving
  else match eff_asked e with
       | Some AskConnect => AskingConnect None
       | Some AskRooms => AskingRooms None
       | None => st
       end.
Definition to_server (k : nat) (e : Effects) : list ToServer :=
  (SChat <$> eff_sent e) ++
  match eff_asked e with
  | Some AskConnect => [SChat (Connect k)]
  | Some AskRooms => [SRooms k]
  | None => []
  end.
Definition peer_after (p : Peer) (s : ChatSession) (e : Effects) : Peer :=
  mkPeer s (status_after e (peer_status p)) (peer_inbox p) (peer_written p ++ eff_written e).
Definition after_turn (k : nat) (p : Peer) (s : ChatSession) (e : Effects) (N : Net) : Net :=
  mkNet (net_server N) (<[k := peer_after p s e]> (net_peers N)) (net_queue N ++ to_server k e)
    (net_used N).

(** *** The turns of the server *)

(** Its state while a handler runs: what it sent, and the next random number. *)
Definition Serving : Type := ChatServer (Addr := nat) * (list (nat * string) * Z).
#[export] Program Instance serving_cell : Cell Serving (ChatServer (Addr := nat)) := {|
  cell_get := fst; cell_set s w := (s, w.2)
|}.
Next Obligation. done. Qed.
Next Obligation. done. Qed.
Next Obligation. by intros []. Qed.
Definition serve_send (m : string) (a : nat) : Prog Serving () () := fun w =>
  Return ((), (w.1, (w.2.1 ++ [(a, m)], w.2.2)), []).
Definition serve_draw : Prog Serving () Z := fun w => Return (w.2.2, w, []).
Definition serve (m : ChatMessage (Addr := nat)) : Prog Serving () (option Z) :=
  chat_handle serve_send serve_draw m.
Definition sent (w : Serving) : list (nat * string) := w.2.1.

Definition deliver (out : list (nat * string)) (peers : gmap nat Peer) : gmap nat Peer :=
  foldl (fun m x => alter (fun p => set_inbox (peer_inbox p ++ [x.2]) p) x.1 m) peers out.
Definition answer (m : ChatMessage (Addr := nat)) (r : option Z) (peers : gmap nat Peer) : gmap nat Peer :=
  match m with
  | Connect k => alter (set_status (AskingConnect r)) k peers
  | _ => peers
  end.

(** ** The steps *)

Inductive net_step (N : Net) : Net → Prop :=
| step_new k t s e n :
    net_peers N !! k = None →
    solo_started (session_new t, no_effects) = Return ((), (s, e), n) →
    net_step N (after_turn k (mkPeer (session_new t) Live [] []) s e N)
| step_turn k p p0 m s e n :
    net_peers N !! k = Some p → turn p p0 m →
    m (peer_session p0, no_effects) = Return ((), (s, e), n) →
    net_step N (after_turn k p0 s e N)
| step_serve m q id r s out n :
    net_queue N = SChat m :: q →
    serve m (net_server N, ([], id)) = Return (r, (s, (out, id)), n) →
    (∀ i, r = Some i → i ∉ net_used N) →
    net_step N (mkNet s (answer m r (deliver out (net_peers N))) q
                  (list_to_set (option_list r) ∪ net_used N))
| step_rooms k q id rooms w n :
    net_queue N = SRooms k :: q →
    (list_rooms_handle : Prog Serving () _) (net_server N, ([], id)) = Return (rooms, w, n) →
    net_step N (mkNet (net_server N) (alter (set_status (AskingRooms (Some rooms))) k (net_peers N)) q
                  (net_used N)).

(** ** What the mailbox of the server will do to the rooms *)

Section rooms.
Abbreviation Hall := (gmap Z (nat * option string)).
Implicit Types (h : Hall) (q : list ToServer) (f : Z → option string).

(** The room of the session [id] after the server took [m]. *)
Definition move (m : ToServer) (id : Z) (r : option string) : option string :=
  match m with
  | SChat (Join i name) => if decide (i = id) then (fun _ => name) <$> r else r
  | SChat (Disconnect i) => if decide (i = id) then None else r
  | _ => r
  end.
Definition room_after q (id : Z) (r : option string) : option string :=
  foldl (fun r m => move m id r) r q.

(** The id a message speaks for, and what it says about its room. *)
Definition speaker (m : ToServer) : option Z :=
  match m with
  | SChat (Disconnect i) | SChat (Message i _ _) | SChat (Join i _) => Some i
  | _ => None
  end.
Definition truthful (m : ToServer) f : Prop :=
  match m with
  | SChat (Message i _ room) => f i = Some room
  | SChat (Join i _) => is_Some (f i)
  | _ => True
  end.
Fixpoint all_truthful q f : Prop :=
  match q with
  | [] => True
  | m :: q => truthful m f ∧ all_truthful q (fun id => move m id (f id))
  end.

Lemma room_after_app q1 q2 id r : room_after (q1 ++ q2) id r = room_after q2 id (room_after q1 id r).
Proof. apply foldl_app. Qed.

Lemma move_other m id r : speaker m ≠ Some id → move m id r = r.
Proof. destruct m as [[]|]; simpl; intros Hs; try done; by rewrite decide_False by congruence. Qed.

Lemma room_after_other q id r : (∀ m, m ∈ q → speaker m ≠ Some id) → room_after q id r = r.
Proof.
  revert r. induction q as [|m q IH]; intros r Hq; [done |]. cbn [room_after foldl].
  rewrite move_other by (apply Hq; by left). apply IH. intros m' Hm. apply Hq. by right.
Qed.

Lemma move_none m id : move m id None = None.
Proof. by destruct m as [[]|]; simpl; try case_decide. Qed.

Lemma room_after_none q id : room_after q id None = None.
Proof. induction q as [|m q IH]; [done |]. cbn [room_after foldl]. by rewrite move_none. Qed.

Lemma truthful_ext m f g :
  (∀ id, speaker m = Some id → f id = g id) → truthful m f → truthful m g.
Proof. destruct m as [[]|]; simpl; intros He; try done; by rewrite He. Qed.

Lemma all_truthful_ext q f g :
  (∀ m id, m ∈ q → speaker m = Some id → f id = g id) → all_truthful q f → all_truthful q g.
Proof.
  revert f g. induction q as [|m q IH]; intros f g He; [done |]. cbn [all_truthful].
  intros [Hm Hq]. split.
  - eapply truthful_ext; [| done]. intros id Hs. eapply He; [by left | done].
  - eapply IH; [| done]. intros m' id Hm' Hs. simpl. f_equal. eapply He; [by right | done].
Qed.

Lemma all_truthful_app q1 q2 f :
  all_truthful (q1 ++ q2) f ↔ all_truthful q1 f ∧ all_truthful q2 (fun id => room_after q1 id (f id)).
Proof.
  revert f. induction q1 as [|m q1 IH]; intros f; simpl; [tauto |]. rewrite IH. simpl. tauto.
Qed.

(** What a session [id] in the room [r] sends, ending up in the room [r']. *)
Definition says (id : Z) (r : option string) (q : list ToServer) (r' : option string) : Prop :=
  (∀ m i, m ∈ q → speaker m = Some i → i = id) ∧ room_after q id r = r' ∧
  ∀ f, f id = r → all_truthful q f.

(** ** The invariant *)

(** The id the server gave to a session, once it did; and while it may speak. *)
Definition peer_id (p : Peer) : option Z :=
  match peer_status p with AskingConnect a => a | _ => Some (session_id (peer_session p)) end.
Definition present (p : Peer) : option Z :=
  match peer_status p with
  | Live | AskingRooms _ => Some (session_id (peer_session p))
  | AskingConnect a => a
  | Leaving | Gone => None
  end.

Definition asker (m : ToServer) : option nat :=
  match m with SChat (Connect k) | SRooms k => Some k | _ => None end.
Definition awaits (m : ToServer) (st : Status) : Prop :=
  match m with
  | SChat (Connect _) => st = AskingConnect None
  | SRooms _ => st = AskingRooms None
  | _ => True
  end.

Record good (N : Net) h : Prop := mkGood {
  g_rep : represents (net_server N) h;
  g_hall_used id : is_Some (h !! id) → id ∈ net_used N;
  g_queue_used m id : m ∈ net_queue N → speaker m = Some id → id ∈ net_used N;
  g_peer_used k p id : net_peers N !! k = Some p → peer_id p = Some id → id ∈ net_used N;
  g_distinct k1 k2 p1 p2 id :
    net_peers N !! k1 = Some p1 → net_peers N !! k2 = Some p2 →
    peer_id p1 = Some id → peer_id p2 = Some id → k1 = k2;
  g_addr k p id x : net_peers N !! k = Some p → peer_id p = Some id → h !! id = Some x → x.1 = k;
  g_room k p id :
    net_peers N !! k = Some p → present p = Some id →
    room_after (net_queue N) id (room_of h id) = Some (session_room (peer_session p));
  g_new k p a :
    net_peers N !! k = Some p → peer_status p = AskingConnect a →
    session_room (peer_session p) = "Main"%string;
  g_truthful : all_truthful (net_queue N) (room_of h);
  g_once : NoDup (omap asker (net_queue N));
  g_awaits m k : m ∈ net_queue N → asker m = Some k →
    ∃ p, net_peers N !! k = Some p ∧ awaits m (peer_status p)
}.

Lemma good_init : good net_init ∅.
Proof.
  split; simpl; try done; try (by intros * Hm%elem_of_nil); try (by constructor).
  - apply chat_default_represents.
  - intros id [x Hx]. by rewrite lookup_empty in Hx.
Qed.
(** ** The turns of a session keep it *)

Definition resting (st : Status) : Prop := st ≠ AskingConnect None ∧ st ≠ AskingRooms None.

Lemma resting_asks_nothing N h k p m :
  good N h → net_peers N !! k = Some p → resting (peer_status p) →
  m ∈ net_queue N → asker m ≠ Some k.
Proof.
  intros G Hk [Hc Hr] Hm Ha. destruct (g_awaits _ _ G m k Hm Ha) as (p' & Hp' & Hst).
  rewrite Hk in Hp'. injection Hp' as <-. by destruct m as [[]|]; simpl in *; simplify_eq.
Qed.

(** A session [id] that was not waiting sends [q] and becomes [p']. *)
Record speaks (id : Z) (r : option string) (k : nat) (p' : Peer) (q : list ToServer) : Prop := mkSpeaks {
  sp_id : peer_id p' = Some id;
  sp_says : ∃ r', says id r q r' ∧
    ∀ i, present p' = Some i → r' = Some (session_room (peer_session p'));
  sp_new a : peer_status p' ≠ AskingConnect a;
  sp_once : NoDup (omap asker q);
  sp_asks m k' : m ∈ q → asker m = Some k' → k' = k ∧ awaits m (peer_status p')
}.

Lemma present_id p id : present p = Some id → peer_id p = Some id.
Proof. unfold present, peer_id. by destruct (peer_status p). Qed.

Lemma good_turn N h k p p' q id :
  good N h → net_peers N !! k = Some p → resting (peer_status p) → peer_id p = Some id →
  speaks id (room_after (net_queue N) id (room_of h id)) k p' q →
  good (mkNet (net_server N) (<[k := p']> (net_peers N)) (net_queue N ++ q) (net_used N)) h.
Proof.
  intros G Hk Hrest Hid [Hid' (r' & (Hsp & Hr & Ht) & Hp') Hnew Hnd Hq].
  assert (∀ k' p1 i, <[k := p']> (net_peers N) !! k' = Some p1 → peer_id p1 = Some i →
    ∃ p0, net_peers N !! k' = Some p0 ∧ peer_id p0 = Some i) as Hback.
  { intros k' p1 i [[<- <-]|[Hne H1]]%lookup_insert_Some Hi; [| by exists p1].
    exists p. split; [done |]. congruence. }
  pose proof G as [G1 G2 G3 G4 G5 G6 G7 G8 G9 G10 G11].
  split; simpl; [exact G1 | exact G2 | ..].
  - intros m i [Hm|Hm]%elem_of_app Hs; [by eapply G3 |]. rewrite (Hsp _ _ Hm Hs). by eapply G4.
  - intros k' p1 i H1 Hi. destruct (Hback _ _ _ H1 Hi) as (p0 & H0 & Hi0). by eapply G4.
  - intros k1 k2 p1 p2 i H1 H2 Hi1 Hi2. destruct (Hback _ _ _ H1 Hi1) as (? & ? & ?).
    destruct (Hback _ _ _ H2 Hi2) as (? & ? & ?). by eapply G5.
  - intros k' p1 i x H1 Hi. destruct (Hback _ _ _ H1 Hi) as (? & ? & ?). by eapply G6.
  - intros k' p1 i H1 Hi. rewrite room_after_app.
    apply lookup_insert_Some in H1 as [[<- <-]|[Hne H1]].
    + pose proof (present_id _ _ Hi) as Hi'. rewrite Hid' in Hi'. injection Hi' as <-.
      rewrite Hr. by eapply Hp'.
    + rewrite (G7 k' p1 i H1 Hi). apply room_after_other. intros m Hm Hs.
      apply Hne. rewrite (Hsp _ _ Hm Hs) in Hi. by eapply G5; [.. | apply present_id].
  - intros k' p1 a [[<- <-]|[Hne H1]]%lookup_insert_Some Ha; [by destruct (Hnew a) | by eapply G8].
  - apply all_truthful_app. split; [exact G9 | by apply Ht].
  - rewrite omap_app. apply NoDup_app. split_and!; [exact G10 | | done].
    intros k' (m & Hm & Ha)%list_elem_of_omap (m' & Hm' & Ha')%list_elem_of_omap.
    destruct (Hq _ _ Hm' Ha') as [-> _]. by eapply resting_asks_nothing.
  - intros m k' [Hm|Hm]%elem_of_app Ha.
    + destruct (G11 m k' Hm Ha) as (p1 & H1 & Hst). exists p1. split; [| done].
      rewrite lookup_insert_ne; [done |]. intros <-.
      exact (resting_asks_nothing _ _ _ _ _ G Hk Hrest Hm Ha).
    + destruct (Hq _ _ Hm Ha) as [-> Hst]. exists p'. by rewrite lookup_insert_eq.
Qed.
Lemma says_nothing id r : says id r [] r.
Proof. split_and!; [by intros m i Hm%elem_of_nil | done | done]. Qed.

Lemma says_one id r m :
  speaker m = Some id ∨ speaker m = None → (∀ f, f id = r → truthful m f) →
  says id r [m] (move m id r).
Proof.
  intros Hs Ht. split_and!; [| done | by intros f Hf; split; [apply Ht |]].
  intros m' i ->%list_elem_of_singleton Hm. destruct Hs as [Hs|Hs]; congruence.
Qed.

Lemma says_twice id r m1 m2 r1 :
  says id r [m1] r1 → says id r1 [m2] (move m2 id r1) → says id r [m1; m2] (move m2 id r1).
Proof.
  intros (H1 & <- & Ht1) (H2 & _ & Ht2). split_and!; [| done |].
  - intros m i [->|Hm]%elem_of_cons Hs; [by eapply H1; [left |] | by eapply H2].
  - intros f Hf. destruct (Ht1 f Hf) as [? _]. split; [done |]. apply Ht2. simpl. by rewrite Hf.
Qed.

Lemma says_goodbye id r : says id r [SChat (Disconnect id)] None.
Proof.
  assert (None = move (SChat (Disconnect id)) id r) as Hn by (simpl; by rewrite decide_True).
  rewrite Hn at 1. apply says_one; [by left | done].
Qed.

Lemma speaks_quiet id r k p' :
  peer_id p' = Some id → (∀ a, peer_status p' ≠ AskingConnect a) →
  (∀ i, present p' = Some i → r = Some (session_room (peer_session p'))) → speaks id r k p' [].
Proof.
  intros Hid Hn Hr. split; [done | exists r; split; [apply says_nothing | done] | done | constructor |].
  by intros m k' Hm%elem_of_nil.
Qed.

Lemma speaks_chat id r k p' q r' :
  peer_id p' = Some id → (∀ a, peer_status p' ≠ AskingConnect a) → says id r q r' →
  (∀ i, present p' = Some i → r' = Some (session_room (peer_session p'))) →
  omap asker q = [] → speaks id r k p' q.
Proof.
  intros Hid Hn Hs Hr Hq. split; [done | by exists r' | done | rewrite Hq; constructor |].
  intros m k' Hm Ha. assert (k' ∈ omap asker q) as Hk by (apply list_elem_of_omap; by exists m).
  rewrite Hq in Hk. by apply elem_of_nil in Hk.
Qed.

(** Each turn of a live session, in the room [room]. *)
Lemma request_speaks k p t r s e n :
  peer_status p = Live → solo_request t r (peer_session p, no_effects) = Return ((), (s, e), n) →
  speaks (session_id (peer_session p)) (Some (session_room (peer_session p))) k (peer_after p s e)
    (to_server k e).
Proof.
  intros Hl Hr. destruct p as [[id hb room] st inbox out]; simpl in *; subst st.
  destruct r as [|name|msg|]; injection Hr as <- <- <-; unfold to_server; simpl.
  - split; [done | | done | apply NoDup_singleton |].
    + exists (Some room). split; [apply says_one; [by right | done] | done].
    + intros m k' ->%list_elem_of_singleton [= <-]. done.
  - eapply speaks_chat; [done | done | apply says_one; [by left |] | | done].
    + intros f Hf. simpl. rewrite Hf. by eexists.
    + intros i [= <-]. simpl. by rewrite decide_True.
  - eapply speaks_chat; [done | done | apply says_one; [by left | done] | | done]. done.
  - apply speaks_quiet; done.
Qed.

Lemma tick_speaks k p t s e n :
  peer_status p = Live → solo_tick t (peer_session p, no_effects) = Return ((), (s, e), n) →
  speaks (session_id (peer_session p)) (Some (session_room (peer_session p))) k (peer_after p s e)
    (to_server k e).
Proof.
  intros Hl Hr. destruct p as [[id hb room] st inbox out]; simpl in *; subst st.
  unfold solo_tick, hb_tick, cell_read, gets, lift, mbind, prog_bind, duration_since in Hr. simpl in Hr.
  destruct (t <? hb); [done |]. simpl in Hr.
  destruct (_ <? _); injection Hr as <- <- <-; unfold to_server; simpl.
  - eapply speaks_chat; [done | done | apply says_goodbye | done | done].
  - by apply speaks_quiet.
Qed.

Lemma turn_good N h k p p0 m s e n :
  good N h → net_peers N !! k = Some p → turn p p0 m →
  m (peer_session p0, no_effects) = Return ((), (s, e), n) →
  good (after_turn k p0 s e N) h.
Proof.
  intros G Hk Ht Hr.
  assert (∀ id, present p = Some id → room_after (net_queue N) id (room_of h id) =
    Some (session_room (peer_session p))) as Hroom by (intros id; by apply (g_room _ _ G k)).
  assert (∀ id, resting (peer_status p) → peer_id p = Some id →
    speaks id (room_after (net_queue N) id (room_of h id)) k (peer_after p0 s e) (to_server k e) →
    good (after_turn k p0 s e N) h) as Hgo
    by (intros id ???; unfold after_turn; by apply (good_turn N h k p _ _ id)).
  destruct Ht as [p id Hst|p rooms Hst|p t r Hst|p m l Hst Hin|p t Hst|p Hst|p Hst];
    destruct p as [ses st inbox out]; simpl in Hst; subst st.
  - injection Hr as <- <- <-. apply (Hgo id); [done | done |].
    apply speaks_quiet; [done | done |]. intros i _. by apply Hroom.
  - injection Hr as <- <- <-. apply (Hgo (session_id ses)); [done | done |].
    apply speaks_quiet; [done | done |]. intros i _. by apply Hroom.
  - apply (Hgo (session_id ses)); [done | done |]. rewrite Hroom by done. exact (request_speaks k (mkPeer ses Live inbox out) t r s e n eq_refl Hr).
  - injection Hr as <- <- <-. apply (Hgo (session_id ses)); [done | done |].
    apply speaks_quiet; [done | done |]. intros i _. by apply Hroom.
  - apply (Hgo (session_id ses)); [done | done |]. rewrite Hroom by done. exact (tick_speaks k (mkPeer ses Live inbox out) t s e n eq_refl Hr).
  - injection Hr as <- <- <-. apply (Hgo (session_id ses)); [done | done |]. by apply speaks_quiet.
  - injection Hr as <- <- <-. apply (Hgo (session_id ses)); [done | done |].
    eapply speaks_chat; [done | done | apply says_goodbye | done | done].
Qed.

Lemma new_good N h k t s e n :
  good N h → net_peers N !! k = None →
  solo_started (session_new t, no_effects) = Return ((), (s, e), n) →
  good (after_turn k (mkPeer (session_new t) Live [] []) s e N) h.
Proof.
  intros G Hk Hr. injection Hr as <- <- <-. pose proof G as [G1 G2 G3 G4 G5 G6 G7 G8 G9 G10 G11].
  assert (∀ m, m ∈ net_queue N → asker m ≠ Some k) as Hnone.
  { intros m Hm Ha. destruct (G11 m k Hm Ha) as (p & Hp & _). by rewrite Hk in Hp. }
  unfold after_turn, to_server, peer_after. simpl.
  split; simpl; [exact G1 | exact G2 | ..].
  - intros m i [Hm|Hm]%elem_of_app Hs; [by eapply G3 |].
    apply list_elem_of_singleton in Hm as ->. done.
  - intros k' p1 i [[<- <-]|[Hne H1]]%lookup_insert_Some Hi; [done | by eapply G4].
  - intros k1 k2 p1 p2 i [[<- <-]|[Hne H1]]%lookup_insert_Some
      [[<- <-]|[Hne' H2]]%lookup_insert_Some Hi1 Hi2; try done. by eapply G5.
  - intros k' p1 i x [[<- <-]|[Hne H1]]%lookup_insert_Some Hi; [done | by eapply G6].
  - intros k' p1 i [[<- <-]|[Hne H1]]%lookup_insert_Some Hi; [done |].
    rewrite room_after_app. simpl. by apply (G7 k').
  - intros k' p1 a [[<- <-]|[Hne H1]]%lookup_insert_Some Ha; [done | by eapply G8].
  - apply all_truthful_app. by split.
  - rewrite omap_app. apply NoDup_app. split_and!; [exact G10 | | apply NoDup_singleton].
    intros k' (m & Hm & Ha)%list_elem_of_omap ->%list_elem_of_singleton. by apply (Hnone m).
  - intros m k' [Hm|Hm]%elem_of_app Ha.
    + destruct (G11 m k' Hm Ha) as (p1 & H1 & Hst). exists p1. split; [| done].
      rewrite lookup_insert_ne; [done |]. intros <-. by apply (Hnone m).
    + apply list_elem_of_singleton in Hm as ->. injection Ha as <-. eexists.
      rewrite lookup_insert_eq. by split.
Qed.
(** ** The turns of the server keep it *)

Lemma deliver_lookup out peers k :
  ∃ l, deliver out peers !! k = (fun p => set_inbox (peer_inbox p ++ l) p) <$> peers !! k.
Proof.
  revert peers. induction out as [|[a msg] out IH]; intros peers.
  - exists []. simpl. destruct (peers !! k) as [[]|]; simpl; [| done]. unfold set_inbox. simpl.
    by rewrite app_nil_r.
  - simpl. destruct (IH (alter (fun p => set_inbox (peer_inbox p ++ [msg]) p) a peers)) as (l & ->).
    destruct (decide (a = k)) as [->|Hne].
    + rewrite lookup_alter_eq. exists (msg :: l). destruct (peers !! k) as [[]|]; simpl; [| done].
      unfold set_inbox. simpl. by rewrite <- app_assoc.
    + rewrite lookup_alter_ne by done. by exists l.
Qed.

(** Peers that differ in nothing the invariant speaks about. *)
Definition alike (p p' : Peer) : Prop :=
  peer_session p' = peer_session p ∧ peer_id p' = peer_id p ∧ present p' = present p ∧
  ∀ a, peer_status p' = AskingConnect a → peer_status p = AskingConnect a.

Lemma good_served N h m q S h' peers' :
  good N h → net_queue N = m :: q → represents S h' →
  (∀ id, room_of h' id = move m id (room_of h id)) →
  (∀ id x, h' !! id = Some x → ∃ x0, h !! id = Some x0 ∧ x.1 = x0.1) →
  (∀ k p', peers' !! k = Some p' → ∃ p, net_peers N !! k = Some p ∧ alike p p') →
  (∀ k p, asker m ≠ Some k → net_peers N !! k = Some p →
    ∃ p', peers' !! k = Some p' ∧ peer_status p' = peer_status p) →
  good (mkNet S peers' q (net_used N)) h'.
Proof.
  intros [G1 G2 G3 G4 G5 G6 G7 G8 G9 G10 G11] Hq HS Hroom Hh Hback Hforth.
  rewrite Hq in *. split; simpl; [done | ..].
  - intros id [x Hx]. destruct (Hh _ _ Hx) as (x0 & Hx0 & _). apply G2. by eexists.
  - intros m' id Hm. apply G3. by right.
  - intros k p' id Hp Hid. destruct (Hback _ _ Hp) as (p & Hk & _ & Hi & _). apply (G4 k p id Hk). congruence.
  - intros k1 k2 p1 p2 id H1 H2 Hi1 Hi2. destruct (Hback _ _ H1) as (p1' & Hk1 & _ & Hj1 & _).
    destruct (Hback _ _ H2) as (p2' & Hk2 & _ & Hj2 & _). apply (G5 k1 k2 p1' p2' id Hk1 Hk2); congruence.
  - intros k p' id x Hp Hid Hx. destruct (Hback _ _ Hp) as (p & Hk & _ & Hi & _).
    destruct (Hh _ _ Hx) as (x0 & Hx0 & ->). apply (G6 k p id x0 Hk); congruence.
  - intros k p' id Hp Hid. destruct (Hback _ _ Hp) as (p & Hk & Hs & _ & Hi & _).
    rewrite Hs, Hroom, <- (G7 k p id Hk) by congruence. done.
  - intros k p' a Hp Ha. destruct (Hback _ _ Hp) as (p & Hk & Hs & _ & _ & Hst). rewrite Hs.
    by eapply G8; [| apply Hst].
  - destruct G9 as [_ G9]. eapply all_truthful_ext; [| exact G9]. intros. simpl. by rewrite Hroom.
  - simpl in G10. destruct (asker m); [by apply NoDup_cons in G10 as [_ ?] | done].
  - intros m' k Hm Ha. destruct (G11 m' k) as (p & Hp & Hst); [by right | done |].
    destruct (Hforth k p) as (p' & Hp' & Hst'); [| done | exists p'; by rewrite Hst'].
    intros Hm'. simpl in G10. rewrite Hm' in G10. apply NoDup_cons in G10 as [Hn _]. apply Hn.
    apply list_elem_of_omap. by exists m'.
Qed.
(** What [chat_handle_spec] says here. *)
Lemma serve_spec (srv : ChatServer (Addr := nat)) id h m :
  represents srv h → (∀ i name, m = Join i name → is_Some (h !! i)) →
  ∃ r s out, does sent (serve m) (srv, ([], id)) r s out ∧
    ((∀ i, r = Some i → h !! i = None) →
     ∃ h' out', spec h m r h' out' ∧ represents s h' ∧ out ≡ₚ out').
Proof.
  intros H Hj. apply (chat_handle_spec serve_send serve_draw sent); [done | | | done | done].
  - intros msg a w. by eexists _, _.
  - intros w. by eexists _, _, _.
Qed.

Lemma spec_others h m r h' out :
  spec h m r h' out → r = None → truthful (SChat m) (room_of h) →
  (∀ id, room_of h' id = move (SChat m) id (room_of h id)) ∧
  (∀ id x, h' !! id = Some x → ∃ x0, h !! id = Some x0 ∧ x.1 = x0.1).
Proof.
  intros Hs Hr Ht. destruct Hs as [addr i Hi|i|i msg room|i name addr room Hi]; [done | | |].
  - split; simpl; intros id.
    + unfold room_of. case_decide; subst; [by rewrite lookup_delete_eq | by rewrite lookup_delete_ne].
    + intros x [_ Hx]%lookup_delete_Some. by exists x.
  - split; [done | intros id x Hx; by exists x].
  - split; simpl; intros id.
    + rewrite room_of_insert. case_decide; [| by rewrite decide_False by congruence].
      subst. simpl in Ht. destruct Ht as [r Ht]. by rewrite decide_True, Ht by done.
    + intros x [[<- <-]|[Hne Hx]]%lookup_insert_Some; [by exists (addr, room) | by exists x].
Qed.

Lemma truthful_known h m :
  truthful (SChat m) (room_of h) → ∀ i name, m = Join i name → is_Some (h !! i).
Proof.
  intros Ht i name ->. simpl in Ht. destruct Ht as [r Ht]. unfold room_of in Ht.
  destruct (h !! i); [by eexists | done].
Qed.

Lemma alike_deliver out peers k p' :
  deliver out peers !! k = Some p' → ∃ p, peers !! k = Some p ∧ alike p p' ∧ peer_status p' = peer_status p.
Proof.
  destruct (deliver_lookup out peers k) as (l & ->). intros (p & Hp & ->)%fmap_Some.
  exists p. split; [done |]. by split.
Qed.

Lemma deliver_keeps out peers k p :
  peers !! k = Some p → ∃ p', deliver out peers !! k = Some p' ∧ peer_status p' = peer_status p.
Proof. intros Hp. destruct (deliver_lookup out peers k) as (l & ->). rewrite Hp. by eexists. Qed.

(** The peers after the server answered [Connect]: the one that connected has the
    new id, the others are as they were. *)
Abbreviation after_connect id k out peers := (alter (set_status (AskingConnect (Some id))) k (deliver out peers)).

Lemma connect_back id k out peers k' p' :
  after_connect id k out peers !! k' = Some p' →
  ∃ p, peers !! k' = Some p ∧ (k' = k ∧ peer_id p' = Some id ∧ present p' = Some id ∧
      peer_session p' = peer_session p ∨ k' ≠ k ∧ alike p p' ∧ peer_status p' = peer_status p).
Proof.
  intros [[<- (p & Hp & ->)]|[Hne Hp]]%lookup_alter_Some;
    destruct (alike_deliver _ _ _ _ Hp) as (p0 & H0 & Ha); exists p0; (split; [done |]).
  - left. destruct Ha as [[Hs _] _]. by split_and!.
  - right. by split.
Qed.

Lemma connect_ids id k out peers k' p' i :
  (∀ k p i, peers !! k = Some p → peer_id p = Some i → i ≠ id) →
  after_connect id k out peers !! k' = Some p' → peer_id p' = Some i →
  k' = k ∧ i = id ∨ k' ≠ k ∧ i ≠ id ∧ ∃ p, peers !! k' = Some p ∧ peer_id p = Some i.
Proof.
  intros Hfresh Hp Hi. destruct (connect_back _ _ _ _ _ _ Hp) as (p & H0 & [(-> & Hj & _)|(Hne & (_ & Hj & _) & _)]).
  - left. split; [done | congruence].
  - right. split; [done |]. rewrite Hj in Hi. split; [by eapply Hfresh | by exists p].
Qed.

Lemma connect_good N h k q S out id :
  good N h → net_queue N = SChat (Connect k) :: q → id ∉ net_used N →
  represents S (<[id := (k, Some "Main"%string)]> h) →
  good (mkNet S (alter (set_status (AskingConnect (Some id))) k (deliver out (net_peers N))) q
          ({[id]} ∪ net_used N)) (<[id := (k, Some "Main"%string)]> h).
Proof.
  intros [G1 G2 G3 G4 G5 G6 G7 G8 G9 G10 G11] Hq Hid HS. rewrite Hq in *.
  assert (∀ k p i, net_peers N !! k = Some p → peer_id p = Some i → i ≠ id) as Hfresh.
  { intros k0 p0 i H0 Hi ->. apply Hid. by eapply G4. }
  pose proof (fun k' p' => connect_back id k out (net_peers N) k' p') as Hback.
  pose proof (fun k' p' i => connect_ids id k out (net_peers N) k' p' i Hfresh) as Hids.
  assert (∀ m i, m ∈ q → speaker m = Some i → i ≠ id) as Hsp.
  { intros m i Hm Hs ->. apply Hid. eapply G3; [by right | done]. }
  split; simpl; [done | ..].
  - intros i [x [[<- _]|[_ Hx]]%lookup_insert_Some]; [by apply elem_of_union_l, elem_of_singleton_2 |].
    apply elem_of_union_r, G2. by eexists.
  - intros m i Hm Hs. apply elem_of_union_r. eapply G3; [by right | done].
  - intros k' p' i Hp Hi. destruct (Hids _ _ _ Hp Hi) as [[_ ->]|(_ & _ & p & H0 & Hi0)];
      [by apply elem_of_union_l, elem_of_singleton_2 |].
    apply elem_of_union_r. by eapply G4.
  - intros k1 k2 p1 p2 i H1 H2 Hi1 Hi2.
    destruct (Hids _ _ _ H1 Hi1) as [[-> ->]|(_ & ? & p1' & ? & ?)];
      destruct (Hids _ _ _ H2 Hi2) as [[-> ?]|(_ & ? & p2' & ? & ?)]; try done. by eapply G5.
  - intros k' p' i x Hp Hi Hx. destruct (Hids _ _ _ Hp Hi) as [[-> ->]|(_ & ? & p & H0 & Hi0)].
    + rewrite lookup_insert_eq in Hx. by injection Hx as <-.
    + rewrite lookup_insert_ne in Hx by done. by eapply G6.
  - intros k' p' i Hp Hi. rewrite room_of_insert.
    destruct (Hback _ _ Hp) as (p & H0 & [(-> & _ & Hj & Hs)|(Hne & (Hs & _ & Hj & _) & _)]); rewrite Hs.
    + assert (i = id) as -> by congruence. rewrite decide_True by done.
      destruct (G11 (SChat (Connect k)) k) as (p1 & H1 & Hst); [by left | done |].
      rewrite H0 in H1. injection H1 as <-. rewrite (G8 _ _ _ H0 Hst).
      apply room_after_other. intros m Hm Hm'. by apply (Hsp m id).
    + rewrite Hj in Hi. rewrite decide_False; [by apply (G7 k') |]. intros ->. apply Hid.
      by eapply G4; [| apply present_id].
  - intros k' p' a Hp Ha. destruct (Hback _ _ Hp) as (p & H0 & [(-> & _ & _ & Hs)|(Hne & (Hs & _ & _ & Hst) & _)]); rewrite Hs.
    + destruct (G11 (SChat (Connect k)) k) as (p1 & H1 & Hst); [by left | done |].
      rewrite H0 in H1. injection H1 as <-. by eapply G8.
    + by eapply G8; [| apply Hst].
  - destruct G9 as [_ G9]. eapply all_truthful_ext; [| exact G9]. intros m i Hm Hs. simpl.
    rewrite room_of_insert. by rewrite decide_False by by eapply Hsp.
  - by apply NoDup_cons in G10 as [_ ?].
  - intros m k' Hm Ha. destruct (G11 m k') as (p & Hp & Hst); [by right | done |].
    assert (k' ≠ k) as Hne.
    { intros ->. simpl in G10. apply NoDup_cons in G10 as [Hn _]. apply Hn, list_elem_of_omap. by exists m. }
    destruct (deliver_keeps out _ _ _ Hp) as (p' & Hp' & Hst'). exists p'. split; [| by rewrite Hst'].
    by rewrite lookup_alter_ne.
Qed.

Lemma rooms_good N h k q rooms :
  good N h → net_queue N = SRooms k :: q →
  good (mkNet (net_server N) (alter (set_status (AskingRooms (Some rooms))) k (net_peers N)) q
          (net_used N)) h.
Proof.
  intros G Hq. apply (good_served N h (SRooms k) q); try done; [by apply G | by eexists | |].
  - intros k' p' [[<- (p & Hp & ->)]|[Hne Hp]]%lookup_alter_Some; [| by exists p'].
    exists p. split; [done |].
    destruct (g_awaits _ _ G (SRooms k) k) as (p1 & H1 & Hst); [rewrite Hq; by left | done |].
    rewrite Hp in H1. injection H1 as <-. simpl in Hst. unfold alike, peer_id, present. simpl.
    by rewrite Hst.
  - intros k' p Hne Hp. exists p. split; [| done]. rewrite lookup_alter_ne; [done |].
    intros ->. by apply Hne.
Qed.

Lemma serve_good N h m q id r S out n :
  good N h → net_queue N = SChat m :: q →
  serve m (net_server N, ([], id)) = Return (r, (S, (out, id)), n) →
  (∀ i, r = Some i → i ∉ net_used N) →
  ∃ h', good (mkNet S (answer m r (deliver out (net_peers N))) q
                (list_to_set (option_list r) ∪ net_used N)) h'.
Proof.
  intros G Hq Hr Hfresh. pose proof (g_truthful _ _ G) as Ht. rewrite Hq in Ht. destruct Ht as [Ht _].
  destruct (serve_spec (net_server N) id h m (g_rep _ _ G) (truthful_known _ _ Ht))
    as (r' & s & o & (w' & n' & Hrun & Hs & _) & Hspec).
  rewrite Hr in Hrun. injection Hrun as -> <- _. simpl in Hs. subst s.
  destruct Hspec as (h' & out' & Hspec & Hrep & _).
  { intros i Hi. apply eq_None_not_Some. intros Hx. by apply (Hfresh i Hi), (g_hall_used _ _ G). }
  exists h'. destruct r' as [i|].
  - assert (∃ k, m = Connect k ∧ h' = <[i := (k, Some "Main"%string)]> h) as (k & -> & ->).
    { inversion Hspec; subst; try done. by eexists. }
    simpl. rewrite union_empty_r_L. apply connect_good; [done | done | by apply Hfresh | done].
  - simpl. rewrite union_empty_l_L. destruct (spec_others _ _ _ _ _ Hspec eq_refl Ht) as [Hroom Hh].
    replace (answer m None (deliver out (net_peers N))) with (deliver out (net_peers N))
      by (inversion Hspec; by subst).
    apply (good_served N h (SChat m) q); try done.
    + intros k p' Hp. destruct (alike_deliver _ _ _ _ Hp) as (p & H0 & Ha & _). by exists p.
    + intros k p _ Hp. by apply deliver_keeps.
Qed.

Lemma step_good N h N' : good N h → net_step N N' → ∃ h', good N' h'.
Proof.
  intros G Hs. destruct Hs as [k t s e n Hk Hr|k p p0 m s e n Hk Ht Hr|m q id r s out n Hq Hr Hf|k q id rooms w n Hq Hr].
  - exists h. by eapply new_good.
  - exists h. by eapply turn_good.
  - by eapply serve_good.
  - exists h. by eapply rooms_good.
Qed.

Lemma reachable_good N : rtc net_step net_init N → ∃ h, good N h.
Proof.
  revert N. apply (rtc_ind_r (R := net_step) (fun N => ∃ h, good N h)); [exists ∅; apply good_init |].
  intros N1 N2 _ Hs [h G]. by eapply step_good.
Qed.

(** C39: sessions and server agree on the rooms.  Whatever the peers do and
    however the turns interleave, when the server takes a session's message, the
    room that the session put into it is the room in which the server has that
    session.  So the message is sent to exactly the others in the room; among
    them is every live session that believes to be in it and has no message of
    its own under way.  (No id is drawn twice.) *)
Theorem chat_rooms_agree N id msg room q :
  rtc net_step net_init N → net_queue N = SChat (Message id msg room) :: q →
  ∃ h, represents (net_server N) h ∧ room_of h id = Some room ∧
    (∃ s out, does sent (serve (Message id msg room)) (net_server N, ([], 0)) None s out ∧
       out ≡ₚ others h room msg id) ∧
    ∀ k p, net_peers N !! k = Some p → peer_status p = Live → session_room (peer_session p) = room →
      session_id (peer_session p) ≠ id →
      (∀ m, m ∈ net_queue N → speaker m ≠ Some (session_id (peer_session p))) →
      (k, msg) ∈ others h room msg id.
Proof.
  intros Hr Hq. destruct (reachable_good N Hr) as [h G]. exists h.
  pose proof (g_truthful _ _ G) as Ht. rewrite Hq in Ht. destruct Ht as [Ht _].
  split_and!; [apply G | exact Ht | |].
  - destruct (serve_spec (net_server N) 0 h _ (g_rep _ _ G) (truthful_known _ _ Ht))
      as (r & s & out & Hd & Hspec). exists s, out.
    assert (r = None) as ->.
    { destruct Hd as (w' & n & Hw & _). unfold serve, chat_handle in Hw.
      by apply prog_bind_Return_inv in Hw as (? & ? & ? & ? & _ & [= -> _ _] & _). }
    split; [done |]. destruct Hspec as (h' & out' & Hspec & _ & Hp); [done |]. by inversion Hspec; subst.
  - intros k p Hk Hl Hroom Hne Hquiet.
    pose proof (g_room _ _ G k p (session_id (peer_session p)) Hk) as Hin.
    unfold present in Hin. rewrite Hl, room_after_other, Hroom in Hin by done. specialize (Hin eq_refl).
    unfold room_of in Hin. destruct (h !! session_id (peer_session p)) as [[a r]|] eqn:Hh; [| done].
    simpl in Hin. subst r.
    assert (a = k) as -> by (apply (g_addr _ _ G k p _ _ Hk) in Hh; [done | by unfold peer_id; rewrite Hl]).
    unfold others. apply list_elem_of_fmap. exists (session_id (peer_session p), (k, Some room)).
    split; [done |]. apply list_elem_of_filter. split; [done |]. by apply elem_of_map_to_list.
Qed.
End rooms.
