(* ===== verification/ChatRun.v ===== *)
(** * Running the network of the chat

    The steps of [ChatNet] as a function of the moves, with a run of two
    sessions: the witness of [chat_rooms_agree]. *)

From S2P Require Import Prelude.
From S2P Require Import Codec.
From S2P Require Import Chat.
From S2P Require Import ChatSession.
From S2P Require Import ChatNet.

(** Who runs next, and what its surroundings provide. *)
Inductive Move : Type :=
| MNew (k : nat) (now : Z)
| MAnswered (k : nat)
| MRequest (k : nat) (now : Z) (r : ChatRequest)
| MMessage (k : nat)
| MTick (k : nat) (now : Z)
| MClosed (k : nat)
| MStopping (k : nat)
| MServe (id : Z).

Definition run_turn (k : nat) (p : Peer) (m : Prog Solo () ()) (N : Net) : option Net :=
  match m (peer_session p, no_effects) with
  | Return ((), (s, e), _) => Some (after_turn k p s e N)
  | _ => None
  end.

Definition is_live (p : Peer) : bool := match peer_status p with Live => true | _ => false end.

Definition run_live (k : nat) (f : Peer → option (Peer * Prog Solo () ())) (N : Net) : option Net :=
  p ← net_peers N !! k;
  if is_live p then '(p0, m) ← f p; run_turn k p0 m N else None.

Definition unused (r : option Z) (used : gset Z) : bool :=
  match r with Some i => bool_decide (i ∉ used) | None => true end.

Definition run_serve (id : Z) (N : Net) : option Net :=
  match net_queue N with
  | SChat m :: q =>
      match serve m (net_server N, ([], id)) with
      | Return (r, (s, (out, id')), _) =>
          if bool_decide (id' = id) && unused r (net_used N) then
            Some (mkNet s (answer m r (deliver out (net_peers N))) q
                 (list_to_set (option_list r) ∪ net_used N))
          else None
      | _ => None
      end
  | SRooms k :: q =>
      match (list_rooms_handle : Prog Serving () _) (net_server N, ([], id)) with
      | Return (rooms, _, _) =>
          Some (mkNet (net_server N) (alter (set_status (AskingRooms (Some rooms))) k (net_peers N)) q
                  (net_used N))
      | _ => None
      end
  | [] => None
  end.

Definition run_move (mv : Move) (N : Net) : option Net :=
  match mv with
  | MNew k t =>
      match net_peers N !! k, solo_started (session_new t, no_effects) with
      | None, Return ((), (s, e), _) => Some (after_turn k (mkPeer (session_new t) Live [] []) s e N)
      | _, _ => None
      end
  | MAnswered k =>
      p ← net_peers N !! k;
      match peer_status p with
      | AskingConnect (Some id) => run_turn k (set_status Live p) (solo_connected id) N
      | AskingRooms (Some rooms) => run_turn k (set_status Live p) (solo_listed rooms) N
      | _ => None
      end
  | MRequest k t r => run_live k (fun p => Some (p, solo_request t r)) N
  | MMessage k =>
      run_live k (fun p => match peer_inbox p with
                           | m :: l => Some (set_inbox l p, solo_message m)
                           | [] => None
                           end) N
  | MTick k t => run_live k (fun p => Some (p, solo_tick t)) N
  | MClosed k => run_live k (fun p => Some (set_status Leaving p, mret ())) N
  | MStopping k =>
      p ← net_peers N !! k;
      match peer_status p with
      | Leaving => run_turn k (set_status Gone p) (_ ← solo_stopping; mret ()) N
      | _ => None
      end
  | MServe id => run_serve id N
  end.

Fixpoint run_moves (l : list Move) (N : Net) : option Net :=
  match l with
  | [] => Some N
  | mv :: l => N' ← run_move mv N; run_moves l N'
  end.

Lemma run_turn_step k p p0 m N N' :
  net_peers N !! k = Some p → turn p p0 m → run_turn k p0 m N = Some N' → net_step N N'.
Proof.
  intros Hk Ht Hr. unfold run_turn in Hr.
  destruct (m (peer_session p0, no_effects)) as [[[[] [s e]] n]| | |] eqn:Hm; [| done..].
  injection Hr as <-. by eapply step_turn.
Qed.

Lemma run_live_step k f N N' :
  (∀ p p0 m, peer_status p = Live → f p = Some (p0, m) → turn p p0 m) →
  run_live k f N = Some N' → net_step N N'.
Proof.
  intros Hf (p & Hk & Hr)%bind_Some. unfold is_live in Hr.
  destruct (peer_status p) eqn:Hst; try done.
  apply bind_Some in Hr as ([p0 m] & Hp & Hr). eapply run_turn_step; [done | by apply Hf | done].
Qed.

Lemma run_move_step mv N N' : run_move mv N = Some N' → net_step N N'.
Proof.
  destruct mv as [k t|k|k t r|k|k t|k|k|id]; simpl; intros Hr.
  - destruct (net_peers N !! k) eqn:Hk; [done |]. injection Hr as <-. by eapply step_new.
  - apply bind_Some in Hr as (p & Hk & Hr).
    destruct (peer_status p) as [|[id|]|[rooms|]| |] eqn:Hst; try done.
    + eapply run_turn_step; [done | by constructor | done].
    + eapply run_turn_step; [done | by constructor | done].
  - eapply run_live_step; [| done]. intros p p0 m Hl [= <- <-]. by constructor.
  - eapply run_live_step; [| done]. intros p p0 m Hl Hp. simpl in Hp.
    destruct (peer_inbox p) eqn:Hin; [done |]. injection Hp as <- <-. by constructor.
  - eapply run_live_step; [| done]. intros p p0 m Hl [= <- <-]. by constructor.
  - eapply run_live_step; [| done]. intros p p0 m Hl [= <- <-]. by constructor.
  - apply bind_Some in Hr as (p & Hk & Hr). destruct (peer_status p) eqn:Hst; try done.
    eapply run_turn_step; [done | by constructor | done].
  - unfold run_serve in Hr. destruct (net_queue N) as [|[m|k] q] eqn:Hq; [done | |].
    + destruct (serve m _) as [[[r [s [out id']]] n]| | |] eqn:Hs; [| done..].
      case_bool_decide as Hid; [| done]. simpl in Hr. subst id'.
      destruct (unused r (net_used N)) eqn:Hu; [| done]. injection Hr as <-.
      eapply step_serve; [done | done |]. intros i ->. by apply bool_decide_eq_true in Hu.
    + injection Hr as <-. by eapply (step_rooms _ _ _ id).
Qed.

Lemma run_moves_steps l N N' : run_moves l N = Some N' → rtc net_step N N'.
Proof.
  revert N. induction l as [|mv l IH]; intros N; simpl; [by intros [= ->] |].
  intros (N1 & H1 & H2)%bind_Some. eapply rtc_l; [by eapply run_move_step | by apply IH].
Qed.

(** Two sessions; the first moves to another room, the second follows, and then
    the first speaks there. *)
Definition den_moves : list Move :=
  [MNew 0 0; MNew 1 0; MServe 7; MServe 9; MAnswered 0; MAnswered 1;
   MRequest 0 0 (Codec.Join "Den"); MRequest 1 0 (Codec.Join "Den");
   MRequest 0 0 (RequestMessage "hi"); MServe 0; MServe 0].
Definition den : Net := default net_init (run_moves den_moves net_init).

Example den_heard :
  match run_moves [MServe 0; MMessage 1; MMessage 1] den with
  | Some N => (peer_written <$> net_peers N !! 1%nat) =
      Some [Joined "Den"; ResponseMessage "Someone disconnected"; ResponseMessage "hi"]
  | None => False
  end%string.
Proof. vm_compute. reflexivity. Qed.

Lemma chat_rooms_agree_witness :
  ∃ h, represents (net_server den) h ∧ room_of h 7 = Some "Den"%string ∧
    (1%nat, "hi"%string) ∈ others h "Den" "hi" 7.
Proof.
  assert (rtc net_step net_init den) as Hr.
  { apply (run_moves_steps den_moves). vm_compute. reflexivity. }
  destruct (chat_rooms_agree den 7 "hi" "Den" [] Hr eq_refl) as (h & H1 & H2 & _ & H3).
  exists h. split; [exact H1 |]. split; [exact H2 |].
  destruct (net_peers den !! 1%nat) as [p|] eqn:Hp; [| vm_compute in Hp; discriminate].
  apply (H3 1%nat p Hp); vm_compute in Hp; injection Hp as <-; [done | done | done |].
  intros m Hm. change (net_queue den) with [SChat (Message 7 "hi" "Den")] in Hm.
  apply list_elem_of_singleton in Hm as ->. done.
Defined.
