(* ===== verification/ChatClient.v ===== *)
(** * The client of the chat example: [src/examples/chat/src/client.rs]

    [ChatClient] turns the lines its user types into requests.  [write] writes to
    the connection, [system_exit] sends [SystemExit] to the system, [run_later]
    is that of its context; what it prints is left out.  A line is a string of
    characters below 256. *)

From Stdlib Require Import Ascii.
From Stdlib Require Import Strings.Byte.
From S2P Require Import Prelude.
From S2P Require Import Writer.
From S2P Require Import ContextImpl.
From S2P Require Import Codec.

#[local] Open Scope string_scope.

(** ** The string methods of [std] *)

(** [char::is_whitespace], below 256. *)
Definition is_whitespace (a : ascii) : bool :=
  let n := N_of_ascii a in
  ((9 <=? n) && (n <=? 13) || (n =? 32) || (n =? 133) || (n =? 160))%N.

(** [str::trim]. *)
Fixpoint trim_start (s : string) : string :=
  match s with
  | String a s' => if is_whitespace a then trim_start s' else s
  | EmptyString => ""
  end.
Fixpoint trim_end (s : string) : string :=
  match s with
  | String a s => let t := trim_end s in if is_whitespace a && bool_decide (t = "") then "" else String a t
  | EmptyString => ""
  end.
Definition trim (s : string) : string := trim_end (trim_start s).

(** [str::starts_with] and [str::splitn(2, c)] for a character. *)
Definition starts_with (c : ascii) (s : string) : bool :=
  match s with String a _ => bool_decide (a = c) | EmptyString => false end.
Fixpoint split_once (c : ascii) (s : string) : string * list string :=
  match s with
  | String a s => if bool_decide (a = c) then ("", [s])
                  else let '(x, v) := split_once c s in (String a x, v)
  | EmptyString => ("", [])
  end.

(** ** The client *)

Section client.
Context {W Task : Type}.
Abbreviation P := (Prog W Task).
Context (write : ChatRequest → P ()) (system_exit : Z → P ()) (run_later : Z → P ()).

(** [hb] asks for a tick in a second, in nanoseconds; a tick writes a [Ping]. *)
Definition client_hb : P () := run_later 1000000000.
Definition client_tick : P () := _ ← write RequestPing; client_hb.
Definition client_started : P () := client_hb.
Definition client_stopping : P Running := _ ← system_exit 0; mret Stop.

(** [Handler<ClientCommand>::handle]: the first part and the others. *)
Definition client_handle (cmd : string) : P () :=
  let m := trim cmd in
  if starts_with "/" m then
    let '(v0, v) := split_once " " m in
    if bool_decide (v0 = "/list") then write List
    else if bool_decide (v0 = "/join") then
      match v with
      | v1 :: _ => write (Join v1)
      | [] => mret ()
      end
    else mret ()
  else write (RequestMessage m).
End client.

(** ** Trimming *)

Lemma app_cons a s t : String a s ++ t = String a (s ++ t).
Proof. done. Qed.

Lemma trim_end_app p s : trim_end s ≠ "" → trim_end (p ++ s) = p ++ trim_end s.
Proof.
  intros Hs. induction p as [|a p IH]; [done |]. rewrite !app_cons. simpl. rewrite IH.
  rewrite bool_decide_false; [by rewrite andb_false_r |]. destruct p; [done | discriminate].
Qed.

(** White space at the end does not matter. *)
Lemma trim_end_white s a : is_whitespace a = true → trim_end (s ++ String a "") = trim_end s.
Proof. intros Ha. induction s as [|b s IH]; simpl; [by rewrite Ha | by rewrite IH]. Qed.

Lemma trim_end_idem s : trim_end (trim_end s) = trim_end s.
Proof.
  induction s as [|a s IH]; [done |]. simpl. destruct (_ && _) eqn:Hw; [done |]. simpl.
  by rewrite IH, Hw.
Qed.

Lemma trim_end_suffix p s : trim_end (p ++ s) = p ++ s → s ≠ "" → trim_end s = s.
Proof.
  intros Hp Hs. induction p as [|a p IH]; [done |]. rewrite !app_cons in Hp. simpl in Hp.
  destruct (_ && _); [done |]. injection Hp as Hp. by apply IH.
Qed.

Lemma trim_start_idem s : trim_start (trim_start s) = trim_start s.
Proof.
  induction s as [|a s IH]; [done |]. simpl. destruct (is_whitespace a) eqn:Ha; [done |]. simpl.
  by rewrite Ha.
Qed.

Lemma trim_start_length s : (String.length (trim_start s) ≤ String.length s)%nat.
Proof. induction s as [|a s IH]; simpl; [lia |]. destruct (is_whitespace a); simpl; lia. Qed.

Lemma trim_end_length s : (String.length (trim_end s) ≤ String.length s)%nat.
Proof. induction s as [|a s IH]; simpl; [lia |]. destruct (_ && _); simpl; lia. Qed.

(** A string that trimming leaves alone is empty or starts with something else. *)
Lemma trim_start_fixed a s : trim_start (String a s) = String a s → is_whitespace a = false.
Proof.
  simpl. destruct (is_whitespace a) eqn:Ha; [| done]. intros Hs.
  pose proof (trim_start_length s) as Hl. rewrite Hs in Hl. simpl in Hl. lia.
Qed.

Lemma trim_fixed a s : trim (String a s) = String a s → is_whitespace a = false.
Proof.
  unfold trim. simpl. destruct (is_whitespace a) eqn:Ha; [| done]. intros Hs.
  pose proof (trim_start_length s) as Hl. pose proof (trim_end_length (trim_start s)) as Hl'.
  rewrite Hs in Hl'. simpl in Hl'. lia.
Qed.

Lemma trim_start_end s : trim_start s = s → trim_start (trim_end s) = trim_end s.
Proof.
  destruct s as [|a s]; [done |]. intros Ha%trim_start_fixed. simpl. rewrite Ha. simpl. by rewrite Ha.
Qed.

Lemma trim_idem s : trim (trim s) = trim s.
Proof.
  unfold trim. rewrite trim_start_end by apply trim_start_idem. apply trim_end_idem.
Qed.

(** A trimmed string on a line of its own. *)
Definition line (s : string) : string := s ++ String "010" "".

Lemma trim_line s : trim s = s → trim (line s) = s.
Proof.
  intros Hs. unfold line. destruct s as [|a s]; [done |]. pose proof (trim_fixed _ _ Hs) as Ha.
  unfold trim in *. rewrite app_cons. simpl in *. rewrite Ha in *. rewrite <- app_cons.
  by rewrite trim_end_white.
Qed.

Lemma trim_prefix a p s : is_whitespace a = false → trim_end s = s → s ≠ "" →
  trim (String a p ++ s) = String a p ++ s.
Proof.
  intros Ha Hs Hne. unfold trim. rewrite app_cons. simpl trim_start. rewrite Ha, <- app_cons.
  rewrite trim_end_app; by rewrite Hs.
Qed.

(** ** Splitting *)

Lemma split_once_spec c s :
  (∃ rest, s = (split_once c s).1 ++ String c rest ∧ (split_once c s).2 = [rest]) ∨
  s = (split_once c s).1 ∧ (split_once c s).2 = [].
Proof.
  induction s as [|a s IH]; [by right |]. simpl. case_bool_decide; [subst; left; by exists s |].
  destruct (split_once c s) as [x v]. simpl in *.
  destruct IH as [(rest & -> & ->)|[-> ->]]; [left; by exists rest | by right].
Qed.

(** ** Commands *)

(** What to type for a request, and which requests can be typed. *)
Definition typed (r : ChatRequest) : string :=
  match r with
  | List => "/list"
  | Join name => "/join " ++ name
  | RequestMessage m => m
  | RequestPing => ""
  end.
Definition typable (r : ChatRequest) : Prop :=
  match r with
  | List => True
  | Join name => name ≠ "" ∧ trim_end name = name
  | RequestMessage m => trim m = m ∧ starts_with "/" m = false
  | RequestPing => False
  end.

Section commands.
Context {W Task : Type} (write : ChatRequest → Prog W Task ()).

Lemma client_handle_typed r : typable r → client_handle write (line (typed r)) = write r.
Proof.
  intros Hr. unfold client_handle. destruct r as [|name|m|]; simpl typed in *; [done | | | done].
  - destruct Hr as [Hne Hn]. change "/join " with (String "/" "join "). 
    rewrite trim_line by by apply trim_prefix. done.
  - destruct Hr as [Hm Hs]. by rewrite trim_line, Hs.
Qed.

(** Every line is refused or is a request that can be typed. *)
Lemma client_handle_range cmd :
  client_handle write cmd = mret () ∨ ∃ r, typable r ∧ client_handle write cmd = write r.
Proof.
  unfold client_handle. pose proof (trim_idem cmd) as Hm. set (m := trim cmd) in *.
  destruct (starts_with "/" m) eqn:Hs; [| right; by exists (RequestMessage m)].
  destruct (split_once " " m) as [v0 v] eqn:Hv.
  case_bool_decide; [right; by exists List |]. case_bool_decide as Hj; [| by left].
  destruct v as [|name v]; [by left |]. right. exists (Join name). split; [| done].
  destruct (split_once_spec " " m) as [(rest & Hrest & Hv2)|[_ Hv2]]; rewrite Hv in *; simpl in *; [| done].
  injection Hv2 as -> ->. subst v0.
  assert (trim_end m = m) as He by (rewrite <- Hm; apply trim_end_idem).
  rewrite Hrest in He. change ("/join" ++ String " " rest) with ("/join " ++ rest) in He.
  assert (rest ≠ "") as Hne by (intros ->; vm_compute in He; discriminate).
  split; [done |]. by apply trim_end_suffix in He.
Qed.
End commands.

(** ** From the keyboard to the session *)

Section wire.
Context `{!Json ChatRequest}.

(** The connection, as the bytes written to it. *)
Definition wire_write (r : ChatRequest) : Prog (list byte) () () := fun dst =>
  '(_, dst) ← client_encode r dst; Return ((), dst, []).

Fixpoint type_lines (l : list string) : Prog (list byte) () () :=
  match l with
  | [] => mret ()
  | cmd :: l => _ ← client_handle wire_write cmd; type_lines l
  end.

Lemma type_lines_typed rs dst :
  Forall typable rs →
  type_lines ((fun r => line (typed r)) <$> rs) dst = Return ((), (dst ++ concat (map frame rs))%list, []).
Proof.
  intros Hr. revert dst. induction Hr as [|r rs Hr _ IH]; intros dst; [simpl; by rewrite app_nil_r |].
  cbn [fmap list_fmap type_lines]. rewrite client_handle_typed by done.
  rewrite (prog_bind_quiet _ _ _ () (dst ++ frame r)%list).
  - rewrite IH. simpl. by rewrite <- app_assoc.
  - unfold wire_write, client_encode. by rewrite encode_frame_spec.
Qed.

(** C40: commands arrive.  A user can type every request that is [typable]: all but
    [Ping], a join without a name, a message that starts with a slash, and a text
    with white space at its ends.  What is typed for such requests [rs], on lines of
    their own, reaches the server's decoder as [rs], however the bytes are cut, if
    the requests fit into their frames ([fits]: the JSON of each is shorter than
    2^16 bytes; a longer one is misread, see [oversized_frame_misread]).  And
    nothing else can be typed: any lines have the effect of some typable
    requests. *)
Theorem commands_arrive :
  (∀ rs chunks, Forall typable rs → Forall fits rs →
     ∀ stream, type_lines ((fun r => line (typed r)) <$> rs) [] = Return ((), stream, []) →
       concat chunks = stream → (fun fuel => feed fuel chunks []) ⇓ (map Ok rs, [])) ∧
  ∀ lines, ∃ rs, Forall typable rs ∧
    type_lines lines ≡ₘ type_lines ((fun r => line (typed r)) <$> rs).
Proof.
  split.
  - intros rs chunks Ht Hf stream Hs Hc. rewrite type_lines_typed in Hs by done. injection Hs as <-.
    apply feed_decode_all; [done |]. rewrite Hc. by apply decode_all_frames.
  - intros lines. induction lines as [|cmd lines (rs & Hrs & IH)]; [by exists [] |].
    destruct (client_handle_range wire_write cmd) as [Hn|(r & Hr & Hw)].
    + exists rs. split; [done |]. cbn [type_lines]. rewrite Hn, prog_bind_ret_l. exact IH.
    + exists (r :: rs). split; [by constructor |]. cbn [type_lines fmap list_fmap].
      rewrite Hw, client_handle_typed by done. by apply prog_bind_cong.
Qed.
End wire.

(** ** A concrete encoding *)

(** A byte for the kind of request, then its text. *)
Definition request_bytes (r : ChatRequest) : list byte :=
  match r with
  | List => [x00]
  | Join name => x01 :: list_byte_of_string name
  | RequestMessage m => x02 :: list_byte_of_string m
  | RequestPing => [x03]
  end.
Definition bytes_request (b : list byte) : Result ChatRequest IoError :=
  match b with
  | x00 :: _ => Ok List
  | x01 :: l => Ok (Join (string_of_list_byte l))
  | x02 :: l => Ok (RequestMessage (string_of_list_byte l))
  | _ => Ok RequestPing
  end.
Lemma bytes_request_bytes r : bytes_request (request_bytes r) = Ok r.
Proof. destruct r; simpl; by rewrite ?string_of_list_byte_of_string. Qed.
#[local] Instance request_json : Json ChatRequest := {|
  to_json := request_bytes; from_json := bytes_request; from_to_json := bytes_request_bytes
|}.

Lemma fits_small (r : ChatRequest) : (length (to_json r) < 10)%nat → fits r.
Proof. intros Hr. unfold fits. rewrite u16_modulus_value. lia. Qed.

Lemma commands_arrive_witness :
  type_lines ["/join Den"; "/list "; "  hi "; "/dance"] [] =
    Return ((), [x00; x04; x01; x44; x65; x6e; x00; x01; x00; x00; x03; x02; x68; x69], []) ∧
  (fun fuel => feed fuel [[x00; x04; x01]; [x44; x65; x6e; x00; x01; x00; x00; x03; x02; x68; x69]] []) ⇓
    ([Ok (Join "Den"); Ok List; Ok (RequestMessage "hi")], []).
Proof.
  split; [vm_compute; reflexivity |].
  apply (proj1 commands_arrive [Join "Den"; List; RequestMessage "hi"]) with
    (stream := [x00; x04; x01; x44; x65; x6e; x00; x01; x00; x00; x03; x02; x68; x69]).
  - repeat constructor; try discriminate.
  - repeat (apply Forall_cons; split; [apply fits_small; vm_compute; lia |]). constructor.
  - vm_compute. reflexivity.
  - reflexivity.
Defined.
