(* ===== verification/ChatWire.v ===== *)
(** * From the writers of the chat to its readers

    The session and the client write through a [FramedWrite] with their codec
    ([src/io.rs], [src/examples/chat/src/codec.rs]); what the session wrote, the
    client decodes and shows ([Handler] of [ChatResponse] in
    [src/examples/chat/src/client.rs]). *)

From Stdlib Require Import Ascii.
From Stdlib Require Import Strings.Byte.
From S2P Require Import Prelude.
From S2P Require Import ContextImpl.
From S2P Require Import Fut.
From S2P Require Import AsyncContext.
From S2P Require Import Writer.
From S2P Require Import Codec.

(** ** The codecs as encoders *)

Section encoders.
Context `{!Json ChatRequest, !Json ChatResponse}.

#[export] Instance chat_codec_encoder : Encoder () ChatResponse IoError := fun msg dst codec =>
  '(r, dst) ← chat_encode msg dst; Return (r, dst, codec).
#[export] Instance client_codec_encoder : Encoder () ChatRequest IoError := fun msg dst codec =>
  '(r, dst) ← client_encode msg dst; Return (r, dst, codec).
End encoders.

(** ** Writing frames *)

Section frames.
Context {W Task T : Type} `{!Cell W (InnerWriter T IoError)}.
Context {Item : Type} `{!Json Item, !Encoder () Item IoError}.
Abbreviation P := (Prog W Task).

(** The encoder writes the frame of the message. *)
Context (encodes : ∀ (msg : Item) dst, encode msg dst () = Return (Ok (), dst ++ frame msg, ())).

Lemma framed_write_frame msg :
  framed_write (T := T) (E := IoError) msg () ≡ₘ (_ ← write (T := T) (E := IoError) (frame msg); mret () : P ()).
Proof.
  intros w. unfold framed_write, inner, cell_read. rewrite prog_bind_gets, encodes.
  cbn. unfold write, update, cell_update, modify. cbn. done.
Qed.

Fixpoint framed_write_all (ms : list Item) : P () :=
  match ms with
  | [] => mret ()
  | m :: ms => _ ← framed_write (T := T) (E := IoError) m (); framed_write_all ms
  end.

(** Writing messages appends their frames to the buffer and does nothing else. *)
Lemma framed_write_all_spec ms :
  framed_write_all ms ≡ₘ write (T := T) (E := IoError) (concat (map frame ms)).
Proof.
  induction ms as [|m ms IH].
  - intros w. unfold write, update, cell_update, modify. simpl. rewrite app_nil_r.
    replace (set_buffer _ _) with (cell_get (X := InnerWriter T IoError) w).
    + by rewrite cell_set_get.
    + by destruct (cell_get w).
  - cbn [framed_write_all map concat]. rewrite framed_write_frame, prog_bind_assoc. intros w.
    rewrite (prog_bind_quiet _ _ _ ()
      (cell_set (set_buffer (buffer (cell_get w) ++ frame m) (cell_get w)) w)) by done.
    rewrite prog_bind_ret_l, IH. unfold write, update, cell_update, modify.
    rewrite cell_get_set, cell_set_set. unfold set_buffer. cbn [flags io buffer error low high handle]. by rewrite app_assoc.
Qed.
End frames.

(** ** What the client shows *)

(** [Handler<ChatResponse>]: the lines that are printed. *)
Definition client_shows (msg : ChatResponse) : list string :=
  match msg with
  | ResponseMessage m => ["message: " +:+ m]
  | Joined m => ["!!! joined: " +:+ m]
  | Rooms rooms => ["" ; "!!! Available rooms:"] ++ rooms ++ [""]
  | Ping => []
  end.

Definition shown (l : list (Result ChatResponse IoError)) : list string :=
  flat_map (fun r => match r with Ok m => client_shows m | Err _ => [] end) l.

Section heard.
Context {W Task T : Type} `{!Cell W (InnerWriter T IoError)} `{!Json ChatResponse}.

(** What a session writes is shown, message by message, by the client that gets
    the bytes of the session's buffer in some chunks. *)
Theorem session_heard ms chunks w :
  Forall fits ms → buffer (cell_get (X := InnerWriter T IoError) w) = [] →
  ∃ w', framed_write_all (Task := Task) (T := T) ms w = Return ((), w', []) ∧
    (concat chunks = buffer (cell_get (X := InnerWriter T IoError) w') →
     ∃ l, (fun fuel => feed fuel chunks []) ⇓ (l, []) ∧ shown l = flat_map client_shows ms).
Proof.
  intros Hf Hb. eexists. split; [apply framed_write_all_spec; intros m dst |].
  - unfold encode, chat_codec_encoder, chat_encode. by rewrite encode_frame_spec.
  - rewrite cell_get_set. cbn [buffer set_buffer]. rewrite Hb. intros Hc. exists (map Ok ms). split.
    + apply feed_decode_all; [done |]. simpl. rewrite Hc. by apply decode_all_frames.
    + unfold shown. by rewrite flat_map_concat_map, map_map, <- flat_map_concat_map.
Qed.
End heard.
