(* ===== verification/ChatStart.v ===== *)
(** * Starting the chat's actors: [src/examples/chat/src/main.rs], [client.rs]

    For every connection the server creates a [ChatSession], and the client's
    [main] creates a [ChatClient]: the reading half of the socket becomes a
    stream of the new context, the writing half a [FramedWrite], whose future is
    the context's second item.  Nobody asks for the address of a session when it
    is created: its two items keep it alive until [started] hands its address to
    the server ([session_created]). *)

From Stdlib Require Import Strings.Byte.
From S2P Require Import Prelude.
From S2P Require Import Queue.
From S2P Require Import Envelope.
From S2P Require Import UnsyncChannel.
From S2P Require Import SyncChannel.
From S2P Require Import Mailbox.
From S2P Require Import ContextImpl.
From S2P Require Import Supervisor.
From S2P Require Import Address.
From S2P Require Import ActorAddress.
From S2P Require Import Fut.
From S2P Require Import AsyncContext.
From S2P Require Writer.
From S2P Require Import ChatSession.

(** The state of the writer is outside the actor and its context. *)
Section env_cell.
Context {A V Fut M Txs Txu Task X : Type} {Q : Type → Type} `{!Cell V X}.
#[export] Program Instance env_cell : Cell (@World A V Fut M Txs Txu Task Q) X := {|
  cell_get w := cell_get (env w);
  cell_set x w := mkWorld (impl w) (cell_set x (env w))
|}.
Next Obligation. intros x w. apply cell_get_set. Qed.
Next Obligation. intros x y w. simpl. by rewrite cell_set_set. Qed.
Next Obligation. intros [c v]. simpl. by rewrite cell_set_get. Qed.
End env_cell.

Section start.
Context {V Fut M Txs Txu Task TcpStream FramedRead WriteHalf : Type} {Q : Type → Type} {build : Build}.
Context `{!MpscQueue Q, !Cell V (Writer.InnerWriter WriteHalf Writer.IoError)}.
(** [split] of the socket, with the reading half in a [FramedRead]; the boxes
    for the items of the context. *)
Context (split : TcpStream → FramedRead * WriteHalf).
Context (stream_item : StreamItem FramedRead → Fut) (writer_fut : Fut).

(** Both closures: the stream first, then the writer. *)
Definition connection_items {A} (socket : TcpStream) : Prog (@World A V Fut M Txs Txu Task Q) Task () :=
  let '(r, w) := split socket in
  _ ← add_stream stream_item r;
  Writer.framed_new (E := Writer.IoError) w () writer_fut.

(** [Handler<TcpConnect>] of the server's listener. *)
Section session.
Abbreviation World := (@World ChatSession V Fut M Txs Txu Task Q).
Context (now : Prog World Task Z).
Definition session_make (socket : TcpStream) : Prog World Task ChatSession :=
  _ ← connection_items socket; t ← now; mret (session_new t).
Definition tcp_connect_handle (socket : TcpStream) (v : V) : Exec (() * World * list Task) :=
  actor_create (get_address (X := ())) (session_make socket) v.
End session.

(** The closure of [ChatClient::create] in the client's [main]; a [ChatClient] is
    only its writer. *)
Abbreviation ClientWorld := (@World () V Fut M Txs Txu Task Q).
Definition client_make (socket : TcpStream) : Prog ClientWorld Task () := connection_items socket.
Definition client_create (socket : TcpStream) (v : V)
  : Exec (Addr (Tr := SyncAddressSender) * ClientWorld * list Task) :=
  actor_create get_address (client_make socket) v.

(** [Server::create] in the server's [main]: the incoming connections are the
    messages of a stream. *)
Definition listener_create {Incoming} (item : Incoming → Fut) (incoming : Incoming) (v : V)
  : Exec (() * ClientWorld * list Task) :=
  actor_create (get_address (X := ())) (add_message_stream item incoming) v.

(** ** What they start *)

(** The context of a connection: its items, in order, and its writer, empty and
    with the handle of its future. *)
Record serves {A} (socket : TcpStream) (w : @ContextImpl.World A V Fut M Txs Txu Task Q) : Prop := mkServes {
  s_items : items (impl w) = [(1, stream_item (stream_item_new (split socket).1)); (2, writer_fut)];
  s_writer : Writer.handle (cell_get w) = 2 ∧ Writer.buffer (cell_get w) = [] ∧
             Writer.io (cell_get w) = (split socket).2;
  s_alive : alive (impl w) = true
}.

(** The items are spawned into the context, and the writer gets its handle. *)
Lemma connection_items_spec {A} socket v :
  ∃ v', connection_items (A := A) socket (mkWorld (new None) v) =
    Return ((), mkWorld (spawn writer_fut
      (spawn (stream_item (stream_item_new (split socket).1)) (new None))) v', []) ∧
    Writer.handle (cell_get v') = 2 ∧ Writer.buffer (cell_get v') = [] ∧
    Writer.io (cell_get v') = (split socket).2.
Proof.
  unfold connection_items. destruct (split socket) as [r h]. eexists. split; [reflexivity |].
  cbn [impl env cell_get cell_set env_cell]. by rewrite !cell_get_set.
Qed.

Lemma session_created now t socket v :
  (∀ w, now w = Return (t, w, [])) →
  ∃ w, tcp_connect_handle now socket v = Return ((), w, []) ∧ serves socket w ∧
    act (impl w) = Some (session_new t) ∧ connected (impl w) = false.
Proof.
  intros Hn. destruct (connection_items_spec (A := ChatSession) socket v) as (v' & Hi & Hw).
  eexists. split.
  - unfold tcp_connect_handle, actor_create, session_make.
    rewrite (prog_bind_quiet _ _ _ () (mkWorld (new None) v)) by done.
    rewrite prog_bind_assoc, (prog_bind_quiet _ _ _ _ _ Hi), prog_bind_assoc.
    by rewrite (prog_bind_quiet _ _ _ _ _ (Hn _)).
  - by split; [split | split].
Qed.

Lemma client_created socket v :
  ∃ a w, client_create socket v = Return (a, w, []) ∧ serves socket w ∧ connected (impl w) = true.
Proof.
  unfold client_create, actor_create, client_make, connection_items.
  destruct (split socket) as [r h] eqn:Hs. eexists _, _. split; [reflexivity |].
  split; [split |]; [cbn; by rewrite Hs | | done..].
  cbn [impl env cell_get cell_set env_cell]. by rewrite !cell_get_set, Hs.
Qed.
End start.
