(* ===== verification/Fibonacci.v ===== *)
(** * The sync actor of [examples/fibonacci.rs]

    [Handler<Fibonacci>::handle] of a machine with 64-bit sums, against the
    recursion that defines the Fibonacci numbers.  A debug build checks every
    addition, a release build takes it modulo the width. *)

From S2P Require Import Prelude.

(** ** The handler *)

Section handler.
Context (debug : bool).

(** The [while] loop: [i] is a [u32], the others are [u64]. *)
Fixpoint fibonacci_loop (fuel : nat) (n i sum last curr : Z) : Exec Z :=
  match fuel with
  | O => OutOfFuel
  | S fuel =>
      bound ← uint_sub debug 32 n 1;
      if i <? bound then
        sum ← uint_add debug 64 last curr;
        let last := curr in
        let curr := sum in
        i ← uint_add debug 32 i 1;
        fibonacci_loop fuel n i sum last curr
      else Return sum
  end.

Definition fibonacci_handle (fuel : nat) (n : Z) : Exec (Result Z ()) :=
  if n =? 0 then Return (Err ())
  else if n =? 1 then Return (Ok 1)
  else sum ← fibonacci_loop fuel n 0 0 0 1; Return (Ok sum).
End handler.

(** ** The numbers *)

Fixpoint fib (n : nat) : Z :=
  match n with
  | O => 0
  | S O => 1
  | S (S n as m) => fib m + fib n
  end.

(** Two neighbours at a time. *)
Fixpoint fib_pair (n : nat) : Z * Z :=
  match n with
  | O => (0, 1)
  | S n => let '(a, b) := fib_pair n in (b, a + b)
  end.

#[local] Arguments fib : simpl never.

Lemma fib_step n : fib (S (S n)) = fib (S n) + fib n.
Proof. done. Qed.

Lemma fib_pair_spec n : fib_pair n = (fib n, fib (S n)).
Proof. induction n as [|n IH]; [done |]. cbn [fib_pair]. rewrite IH, fib_step, Z.add_comm. done. Qed.

Lemma fib_nonneg n : 0 ≤ fib n ∧ 0 ≤ fib (S n).
Proof. induction n as [|n IH]; [by vm_compute | rewrite fib_step; lia]. Qed.

Lemma fib_mono n m : (n ≤ m)%nat → fib n ≤ fib m.
Proof.
  induction 1 as [|m Hm IH]; [done |]. destruct m as [|m].
  { change (fib 0) with 0 in IH. change (fib 1) with 1. lia. }
  rewrite fib_step. pose proof (fib_nonneg m). lia.
Qed.

Lemma fib_fst n : fib n = (fib_pair n).1.
Proof. by rewrite fib_pair_spec. Qed.

(** The last one that fits into 64 bits, and the first one that does not. *)
Lemma fib_93 : fib 93 < 2 ^ 64 ≤ fib 94.
Proof. rewrite !fib_fst. by vm_compute. Qed.

(** ** The loop *)

(** After [i] turns [last] and [curr] are two neighbours.  The numbers a release
    build keeps are those modulo [2^64]. *)
Definition word (n : nat) : Z := fib n mod 2 ^ 64.

Lemma word_step n : (word n + word (S n)) mod 2 ^ 64 = word (S (S n)).
Proof. unfold word. rewrite fib_step, <- Z.add_mod by done. f_equal. lia. Qed.

Lemma fibonacci_loop_release n k fuel sum :
  (2 ≤ n)%nat → Z.of_nat n < 2 ^ 32 → (k < n)%nat → (k = 0%nat ∨ sum = word (S k)) →
  (n - k < fuel)%nat →
  fibonacci_loop false fuel (Z.of_nat n) (Z.of_nat k) sum (word k) (word (S k)) = Return (word n).
Proof.
  intros Hn Hw. revert k sum. induction fuel as [|fuel IH]; intros k sum Hk Hs Hf; [lia |].
  cbn [fibonacci_loop]. rewrite uint_sub_small by lia. cbn [mbind exec_bind].
  destruct (Z.ltb_spec (Z.of_nat k) (Z.of_nat n - 1)).
  - rewrite (uint_add_wraps 64). cbn [mbind exec_bind]. rewrite word_step.
    rewrite uint_add_small by lia. cbn [mbind exec_bind].
    replace (Z.of_nat k + 1) with (Z.of_nat (S k)) by lia.
    apply IH; [lia | by right | lia].
  - replace n with (S k) by lia. destruct Hs as [->| ->]; [lia | done].
Qed.

(** A debug build does the same as long as the numbers fit, and panics at the
    first one that does not. *)
Lemma fibonacci_loop_debug n k fuel sum :
  (2 ≤ n)%nat → Z.of_nat n < 2 ^ 32 → (k < n)%nat → fib (S k) < 2 ^ 64 →
  (k = 0%nat ∨ sum = fib (S k)) → (n - k < fuel)%nat →
  fibonacci_loop true fuel (Z.of_nat n) (Z.of_nat k) sum (fib k) (fib (S k)) =
  if fib n <? 2 ^ 64 then Return (fib n) else Panic "attempt to add with overflow".
Proof.
  intros Hn Hw. revert k sum. induction fuel as [|fuel IH]; intros k sum Hk Hfit Hs Hf; [lia |].
  cbn [fibonacci_loop]. rewrite uint_sub_small by lia. cbn [mbind exec_bind].
  pose proof (fib_nonneg k) as [Hk0 Hk1].
  destruct (Z.ltb_spec (Z.of_nat k) (Z.of_nat n - 1)).
  - destruct (Z.ltb_spec (fib (S (S k))) (2 ^ 64)) as [Hlt|Hge].
    + rewrite fib_step in Hlt. rewrite (uint_add_small true 64) by lia. cbn [mbind exec_bind].
      rewrite uint_add_small by lia. cbn [mbind exec_bind].
      replace (Z.of_nat k + 1) with (Z.of_nat (S k)) by lia.
      replace (fib k + fib (S k)) with (fib (S (S k))) by (rewrite fib_step; lia).
      apply IH; [lia | rewrite fib_step; lia | by right | lia].
    + rewrite fib_step in Hge. rewrite (uint_add_overflows 64) by lia. cbn [mbind exec_bind].
      destruct (Z.ltb_spec (fib n) (2 ^ 64)) as [Hlt|]; [| done].
      pose proof (fib_mono (S (S k)) n ltac:(lia)) as Hm. rewrite fib_step in Hm. lia.
  - replace n with (S k) by lia. destruct (Z.ltb_spec (fib (S k)) (2 ^ 64)); [| lia].
    destruct Hs as [->| ->]; [lia | done].
Qed.

(** the answers.  For any [u32] the handler returns; a release build answers
    with the Fibonacci number modulo [2^64], a debug build with the number itself
    up to the 93rd, and panics from the 94th on; 0 is an error. *)
Theorem fibonacci_handle_spec debug n :
  0 ≤ n < 2 ^ 32 →
  ∃ bound, ∀ fuel, (bound ≤ fuel)%nat →
    fibonacci_handle debug fuel n =
      if n =? 0 then Return (Err ())
      else if negb debug then Return (Ok (fib (Z.to_nat n) mod 2 ^ 64))
      else if n <=? 93 then Return (Ok (fib (Z.to_nat n)))
      else Panic "attempt to add with overflow".
Proof.
  intros Hn. exists (S (Z.to_nat n)). intros fuel Hf. unfold fibonacci_handle.
  destruct (Z.eqb_spec n 0); [done |]. destruct (Z.eqb_spec n 1) as [->|]; [by destruct debug |].
  rewrite <- (Z2Nat.id n) by lia. rewrite Nat2Z.id. set (k := Z.to_nat n) in *.
  assert (2 ≤ k)%nat by lia. assert (Z.of_nat k < 2 ^ 32) by lia.
  destruct debug; simpl negb; cbn iota.
  - pose proof (fibonacci_loop_debug k 0 fuel 0 ltac:(lia) ltac:(lia) ltac:(lia)) as Hl.
    change (Z.of_nat 0) with 0 in Hl. change (fib 0) with 0 in Hl. change (fib 1) with 1 in Hl.
    rewrite Hl by (try (by left); lia). clear Hl. pose proof fib_93 as [H1 H2].
    destruct (Z.leb_spec (Z.of_nat k) 93) as [Hk|Hk].
    + pose proof (fib_mono k 93 ltac:(lia)). by destruct (Z.ltb_spec (fib k) (2 ^ 64)); [| lia].
    + pose proof (fib_mono 94 k ltac:(lia)). by destruct (Z.ltb_spec (fib k) (2 ^ 64)); [lia |].
  - pose proof (fibonacci_loop_release k 0 fuel 0 ltac:(lia) ltac:(lia) ltac:(lia)) as Hl.
    change (word 0) with 0 in Hl. change (word 1) with 1 in Hl.
    change (Z.of_nat 0) with 0 in Hl. by rewrite Hl by (try (by left); lia).
Qed.

Lemma fibonacci_handle_spec_witness :
  ∃ bound, ∀ fuel, (bound ≤ fuel)%nat → fibonacci_handle true fuel 9 = Return (Ok 34).
Proof.
  destruct (fibonacci_handle_spec true 9 ltac:(lia)) as [bound H]. exists bound. exact H.
Defined.
