(* ===== verification/EndToEnd.v ===== *)
(** * Asking an actor: the parts together

    Requests are sent through an address of an actor ([Address], [Request],
    [UnsyncChannel]); the actor's context is polled ([ContextImpl], [Mailbox]),
    which opens the envelopes ([Handler]); then the requests are polled.  Every
    request gets what the handler returned for its message. *)

From S2P Require Import Prelude.
From S2P Require Import Queue.
From S2P Require Import Envelope.
From S2P Require Import UnsyncChannel.
From S2P Require Import SyncChannel.
From S2P Require Import Request.
From S2P Require Import Address.
From S2P Require Import Mailbox.
From S2P Require Import MailboxProps.
From S2P Require Import ContextImpl.
From S2P Require Import AsyncContext.
From S2P Require Import Handler.
From S2P Require Import Oneshot.

Section ask.
Context {A V Fut M Res Os Txs Task : Type} {Q : Type → Type} `{!MpscQueue Q}.
Context `{!Oneshots Os Res V Task}.
Abbreviation World := (@World A V Fut M Txs Os Task Q).
Abbreviation Env := (Envelope M Os).
Abbreviation Chan := (@Chan M Os Task).
Abbreviation P := (Prog World Task).
Implicit Types (w : World).

(** The sending half of a oneshot channel as a response channel. *)
#[export] Instance oneshot_channel : ResponseChannel (W := World) (Task := Task) Os Res := {|
  rc_is_canceled o w := os_canceled o (env w);
  rc_send o r w := let '(v, n) := os_send o r (env w) in Return ((), mkWorld (impl w) v, n)
|}.

(** Programs on the actor's own channel and on what is outside the context. *)
Definition get_chan w : Chan := unsync_msgs (mailbox (impl w)).
Definition put_parts (c : Chan) (v : V) w : World :=
  mkWorld (set_mailbox (mkMailbox (sync_msgs (mailbox (impl w))) c) (impl w)) v.
Definition outside {X} (m : Prog (Chan * V) Task X) : P X := fun w =>
  '(x, (c, v), n) ← m (get_chan w, env w); Return (x, put_parts c v w, n).

(** The actor: it opens its envelopes with [handler], which returns, and leaves
    its context and the oneshot channels alone. *)
Context `{!ActorCode (A := A) (V := V) (Fut := Fut) (M := M) (Txs := Txs) (Txu := Os) (Task := Task) (Q := Q)}.
Context (handler : M → P Res).
Context (opens : ∀ e, handle_unsync e ≡ₘ (_ ← open_envelope handler respond_value e; mret ())).

Definition keeps_oneshots w w' : Prop :=
  (∀ o, pending o (env w) → pending o (env w')) ∧
  (∀ o r, answered o r (env w) → answered o r (env w')).
Context (handler_returns : ∀ m w, is_Some (act (impl w)) → ∃ r w' n,
  handler m w = Return (r, w', n) ∧ impl w' = set_act (act (impl w')) (impl w) ∧
  is_Some (act (impl w')) ∧ keeps_oneshots w w').

(** ** Sending, running the actor, and receiving *)

Context (debug : bool) (current asker : Task).
Abbreviation Request := (@Request () M Os ()).

Definition ask (mo : M * Os) (a : Addr) : P (Request * Addr) :=
  outside (addr_send asker (mo.2, mo.2) mo.1 a).
Fixpoint ask_all (l : list (M * Os)) (a : Addr) : P (list Request) :=
  match l with
  | [] => mret []
  | mo :: l => '(r, a) ← ask mo a; rs ← ask_all l a; mret (r :: rs)
  end.

Definition receive (o : Os) (r : Request) : P (Poll Res MailboxError) :=
  '(x, _) ← outside (request_poll os_poll (fun _ => mret (Ok NotReady)) asker (o, o) r); mret x.
Fixpoint receive_all (l : list (M * Os)) (rs : list Request) : P (list (Poll Res MailboxError)) :=
  match l, rs with
  | mo :: l, r :: rs => x ← receive mo.2 r; xs ← receive_all l rs; mret (x :: xs)
  | _, _ => mret []
  end.

(** All requests are sent, the actor runs once, all requests are polled. *)
Definition session (fuel : nat) (l : list (M * Os)) (a : Addr) : P (list (Poll Res MailboxError)) :=
  rs ← ask_all l a; _ ← ContextImpl.poll debug current fuel; receive_all l rs.

(** ** An actor at rest *)

Record idle w : Prop := mkIdle {
  idle_act : is_Some (act (impl w));
  idle_flags : flags (impl w) = Z.lor RUNNING STARTED;
  idle_wait : wait (impl w) = [];
  idle_items : items (impl w) = [];
  idle_sync : sync_msgs (mailbox (impl w)) = None;
  idle_strong : strong (get_chan w) = true;
  idle_weak : weak (get_chan w) ≠ 0%nat
}.

Lemma idle_stopping w : idle w → is_stopping (impl w) = false.
Proof. intros Hw. unfold is_stopping. by rewrite (idle_flags _ Hw). Qed.
Lemma idle_waiting w : idle w → waiting (impl w) = false.
Proof. intros Hw. unfold waiting. by rewrite (idle_wait _ Hw), (idle_stopping _ Hw). Qed.
Lemma idle_must_wait w : idle w → must_wait (impl w) = false.
Proof. intros Hw. unfold must_wait. by rewrite (idle_wait _ Hw). Qed.

Lemma idle_put_parts c v w :
  idle w → strong c = true → weak c ≠ 0%nat → idle (put_parts c v w).
Proof. intros [] ? ?. by split. Qed.

(** ** Sending *)

Definition envelope (mo : M * Os) : Env := pack mo.1 (Some mo.2).
Definition request_of (mo : M * Os) : Request := request_new (Some mo.2) None.

(** Room for [n] more messages. *)
Definition room (n : nat) (c : Chan) : Prop :=
  capacity (shared c) = 0%nat ∨ (length (UnsyncChannel.buffer (shared c)) + n ≤ capacity (shared c))%nat.

Lemma ask_spec mo a w :
  strong (get_chan w) = true → room 1 (get_chan w) →
  ∃ n, ask mo a w = Return (request_of mo, a,
         put_parts (with_pushed (envelope mo) (get_chan w)) (env w) w, n).
Proof.
  intros Hw Hr. destruct a as [[]]. unfold ask, outside, addr_send, dest_send, on_chan; simpl.
  unfold mbind, prog_bind; simpl. rewrite send_spec, Hw.
  assert (has_room (shared (get_chan w)) = true) as ->.
  { unfold has_room. destruct Hr as [Hr|Hr]; [by rewrite bool_decide_true |].
    rewrite (bool_decide_true (length _ < _)%nat) by lia. apply orb_true_r. }
  simpl. by eexists.
Qed.

(** The messages are pushed, and nothing else happens. *)
Lemma ask_all_spec l a w :
  strong (get_chan w) = true → room (length l) (get_chan w) →
  ∃ c n, ask_all l a w = Return (request_of <$> l, put_parts c (env w) w, n) ∧
    UnsyncChannel.buffer (shared c) = UnsyncChannel.buffer (shared (get_chan w)) ++ (envelope <$> l) ∧
    strong c = true ∧ weak c = weak (get_chan w).
Proof.
  revert a w. induction l as [|mo l IH]; intros a w Hw Hr; cbn [ask_all].
  - exists (get_chan w), []. rewrite app_nil_r. unfold put_parts, get_chan.
    assert (mkWorld (set_mailbox (mkMailbox (sync_msgs (mailbox (impl w)))
      (unsync_msgs (mailbox (impl w)))) (impl w)) (env w) = w) as Hsame.
    { by destruct w as [[? ? [] ? ? ? ?] ?]. }
    rewrite Hsame. by split_and!.
  - destruct (ask_spec mo a w Hw) as (n1 & H1).
    { unfold room in *. simpl in Hr. lia. }
    set (w1 := put_parts (with_pushed (envelope mo) (get_chan w)) (env w) w) in H1.
    destruct (IH a w1 Hw) as (c & n2 & H2 & Hb & Hc).
    { unfold room in *. simpl in *. rewrite length_app; simpl. lia. }
    exists c. rewrite (prog_bind_Return _ _ _ _ _ _ H1), (prog_bind_Return _ _ _ _ _ _ H2).
    eexists. split; [done |]. split; [| done].
    rewrite Hb. simpl. by rewrite <- app_assoc.
Qed.

(** ** The actor runs *)

(** The actor handled [ms] one after the other with the results [rs], which took
    it from [a] to [a']. *)
Inductive ran (a : option A) : list M → list Res → option A → Prop :=
| ran_nil : ran a [] [] a
| ran_snoc ms rs m r w w' n :
    ran a ms rs (act (impl w)) → handler m w = Return (r, w', n) →
    ran a (ms ++ [m]) (rs ++ [r]) (act (impl w')).

(** The actor, which was [a], has handled [past] and answered [results]; [todo]
    is queued. *)
Record serving (a : option A) (todo past : list (M * Os)) (results : list Res) w : Prop := mkServing {
  serving_idle : idle w;
  serving_queue : UnsyncChannel.buffer (shared (get_chan w)) = envelope <$> todo;
  serving_pending : Forall (fun mo => pending mo.2 (env w)) todo;
  serving_answered : Forall2 (fun mo r => answered mo.2 r (env w)) past results;
  serving_ran : ran a (past.*1) results (act (impl w))
}.

Lemma idle_handled w w' :
  idle w → impl w' = set_act (act (impl w')) (impl w) → is_Some (act (impl w')) → idle w'.
Proof. intros [] Hi Ha. split; [done |..]; unfold get_chan; rewrite Hi; done. Qed.

Lemma answered_after mo r v (past : list (M * Os)) results :
  mo.2 ∉ past.*2 → Forall2 (fun mo r => answered mo.2 r v) past results →
  Forall2 (fun mo r => answered mo.2 r (os_send mo.2 r v).1) [mo] [r] →
  Forall2 (fun mo' r' => answered mo'.2 r' (os_send mo.2 r v).1) (past ++ [mo]) (results ++ [r]).
Proof.
  intros Hd Ha H1. apply Forall2_app; [| by inversion_clear H1; repeat constructor].
  apply Forall2_same_length_lookup in Ha as [Hlen Ha].
  apply Forall2_same_length_lookup. split; [done |]. intros i mo' r' Hm Hr'.
  apply send_keeps; [| by eapply Ha]. intros Heq. apply Hd. rewrite Heq.
  apply list_elem_of_fmap_2. by eapply list_elem_of_lookup_2.
Qed.

(** Opening one envelope. *)
Lemma open_one a mo todo past results w :
  serving a todo past results w → pending mo.2 (env w) →
  mo.2 ∉ (todo.*2) → mo.2 ∉ (past.*2) →
  ∃ r w' n, handle_unsync (envelope mo) w = Return ((), w', n) ∧
    serving a todo (past ++ [mo]) (results ++ [r]) w'.
Proof.
  intros [Hi Hq Hp Ha Hran] Hpend Ht Hd.
  destruct (handler_returns mo.1 w (idle_act _ Hi)) as (r & w1 & n1 & Hh & Himpl & Hact & Hk1 & Hk2).
  set (w2 := mkWorld (impl w1) (os_send mo.2 r (env w1)).1).
  exists r, w2, (n1 ++ (os_send mo.2 r (env w1)).2). split.
  - rewrite (opens _ w). unfold open_envelope, Envelope.handle.
    rewrite (prog_bind_assoc (gets _) _ _ w), prog_bind_gets. cbn [tx envelope pack rc_is_canceled oneshot_channel].
    rewrite (pending_canceled _ _ Hpend). cbn [msg envelope pack]. rewrite (prog_bind_assoc (handler _) _ _ w).
    rewrite (prog_bind_Return _ _ _ _ _ _ Hh). unfold respond_value, rc_send, oneshot_channel.
    unfold mbind, prog_bind; simpl. unfold w2.
    destruct (os_send _ _ _) as [v k]. simpl. by rewrite !app_nil_r.
  - assert (idle w1) as Hi1 by (by eapply idle_handled).
    assert (get_chan w2 = get_chan w) as Hchan.
    { unfold get_chan, w2; simpl. by rewrite Himpl. }
    split.
    + eapply idle_handled; [exact Hi1 | | done]. simpl. by destruct (impl w1).
    + by rewrite Hchan.
    + simpl. rewrite Forall_forall in *. intros mo' Hin. apply send_pending; [| by apply Hk1, Hp].
      intros Heq. apply Ht. rewrite Heq. by apply list_elem_of_fmap_2.
    + apply answered_after; [done | by eapply Forall2_impl; [exact Ha | intros; apply Hk2] |].
      repeat constructor. by apply send_answered, Hk1.
    + rewrite fmap_app. exact (ran_snoc _ _ _ _ _ _ _ _ Hran Hh).
Qed.

(** The channel is polled. *)
Abbreviation take := (poll_unsync (fun w : World => mailbox (impl w)) put_mailbox current).

Definition polled (b : list Env) (bs : list Task) (r : option Task) w : World :=
  put_parts (set_shared (mkShared b (capacity (shared (get_chan w))) bs r) (get_chan w)) (env w) w.

Lemma take_spec w :
  idle w →
  let s := shared (get_chan w) in
  take w =
  match UnsyncChannel.buffer s with
  | e :: rest => Return (Ok (Ready (Some e)),
      polled rest (tl (blocked_senders s)) (blocked_recv s) w, option_list (hd_error (blocked_senders s)))
  | [] => Return (Ok NotReady, polled [] (blocked_senders s) (Some current) w, [])
  end.
Proof.
  intros Hw. unfold poll_unsync, in_mailbox, on_unsync, rx_poll, unsync_receiver.
  fold (get_chan w). rewrite poll_spec. cbn zeta.
  rewrite (bool_decide_false (weak _ = 0%nat)) by apply Hw.
  by destruct (UnsyncChannel.buffer (shared (get_chan w))).
Qed.

Lemma idle_polled b bs r w : idle w → idle (polled b bs r w).
Proof. intros Hw. apply idle_put_parts; [done | apply Hw | apply Hw]. Qed.

Section turn.
Context (a : option A) (reqs : list (M * Os)) (distinct : NoDup (reqs.*2)).

(** The states on the way: [es] is queued, [l] was handled; and in between, when
    [e] was taken out of the queue. *)
Definition on_the_way (es l : list Env) w : Prop :=
  ∃ past todo results, es = envelope <$> todo ∧ l = envelope <$> past ∧ past ++ todo = reqs ∧
    serving a todo past results w.
Definition opening (e : Env) (es l : list Env) w : Prop :=
  ∃ past mo todo results, e = envelope mo ∧ es = envelope <$> todo ∧ l = envelope <$> past ∧
    past ++ mo :: todo = reqs ∧ pending mo.2 (env w) ∧ serving a todo past results w.

Lemma way_idle es l w : on_the_way es l w → idle w.
Proof. intros (past & todo & results & _ & _ & _ & Hs). apply Hs. Qed.

Lemma way_waiting es l w : on_the_way es l w → waiting (impl w) = false.
Proof. intros Hw. by eapply idle_waiting, way_idle. Qed.

Lemma way_cons e es l w :
  on_the_way (e :: es) l w →
  ∃ w' n, take w = Return (Ok (Ready (Some e)), w', n) ∧ opening e es l w'.
Proof.
  intros (past & [|mo todo] & results & He & -> & Heq & [Hi Hq Hp Ha Hran]); [done |].
  injection He as -> ->. pose proof (take_spec w Hi) as Ht; cbn zeta in Ht. rewrite Hq in Ht.
  eexists _, _. split; [exact Ht |]. apply Forall_cons in Hp as [Hp1 Hp].
  exists past, mo, todo, results. split_and!; try reflexivity; try done.
  split; try done. by apply idle_polled.
Qed.

Lemma way_nil l w :
  on_the_way [] l w →
  ∃ x w' n, take w = Return (x, w', n) ∧ no_data x ∧ on_the_way [] l w'.
Proof.
  intros (past & [|mo todo] & results & He & -> & Heq & [Hi Hq Hp Ha Hran]); [| done].
  pose proof (take_spec w Hi) as Ht; cbn zeta in Ht. rewrite Hq in Ht.
  eexists _, _, _. split; [exact Ht |]. split; [exact I |].
  exists past, [], results. split_and!; try reflexivity; try done.
  split; try done. by apply idle_polled.
Qed.

Lemma way_handle e es l w :
  opening e es l w →
  ∃ w' n, handle_unsync e w = Return ((), w', n) ∧ on_the_way es (l ++ [e]) w'.
Proof.
  intros (past & mo & todo & results & -> & -> & -> & Heq & Hp & Hs).
  pose proof distinct as Hnd. rewrite <- Heq, fmap_app in Hnd. simpl in Hnd.
  apply NoDup_app in Hnd as (_ & Hd & [Ht _]%NoDup_cons).
  destruct (open_one a mo todo past results w Hs Hp Ht) as (r & w' & n & Hh & Hs').
  { intros Hin. apply (Hd _ Hin). by left. }
  exists w', n. split; [done |]. exists (past ++ [mo]), todo, (results ++ [r]).
  split_and!; [done | by rewrite fmap_app | by rewrite <- app_assoc | done].
Qed.

(** One loop of [Mailbox::poll], and the whole of it. *)
Lemma way_drain fuel n es l w :
  on_the_way es l w → (length es < fuel)%nat →
  (debug = true → n + Z.of_nat (length es) < MAX_SYNC_POLLS) →
  ∃ n' w' t, drain_loop (fun w => waiting (impl w)) debug fuel take handle_unsync n true w =
      Return (Some (n', bool_decide (es = [])), w', t) ∧
    on_the_way [] (l ++ es) w' ∧ (debug = true → n' = n + Z.of_nat (length es)).
Proof.
  intros Hw Hf Hd.
  destruct (drain_plain (fun w => waiting (impl w)) debug take handle_unsync on_the_way opening
    (fun e => e) way_waiting way_cons way_nil way_handle fuel n true es l w Hw Hf Hd)
    as (n' & w' & t & Hr & Hw' & Hn).
  exists n', w', t. by rewrite list_fmap_id in Hw'.
Qed.

Lemma way_round fuel n es l w :
  on_the_way es l w → (length es < S fuel)%nat →
  (debug = true → n + Z.of_nat (length es) < MAX_SYNC_POLLS) →
  ∃ n' w' t, on_the_way [] (l ++ es) w' ∧ (debug = true → n' = n + Z.of_nat (length es)) ∧
    poll_loop (fun w => mailbox (impl w)) put_mailbox (fun w => waiting (impl w))
      handle_unsync handle_sync debug current (S fuel) n w =
    ('(x, s, t') ← (if bool_decide (es = []) then mret ()
       else poll_loop (fun w => mailbox (impl w)) put_mailbox (fun w => waiting (impl w))
              handle_unsync handle_sync debug current fuel n') w';
     Return (x, s, t ++ t')).
Proof.
  intros Hw Hf Hd. destruct (way_drain (S fuel) n es l w Hw Hf Hd) as (n' & w' & t & Hr & Hw' & Hn).
  exists n', w', t. split; [done |]. split; [done |].
  cbn -[Mailbox.drain_loop mbind]. rewrite (prog_bind_Return _ _ _ _ _ _ Hr).
  rewrite (prog_bind_quiet _ _ w' None w')
    by (unfold gets; by rewrite (idle_sync _ (way_idle _ _ _ Hw'))).
  rewrite (prog_bind_quiet _ _ w' (Some (n', bool_decide (es = []))) w') by done.
  by case_bool_decide.
Qed.

Lemma way_mailbox :
  (debug = true → Z.of_nat (length reqs) < MAX_SYNC_POLLS) → ∀ fuel w,
  on_the_way (envelope <$> reqs) [] w → (S (length reqs) < fuel)%nat →
  ∃ w' t, mailbox_poll debug current fuel w = Return ((), w', t) ∧
    on_the_way [] (envelope <$> reqs) w'.
Proof.
  intros Hd [|[|fuel]] w Hw Hf; [lia | lia |]. unfold mailbox_poll, Mailbox.poll.
  destruct (way_round (S fuel) 0 _ _ w Hw) as (n1 & w1 & t1 & Hw1 & Hn1 & ->);
    [rewrite length_fmap; lia | intros Hdb; rewrite length_fmap; by apply Hd |].
  simpl in Hw1. case_bool_decide; [by eexists _, _ |].
  destruct (way_round fuel n1 _ _ w1 Hw1) as (n2 & w2 & t2 & Hw2 & _ & ->); [simpl; lia | |].
  { intros Hdb. rewrite (Hn1 Hdb), length_fmap. specialize (Hd Hdb). simpl. lia. }
  rewrite bool_decide_true by done. rewrite app_nil_r in Hw2. by eexists _, _.
Qed.
End turn.

Lemma idle_alive w : idle w → alive (impl w) = true.
Proof.
  intros Hw. unfold alive. rewrite (idle_stopping _ Hw). unfold connected, mailbox_connected.
  by rewrite bool_decide_true by apply Hw.
Qed.

Definition rested w : World := mkWorld (set_curr_handle default_handle (impl w)) (env w).

Lemma idle_rested w : idle w → idle (rested w).
Proof. by intros []. Qed.

Lemma finish_idle w : idle w → finish w = Return (Some (Ok NotReady), rested w, []).
Proof.
  intros Hw%idle_rested. unfold finish. rewrite (prog_bind_quiet _ _ w () (rested w)) by done.
  rewrite (prog_bind_quiet _ _ _ (impl (rested w)) (rested w)) by done.
  by rewrite (idle_flags _ Hw), (idle_alive _ Hw).
Qed.

(** [ContextImpl::poll] of an idle actor: with no futures to poll, it empties
    the mailbox. *)
Lemma outer_spec fuel w w' t :
  idle w → mailbox_poll debug current (S fuel) w = Return ((), w', t) → idle w' →
  ContextImpl.poll debug current (S fuel) w = Return (Ok NotReady, rested w', t).
Proof.
  intros Hw Hm Hw'. destruct (idle_act _ Hw) as [a Ha]. unfold ContextImpl.poll.
  rewrite (prog_bind_quiet _ _ w (impl w) w), Ha, (idle_flags _ Hw) by done. simpl flags_contains.
  rewrite (prog_bind_quiet _ _ w () w) by done. cbn -[mbind mailbox_poll items_loop wait_loop].
  assert (on_impl (fun c => set_flags (flags_remove (flags c) MODIFIED) c) w = Return ((), w, [])) as Hf.
  { unfold on_impl, modify.
    replace (set_flags _ _) with (impl w); [by destruct w |].
    pose proof (idle_flags _ Hw). destruct w as [[] ?]; simpl in *. by subst. }
  rewrite (prog_bind_quiet _ _ _ _ _ Hf).
  rewrite (prog_bind_quiet (wait_loop (S fuel)) _ w false w)
    by (cbn; unfold mbind, prog_bind; simpl; by rewrite (idle_wait _ Hw)).
  rewrite (prog_bind_Return _ _ _ _ _ _ Hm), (prog_bind_quiet _ _ w' (impl w') w') by done.
  rewrite (idle_must_wait _ Hw').
  rewrite (prog_bind_quiet (items_loop (S fuel) 0) _ w' Done w')
    by (cbn; unfold mbind, prog_bind; simpl; by rewrite (idle_items _ Hw')).
  rewrite (prog_bind_quiet _ _ _ _ _ (finish_idle _ Hw')). simpl. by rewrite app_nil_r.
Qed.

(** ** Receiving *)

Lemma put_same w v : put_parts (get_chan w) v w = mkWorld (impl w) v.
Proof. by destruct w as [[? ? [] ? ? ? ?] ?]. Qed.

Lemma receive_one mo r w :
  answered mo.2 r (env w) →
  ∃ v n, receive mo.2 (request_of mo) w = Return (Ok (Ready r), mkWorld (impl w) v, n) ∧
    ∀ o r', mo.2 ≠ o → answered o r' (env w) → answered o r' v.
Proof.
  intros Ha. destruct (poll_answered _ _ _ Ha) as (v & n & Hp & Hk). exists v, n. split; [| done].
  assert (request_poll os_poll (fun _ => mret (Ok NotReady)) asker (mo.2, mo.2) (request_of mo)
    (get_chan w, env w) = Return ((Ok (Ready r), request_new None None), (get_chan w, v), n)) as Hq.
  { unfold request_poll. rewrite (prog_bind_quiet _ _ _ (None, request_of mo) (get_chan w, env w)) by done.
    unfold poll_result; simpl. unfold mbind, prog_bind; simpl. rewrite Hp; simpl.
    by rewrite app_nil_r. }
  rewrite <- (put_same w v). unfold receive, outside. unfold mbind at 1, prog_bind. rewrite Hq; simpl.
  by rewrite app_nil_r.
Qed.

Lemma receive_all_spec l rs w :
  NoDup (l.*2) → Forall2 (fun mo r => answered mo.2 r (env w)) l rs →
  ∃ v n, receive_all l (request_of <$> l) w =
    Return ((fun r => Ok (Ready r)) <$> rs, mkWorld (impl w) v, n).
Proof.
  intros Hnd Ha. revert w Hnd Ha. induction l as [|mo l IH] in rs |- *; intros w Hnd Ha.
  - apply Forall2_nil_inv_l in Ha as ->. exists (env w), []. by destruct w.
  - apply Forall2_cons_inv_l in Ha as (r & rs' & Hr & Ha & ->). simpl in Hnd.
    apply NoDup_cons in Hnd as [Hmo Hnd]. cbn [receive_all fmap list_fmap].
    destruct (receive_one mo r w Hr) as (v1 & n1 & H1 & Hk).
    destruct (IH rs' (mkWorld (impl w) v1) Hnd) as (v2 & n2 & H2).
    { apply Forall2_same_length_lookup in Ha as [Hlen Ha].
      apply Forall2_same_length_lookup. split; [done |]. intros i mo' r' Hm Hr'. apply Hk; [| by eapply Ha].
      intros Heq. apply Hmo. rewrite Heq. apply list_elem_of_fmap_2. by eapply list_elem_of_lookup_2. }
    rewrite (prog_bind_Return _ _ _ _ _ _ H1), (prog_bind_Return _ _ _ _ _ _ H2). by eexists _, _.
Qed.

(** ** The session *)

(** C1: a session terminates, and each request polled after it is ready with
    what the handler returned for its message. *)
Theorem session_answers l (ad : Addr) w :
  idle w → UnsyncChannel.buffer (shared (get_chan w)) = [] → room (length l) (get_chan w) →
  NoDup (l.*2) → Forall (fun mo => pending mo.2 (env w)) l →
  (debug = true → Z.of_nat (length l) < MAX_SYNC_POLLS) →
  ∃ results w' n,
    (fun fuel => session fuel l ad w) ⇓ ((fun r => Ok (Ready r)) <$> results, w', n) ∧
    ran (act (impl w)) (l.*1) results (act (impl w')) ∧
    idle w' ∧ UnsyncChannel.buffer (shared (get_chan w')) = [].
Proof.
  intros Hw Hb Hr Hnd Hp Hd.
  destruct (ask_all_spec l ad w (idle_strong _ Hw) Hr) as (c & n1 & Hask & Hc & Hs1 & Hs2).
  rewrite Hb in Hc. set (w1 := put_parts c (env w) w) in *.
  assert (idle w1) as Hw1 by (apply idle_put_parts; [done | done | rewrite Hs2; apply Hw]).
  assert (on_the_way (act (impl w)) l (envelope <$> l) [] w1) as Hway.
  { exists [], l, []. split_and!; [done.. |]. split; try done. constructor. }
  destruct (way_mailbox _ l Hnd Hd _ w1 Hway (Nat.lt_succ_diag_r _)) as (w2 & n2 & Hm & Hway2).
  assert ((fun fuel => mailbox_poll debug current fuel w1) ⇓ ((), w2, n2)) as [N HN].
  { eapply returns_mono; [| exact Hm]. intros k1 k2 Hk. by apply poll_mono_fuel. }
  pose proof (way_idle _ _ _ _ _ Hway2) as Hw2.
  destruct Hway2 as (past & todo & results & Ht & _ & Hl & [_ Hq _ Ha Hran]).
  symmetry in Ht. apply fmap_nil_inv in Ht as ->. rewrite app_nil_r in Hl. subst past.
  destruct (receive_all_spec l results (rested w2) Hnd Ha) as (v & n3 & Hrec).
  exists results, (mkWorld (impl (rested w2)) v). eexists. split.
  - exists (S N). intros [|fuel] Hf; [lia |]. unfold session.
    rewrite (prog_bind_Return _ _ _ _ _ _ Hask).
    rewrite (prog_bind_Return _ _ _ _ _ _ (outer_spec fuel _ _ _ Hw1 (HN (S fuel) ltac:(lia)) Hw2)).
    rewrite Hrec. done.
  - split_and!; [done | | done]. destruct Hw2. by split.
Qed.
End ask.

(** ** Witness *)

Section witness.

(** The actor of [examples/ping.rs], in a build with or without overflow checks:
    it adds the number in each [Ping] to its count and answers with the count. *)
Abbreviation PingWorld := (@World Z (gmap nat Z) () Z () nat nat Queue).
Definition ping_handle (checks : bool) (m : Z) : Prog PingWorld nat Z :=
  w ← get_state;
  count ← lift (unwrap "no actor" (act (impl w)));
  count ← lift (uint_add checks 64 count m);
  _ ← put_state (mkWorld (set_act (Some count) (impl w)) (env w));
  mret count.

#[local] Instance ping_actor : ActorCode (A := Z) (V := gmap nat Z) (Fut := ()) (M := Z) (Txs := ())
    (Txu := nat) (Task := nat) (Q := Queue) := {|
  started := mret ();
  stopping := mret Stop;
  stopped := mret ();
  restarting := mret ();
  handle_unsync e := _ ← open_envelope (ping_handle false) respond_value e; mret ();
  handle_sync _ := mret ();
  fut_poll f := mret (f, Ok NotReady)
|}.

Definition ping_world : PingWorld :=
  mkWorld (mkContext (Some 10) (Z.lor RUNNING STARTED)
    (mkMailbox None (mkChan true 1 (mkShared [] 16 [] None))) [] [] 0 0) ∅.

(** What the example prints: the answer to [Ping(10)] is 20. *)
Example session_pings :
  match session true 0%nat 1%nat 5 [(10, 0%nat); (2 ^ 64 - 1, 1%nat)] (mkAddr ()) ping_world with
  | Return (answers, w, _) => answers = [Ok (Ready 20); Ok (Ready 19)] ∧ act (impl w) = Some 19
  | _ => False
  end.
Proof. vm_compute. by split. Qed.

Lemma session_answers_witness :
  ∃ results w' n,
    (fun fuel => session true 0%nat 1%nat fuel [(10, 0%nat); (7, 1%nat)] (mkAddr ()) ping_world)
      ⇓ ((fun r => Ok (Ready r)) <$> results, w', n) ∧
    ran (ping_handle false) (Some 10) [10; 7] results (act (impl w')).
Proof.
  assert (∀ m w, is_Some (act (impl w)) → ∃ r w' n,
    ping_handle false m w = Return (r, w', n) ∧ impl w' = set_act (act (impl w')) (impl w) ∧
    is_Some (act (impl w')) ∧ keeps_oneshots w w') as Hret.
  { intros m w [count Hc]. eexists _, _, _. split.
    - unfold ping_handle, get_state, put_state, lift, mbind, prog_bind. simpl. rewrite Hc. reflexivity.
    - split_and!; [done | by eexists |]. by split. }
  assert (idle ping_world) as Hidle by (by split; [eexists | ..]).
  assert (∀ e : Envelope Z nat, handle_unsync e ≡ₘ
    (_ ← open_envelope (ping_handle false) respond_value e; mret ())) as Hopens by done.
  destruct (session_answers (ping_handle false) Hopens Hret true 0%nat 1%nat
    [(10, 0%nat); (7, 1%nat)] (mkAddr ()) ping_world Hidle eq_refl) as (rs & w' & n & H1 & H2 & _).
  - right. vm_compute. lia.
  - apply (bool_decide_unpack _). reflexivity.
  - repeat constructor.
  - intros _. reflexivity.
  - by exists rs, w', n.
Defined.
End witness.
