(* ===== verification/SupervisedSession.v ===== *)
(** * Asking a supervised actor

    Requests are sent to an actor whose handlers may stop its context, the
    supervisor is polled, and then the requests are polled: [EndToEnd] and
    [SupervisorRuns] together.  Every request is answered. *)

From S2P Require Import Prelude.
From S2P Require Import Queue.
From S2P Require Import Envelope.
From S2P Require Import UnsyncChannel.
From S2P Require Import SyncChannel.
From S2P Require Import Request.
From S2P Require Import Address.
From S2P Require Import Mailbox.
From S2P Require Import MailboxProps.
From S2P Require Import ContextImpl.
From S2P Require Import Handler.
From S2P Require Import Supervisor.
From S2P Require Import SupervisorRuns.
From S2P Require Import Oneshot.
From S2P Require Import EndToEnd.

Section supervised.
Context {A V Fut M Res Os Txs Task : Type} {Q : Type → Type} `{!MpscQueue Q}.
Context `{!Oneshots Os Res V Task}.
Abbreviation World := (@World A V Fut M Txs Os Task Q).
Abbreviation UEnv := (Envelope M Os).
Abbreviation Log := (list ((UEnv + Envelope M Txs) * bool)).
Implicit Types (w : World) (v : V) (l : Log).
Context `{!ActorCode (A := A) (V := V) (Fut := Fut) (M := M) (Txs := Txs) (Txu := Os) (Task := Task) (Q := Q)}.

(** The handler returns a result that is [ok] for its message.  It may stop the
    context; the other code of the actor does not, and nothing but opening an
    envelope sends on a oneshot channel. *)
Context (handler : M → Prog World Task Res) (ok : M → Res → Prop).
Context (opens : ∀ e, handle_unsync e ≡ₘ (_ ← open_envelope handler respond_value e; mret ())).
Context (handler_gives : ∀ m w, is_Some (act (impl w)) → gives (handler m) w (fun r w' =>
  (∃ b, only_stops b w w') ∧ keeps_oneshots w w' ∧ ok m r)).
Context (sync_gives : ∀ e w, is_Some (act (impl w)) → gives (handle_sync e) w (fun _ w' =>
  (∃ b, only_stops b w w') ∧ keeps_oneshots w w')).
Context (quiet : ∀ w, is_Some (act (impl w)) →
  gives started w (fun _ w' => only_stops false w w' ∧ keeps_oneshots w w') ∧
  gives stopping w (fun _ w' => only_stops false w w' ∧ keeps_oneshots w w') ∧
  gives stopped w (fun _ w' => only_stops false w w' ∧ keeps_oneshots w w') ∧
  gives restarting w (fun _ w' => only_stops false w w' ∧ keeps_oneshots w w')).

(** ** What is known of the oneshot channels after a run *)

Definition sender_of (p : (UEnv + Envelope M Txs) * bool) : option Os :=
  match p.1 with inl e => tx e | inr _ => None end.
Definition senders l : list Os := omap sender_of l.

(** The channels of the envelopes that were handled are answered, if they were
    different and nothing was sent on them, and the others are kept. *)
Record answers l (n : nat) v v' : Prop := mkAnswers {
  answers_pending o : o ∉ senders l → pending o v → pending o v';
  answers_kept o r : o ∉ senders l → answered o r v → answered o r v';
  answers_all m o b : NoDup (senders l) → Forall (fun o => pending o v) (senders l) →
    (inl (pack m (Some o)), b) ∈ l → ∃ r, ok m r ∧ answered o r v'
}.

Lemma answers_nothing l n v v' :
  senders l = [] → (∀ o, pending o v → pending o v') → (∀ o r, answered o r v → answered o r v') →
  answers l n v v'.
Proof.
  intros Hl Hp Ha. split; [auto | auto |]. intros m o b _ _ Hin. exfalso.
  assert (o ∈ senders l) as Ho by (apply list_elem_of_omap; by exists (inl (pack m (Some o)), b)).
  rewrite Hl in Ho. by apply not_elem_of_nil in Ho.
Qed.

Lemma answers_trans l1 n1 l2 n2 v1 v2 v3 :
  answers l1 n1 v1 v2 → answers l2 n2 v2 v3 → answers (l1 ++ l2) (n1 + n2) v1 v3.
Proof.
  intros [Hp1 Hk1 Ha1] [Hp2 Hk2 Ha2].
  assert (senders (l1 ++ l2) = senders l1 ++ senders l2) as Happ by apply omap_app.
  split; rewrite Happ.
  - intros o [H1 H2]%not_elem_of_app. auto.
  - intros o r [H1 H2]%not_elem_of_app. auto.
  - intros m o b (Hnd1 & Hd & Hnd2)%NoDup_app [Hf1 Hf2]%Forall_app [Hin|Hin]%elem_of_app.
    + destruct (Ha1 _ _ _ Hnd1 Hf1 Hin) as (r & Hr & Ha). exists r. split; [done |].
      apply Hk2; [| done]. apply Hd, list_elem_of_omap. by exists (inl (pack m (Some o)), b).
    + apply (Ha2 _ _ _ Hnd2) in Hin; [done |]. rewrite Forall_forall in *.
      intros x Hx. apply Hp1; [| by apply Hf2]. intros Hx1. by apply (Hd x).
Qed.

Lemma answers_one e b v v' :
  (∀ o, tx e ≠ Some o → pending o v → pending o v') →
  (∀ o r, tx e ≠ Some o → answered o r v → answered o r v') →
  (∀ m o, e = pack m (Some o) → pending o v → ∃ r, ok m r ∧ answered o r v') →
  answers [(inl e, b)] 0 v v'.
Proof.
  intros Hp Ha Hr.
  assert (∀ o, o ∉ senders [(inl e, b)] → tx e ≠ Some o) as Hno.
  { intros o Ho Htx. apply Ho, list_elem_of_omap. exists (inl e, b). by split; [left |]. }
  split; [auto | auto |]. intros m o b' _ Hf [= He _]%list_elem_of_singleton. rewrite Forall_forall in Hf.
  subst e. apply Hr; [done |]. apply Hf. by left.
Qed.

(** Opening one envelope. *)
Lemma opening_answers e w :
  is_Some (act (impl w)) →
  gives (handle_unsync e) w (fun _ w' => ∃ b, only_stops b w w' ∧ answers [(inl e, b)] 0 (env w) (env w')).
Proof.
  intros Hact. unfold gives. rewrite (opens e w).
  eapply gives_bind; [| intros x w' Hx; apply gives_ret; exact Hx].
  assert (only_stops false w w) as Hstill by (split; [done | by destruct w as [[] ?]]).
  unfold open_envelope, Envelope.handle. unfold gives. rewrite prog_bind_gets.
  destruct e as [[m|] t]; cbn [msg tx]; cycle 1.
  { destruct (match t with Some _ => _ | None => _ end); apply gives_ret; exists false;
      (split; [done |]); by apply answers_one. }
  destruct t as [o|]; [destruct (rc_is_canceled o w) eqn:Hc |].
  { apply gives_ret. exists false. split; [done |]. apply answers_one; [done | done |].
    intros ? ? [= -> ->] Hp%pending_canceled. simpl in Hc. by rewrite Hp in Hc. }
  all: eapply gives_bind; [by apply handler_gives |]; intros r w1 ((b & Hb) & [Hk1 Hk2] & Hok).
  - unfold respond_value; simpl. destruct (os_send o r (env w1)) as [v k] eqn:Hs.
    assert (v = (os_send o r (env w1)).1) as Hv by by rewrite Hs.
    eexists _, (mkWorld (impl w1) v), _. split; [unfold mbind, prog_bind; simpl; by rewrite Hs |].
    exists b. split; [exact Hb |]. apply answers_one; simpl; rewrite Hv.
    + intros o' Ho' Hp. apply send_pending; [congruence | by apply Hk1].
    + intros o' r' Ho' Ha. apply send_keeps; [congruence | by apply Hk2].
    + intros ? ? [= -> ->] Hp. exists r. split; [done |]. by apply send_answered, Hk1.
  - apply (gives_step _ _ _ () w1); [done |]. apply gives_ret. exists b. split; [exact Hb |].
    apply answers_one; [by intros; apply Hk1 | by intros; apply Hk2 | done].
Qed.

Lemma answers_supervisable : Supervisable answers.
Proof.
  assert (∀ n (m : Prog World Task ()) w,
    gives m w (fun _ w' => only_stops false w w' ∧ keeps_oneshots w w') →
    gives m w (fun _ w' => only_stops false w w' ∧ answers [] n (env w) (env w'))) as Hq.
  { intros n m w Hm. eapply gives_conseq; [exact Hm |]. intros ? w' [Hs [Hk1 Hk2]].
    split; [done |]. by apply answers_nothing. }
  split; unfold records.
  - intros v. by apply answers_nothing.
  - exact answers_trans.
  - intros w Hw. apply Hq, quiet, Hw.
  - intros w Hw. eapply gives_conseq; [apply quiet, Hw |]. intros ? w' [Hs [Hk1 Hk2]].
    split; [done |]. by apply answers_nothing.
  - intros w Hw. apply Hq, quiet, Hw.
  - intros w Hw. apply Hq, quiet, Hw.
  - exact opening_answers.
  - intros e w Hw. eapply gives_conseq; [apply sync_gives, Hw |]. intros ? w' [[b Hs] [Hk1 Hk2]].
    exists b. split; [done |]. by apply answers_nothing.
Qed.

(** ** The session *)

Context (debug : bool) (current asker : Task).

(** Requests for the messages [reqs] are sent, the supervisor is polled once, all
    requests are polled. *)
Definition supervised_session (fuel : nat) (reqs : list (M * Os)) (a : Addr)
    : Prog World Task (list (Poll Res MailboxError)) :=
  rs ← ask_all asker reqs a; _ ← supervisor_poll debug current fuel; receive_all asker reqs rs.

Lemma asked_on_duty reqs (a : Addr) w :
  on_duty [] [] w → running (impl w) → room (length reqs) (get_chan w) →
  ∃ w1 n, ask_all asker reqs a w = Return (request_of <$> reqs, w1, n) ∧
    on_duty (envelope <$> reqs) [] w1 ∧ running (impl w1) ∧ env w1 = env w.
Proof.
  intros [Ha Hw Hi [[Hs Hb] Hss] Hc] Hrun Hr.
  destruct (ask_all_spec asker reqs a w Hs Hr) as (c & n & Hask & Hcb & Hcs & Hcw).
  exists (put_parts c (env w) w), n. split; [exact Hask |]. split; [| done].
  change (UnsyncChannel.buffer (shared (get_chan w)) = []) in Hb. rewrite Hb in Hcb.
  split; try done. unfold connected, mailbox_connected in *. simpl. by rewrite Hcw.
Qed.

Lemma senders_asked (reqs : list (M * Os)) l :
  l.*1 = round (envelope <$> reqs) [] → senders l = reqs.*2.
Proof.
  unfold round. rewrite app_nil_r. revert reqs.
  induction l as [|[e b] l IH]; intros [|mo reqs]; try done. intros [= -> Hl].
  change (mo.2 :: senders l = mo.2 :: reqs.*2). f_equal. by apply IH.
Qed.

Lemma results_of (reqs : list (M * Os)) v :
  Forall (fun mo => ∃ r, ok mo.1 r ∧ answered mo.2 r v) reqs →
  ∃ rs, Forall2 (fun mo r => ok mo.1 r) reqs rs ∧ Forall2 (fun mo r => answered mo.2 r v) reqs rs.
Proof.
  induction 1 as [|mo reqs (r & Hr & Ha) _ (rs & Hrs & Has)]; [by exists [] |].
  exists (r :: rs). by split; constructor.
Qed.

Lemma handled_answered (reqs : list (M * Os)) l n v v' :
  answers l n v v' → l.*1 = round (envelope <$> reqs) [] →
  NoDup (reqs.*2) → Forall (fun mo => pending mo.2 v) reqs →
  Forall (fun mo => ∃ r, ok mo.1 r ∧ answered mo.2 r v') reqs.
Proof.
  intros [_ _ Ha] Hl Hnd Hp. pose proof (senders_asked _ _ Hl) as Hs. rewrite Hs in Ha.
  apply Forall_forall. intros mo Hmo.
  assert (inl (envelope mo) ∈ l.*1) as ([e b] & He & Hin)%list_elem_of_fmap.
  { rewrite Hl. unfold round. rewrite app_nil_r. by apply list_elem_of_fmap_2, list_elem_of_fmap_2. }
  simpl in He. subst e. apply (Ha mo.1 mo.2 b); [done | | done]. by apply Forall_fmap.
Qed.

(** C2: a supervised actor answers every request, however often its
    handlers stop it: the session terminates, each request is ready with a result
    that is [ok] for its message, and the actor is alive and waits. *)
Theorem supervised_session_answers reqs (a : Addr) w :
  on_duty [] [] w → running (impl w) → room (length reqs) (get_chan w) →
  NoDup (reqs.*2) → Forall (fun mo => pending mo.2 (env w)) reqs →
  (debug = true → Z.of_nat (length reqs) < MAX_SYNC_POLLS) →
  ∃ results w' n,
    (fun fuel => supervised_session fuel reqs a w) ⇓ ((fun r => Ok (Ready r)) <$> results, w', n) ∧
    Forall2 (fun mo r => ok mo.1 r) reqs results ∧ on_duty [] [] w' ∧ state (impl w') = ARunning.
Proof.
  intros Hd Hrun Hr Hnd Hp Hdb.
  destruct (asked_on_duty reqs a w Hd Hrun Hr) as (w1 & n1 & Hask & Hd1 & Hrun1 & He1).
  destruct (supervisor_handles answers answers_supervisable debug current _ _ w1 Hd1 Hrun1)
    as (w2 & n2 & [N HN] & l & n & _ & Hl & Hrec & _ & _ & Hd2 & Hf2).
  { intros E. rewrite length_fmap. simpl. specialize (Hdb E). lia. }
  unfold records in Hrec. rewrite He1 in Hrec.
  destruct (results_of _ _ (handled_answered reqs _ _ _ _ Hrec Hl Hnd Hp)) as (rs & Hok & Hans).
  destruct (receive_all_spec asker reqs rs w2 Hnd Hans) as (v & n3 & Hres).
  exists rs, (mkWorld (impl w2) v). eexists. split.
  - exists N. intros fuel Hfuel. unfold supervised_session.
    rewrite (prog_bind_Return _ _ _ _ _ _ Hask), (prog_bind_Return _ _ _ _ _ _ (HN fuel Hfuel)), Hres.
    done.
  - split; [exact Hok |]. split; [by destruct Hd2 |]. unfold state. simpl. by rewrite Hf2.
Qed.
End supervised.

(** ** Witness *)

Section witness.
Abbreviation EWorld := (@World Z (gmap nat Z) () Z () nat nat Queue).

(** An actor that stops itself in every message, which it answers with the
    message; it counts its restarts. *)
Definition echo_handle (m : Z) : Prog EWorld nat Z := _ ← on_impl stop; mret m.

#[local] Instance echo_actor : ActorCode (A := Z) (V := gmap nat Z) (Fut := ()) (M := Z) (Txs := ())
    (Txu := nat) (Task := nat) (Q := Queue) := {|
  started := mret ();
  stopping := mret Stop;
  stopped := mret ();
  restarting := modify (fun w => mkWorld (set_act (Z.succ <$> act (impl w)) (impl w)) (env w));
  handle_unsync e := _ ← open_envelope echo_handle respond_value e; mret ();
  handle_sync _ := mret ();
  fut_poll f := mret (f, Ok NotReady)
|}.

Definition echo_world : EWorld :=
  mkWorld (mkContext (Some 0) RUNNING (mkMailbox None (mkChan true 1 (mkShared [] 16 [] None))) [] [] 0 0) ∅.

(** Three requests, three deaths, three answers. *)
Example supervised_session_echoes :
  match supervised_session true 0%nat 1%nat 9 [(10, 0%nat); (7, 1%nat); (5, 2%nat)] (mkAddr ()) echo_world with
  | Return (answers, w, _) =>
      answers = [Ok (Ready 10); Ok (Ready 7); Ok (Ready 5)] ∧ act (impl w) = Some 3
  | _ => False
  end.
Proof. vm_compute. by split. Qed.

Lemma supervised_session_answers_witness :
  ∃ w' n,
    (fun fuel => supervised_session true 0%nat 1%nat fuel [(10, 0%nat); (7, 1%nat)] (mkAddr ()) echo_world)
      ⇓ ([Ok (Ready 10); Ok (Ready 7)], w', n) ∧ state (impl w') = ARunning.
Proof.
  assert (∀ e : Envelope Z nat, handle_unsync e ≡ₘ
    (_ ← open_envelope echo_handle respond_value e; mret ())) as Hopens by done.
  destruct (supervised_session_answers echo_handle (fun m r => r = m) Hopens) with
    (debug := true) (current := 0%nat) (asker := 1%nat) (reqs := [(10, 0%nat); (7, 1%nat)])
    (a := mkAddr ()) (w := echo_world) as (rs & w' & n & Hr & Hok & _ & Hs).
  - intros m w Ha. eexists _, _, _. split; [reflexivity |]. split; [| by split].
    exists true. split; simpl; [by rewrite act_stop | by rewrite set_act_same].
  - intros e w Ha. eexists _, _, _. split; [reflexivity |]. split; [| by split].
    exists false. by split; simpl; rewrite ?set_act_same.
  - intros w [z Hz]. split_and!; (eexists _, _, _; split; [reflexivity |]; split; [| by split]);
      split; simpl; rewrite ?set_act_same, ?Hz; try done.
  - split; [by eexists | done | done | by split | vm_compute; reflexivity].
  - exists RUNNING. by split; [| left].
  - right. vm_compute. lia.
  - apply (bool_decide_unpack _). reflexivity.
  - repeat constructor.
  - intros _. reflexivity.
  - exists w', n. split; [| exact Hs].
    apply Forall2_cons_inv_l in Hok as (r1 & rs1 & -> & Hok & ->).
    apply Forall2_cons_inv_l in Hok as (r2 & rs2 & -> & Hok & ->).
    apply Forall2_nil_inv_l in Hok as ->. exact Hr.
Defined.
End witness.
