(* ===== verification/Tests.v ===== *)
(** * The repository's own tests, run on the model

    Each definition is one of the tests of [tests/*.rs] or of the [tests] modules
    of the two channels: the same calls in the same order on the definitions of
    this development, with the event loop and the timers of the test written out
    as the polls they cause.  The [Example] after it evaluates the test; what the
    [assert]s of the test compare is the result it states. *)

From S2P Require Import Prelude.
From S2P Require Import Queue.
From S2P Require Import SyncArbiter.
From S2P Require Import Envelope.
From S2P Require Import UnsyncChannel.
From S2P Require Import SyncChannel.
From S2P Require Import Mailbox.
From S2P Require Import ContextImpl.
From S2P Require Import ContextTermination.
From S2P Require Import Supervisor.
From S2P Require Import Address.
From S2P Require Import ActorAddress.
From S2P Require Import Fut.
From S2P Require Import AsyncContext.
From S2P Require Import Request.
From S2P Require Import Handler.

(** The tests are run by [cargo test], in a debug build. *)
#[local] Instance test_build : Build := true.

(** ** [test_cap] of the single-threaded channel

    The capacity, then the lengths of the buffer and of the list of blocked
    senders at each [assert_eq]. *)
Section unsync_test_cap.
Abbreviation Chan := (@Chan () nat nat).
Abbreviation P := (Prog Chan nat).

Definition buffered : P nat := gets (fun c => length (UnsyncChannel.buffer (shared c))).
Definition blocked : P nat := gets (fun c => length (blocked_senders (shared c))).
Definition send_ping : P () := _ ← UnsyncChannel.send 1%nat (0, 0)%nat (); mret ().

Definition unsync_test_cap : P (list nat) :=
  c0 ← UnsyncChannel.get_capacity;
  _ ← UnsyncChannel.sender;
  _ ← UnsyncChannel.sender;
  _ ← send_ping;
  n1 ← buffered;
  _ ← send_ping;
  n2 ← buffered; b2 ← blocked;
  _ ← UnsyncChannel.set_capacity 10;
  n3 ← buffered; b3 ← blocked;
  _ ← send_ping;
  n4 ← buffered;
  mret [c0; n1; n2; b2; n3; b3; n4].

Definition outcome_of {W T X} (m : Exec (X * W * list T)) : option X :=
  match m with Return (x, _, _) => Some x | _ => None end.

Example unsync_test_cap_passes :
  outcome_of (unsync_test_cap (UnsyncChannel.new 1)) = Some [1; 1; 1; 1; 1; 0; 2]%nat.
Proof. reflexivity. Qed.
End unsync_test_cap.

(** ** [test_cap] of the thread-safe channel

    The threads take turns as the sleeps of the test make them; each sender is
    dropped with the closure that sent through it. *)
Section sync_test_cap.
Abbreviation P := (Prog (@Inner () nat nat Queue) nat).

Definition ping_from (s : SyncAddressSender) : P () :=
  _ ← SyncChannel.send 1%nat (0, 0)%nat () s; SyncChannel.sender_drop.
Definition messages_counted : P Z := gets (fun i => num_messages (decode_state (SyncChannel.state i))).

(** The loop that pops the parked queue. *)
Fixpoint pop_until (fuel : nat) : P (option task_ptr) :=
  match fuel with
  | O => lift OutOfFuel
  | S fuel =>
      r ← pop_parked;
      match r with
      | Data task => mret (Some task)
      | Empty => mret None
      | Inconsistent => pop_until fuel
      end
  end.
Definition push_parked (t : task_ptr) : P () :=
  i ← get_state; q ← lift (q_push t (parked_queue i)); modify (set_parked_queue q).

Definition sync_test_cap (s1 : SyncAddressSender) : P (Z * bool * Z * bool) :=
  s2 ← SyncChannel.sender_clone;
  _ ← ping_from s1;
  _ ← ping_from s2;
  n1 ← messages_counted;
  p1 ← pop_until 9;
  _ ← match p1 with Some t => push_parked t | None => mret () end;
  _ ← SyncChannel.set_capacity 9 10;
  n2 ← messages_counted;
  p2 ← pop_until 9;
  mret (n1, bool_decide (is_Some p1), n2, bool_decide (is_Some p2)).

Example sync_test_cap_passes :
  ('(s1, recv) ← SyncChannel.channel 1; '(x, _, _) ← sync_test_cap s1 recv; Return x) =
  Return (1, true, 1, false).
Proof. vm_compute. reflexivity. Qed.
End sync_test_cap.

(** ** [tests/test_lifecycle.rs]

    The actor sets a flag in each method of its life cycle.  With
    [restore_after_stop] it spawns the receiver of a oneshot channel in
    [stopping], keeps the sender ([temp]) and asks to continue. *)
Module Lifecycle.
Record MyActor : Type := mkMyActor { restore_after_stop : bool; temp : bool }.
Record Flags : Type := mkFlags { f_started : bool; f_stopping : bool; f_stopped : bool }.
Abbreviation LWorld := (@World MyActor Flags () () nat nat nat Queue).
Abbreviation P := (Prog LWorld nat).

Definition store (f : Flags → Flags) : P () := modify (fun w => mkWorld (impl w) (f (env w))).
Definition lifecycle_stopping : P Running :=
  _ ← store (fun v => mkFlags (f_started v) true (f_stopped v));
  c ← get_impl;
  match act c with
  | Some (mkMyActor true _) =>
      _ ← on_impl (set_act (Some (mkMyActor true true)));
      _ ← on_impl (spawn ());
      mret Continue
  | _ => mret Stop
  end.

(** The spawned future completes when the sender is gone. *)
Definition pending_poll (f : ()) : P (() * Poll () ()) :=
  c ← get_impl;
  mret (f, Ok (match act c with Some (mkMyActor _ true) => NotReady | _ => Ready () end)).

#[export] Instance lifecycle_actor : ActorCode (A := MyActor) (V := Flags) (Fut := ()) (M := ())
    (Txs := nat) (Txu := nat) (Task := nat) (Q := Queue) := {|
  started := store (fun v => mkFlags true (f_stopping v) (f_stopped v));
  stopping := lifecycle_stopping;
  stopped := store (fun v => mkFlags (f_started v) (f_stopping v) true);
  restarting := mret ();
  handle_unsync _ := mret ();
  handle_sync _ := mret ();
  fut_poll := pending_poll
|}.

(** The event loop polls the context. *)
Definition run : P () := _ ← poll false 9%nat 9; mret ().
Definition flags_set : P (list bool) :=
  v ← gets env; mret [f_started v; f_stopping v; f_stopped v].

(** The actor is started with the address [X], then [test] runs. *)
Definition start_and {X Y} `{!ActorAddress X} (restore : bool) (test : P Y) : option Y :=
  outcome_of ('(_, w, _) ← actor_start (mkMyActor restore false)
                         (get_address (X := X) : P X) (mkFlags false false false);
          test w).

Definition test_active_address : P (list bool) := _ ← run; flags_set.
(** The flags before and after the only address is dropped with [drop]. *)
Definition test_stop_after_drop (drop : Prog (@Mailbox () nat nat nat Queue) nat ())
  : P (list bool * list bool) :=
  _ ← run; before ← flags_set; _ ← via_mailbox drop; _ ← run; now ← flags_set; mret (before, now).

Example test_active_address_passes :
  start_and (X := @Addr ()) false test_active_address = Some [true; false; false] ∧
  start_and (X := @Addr SyncAddressSender) false test_active_address = Some [true; false; false].
Proof. split; vm_compute; reflexivity. Qed.

Example test_stop_after_drop_passes :
  start_and (X := @Addr ()) false (test_stop_after_drop (on_unsync UnsyncChannel.sender_drop)) =
    Some ([true; false; false], [true; true; true]) ∧
  start_and (X := @Addr SyncAddressSender) false
      (test_stop_after_drop (on_sync SyncChannel.sender_drop)) =
    Some ([true; false; false], [true; true; true]).
Proof. split; vm_compute; reflexivity. Qed.

(** [test_stop] and [test_stop_restore_after_stopping]: nobody asked for an address. *)
Example test_stop_passes :
  start_and (X := ()) false test_active_address = Some [true; true; true] ∧
  start_and (X := ()) true test_active_address = Some [true; true; false].
Proof. split; vm_compute; reflexivity. Qed.
End Lifecycle.

(** ** [tests/test_context.rs]: timers

    The clock and whether the system was told to exit are the outside world; a
    timer holds the time it fires at, in nanoseconds. *)
Module Timers.
Inductive Op : Type := Cancel | Timeout | TimeoutStop | RunAfter | RunAfterStop.
Record Outside : Type := mkOutside { now : Z; exited : bool; timeouts : nat }.

(** The closures of [run_later] are known by the [Op] that schedules them. *)
Inductive Item : Type :=
| Delayed (i : ActorDelayedMessageItem (Timer := Z) (M := ()))
| RunLater (armed : bool) (t : Z).
Abbreviation TWorld := (@World Op Outside Item () nat nat nat Queue).
Abbreviation P := (Prog TWorld nat).

Definition timer_new (d : Z) : P Z := gets (fun w => now (env w) + d).
Definition timer_poll (t : Z) : P (Poll () ()) :=
  gets (fun w => Ok (if t <=? now (env w) then Ready () else NotReady)).
Definition system_exit : P () :=
  modify (fun w => mkWorld (impl w) (mkOutside (now (env w)) true (timeouts (env w)))).

Definition the_op : P Op := c ← get_impl; lift (unwrap "no actor" (act c)).
Definition handle_timeout (m : ()) : P () :=
  op ← the_op;
  match op with
  | Timeout =>
      _ ← modify (fun w => mkWorld (impl w) (mkOutside (now (env w)) (exited (env w)) (S (timeouts (env w)))));
      system_exit
  | _ => lift (Panic "should not happen")
  end.
Definition run_later_closure : P () :=
  op ← the_op; match op with RunAfter => system_exit | _ => lift (Panic "error") end.

(** A [TimerFunc] as an item, and back. *)
Definition box_timer (i : TimerFunc (W := TWorld) (Task := nat) (Timer := Z)) : Item :=
  RunLater (bool_decide (is_Some (timer_f i))) (timer_timeout i).
Definition item_poll (i : Item) : P (Item * Poll () ()) :=
  match i with
  | Delayed i => '(i, r) ← delayed_item_poll timer_poll handle_timeout i; mret (Delayed i, r)
  | RunLater armed t =>
      '(i, r) ← timer_func_poll timer_poll (mkTimerFunc (if armed then Some run_later_closure else None) t);
      mret (box_timer i, r)
  end.

Definition timer_started : P () :=
  op ← the_op;
  match op with
  | Cancel =>
      h ← notify_later timer_new Delayed () 100; _ ← ctx_cancel_future h; mret ()
  | Timeout => _ ← notify_later timer_new Delayed () 1000; mret ()
  | TimeoutStop => _ ← notify_later timer_new Delayed () 1000000; ctx_stop
  | RunAfter => _ ← run_later timer_new box_timer 100 run_later_closure; mret ()
  | RunAfterStop => _ ← run_later timer_new box_timer 1000000000 run_later_closure; ctx_stop
  end.

#[export] Instance timer_actor : ActorCode (A := Op) (V := Outside) (Fut := Item) (M := ())
    (Txs := nat) (Txu := nat) (Task := nat) (Q := Queue) := {|
  started := timer_started;
  stopping := mret Stop;
  stopped := system_exit;
  restarting := mret ();
  handle_unsync e := mret ();
  handle_sync e := mret ();
  fut_poll := item_poll
|}.

(** The event loop polls the context, and again when [d] nanoseconds have passed
    unless it completed. *)
Definition sleep (d : Z) : P () :=
  modify (fun w => mkWorld (impl w) (mkOutside (now (env w) + d) (exited (env w)) (timeouts (env w)))).
Definition test_timeouts (op : Op) (d : Z) : option (bool * bool * nat) :=
  outcome_of ('(_, w, _) ← actor_start op (get_address (X := @Addr ()) : P (@Addr ())) (mkOutside 0 false 0);
          (r ← poll false 9%nat 9; v1 ← gets env; _ ← sleep d;
           _ ← match r with Ok NotReady => poll false 9%nat 9 | _ => mret r end; v2 ← gets env;
           mret (exited v1, exited v2, timeouts v2)) w).

(** Did the system exit at once, when the time had passed, and how often was the
    timeout handled?  The test_timeouts that cancels exits by itself. *)
Example timers_pass :
  test_timeouts Timeout 1000 = Some (false, true, 1%nat) ∧ test_timeouts Cancel 1000 = Some (false, false, 0%nat) ∧
  test_timeouts TimeoutStop 1000000 = Some (true, true, 0%nat) ∧ test_timeouts RunAfter 100 = Some (false, true, 0%nat) ∧
  test_timeouts RunAfterStop 1000000000 = Some (true, true, 0%nat).
Proof. split_and!; vm_compute; reflexivity. Qed.
End Timers.

(** ** [tests/test_context.rs]: messages and streams

    The handler counts the messages; with [waits] it then makes the context wait
    for a timer of ten seconds, which the test does not live to see. *)
Module Waiting.
Record Outside : Type := mkOutside { counted : nat; stored : list Z }.
Inductive Item : Type :=
| TenSeconds
| Note (i : ActorMessageItem (M := ()))
| Messages (l : list ())
| Stream (i : StreamItem (list ())).
Abbreviation WWorld := (@World bool Outside Item () nat nat nat Queue).
Abbreviation P := (Prog WWorld nat).

(** A stream whose items are all there. *)
#[export] Instance all_there {E} : ActorStream WWorld nat (list ()) () E := fun l =>
  mret (match l with [] => ([], Ok (Ready None)) | m :: l => (l, Ok (Ready (Some m))) end).

Definition waiting_handle (m : ()) : P () :=
  _ ← modify (fun w => mkWorld (impl w) (mkOutside (S (counted (env w))) (stored (env w))));
  c ← get_impl;
  match act c with Some true => spawner_wait TenSeconds | _ => mret () end.

(** [ContextHandle] stores the handle of the future that is being polled. *)
#[export] Instance handle_stream_handler : StreamHandler (W := WWorld) (Task := nat) () () := {|
  sh_handle _ :=
    h ← context_handle;
    modify (fun w => mkWorld (impl w) (mkOutside (counted (env w)) (stored (env w) ++ [h])));
  sh_started := default_started;
  sh_error := default_error;
  sh_finished := default_finished
|}.

#[export] Instance waiting_actor : ActorCode (A := bool) (V := Outside) (Fut := Item) (M := ())
    (Txs := nat) (Txu := nat) (Task := nat) (Q := Queue) := {|
  started := mret ();
  stopping := mret Stop;
  stopped := mret ();
  restarting := mret ();
  handle_unsync e := waiting_handle ();
  handle_sync e := waiting_handle ();
  fut_poll f :=
    match f with
    | TenSeconds => mret (f, Ok NotReady)
    | Note i => '(i, r) ← message_item_poll waiting_handle i; mret (Note i, r)
    | Messages l =>
        '(l, r) ← message_stream_poll (E := ()) waiting_handle 9 l; mret (Messages l, r)
    | Stream i => '(i, r) ← stream_item_poll (E := ()) 9 i; mret (Stream i, r)
    end
|}.

Definition run : P () := _ ← poll false 9%nat 9; mret ().
Definition ping : P () := via_mailbox (on_unsync (_ ← UnsyncChannel.do_send (); mret ())).
Definition test {Y} (waits : bool) (make : P ()) (t : P Y) : option Y :=
  outcome_of ('(_, w, _) ← actor_create (get_address (X := @Addr ()) : P (@Addr ()))
                         (_ ← make; mret waits) (mkOutside 0 []);
          t w).
Definition count : P nat := gets (fun w => counted (env w)).

(** [test_wait_context], [test_nowait_context]. *)
Definition three_pings : P nat := _ ← ping; _ ← ping; _ ← ping; _ ← run; count.
Example test_wait_context_passes :
  test true (mret ()) three_pings = Some 1%nat ∧ test false (mret ()) three_pings = Some 3%nat.
Proof. split; vm_compute; reflexivity. Qed.

(** [test_message_stream_wait_context], [test_message_stream_nowait_context]. *)
Definition stream_of_three : P () := add_message_stream Messages [(); (); ()].
Example test_message_stream_passes :
  test true stream_of_three (_ ← run; count) = Some 1%nat ∧
  test false stream_of_three (_ ← run; count) = Some 3%nat.
Proof. split; vm_compute; reflexivity. Qed.

(** [test_notify]. *)
Example test_notify_passes :
  test false (_ ← notify_self Note (); notify_self Note ()) (_ ← ping; _ ← run; count) = Some 3%nat.
Proof. vm_compute. reflexivity. Qed.

(** [test_current_context_handle]: the handle that [add_stream] returned and the
    one the handler saw. *)
Definition test_current_context_handle : option (SpawnHandle * list Z) :=
  outcome_of ((h ← add_stream Stream [()]; _ ← context_set_actor false; _ ← run;
           hs ← gets (fun w => stored (env w)); mret (h, hs) : P (SpawnHandle * list Z))
          (mkWorld (context_new None) (mkOutside 0 []))).
Example test_current_context_handle_passes : test_current_context_handle = Some (1, [1]).
Proof. vm_compute. reflexivity. Qed.
End Waiting.

(** ** [tests/test_address.rs]: requests

    The handler answers; with [waits] it then makes the context wait.  A oneshot
    channel is a number, [answered] holds those that were sent to. *)
Module Requests.
Record Outside : Type := mkOutside { clock : Z; counted : nat; answers : list nat }.
Abbreviation RWorld := (@World bool Outside () () nat nat nat Queue).
Abbreviation RMailbox := (@Mailbox () nat nat nat Queue).
Abbreviation P := (Prog RWorld nat).

#[export] Instance number_channel : ResponseChannel (W := RWorld) (Task := nat) nat () := {|
  rc_is_canceled _ _ := false;
  rc_send tx _ := modify (fun w =>
    mkWorld (impl w) (mkOutside (clock (env w)) (counted (env w)) (tx :: answers (env w))))
|}.
Definition requests_handle (m : ()) : P () :=
  _ ← modify (fun w => mkWorld (impl w)
        (mkOutside (clock (env w)) (S (counted (env w))) (answers (env w))));
  c ← get_impl;
  match act c with Some true => on_impl (wait_for ()) | _ => mret () end.
Definition open (e : Envelope () nat) : P () :=
  _ ← open_envelope requests_handle respond_value e; mret ().

#[export] Instance requests_actor : ActorCode (A := bool) (V := Outside) (Fut := ()) (M := ())
    (Txs := nat) (Txu := nat) (Task := nat) (Q := Queue) := {|
  started := mret ();
  stopping := mret Stop;
  stopped := mret ();
  restarting := mret ();
  handle_unsync := open;
  handle_sync := open;
  fut_poll f := mret (f, Ok NotReady)
|}.

(** *** Requests through an address, whose channel is in the mailbox *)

Section transport.
Context {Tr Ch : Type} `{!Transport Tr Ch () nat nat nat}.
Context (in_channel : ∀ X : Type, Prog Ch nat X → Prog RMailbox nat X).

Definition outside {X} (m : Prog (Ch * Outside) nat X) : P X := fun w =>
  let mb := mailbox (impl w) in
  '((x, v), mb, n) ← in_channel _ (fun c => '(x, (c, v), n) ← m (c, env w); Return ((x, v), c, n)) mb;
  Return (x, put_mailbox mb (mkWorld (impl w) v), n).

Definition rx_poll (rx : nat) : Prog Outside nat (Poll () ()) :=
  gets (fun v => Ok (if bool_decide (rx ∈ answers v) then Ready () else NotReady)).
Definition request_timeout_poll (t : Z) : Prog Outside nat (Poll () ()) :=
  gets (fun v => Ok (if t <=? clock v then Ready () else NotReady)).
Definition sleep (d : Z) : P () :=
  modify (fun w => mkWorld (impl w) (mkOutside (clock (env w) + d) (counted (env w)) (answers (env w)))).
Definition run : P () := _ ← poll false 9%nat 9; mret ().
Definition counted_so_far : P nat := gets (fun w => counted (env w)).

Abbreviation Request := (@Request Tr () nat Z).
Definition do_send (a : @Addr Tr) : P () := outside (addr_do_send () a).
Definition send (o : nat) (a : @Addr Tr) : P (Request * @Addr Tr) := outside (addr_send 1%nat (o, o) () a).
Definition ask (o : nat) (r : Request) : P (Poll () MailboxError * Request) :=
  outside (request_poll rx_poll request_timeout_poll 1%nat (o, o) r).

(** [test_message_timeout], [test_sync_message_timeout]: the answers of the
    request before and after the time has passed. *)
Definition test_message_timeout (a : @Addr Tr) : P (Poll () MailboxError * Poll () MailboxError * nat) :=
  _ ← do_send a;
  '(r, a) ← send 0 a;
  _ ← run;
  '(x1, r) ← ask 0 (set_timeout 1000 r);
  _ ← sleep 1000;
  '(x2, r) ← ask 0 r;
  n ← counted_so_far;
  mret (x1, x2, n).

(** [test_subscriber_call], [test_sync_subscriber_call]: one [do_send], then two
    requests, the second after the first was answered. *)
Definition test_subscriber_call (a : @Addr Tr) : P (Poll () MailboxError * Poll () MailboxError * nat) :=
  _ ← do_send a;
  '(r, a) ← send 0 a;
  _ ← run;
  '(x1, _) ← ask 0 r;
  '(r, a) ← send 1 a;
  _ ← run;
  '(x2, _) ← ask 1 r;
  n ← counted_so_far;
  mret (x1, x2, n).

Definition start_and {Y} `{!ActorAddress (@Addr Tr)} (waits : bool) (test : @Addr Tr → P Y) : option Y :=
  outcome_of ('(a, w, _) ← actor_start waits (get_address (X := @Addr Tr) : P (@Addr Tr)) (mkOutside 0 0 []);
          test a w).
End transport.

Abbreviation unsync := (fun X => @on_unsync () nat nat nat Queue X).
Abbreviation syn := (fun X => @on_sync () nat nat nat Queue X).

Example test_message_timeout_passes :
  start_and true (test_message_timeout unsync) = Some (Ok NotReady, Err MailboxTimeout, 1%nat) ∧
  start_and true (test_message_timeout syn) = Some (Ok NotReady, Err MailboxTimeout, 1%nat).
Proof. split; vm_compute; reflexivity. Qed.

Example test_subscriber_call_passes :
  start_and false (test_subscriber_call unsync) = Some (Ok (Ready ()), Ok (Ready ()), 3%nat) ∧
  start_and false (test_subscriber_call syn) = Some (Ok (Ready ()), Ok (Ready ()), 3%nat).
Proof. split; vm_compute; reflexivity. Qed.
End Requests.

(** ** [tests/test_actor.rs]: streams

    The handler adds the items up; [error] counts one and answers the actor's
    [Running]. *)
Module Streams.
Record Outside : Type := mkOutside { total : Z; ended : bool }.
Abbreviation Items := (list (Result Z ())).
Abbreviation SWorld := (@World Running Outside (StreamItem Items) () nat nat nat Queue).
Abbreviation P := (Prog SWorld nat).

Definition add (n : Z) : P () :=
  modify (fun w => mkWorld (impl w) (mkOutside (total (env w) + n) (ended (env w)))).

(** [stream::iter_result]. *)
#[export] Instance iter_result : ActorStream SWorld nat Items Z () := fun l =>
  mret (match l with
        | [] => ([], Ok (Ready None))
        | Ok n :: l => (l, Ok (Ready (Some n)))
        | Err e :: l => (l, Err e)
        end).

#[export] Instance sum_stream_handler : StreamHandler (W := SWorld) (Task := nat) Z () := {|
  sh_handle := add;
  sh_started := default_started;
  sh_error _ := _ ← add 1; c ← get_impl; lift (unwrap "no actor" (act c));
  sh_finished := modify (fun w => mkWorld (impl w) (mkOutside (total (env w)) true))
|}.

#[export] Instance streams_actor : ActorCode (A := Running) (V := Outside) (Fut := StreamItem Items) (M := ())
    (Txs := nat) (Txu := nat) (Task := nat) (Q := Queue) := {|
  started := mret ();
  stopping := mret Stop;
  stopped := mret ();
  restarting := mret ();
  handle_unsync e := mret ();
  handle_sync e := mret ();
  fut_poll := stream_item_poll (E := ()) 9
|}.

(** The count and the flag set by [finished]; the context has completed. *)
Definition test_streams (r : Running) (items : Items) : option (Poll () () * Z * bool) :=
  outcome_of ('(_, w, _) ← actor_create (get_address (X := ()) : P ())
                         (_ ← add_stream id items; mret r) (mkOutside 0 false);
          (x ← poll false 9%nat 9; v ← gets env; mret (x, total v, ended v)) w).

Definition with_error : Items := [Ok 1; Ok 1; Err (); Ok 1; Ok 1; Ok 1; Ok 1; Ok 1].
Example test_stream_passes :
  test_streams Stop (replicate 7 (Ok 1)) = Some (Ok (Ready ()), 7, true) ∧
  test_streams Stop with_error = Some (Ok (Ready ()), 3, true) ∧
  test_streams Continue with_error = Some (Ok (Ready ()), 8, true).
Proof. split_and!; vm_compute; reflexivity. Qed.
End Streams.

(** [test_restart_sync_actor]: the first actor of the worker stops itself in its
    message, the second one, which the factory makes, does not; then the address
    is dropped and the worker is told to stop. *)
Module SyncRestart.
Record Counts : Type := mkCounts { starts : Z; stoppings : Z; stops : Z; added : Z }.
Abbreviation P := (Prog (@SyncWorld bool Counts) nat).
Definition counting (f : Counts → Counts) : P () := modify (fun w => mkSyncWorld (sc w) (f (sc_env w))).

#[export] Instance restart_actor : SyncActor (A := bool) (Env := Z) (V := Counts) (Task := nat) := {|
  sync_started := counting (fun v => mkCounts (starts v + 1) (stoppings v) (stops v) (added v));
  sync_stopping := _ ← counting (fun v => mkCounts (starts v) (stoppings v + 1) (stops v) (added v));
                   mret Continue;
  sync_stopped := counting (fun v => mkCounts (starts v) (stoppings v) (stops v + 1) (added v));
  sync_handle n :=
    _ ← counting (fun v => mkCounts (starts v) (stoppings v) (stops v) (added v + n));
    c ← gets sc; if sc_act c : bool then sync_stop else mret ();
  factory := gets (fun w => starts (sc_env w) =? 0)
|}.

Definition run_all (l : list (option (SyncContextProtocol Z))) : P () :=
  _ ← run_start;
  foldr (fun p m => t ← run_turn p; match t with NextTurn => m | Leave _ => mret () end) (mret ()) l.
Example test_restart_sync_actor_passes :
  match run_all (Some <$> [Deliver 2; Deliver 4; StopWorker])
          (mkSyncWorld (sync_context_new true) (mkCounts 0 0 0 0)) with
  | Return (_, w, _) => sc_env w = mkCounts 2 2 2 6
  | _ => False
  end.
Proof. vm_compute. reflexivity. Qed.
End SyncRestart.

(** ** [tests/test_recursion.rs]

    Every message makes the actor send itself another one, through an address it
    makes and drops. *)
Module Recursion.
Abbreviation RWorld := (@World () () () () nat nat nat Queue).
Abbreviation P := (Prog RWorld nat).

Definition handle_count (e : Envelope () nat) : P () :=
  _ ← get_unsync_address;
  _ ← via_mailbox (on_unsync (_ ← UnsyncChannel.do_send (); UnsyncChannel.sender_drop));
  mret ().

#[export] Instance counter_actor : ActorCode (A := ()) (V := ()) (Fut := ()) (M := ())
    (Txs := nat) (Txu := nat) (Task := nat) (Q := Queue) := {|
  started := mret ();
  stopping := mret Stop;
  stopped := mret ();
  restarting := mret ();
  handle_unsync := handle_count;
  handle_sync := handle_count;
  fut_poll f := mret (f, Ok NotReady)
|}.

(** The actor is started and sent the first message. *)
Definition counter_world : RWorld :=
  match actor_start () (_ ← get_unsync_address;
          via_mailbox (on_unsync (_ ← UnsyncChannel.do_send (); mret ()))) () with
  | Return (_, w, _) => w
  | _ => mkWorld (new None) ()
  end.

(** The actor with a message in its mailbox, one address, and the flags [fl]. *)
Definition busy_world (fl : Z) : RWorld := mkWorld (set_flags fl (impl counter_world)) ().

Lemma drain_spins fuel fl n nr :
  fl = 3 ∨ fl = 35 →
  drain_loop (fun w : RWorld => waiting (impl w)) false fuel
    (poll_unsync (fun w : RWorld => mailbox (impl w)) put_mailbox 9%nat) handle_unsync n nr (busy_world fl) = OutOfFuel.
Proof.
  revert fl nr. induction fuel as [|fuel IH]; intros fl nr Hfl; [done |]. cbn [drain_loop].
  rewrite (prog_bind_quiet (gets _) _ _ false (busy_world fl)) by by destruct Hfl as [-> | ->].
  set (w1 := put_mailbox (mkMailbox None (mkChan true 1 (mkShared [] 16 [] None))) (busy_world fl)).
  rewrite (prog_bind_quiet (poll_unsync _ _ _) _ _ (Ok (Ready (Some (pack () None)))) w1)
    by by destruct Hfl as [-> | ->].
  rewrite (prog_bind_quiet (handle_unsync _) _ _ () (busy_world 35)) by by destruct Hfl as [-> | ->].
  rewrite (prog_bind_quiet (lift _) _ _ n (busy_world 35)) by reflexivity.
  apply IH. by right.
Qed.

(** The test expects a panic, which it gets in a debug build. *)
Example test_recursion_passes :
  poll true 9%nat 300 counter_world =
  Panic "Use Self::Context::notify() instead of direct use of address".
Proof. vm_compute. reflexivity. Qed.

(** In a release build nothing stops it: one poll of the context never ends. *)
Theorem recursion_spins fuel : poll false 9%nat fuel counter_world = OutOfFuel.
Proof.
  rewrite poll_unfold by by eexists.
  rewrite (prog_bind_quiet poll_start _ _ () (busy_world 35)) by reflexivity.
  destruct fuel as [|fuel]; [done |]. cbn [outer_loop].
  rewrite (prog_bind_quiet (on_impl _) _ _ () (busy_world 3)) by reflexivity.
  rewrite (prog_bind_quiet (wait_loop _) _ _ false (busy_world 3)) by reflexivity.
  assert (mailbox_poll false 9%nat (S fuel) (busy_world 3) = OutOfFuel) as Hm.
  { unfold mailbox_poll, Mailbox.poll. cbn [poll_loop]. unfold mbind, prog_bind.
    pose proof (drain_spins (S fuel) 3 0 true (or_introl eq_refl)) as Hd. by rewrite Hd. }
  unfold mbind at 1, prog_bind at 1. by rewrite Hm.
Qed.
End Recursion.

(** ** [tests/test_fut.rs]

    The futures and the stream the actors wait for, polled at once and when their
    timeout of 100 nanoseconds has passed; the outside world is the clock and the
    flag the closures set. *)
Module Timeouts.
Record Outside : Type := mkOutside { clock : Z; timed_out : bool }.
Abbreviation P := (Prog Outside nat).
Inductive Error : Type := ETimeout | EGeneric.

Record Sleep : Type := mkSleep { until : Z }.
Definition sleep_poll (s : Sleep) : P (Poll () ()) :=
  gets (fun v => Ok (if until s <=? clock v then Ready () else NotReady)).
#[export] Instance sleep_fut : ActorFuture Outside nat Sleep () Error := fun s =>
  p ← sleep_poll s; mret (s, match p with Ok x => Ok x | Err _ => Err EGeneric end).
#[export] Instance sleep_stream : ActorStream Outside nat Sleep () Error := fun s =>
  p ← sleep_poll s;
  mret (s, match p with Ok (Ready _) => Ok (Ready (Some ())) | Ok NotReady => Ok NotReady | Err _ => Err EGeneric end).
Definition timer_new (d : Z) : P Sleep := gets (fun v => mkSleep (clock v + d)).
Definition wait_until (t : Z) : P () := modify (fun v => mkOutside t (timed_out v)).
Definition on_error (e : Error) : P () :=
  match e with ETimeout => modify (fun v => mkOutside (clock v) true) | EGeneric => mret () end.

#[export] Instance timeout_instance : ActorFuture Outside nat (Timeout Sleep Error Sleep) () Error :=
  timeout_poll sleep_poll.
Definition test_fut_timeout : P (Poll () () * Poll () () * bool) :=
  t ← timer_new 100;
  '(f, x1) ← map_err_poll (map_err_new (mkTimeout (mkSleep 5000000) (Some ETimeout) t) on_error);
  _ ← wait_until 100;
  '(f, x2) ← map_err_poll f;
  b ← gets timed_out;
  mret (x1, x2, b).
Example test_fut_timeout_passes :
  outcome_of (test_fut_timeout (mkOutside 0 false)) = Some (Ok NotReady, Err (), true).
Proof. vm_compute. reflexivity. Qed.

#[export] Instance stream_timeout_instance :
  ActorStream Outside nat (StreamTimeout Sleep Error Z Sleep) () Error :=
  stream_timeout_poll timer_new sleep_poll.
Definition test_stream_timeout : P (Poll () () * Poll () () * bool) :=
  '(f, x1) ← finish_poll 9 (mkStreamMapErr (mkStreamTimeout (mkSleep 5000000) ETimeout 100 None) on_error);
  _ ← wait_until 100;
  '(f, x2) ← finish_poll 9 f;
  b ← gets timed_out;
  mret (x1, x2, b).
Example test_stream_timeout_passes :
  outcome_of (test_stream_timeout (mkOutside 0 false)) = Some (Ok NotReady, Err (), true).
Proof. vm_compute. reflexivity. Qed.
End Timeouts.
